(* ===== verification/_CoqProject ===== *)
-Q . S2P
Prelude.v
Mem.v
MappedLog.v
Paths.v
Text.v
Record.v
Batch.v
SeqlockTso.v
History.v
SeqlockTsoProof.v
Reloc.v
Reorder.v
PQueue.v
KWay.v
Merge.v
Sched.v
Replay.v
ReplayProof.v
Pipeline.v
Correctness.v
Files.v
TsoCorrectness.v
RecordLive.v
ReplayTso.v
ReplayTsoProof.v
TsoReplay.v
DebugAccess.v
DebugReplay.v
Barrier.v
Clients.v
Racey.v
Addcnt.v
Infer.v
Relay.v
SpinLock.v
TicketLock.v
Commit.v
CommitTso.v
CommitReplay.v
CommitReplayProof.v
CommitCorrectness.v
CommitReplayTso.v
CommitFiles.v
CommitTsoReplay.v
CommitLive.v
CommitClients.v
TestScript.v
Tls.v
Tsx.v
MmapTest.v
