(* ===== verification/Prelude.v ===== *)
(** * Recording and replaying the order of shared memory accesses

    The program records the order in which threads access shared objects and
    replays it.  A client ([racey.c], [addcnt.c]) makes all its accesses through
    [mem_read] and [mem_write] of [mem.h] and is linked with a recorder or with a
    replayer.  There are two schemes.

    - _Memory order._  Every object has a version, which a write advances by two.
      A recorder ([mem-record-seqlock.c], [-seqbatch.c], [-rtmseq.c],
      [-rtmcluster.c] over [mem-record.c]) logs, per thread, the accesses that
      have to wait for a version, and the reads a later write has to wait for.
      [reorder-memop.cpp] groups the second log by object, [merge-memop.cpp] merges
      the threads' logs and writes an index, and [mem-replay.c] makes every access
      wait as the logs say.
    - _Commit order._  [mem-record-rtmcommit.c] runs every seven accesses as a block,
      a hardware transaction or a section under a lock, and logs the time of its
      commit; [merge-commit.cpp] merges the times into one order of blocks, and
      [mem-replay-rtmcommit.c] runs the blocks in that order.

    All logs are memory-mapped files ([log.c], [log.h]).  [test.sh] puts the parts
    together: it records a client, runs the tools, replays, and compares what the
    two runs printed.

    ** Files

    - [Prelude]: outcomes of C code, arrays, machine-width wrap-around, lists,
      automation.
    - [Mem]: the entry structures of [mem.h]; a client thread as the tree of the
      accesses it makes ([prog]); the build without recording; [calloc_check] of
      [mem.c].
    - [MappedLog], [Paths]: [log.c] and [log.h].  A mapped log is its pointers and
      the bytes of its file; [enlarge_mapped_log] moves the window.  Structures are
      stored field by field ([log_entry], with an instance per structure).
    - [Text]: the C and C++ library's conversions of numbers from and to text.
    - [Record], [Batch]: [mem-record.c] and what the recorders log at an access;
      the batching of [mem-record-seqbatch.c] and [mem-record-rtmcluster.c].  The
      class [recorder_ok] is what the rest relies on.
    - [SeqlockTso], [SeqlockTsoProof]: the instructions of the recorders'
      [mem_read] and [mem_write], with their spin lock and transactions, on
      x86-TSO.  [History] is their specification: atomic accesses.  [RecordLive]:
      they finish.
    - [Reorder], [PQueue], [KWay], [Merge]: the tools.  [prio_queue_ok] is what the
      C++ standard promises of [std::priority_queue].
    - [Sched]: schedules, fairness, and the class [live_machine] from which safety
      and termination of every machine here follow.
    - [Replay], [ReplayProof]: [mem-replay.c] as a machine one step of which is one
      access to shared data; its invariant and measure.
    - [Pipeline], [Correctness], [Files], [TsoCorrectness]: the parts put together,
      on lists of entries and on files of bytes.
    - [Reloc]: the same program with its objects at other addresses, as the
      replayed client has them, which is another executable, and with other
      contents of memory it did not initialize.
    - [ReplayTso], [ReplayTsoProof], [TsoReplay]: the instructions of [Replay] with
      store buffers; a state with buffered stores corresponds to the state of
      [Replay] in which they have been made, so the results carry over.
    - [DebugAccess], [DebugReplay]: the log and the check that [DEBUG_ACCESS]
      compiles in, on the machine of [ReplayTso] and on files, for the three
      recorders that call [log_access] (rtmcluster cannot be built with it).
    - [Barrier], [Clients], [Racey], [Addcnt], [CommitClients]: the clients; the
      start barrier is a machine of its own on x86-TSO.
    - [Commit], [CommitReplay], [CommitReplayProof], [CommitCorrectness],
      [CommitFiles]: the commit order scheme, its machines with memory as one store.
    - [CommitTso], [CommitReplayTso], [CommitTsoReplay], [CommitLive]: the same on
      x86-TSO, where the lock is the ticket lock: the instructions of [bb_start],
      [bb_end] and the replayer's turn-taking, refinement of the former machines,
      and that recordings finish.
    - [TestScript]: [test.sh], and the [main] functions it runs with their arguments
      as strings.
    - [SpinLock], [TicketLock]: [spinlock.h], [ticket-spinlock.h], each with its
      releases in store buffers.
    - [Infer], [Relay], [MmapTest]: the stand-alone [infer.c], [relay.c], on
      x86-TSO, and [replay-log/mmap-test.c].
    - [Tls]: [tls.h] and [tls.c].
    - [Tsx]: [tsx/cpuid.h], [tsx/assert.h] and [tsx/tsx-assert.c].

    ** What the theorems show

    - Every run of a recorder on x86-TSO is a sequence of atomic accesses
      ([tso_implements_atomic], [tso_mutual_exclusion]), of which the logs hold
      exactly what replay needs ([seqlock_logs_sound_complete],
      [batch_logs_equal_seqlock]); the build without recording has the same run.
    - The tools compute what they mean to ([reorder_stable_sort],
      [merge_sorts_and_indexes]) and reject what they have to
      ([reorder_rejects_unknown_object], [merge_rejects_too_many_threads]).
    - No interleaving of the replayer fails, some thread can always move, every
      fair schedule finishes, and a finished replay has the recorded memory and
      results ([replay_never_fails], [replay_deadlock_free], [replay_terminates],
      [replay_reproduces]).
    - End to end, from the recorder's instructions through files of bytes to the
      replayer's final state, both on x86-TSO: [tso_record_tso_replay]; with the
      block boundaries of rtmcluster, and from the first access on,
      [cluster_record_replay].  Entries survive
      being written: [logged_entries_fit], [log_roundtrip]; an empty log cannot be
      opened ([empty_log_unreadable]).
    - Recordings finish under every fair schedule: [recording_finishes],
      [commit_recording_finishes].
    - The commit order scheme: [commit_record_serializable],
      [commit_lock_exclusive], [commit_tso_record_replay]; a thread without accesses
      makes the tool fail ([commit_idle_thread_rejected]).
    - The test of the repository passes for racey with every recorder and number of
      threads, if schedules are fair: [test_script_passes].
    - The self-check never fires on a recording's replay and accepts nothing else
      ([debug_access_passes], [debug_check_sound]), again on x86-TSO and with files.
    - Clients: [racey_replays], [sync_thread_barrier]; [addcnt_replays]: replaying
      addcnt repeats its computation, but from memory that it never initializes, so
      that what it prints is the same only if that memory was;
      [addcnt_thread_functions] is a slip in the selection of thread functions.
    - Locks and the rest: [spin_lock_exclusive], [ticket_mutual_exclusion],
      [ticket_fifo], [ticket_lockable_iff], [relay_counts], [tls_private],
      [infer_writes_wars],
      [infer_terminates], [infer_main_out_of_bounds], [tsx_assert_reports],
      [mmap_writes_agree].

    ** Conventions and bounds

    Failing C code is an [Err]: an assertion, [exit(1)], [abort()], an access
    outside an array.  [OutOfFuel] is no C behaviour: loops whose length is the
    number of entries of a log have that number as fuel, [infer]'s loop the length of
    its text and [tsx_assert_fail]'s the number of open transactions, and the
    theorems show that a result is reached.  Integers are [Z]; wrap-around is written where the code
    relies on a width ([wrap_u], [wrap_s]: thread ids, times, tickets, the [int]
    block counters, the clients' arithmetic), and [logged_entries_fit] shows that logged versions and counts fit
    their types.  The theorems on the memory order pipeline assume fewer than 2^31
    recorded accesses, which the [int] counters of the tools need, and at most 127
    threads, which [tid_t] needs.  [g_sim_bbcnt] of [mem-record-rtmcluster.c] and of
    [mem-replay-rtmcommit.c] is an [int], which overflows at 2^31 accesses of one
    thread: [cluster_record_replay] and [commit_tso_record_replay] are for fewer.  In
    [mem-record-rtmcommit.c] it is an [int64_t], and its overflow is out of reach.  Loop counts of the clients are parameters up to
    the constants of the source.

    A schedule is a list of threads; a fair schedule is a list of rounds in each of
    which every thread, and where there are store buffers every buffer, takes a step.
    A transaction takes effect at its commit or not at
    all, and a thread may fall back to the lock at any time; [Commit] and [SeqlockTso]
    let it also try again, so their runs include those of the code.  A recorder's transaction
    starts and commits with an empty store buffer.  Addresses that [mmap] returns
    are parameters, page aligned.  So is what memory that is not initialized holds
    (addcnt's counters, for each executable on its own), and what value each thread
    has of the key of [tls.h], which no code here sets.

    ** Not modelled

    - Orders weaker than x86-TSO, and what a compiler may do to accesses that are
      neither atomic nor volatile: an access of the source is one load or store.
      [Replay], [Commit] and [CommitReplay] have memory as one store; the machines
      on x86-TSO refine them.
    - Failures of system calls and allocations, except opening a file that is
      missing or empty; they end in [exit(1)].
    - That the thread-local [memop_cnt] of a replayed thread may be gone once the
      thread has returned: [mem-replay.c] keeps a pointer to it, and the model its
      last value.
    - addcnt with the commit order scheme, beyond the definitions.
    - Output to the terminal and to stderr, timing ([time.c], compiled out),
      statistics, CPU binding and the signal handler of [addcnt.c].
    - [rdtsc] of [mem-record-rtmcommit.c], which is not selected; the printing macros
      of [debug.h]; the intrinsics of [tsx/rtm.h] are the processor's.
    - The Go, Ruby and Lua tools and the shell scripts other than [test.sh]. *)

(** ** Prelude: shared vocabulary *)
From stdpp Require Export base tactics list gmap numbers sorting option.
From Stdlib Require Export ZArith Lia.

#[global] Open Scope Z_scope.
#[global] Unset Mangle Names.

(** ** Failing computations

    The C code stops in one of these ways; everything else is a value. *)
Inductive err :=
| AssertFail          (* a failed assert() *)
| ExitFailure         (* exit(1) after an error message *)
| Abort               (* abort() *)
| BadAccess           (* an access outside an allocated array or mapping *)
| OutOfFuel.          (* a bounded loop of the model was cut short: no C behaviour *)

Inductive outcome (A : Type) :=
| Ok (a : A)
| Err (e : err).
Arguments Ok {A} _.
Arguments Err {A} _.

#[global] Instance err_eq_dec : EqDecision err.
Proof. solve_decision. Defined.

#[global] Instance outcome_ret : MRet outcome := λ A a, Ok a.
#[global] Instance outcome_bind : MBind outcome := λ A B f m,
  match m with Ok a => f a | Err e => Err e end.
#[global] Instance outcome_fmap : FMap outcome := λ A B f m,
  match m with Ok a => Ok (f a) | Err e => Err e end.

(** The value of a computation that succeeds. *)
Definition value {A} (d : A) (m : outcome A) : A :=
  match m with Ok a => a | Err _ => d end.

Definition is_ok {A} (r : outcome A) : bool := match r with Ok _ => true | Err _ => false end.

Lemma value_ok {A} (d : A) (r : outcome A) : is_ok r = true → r = Ok (value d r).
Proof. by destruct r. Qed.

(** [assert(P)]. *)
Definition c_assert (P : Prop) `{Decision P} : outcome unit :=
  if decide P then Ok () else Err AssertFail.

Lemma bind_Ok {A B} (m : outcome A) (f : A → outcome B) b :
  m ≫= f = Ok b ↔ ∃ a, m = Ok a ∧ f a = Ok b.
Proof. destruct m; cbn; naive_solver. Qed.

Lemma c_assert_Ok (P : Prop) `{Decision P} u : c_assert P = Ok u ↔ P.
Proof. unfold c_assert. destruct u. case_decide; naive_solver. Qed.

Lemma c_assert_true (P : Prop) `{Decision P} : P → c_assert P = Ok ().
Proof. intros. by apply c_assert_Ok. Qed.

Lemma c_assert_false (P : Prop) `{Decision P} : ¬ P → c_assert P = Err AssertFail.
Proof. intros. unfold c_assert. by rewrite decide_False. Qed.

(** ** C arrays

    An array of [n] cells is a finite map on the indices [0 .. n-1]; an index
    outside it is a [BadAccess]. *)
Definition arr_get {A} (a : gmap Z A) (i : Z) : outcome A :=
  match a !! i with Some x => Ok x | None => Err BadAccess end.

Definition arr_set {A} (a : gmap Z A) (i : Z) (x : A) : outcome (gmap Z A) :=
  match a !! i with Some _ => Ok (<[i := x]> a) | None => Err BadAccess end.

(** [n] cells that all hold [x]. *)
Definition arr_make {A} (n : Z) (x : A) : gmap Z A :=
  list_to_map ((λ i, (i, x)) <$> seqZ 0 n).

Lemma arr_get_Ok {A} (a : gmap Z A) i x : arr_get a i = Ok x ↔ a !! i = Some x.
Proof. unfold arr_get. destruct (a !! i); naive_solver. Qed.

Lemma arr_get_lookup {A} (a : gmap Z A) i x : a !! i = Some x → arr_get a i = Ok x.
Proof. apply arr_get_Ok. Qed.

Lemma arr_set_lookup {A} (a : gmap Z A) i x y :
  a !! i = Some y → arr_set a i x = Ok (<[i := x]> a).
Proof. unfold arr_set. by intros ->. Qed.

Lemma arr_set_Ok {A} (a : gmap Z A) i x a' :
  arr_set a i x = Ok a' ↔ is_Some (a !! i) ∧ a' = <[i := x]> a.
Proof. unfold arr_set, is_Some. destruct (a !! i); naive_solver. Qed.

Lemma lookup_arr_make {A} (n : Z) (x : A) i :
  arr_make n x !! i = if decide (0 ≤ i < n) then Some x else None.
Proof.
  unfold arr_make. case_decide as Hi.
  - apply elem_of_list_to_map_1.
    + rewrite <- list_fmap_compose. unfold compose; cbn.
      rewrite list_fmap_id. apply NoDup_seqZ.
    + apply list_elem_of_fmap. exists i. split; [done|]. apply elem_of_seqZ. lia.
  - apply not_elem_of_list_to_map_1. rewrite <- list_fmap_compose.
    intros Hin. apply list_elem_of_fmap in Hin as (j & -> & Hj). cbn in Hi.
    apply elem_of_seqZ in Hj. lia.
Qed.

(** ** Machine integers

    Unsigned and signed two's complement wrap-around at width [w]. *)
Definition wrap_u (w z : Z) : Z := z mod 2 ^ w.
Definition wrap_s (w z : Z) : Z := (z + 2 ^ (w - 1)) mod 2 ^ w - 2 ^ (w - 1).

Lemma wrap_u_id w z : 0 ≤ z < 2 ^ w → wrap_u w z = z.
Proof. intros. unfold wrap_u. by apply Z.mod_small. Qed.

Lemma wrap_u_range w z : 0 ≤ w → 0 ≤ wrap_u w z < 2 ^ w.
Proof. intros. unfold wrap_u. apply Z.mod_pos_bound. lia. Qed.

Lemma wrap_s_id w z : 1 ≤ w → - 2 ^ (w - 1) ≤ z < 2 ^ (w - 1) → wrap_s w z = z.
Proof.
  intros Hw Hz. unfold wrap_s.
  assert (2 ^ w = 2 * 2 ^ (w - 1)) as E.
  { rewrite <- Z.pow_succ_r by lia. f_equal. lia. }
  rewrite Z.mod_small by lia. lia.
Qed.

Lemma wrap_s_range w z : 1 ≤ w → - 2 ^ (w - 1) ≤ wrap_s w z < 2 ^ (w - 1).
Proof.
  intros Hw. unfold wrap_s.
  assert (2 ^ w = 2 * 2 ^ (w - 1)) as E.
  { rewrite <- Z.pow_succ_r by lia. f_equal. lia. }
  pose proof (Z.mod_pos_bound (z + 2 ^ (w - 1)) (2 ^ w)). lia.
Qed.

(** ** Lists *)

Lemma lookup_snoc_inv {A} (l : list A) x i y :
  (l ++ [x]) !! i = Some y → l !! i = Some y ∨ i = length l ∧ y = x.
Proof.
  intros H. apply lookup_app_Some in H as [H|[Hi H]]; [by left|right].
  apply list_lookup_singleton_Some in H as [E ->]. split; [lia|done].
Qed.

Lemma lookup_snoc_old {A} (l : list A) x i y :
  l !! i = Some y → (l ++ [x]) !! i = Some y.
Proof. intros. by apply lookup_app_l_Some. Qed.

Lemma lookup_snoc_new {A} (l : list A) x : (l ++ [x]) !! length l = Some x.
Proof. rewrite lookup_app_r by lia. by rewrite Nat.sub_diag. Qed.

Lemma StronglySorted_snoc {A} (R : relation A) l x :
  StronglySorted R l → (∀ y, y ∈ l → R y x) → StronglySorted R (l ++ [x]).
Proof.
  intros Hl Hx. apply StronglySorted_app_2; [|done|repeat constructor].
  intros y z Hy ->%list_elem_of_singleton. auto.
Qed.

Lemma StronglySorted_all {A} (R : relation A) l :
  (∀ x y, x ∈ l → y ∈ l → R x y) → StronglySorted R l.
Proof.
  induction l as [|a l IH]; intros H; constructor.
  - apply IH. intros x y Hx Hy. apply H; by apply list_elem_of_further.
  - apply list.Forall_forall. intros x Hx. apply H; [apply list_elem_of_here|].
    by apply list_elem_of_further.
Qed.

Lemma StronglySorted_lookup_lt {A} (R : relation A) l i j x y :
  StronglySorted R l → (i < j)%nat → l !! i = Some x → l !! j = Some y → R x y.
Proof.
  intros Hl. revert i j. induction Hl as [|a l Hl IH Ha]; intros i j Hij; [done|].
  destruct i as [|i], j as [|j]; try lia; cbn.
  - intros [= ->] Hj. eapply list.Forall_forall in Ha; [done|]. by eapply list_elem_of_lookup_2.
  - apply IH. lia.
Qed.

Lemma filter_filter_le {A} (f : A → Z) (l : list A) m m' : m ≤ m' →
  filter (λ e, m' ≤ f e) (filter (λ e, m ≤ f e) l) = filter (λ e, m' ≤ f e) l.
Proof.
  intros Hle. rewrite list_filter_filter. apply list_filter_iff. intros x. lia.
Qed.

Lemma filter_all {A} (P : A → Prop) `{!∀ x, Decision (P x)} (l : list A) :
  (∀ x, x ∈ l → P x) → filter P l = l.
Proof.
  induction l as [|a l IH]; intros Hall; [done|].
  rewrite filter_cons_True by (apply Hall; set_solver). f_equal. apply IH. set_solver.
Qed.

Lemma filter_ext_in {A} (P Q : A → Prop) `{!∀ x, Decision (P x), !∀ x, Decision (Q x)}
    (l : list A) : (∀ x, x ∈ l → P x ↔ Q x) → filter P l = filter Q l.
Proof.
  induction l as [|a l IH]; intros Hall; [done|]. rewrite !filter_cons.
  specialize (Hall a ltac:(set_solver)) as Ha. rewrite IH by (intros x Hx; apply Hall; set_solver).
  repeat case_decide; tauto.
Qed.

Lemma filter_none {A} (P : A → Prop) `{!∀ x, Decision (P x)} (l : list A) :
  (∀ x, x ∈ l → ¬ P x) → filter P l = [].
Proof.
  induction l as [|a l IH]; intros Hall; [done|].
  rewrite filter_cons_False by (apply Hall; set_solver). apply IH. set_solver.
Qed.

Lemma filter_or_Permutation {A} (P Q : A → Prop) `{!∀ x, Decision (P x), !∀ x, Decision (Q x)}
    (l : list A) :
  (∀ x, ¬ (P x ∧ Q x)) → filter (λ x, P x ∨ Q x) l ≡ₚ filter P l ++ filter Q l.
Proof.
  intros Hd. induction l as [|a l IH]; [done|]. specialize (Hd a). rewrite !filter_cons.
  destruct (decide (P a)), (decide (Q a)); rewrite ?decide_True, ?decide_False by tauto.
  - tauto.
  - cbn. by rewrite IH.
  - rewrite <- Permutation_middle. by rewrite IH.
  - done.
Qed.

(** Collecting the elements key by key. *)
Lemma mjoin_fmap_bind {A B} (f : A → list B) (l : list A) : mjoin (f <$> l) = l ≫= f.
Proof. induction l as [|x l IH]; [done|]. cbn. by rewrite <- IH. Qed.

Lemma bind_filter_Permutation {A} (f : A → Z) (ks : list Z) (l : list A) : NoDup ks →
  (ks ≫= λ k, filter (λ e, f e = k) l) ≡ₚ filter (λ e, f e ∈ ks) l.
Proof.
  induction 1 as [|k ks Hk Hks IH]; cbn [mbind list_bind].
  - by induction l; cbn.
  - rewrite IH, <- filter_or_Permutation by (intros e [-> ?]; done).
    erewrite list_filter_iff; [done|]. intros e. by rewrite elem_of_cons.
Qed.

Lemma StronglySorted_impl_in {A} (R S : relation A) l :
  (∀ x y, x ∈ l → y ∈ l → R x y → S x y) → StronglySorted R l → StronglySorted S l.
Proof.
  intros HRS Hl. induction Hl as [|a l Hl IH Ha]; constructor.
  - apply IH. intros x y Hx Hy. apply HRS; set_solver.
  - apply list.Forall_forall. intros x Hx. apply HRS; [set_solver..|].
    by eapply list.Forall_forall in Ha.
Qed.

Lemma StronglySorted_filter {A} (R : relation A) (P : A → Prop) `{!∀ x, Decision (P x)} l :
  StronglySorted R l → StronglySorted R (filter P l).
Proof.
  induction 1 as [|a l Hl IH Ha]; [constructor|]. rewrite filter_cons. case_decide; [|done].
  constructor; [done|]. apply list.Forall_forall. intros x [_ Hx]%list_elem_of_filter.
  by eapply list.Forall_forall in Ha.
Qed.

Lemma StronglySorted_fmap {A B} (f : A → B) (R : relation A) (S : relation B) l :
  (∀ x y, x ∈ l → y ∈ l → R x y → S (f x) (f y)) → StronglySorted R l →
  StronglySorted S (f <$> l).
Proof.
  intros HRS Hl. induction Hl as [|a l Hl IH Ha]; cbn; constructor.
  - apply IH. intros x y Hx Hy. apply HRS; set_solver.
  - apply list.Forall_forall. intros y (x & -> & Hx)%list_elem_of_fmap. apply HRS; [set_solver..|].
    by eapply list.Forall_forall in Ha.
Qed.

Lemma seqZ_snoc m n : 0 ≤ n → seqZ m (n + 1) = seqZ m n ++ [m + n].
Proof. intros. rewrite seqZ_app by lia. by rewrite (seqZ_cons _ 1), (seqZ_nil _ (Z.pred 1)) by lia. Qed.

Lemma StronglySorted_seqZ_lt m n : StronglySorted Z.lt (seqZ m n).
Proof.
  remember (Z.to_nat n) as k eqn:Hk. revert m n Hk.
  induction k as [|k IH]; intros m n Hk; [rewrite seqZ_nil by lia; constructor|].
  rewrite seqZ_cons by lia. constructor; [apply IH; lia|].
  apply list.Forall_forall. intros x Hx%elem_of_seqZ. lia.
Qed.

(** The first element of a list that fails a test, if there is one. *)
Lemma list_first_fail {A} (P : A → Prop) `{!∀ x, Decision (P x)} (l : list A) :
  (∀ x, x ∈ l → P x) ∨
  ∃ i x, l !! i = Some x ∧ ¬ P x ∧ ∀ j y, (j < i)%nat → l !! j = Some y → P y.
Proof.
  induction l as [|a l IH]; [left; set_solver|].
  destruct (decide (P a)) as [Ha|Ha].
  - destruct IH as [Hall|(i & x & Hi & Hx & Hbefore)].
    + left. intros x [->|?]%elem_of_cons; auto.
    + right. exists (S i), x. split_and!; [done..|].
      intros [|j] y Hj; cbn; [by intros [= <-]|]. apply Hbefore. lia.
  - right. exists 0%nat, a. split_and!; [done..|]. intros j y Hj. lia.
Qed.

Lemma sum_list_with_ext {A} (f g : A → nat) (l : list A) :
  (∀ a, a ∈ l → f a = g a) → sum_list_with f l = sum_list_with g l.
Proof.
  induction l as [|a l IH]; intros H; [done|]. cbn. rewrite (H a) by set_solver.
  rewrite IH; [done|]. intros b Hb. apply H. set_solver.
Qed.

Lemma sum_list_with_le {A B} (f : A → nat) (g : B → nat) (l : list A) (k : list B) :
  length l = length k →
  (∀ i a b, l !! i = Some a → k !! i = Some b → (f a ≤ g b)%nat) →
  (sum_list_with f l ≤ sum_list_with g k)%nat.
Proof.
  intros Hlen H. assert (Forall2 (λ a b, (f a ≤ g b)%nat) l k) as HF.
  { by apply Forall2_same_length_lookup_2. }
  clear Hlen H. induction HF; cbn; lia.
Qed.

(** A sum over a list without duplicates changes by what one element changes. *)
Lemma sum_list_with_update {A} (f g : A → nat) (l : list A) a :
  NoDup l → a ∈ l → (∀ b, b ∈ l → b ≠ a → f b = g b) →
  (sum_list_with f l + g a = sum_list_with g l + f a)%nat.
Proof.
  induction 1 as [|b l Hb Hl IH]; intros Ha Hfg; [set_solver|]. cbn.
  apply elem_of_cons in Ha as [->|Ha].
  - assert (sum_list_with f l = sum_list_with g l) as ->; [|lia].
    apply sum_list_with_ext. intros c Hc. apply Hfg; [set_solver|]. by intros ->.
  - rewrite (Hfg b); [|set_solver|intros ->; done].
    assert (sum_list_with f l + g a = sum_list_with g l + f a)%nat; [|lia].
    apply IH; [done|]. intros c Hc. apply Hfg. set_solver.
Qed.

(** Filtering keeps the order of positions, both ways. *)
Lemma filter_lookup_lt {A} (P : A → Prop) `{!∀ x, Decision (P x)} (l : list A) i j x y :
  (i < j)%nat → filter P l !! i = Some x → filter P l !! j = Some y →
  ∃ i' j', (i' < j')%nat ∧ l !! i' = Some x ∧ l !! j' = Some y.
Proof.
  revert i j. induction l as [|a l IH]; intros i j Hij; [done|].
  rewrite filter_cons. case_decide as Ha.
  - destruct i as [|i], j as [|j]; try lia; cbn; intros Hi Hj.
    + apply list_elem_of_lookup_2, list_elem_of_filter in Hj as [_ Hj].
      apply list_elem_of_lookup_1 in Hj as [j' Hj]. exists 0%nat, (S j'). split; [lia|done].
    + destruct (IH i j) as (i' & j' & ? & ? & ?); [lia|done..|].
      exists (S i'), (S j'). split; [lia|done].
  - intros Hi Hj. destruct (IH i j) as (i' & j' & ? & ? & ?); [lia|done..|].
    exists (S i'), (S j'). split; [lia|done].
Qed.

Lemma lookup_filter_lt {A} (P : A → Prop) `{!∀ x, Decision (P x)} (l : list A) i' j' x y :
  (i' < j')%nat → l !! i' = Some x → l !! j' = Some y → P x → P y →
  ∃ i j, (i < j)%nat ∧ filter P l !! i = Some x ∧ filter P l !! j = Some y.
Proof.
  intros Hij Hi Hj Px Py. revert i' j' Hij Hi Hj.
  induction l as [|a l IH]; intros i' j' Hij Hi Hj; [done|]. rewrite filter_cons.
  destruct i' as [|i'], j' as [|j']; try lia; cbn in *.
  - injection Hi as ->. rewrite decide_True by done.
    apply list_elem_of_lookup_2 in Hj as Hj'.
    destruct (list_elem_of_lookup_1 (filter P l) y) as [j Hy].
    { by apply list_elem_of_filter. }
    exists 0%nat, (S j). split; [lia|done].
  - destruct (IH i' j') as (i & j & ? & ? & ?); [lia|done..|].
    case_decide; [exists (S i), (S j)|exists i, j]; (split; [lia|done]).
Qed.

(** Running a fallible function on every element. *)
Lemma sum_list_with_Forall2 {A B} (f : A → nat) (g : B → nat) l k :
  Forall2 (λ x y, f x = g y) l k → sum_list_with f l = sum_list_with g k.
Proof. induction 1; cbn; lia. Qed.

Lemma mapM_exists {A B} (f : A → outcome B) (Φ : A → B → Prop) (l : list A) :
  (∀ x, x ∈ l → ∃ y, f x = Ok y ∧ Φ x y) → ∃ k, mapM f l = Ok k ∧ Forall2 Φ l k.
Proof.
  induction l as [|x l IH]; intros H; [by exists []; split; [|constructor]|].
  destruct (H x) as (y & Hy & HΦ); [set_solver|].
  destruct IH as (k & Hk & HF); [intros z Hz; apply H; set_solver|].
  exists (y :: k). cbn. rewrite Hy. cbn. rewrite Hk. split; [done|by constructor].
Qed.

Lemma mapM_Ok {A B} (f : A → outcome B) (l : list A) (k : list B) :
  mapM f l = Ok k ↔ Forall2 (λ x y, f x = Ok y) l k.
Proof.
  revert k. induction l as [|x l IH]; intros k; cbn.
  - split; [intros [= <-]; constructor|by inversion 1].
  - rewrite bind_Ok. setoid_rewrite bind_Ok. setoid_rewrite IH. split.
    + intros (y & Hy & k' & Hk & [= <-]). by constructor.
    + inversion 1; subst. eauto 10.
Qed.

Lemma mapM_fmap {A B} (f : A → outcome B) (g : A → B) (l : list A) :
  (∀ x, x ∈ l → f x = Ok (g x)) → mapM f l = Ok (g <$> l).
Proof.
  induction l as [|x l IH]; intros H; [done|]. cbn. rewrite H by set_solver. cbn.
  rewrite IH by (intros y Hy; apply H; set_solver). done.
Qed.

Lemma mapM_ext_in {A B} (f g : A → outcome B) (l : list A) :
  (∀ x, x ∈ l → f x = g x) → mapM f l = mapM g l.
Proof.
  induction l as [|x l IH]; intros H; [done|]. cbn. rewrite H by set_solver.
  rewrite IH by (intros y Hy; apply H; set_solver). done.
Qed.

(** All elements but the last. *)
Definition strip {A} (l : list A) : list A := take (pred (length l)) l.

Lemma strip_snoc {A} (l : list A) x : strip (l ++ [x]) = l.
Proof. unfold strip. rewrite length_app, take_app_length'; [done|]. cbn. lia. Qed.

(** Indices of a list of what is done for [0 .. n-1]. *)
Lemma Forall2_seqZ_lookup {A} (Φ : Z → A → Prop) n (k : list A) i x :
  Forall2 Φ (seqZ 0 n) k → k !! i = Some x → Φ (Z.of_nat i) x ∧ Z.of_nat i < n.
Proof.
  intros HF Hi. destruct (Forall2_lookup_r _ _ _ _ _ HF Hi) as (j & Hj & HΦ).
  apply lookup_seqZ in Hj as [-> ?]. split; [done|lia].
Qed.

(** ** Tactics *)

(** Invert every monadic bind, assertion and array access in the context. *)
Ltac outcome_inv :=
  repeat match goal with
  | H : _ ≫= _ = Ok _ |- _ => apply bind_Ok in H as (? & ? & ?)
  | H : arr_get _ _ = Ok _ |- _ => apply arr_get_Ok in H
  | H : arr_set _ _ _ = Ok _ |- _ => apply arr_set_Ok in H as [? ?]
  | H : c_assert _ = Ok _ |- _ => apply c_assert_Ok in H
  | H : Ok _ = Ok _ |- _ => injection H as H; try subst
  | H : mret _ = Ok _ |- _ => injection H as H; try subst
  end; simplify_eq.

Create HintDb memorder.
#[export] Hint Resolve lookup_snoc_old lookup_snoc_new : memorder.
