(* ===== verification/Mem.v ===== *)
(** * Mem: the vocabulary of [mem.h] and [mem.c] *)
From S2P Require Import Prelude.

(** ** Log records ([mem.h]) *)

Record wait_memop := WaitMemop {
  wm_objid : Z;
  wm_version : Z;
  wm_memop : Z }.

Record wait_version := WaitVersion {
  wv_memop : Z;
  wv_version : Z }.

Record replay_wait_memop := ReplayWaitMemop {
  rwm_version : Z;
  rwm_memop : Z;
  rwm_tid : Z }.

#[global] Instance wait_memop_eq_dec : EqDecision wait_memop.
Proof. solve_decision. Defined.
#[global] Instance wait_version_eq_dec : EqDecision wait_version.
Proof. solve_decision. Defined.
#[global] Instance replay_wait_memop_eq_dec : EqDecision replay_wait_memop.
Proof. solve_decision. Defined.

(** [calloc_check]: [avail] is whether [calloc] finds the memory. *)
Definition calloc_check {A} (avail : bool) (nmemb : Z) (zero : A) : outcome (gmap Z A) :=
  if avail then Ok (arr_make nmemb zero) else Err ExitFailure.

(** ** Client programs

    The body of a thread, as far as the recorder and the replayer see it: the
    calls of [mem_read] and [mem_write] it makes, each depending on the values
    read so far, and the value it ends with. *)
Inductive prog :=
| PRet (r : Z)
| PRead (addr : Z) (k : Z → prog)
| PWrite (addr val : Z) (p : prog).

#[global] Instance is_ret_dec p : Decision (∃ r, p = PRet r).
Proof.
  destruct p as [r| |]; [left; by exists r|right; by intros []..].
Defined.

(** ** The build without recording

    With [DUMMY] the accesses of a client are plain loads and stores, and nothing
    else happens. *)
Definition dummy_read (mem : gmap Z Z) (addr : Z) : outcome Z := arr_get mem addr.
Definition dummy_write (mem : gmap Z Z) (addr val : Z) : outcome (gmap Z Z) := arr_set mem addr val.

Record dummy_state := DummyState {
  dm_mem : gmap Z Z;
  dm_prog : gmap Z prog }.

(** The next access of thread [t]. *)
Definition dummy_step (t : Z) (s : dummy_state) : outcome dummy_state :=
  match dm_prog s !! t with
  | None | Some (PRet _) => Ok s
  | Some (PRead addr k) =>
      val ← dummy_read (dm_mem s) addr;
      Ok (DummyState (dm_mem s) (<[t := k val]> (dm_prog s)))
  | Some (PWrite addr val p) =>
      mem ← dummy_write (dm_mem s) addr val;
      Ok (DummyState mem (<[t := p]> (dm_prog s)))
  end.

(** The object of the first access of a program. *)
Definition cur_obj (calc_objid : Z → Z) (p : prog) : option Z :=
  match p with
  | PRet _ => None
  | PRead addr _ => Some (calc_objid addr)
  | PWrite addr _ _ => Some (calc_objid addr)
  end.

(** Every address a program may access satisfies [ok]. *)
Fixpoint prog_within (ok : Z → Prop) (p : prog) : Prop :=
  match p with
  | PRet _ => True
  | PRead addr k => ok addr ∧ ∀ v, prog_within ok (k v)
  | PWrite addr _ p => ok addr ∧ prog_within ok p
  end.

Lemma prog_within_impl (ok ok' : Z → Prop) p :
  (∀ a, ok a → ok' a) → prog_within ok p → prog_within ok' p.
Proof.
  intros Himpl. induction p as [r|addr k IH|addr val p IH]; cbn; [done|..].
  - intros [? Hk]. split; [auto|]. intros v. apply IH, Hk.
  - intros [? ?]. auto.
Qed.

(** A program that makes [n] accesses, whatever it reads. *)
Fixpoint makes (p : prog) (n : nat) : Prop :=
  match p, n with
  | PRet _, O => True
  | PRead _ k, S n => ∀ v, makes (k v) n
  | PWrite _ _ p, S n => makes p n
  | _, _ => False
  end.

(** A program that makes at most [n] accesses, whatever it reads. *)
Fixpoint at_most (p : prog) (n : nat) : Prop :=
  match p, n with
  | PRet _, _ => True
  | PRead _ k, S n => ∀ v, at_most (k v) n
  | PWrite _ _ p, S n => at_most p n
  | _, O => False
  end.

Lemma makes_at_most p n : makes p n → at_most p n.
Proof. revert n. induction p; intros [|n]; cbn; auto. Qed.

Lemma at_most_mono p n n' : (n ≤ n')%nat → at_most p n → at_most p n'.
Proof.
  revert n n'. induction p as [r|addr k IH|addr val p IH]; intros [|n] [|n'] Hn Hp; try done; try lia; cbn in *.
  - intros v. apply (IH v n); [lia|done].
  - apply (IH n); [lia|done].
Qed.

(** The accesses of the threads [ps] are fewer than 64 bits can count. *)
Definition accesses_fit (ps : list prog) : Prop :=
  ∃ n, Forall (λ p, at_most p n) ps ∧ Z.of_nat (length ps * n) < 2 ^ 64.

(** No thread of [ps] makes 2^31 accesses, so that an [int] counts them. *)
Definition counts_fit (ps : list prog) : Prop :=
  ∃ n, Forall (λ p, at_most p n) ps ∧ Z.of_nat n < 2 ^ 31.

Lemma counts_accesses_fit ps : Z.of_nat (length ps) ≤ 127 → counts_fit ps → accesses_fit ps.
Proof. intros Hl (n & Hn & Hb). exists n. split; [done|]. nia. Qed.

(** The value a program that has returned ended with. *)
Definition prog_result (p : prog) : Z := match p with PRet r => r | _ => 0 end.

(** The two kinds of access. *)
Inductive kind := RD | WR.

#[global] Instance kind_eq_dec : EqDecision kind.
Proof. solve_decision. Defined.
