(* ===== verification/MappedLog.v ===== *)
(** * MappedLog: the memory-mapped logs of [log.h] and [log.c]

    A log is a file of which a window is mapped; entries are appended through a
    pointer into the window, and the window moves when it is full.  The address
    every [mmap] returns is a parameter of the operation, page aligned as the
    system call promises; a call that fails exits, and is not modelled. *)
From S2P Require Import Prelude Mem.

(** ** The program *)

Definition PAGE_SIZE : Z := 4096.
Definition LOG_BUFFER_SIZE : Z := 4 * 1024.

(** [struct mapped_log], with the file behind the descriptor and the offset the
    window is mapped at. *)
Record mapped_log := MappedLog {
  ml_start : Z;
  ml_buf : Z;
  ml_end : Z;
  ml_off : Z;
  ml_file : list Z }.

Definition zeros (n : Z) : list Z := replicate (Z.to_nat n) 0.

Definition new_mapped_log (addr : Z) : mapped_log :=
  MappedLog addr addr (addr + LOG_BUFFER_SIZE) 0 (zeros LOG_BUFFER_SIZE).

(** [enlarge_mapped_log]: one more buffer at the end of the file; the new window
    starts on the last page of the old one. *)
Definition enlarge_mapped_log (addr : Z) (log : mapped_log) : outcome mapped_log :=
  let original_size := Z.of_nat (length (ml_file log)) in
  _ ← c_assert (original_size mod LOG_BUFFER_SIZE = 0);
  let map_size := LOG_BUFFER_SIZE + PAGE_SIZE in
  let page_offset := Z.land (ml_buf log) 0xFFF in
  Ok (MappedLog addr (addr + (if decide (page_offset = 0) then PAGE_SIZE else page_offset))
        (addr + map_size) (original_size - PAGE_SIZE)
        (ml_file log ++ zeros LOG_BUFFER_SIZE)).

(** [next_log_entry] returns the place of the entry. *)
Definition next_log_entry (addr entry_size : Z) (log : mapped_log) : outcome (Z * mapped_log) :=
  log ← (if decide (ml_end log < ml_buf log + entry_size) then enlarge_mapped_log addr log
         else Ok log);
  Ok (ml_buf log, MappedLog (ml_start log) (ml_buf log + entry_size) (ml_end log) (ml_off log)
                    (ml_file log)).

(** Bytes [bs] over the bytes of [l] at position [i]. *)
Definition splice (i : nat) (bs l : list Z) : list Z :=
  take i l ++ bs ++ drop (i + length bs) l.

(** A store of [bs] through the pointer [p] reaches the file. *)
Definition store (p : Z) (bs : list Z) (log : mapped_log) : outcome mapped_log :=
  if decide (ml_start log ≤ p ∧ p + Z.of_nat (length bs) ≤ ml_end log) then
    Ok (MappedLog (ml_start log) (ml_buf log) (ml_end log) (ml_off log)
          (splice (Z.to_nat (ml_off log + (p - ml_start log))) bs (ml_file log)))
  else Err BadAccess.

(** [truncate_log] cuts the file where the window has not been written. *)
Definition truncate_log (log : mapped_log) : list Z :=
  take (Z.to_nat (Z.of_nat (length (ml_file log)) - (ml_end log - ml_buf log))) (ml_file log).

(** [unmap_truncate_log]: the file it leaves. *)
Definition unmap_truncate_log (log : mapped_log) : list Z := truncate_log log.

(** [open_mapped_log_path] for reading: [None] when there is no such file, and a
    file without bytes cannot be mapped. *)
Definition open_mapped_log (addr : Z) (file : option (list Z)) : outcome (option mapped_log) :=
  match file with
  | None => Ok None
  | Some [] => Err ExitFailure
  | Some f => Ok (Some (MappedLog addr addr (addr + Z.of_nat (length f)) 0 f))
  end.

(** The bytes a load of [n] bytes through [p] sees. *)
Definition load (p : Z) (n : nat) (log : mapped_log) : list Z :=
  take n (drop (Z.to_nat (ml_off log + (p - ml_start log))) (ml_file log)).

Definition read_log_entry (entry_size : Z) (log : mapped_log) : option Z * mapped_log :=
  if decide (ml_end log < ml_buf log + entry_size) then (None, log)
  else (Some (ml_buf log), MappedLog (ml_start log) (ml_buf log + entry_size) (ml_end log)
                             (ml_off log) (ml_file log)).

Definition log_end (log : mapped_log) : bool := bool_decide (ml_end log ≤ ml_buf log).

(** ** Entries

    A structure is stored field by field: [fields] gives the offset and the
    bytes of each.  What is not a field keeps the zero of the new file. *)

(** The [n] bytes of an integer, least significant first. *)
Fixpoint le_bytes (n : nat) (z : Z) : list Z :=
  match n with
  | O => []
  | S n => z mod 256 :: le_bytes n (z / 256)
  end.

Definition le_value (bs : list Z) : Z := foldr (λ b acc, b + 256 * acc) 0 bs.

Class log_entry (A : Type) := {
  entry_size : Z;
  fields : A → list (nat * list Z);
  decode : list Z → A;
  valid : A → Prop }.

(** The bytes of an entry. *)
Definition encode {A} `{log_entry A} (a : A) : list Z :=
  foldl (λ l f, splice f.1 f.2 l) (zeros (entry_size (A := A))) (fields a).

Class log_entry_ok A `{log_entry A} : Prop := {
  entry_size_range : 0 < entry_size (A := A) ≤ PAGE_SIZE;
  fields_fit a f : f ∈ fields a → Z.of_nat (f.1 + length f.2) ≤ entry_size (A := A);
  decode_encode a : valid a → decode (encode a) = a }.

(** Appending an entry: [next_log_entry], then one store per field. *)
Definition append {A} `{log_entry A} (addr : Z) (a : A) (log : mapped_log) : outcome mapped_log :=
  '(p, log) ← next_log_entry addr (entry_size (A := A)) log;
  foldl (λ r f, log ← r; store (p + Z.of_nat f.1) f.2 log) (Ok log) (fields a).

(** Writing a whole log; [addr i] is where the [i]-th [mmap] would map. *)
Fixpoint append_all {A} `{log_entry A} (addr : nat → Z) (l : list A) (log : mapped_log)
    : outcome mapped_log :=
  match l with
  | [] => Ok log
  | a :: l => log ← append (addr 0%nat) a log; append_all (λ i, addr (S i)) l log
  end.

Definition write_log {A} `{log_entry A} (addr : nat → Z) (l : list A) : outcome (list Z) :=
  log ← append_all (λ i, addr (S i)) l (new_mapped_log (addr 0%nat));
  Ok (unmap_truncate_log log).

(** Reading entries until [read_log_entry] returns [NULL]. *)
Fixpoint read_all {A} `{log_entry A} (fuel : nat) (log : mapped_log) : outcome (list A) :=
  match read_log_entry (entry_size (A := A)) log with
  | (None, _) => Ok []
  | (Some p, log') =>
      match fuel with
      | O => Err OutOfFuel
      | S fuel => l ← read_all fuel log'; Ok (decode (load p (Z.to_nat (entry_size (A := A))) log') :: l)
      end
  end.

(** ** Lemmas: bytes *)

Lemma length_zeros n : 0 ≤ n → Z.of_nat (length (zeros n)) = n.
Proof. intros. unfold zeros. rewrite length_replicate. lia. Qed.

Lemma length_splice i bs l : (i + length bs ≤ length l)%nat → length (splice i bs l) = length l.
Proof. intros. unfold splice. rewrite !length_app, length_take, length_drop. lia. Qed.

Lemma splice_app i bs l1 l2 l3 : (i + length bs ≤ length l2)%nat →
  splice (length l1 + i) bs (l1 ++ l2 ++ l3) = l1 ++ splice i bs l2 ++ l3.
Proof.
  intros Hi. unfold splice. rewrite take_app_add, <- Nat.add_assoc, drop_app_add.
  rewrite take_app_le, drop_app_le by lia. by rewrite <- !app_assoc.
Qed.

Lemma length_le_bytes n z : length (le_bytes n z) = n.
Proof. revert z. induction n as [|n IH]; intros z; [done|]. cbn. by rewrite IH. Qed.

Lemma le_value_bytes n z : le_value (le_bytes n z) = z mod 2 ^ (8 * Z.of_nat n).
Proof.
  revert z. induction n as [|n IH]; intros z; [by rewrite Z.mod_1_r|].
  cbn [le_bytes le_value foldr]. fold (le_value (le_bytes n (z / 256))). rewrite IH.
  replace (8 * Z.of_nat (S n)) with (8 + 8 * Z.of_nat n) by lia.
  rewrite Z.pow_add_r by lia. change (2 ^ 8) with 256.
  rewrite Z.rem_mul_r by (try apply Z.pow_pos_nonneg; lia). done.
Qed.

(** An integer of [n] bytes is read back as it was written. *)
Lemma le_signed n z : (0 < n)%nat →
  - 2 ^ (8 * Z.of_nat n - 1) ≤ z < 2 ^ (8 * Z.of_nat n - 1) →
  wrap_s (8 * Z.of_nat n) (le_value (le_bytes n z)) = z.
Proof.
  intros Hn Hz. rewrite le_value_bytes. unfold wrap_s.
  rewrite <- Z.add_mod_idemp_l, Z.mod_mod, Z.add_mod_idemp_l by (apply Z.pow_nonzero; lia).
  fold (wrap_s (8 * Z.of_nat n) z). apply wrap_s_id; lia.
Qed.

(** ** Lemmas: appending *)

(** [data] has been written to the log. *)
Record log_wf (data : list Z) (log : mapped_log) : Prop := {
  lw_file : ∃ k, ml_file log = data ++ zeros k ∧ 0 ≤ k;
  lw_buf : ml_off log + (ml_buf log - ml_start log) = Z.of_nat (length data);
  lw_end : ml_off log + (ml_end log - ml_start log) = Z.of_nat (length (ml_file log));
  lw_off : 0 ≤ ml_off log ∧ ml_off log mod PAGE_SIZE = 0;
  lw_start : ml_start log mod PAGE_SIZE = 0;
  lw_le : ml_start log ≤ ml_buf log ≤ ml_end log;
  lw_size : 0 < Z.of_nat (length (ml_file log)) ∧
    Z.of_nat (length (ml_file log)) mod LOG_BUFFER_SIZE = 0 }.

Lemma new_log_wf addr : addr mod PAGE_SIZE = 0 → log_wf [] (new_mapped_log addr).
Proof.
  intros Ha. unfold new_mapped_log. constructor; cbn [ml_file ml_off ml_start ml_buf ml_end].
  - by exists LOG_BUFFER_SIZE.
  - cbn. lia.
  - rewrite length_zeros; unfold LOG_BUFFER_SIZE; lia.
  - done.
  - done.
  - unfold LOG_BUFFER_SIZE. lia.
  - done.
Qed.

Lemma land_page z : Z.land z 0xFFF = z mod PAGE_SIZE.
Proof. change 0xFFF with (Z.ones 12). by rewrite Z.land_ones. Qed.

Lemma enlarge_wf data log addr n :
  log_wf data log → addr mod PAGE_SIZE = 0 → 0 < n ≤ PAGE_SIZE →
  ml_end log < ml_buf log + n →
  ∃ log', enlarge_mapped_log addr log = Ok log' ∧ log_wf data log' ∧
    ml_buf log' + n ≤ ml_end log'.
Proof.
  intros [(k & Hk & Hk0) ? ? [? ?] ? ? [? Hsz]] Ha Hn Hfull. unfold enlarge_mapped_log.
  rewrite c_assert_true by done. cbn [mbind outcome_bind].
  set (size := Z.of_nat (length (ml_file log))) in *. unfold PAGE_SIZE, LOG_BUFFER_SIZE in *.
  rewrite land_page. unfold PAGE_SIZE.
  assert (0 ≤ size) by lia.
  pose proof (Nat2Z.is_nonneg (length data)).
  assert (Z.of_nat (length (ml_file log ++ zeros (4 * 1024))) = size + 4096) as Hlen.
  { rewrite length_app, Nat2Z.inj_add, length_zeros by lia. done. }
  eexists. split; [done|]. split.
  - constructor; cbn [ml_file ml_off ml_start ml_buf ml_end]; try rewrite Hlen.
    + exists (k + 4096). split; [|lia]. rewrite Hk, <- app_assoc. f_equal. unfold zeros.
      rewrite <- replicate_add. f_equal. lia.
    + case_decide; Z.to_euclidean_division_equations; lia.
    + unfold PAGE_SIZE, LOG_BUFFER_SIZE. lia.
    + unfold PAGE_SIZE. Z.to_euclidean_division_equations; lia.
    + done.
    + unfold PAGE_SIZE. case_decide; Z.to_euclidean_division_equations; lia.
    + unfold LOG_BUFFER_SIZE. Z.to_euclidean_division_equations; lia.
  - cbn. case_decide; Z.to_euclidean_division_equations; lia.
Qed.

(** The entry at [p] holds [e] so far. *)
Record entry_open (data e : list Z) (p : Z) (log : mapped_log) : Prop := {
  eo_file : ∃ k, ml_file log = data ++ e ++ zeros k ∧ 0 ≤ k;
  eo_pos : ml_off log + (p - ml_start log) = Z.of_nat (length data);
  eo_end : ml_off log + (ml_end log - ml_start log) = Z.of_nat (length (ml_file log));
  eo_off : 0 ≤ ml_off log ∧ ml_off log mod PAGE_SIZE = 0;
  eo_start : ml_start log mod PAGE_SIZE = 0;
  eo_le : ml_start log ≤ p ∧ p + Z.of_nat (length e) ≤ ml_end log;
  eo_buf : ml_buf log = p + Z.of_nat (length e);
  eo_size : 0 < Z.of_nat (length (ml_file log)) ∧
    Z.of_nat (length (ml_file log)) mod LOG_BUFFER_SIZE = 0 }.

Lemma entry_close data e p log : entry_open data e p log → log_wf (data ++ e) log.
Proof.
  intros [(k & Hk & ?) ? ? ? ? ? ? ?]. constructor; try done.
  - exists k. by rewrite Hk, app_assoc.
  - rewrite length_app. lia.
  - lia.
Qed.

Lemma next_log_entry_ok data log addr n :
  log_wf data log → addr mod PAGE_SIZE = 0 → 0 < n ≤ PAGE_SIZE →
  ∃ p log', next_log_entry addr n log = Ok (p, log') ∧ entry_open data (zeros n) p log'.
Proof.
  intros Hlog Ha Hn. unfold next_log_entry.
  assert (∃ log1, (if decide (ml_end log < ml_buf log + n) then enlarge_mapped_log addr log
     else Ok log) = Ok log1 ∧ log_wf data log1 ∧ ml_buf log1 + n ≤ ml_end log1)
    as (log1 & -> & [(k & Hk & ?) ? ? ? ? ? ?] & Hroom).
  { case_decide; [by apply enlarge_wf|]. exists log. split_and!; [done..|lia]. }
  cbn [mbind outcome_bind]. eexists _, _. split; [done|].
  constructor; cbn [ml_file ml_off ml_start ml_buf ml_end]; rewrite ?length_zeros by lia;
    try done; [|lia].
  exists (k - n). rewrite Hk. split.
  - f_equal. unfold zeros. rewrite <- replicate_add. f_equal.
    assert (n ≤ k); [|lia]. rewrite Hk, length_app, Nat2Z.inj_add, length_zeros in * by lia. lia.
  - rewrite Hk, length_app, Nat2Z.inj_add, length_zeros in * by lia. lia.
Qed.

Lemma store_ok data e p log i bs :
  entry_open data e p log → (i + length bs ≤ length e)%nat →
  ∃ log', store (p + Z.of_nat i) bs log = Ok log' ∧ entry_open data (splice i bs e) p log'.
Proof.
  intros [(k & Hk & ?) ? ? ? ? [? ?] ? ?] Hi. unfold store. rewrite decide_True by lia.
  eexists. split; [done|].
  assert (splice (Z.to_nat (ml_off log + (p + Z.of_nat i - ml_start log))) bs (ml_file log)
    = data ++ splice i bs e ++ zeros k) as Hs.
  { rewrite Hk. replace (Z.to_nat _) with (length data + i)%nat by lia. by apply splice_app. }
  assert (length (data ++ splice i bs e ++ zeros k) = length (ml_file log)) as Hl.
  { rewrite Hk, !length_app, length_splice by done. done. }
  constructor; cbn [ml_file ml_off ml_start ml_buf ml_end]; rewrite ?Hs, ?Hl, ?length_splice by done;
    try done. by exists k.
Qed.

Section entries.
Context {A : Type} `{HA : log_entry_ok A}.

Lemma store_fields_ok data e p log fs :
  entry_open data e p log → (∀ f, f ∈ fs → (f.1 + length f.2 ≤ length e)%nat) →
  ∃ log', foldl (λ r f, log ← r; store (p + Z.of_nat f.1) f.2 log) (Ok log) fs = Ok log' ∧
    entry_open data (foldl (λ l f, splice f.1 f.2 l) e fs) p log'.
Proof.
  revert e log. induction fs as [|f fs IH]; intros e log He Hfs; [by exists log|].
  destruct (store_ok data e p log f.1 f.2 He) as (log1 & Hst & He1); [apply Hfs; set_solver|].
  cbn. rewrite Hst. apply IH; [done|]. intros g Hg. rewrite length_splice; apply Hfs; set_solver.
Qed.

Lemma append_ok data (a : A) log addr :
  log_wf data log → addr mod PAGE_SIZE = 0 →
  ∃ log', append addr a log = Ok log' ∧ log_wf (data ++ encode a) log'.
Proof.
  intros Hlog Ha. pose proof entry_size_range as Hn. unfold append.
  destruct (next_log_entry_ok data log addr _ Hlog Ha Hn) as (p & log1 & -> & He).
  cbn [mbind outcome_bind].
  destruct (store_fields_ok data _ p log1 (fields a) He) as (log' & -> & He').
  { intros f Hf. pose proof (fields_fit a f Hf). pose proof (length_zeros entry_size). lia. }
  exists log'. split; [done|]. by apply (entry_close _ _ p).
Qed.

Lemma append_all_ok data (l : list A) log addr :
  log_wf data log → (∀ i, addr i mod PAGE_SIZE = 0) →
  ∃ log', append_all addr l log = Ok log' ∧ log_wf (data ++ (l ≫= encode)) log'.
Proof.
  revert data log addr. induction l as [|a l IH]; intros data log addr Hlog Ha; cbn.
  { exists log. by rewrite app_nil_r. }
  destruct (append_ok data a log (addr 0%nat) Hlog (Ha _)) as (log1 & -> & Hlog1). cbn.
  rewrite app_assoc. by apply IH.
Qed.

(** The file a finished log leaves is the sequence of its entries' bytes. *)
Lemma write_log_ok (l : list A) addr :
  (∀ i, addr i mod PAGE_SIZE = 0) → write_log addr l = Ok (l ≫= encode).
Proof.
  intros Ha. unfold write_log.
  destruct (append_all_ok [] l (new_mapped_log (addr 0%nat)) (λ i, addr (S i)))
    as (log & -> & [(k & Hk & ?) Hbuf Hend _ _ _ _]); [by apply new_log_wf|done|].
  cbn [mbind outcome_bind]. f_equal. unfold unmap_truncate_log, truncate_log. cbn [app] in *.
  replace (_ - (_ - _)) with (Z.of_nat (length (l ≫= encode))) by lia.
  rewrite Nat2Z.id, Hk. by rewrite take_app_length.
Qed.

Lemma length_encode (a : A) : Z.of_nat (length (encode a)) = entry_size.
Proof.
  pose proof entry_size_range as Hn. unfold encode.
  assert (∀ fs l, (∀ f, f ∈ fs → (f.1 + length f.2 ≤ length l)%nat) →
    length (foldl (λ l f, splice f.1 f.2 l) l fs) = length (l : list Z)) as Hfold.
  { intros fs. induction fs as [|f fs IH]; intros l Hl; [done|]. cbn.
    rewrite IH; rewrite length_splice; try (apply Hl; set_solver); [done|].
    intros g Hg. apply Hl. set_solver. }
  rewrite Hfold; [apply length_zeros; lia|]. intros f Hf.
  pose proof (fields_fit a f Hf). pose proof (length_zeros entry_size). lia.
Qed.

Lemma read_all_ok (l : list A) pre addr fuel :
  Forall valid l → (length l ≤ fuel)%nat →
  let f := pre ++ (l ≫= encode) in
  read_all fuel (MappedLog addr (addr + Z.of_nat (length pre)) (addr + Z.of_nat (length f)) 0 f)
    = Ok l.
Proof.
  pose proof entry_size_range as Hn.
  intros Hv. revert pre fuel. induction Hv as [|a l Ha Hv IH]; intros pre fuel Hf; cbn zeta.
  - cbn [mbind list_bind]. rewrite app_nil_r.
    destruct fuel; cbn [read_all]; unfold read_log_entry; cbn [ml_end ml_buf];
      by rewrite decide_True by lia.
  - destruct fuel as [|fuel]; [cbn in Hf; lia|]. cbn [mbind list_bind read_all].
    pose proof (length_encode a) as Hlen. unfold read_log_entry. cbn [ml_end ml_buf].
    rewrite decide_False by (rewrite !length_app; lia). cbn [ml_start ml_off ml_file].
    specialize (IH (pre ++ encode a) fuel ltac:(cbn in Hf; lia)). cbn zeta in IH.
    rewrite <- app_assoc in IH. rewrite length_app, Nat2Z.inj_add, Hlen, Z.add_assoc in IH.
    rewrite IH. cbn [mbind outcome_bind]. f_equal. f_equal. unfold load. cbn [ml_start ml_off ml_file].
    replace (Z.to_nat (0 + _)) with (length pre) by lia.
    rewrite drop_app_length, take_app_length' by lia. by apply decode_encode.
Qed.
End entries.

(** ** The entries of the program's logs *)

Definition int64 (z : Z) : Prop := - 2 ^ 63 ≤ z < 2 ^ 63.
Definition int32 (z : Z) : Prop := - 2 ^ 31 ≤ z < 2 ^ 31.
Definition int8 (z : Z) : Prop := - 2 ^ 7 ≤ z < 2 ^ 7.

(** The signed integer of [n] bytes at offset [i]. *)
Definition field_at (n i : nat) (bs : list Z) : Z :=
  wrap_s (8 * Z.of_nat n) (le_value (take n (drop i bs))).

#[global] Instance wait_version_entry : log_entry wait_version := {|
  entry_size := 16;
  fields w := [(0%nat, le_bytes 8 (wv_memop w)); (8%nat, le_bytes 8 (wv_version w))];
  decode bs := WaitVersion (field_at 8 0 bs) (field_at 8 8 bs);
  valid w := int64 (wv_memop w) ∧ int64 (wv_version w) |}.

(** Four bytes of padding follow the object id. *)
#[global] Instance wait_memop_entry : log_entry wait_memop := {|
  entry_size := 24;
  fields w := [(0%nat, le_bytes 4 (wm_objid w)); (8%nat, le_bytes 8 (wm_version w));
               (16%nat, le_bytes 8 (wm_memop w))];
  decode bs := WaitMemop (field_at 4 0 bs) (field_at 8 8 bs) (field_at 8 16 bs);
  valid w := int32 (wm_objid w) ∧ int64 (wm_version w) ∧ int64 (wm_memop w) |}.

#[global] Instance replay_wait_memop_entry : log_entry replay_wait_memop := {|
  entry_size := 24;
  fields w := [(0%nat, le_bytes 8 (rwm_version w)); (8%nat, le_bytes 8 (rwm_memop w));
               (16%nat, le_bytes 1 (rwm_tid w))];
  decode bs := ReplayWaitMemop (field_at 8 0 bs) (field_at 8 8 bs) (field_at 1 16 bs);
  valid w := int64 (rwm_version w) ∧ int64 (rwm_memop w) ∧ int8 (rwm_tid w) |}.

Ltac solve_fields :=
  intros ? ? Hf; repeat (apply elem_of_cons in Hf as [->|Hf];
    [cbn -[le_bytes]; rewrite length_le_bytes; lia|]); by apply not_elem_of_nil in Hf.

Lemma field_at_signed n i z l : (0 < n)%nat →
  - 2 ^ (8 * Z.of_nat n - 1) ≤ z < 2 ^ (8 * Z.of_nat n - 1) →
  take n (drop i l) = le_bytes n z → field_at n i l = z.
Proof. intros Hn Hz Hl. unfold field_at. rewrite Hl. by apply le_signed. Qed.

#[global] Instance wait_version_entry_ok : log_entry_ok wait_version.
Proof.
  split; [cbn; unfold PAGE_SIZE; lia|solve_fields|].
  intros [m v] [Hm Hv]. cbn in Hm, Hv. cbn. f_equal; (apply field_at_signed; [lia|done|reflexivity]).
Qed.

#[global] Instance wait_memop_entry_ok : log_entry_ok wait_memop.
Proof.
  split; [cbn; unfold PAGE_SIZE; lia|solve_fields|].
  intros [o v m] (Ho & Hv & Hm). cbn in Ho, Hv, Hm. cbn. f_equal; (apply field_at_signed; [lia|done|reflexivity]).
Qed.

#[global] Instance replay_wait_memop_entry_ok : log_entry_ok replay_wait_memop.
Proof.
  split; [cbn; unfold PAGE_SIZE; lia|solve_fields|].
  intros [v m t] (Hv & Hm & Ht). cbn in Hv, Hm, Ht. cbn. f_equal; (apply field_at_signed; [lia|done|reflexivity]).
Qed.

(** ** Properties *)

(** C16: the file a finished log leaves is exactly the bytes of its entries, one
    after the other, whatever the sizes of the entries and wherever the windows are
    mapped: moving the window neither skips nor overwrites a byte.  The entries of a
    log that is not empty are read back as they were written, and reading stops
    after the last one. *)
Theorem log_roundtrip {A} `{log_entry_ok A} (l : list A) addr raddr :
  Forall valid l → l ≠ [] → (∀ i, addr i mod PAGE_SIZE = 0) →
  ∃ file log, write_log addr l = Ok file ∧ file = l ≫= encode ∧
    open_mapped_log raddr (Some file) = Ok (Some log) ∧ read_all (length l) log = Ok l.
Proof.
  intros Hv Hne Ha. pose proof entry_size_range as Hn.
  eexists _, _. split; [by apply write_log_ok|]. split; [done|]. split; last first.
  - pose proof (read_all_ok l [] raddr (length l) Hv (le_n _)) as Hr.
    cbn [app length] in Hr. rewrite Z.add_0_r in Hr. exact Hr.
  - cbn [app]. destruct l as [|a l]; [done|]. cbn [mbind list_bind].
    pose proof (length_encode a). destruct (encode a) as [|b bs] eqn:E; [cbn in *; lia|]. done.
Qed.

(** A log without entries leaves a file without bytes, which the tools and
    the replayer cannot open: mapping it fails and the program exits. *)
Lemma empty_log_unreadable {A} `{log_entry_ok A} addr raddr :
  (∀ i, addr i mod PAGE_SIZE = 0) →
  ∃ file, write_log addr (@nil A) = Ok file ∧
    open_mapped_log raddr (Some file) = Err ExitFailure.
Proof. intros Ha. exists []. by rewrite write_log_ok. Qed.

(** 300 version entries fill more than one window. *)
Definition demo_versions : list wait_version :=
  (λ i, WaitVersion i (2 * i)) <$> seqZ 0 300 ++ [-1].

Definition demo_addr (i : nat) : Z := 4096 * (7 + Z.of_nat i).

Lemma demo_addr_aligned i : demo_addr i mod PAGE_SIZE = 0.
Proof. unfold demo_addr, PAGE_SIZE. rewrite Z.mul_comm. apply Z.mod_mul. lia. Qed.

Lemma log_roundtrip_witness :
  ∃ file log, write_log demo_addr demo_versions = Ok file ∧ file = demo_versions ≫= encode ∧
    open_mapped_log 0x7f0000000000 (Some file) = Ok (Some log) ∧
    read_all (length demo_versions) log = Ok demo_versions.
Proof.
  apply (log_roundtrip demo_versions demo_addr).
  - apply (bool_decide_unpack _). vm_compute. exact I.
  - discriminate.
  - exact demo_addr_aligned.
Defined.
