(* ===== verification/Paths.v ===== *)
(** * Paths: the names of the log files, and stdio logs

    [logpath] of [log.h] and the functions of [log.c] that open a log by name.
    The files are a finite map from path names to bytes. *)
From Stdlib Require Import Ascii.
From stdpp Require Import strings pretty.
From S2P Require Import Prelude Mem MappedLog.

#[local] Open Scope string_scope.
#[local] Open Scope Z_scope.

(** ** The program *)

Definition LOGDIR : string := "replay-log/".
Definition MAX_PATH_LEN : Z := 256.

(** What [snprintf] prints, before it is cut to the buffer. *)
Definition log_name (name : string) (id : Z) : string := LOGDIR +:+ name +:+ "-" +:+ pretty id.

(** [logpath]: the return value of [snprintf] does not count the final zero. *)
Definition logpath (name : string) (id : Z) : outcome string :=
  let path := log_name name id in
  if decide (MAX_PATH_LEN ≤ Z.of_nat (String.length path)) then Err ExitFailure else Ok path.

Abbreviation file_system := (gmap string (list Z)).

(** [handle_log]: [fopen] for writing leaves an empty file, for reading it needs
    one. *)
Definition handle_log (name : string) (id : Z) (write : bool) (fs : file_system)
    : outcome (list Z * file_system) :=
  path ← logpath name id;
  if write then Ok ([], <[path := []]> fs)
  else match fs !! path with Some f => Ok (f, fs) | None => Err ExitFailure end.

Definition new_log (name : string) (id : Z) (fs : file_system) := handle_log name id true fs.
Definition open_log (name : string) (id : Z) (fs : file_system) := handle_log name id false fs.

(** ** Lemmas *)

(** The characters of a string. *)
Definition has_char (c : Ascii.ascii) (s : string) : Prop := c ∈ String.list_ascii_of_string s.

Lemma has_char_cons c d s : has_char c (String d s) ↔ c = d ∨ has_char c s.
Proof. unfold has_char. cbn. by rewrite elem_of_cons. Qed.

Lemma has_char_app c s1 s2 : has_char c (s1 +:+ s2) ↔ has_char c s1 ∨ has_char c s2.
Proof.
  induction s1 as [|d s1 IH].
  - unfold has_char at 2. cbn. rewrite elem_of_nil. tauto.
  - change (String d s1 +:+ s2) with (String d (s1 +:+ s2)). rewrite !has_char_cons, IH. tauto.
Qed.

Definition digits : list Ascii.ascii :=
  ["0"; "1"; "2"; "3"; "4"; "5"; "6"; "7"; "8"; "9"]%char.

Lemma pretty_N_go_char c x s : has_char c (pretty_N_go x s) → c ∈ digits ∨ has_char c s.
Proof.
  revert s. induction (N.lt_wf_0 x) as [x _ IH]; intros s.
  assert (x = 0 ∨ 0 < x)%N as [->|?] by lia; [rewrite pretty_N_go_0; by right|].
  rewrite pretty_N_go_step by done. intros [?|Hc]%IH; [by left| |by apply N.div_lt].
  apply has_char_cons in Hc as [->|?]; [left|by right].
  unfold pretty_N_char, digits. repeat case_match; set_solver.
Qed.

(** A number that is not negative is printed in digits. *)
Lemma pretty_digits c z : 0 ≤ z → has_char c (pretty z) → c ∈ digits.
Proof.
  destruct z as [|p|p]; intros Hz Hc; [| |lia].
  - cbv in Hc. unfold digits. set_solver.
  - change (has_char c (pretty_N_go (N.pos p) "")) in Hc.
    apply pretty_N_go_char in Hc as [?|Hc]; [done|]. by apply elem_of_nil in Hc.
Qed.

(** The last dash of a name can be found. *)
Lemma split_last_dash s1 s2 d1 d2 :
  ¬ has_char "-" d1 → ¬ has_char "-" d2 →
  s1 +:+ "-" +:+ d1 = s2 +:+ "-" +:+ d2 → s1 = s2 ∧ d1 = d2.
Proof.
  intros H1 H2. change ("-" +:+ ?d) with (String "-" d).
  assert (∀ s d, has_char "-" (s +:+ String "-" d)) as Hc.
  { intros s d. rewrite has_char_app, has_char_cons. auto. }
  revert s2. induction s1 as [|c s1 IH]; intros [|c' s2].
  - by intros [= ->].
  - intros [= _ ->]. by destruct H1.
  - intros [= _ <-]. by destruct H2.
  - intros [= -> H]. apply IH in H as [-> ->]. done.
Qed.

Lemma dash_not_digit z : 0 ≤ z → ¬ has_char "-" (pretty z).
Proof. intros Hz Hc%pretty_digits; [|done]. unfold digits in Hc. set_solver. Qed.

Lemma string_app_inj (s t1 t2 : string) : s +:+ t1 = s +:+ t2 → t1 = t2.
Proof. induction s; cbn; [done|]. intros [= ?]. auto. Qed.

(** Names of logs of a thread determine the log and the thread. *)
Lemma log_name_inj name1 name2 id1 id2 : 0 ≤ id1 → 0 ≤ id2 →
  log_name name1 id1 = log_name name2 id2 → name1 = name2 ∧ id1 = id2.
Proof.
  intros H1 H2 H%string_app_inj.
  apply split_last_dash in H as [-> H]; [|by apply dash_not_digit..].
  split; [done|by apply (inj pretty)].
Qed.

(** ** Paths identify logs *)

(** Two logs share a file only if they have the same name and the same
    thread, so no thread writes over a log of another one and no tool reads the
    wrong log. *)
Lemma logpath_injective name1 name2 id1 id2 path :
  0 ≤ id1 → 0 ≤ id2 → logpath name1 id1 = Ok path → logpath name2 id2 = Ok path →
  name1 = name2 ∧ id1 = id2.
Proof.
  unfold logpath. intros H1 H2 Hp1 Hp2. case_decide; [done|].
  case_decide; [done|]. injection Hp1 as Hp1. injection Hp2 as Hp2.
  apply log_name_inj; [done..|congruence].
Qed.
