(* ===== verification/Text.v ===== *)
(** * Text: numbers in text

    What the programs use of the C library to read and print numbers: [fscanf] and
    [fprintf] with [%d], [atoi] for the arguments of a command, [>>] of a C++
    string stream, and the hexadecimal conversions [%08x] and [%lx].  A printed
    number is read back as it was. *)
From Stdlib Require Import Ascii.
From stdpp Require Import strings pretty.
From S2P Require Import Prelude Paths.

#[local] Open Scope string_scope.
#[local] Open Scope Z_scope.

(** A line feed. *)
Definition LF : string := String (ascii_of_nat 10) "".

(** ** Reading *)

(** What is left of a file that is read, and whether its end was hit: [feof]. *)
Record stream := Stream { s_rest : string; s_eof : bool }.

(** [isspace]: blank, tab, line feed, vertical tab, form feed, carriage return. *)
Definition isspace (c : ascii) : bool :=
  let n := N_of_ascii c in bool_decide (n = 32 ∨ 9 ≤ n ≤ 13)%N.

Definition digit (c : ascii) : option Z :=
  let n := N_of_ascii c in
  if decide (48 ≤ n ≤ 57)%N then Some (Z.of_N n - 48) else None.

(** White space in a format: it matches any white space, also none. *)
Fixpoint skip_space (s : string) : stream :=
  match s with
  | "" => Stream "" true
  | String c s' => if isspace c then skip_space s' else Stream s false
  end.

(** The longest sequence of digits. *)
Fixpoint scan_digits (acc : Z) (s : string) : Z * stream :=
  match s with
  | "" => (acc, Stream "" true)
  | String c s' =>
      match digit c with
      | Some d => scan_digits (10 * acc + d) s'
      | None => (acc, Stream s false)
      end
  end.

Definition scan_unsigned (s : string) : option Z * stream :=
  match s with
  | "" => (None, Stream "" true)
  | String c _ =>
      match digit c with
      | Some _ => let '(z, f) := scan_digits 0 s in (Some z, f)
      | None => (None, Stream s false)
      end
  end.

Definition scan_signed (s : string) : option Z * stream :=
  match s with
  | String "-" s' => let '(z, f) := scan_unsigned s' in (option_map Z.opp z, f)
  | String "+" s' => scan_unsigned s'
  | _ => scan_unsigned s
  end.

(** [strtol] gives the closest [long] for a number out of range; the conversions
    to [int] then drop the upper half. *)
Definition clamp (w z : Z) : Z := Z.max (- 2 ^ (w - 1)) (Z.min (2 ^ (w - 1) - 1) z).
Definition to_int (z : Z) : Z := wrap_s 32 (clamp 64 z).

(** [%d] of [fscanf]. *)
Definition scan_d (s : string) : option Z * stream :=
  let '(z, f) := scan_signed (s_rest (skip_space s)) in (option_map to_int z, f).

(** [atoi]. *)
Definition atoi (s : string) : Z := default 0 (scan_d s).1.

(** [>>] of a string stream on [s] to an [int] that holds [old]: the variable
    keeps its value when there is nothing to read. *)
Definition istream_int (old : Z) (s : string) : Z :=
  match s_rest (skip_space s) with
  | "" => old
  | s => from_option (clamp 32) 0 (scan_signed s).1
  end.

(** ** Hexadecimal *)

Definition hex_char (d : Z) : ascii :=
  if decide (d < 10) then ascii_of_N (Z.to_N (48 + d)) else ascii_of_N (Z.to_N (87 + d)).

(** The last [n] digits of [z], leading zeros included. *)
Fixpoint hex_digits (n : nat) (z : Z) : string :=
  match n with
  | O => ""
  | S n => hex_digits n (z / 16) +:+ String (hex_char (z mod 16)) ""
  end.

Fixpoint drop_zeros (s : string) : string :=
  match s with
  | String "0" (String _ _ as s') => drop_zeros s'
  | _ => s
  end.

(** [%08x] of an [unsigned], and [%lx] of a [long]. *)
Definition print_08x (z : Z) : string := hex_digits 8 (wrap_u 32 z).
Definition print_lx (z : Z) : string := drop_zeros (hex_digits 16 (wrap_u 64 z)).

(** ** Lemmas: strings *)

Lemma string_app_cons c (s t : string) : String c s +:+ t = String c (s +:+ t).
Proof. done. Qed.

Lemma string_app_nil (s : string) : s +:+ "" = s.
Proof. induction s as [|c s IH]; [done|]. by rewrite string_app_cons, IH. Qed.

Lemma string_app_assoc (s1 s2 s3 : string) : (s1 +:+ s2) +:+ s3 = s1 +:+ (s2 +:+ s3).
Proof. induction s1 as [|c s1 IH]; [done|]. by rewrite !string_app_cons, IH. Qed.

Lemma string_length_app (s t : string) :
  String.length (s +:+ t) = (String.length s + String.length t)%nat.
Proof. induction s as [|c s IH]; [done|]. rewrite string_app_cons. cbn. by rewrite IH. Qed.

Lemma string_snoc_inj (s t : string) c d :
  s +:+ String c "" = t +:+ String d "" → s = t ∧ c = d.
Proof.
  revert t. induction s as [|a s IH]; intros [|b t].
  - by intros [= ->].
  - intros [= _ H]. by destruct t.
  - intros [= _ H]. by destruct s.
  - intros [= -> [-> ->]%IH]. done.
Qed.

(** The text of a list of lines. *)
Definition text_of {A} (line : A → string) (l : list A) : string :=
  foldr (λ a s, line a +:+ s) "" l.

Lemma text_of_cons {A} (line : A → string) a l : text_of line (a :: l) = line a +:+ text_of line l.
Proof. done. Qed.

(** ** Lemmas: reading back *)

(** The text ends there, or goes on with something else than a digit or a space. *)
Definition ends_number (s : string) : Prop :=
  match s with "" => True | String c _ => digit c = None end.
Definition no_space (s : string) : Prop :=
  match s with "" => True | String c _ => isspace c = false end.

Lemma skip_no_space_rest s : no_space s → s_rest (skip_space s) = s.
Proof. destruct s as [|c s]; [done|]. cbn. by intros ->. Qed.

Lemma digit_N_char x : (x < 10)%N → digit (pretty_N_char x) = Some (Z.of_N x).
Proof.
  intros Hx. assert (x = 0 ∨ x = 1 ∨ x = 2 ∨ x = 3 ∨ x = 4 ∨ x = 5 ∨ x = 6 ∨ x = 7 ∨ x = 8 ∨ x = 9)%N
    by lia.
  by destruct_or!; subst.
Qed.

(** The digits of [x], each by its value: reading them gives [x]. *)
Lemma scan_digits_go x acc s : ∃ k, 0 ≤ k ∧
  scan_digits acc (pretty_N_go x s) = scan_digits (acc * 10 ^ k + Z.of_N x) s.
Proof.
  revert s. induction (N.lt_wf_0 x) as [x _ IH]; intros s.
  assert (x = 0 ∨ 0 < x)%N as [->|Hx] by lia.
  { exists 0. split; [done|]. rewrite pretty_N_go_0. f_equal. lia. }
  rewrite pretty_N_go_step by done.
  destruct (IH (x `div` 10)%N) with (s := String (pretty_N_char (x `mod` 10)) s) as (k & Hk & ->);
    [by apply N.div_lt|].
  exists (k + 1). split; [lia|]. cbn [scan_digits].
  rewrite digit_N_char by (by apply N.mod_lt). f_equal.
  rewrite Z.pow_add_r by lia. pose proof (N.div_mod x 10 ltac:(done)). lia.
Qed.

(** A printed number starts with a digit. *)
Lemma pretty_N_go_head x s : (0 < x)%N → ∃ c s', pretty_N_go x s = String c s' ∧ is_Some (digit c).
Proof.
  revert s. induction (N.lt_wf_0 x) as [x _ IH]; intros s Hx.
  rewrite pretty_N_go_step by done.
  destruct (N.eq_0_gt_0_cases (x `div` 10)) as [->|Hd].
  - rewrite pretty_N_go_0. eexists _, _. split; [done|].
    rewrite digit_N_char by (by apply N.mod_lt). by eexists.
  - apply IH; [by apply N.div_lt|done].
Qed.

Lemma pretty_N_go_app x s t : pretty_N_go x s +:+ t = pretty_N_go x (s +:+ t).
Proof.
  revert s. induction (N.lt_wf_0 x) as [x _ IH]; intros s.
  assert (x = 0 ∨ 0 < x)%N as [->|Hx] by lia; [by rewrite !pretty_N_go_0|].
  rewrite !(pretty_N_go_step x) by done. by rewrite IH by (by apply N.div_lt).
Qed.

Lemma scan_digits_end acc s : ends_number s →
  scan_digits acc s = (acc, Stream s (bool_decide (s = ""))).
Proof. destruct s as [|c s]; [done|]. cbn. by intros ->. Qed.

Lemma scan_unsigned_pretty (n : N) s : ends_number s →
  scan_unsigned (pretty n +:+ s) = (Some (Z.of_N n), Stream s (bool_decide (s = ""))).
Proof.
  intros Hs. unfold pretty, pretty_N. case_decide as Hn.
  - subst. change ("0" +:+ s) with (String "0" s).
    change (scan_unsigned (String "0" s)) with (let '(z, f) := scan_digits 0 s in (Some z, f)).
    by rewrite scan_digits_end.
  - rewrite pretty_N_go_app. change ("" +:+ s) with s.
    destruct (pretty_N_go_head n s) as (c & s' & E & d & Hd); [lia|].
    destruct (scan_digits_go n 0 s) as (k & _ & Hk). unfold scan_unsigned. rewrite E, Hd, <- E.
    rewrite Hk, scan_digits_end by done. done.
Qed.

Lemma pretty_N_sign (n : N) s :
  match pretty n +:+ s with String "-" _ | String "+" _ => False | _ => True end.
Proof.
  unfold pretty, pretty_N. case_decide; [done|]. rewrite pretty_N_go_app. change ("" +:+ s) with s.
  destruct (pretty_N_go_head n s) as (c & s' & -> & d & Hd); [lia|].
  repeat case_match; subst; try done; cbv in Hd; done.
Qed.

Lemma scan_signed_pretty (z : Z) s : ends_number s →
  scan_signed (pretty z +:+ s) = (Some z, Stream s (bool_decide (s = ""))).
Proof.
  intros Hs. assert (∀ n : N,
    scan_signed (pretty n +:+ s) = (Some (Z.of_N n), Stream s (bool_decide (s = "")))) as HN.
  { intros n. rewrite <- scan_unsigned_pretty by done. pose proof (pretty_N_sign n s) as Hn.
    unfold scan_signed. repeat case_match; subst; done. }
  destruct z as [|p|p].
  - exact (HN 0%N).
  - exact (HN (N.pos p)).
  - change (pretty (Z.neg p) +:+ s) with (String "-" (pretty (N.pos p) +:+ s)).
    cbn [scan_signed]. by rewrite scan_unsigned_pretty.
Qed.

Lemma pretty_Z_head (z : Z) s : ∃ c s', pretty z +:+ s = String c s' ∧ isspace c = false.
Proof.
  assert (∀ c, is_Some (digit c) → isspace c = false) as Hc.
  { intros c [d Hd]. unfold digit in Hd. case_decide; [|done]. unfold isspace.
    apply bool_decide_eq_false. lia. }
  destruct z as [|p|p].
  - eexists _, _. split; [reflexivity|done].
  - change (pretty (Z.pos p)) with (pretty_N_go (N.pos p) ""). rewrite pretty_N_go_app.
    destruct (pretty_N_go_head (N.pos p) ("" +:+ s)) as (c & s' & -> & Hd); [lia|]. eauto.
  - eexists _, _. split; [reflexivity|done].
Qed.

Lemma pretty_no_space (z : Z) s : no_space (pretty z +:+ s).
Proof. by destruct (pretty_Z_head z s) as (c & s' & -> & ?). Qed.

Definition int_range (z : Z) : Prop := - 2 ^ 31 ≤ z < 2 ^ 31.

Lemma to_int_id z : int_range z → to_int z = z.
Proof.
  unfold int_range, to_int, clamp. intros Hz. rewrite wrap_s_id; lia.
Qed.

(** A printed [int] is scanned back, whatever white space precedes it. *)
Lemma scan_d_pretty z s : int_range z → ends_number s →
  scan_d (pretty z +:+ s) = (Some z, Stream s (bool_decide (s = ""))).
Proof.
  intros Hz Hs. unfold scan_d. rewrite skip_no_space_rest by apply pretty_no_space.
  rewrite scan_signed_pretty by done. cbn. by rewrite to_int_id.
Qed.

Lemma atoi_pretty z : int_range z → atoi (pretty z) = z.
Proof. intros Hz. unfold atoi. rewrite <- (string_app_nil (pretty z)). by rewrite scan_d_pretty. Qed.

Lemma istream_int_pretty old z : int_range z → istream_int old (pretty z) = z.
Proof.
  intros Hz. unfold istream_int. rewrite <- (string_app_nil (pretty z)).
  rewrite skip_no_space_rest by apply pretty_no_space.
  destruct (pretty_Z_head z "") as (c & s' & E & _). rewrite E, <- E.
  rewrite scan_signed_pretty by done. unfold int_range in Hz. cbn. unfold clamp. lia.
Qed.

(** Reading a number uses up a character. *)
Lemma scan_digits_length acc s : (String.length (s_rest (scan_digits acc s).2) ≤ String.length s)%nat.
Proof.
  revert acc. induction s as [|c s IH]; intros acc; [done|]. cbn. case_match; [|done].
  etrans; [apply IH|lia].
Qed.

Lemma scan_unsigned_length s z f : scan_unsigned s = (Some z, f) →
  (String.length (s_rest f) < String.length s)%nat.
Proof.
  destruct s as [|c s]; cbn; [done|]. destruct (digit c); [|done].
  pose proof (scan_digits_length (10 * 0 + z0) s) as Hl.
  destruct (scan_digits _ s) as [z' f']. intros [= -> ->]. cbn in *. lia.
Qed.

Lemma skip_space_length s : (String.length (s_rest (skip_space s)) ≤ String.length s)%nat.
Proof. induction s as [|c s IH]; [done|]. cbn. destruct (isspace c); cbn; lia. Qed.

Lemma scan_d_length s z f : scan_d s = (Some z, f) →
  (String.length (s_rest f) < String.length s)%nat.
Proof.
  unfold scan_d. pose proof (skip_space_length s) as Hs. revert Hs.
  generalize (s_rest (skip_space s)). clear. intros t Ht.
  destruct (scan_signed t) as [[y|] g] eqn:E; [|done]. intros [= _ <-].
  enough (String.length (s_rest g) < String.length t)%nat by lia.
  unfold scan_signed in E.
  repeat case_match; subst; simplify_eq; try by eapply scan_unsigned_length in E.
  all: try (apply scan_unsigned_length in E; cbn; lia).
  all: match goal with H : scan_unsigned _ = (?o, _) |- _ => destruct o; [|done];
         apply scan_unsigned_length in H; cbn; lia end.
Qed.

(** ** Lemmas: hexadecimal *)

Lemma hex_char_inj d e : 0 ≤ d < 16 → 0 ≤ e < 16 → hex_char d = hex_char e → d = e.
Proof.
  intros Hd He. unfold hex_char.
  repeat case_decide; intros Heq%(f_equal N_of_ascii);
    rewrite !N_ascii_embedding in Heq by lia; lia.
Qed.

Lemma hex_digits_inj n x y : 0 ≤ x < 16 ^ Z.of_nat n → 0 ≤ y < 16 ^ Z.of_nat n →
  hex_digits n x = hex_digits n y → x = y.
Proof.
  revert x y. induction n as [|n IH]; intros x y Hx Hy; [cbn in *; lia|].
  rewrite Nat2Z.inj_succ, Z.pow_succ_r in Hx, Hy by lia.
  intros [H Hc]%string_snoc_inj.
  apply hex_char_inj in Hc; [|by apply Z.mod_pos_bound..].
  apply IH in H; [|split; [apply Z.div_pos; lia|apply Z.div_lt_upper_bound; lia]..].
  rewrite (Z.div_mod x 16), (Z.div_mod y 16) by done. congruence.
Qed.

(** Different signatures are printed differently. *)
Lemma print_08x_inj x y : 0 ≤ x < 2 ^ 32 → 0 ≤ y < 2 ^ 32 → print_08x x = print_08x y → x = y.
Proof.
  intros Hx Hy. unfold print_08x. rewrite !wrap_u_id by done.
  by apply hex_digits_inj; change (16 ^ Z.of_nat 8) with (2 ^ 32).
Qed.

(** Strings of one length are not confused by dropping leading zeros. *)
Lemma drop_zeros_split s : ∃ k, s = Nat.iter k (String "0") (drop_zeros s).
Proof.
  induction s as [|c s (k & IH)]; [by exists 0%nat|].
  assert (drop_zeros (String c s) = String c s ∨
    c = "0"%char ∧ drop_zeros (String c s) = drop_zeros s) as [->|[-> ->]]; [|by exists 0%nat|].
  - destruct s as [|d s]; [left; by destruct c as [[] [] [] [] [] [] [] []]|].
    destruct c as [[] [] [] [] [] [] [] []]; auto.
  - exists (S k). change (String "0" s = String "0" (Nat.iter k (String "0") (drop_zeros s))). by f_equal.
Qed.

Lemma drop_zeros_inj s t : String.length s = String.length t → drop_zeros s = drop_zeros t → s = t.
Proof.
  intros Hl E. destruct (drop_zeros_split s) as [k Hs], (drop_zeros_split t) as [n Ht]. rewrite E in Hs. clear E.
  assert (∀ i u, String.length (Nat.iter i (String "0") u) = (i + String.length u)%nat) as Hi.
  { intros i u. induction i as [|i IH]; [done|]. by apply (f_equal S). }
  revert Hs Ht. generalize (drop_zeros t). intros u -> ->. rewrite !Hi in Hl. by replace k with n by lia.
Qed.

Lemma hex_digits_length n z : String.length (hex_digits n z) = n.
Proof. revert z. induction n as [|n IH]; intros z; cbn; [done|]. rewrite string_length_app, IH. cbn. lia. Qed.

Lemma print_lx_inj x y : 0 ≤ x < 2 ^ 64 → 0 ≤ y < 2 ^ 64 → print_lx x = print_lx y → x = y.
Proof.
  intros Hx Hy. unfold print_lx. rewrite !wrap_u_id by done.
  intros E%drop_zeros_inj; [|by rewrite !hex_digits_length].
  by eapply hex_digits_inj; [..|exact E]; change (16 ^ Z.of_nat 16) with (2 ^ 64).
Qed.

(** ** Lemmas: lines *)

Fixpoint no_LF (s : string) : Prop :=
  match s with
  | "" => True
  | String c s => c ≠ ascii_of_nat 10 ∧ no_LF s
  end.

Lemma no_LF_app s t : no_LF s → no_LF t → no_LF (s +:+ t).
Proof. induction s as [|c s IH]; [done|]. rewrite string_app_cons. cbn. intros [? ?] ?. auto. Qed.

Lemma hex_digits_no_LF n z : no_LF (hex_digits n z).
Proof.
  revert z. induction n as [|n IH]; intros z; cbn; [done|]. apply no_LF_app; [done|]. cbn. split; [|done].
  pose proof (Z.mod_pos_bound z 16 eq_refl). unfold hex_char.
  case_decide; intros Heq%(f_equal N_of_ascii); rewrite N_ascii_embedding in Heq by lia;
    change (N_of_ascii (ascii_of_nat 10)) with 10%N in Heq; lia.
Qed.

Lemma print_lx_no_LF z : no_LF (print_lx z).
Proof.
  unfold print_lx. destruct (drop_zeros_split (hex_digits 16 (wrap_u 64 z))) as [k Hk].
  pose proof (hex_digits_no_LF 16 (wrap_u 64 z)) as H. revert H. rewrite Hk at 1. clear.
  induction k as [|k IH]; [done|]. intros [_ H]. by apply IH.
Qed.

Lemma line_inj s t u v : no_LF s → no_LF t → s +:+ (LF +:+ u) = t +:+ (LF +:+ v) → s = t ∧ u = v.
Proof.
  revert t. induction s as [|c s IH]; intros [|d t] Hs Ht E.
  - by injection E as E.
  - injection E as E _. by destruct Ht.
  - injection E as E _. by destruct Hs.
  - rewrite !string_app_cons in E. injection E as -> E. destruct Hs as [_ Hs], Ht as [_ Ht].
    destruct (IH t Hs Ht E) as [-> ->]. done.
Qed.

(** A text says what its lines are. *)
Lemma text_of_inj {A} (f g : A → string) l : (∀ x, no_LF (f x)) → (∀ x, no_LF (g x)) →
  text_of (λ x, f x +:+ LF) l = text_of (λ x, g x +:+ LF) l → ∀ x, x ∈ l → f x = g x.
Proof.
  intros Hf Hg. induction l as [|y l IH]; intros E x Hx; [by apply not_elem_of_nil in Hx|].
  rewrite !text_of_cons, !string_app_assoc in E. apply line_inj in E as [E1 E2]; [|done..].
  apply elem_of_cons in Hx as [->|Hx]; [done|by apply IH].
Qed.
