(* ===== verification/Record.v ===== *)
(** * Record: the order recorder's thread-local log taking

    [mem-record.c] and the log-taking tails of [mem_read] and [mem_write] of
    [mem-record-seqlock.c] (the same tails are in [mem-record-rtmseq.c]).  The
    two mapped logs of a thread are the lists of the entries appended to them;
    [MappedLog] models the bytes underneath. *)
From S2P Require Import Prelude Mem.

(** ** State *)

Record last_objinfo := LastObjinfo {
  lo_version : Z;
  lo_memop : Z }.

(** The [__thread] variables of [mem-record.c]. *)
Record tls := Tls {
  g_last : gmap Z last_objinfo;
  memop : Z;
  logs_wait_version : list wait_version;
  logs_wait_memop : list wait_memop }.

Definition set_g_last (o : Z) (l : last_objinfo) (s : tls) : tls :=
  Tls (<[o := l]> (g_last s)) (memop s) (logs_wait_version s) (logs_wait_memop s).
Definition incr_memop (s : tls) : tls :=
  Tls (g_last s) (memop s + 1) (logs_wait_version s) (logs_wait_memop s).
Definition append_version (e : wait_version) (s : tls) : tls :=
  Tls (g_last s) (memop s) (logs_wait_version s ++ [e]) (logs_wait_memop s).
Definition append_memop (e : wait_memop) (s : tls) : tls :=
  Tls (g_last s) (memop s) (logs_wait_version s) (logs_wait_memop s ++ [e]).

(** ** Operations of [mem-record.c] *)

(** [mem_init_thr]: [calloc] zeroes the versions, the loop sets every last
    [memop] to -1, both logs start empty. *)
Definition mem_init_thr (avail : bool) (g_nobj : Z) : outcome tls :=
  last ← calloc_check avail g_nobj (LastObjinfo 0 0);
  Ok (Tls ((λ l, LastObjinfo (lo_version l) (-1)) <$> last) 0 [] []).

Definition log_wait_version (current_version : Z) (s : tls) : tls :=
  append_version (WaitVersion (memop s) current_version) s.

Definition log_other_wait_memop (objid : Z) (lastobj : last_objinfo) (s : tls) : tls :=
  append_memop (WaitMemop objid (lo_version lastobj) (lo_memop lastobj)) s.

Definition mark_log_end (s : tls) : tls :=
  append_memop (WaitMemop (-1) (-1) (-1)) (append_version (WaitVersion (-1) (-1)) s).

Definition log_order (objid current_version : Z) (lastobj : last_objinfo) (s : tls) : tls :=
  let s := log_wait_version current_version s in
  if decide (0 ≤ lo_memop lastobj) then log_other_wait_memop objid lastobj s else s.

(** The loop of [mem_finish_thr] over the objects [objs]. *)
Fixpoint finish_loop (objs : list Z) (s : tls) : outcome tls :=
  match objs with
  | [] => Ok s
  | i :: objs =>
      lastobj ← arr_get (g_last s) i;
      finish_loop objs
        (if decide (0 ≤ lo_memop lastobj) then log_other_wait_memop i lastobj s else s)
  end.

(** [mem_finish_thr]; [before_finish_thr] is the weak hook the batching
    recorders, whose state [S] holds more than [tls], override.  The truncation
    of the two files is in [MappedLog]. *)
Definition mem_finish_thr {S} (before_finish_thr : S → outcome tls) (g_nobj : Z) (s : S)
    : outcome tls :=
  s ← before_finish_thr s;
  s ← finish_loop (seqZ 0 g_nobj) s;
  Ok (mark_log_end s).

(** ** The tails of [mem_read] and [mem_write] of [mem-record-seqlock.c] *)

(** After the value and [version] were read: lines 71-95. *)
Definition seqlock_log_read (objid version : Z) (s : tls) : outcome tls :=
  lastobj ← arr_get (g_last s) objid;
  let '(s, lastobj) :=
    if decide (lo_version lastobj ≠ version) then
      (log_order objid version lastobj s, LastObjinfo version (lo_memop lastobj))
    else (s, lastobj) in
  Ok (incr_memop (set_g_last objid (LastObjinfo (lo_version lastobj) (memop s)) s)).

(** After the value was written over [version]: lines 120-135.  The last
    version is not updated here. *)
Definition seqlock_log_write (objid version : Z) (s : tls) : outcome tls :=
  lastobj ← arr_get (g_last s) objid;
  let s := if decide (lo_version lastobj ≠ version) then log_order objid version lastobj s
           else s in
  Ok (incr_memop (set_g_last objid (LastObjinfo (lo_version lastobj) (-1)) s)).

(** ** Access sequences

    What one thread did, in program order: the [k]-th access is the one taken
    with [memop = k]. *)
Record access := Access {
  acc_kind : kind;
  acc_obj : Z;
  acc_ver : Z }.

#[global] Instance access_eq_dec : EqDecision access.
Proof. solve_decision. Defined.

Definition seqlock_log (a : access) (s : tls) : outcome tls :=
  match acc_kind a with
  | RD => seqlock_log_read (acc_obj a) (acc_ver a) s
  | WR => seqlock_log_write (acc_obj a) (acc_ver a) s
  end.

(** Taking the logs of a whole access sequence. *)
Definition log_all (log : access → tls → outcome tls) (accs : list access) (s : tls)
    : outcome tls :=
  foldl (λ r a, s ← r; log a s) (Ok s) accs.

(** ** What the replayer relies on

    [accs] are a thread's accesses and [V], [M] its two logs without their end
    marks. *)
Record logs_ok (accs : list access) (V : list wait_version) (M : list wait_memop) : Prop := {
  lk_version_sound : ∀ e, e ∈ V →
    0 ≤ wv_memop e ∧ ∃ a, accs !! Z.to_nat (wv_memop e) = Some a ∧ acc_ver a = wv_version e;
  lk_version_sorted : StronglySorted (λ a b, wv_memop a < wv_memop b) V;
  lk_version_complete : ∀ k a, accs !! k = Some a →
    WaitVersion (Z.of_nat k) (acc_ver a) ∈ V ∨ acc_ver a = 0 ∨
    ∃ j b, (j < k)%nat ∧ accs !! j = Some b ∧ acc_obj b = acc_obj a ∧ acc_ver b = acc_ver a;
  lk_memop_sound : ∀ e, e ∈ M →
    0 ≤ wm_memop e ∧
    accs !! Z.to_nat (wm_memop e) = Some (Access RD (wm_objid e) (wm_version e));
  lk_memop_complete : ∀ k o v, accs !! k = Some (Access RD o v) →
    (∃ m, (k ≤ m)%nat ∧ WaitMemop o v (Z.of_nat m) ∈ M) ∨
    (∃ j, (k < j)%nat ∧ accs !! j = Some (Access WR o v));
  lk_memop_sorted : ∀ o,
    StronglySorted (λ a b, wm_version a ≤ wm_version b) (filter (λ e, wm_objid e = o) M);
  lk_memop_once : NoDup (wm_memop <$> M) }.

(** Versions seen by one thread on one object never decrease, and a later
    access sees a larger version than an earlier write did. *)
Definition mono_accs (accs : list access) : Prop :=
  (∀ a, a ∈ accs → 0 ≤ acc_ver a) ∧
  ∀ i j a b, (i < j)%nat → accs !! i = Some a → accs !! j = Some b → acc_obj a = acc_obj b →
    acc_ver a ≤ acc_ver b ∧ (acc_kind a = WR → acc_ver a < acc_ver b).

Definition accs_in_range (nobj : Z) (accs : list access) : Prop :=
  ∀ a, a ∈ accs → 0 ≤ acc_obj a < nobj.

(** ** Lemmas: one log-taking step

    The tails of the recorders differ only in the last version they keep after
    a write, so one lemma covers a step of each of them. *)

(** The invariant between the accesses so far and the thread-local state. *)
Record log_inv (nobj : Z) (accs : list access) (s : tls) : Prop := {
  li_memop : memop s = Z.of_nat (length accs);
  li_dom : ∀ o, is_Some (g_last s !! o) ↔ 0 ≤ o < nobj;
  li_ver : ∀ o l, g_last s !! o = Some l →
    lo_version l = 0 ∨
    ∃ j b, accs !! j = Some b ∧ acc_obj b = o ∧ acc_ver b = lo_version l;
  li_op : ∀ o l, g_last s !! o = Some l →
    lo_memop l = -1 ∨
    0 ≤ lo_memop l ∧ accs !! Z.to_nat (lo_memop l) = Some (Access RD o (lo_version l));
  li_vsound : ∀ e, e ∈ logs_wait_version s →
    0 ≤ wv_memop e ∧ ∃ a, accs !! Z.to_nat (wv_memop e) = Some a ∧ acc_ver a = wv_version e;
  li_vsorted : StronglySorted (λ a b, wv_memop a < wv_memop b) (logs_wait_version s);
  li_vcomplete : ∀ k a, accs !! k = Some a →
    WaitVersion (Z.of_nat k) (acc_ver a) ∈ logs_wait_version s ∨ acc_ver a = 0 ∨
    ∃ j b, (j < k)%nat ∧ accs !! j = Some b ∧ acc_obj b = acc_obj a ∧ acc_ver b = acc_ver a;
  li_msound : ∀ e, e ∈ logs_wait_memop s →
    0 ≤ wm_memop e ∧
    accs !! Z.to_nat (wm_memop e) = Some (Access RD (wm_objid e) (wm_version e));
  li_mcomplete : ∀ k o v, accs !! k = Some (Access RD o v) →
    (∃ m, (k ≤ m)%nat ∧ WaitMemop o v (Z.of_nat m) ∈ logs_wait_memop s) ∨
    (∃ j, (k < j)%nat ∧ accs !! j = Some (Access WR o v)) ∨
    (∃ m, (k ≤ m)%nat ∧ g_last s !! o = Some (LastObjinfo v (Z.of_nat m)));
  li_msorted : ∀ o,
    StronglySorted (λ a b, wm_version a ≤ wm_version b)
      (filter (λ e, wm_objid e = o) (logs_wait_memop s));
  li_mle : ∀ e l, e ∈ logs_wait_memop s → g_last s !! wm_objid e = Some l →
    wm_version e ≤ lo_version l;
  li_mlt : ∀ e l, e ∈ logs_wait_memop s → g_last s !! wm_objid e = Some l →
    lo_memop l ≠ -1 → wm_version e < lo_version l;
  li_neg : ∀ o l, g_last s !! o = Some l → lo_memop l = -1 →
    (∀ e, e ∈ logs_wait_memop s → wm_objid e ≠ o) ∨
    ∃ j b, accs !! j = Some b ∧ acc_obj b = o ∧ acc_kind b = WR ∧ lo_version l ≤ acc_ver b;
  li_monce : NoDup (wm_memop <$> logs_wait_memop s) }.

(** The state after logging access [a], when the last access information of its
    object goes from [l] to [l']. *)
Definition logged (a : access) (l l' : last_objinfo) (s : tls) : tls :=
  incr_memop (set_g_last (acc_obj a) l'
    (if decide (lo_version l ≠ acc_ver a) then log_order (acc_obj a) (acc_ver a) l s else s)).

(** The updates of the last access information the recorders make. *)
Definition last_update (a : access) (n : Z) (l l' : last_objinfo) : Prop :=
  match acc_kind a with
  | RD => l' = LastObjinfo (acc_ver a) n
  | WR => lo_memop l' = -1 ∧ (lo_version l' = acc_ver a ∨ lo_version l' = lo_version l)
  end.

Lemma g_last_logged a l l' s : g_last (logged a l l' s) = <[acc_obj a := l']> (g_last s).
Proof. unfold logged, log_order. repeat case_decide; done. Qed.

Lemma memop_log_order o v l s : memop (log_order o v l s) = memop s.
Proof. unfold log_order. by case_decide. Qed.

Lemma memop_logged a l l' s : memop (logged a l l' s) = memop s + 1.
Proof. unfold logged, log_order. repeat case_decide; done. Qed.

Lemma version_logged a l l' s :
  logs_wait_version (logged a l l' s) = logs_wait_version s ++
    (if decide (lo_version l ≠ acc_ver a) then [WaitVersion (memop s) (acc_ver a)] else []).
Proof.
  unfold logged, log_order. repeat case_decide; cbn; by rewrite ?app_nil_r.
Qed.

Lemma memops_logged a l l' s :
  logs_wait_memop (logged a l l' s) = logs_wait_memop s ++
    (if decide (lo_version l ≠ acc_ver a ∧ 0 ≤ lo_memop l)
     then [WaitMemop (acc_obj a) (lo_version l) (lo_memop l)] else []).
Proof.
  unfold logged, log_order. repeat case_decide; cbn; rewrite ?app_nil_r; tauto.
Qed.

Lemma seqlock_log_logged a l s :
  g_last s !! acc_obj a = Some l →
  ∃ l', seqlock_log a s = Ok (logged a l l' s) ∧ last_update a (memop s) l l'.
Proof.
  intros Hl. unfold seqlock_log, seqlock_log_read, seqlock_log_write, last_update, logged.
  destruct a as [[] o v]; cbn in *; rewrite (arr_get_lookup _ _ _ Hl); cbn.
  - exists (LastObjinfo v (memop s)). split; [|done].
    case_decide as Hv; cbn; [|by rewrite Hv].
    unfold log_order. by case_decide.
  - exists (LastObjinfo (lo_version l) (-1)). split; [done|]. auto.
Qed.

Section step.
Context (nobj : Z) (accs : list access) (a : access) (s : tls) (l l' : last_objinfo).
Context (Hinv : log_inv nobj accs s).
Context (Hmono : mono_accs (accs ++ [a])).
Context (Hl : g_last s !! acc_obj a = Some l).
Context (Hupd : last_update a (memop s) l l').

Lemma step_old_access i b :
  accs !! i = Some b → acc_obj b = acc_obj a →
  acc_ver b ≤ acc_ver a ∧ (acc_kind b = WR → acc_ver b < acc_ver a).
Proof.
  intros Hb Ho. destruct Hmono as [_ H].
  apply (H i (length accs) b a); auto with memorder.
  by apply lookup_lt_Some in Hb.
Qed.

Lemma step_last_le : lo_version l ≤ acc_ver a.
Proof.
  destruct (li_ver _ _ _ Hinv _ _ Hl) as [->|(j & b & Hj & Ho & <-)].
  - apply Hmono. apply elem_of_app. right. by apply list_elem_of_singleton.
  - by apply (step_old_access j).
Qed.

Lemma step_update_cases :
  lo_version l' = acc_ver a ∨ lo_version l' = lo_version l.
Proof.
  unfold last_update in Hupd. destruct (acc_kind a); [subst l'; by left|naive_solver].
Qed.

Lemma step_last_mono : lo_version l ≤ lo_version l'.
Proof.
  pose proof step_last_le. destruct step_update_cases as [-> | ->]; lia.
Qed.

Lemma step_memop : memop s = Z.of_nat (length accs).
Proof. apply Hinv. Qed.

Lemma step_li_ver o x : <[acc_obj a := l']> (g_last s) !! o = Some x →
  lo_version x = 0 ∨
  ∃ j b, (accs ++ [a]) !! j = Some b ∧ acc_obj b = o ∧ acc_ver b = lo_version x.
Proof.
  intros Hx. apply lookup_insert_Some in Hx as [[<- <-]|[Hne Hx]].
  - destruct step_update_cases as [-> | ->].
    + right. exists (length accs), a. auto with memorder.
    + destruct (li_ver _ _ _ Hinv _ _ Hl) as [?|(j & b & ? & ? & ?)]; [by left|].
      right. exists j, b. auto with memorder.
  - destruct (li_ver _ _ _ Hinv _ _ Hx) as [?|(j & b & ? & ? & ?)]; [by left|].
    right. exists j, b. auto with memorder.
Qed.

Lemma step_li_op o x : <[acc_obj a := l']> (g_last s) !! o = Some x →
  lo_memop x = -1 ∨
  0 ≤ lo_memop x ∧ (accs ++ [a]) !! Z.to_nat (lo_memop x) = Some (Access RD o (lo_version x)).
Proof.
  intros Hx. apply lookup_insert_Some in Hx as [[<- <-]|[Hne Hx]].
  - pose proof step_memop as Em. unfold last_update in Hupd.
    destruct a as [[] o' v]; cbn in *; [|naive_solver].
    subst l'. cbn. right. split; [lia|]. rewrite Em, Nat2Z.id. apply lookup_snoc_new.
  - destruct (li_op _ _ _ Hinv _ _ Hx) as [?|[? ?]]; [by left|]. right. auto with memorder.
Qed.

Lemma step_li_vsound e : e ∈ logs_wait_version (logged a l l' s) →
  0 ≤ wv_memop e ∧
  ∃ b, (accs ++ [a]) !! Z.to_nat (wv_memop e) = Some b ∧ acc_ver b = wv_version e.
Proof.
  rewrite version_logged, elem_of_app. intros [He|He].
  - destruct (li_vsound _ _ _ Hinv _ He) as (? & b & ? & ?). eauto with memorder.
  - case_decide; [|set_solver]. apply list_elem_of_singleton in He as ->. cbn.
    rewrite step_memop, Nat2Z.id. split; [lia|]. eauto with memorder.
Qed.

Lemma step_li_vsorted :
  StronglySorted (λ a b, wv_memop a < wv_memop b) (logs_wait_version (logged a l l' s)).
Proof.
  rewrite version_logged. pose proof (li_vsorted _ _ _ Hinv) as Hs.
  case_decide; [|by rewrite app_nil_r]. apply StronglySorted_snoc; [done|].
  intros e He. destruct (li_vsound _ _ _ Hinv _ He) as (? & b & Hb & _).
  apply lookup_lt_Some in Hb. cbn. rewrite step_memop. lia.
Qed.

Lemma step_li_vcomplete k b : (accs ++ [a]) !! k = Some b →
  WaitVersion (Z.of_nat k) (acc_ver b) ∈ logs_wait_version (logged a l l' s) ∨ acc_ver b = 0 ∨
  ∃ j c, (j < k)%nat ∧ (accs ++ [a]) !! j = Some c ∧ acc_obj c = acc_obj b ∧
         acc_ver c = acc_ver b.
Proof.
  rewrite version_logged. intros Hb. apply lookup_snoc_inv in Hb as [Hb|[-> ->]].
  - destruct (li_vcomplete _ _ _ Hinv _ _ Hb) as [?|[?|(j & c & ? & ? & ? & ?)]].
    + left. set_solver.
    + auto.
    + right; right. exists j, c. auto with memorder.
  - case_decide as Hv.
    + left. rewrite step_memop. set_solver.
    + destruct (li_ver _ _ _ Hinv _ _ Hl) as [E|(j & c & Hc & Ho & E)].
      * right; left. lia.
      * right; right. exists j, c. split_and!; auto with memorder; [|congruence].
        by apply lookup_lt_Some in Hc.
Qed.

Lemma step_li_msound e : e ∈ logs_wait_memop (logged a l l' s) →
  0 ≤ wm_memop e ∧
  (accs ++ [a]) !! Z.to_nat (wm_memop e) = Some (Access RD (wm_objid e) (wm_version e)).
Proof.
  rewrite memops_logged, elem_of_app. intros [He|He].
  - destruct (li_msound _ _ _ Hinv _ He). auto with memorder.
  - case_decide as H; [|set_solver]. apply list_elem_of_singleton in He as ->. cbn.
    destruct (li_op _ _ _ Hinv _ _ Hl) as [|[? ?]]; [lia|]. auto with memorder.
Qed.

Lemma step_li_mcomplete k o v : (accs ++ [a]) !! k = Some (Access RD o v) →
  (∃ m, (k ≤ m)%nat ∧ WaitMemop o v (Z.of_nat m) ∈ logs_wait_memop (logged a l l' s)) ∨
  (∃ j, (k < j)%nat ∧ (accs ++ [a]) !! j = Some (Access WR o v)) ∨
  (∃ m, (k ≤ m)%nat ∧
        <[acc_obj a := l']> (g_last s) !! o = Some (LastObjinfo v (Z.of_nat m))).
Proof.
  rewrite memops_logged. intros Hk. apply lookup_snoc_inv in Hk as [Hk|[-> Ha]].
  - destruct (li_mcomplete _ _ _ Hinv _ _ _ Hk) as [(m & ? & ?)|[(j & ? & ?)|(m & ? & Hm)]].
    + left. exists m. set_solver.
    + right; left. eauto with memorder.
    + destruct (decide (o = acc_obj a)) as [->|Hne].
      * rewrite Hl in Hm. injection Hm as ->. cbn in *.
        destruct (decide (v = acc_ver a)) as [->|Hv].
        -- right. unfold last_update in Hupd. destruct (acc_kind a) eqn:Ek.
           ++ right. exists (length accs). rewrite Hupd, step_memop, lookup_insert_eq.
              apply lookup_lt_Some in Hk. split; [lia|done].
           ++ left. exists (length accs). apply lookup_lt_Some in Hk. split; [lia|].
              rewrite lookup_snoc_new. destruct a; cbn in *; congruence.
        -- left. exists m. split; [done|]. rewrite decide_True by lia. set_solver.
      * right; right. exists m. by rewrite lookup_insert_ne.
  - right; right. exists (length accs). subst a. cbn in *. subst l'.
    by rewrite lookup_insert_eq, step_memop.
Qed.

Lemma step_li_msorted o :
  StronglySorted (λ a b, wm_version a ≤ wm_version b)
    (filter (λ e, wm_objid e = o) (logs_wait_memop (logged a l l' s))).
Proof.
  rewrite memops_logged, list.filter_app. pose proof (li_msorted _ _ _ Hinv o) as Hs.
  case_decide; [|by rewrite app_nil_r]. rewrite filter_cons, filter_nil; cbn.
  case_decide as Ho; [|by rewrite app_nil_r]. apply StronglySorted_snoc; [done|].
  intros e [Ee He]%list_elem_of_filter. cbn.
  apply (li_mle _ _ _ Hinv _ _ He). congruence.
Qed.

Lemma step_li_mle e x : e ∈ logs_wait_memop (logged a l l' s) →
  <[acc_obj a := l']> (g_last s) !! wm_objid e = Some x → wm_version e ≤ lo_version x.
Proof.
  pose proof step_last_mono as Hle. rewrite memops_logged, elem_of_app. intros [He|He] Hx.
  - apply lookup_insert_Some in Hx as [[Eo <-]|[Hne Hx]]; [|by eapply li_mle].
    transitivity (lo_version l); [|done]. eapply li_mle; [done..|congruence].
  - case_decide as H; [|set_solver]. apply list_elem_of_singleton in He as ->. cbn in *.
    rewrite lookup_insert_eq in Hx. by injection Hx as <-.
Qed.

(** A read that keeps the last version has logged no entry of that version. *)
Lemma step_li_mlt e x : e ∈ logs_wait_memop (logged a l l' s) →
  <[acc_obj a := l']> (g_last s) !! wm_objid e = Some x → lo_memop x ≠ -1 →
  wm_version e < lo_version x.
Proof.
  pose proof step_last_le as Hle. rewrite memops_logged, elem_of_app. intros He Hx Hm.
  apply lookup_insert_Some in Hx as [[Eo <-]|[Hne Hx]].
  - unfold last_update in Hupd. destruct (acc_kind a) eqn:Ka; [|naive_solver].
    rewrite Hupd. cbn. destruct He as [He|He].
    + pose proof He as Hle'. eapply (li_mle _ _ _ Hinv _ l) in Hle'; [|congruence].
      destruct (decide (lo_version l = acc_ver a)) as [Ev|]; [|lia].
      destruct (decide (lo_memop l = -1)) as [Em|Em].
      * destruct (li_neg _ _ _ Hinv _ _ Hl Em) as [Hno|(j & b & Hb & Ob & Kb & Hvb)].
        { by destruct (Hno e He). }
        destruct (step_old_access j b Hb Ob) as [_ H]. specialize (H Kb). lia.
      * rewrite <- Ev. eapply (li_mlt _ _ _ Hinv); [done|congruence|done].
    + case_decide as H; [|set_solver]. apply list_elem_of_singleton in He as ->. cbn. lia.
  - destruct He as [He|He]; [by eapply (li_mlt _ _ _ Hinv)|].
    case_decide; [|set_solver]. by apply list_elem_of_singleton in He as ->.
Qed.

Lemma step_li_neg o x : <[acc_obj a := l']> (g_last s) !! o = Some x → lo_memop x = -1 →
  (∀ e, e ∈ logs_wait_memop (logged a l l' s) → wm_objid e ≠ o) ∨
  ∃ j b, (accs ++ [a]) !! j = Some b ∧ acc_obj b = o ∧ acc_kind b = WR ∧
    lo_version x ≤ acc_ver b.
Proof.
  pose proof step_last_le as Hle. pose proof step_memop as Em.
  pose proof step_update_cases as Hcases. intros Hx Hm.
  apply lookup_insert_Some in Hx as [[<- <-]|[Hne Hx]].
  - right. exists (length accs), a. unfold last_update in Hupd. destruct (acc_kind a) eqn:Ka.
    + subst l'. cbn in Hm. lia.
    + split_and!; [apply lookup_snoc_new|done..|]. destruct Hcases as [-> | ->]; lia.
  - destruct (li_neg _ _ _ Hinv _ _ Hx Hm) as [Hno|(j & b & ? & ?)].
    + left. intros e. rewrite memops_logged, elem_of_app. intros [He|He]; [auto|].
      case_decide; [|set_solver]. apply list_elem_of_singleton in He as ->. done.
    + right. exists j, b. auto with memorder.
Qed.

Lemma step_li_monce : NoDup (wm_memop <$> logs_wait_memop (logged a l l' s)).
Proof.
  rewrite memops_logged, fmap_app. pose proof (li_monce _ _ _ Hinv) as Hn.
  case_decide as Hd; cbn; [|by rewrite app_nil_r]. apply list.NoDup_app. split_and!; [done| |].
  - intros m Hm ->%list_elem_of_singleton. apply list_elem_of_fmap in Hm as (e & Ee & He).
    destruct (li_msound _ _ _ Hinv _ He) as [_ H1].
    destruct (li_op _ _ _ Hinv _ _ Hl) as [?|[_ H2]]; [lia|].
    rewrite <- Ee, H2 in H1. injection H1 as Eo Ev.
    assert (wm_version e < lo_version l); [|lia].
    eapply (li_mlt _ _ _ Hinv); [done|congruence|lia].
  - apply NoDup_singleton.
Qed.

Lemma log_inv_step : log_inv nobj (accs ++ [a]) (logged a l l' s).
Proof.
  constructor.
  - rewrite memop_logged, length_app, step_memop; cbn. lia.
  - intros o. rewrite g_last_logged, lookup_insert_is_Some, (li_dom _ _ _ Hinv).
    assert (0 ≤ acc_obj a < nobj) by (apply (li_dom _ _ _ Hinv); eauto).
    destruct (decide (acc_obj a = o)); naive_solver.
  - intros o x. rewrite g_last_logged. apply step_li_ver.
  - intros o x. rewrite g_last_logged. apply step_li_op.
  - apply step_li_vsound.
  - apply step_li_vsorted.
  - apply step_li_vcomplete.
  - apply step_li_msound.
  - intros k o v. rewrite g_last_logged. apply step_li_mcomplete.
  - apply step_li_msorted.
  - intros e x. rewrite g_last_logged. apply step_li_mle.
  - intros e x. rewrite g_last_logged. apply step_li_mlt.
  - intros o x. rewrite g_last_logged. apply step_li_neg.
  - apply step_li_monce.
Qed.
End step.

(** ** Lemmas: a whole access sequence *)

Lemma log_all_snoc log accs a s :
  log_all log (accs ++ [a]) s = s' ← log_all log accs s; log a s'.
Proof. unfold log_all. by rewrite foldl_app. Qed.

Lemma log_inv_init avail nobj s :
  mem_init_thr avail nobj = Ok s → log_inv nobj [] s.
Proof.
  unfold mem_init_thr, calloc_check. destruct avail; cbn; [|done]. intros [= <-].
  assert (∀ o, ((λ l, LastObjinfo (lo_version l) (-1)) <$> arr_make nobj (LastObjinfo 0 0)) !! o
    = if decide (0 ≤ o < nobj) then Some (LastObjinfo 0 (-1)) else None) as E.
  { intros o. rewrite lookup_fmap, lookup_arr_make. by case_decide. }
  constructor; cbn; try setoid_rewrite E; try set_solver; try constructor.
  - case_decide; [done|]. by intros [? ?].
  - intros. rewrite decide_True by done. eauto.
  - case_decide; by simplify_eq/=.
  - case_decide; by simplify_eq/=.
Qed.

Lemma mono_accs_prefix accs a : mono_accs (accs ++ [a]) → mono_accs accs.
Proof.
  intros [H0 H]. split; [set_solver|].
  intros i j b c ? ? ?. apply (H i j); auto with memorder.
Qed.

Lemma log_all_cons log a accs s :
  log_all log (a :: accs) s = s' ← log a s; log_all log accs s'.
Proof.
  unfold log_all. cbn. destruct (log a s) as [s'|e]; [done|]. cbn.
  induction accs; [done|]. cbn. done.
Qed.

Lemma log_all_app log accs1 accs2 s :
  log_all log (accs1 ++ accs2) s = s' ← log_all log accs1 s; log_all log accs2 s'.
Proof.
  revert s. induction accs1 as [|a accs1 IH]; intros s; [done|]. cbn [app].
  rewrite !log_all_cons. destruct (log a s); cbn; [apply IH|done].
Qed.

(** Logging a sequence keeps the invariant when logging one access does. *)
Lemma log_all_inv log nobj :
  (∀ accs a s, log_inv nobj accs s → 0 ≤ acc_obj a < nobj →
     ∃ l l', g_last s !! acc_obj a = Some l ∧ log a s = Ok (logged a l l' s) ∧
       last_update a (memop s) l l') →
  ∀ accs s, log_inv nobj [] s → mono_accs accs → accs_in_range nobj accs →
  ∃ s', log_all log accs s = Ok s' ∧ log_inv nobj accs s'.
Proof.
  intros Hlog accs s Hinit. induction accs as [|a accs IH] using rev_ind; intros Hm Hr.
  { by exists s. }
  destruct IH as (s' & Es & Hs).
  { by eapply mono_accs_prefix. } { intros b Hb. apply Hr. set_solver. }
  rewrite log_all_snoc, Es; cbn.
  destruct (Hlog accs a s' Hs) as (l & l' & Hl & -> & Hu); [apply Hr; set_solver|].
  eexists; split; [done|]. by eapply log_inv_step.
Qed.

Lemma seqlock_log_all nobj accs s :
  log_inv nobj [] s → mono_accs accs → accs_in_range nobj accs →
  ∃ s', log_all seqlock_log accs s = Ok s' ∧ log_inv nobj accs s'.
Proof.
  apply log_all_inv. intros accs' a s' Hs' Hr.
  destruct (proj2 (li_dom _ _ _ Hs' (acc_obj a)) Hr) as [l Hl].
  destruct (seqlock_log_logged a l s' Hl) as (l' & ? & ?). eauto.
Qed.

(** ** Lemmas: [mem_finish_thr] *)

(** What the final loop appends. *)
Definition finish_entry (g : gmap Z last_objinfo) (i : Z) : list wait_memop :=
  match g !! i with
  | Some l => if decide (0 ≤ lo_memop l) then [WaitMemop i (lo_version l) (lo_memop l)] else []
  | None => []
  end.

Lemma finish_loop_eq objs s :
  (∀ i, i ∈ objs → is_Some (g_last s !! i)) →
  finish_loop objs s = Ok (Tls (g_last s) (memop s) (logs_wait_version s)
    (logs_wait_memop s ++ (objs ≫= finish_entry (g_last s)))).
Proof.
  revert s. induction objs as [|i objs IH]; intros s Hd; cbn.
  { rewrite app_nil_r. by destruct s. }
  destruct (Hd i) as [l Hl]; [set_solver|]. rewrite (arr_get_lookup _ _ _ Hl); cbn.
  rewrite IH; [|intros j Hj; case_decide; cbn; apply Hd; set_solver].
  unfold finish_entry at 2. rewrite Hl. case_decide; cbn; [|done].
  by rewrite <- app_assoc.
Qed.

Lemma finish_entries_spec g objs e :
  e ∈ objs ≫= finish_entry g ↔
  wm_objid e ∈ objs ∧ 0 ≤ wm_memop e ∧
  g !! wm_objid e = Some (LastObjinfo (wm_version e) (wm_memop e)).
Proof.
  rewrite list_elem_of_bind. unfold finish_entry. split.
  - intros (i & He & Hi). destruct (g !! i) as [[v m]|] eqn:E; [|set_solver].
    case_decide; [|set_solver]. apply list_elem_of_singleton in He as ->. done.
  - intros (Hi & Hm & E). exists (wm_objid e). rewrite E. cbn.
    rewrite decide_True by done. split; [|done]. destruct e; set_solver.
Qed.

Section finish.
Context (nobj : Z) (accs : list access) (s : tls).
Context (Hinv : log_inv nobj accs s).

Lemma finish_sorted o :
  StronglySorted (λ a b, wm_version a ≤ wm_version b)
    (filter (λ e, wm_objid e = o)
       (logs_wait_memop s ++ (seqZ 0 nobj ≫= finish_entry (g_last s)))).
Proof.
  rewrite list.filter_app. apply StronglySorted_app_2; [| apply Hinv |].
  - intros x y [Ex Hx]%list_elem_of_filter [Ey Hy]%list_elem_of_filter.
    apply finish_entries_spec in Hy as (_ & _ & Hy).
    eapply (li_mle _ _ _ Hinv _ (LastObjinfo _ _) Hx). by rewrite Ex, <- Ey.
  - apply StronglySorted_all.
    intros x y [Ex Hx]%list_elem_of_filter [Ey Hy]%list_elem_of_filter.
    apply finish_entries_spec in Hx as (_ & _ & Hx).
    apply finish_entries_spec in Hy as (_ & _ & Hy).
    rewrite Ex in Hx. rewrite Ey, Hx in Hy. injection Hy. lia.
Qed.

Lemma finish_complete k o v : accs !! k = Some (Access RD o v) →
  (∃ m, (k ≤ m)%nat ∧ WaitMemop o v (Z.of_nat m) ∈
     logs_wait_memop s ++ (seqZ 0 nobj ≫= finish_entry (g_last s))) ∨
  (∃ j, (k < j)%nat ∧ accs !! j = Some (Access WR o v)).
Proof.
  intros Hk.
  destruct (li_mcomplete _ _ _ Hinv _ _ _ Hk) as [(m & ? & ?)|[?|(m & ? & Hm)]]; [|by right|].
  - left. exists m. set_solver.
  - left. exists m. split; [done|]. apply elem_of_app. right.
    apply finish_entries_spec; cbn. split_and!; [|lia|done].
    apply elem_of_seqZ. rewrite Z.add_0_l. apply (li_dom _ _ _ Hinv). eauto.
Qed.

Lemma finish_once :
  NoDup (wm_memop <$> logs_wait_memop s ++ (seqZ 0 nobj ≫= finish_entry (g_last s))).
Proof.
  assert (∀ e, e ∈ (seqZ 0 nobj ≫= finish_entry (g_last s)) →
    accs !! Z.to_nat (wm_memop e) = Some (Access RD (wm_objid e) (wm_version e)) ∧
    g_last s !! wm_objid e = Some (LastObjinfo (wm_version e) (wm_memop e)) ∧ 0 ≤ wm_memop e)
    as Hfin.
  { intros e (_ & ? & He)%finish_entries_spec.
    destruct (li_op _ _ _ Hinv _ _ He) as [|[_ ?]]; cbn in *; [lia|done]. }
  rewrite fmap_app. apply list.NoDup_app. split_and!; [apply Hinv| |].
  - intros m Hm Hf. apply list_elem_of_fmap in Hm as (e & -> & He).
    apply list_elem_of_fmap in Hf as (f & Ef & Hf). destruct (Hfin f Hf) as (H2 & H3 & H4).
    destruct (li_msound _ _ _ Hinv _ He) as [_ H1]. rewrite Ef, H2 in H1. injection H1 as Eo Ev.
    rewrite Eo in H3.
    assert (wm_version e < wm_version f); [|lia]. eapply (li_mlt _ _ _ Hinv e _ He H3). cbn. lia.
  - apply NoDup_fmap_2_strong.
    + intros e f He Hf Em. destruct (Hfin e He) as (H1 & _), (Hfin f Hf) as (H2 & _).
      rewrite Em, H2 in H1. destruct e, f; cbn in *. congruence.
    + apply NoDup_bind; [| |apply NoDup_seqZ]; unfold finish_entry.
      * intros i1 i2 e _ _ H1 H2.
        assert (∀ i, e ∈ finish_entry (g_last s) i → wm_objid e = i) as H.
        { intros i. unfold finish_entry. destruct (g_last s !! i); [case_decide|]; set_solver. }
        rewrite <- (H i1 H1). by apply H.
      * intros i _. destruct (g_last s !! i); [case_decide|]; repeat constructor; set_solver.
Qed.

Lemma logs_ok_finish :
  logs_ok accs (logs_wait_version s)
    (logs_wait_memop s ++ (seqZ 0 nobj ≫= finish_entry (g_last s))).
Proof.
  constructor; try apply Hinv.
  - intros e [He|He]%elem_of_app; [by apply Hinv|].
    apply finish_entries_spec in He as (_ & ? & He).
    destruct (li_op _ _ _ Hinv _ _ He) as [|[_ E]]; cbn in *; [lia|done].
  - apply finish_complete.
  - apply finish_sorted.
  - apply finish_once.
Qed.

Lemma mem_finish_thr_ok :
  ∃ M, mem_finish_thr Ok nobj s =
         Ok (Tls (g_last s) (memop s) (logs_wait_version s ++ [WaitVersion (-1) (-1)])
               (M ++ [WaitMemop (-1) (-1) (-1)])) ∧
       logs_ok accs (logs_wait_version s) M.
Proof.
  eexists. split; [|apply logs_ok_finish].
  unfold mem_finish_thr; cbn. rewrite finish_loop_eq; [done|].
  intros i Hi%elem_of_seqZ. apply (li_dom _ _ _ Hinv). lia.
Qed.
End finish.

(** There are no more memop entries than accesses. *)
Lemma logs_ok_length accs V M : logs_ok accs V M → (length M ≤ length accs)%nat.
Proof.
  intros HM. rewrite <- (length_fmap wm_memop M), <- (Nat2Z.id (length accs)).
  rewrite <- (length_seqZ 0). apply submseteq_length, NoDup_submseteq; [apply HM|].
  intros m (e & -> & He)%list_elem_of_fmap.
  destruct (lk_memop_sound _ _ _ HM e He) as [? Hl]. apply lookup_lt_Some in Hl.
  apply elem_of_seqZ. lia.
Qed.

(** ** The recorder interface

    What the programs after recording use of a recorder: the thread-local state
    it keeps, how one access is logged, and the logs it leaves behind.  An access
    comes with the value it read or wrote, which only [DebugAccess] logs. *)
Class recorder := {
  rc_state : Type;
  rc_init : Z → outcome rc_state;
  rc_log : access * Z → rc_state → outcome rc_state;
  rc_finish : Z → rc_state → outcome tls }.

(** Recording a whole thread. *)
Definition rc_log_all (R : recorder) (accs : list (access * Z)) (s : rc_state) : outcome rc_state :=
  foldl (λ r a, s ← r; rc_log a s) (Ok s) accs.

Definition record_thread (R : recorder) (nobj : Z) (accs : list (access * Z)) : outcome tls :=
  s ← rc_init nobj;
  s ← rc_log_all R accs s;
  rc_finish nobj s.

(** The promise: on accesses whose versions come from an atomic history, the
    logs are complete, sound and ordered, and closed by an end mark. *)
Class recorder_ok (R : recorder) : Prop :=
  rc_ok nobj accs :
    mono_accs accs.*1 → accs_in_range nobj accs.*1 →
    ∃ s V M, record_thread R nobj accs = Ok s ∧
      logs_wait_version s = V ++ [WaitVersion (-1) (-1)] ∧
      logs_wait_memop s = M ++ [WaitMemop (-1) (-1) (-1)] ∧
      memop s = Z.of_nat (length accs) ∧ logs_ok accs.*1 V M.

Lemma rc_log_all_snoc R accs a s :
  rc_log_all R (accs ++ [a]) s = s' ← rc_log_all R accs s; rc_log a s'.
Proof. unfold rc_log_all. by rewrite foldl_snoc. Qed.

Lemma rc_init_ok R `{!recorder_ok R} nobj : ∃ s, rc_init nobj = Ok s.
Proof.
  destruct (rc_ok nobj []) as (s' & _ & _ & Hrec & _); [|set_solver|].
  - split; [set_solver|]. intros i j a b _ Hi. done.
  - unfold record_thread in Hrec. destruct (rc_init nobj) as [s|]; [by exists s|done].
Qed.

(** So no step of such a recording fails. *)
Lemma rc_log_all_ok R `{!recorder_ok R} nobj accs s :
  rc_init nobj = Ok s → mono_accs accs.*1 → accs_in_range nobj accs.*1 →
  ∃ s', rc_log_all R accs s = Ok s'.
Proof.
  intros Hs Hm Hr. destruct (rc_ok nobj accs Hm Hr) as (s' & _ & _ & Hrec & _).
  unfold record_thread in Hrec. rewrite Hs in Hrec. cbn in Hrec.
  destruct (rc_log_all R accs s) as [x|] eqn:E; [by exists x|done].
Qed.

(** A recorder whose order logs depend on the accesses alone, not on their values. *)
Class value_blind (R : recorder) : Prop :=
  rc_blind nobj accs accs' : accs'.*1 = accs.*1 → record_thread R nobj accs' = record_thread R nobj accs.

(** A recorder that takes the logs of each access at once, with [log]. *)
Definition plain_recorder (log : access → tls → outcome tls) : recorder := {|
  rc_state := tls;
  rc_init := mem_init_thr true;
  rc_log a := log a.1;
  rc_finish := mem_finish_thr Ok |}.

Lemma plain_log_all log accs s :
  rc_log_all (plain_recorder log) accs s = log_all log accs.*1 s.
Proof. unfold log_all. by rewrite foldl_fmap. Qed.

#[global] Instance plain_value_blind log : value_blind (plain_recorder log).
Proof.
  intros nobj accs accs' E. unfold record_thread. destruct (rc_init nobj) as [s|]; [|done].
  cbn [mbind outcome_bind]. by rewrite !plain_log_all, E.
Qed.

Lemma plain_recorder_ok log :
  (∀ nobj accs s, log_inv nobj [] s → mono_accs accs → accs_in_range nobj accs →
     ∃ s', log_all log accs s = Ok s' ∧ log_inv nobj accs s') →
  recorder_ok (plain_recorder log).
Proof.
  intros Hlog nobj accs Hm Hr. unfold record_thread; cbn -[mem_finish_thr].
  match goal with |- context [Tls ?g 0 [] []] => set (s0 := Tls g 0 [] []) end.
  destruct (Hlog nobj accs.*1 s0) as (s & Es & Hs); [by apply (log_inv_init true)|done..|].
  rewrite plain_log_all, Es; cbn -[mem_finish_thr].
  destruct (mem_finish_thr_ok nobj accs.*1 s Hs) as (M & EM & HM).
  do 3 eexists. split_and!; [exact EM|done|done| |exact HM].
  cbn. by rewrite (li_memop _ _ _ Hs), length_fmap.
Qed.

#[global] Instance seqlock_recorder : recorder := plain_recorder seqlock_log.

#[global] Instance seqlock_value_blind : value_blind seqlock_recorder.
Proof. apply plain_value_blind. Qed.

#[global] Instance seqlock_recorder_ok : recorder_ok seqlock_recorder.
Proof. apply plain_recorder_ok. apply seqlock_log_all. Qed.

(** ** Properties *)

(** C14: on the accesses of any atomic run the seqlock recorder leaves logs the
    replayer can rely on: every logged wait is true of the accesses, every access
    is ordered after the write it saw, every read is ordered before the next
    write of its object, the logs are ordered, and no read is logged twice. *)
Theorem seqlock_logs_sound_complete nobj accs :
  mono_accs accs.*1 → accs_in_range nobj accs.*1 →
  ∃ s V M, record_thread seqlock_recorder nobj accs = Ok s ∧
    logs_wait_version s = V ++ [WaitVersion (-1) (-1)] ∧
    logs_wait_memop s = M ++ [WaitMemop (-1) (-1) (-1)] ∧
    memop s = Z.of_nat (length accs) ∧ logs_ok accs.*1 V M.
Proof. apply seqlock_recorder_ok. Qed.

(** A thread that reads object 0, sees it change, writes it and reads it again. *)
Definition demo_accs : list (access * Z) :=
  [(Access RD 0 0, 0); (Access RD 1 0, 0); (Access RD 0 2, 7); (Access WR 0 2, 8);
   (Access RD 0 4, 8); (Access RD 0 4, 8)].

Lemma demo_accs_mono : mono_accs demo_accs.*1.
Proof.
  split.
  - intros a Ha. repeat (apply elem_of_cons in Ha as [->|Ha]; [cbn; lia|]).
    by apply not_elem_of_nil in Ha.
  - intros i j a b Hij Hi Hj Ho.
    do 6 (destruct j as [|j]; [
      do 6 (destruct i as [|i]; [try lia; cbn in Hi, Hj; simplify_eq; cbn in *; first [lia | split; [lia|done]]
        |]); exfalso; lia |]). done.
Qed.

Lemma demo_accs_range : accs_in_range 2 demo_accs.*1.
Proof.
  intros a Ha. repeat (apply elem_of_cons in Ha as [->|Ha]; [cbn; lia|]).
  by apply not_elem_of_nil in Ha.
Qed.

Lemma seqlock_logs_sound_complete_witness :
  ∃ s V M, record_thread seqlock_recorder 2 demo_accs = Ok s ∧
    logs_wait_version s = V ++ [WaitVersion (-1) (-1)] ∧
    logs_wait_memop s = M ++ [WaitMemop (-1) (-1) (-1)] ∧
    memop s = Z.of_nat (length demo_accs) ∧ logs_ok demo_accs.*1 V M.
Proof. exact (seqlock_logs_sound_complete 2 demo_accs demo_accs_mono demo_accs_range). Defined.
