(* ===== verification/Batch.v ===== *)
(** * Batch: batched log taking

    [mem-record-seqbatch.c] and [mem-record-rtmcluster.c] put every access into a
    fixed array first and take its logs when the array is full; the array has
    [BATCH_LOG_SIZE] and [RTM_BATCH_N] entries, and the code is otherwise the
    same. *)
From S2P Require Import Prelude Mem Record.

(** ** The program *)

(** [struct batmem_acc]: a negative object id marks a write. *)
Record batmem_acc := BatmemAcc {
  ba_objid : Z;
  ba_version : Z }.

Definition BATCH_LOG_SIZE : Z := 97.
Definition RTM_BATCH_N : Z := 7.

(** The thread-local variables: those of [mem-record.c] and the queue. *)
Record bstate := BState {
  b_tls : tls;
  g_batch_q : gmap Z batmem_acc;
  g_batch_idx : Z }.

Definition process_1log (acc : batmem_acc) (s : tls) : outcome tls :=
  let is_write := bool_decide (ba_objid acc < 0) in
  let objid := if is_write then Z.lnot (ba_objid acc) else ba_objid acc in
  last ← arr_get (g_last s) objid;
  let '(s, last) :=
    if decide (lo_version last ≠ ba_version acc) then
      (log_order objid (ba_version acc) last s, LastObjinfo (ba_version acc) (lo_memop last))
    else (s, last) in
  let last := LastObjinfo (lo_version last) (if is_write then -1 else memop s) in
  Ok (incr_memop (set_g_last objid last s)).

(** The loop of [batch_process_log] over the indices [idxs]. *)
Fixpoint process_loop (idxs : list Z) (q : gmap Z batmem_acc) (s : tls) : outcome tls :=
  match idxs with
  | [] => Ok s
  | i :: idxs => acc ← arr_get q i; s ← process_1log acc s; process_loop idxs q s
  end.

Definition batch_process_log (b : bstate) : outcome bstate :=
  s ← process_loop (seqZ 0 (g_batch_idx b)) (g_batch_q b) (b_tls b);
  Ok (BState s (g_batch_q b) 0).

Section batch.
Context (size : Z).

Definition batch_add_log (objid version : Z) (b : bstate) : outcome bstate :=
  q ← arr_set (g_batch_q b) (g_batch_idx b) (BatmemAcc objid version);
  let b := BState (b_tls b) q (g_batch_idx b + 1) in
  if decide (g_batch_idx b = size) then batch_process_log b else Ok b.

Definition batch_read_log (objid version : Z) (b : bstate) : outcome bstate :=
  batch_add_log objid version b.

Definition batch_write_log (objid version : Z) (b : bstate) : outcome bstate :=
  batch_add_log (Z.lnot objid) version b.

Definition before_finish_thr (b : bstate) : outcome tls :=
  b ← batch_process_log b; Ok (b_tls b).

Definition batch_log (a : access) (b : bstate) : outcome bstate :=
  match acc_kind a with
  | RD => batch_read_log (acc_obj a) (acc_ver a) b
  | WR => batch_write_log (acc_obj a) (acc_ver a) b
  end.

Definition batch_recorder : recorder := {|
  rc_state := bstate;
  rc_init nobj := s ← mem_init_thr true nobj; Ok (BState s (arr_make size (BatmemAcc 0 0)) 0);
  rc_log a := batch_log a.1;
  rc_finish := mem_finish_thr before_finish_thr |}.
End batch.

(** The two recorders that batch. *)
Definition seqbatch_recorder : recorder := batch_recorder BATCH_LOG_SIZE.
Definition rtmcluster_recorder : recorder := batch_recorder RTM_BATCH_N.

(** ** Lemmas: the queue *)

(** How an access is stored in the queue. *)
Definition encode (a : access) : batmem_acc :=
  BatmemAcc (match acc_kind a with RD => acc_obj a | WR => Z.lnot (acc_obj a) end) (acc_ver a).

(** Logging without a queue: what the batch delays. *)
Definition direct_log (a : access) (s : tls) : outcome tls := process_1log (encode a) s.

Lemma direct_log_logged a l s : 0 ≤ acc_obj a → g_last s !! acc_obj a = Some l →
  let l' := LastObjinfo (acc_ver a) (match acc_kind a with RD => memop s | WR => -1 end) in
  direct_log a s = Ok (logged a l l' s).
Proof.
  intros Ho Hl. unfold direct_log, process_1log, encode, logged. destruct a as [[] o v]; cbn in *.
  - rewrite bool_decide_false, (arr_get_lookup _ _ _ Hl) by lia; cbn.
    case_decide; cbn; [by rewrite memop_log_order|]. by replace (lo_version l) with v by lia.
  - rewrite bool_decide_true, Z.lnot_involutive, (arr_get_lookup _ _ _ Hl)
      by (unfold Z.lnot; lia); cbn.
    case_decide; cbn; [done|]. by replace (lo_version l) with v by lia.
Qed.

Lemma direct_log_all nobj accs s :
  log_inv nobj [] s → mono_accs accs → accs_in_range nobj accs →
  ∃ s', log_all direct_log accs s = Ok s' ∧ log_inv nobj accs s'.
Proof.
  apply log_all_inv. intros accs' a s' Hs' Hr.
  destruct (proj2 (li_dom _ _ _ Hs' (acc_obj a)) Hr) as [l Hl].
  exists l. eexists. split_and!; [done|apply direct_log_logged; [lia|done]|].
  unfold last_update. destruct (acc_kind a); [done|]. split; [done|by left].
Qed.

(** Processing the queue is logging the accesses it holds, one after another. *)
Lemma process_loop_eq (pend : list access) q s k :
  (∀ i a, pend !! i = Some a → q !! (k + Z.of_nat i) = Some (encode a)) →
  process_loop (seqZ k (Z.of_nat (length pend))) q s = log_all direct_log pend s.
Proof.
  revert k s. induction pend as [|a pend IH]; intros k s Hq; [done|].
  cbn [length]. rewrite seqZ_cons by lia. cbn [process_loop].
  rewrite (arr_get_lookup q k (encode a)); cbn [mbind outcome_bind].
  2:{ rewrite <- (Hq 0%nat a eq_refl). f_equal. lia. }
  rewrite log_all_cons. fold (direct_log a s). destruct (direct_log a s) as [s1|]; [cbn|done].
  replace (Z.pred _) with (Z.of_nat (length pend)) by lia. apply IH.
  intros i b Hi. rewrite <- (Hq (S i) b Hi). f_equal. lia.
Qed.

(** Every access is counted in [memop] or in [g_batch_idx]. *)
Lemma process_loop_memop idxs q s s' : process_loop idxs q s = Ok s' →
  memop s' = memop s + Z.of_nat (length idxs).
Proof.
  revert s. induction idxs as [|i idxs IH]; intros s H; cbn [process_loop length] in *; outcome_inv; [lia|].
  rewrite (IH _ H1). enough (memop x0 = memop s + 1) by lia. unfold process_1log in H0. outcome_inv.
  repeat case_decide; outcome_inv; cbn; try done; unfold log_order; by case_decide.
Qed.

Lemma batch_log_counts size a b b' : 0 ≤ g_batch_idx b → batch_log size a b = Ok b' →
  0 ≤ g_batch_idx b' ∧ memop (b_tls b') + g_batch_idx b' = memop (b_tls b) + g_batch_idx b + 1.
Proof.
  intros H0 H. assert (∃ objid, batch_add_log size objid (acc_ver a) b = Ok b') as [objid Ha].
  { unfold batch_log in H. destruct (acc_kind a); eexists; exact H. }
  unfold batch_add_log, batch_process_log in Ha. outcome_inv. case_decide; outcome_inv; cbn in *; [|lia].
  erewrite process_loop_memop by done. rewrite length_seqZ. lia.
Qed.

Lemma batch_log_all_counts size nobj accs s0 b :
  @rc_init (batch_recorder size) nobj = Ok s0 → rc_log_all (batch_recorder size) accs s0 = Ok b →
  0 ≤ g_batch_idx b ∧ memop (b_tls b) + g_batch_idx b = Z.of_nat (length accs).
Proof.
  intros Hs0. revert b. induction accs as [|a accs IH] using rev_ind; intros b H.
  { cbn in *. outcome_inv. unfold mem_init_thr in *. outcome_inv. cbn. lia. }
  rewrite rc_log_all_snoc in H. apply bind_Ok in H as (b1 & H1 & H2). destruct (IH b1 H1) as [Hi Hn].
  destruct (batch_log_counts size a.1 b1 b Hi H2) as [? ->]. rewrite length_app. cbn. split; [done|lia].
Qed.

(** ** Lemmas: a whole access sequence *)

Section batch_proof.
Context (size nobj : Z) (Hsize : 0 < size).

(** [done] have been logged, [pend] are in the queue. *)
Record batch_inv (s0 : tls) (accs : list access) (b : bstate) (done pend : list access)
    : Prop := {
  bi_split : accs = done ++ pend;
  bi_done : log_all direct_log done s0 = Ok (b_tls b);
  bi_idx : g_batch_idx b = Z.of_nat (length pend);
  bi_room : Z.of_nat (length pend) < size;
  bi_dom : ∀ i, is_Some (g_batch_q b !! i) ↔ 0 ≤ i < size;
  bi_queue : ∀ i a, pend !! i = Some a → g_batch_q b !! Z.of_nat i = Some (encode a) }.

Lemma batch_process_ok s0 accs b done pend s :
  accs = done ++ pend → log_all direct_log done s0 = Ok (b_tls b) →
  g_batch_idx b = Z.of_nat (length pend) →
  (∀ i a, pend !! i = Some a → g_batch_q b !! Z.of_nat i = Some (encode a)) →
  log_all direct_log accs s0 = Ok s →
  batch_process_log b = Ok (BState s (g_batch_q b) 0).
Proof.
  intros -> Hdone Hidx Hq Hall. unfold batch_process_log.
  rewrite Hidx, process_loop_eq by (intros; by apply Hq).
  rewrite log_all_app, Hdone in Hall. cbn in Hall. by rewrite Hall.
Qed.

Lemma batch_log_ok s0 accs a b done pend :
  batch_inv s0 accs b done pend → 0 ≤ acc_obj a < nobj →
  (∃ s, log_all direct_log (accs ++ [a]) s0 = Ok s) →
  ∃ b' done' pend', batch_log size a b = Ok b' ∧ batch_inv s0 (accs ++ [a]) b' done' pend'.
Proof.
  intros [] Ho [s Hs].
  assert (batch_log size a b =
    q ← arr_set (g_batch_q b) (g_batch_idx b) (encode a);
    let b := BState (b_tls b) q (g_batch_idx b + 1) in
    if decide (g_batch_idx b = size) then batch_process_log b else Ok b) as ->.
  { by destruct a as [[] o v]. }
  destruct (proj2 (bi_dom0 (g_batch_idx b))) as [x Hx]; [lia|].
  rewrite (arr_set_lookup _ _ _ _ Hx), bi_idx0. cbn [mbind outcome_bind g_batch_idx].
  set (q' := <[Z.of_nat (length pend) := encode a]> (g_batch_q b)).
  assert (∀ i c, (pend ++ [a]) !! i = Some c → q' !! Z.of_nat i = Some (encode c)) as Hq'.
  { intros i c [Hi|[-> ->]]%lookup_snoc_inv; unfold q'; [|by rewrite lookup_insert_eq].
    rewrite lookup_insert_ne; [by apply bi_queue0|]. apply lookup_lt_Some in Hi. lia. }
  assert (∀ i, is_Some (q' !! i) ↔ 0 ≤ i < size) as Hd'.
  { intros i. unfold q'. rewrite lookup_insert_is_Some', bi_dom0. lia. }
  case_decide as Hfull.
  - rewrite (batch_process_ok s0 (accs ++ [a]) _ done (pend ++ [a]) s); [|by rewrite bi_split0, app_assoc|done|
      cbn; rewrite length_app; cbn; lia|done|done].
    eexists _, (accs ++ [a]), []. split; [done|]. constructor; cbn; try done; [by rewrite app_nil_r].
  - eexists _, done, (pend ++ [a]). split; [done|]. constructor; cbn; try done.
    + by rewrite bi_split0, app_assoc.
    + rewrite length_app. cbn. lia.
    + rewrite length_app. cbn. lia.
Qed.

Lemma batch_log_all_ok s0 accs b :
  log_inv nobj [] s0 → mono_accs accs → accs_in_range nobj accs → batch_inv s0 [] b [] [] →
  ∃ b' done pend, foldl (λ r a, s ← r; batch_log size a s) (Ok b) accs = Ok b' ∧
    batch_inv s0 accs b' done pend.
Proof.
  intros H0 Hm Hr Hb. induction accs as [|a accs IH] using rev_ind; [by exists b, [], []|].
  destruct IH as (b1 & d1 & p1 & Hrun & Hinv).
  { by eapply mono_accs_prefix. } { intros c Hc. apply Hr. set_solver. }
  rewrite foldl_snoc, Hrun. cbn.
  destruct (direct_log_all nobj (accs ++ [a]) s0) as (s & Hs & _); [done..|].
  eapply batch_log_ok; [done|apply Hr; set_solver|eauto].
Qed.

Lemma batch_inv_init s0 :
  batch_inv s0 [] (BState s0 (arr_make size (BatmemAcc 0 0)) 0) [] [].
Proof.
  constructor; try done. intros i. cbn. rewrite lookup_arr_make. by case_decide.
Qed.

(** Batching does not change the logs a thread leaves. *)
Lemma batch_record_direct accs : mono_accs accs.*1 → accs_in_range nobj accs.*1 →
  record_thread (batch_recorder size) nobj accs
  = record_thread (plain_recorder direct_log) nobj accs.
Proof.
  intros Hm Hr. unfold record_thread. cbn -[mem_init_thr mem_finish_thr].
  destruct (mem_init_thr true nobj) as [s0|] eqn:H0; [|done]. cbn -[mem_finish_thr].
  apply log_inv_init in H0. rewrite plain_log_all.
  destruct (direct_log_all nobj accs.*1 s0) as (s & Hs & _); [done..|]. rewrite Hs.
  destruct (batch_log_all_ok s0 accs.*1 _ H0 Hm Hr (batch_inv_init s0)) as (b & dn & pn & Hb & []).
  rewrite foldl_fmap in Hb.
  change (rc_log_all (batch_recorder size) accs ?x) with (foldl (λ r a, s ← r; batch_log size a.1 s) (Ok x) accs).
  rewrite Hb.
  cbn -[mem_finish_thr]. unfold mem_finish_thr, before_finish_thr.
  by rewrite (batch_process_ok s0 accs.*1 b dn pn s).
Qed.
End batch_proof.

#[global] Instance direct_recorder_ok : recorder_ok (plain_recorder direct_log).
Proof. apply plain_recorder_ok, direct_log_all. Qed.

Lemma batch_recorder_ok size : 0 < size → recorder_ok (batch_recorder size).
Proof.
  intros Hsize nobj accs Hm Hr. rewrite batch_record_direct by done. by apply rc_ok.
Qed.

Lemma batch_value_blind size : value_blind (batch_recorder size).
Proof.
  intros nobj accs accs' E. unfold record_thread. destruct (rc_init nobj) as [s|]; [|done].
  cbn [mbind outcome_bind].
  assert (∀ l, rc_log_all (batch_recorder size) l s = foldl (λ r a, s ← r; batch_log size a s) (Ok s) l.*1) as Hl.
  { intros l. by rewrite foldl_fmap. }
  by rewrite !Hl, E.
Qed.

#[global] Instance seqbatch_value_blind : value_blind seqbatch_recorder.
Proof. apply batch_value_blind. Qed.

#[global] Instance rtmcluster_value_blind : value_blind rtmcluster_recorder.
Proof. apply batch_value_blind. Qed.

#[global] Instance seqbatch_recorder_ok : recorder_ok seqbatch_recorder.
Proof. by apply batch_recorder_ok. Qed.

#[global] Instance rtmcluster_recorder_ok : recorder_ok rtmcluster_recorder.
Proof. by apply batch_recorder_ok. Qed.

(** ** Lemmas: the same logs as [mem-record-seqlock.c]

    The batching recorders also keep the version of the last write; the next
    access to the object sees a larger version either way. *)

Definition same_last (accs : list access) (o : Z) (l1 l2 : last_objinfo) : Prop :=
  lo_memop l1 = lo_memop l2 ∧
  (lo_version l1 = lo_version l2 ∨
   lo_memop l1 = -1 ∧ ∃ j b, accs !! j = Some b ∧ acc_obj b = o ∧ acc_kind b = WR ∧
     lo_version l1 ≤ acc_ver b ∧ lo_version l2 ≤ acc_ver b).

Record same_logs (accs : list access) (s1 s2 : tls) : Prop := {
  sl_memop : memop s1 = memop s2;
  sl_version : logs_wait_version s1 = logs_wait_version s2;
  sl_memops : logs_wait_memop s1 = logs_wait_memop s2;
  sl_last : ∀ o l1 l2, g_last s1 !! o = Some l1 → g_last s2 !! o = Some l2 →
    same_last accs o l1 l2 }.

Lemma same_logs_step nobj accs a s1 s2 l1 l1' l2 l2' :
  log_inv nobj accs s1 → log_inv nobj accs s2 → mono_accs (accs ++ [a]) →
  same_logs accs s1 s2 → g_last s1 !! acc_obj a = Some l1 → g_last s2 !! acc_obj a = Some l2 →
  last_update a (memop s1) l1 l1' → last_update a (memop s2) l2 l2' →
  same_logs (accs ++ [a]) (logged a l1 l1' s1) (logged a l2 l2' s2).
Proof.
  intros H1 H2 Hm [] Hl1 Hl2 Hu1 Hu2. destruct (sl_last0 _ _ _ Hl1 Hl2) as [Emop Hver].
  pose proof (step_last_mono nobj accs a s1 l1 l1' H1 Hm Hl1 Hu1).
  pose proof (step_last_le nobj accs a s1 l1 H1 Hm Hl1) as Hle1.
  pose proof (step_last_le nobj accs a s2 l2 H2 Hm Hl2) as Hle2.
  assert (lo_version l1 = lo_version l2 ∨
    lo_memop l1 = -1 ∧ lo_version l1 ≠ acc_ver a ∧ lo_version l2 ≠ acc_ver a) as Hv.
  { destruct Hver as [?|(? & j & b & Hb & Ob & Kb & ? & ?)]; [by left|right].
    destruct (step_old_access accs a Hm j b Hb Ob) as [_ H']. specialize (H' Kb). lia. }
  constructor.
  - rewrite !memop_logged. lia.
  - rewrite !version_logged, sl_version0, sl_memop0. f_equal.
    destruct Hv as [-> | (_ & ? & ?)]; [done|]. by rewrite !decide_True.
  - rewrite !memops_logged, sl_memops0, Emop. f_equal.
    destruct Hv as [-> | (Em & _)]; [done|]. rewrite <- Emop, Em. by rewrite !decide_False by lia.
  - intros o x1 x2. rewrite !g_last_logged.
    intros [[<- <-]|[Hne Hx1]]%lookup_insert_Some Hx2.
    + rewrite lookup_insert_eq in Hx2. injection Hx2 as <-.
      pose proof (step_update_cases a s1 l1 l1' Hu1). pose proof (step_update_cases a s2 l2 l2' Hu2).
      unfold last_update in Hu1, Hu2. destruct (acc_kind a) eqn:Ka.
      * subst l1' l2'. split; [done|by left].
      * split; [lia|right]. split; [lia|]. exists (length accs), a.
        split_and!; [apply lookup_snoc_new|done..|lia|lia].
    + rewrite lookup_insert_ne in Hx2 by done.
      destruct (sl_last0 _ _ _ Hx1 Hx2) as [? [?|(? & j & b & ? & ?)]]; (split; [done|]); [by left|].
      right. split; [done|]. exists j, b. auto with memorder.
Qed.

Lemma same_logs_all nobj accs s0 :
  log_inv nobj [] s0 → mono_accs accs → accs_in_range nobj accs →
  ∃ s1 s2, log_all seqlock_log accs s0 = Ok s1 ∧ log_all direct_log accs s0 = Ok s2 ∧
    log_inv nobj accs s1 ∧ log_inv nobj accs s2 ∧ same_logs accs s1 s2.
Proof.
  intros H0. induction accs as [|a accs IH] using rev_ind; intros Hm Hr.
  { exists s0, s0. split_and!; try done. constructor; try done.
    intros o l1 l2 Hl1 Hl2. rewrite Hl1 in Hl2. injection Hl2 as ->. split; [done|by left]. }
  destruct IH as (s1 & s2 & E1 & E2 & H1 & H2 & Hs).
  { by eapply mono_accs_prefix. } { intros b Hb. apply Hr. set_solver. }
  specialize (Hr a ltac:(set_solver)).
  destruct (proj2 (li_dom _ _ _ H1 (acc_obj a)) Hr) as [l1 Hl1].
  destruct (proj2 (li_dom _ _ _ H2 (acc_obj a)) Hr) as [l2 Hl2].
  destruct (seqlock_log_logged a l1 s1 Hl1) as (l1' & L1 & Hu1).
  pose proof (direct_log_logged a l2 s2 ltac:(lia) Hl2) as L2. cbn zeta in L2.
  set (l2' := LastObjinfo _ _) in L2.
  assert (last_update a (memop s2) l2 l2') as Hu2.
  { unfold last_update, l2'. destruct (acc_kind a); [done|]. split; [done|by left]. }
  exists (logged a l1 l1' s1), (logged a l2 l2' s2). rewrite !log_all_snoc, E1, E2. cbn.
  split_and!; [done..| | |]; [by eapply log_inv_step..|by eapply same_logs_step].
Qed.

(** The entries the final loop adds are the same, too. *)
Lemma same_logs_finish nobj accs s1 s2 :
  log_inv nobj accs s1 → log_inv nobj accs s2 → same_logs accs s1 s2 →
  (seqZ 0 nobj ≫= finish_entry (g_last s1)) = (seqZ 0 nobj ≫= finish_entry (g_last s2)).
Proof.
  intros H1 H2 Hs. apply Forall_bind_ext, list.Forall_forall. intros o Ho%elem_of_seqZ.
  destruct (proj2 (li_dom _ _ _ H1 o)) as [l1 Hl1]; [lia|].
  destruct (proj2 (li_dom _ _ _ H2 o)) as [l2 Hl2]; [lia|].
  unfold finish_entry. rewrite Hl1, Hl2.
  destruct (sl_last _ _ _ Hs _ _ _ Hl1 Hl2) as [Em [Ev|[E' _]]].
  - by rewrite Em, Ev.
  - rewrite !decide_False by lia. done.
Qed.

Lemma direct_same_logs nobj accs : mono_accs accs.*1 → accs_in_range nobj accs.*1 →
  ∃ s1 s2, record_thread seqlock_recorder nobj accs = Ok s1 ∧
    record_thread (plain_recorder direct_log) nobj accs = Ok s2 ∧
    logs_wait_version s1 = logs_wait_version s2 ∧ logs_wait_memop s1 = logs_wait_memop s2.
Proof.
  intros Hm Hr. unfold record_thread. cbn -[mem_finish_thr].
  match goal with |- context [Tls ?g 0 [] []] => set (s0 := Tls g 0 [] []) end.
  destruct (same_logs_all nobj accs.*1 s0) as (s1 & s2 & E1 & E2 & H1 & H2 & Hs);
    [by apply (log_inv_init true)|done..|].
  unfold seqlock_recorder. rewrite !plain_log_all, E1, E2. cbn -[mem_finish_thr].
  unfold mem_finish_thr. cbn. rewrite !finish_loop_eq;
    [|intros i Hi%elem_of_seqZ; apply (li_dom _ _ _ H2); lia
     |intros i Hi%elem_of_seqZ; apply (li_dom _ _ _ H1); lia].
  eexists _, _. split_and!; [done..| |]; cbn.
  - by rewrite (sl_version _ _ _ Hs).
  - by rewrite (sl_memops _ _ _ Hs), (same_logs_finish nobj accs.*1 s1 s2).
Qed.

(** ** Properties *)

(** C15: for every queue size, and so for both batching recorders, a thread
    leaves exactly the logs the seqlock recorder would have left: delaying log
    taking, and keeping the version of the last write, changes nothing. *)
Theorem batch_logs_equal_seqlock size nobj accs :
  0 < size → mono_accs accs.*1 → accs_in_range nobj accs.*1 →
  ∃ s1 s2, record_thread seqlock_recorder nobj accs = Ok s1 ∧
    record_thread (batch_recorder size) nobj accs = Ok s2 ∧
    logs_wait_version s1 = logs_wait_version s2 ∧ logs_wait_memop s1 = logs_wait_memop s2.
Proof. intros Hs Hm Hr. rewrite batch_record_direct by done. by apply direct_same_logs. Qed.

Lemma batch_logs_equal_seqlock_witness :
  ∃ s1 s2, record_thread seqlock_recorder 2 demo_accs = Ok s1 ∧
    record_thread (batch_recorder 4) 2 demo_accs = Ok s2 ∧
    logs_wait_version s1 = logs_wait_version s2 ∧ logs_wait_memop s1 = logs_wait_memop s2.
Proof.
  apply (batch_logs_equal_seqlock 4 2 demo_accs); [lia|exact demo_accs_mono|exact demo_accs_range].
Defined.
