(* ===== verification/SeqlockTso.v ===== *)
(** * SeqlockTso: the instructions of the recorders on x86-TSO

    Each thread has a first-in first-out store buffer; its loads see its own
    newest buffered store first, and a buffered store reaches memory at any later
    time.  [xchg] and [__sync_synchronize] wait for an empty buffer.  The compiler
    barriers of the source fix the order of the instructions, so one constructor
    of [tpc] stands for one load, store or locked instruction.

    [texec] is the seqlock of [mem-record-seqlock.c], [mem-record-seqbatch.c] and
    of the fallback paths of [mem-record-rtmseq.c] and [mem-record-rtmcluster.c];
    [ttx] is the transaction of the latter two.  How the logs are taken is the
    recorder [R]. *)
From S2P Require Import Prelude Mem Record Batch.

(** ** Memory and store buffers *)

(** Shared locations: a client's word, [g_objinfo[o].version] and
    [g_objinfo[o].write_lock]. *)
Inductive loc := LData (addr : Z) | LVer (o : Z) | LLock (o : Z).

#[global] Instance loc_eq_dec : EqDecision loc.
Proof. solve_decision. Defined.

Record tmem := TMem {
  m_data : gmap Z Z;
  m_ver : gmap Z Z;
  m_lock : gmap Z Z }.

Definition mem_get (m : tmem) (l : loc) : outcome Z :=
  match l with
  | LData a => arr_get (m_data m) a
  | LVer o => arr_get (m_ver m) o
  | LLock o => arr_get (m_lock m) o
  end.

Definition mem_put (m : tmem) (l : loc) (x : Z) : outcome tmem :=
  match l with
  | LData a => d ← arr_set (m_data m) a x; Ok (TMem d (m_ver m) (m_lock m))
  | LVer o => v ← arr_set (m_ver m) o x; Ok (TMem (m_data m) v (m_lock m))
  | LLock o => k ← arr_set (m_lock m) o x; Ok (TMem (m_data m) (m_ver m) k)
  end.

(** Oldest store first. *)
Definition buffer := list (loc * Z).

(** The newest buffered value of a location. *)
Definition buf_get (b : buffer) (l : loc) : option Z :=
  foldl (λ r e, if decide (e.1 = l) then Some e.2 else r) None b.

Definition load (m : tmem) (b : buffer) (l : loc) : outcome Z :=
  match buf_get b l with Some x => Ok x | None => mem_get m l end.

(** ** Threads *)

(** Where a thread is inside [mem_read] or [mem_write]; the local variables that
    are live are the arguments. *)
Inductive tpc :=
| TStart                    (* read: version = info->version; write: xchg of spin_lock *)
| TData (version : Z)       (* read: val = *addr *)
| TCheck (version val : Z)  (* read: version != info->version *)
| TSpin                     (* write: while ( *lock) cpu_relax() *)
| TVersion                  (* write: version = info->version *)
| TIncr (version : Z)       (* write: info->version++, the load *)
| TIncr1 (version x : Z)    (* write: info->version++, the store *)
| TStore (version : Z)      (* write: *addr = val *)
| TFence (version : Z)      (* write: __sync_synchronize() *)
| TLast (version : Z)       (* write: the second info->version++, the load *)
| TLast1 (version x : Z)    (* write: the second info->version++, the store *)
| TUnlock (version : Z).    (* write: *lock = 0, then the logs *)

#[global] Instance tpc_eq_dec : EqDecision tpc.
Proof. solve_decision. Defined.

Record tthread (R : recorder) := TThread {
  tt_prog : prog;
  tt_pc : tpc;
  tt_buf : buffer;
  tt_tls : @rc_state R }.
Arguments TThread {R} _ _ _ _.
Arguments tt_prog {R} _.
Arguments tt_pc {R} _.
Arguments tt_buf {R} _.
Arguments tt_tls {R} _.

Record tstate (R : recorder) := TState {
  t_mem : tmem;
  t_thr : gmap Z (tthread R) }.
Arguments TState {R} _ _.
Arguments t_mem {R} _.
Arguments t_thr {R} _.

(** An execution step of a thread, the oldest store of its buffer reaching
    memory, or a transaction of [n] accesses. *)
Inductive action := Exec (t : Z) | Drain (t : Z) | Tx (t : Z) (n : nat).

Section machine.
Context (R : recorder) (calc_objid : Z → Z).

(** The instruction a thread executes next, with the memory after it; a spinning
    thread, and one that waits for its buffer, stays where it is. *)
Definition texec (m : tmem) (th : tthread R) : outcome (tmem * tthread R) :=
  let b := tt_buf th in
  let goto pc := Ok (m, TThread (tt_prog th) pc b (tt_tls th)) in
  let push pc l x := Ok (m, TThread (tt_prog th) pc (b ++ [(l, x)]) (tt_tls th)) in
  match tt_prog th, tt_pc th with
  | PRet _, _ => Ok (m, th)
  | PRead addr _, TStart =>
      version ← load m b (LVer (calc_objid addr));
      if Z.odd version then goto TStart else goto (TData version)
  | PRead addr _, TData version =>
      val ← load m b (LData addr);
      goto (TCheck version val)
  | PRead addr k, TCheck version val =>
      v ← load m b (LVer (calc_objid addr));
      if decide (version ≠ v) then goto TStart
      else
        s ← rc_log (Access RD (calc_objid addr) version, val) (tt_tls th);
        Ok (m, TThread (k val) TStart b s)
  | PWrite addr _ _, TStart =>
      if decide (b = []) then
        old ← mem_get m (LLock (calc_objid addr));
        m ← mem_put m (LLock (calc_objid addr)) 1;
        Ok (m, TThread (tt_prog th) (if decide (old = 0) then TVersion else TSpin) b (tt_tls th))
      else goto TStart
  | PWrite addr _ _, TSpin =>
      l ← load m b (LLock (calc_objid addr));
      if decide (l = 0) then goto TStart else goto TSpin
  | PWrite addr _ _, TVersion =>
      version ← load m b (LVer (calc_objid addr));
      goto (TIncr version)
  | PWrite addr _ _, TIncr version =>
      x ← load m b (LVer (calc_objid addr));
      goto (TIncr1 version x)
  | PWrite addr _ _, TIncr1 version x => push (TStore version) (LVer (calc_objid addr)) (x + 1)
  | PWrite addr val _, TStore version =>
      _ ← mem_get m (LData addr);
      push (TFence version) (LData addr) val
  | PWrite _ _ _, TFence version =>
      if decide (b = []) then goto (TLast version) else goto (TFence version)
  | PWrite addr _ _, TLast version =>
      x ← load m b (LVer (calc_objid addr));
      goto (TLast1 version x)
  | PWrite addr _ _, TLast1 version x => push (TUnlock version) (LVer (calc_objid addr)) (x + 1)
  | PWrite addr val p, TUnlock version =>
      s ← rc_log (Access WR (calc_objid addr) version, val) (tt_tls th);
      Ok (m, TThread p TStart (b ++ [(LLock (calc_objid addr), 0)]) s)
  | _, _ => Err BadAccess
  end.

Definition tdrain (m : tmem) (th : tthread R) : outcome (tmem * tthread R) :=
  match tt_buf th with
  | [] => Ok (m, th)
  | (l, x) :: b =>
      m ← mem_put m l x;
      Ok (m, TThread (tt_prog th) (tt_pc th) b (tt_tls th))
  end.

(** One access inside a transaction; [None] when it calls [_xabort]: a read that
    finds an odd version, a write that finds the lock taken. *)
Definition tx_access (m : tmem) (th : tthread R) : outcome (option (tmem * tthread R)) :=
  match tt_prog th with
  | PRet _ => Ok (Some (m, th))
  | PRead addr k =>
      let o := calc_objid addr in
      version ← mem_get m (LVer o);
      if Z.odd version then Ok None
      else
        val ← mem_get m (LData addr);
        s ← rc_log (Access RD o version, val) (tt_tls th);
        Ok (Some (m, TThread (k val) TStart (tt_buf th) s))
  | PWrite addr val p =>
      let o := calc_objid addr in
      version ← mem_get m (LVer o);
      lock ← mem_get m (LLock o);
      if decide (lock ≠ 0) then Ok None
      else
        m ← mem_put m (LData addr) val;
        m ← mem_put m (LVer o) (version + 2);
        s ← rc_log (Access WR o version, val) (tt_tls th);
        Ok (Some (m, TThread p TStart (tt_buf th) s))
  end.

Fixpoint tx_accesses (n : nat) (m : tmem) (th : tthread R) : outcome (option (tmem * tthread R)) :=
  match n with
  | O => Ok (Some (m, th))
  | S n =>
      r ← tx_access m th;
      match r with Some (m, th) => tx_accesses n m th | None => Ok None end
  end.

(** A transaction takes effect at its commit, which waits for an empty buffer;
    one that aborts has no effect, and the access goes the way of [texec]. *)
Definition ttx (n : nat) (m : tmem) (th : tthread R) : outcome (tmem * tthread R) :=
  if decide (tt_pc th = TStart ∧ tt_buf th = []) then
    r ← tx_accesses n m th; Ok (default (m, th) r)
  else Ok (m, th).

Definition tstep (a : action) (c : tstate R) : outcome (tstate R) :=
  let '(t, f) := match a with
    Exec t => (t, texec) | Drain t => (t, tdrain) | Tx t n => (t, ttx n) end in
  match t_thr c !! t with
  | None => Ok c
  | Some th =>
      '(m, th) ← f (t_mem c) th;
      Ok (TState m (<[t := th]> (t_thr c)))
  end.

Definition trun (acts : list action) (c : tstate R) : outcome (tstate R) :=
  foldl (λ r a, c ← r; tstep a c) (Ok c) acts.

(** [mem_init], and [mem_init_thr] of every thread. *)
Definition tinit (nobj : Z) (mem0 : gmap Z Z) (progs : gmap Z prog) : outcome (tstate R) :=
  s ← rc_init nobj;
  Ok (TState (TMem mem0 (arr_make nobj 0) (arr_make nobj 0))
        ((λ p, TThread p TStart [] s) <$> progs)).

(** Every thread has returned and every store has reached memory. *)
Definition t_finished (c : tstate R) : Prop :=
  ∀ t th, t_thr c !! t = Some th → (∃ r, tt_prog th = PRet r) ∧ tt_buf th = [].

#[global] Instance t_finished_dec c : Decision (t_finished c).
Proof.
  refine (cast_if (decide (map_Forall
    (λ _ th, (∃ r, tt_prog th = PRet r) ∧ tt_buf th = []) (t_thr c)))); done.
Defined.
End machine.

(** ** Blocks

    [mem-record-rtmcluster.c] begins a transaction only where [g_sim_bbcnt] is a
    multiple of [RTM_BATCH_N], and ends it after as many accesses or when the thread
    finishes.  [g_sim_bbcnt] is an [int] that every access increments. *)

(** The accesses a thread has made: those whose logs are taken, and those in the
    queue. *)
Definition cluster_accesses (th : tthread rtmcluster_recorder) : Z :=
  Record.memop (b_tls (tt_tls th)) + g_batch_idx (tt_tls th).

(** [g_sim_bbcnt++] wraps around where the [int] overflows. *)
Definition g_sim_bbcnt (th : tthread rtmcluster_recorder) : Z := wrap_s 32 (cluster_accesses th).

Definition block_start (c : tstate rtmcluster_recorder) (t : Z) : bool :=
  match t_thr c !! t with
  | Some th => bool_decide (g_sim_bbcnt th `rem` RTM_BATCH_N = 0)
  | None => false
  end.

Definition cluster_step (calc_objid : Z → Z) (a : action) (c : tstate rtmcluster_recorder)
    : outcome (tstate rtmcluster_recorder) :=
  match a with
  | Tx t _ =>
      if block_start c t
      then tstep rtmcluster_recorder calc_objid (Tx t (Z.to_nat RTM_BATCH_N)) c
      else Ok c
  | _ => tstep rtmcluster_recorder calc_objid a c
  end.

Definition cluster_run (calc_objid : Z → Z) (acts : list action) (c : tstate rtmcluster_recorder)
    : outcome (tstate rtmcluster_recorder) :=
  foldl (λ r a, c ← r; cluster_step calc_objid a c) (Ok c) acts.
