(* ===== verification/History.v ===== *)
(** * History: recording as a sequence of atomic accesses

    The specification of every recorder: [mem_read] returns the value of its
    address together with the version of its object, [mem_write] replaces the
    value and advances the version by two, each in one step.  A run is a list of
    events in the order the steps were taken.  [SeqlockTso] shows that the
    instruction-level recorder of [mem-record-seqlock.c] implements it. *)
From S2P Require Import Prelude Mem Record.

Record event := Event {
  ev_tid : Z;
  ev_kind : kind;
  ev_obj : Z;
  ev_addr : Z;
  ev_val : Z;
  ev_ver : Z;
  ev_memop : Z }.

#[global] Instance event_eq_dec : EqDecision event.
Proof. solve_decision. Defined.

(** Memory, object versions, and for each thread its program and [memop]. *)
Record astate := AState {
  a_mem : gmap Z Z;
  a_ver : gmap Z Z;
  a_prog : gmap Z prog;
  a_memop : gmap Z Z }.

Section history.
Context (calc_objid : Z → Z).

(** One access of thread [t]; [None] when [t] has no access to make, or makes
    one outside the allocated memory. *)
Definition astep (t : Z) (s : astate) : option (event * astate) :=
  p ← a_prog s !! t;
  n ← a_memop s !! t;
  match p with
  | PRet _ => None
  | PRead addr k =>
      let o := calc_objid addr in
      val ← a_mem s !! addr;
      v ← a_ver s !! o;
      Some (Event t RD o addr val v n,
            AState (a_mem s) (a_ver s) (<[t := k val]> (a_prog s)) (<[t := n + 1]> (a_memop s)))
  | PWrite addr val p' =>
      let o := calc_objid addr in
      _ ← a_mem s !! addr;
      v ← a_ver s !! o;
      Some (Event t WR o addr val v n,
            AState (<[addr := val]> (a_mem s)) (<[o := v + 2]> (a_ver s))
              (<[t := p']> (a_prog s)) (<[t := n + 1]> (a_memop s)))
  end.

Context (nobj : Z) (mem0 : gmap Z Z) (progs : gmap Z prog).

Definition ainit : astate :=
  AState mem0 (arr_make nobj 0) progs ((λ _, 0) <$> progs).

Inductive history : list event → astate → Prop :=
| hist_nil : history [] ainit
| hist_snoc E s t e s' : history E s → astep t s = Some (e, s') → history (E ++ [e]) s'.

(** Running a given schedule. *)
Definition arun (ts : list Z) : option (list event * astate) :=
  foldl (λ r t, '(E, s) ← r; '(e, s') ← astep t s; Some (E ++ [e], s')) (Some ([], ainit)) ts.

(** Every thread has returned. *)
Definition a_finished (s : astate) : Prop :=
  ∀ t p, a_prog s !! t = Some p → ∃ r, p = PRet r.

#[global] Instance a_finished_dec s : Decision (a_finished s).
Proof.
  refine (cast_if (decide (map_Forall (λ _ p, ∃ r, p = PRet r) (a_prog s)))); done.
Defined.

Lemma arun_history ts E s : arun ts = Some (E, s) → history E s.
Proof.
  unfold arun. revert E s. induction ts as [|t ts IH] using rev_ind; intros E s.
  { intros [= <- <-]. constructor. }
  rewrite foldl_snoc. destruct (foldl _ _ ts) as [[E0 s0]|]; [|done]. cbn.
  destruct (astep t s0) as [[e s1]|] eqn:Hst; [|done]. intros [= <- <-].
  by econstructor; [apply IH|].
Qed.

(** ** Projections of a history *)

Definition tevents (t : Z) (E : list event) : list event := filter (λ e, ev_tid e = t) E.

Definition ev_access (e : event) : access := Access (ev_kind e) (ev_obj e) (ev_ver e).

Definition taccs (t : Z) (E : list event) : list access := ev_access <$> tevents t E.

(** The same with the values. *)
Definition ev_vaccess (e : event) : access * Z := (ev_access e, ev_val e).

Definition tvaccs (t : Z) (E : list event) : list (access * Z) := ev_vaccess <$> tevents t E.

Lemma tvaccs_fst t E : (tvaccs t E).*1 = taccs t E.
Proof. unfold tvaccs. by rewrite <- list_fmap_compose. Qed.

Definition is_write (o : Z) (e : event) : Prop := ev_kind e = WR ∧ ev_obj e = o.

#[global] Instance is_write_dec o e : Decision (is_write o e).
Proof. unfold is_write. apply _. Defined.

Definition nwrites (o : Z) (E : list event) : Z := Z.of_nat (length (filter (is_write o) E)).

(** The value of [addr] once its object has reached version [v]. *)
Definition vmem (E : list event) (v addr : Z) : option Z :=
  foldl (λ m e, if decide (ev_kind e = WR ∧ ev_addr e = addr ∧ ev_ver e < v)
                then Some (ev_val e) else m) (mem0 !! addr) E.

(** [p] makes exactly the accesses [evs], and is then [p']. *)
Inductive prog_trace : prog → list event → prog → Prop :=
| pt_nil p : prog_trace p [] p
| pt_read addr k e evs p' :
    ev_kind e = RD → ev_addr e = addr → prog_trace (k (ev_val e)) evs p' →
    prog_trace (PRead addr k) (e :: evs) p'
| pt_write addr val p e evs p' :
    ev_kind e = WR → ev_addr e = addr → ev_val e = val → prog_trace p evs p' →
    prog_trace (PWrite addr val p) (e :: evs) p'.

Lemma prog_trace_app p evs1 q evs2 r :
  prog_trace p evs1 q → prog_trace q evs2 r → prog_trace p (evs1 ++ evs2) r.
Proof. induction 1; intros; cbn; [done|constructor; auto..]. Qed.

Lemma prog_trace_ret r evs q : prog_trace (PRet r) evs q → evs = [] ∧ q = PRet r.
Proof. by inversion 1. Qed.

Lemma prog_trace_makes p evs r n : prog_trace p evs (PRet r) → makes p n → length evs = n.
Proof.
  intros Ht. remember (PRet r) as q eqn:Eq. revert n.
  induction Ht as [p|addr k e evs q _ _ _ IH|addr val p e evs q _ _ _ _ IH]; intros n Hn.
  - subst p. by destruct n.
  - destruct n as [|n]; [done|]. cbn. f_equal. by apply IH.
  - destruct n as [|n]; [done|]. cbn. f_equal. by apply IH.
Qed.

Lemma prog_trace_at_most p evs q n : prog_trace p evs q → at_most p n → (length evs ≤ n)%nat.
Proof.
  intros Ht. revert n.
  induction Ht as [p|addr k e evs q _ _ _ IH|addr val p e evs q _ _ _ _ IH]; intros [|n] Hn; cbn in *; try done; try lia.
  - specialize (IH n (Hn _)). lia.
  - specialize (IH n Hn). lia.
Qed.

(** ** One step *)

Record astep_facts (t : Z) (s : astate) (e : event) (s' : astate) : Prop := {
  af_tid : ev_tid e = t;
  af_obj : ev_obj e = calc_objid (ev_addr e);
  af_memop : a_memop s !! t = Some (ev_memop e);
  af_ver : a_ver s !! ev_obj e = Some (ev_ver e);
  af_addr : is_Some (a_mem s !! ev_addr e);
  af_prog : ∃ p p', a_prog s !! t = Some p ∧ a_prog s' = <[t := p']> (a_prog s) ∧
    prog_trace p [e] p';
  af_memop' : a_memop s' = <[t := ev_memop e + 1]> (a_memop s);
  af_read : ev_kind e = RD →
    a_mem s !! ev_addr e = Some (ev_val e) ∧ a_mem s' = a_mem s ∧ a_ver s' = a_ver s;
  af_write : ev_kind e = WR →
    a_mem s' = <[ev_addr e := ev_val e]> (a_mem s) ∧
    a_ver s' = <[ev_obj e := ev_ver e + 2]> (a_ver s) }.

Lemma astep_inv t s e s' : astep t s = Some (e, s') → astep_facts t s e s'.
Proof.
  unfold astep. destruct (a_prog s !! t) as [p|] eqn:Ep; [|done]; cbn.
  destruct (a_memop s !! t) as [n|] eqn:En; [|done]; cbn.
  destruct p as [|addr k|addr val p]; [done|..];
    (destruct (a_mem s !! addr) as [old|] eqn:Ea; [|done]); cbn;
    (destruct (a_ver s !! calc_objid addr) as [v|] eqn:Ev; [|done]); cbn;
    intros [= <- <-]; constructor; cbn; eauto; try done;
    eexists _, _; split_and!; eauto; by repeat constructor.
Qed.

(** ** Versions and counters are functions of the history *)

Lemma nwrites_snoc o E e :
  nwrites o (E ++ [e]) = nwrites o E + (if decide (is_write o e) then 1 else 0).
Proof.
  unfold nwrites. rewrite list.filter_app, filter_singleton by done.
  rewrite length_app. case_decide; cbn; lia.
Qed.

Lemma tevents_snoc t E e :
  tevents t (E ++ [e]) = tevents t E ++ (if decide (ev_tid e = t) then [e] else []).
Proof. unfold tevents. by rewrite list.filter_app, filter_singleton. Qed.

Lemma history_ver E s o : history E s → 0 ≤ o < nobj → a_ver s !! o = Some (2 * nwrites o E).
Proof.
  intros HE Ho. induction HE as [|E s t e s' HE IH Hs].
  - cbn. rewrite lookup_arr_make, decide_True by done. done.
  - apply astep_inv in Hs as []. rewrite nwrites_snoc. case_decide as Hd.
    + destruct Hd as [Ek <-]. destruct af_write0 as [_ ->]; [done|].
      rewrite lookup_insert_eq. rewrite IH in af_ver0. f_equal. injection af_ver0. lia.
    + assert (a_ver s' !! o = a_ver s !! o) as ->.
      { destruct (ev_kind e) eqn:Ek.
        - by destruct af_read0 as (_ & _ & ->).
        - destruct af_write0 as [_ ->]; [done|]. apply lookup_insert_ne.
          intros <-. by apply Hd. }
      rewrite IH. f_equal. lia.
Qed.

Lemma history_ver_dom E s o : history E s → is_Some (a_ver s !! o) → 0 ≤ o < nobj.
Proof.
  intros HE. induction HE as [|E s t e s' HE IH Hs].
  - cbn. rewrite lookup_arr_make. case_decide; [done|]. by intros [? ?].
  - apply astep_inv in Hs as []. destruct (ev_kind e) eqn:Ek.
    + destruct af_read0 as (_ & _ & ->); auto.
    + destruct af_write0 as [_ ->]; [done|]. rewrite lookup_insert_is_Some'.
      intros [Eo|?]; [|auto]. rewrite Eo in af_ver0. eauto.
Qed.

Lemma history_memop E s t p :
  history E s → progs !! t = Some p →
  a_memop s !! t = Some (Z.of_nat (length (tevents t E))).
Proof.
  intros HE Hp. induction HE as [|E s t' e s' HE IH Hs].
  - cbn. by rewrite lookup_fmap, Hp.
  - apply astep_inv in Hs as []. rewrite af_memop'0, tevents_snoc, length_app.
    case_decide as Hd.
    + subst t'. rewrite Hd, lookup_insert_eq in *. rewrite IH in af_memop0. cbn.
      f_equal. injection af_memop0. lia.
    + rewrite lookup_insert_ne by congruence. rewrite IH. f_equal. cbn. lia.
Qed.

Lemma history_prog E s t p :
  history E s → progs !! t = Some p →
  ∃ q, a_prog s !! t = Some q ∧ prog_trace p (tevents t E) q.
Proof.
  intros HE Hp. induction HE as [|E s t' e s' HE IH Hs].
  - exists p. by split; [|constructor].
  - apply astep_inv in Hs as []. destruct IH as (q & Hq & Ht), af_prog0 as (q' & r & Hq' & -> & Hs).
    rewrite tevents_snoc. case_decide as Hd.
    + exists r. subst t'. rewrite Hd, lookup_insert_eq in *. split; [done|].
      simplify_eq. by eapply prog_trace_app.
    + exists q. rewrite lookup_insert_ne by congruence. by rewrite app_nil_r.
Qed.

Lemma history_prog_dom E s t : history E s → is_Some (a_prog s !! t) ↔ is_Some (progs !! t).
Proof.
  induction 1 as [|E s t' e s' HE IH Hs]; [done|].
  apply astep_inv in Hs as []. destruct af_prog0 as (p & p' & Hp & -> & _).
  rewrite lookup_insert_is_Some', IH. split; [|tauto].
  intros [<-|?]; [|done]. apply IH. eauto.
Qed.
(** ** Order facts *)

Lemma history_event E s e : history E s → e ∈ E →
  ev_obj e = calc_objid (ev_addr e) ∧ 0 ≤ ev_obj e < nobj ∧ is_Some (progs !! ev_tid e).
Proof.
  induction 1 as [|E s t f s' HE IH Hs]; [set_solver|].
  rewrite elem_of_app, list_elem_of_singleton. intros [?| ->]; [auto|].
  apply astep_inv in Hs as []. split; [done|split].
  - eapply history_ver_dom; eauto.
  - destruct af_prog0 as (p & ? & Hp & _). subst t.
    eapply history_prog_dom; eauto.
Qed.

Lemma history_addr E s addr : history E s → is_Some (a_mem s !! addr) ↔ is_Some (mem0 !! addr).
Proof.
  induction 1 as [|E s t f s' HE IH Hs]; [done|]. apply astep_inv in Hs as [].
  destruct (ev_kind f) eqn:Ek.
  - by destruct af_read0 as (_ & -> & _).
  - destruct af_write0 as [-> _]; [done|]. rewrite lookup_insert_is_Some', <- IH.
    split; [|tauto]. by intros [<-|?].
Qed.

(** Events of an object have versions below the current one. *)
Lemma history_ver_bound E s e : history E s → e ∈ E →
  0 ≤ ev_ver e ∧ ev_ver e + (if decide (ev_kind e = WR) then 2 else 0) ≤ 2 * nwrites (ev_obj e) E
  ∧ Z.even (ev_ver e) = true.
Proof.
  induction 1 as [|E s t f s' HE IH Hs]; [set_solver|].
  rewrite elem_of_app, list_elem_of_singleton, nwrites_snoc. intros [He| ->].
  - destruct (IH He) as (? & ? & ?). repeat case_decide; split_and!; try lia; done.
  - apply astep_inv in Hs as []. rewrite (history_ver E s) in af_ver0.
    + injection af_ver0 as <-. unfold nwrites, is_write.
      repeat case_decide; rewrite ?Z.even_mul; split_and!; try lia; naive_solver.
    + done.
    + eapply history_ver_dom; eauto.
Qed.

Lemma history_last_ver E s t e s' : history E s → astep t s = Some (e, s') →
  ev_ver e = 2 * nwrites (ev_obj e) E.
Proof.
  intros HE Hs. apply astep_inv in Hs as [].
  rewrite (history_ver E s) in af_ver0; [by injection af_ver0|done|].
  eapply history_ver_dom; eauto.
Qed.

Lemma history_last_write E s o : history E s →
  nwrites o E = 0 ∨ ∃ i e, E !! i = Some e ∧ is_write o e ∧ ev_ver e = 2 * nwrites o E - 2.
Proof.
  induction 1 as [|E s t f s' HE IH Hs]; [by left|]. rewrite nwrites_snoc.
  case_decide as Hd.
  - right. exists (length E), f. split_and!; auto with memorder.
    rewrite (history_last_ver _ _ _ _ _ HE Hs). destruct Hd as [_ ->]. lia.
  - rewrite Z.add_0_r. destruct IH as [?|(i & e & ? & ? & ?)]; [by left|].
    right. exists i, e. auto with memorder.
Qed.

(** What the proofs about replay use of a recorded history. *)
Record hist_wf (E : list event) : Prop := {
  hw_event : ∀ e, e ∈ E →
    ev_obj e = calc_objid (ev_addr e) ∧ 0 ≤ ev_obj e < nobj ∧ is_Some (progs !! ev_tid e);
  hw_mono : ∀ i j e f, (i < j)%nat → E !! i = Some e → E !! j = Some f →
    ev_obj e = ev_obj f →
    ev_ver e ≤ ev_ver f ∧ (ev_kind e = WR → ev_ver e + 2 ≤ ev_ver f);
  hw_even : ∀ e, e ∈ E → 0 ≤ ev_ver e ∧ Z.even (ev_ver e) = true;
  hw_prev : ∀ j f, E !! j = Some f → ev_ver f = 0 ∨
    ∃ i e, (i < j)%nat ∧ E !! i = Some e ∧ is_write (ev_obj f) e ∧ ev_ver e = ev_ver f - 2;
  hw_memop : ∀ t k e, tevents t E !! k = Some e → ev_memop e = Z.of_nat k;
  hw_val : ∀ e, e ∈ E → ev_kind e = RD → vmem E (ev_ver e) (ev_addr e) = Some (ev_val e) }.

Lemma history_mono E s : history E s → ∀ i j e f, (i < j)%nat → E !! i = Some e →
  E !! j = Some f → ev_obj e = ev_obj f →
  ev_ver e ≤ ev_ver f ∧ (ev_kind e = WR → ev_ver e + 2 ≤ ev_ver f).
Proof.
  induction 1 as [|E s t g s' HE IH Hs]; intros i j e f Hij Hi Hj Ho; [done|].
  apply lookup_snoc_inv in Hj as [Hj|[-> ->]].
  - apply lookup_snoc_inv in Hi as [Hi|[-> ->]]; [by eapply IH|].
    apply lookup_lt_Some in Hj. lia.
  - rewrite lookup_app_l in Hi by lia. apply list_elem_of_lookup_2 in Hi.
    destruct (history_ver_bound _ _ _ HE Hi) as (? & Hb & ?).
    rewrite Ho, <- (history_last_ver _ _ _ _ _ HE Hs) in Hb.
    case_decide; split; intros; try lia; done.
Qed.

Lemma history_prev E s : history E s → ∀ j f, E !! j = Some f → ev_ver f = 0 ∨
  ∃ i e, (i < j)%nat ∧ E !! i = Some e ∧ is_write (ev_obj f) e ∧ ev_ver e = ev_ver f - 2.
Proof.
  induction 1 as [|E s t g s' HE IH Hs]; intros j f Hj; [done|].
  apply lookup_snoc_inv in Hj as [Hj|[-> ->]].
  - destruct (IH _ _ Hj) as [?|(i & e & ? & ? & ?)]; [by left|right].
    exists i, e. auto with memorder.
  - rewrite (history_last_ver _ _ _ _ _ HE Hs).
    destruct (history_last_write _ _ (ev_obj g) HE) as [->|(i & e & He & ? & ?)]; [by left|].
    right. exists i, e. apply lookup_lt_Some in He as ?. auto with memorder.
Qed.

Lemma history_events_memop E s : history E s → ∀ t k e, tevents t E !! k = Some e →
  ev_memop e = Z.of_nat k.
Proof.
  induction 1 as [|E s t' g s' HE IH Hs]; intros t k e; [done|].
  rewrite tevents_snoc. case_decide as Hd; [|rewrite app_nil_r; apply IH].
  intros Hk. apply lookup_snoc_inv in Hk as [Hk|[-> ->]]; [by eapply IH|].
  apply astep_inv in Hs as []. destruct af_prog0 as (p & _ & Hp & _).
  destruct (proj1 (history_prog_dom E s t' HE)) as [p0 Hp0]; [eauto|].
  rewrite (history_memop _ _ _ _ HE Hp0) in af_memop0. injection af_memop0.
  subst t' t. done.
Qed.

(** ** Values *)

Lemma vmem_snoc E e v addr :
  vmem (E ++ [e]) v addr =
  if decide (ev_kind e = WR ∧ ev_addr e = addr ∧ ev_ver e < v) then Some (ev_val e)
  else vmem E v addr.
Proof. unfold vmem. by rewrite foldl_app. Qed.

Lemma vmem_ext E v v' addr :
  (∀ e, e ∈ E → ev_kind e = WR → ev_addr e = addr → (ev_ver e < v ↔ ev_ver e < v')) →
  vmem E v addr = vmem E v' addr.
Proof.
  clear calc_objid. induction E as [|e E IH] using rev_ind; intros H; [done|].
  rewrite !vmem_snoc, IH by (intros; apply H; set_solver).
  assert (e ∈ E ++ [e]) as He by set_solver. specialize (H e He).
  repeat case_decide; naive_solver.
Qed.

(** An address no write below [v] touches holds its initial value. *)
Lemma vmem_initial E v addr :
  (∀ e, e ∈ E → ev_kind e = WR → ev_addr e = addr → v ≤ ev_ver e) →
  vmem E v addr = mem0 !! addr.
Proof.
  clear calc_objid. induction E as [|e E IH] using rev_ind; intros H; [done|].
  rewrite vmem_snoc, decide_False.
  - apply IH. intros f Hf. apply H. set_solver.
  - intros (Ke & Ae & Hlt). specialize (H e ltac:(set_solver) Ke Ae). lia.
Qed.

(** A write is what its address holds at the next version. *)
Lemma vmem_write E i e v :
  E !! i = Some e → ev_kind e = WR → ev_ver e < v →
  (∀ j f, (i < j)%nat → E !! j = Some f → ev_kind f = WR → ev_addr f = ev_addr e → v ≤ ev_ver f) →
  vmem E v (ev_addr e) = Some (ev_val e).
Proof.
  induction E as [|f E IH] using rev_ind; intros Hi Hk Hv Hlater; [done|].
  rewrite vmem_snoc. apply lookup_snoc_inv in Hi as [Hi|[-> ->]].
  - rewrite decide_False.
    + apply IH; try done. intros j g Hj Hg. apply (Hlater j); auto with memorder.
    + intros (Kf & Af & Hlt). apply lookup_lt_Some in Hi as Hl.
      specialize (Hlater (length E) f Hl ltac:(auto with memorder) Kf Af). lia.
  - by rewrite decide_True.
Qed.

Lemma history_mem E s addr v : history E s → a_ver s !! calc_objid addr = Some v →
  a_mem s !! addr = vmem E v addr.
Proof.
  intros HE. revert v. induction HE as [|E s t e s' HE IH Hs]; intros v Hv; [done|].
  pose proof Hs as Hs'. apply astep_inv in Hs as []. rewrite vmem_snoc.
  destruct (ev_kind e) eqn:Ek.
  { destruct af_read0 as (_ & -> & Ever); [done|]. rewrite decide_False by naive_solver.
    apply IH. by rewrite <- Ever. }
  destruct af_write0 as (-> & Ever); [done|]. rewrite Ever in Hv.
  destruct (decide (ev_addr e = addr)) as [Ea|Ea].
  - rewrite Ea, lookup_insert_eq. subst addr. rewrite <- af_obj0, lookup_insert_eq in Hv.
    rewrite decide_True; [done|]. split_and!; [done..|]. injection Hv. lia.
  - rewrite lookup_insert_ne by done. rewrite decide_False by naive_solver.
    destruct (decide (ev_obj e = calc_objid addr)) as [Eo|Eo].
    + rewrite Eo, lookup_insert_eq in Hv. injection Hv as <-.
      rewrite (IH (ev_ver e)) by congruence. apply vmem_ext.
      intros f Hf Hk Hfa. destruct (history_event _ _ _ HE Hf) as (Ho & _).
      destruct (history_ver_bound _ _ _ HE Hf) as (_ & Hb & _).
      rewrite (history_last_ver _ _ _ _ _ HE Hs'). rewrite decide_True in Hb by done.
      rewrite Ho, Hfa, <- Eo in Hb. lia.
    + rewrite lookup_insert_ne in Hv by done. by apply IH.
Qed.

Lemma history_val E s : history E s → ∀ e, e ∈ E → ev_kind e = RD →
  vmem E (ev_ver e) (ev_addr e) = Some (ev_val e).
Proof.
  intros HE. induction HE as [|E s t g s' HE IH Hs]; intros e He Hk; [set_solver|].
  rewrite vmem_snoc. apply elem_of_app in He as [He|He].
  2: apply list_elem_of_singleton in He as ->.
  - rewrite decide_False; [by apply IH|]. intros (Hg & Ea & Hlt).
    destruct (history_event _ _ _ HE He) as (Ho & _).
    assert (ev_obj g = ev_obj e) as Eo.
    { apply astep_inv in Hs as []. congruence. }
    destruct (history_ver_bound _ _ _ HE He) as (_ & Hb & _).
    rewrite decide_False in Hb by congruence.
    rewrite (history_last_ver _ _ _ _ _ HE Hs), Eo in Hlt. lia.
  - rewrite decide_False by (intros [? _]; congruence). apply astep_inv in Hs as [].
    destruct af_read0 as (<- & _); [done|]. symmetry. apply (history_mem _ s); congruence.
Qed.

Lemma history_wf E s : history E s → hist_wf E.
Proof.
  intros HE. constructor.
  - intros e. by apply (history_event E s).
  - by eapply history_mono.
  - intros e He. by destruct (history_ver_bound _ _ _ HE He) as (? & _ & ?).
  - by eapply history_prev.
  - by eapply history_events_memop.
  - by eapply history_val.
Qed.

(** Every event stays inside the memory the run started with. *)
Lemma history_event_addr E s e : history E s → e ∈ E → is_Some (mem0 !! ev_addr e).
Proof.
  induction 1 as [|E s t f s' HE IH Hs]; [set_solver|].
  intros [He|He]%elem_of_app; [auto|]. apply list_elem_of_singleton in He as ->.
  apply astep_inv in Hs as []. by apply (history_addr E s).
Qed.

(** ** The accesses of one thread *)

(** The threads' accesses are no more than the events. *)
Lemma tevents_bind (ts : list Z) E :
  length (ts ≫= λ t, tevents t E) = sum_list_with (λ t, length (tevents t E)) ts.
Proof.
  induction ts as [|t ts IH]; [done|]. cbn. by rewrite length_app, IH.
Qed.

Lemma tevents_total (ts : list Z) E : NoDup ts →
  (sum_list_with (λ t, length (tevents t E)) ts ≤ length E)%nat.
Proof.
  intros Hn. rewrite <- tevents_bind. unfold tevents.
  rewrite bind_filter_Permutation by done. apply length_filter.
Qed.

(** If [ts] are all threads, they are as many. *)
Lemma tevents_total_eq (ts : list Z) E : NoDup ts → (∀ e, e ∈ E → ev_tid e ∈ ts) →
  sum_list_with (λ t, length (tevents t E)) ts = length E.
Proof.
  intros Hn Hall. rewrite <- tevents_bind. unfold tevents.
  rewrite bind_filter_Permutation by done. by rewrite filter_all.
Qed.

Lemma taccs_lookup t E k a : taccs t E !! k = Some a ↔
  ∃ e, tevents t E !! k = Some e ∧ a = ev_access e.
Proof.
  unfold taccs. rewrite list_lookup_fmap_Some. split; intros (e & ? & ?); eauto.
Qed.

Lemma tevents_elem t E e : e ∈ tevents t E ↔ ev_tid e = t ∧ e ∈ E.
Proof. unfold tevents. by rewrite list_elem_of_filter. Qed.

Lemma taccs_mono t E : hist_wf E → mono_accs (taccs t E).
Proof.
  intros HE. split.
  - intros a (e & -> & He)%list_elem_of_fmap. apply tevents_elem in He as [_ He].
    apply (hw_even _ HE _ He).
  - intros i j a b Hij Ha Hb Ho. apply taccs_lookup in Ha as (e & Ha & ->).
    apply taccs_lookup in Hb as (f & Hb & ->). cbn in *.
    destruct (filter_lookup_lt _ _ _ _ _ _ Hij Ha Hb) as (i' & j' & Hij' & He & Hf).
    destruct (hw_mono _ HE _ _ _ _ Hij' He Hf Ho) as [? Hw].
    split; [done|]. intros Hk. specialize (Hw Hk). lia.
Qed.

Lemma taccs_range t E : hist_wf E → accs_in_range nobj (taccs t E).
Proof.
  intros HE a (e & -> & He)%list_elem_of_fmap. apply tevents_elem in He as [_ He].
  apply (hw_event _ HE _ He).
Qed.

(** An event is found in its thread's list at its [memop]. *)
Lemma tevents_at E e : hist_wf E → e ∈ E →
  0 ≤ ev_memop e ∧ tevents (ev_tid e) E !! Z.to_nat (ev_memop e) = Some e.
Proof.
  intros HE He. destruct (list_elem_of_lookup_1 (tevents (ev_tid e) E) e) as [k Hk].
  { by apply tevents_elem. }
  rewrite (hw_memop _ HE _ _ _ Hk), Nat2Z.id. split; [lia|done].
Qed.

(** Program order agrees with the order of the history. *)
Lemma tevents_order E i j e f : hist_wf E → E !! i = Some e → E !! j = Some f →
  ev_tid e = ev_tid f → (i < j)%nat → ev_memop e < ev_memop f.
Proof.
  intros HE Hi Hj Et Hij.
  destruct (lookup_filter_lt (λ x, ev_tid x = ev_tid f) E i j e f) as (i' & j' & ? & He & Hf);
    [done..|].
  rewrite (hw_memop _ HE _ _ _ He), (hw_memop _ HE _ _ _ Hf). lia.
Qed.
End history.
