(* ===== verification/SeqlockTsoProof.v ===== *)
(** * SeqlockTsoProof: the seqlock recorder implements atomic accesses

    A write takes effect at its [__sync_synchronize], a read when its second load
    of the version succeeds.  The invariant relates a state of the machine to the
    abstract state that the accesses so far, in the order of these points, lead
    to. *)
From S2P Require Import Prelude Mem Record History SeqlockTso.

Section proof.
Context (R : recorder) {HR : recorder_ok R}.
Context (calc_objid : Z → Z) (nobj : Z) (mem0 : gmap Z Z) (progs : gmap Z prog).
Context (s0 : @rc_state R) (Hs0 : rc_init nobj = Ok s0).
Local Abbreviation tthread := (tthread R).
Local Abbreviation tstate := (tstate R).
Local Abbreviation texec := (texec R).
Local Abbreviation tdrain := (tdrain R).
Local Abbreviation tstep := (tstep R).
Local Abbreviation trun := (trun R).
Local Abbreviation tinit := (tinit R).
Local Abbreviation t_finished := (t_finished R).

Definition addr_ok (a : Z) : Prop := is_Some (mem0 !! a) ∧ 0 ≤ calc_objid a < nobj.

Context (Hprogs : ∀ t p, progs !! t = Some p → prog_within addr_ok p).

(** ** The invariant *)

(** Past its fence, a write has taken effect. *)
Definition effective (pc : tpc) : option Z :=
  match pc with TLast v | TLast1 v _ | TUnlock v => Some v | _ => None end.

(** The program that is left, and the accesses not yet logged, in the abstract
    state. *)
Definition aprog (th : tthread) : prog :=
  match effective (tt_pc th), tt_prog th with
  | Some _, PWrite _ _ p => p
  | _, p => p
  end.

Definition unlogged (th : tthread) : list (access * Z) :=
  match effective (tt_pc th), tt_prog th with
  | Some v, PWrite addr val _ => [(Access WR (calc_objid addr) v, val)]
  | _, _ => []
  end.

(** Between [xchg] and the store to the lock. *)
Definition critical (pc : tpc) : bool :=
  match pc with
  | TStart | TData _ | TCheck _ _ | TSpin => false
  | _ => true
  end.

(** The thread holds the lock of [o], or its release is still buffered. *)
Definition owns (th : tthread) (o : Z) : Prop :=
  (critical (tt_pc th) = true ∧ cur_obj calc_objid (tt_prog th) = Some o) ∨
  (LLock o, 0) ∈ tt_buf th.

(** The store of the new value of [a] has reached memory ahead of the fence. *)
Definition early (th : tthread) (a : Z) : Prop :=
  tt_buf th = [] ∧ (∃ v, tt_pc th = TFence v) ∧ ∃ val p, tt_prog th = PWrite a val p.

(** Buffers outside a critical section: at most the end of the last write. *)
Definition idle_buf (mv av : Z → Z) (b : buffer) : Prop :=
  b = [] ∨
  ∃ o, (b = [(LLock o, 0)] ∧ mv o = av o) ∨
       (b = [(LVer o, av o); (LLock o, 0)] ∧ mv o = av o - 1).

(** What holds at each instruction: [mv] are the versions in memory, [av] the
    abstract ones, [data] and [am] the words in memory and the abstract ones. *)
Definition pc_shape (mv av : Z → Z) (data am : gmap Z Z) (th : tthread) : Prop :=
  let b := tt_buf th in
  match tt_prog th, tt_pc th with
  | _, TStart => idle_buf mv av b
  | PRead addr _, TData v => idle_buf mv av b ∧ Z.even v = true ∧ v ≤ av (calc_objid addr)
  | PRead addr _, TCheck v val =>
      idle_buf mv av b ∧ Z.even v = true ∧ v ≤ av (calc_objid addr) ∧
      (av (calc_objid addr) = v → mv (calc_objid addr) ≤ v → am !! addr = Some val)
  | PWrite _ _ _, TSpin => idle_buf mv av b
  | PWrite addr _ _, TVersion => b = [] ∧ mv (calc_objid addr) = av (calc_objid addr)
  | PWrite addr _ _, TIncr v =>
      b = [] ∧ mv (calc_objid addr) = av (calc_objid addr) ∧ v = av (calc_objid addr)
  | PWrite addr _ _, TIncr1 v x =>
      b = [] ∧ mv (calc_objid addr) = av (calc_objid addr) ∧ v = av (calc_objid addr) ∧ x = v
  | PWrite addr _ _, TStore v =>
      let o := calc_objid addr in
      v = av o ∧ ((b = [(LVer o, v + 1)] ∧ mv o = v) ∨ (b = [] ∧ mv o = v + 1))
  | PWrite addr val _, TFence v =>
      let o := calc_objid addr in
      v = av o ∧
      ((b = [(LVer o, v + 1); (LData addr, val)] ∧ mv o = v) ∨
       (b = [(LData addr, val)] ∧ mv o = v + 1) ∨
       (b = [] ∧ mv o = v + 1 ∧ data !! addr = Some val))
  | PWrite addr _ _, TLast v =>
      let o := calc_objid addr in b = [] ∧ mv o = v + 1 ∧ av o = v + 2
  | PWrite addr _ _, TLast1 v x =>
      let o := calc_objid addr in b = [] ∧ mv o = v + 1 ∧ av o = v + 2 ∧ x = v + 1
  | PWrite addr _ _, TUnlock v =>
      let o := calc_objid addr in
      av o = v + 2 ∧ ((b = [(LVer o, v + 2)] ∧ mv o = v + 1) ∨ (b = [] ∧ mv o = v + 2))
  | _, _ => False
  end.

Definition mvs (m : tmem) (o : Z) : Z := m_ver m !!! o.
Definition avs (s : astate) (o : Z) : Z := a_ver s !!! o.

Record thread_ok (E : list event) (s : astate) (m : tmem) (t : Z) (th : tthread) : Prop := {
  to_prog : a_prog s !! t = Some (aprog th);
  to_tls : ∃ accs, rc_log_all R accs s0 = Ok (tt_tls th) ∧
    tvaccs t E = accs ++ unlogged th;
  to_within : prog_within addr_ok (tt_prog th);
  to_shape : pc_shape (mvs m) (avs s) (m_data m) (a_mem s) th }.

Record tinv (E : list event) (s : astate) (c : tstate) : Prop := {
  ti_hist : history calc_objid nobj mem0 progs E s;
  ti_dom : ∀ t, is_Some (t_thr c !! t) ↔ is_Some (progs !! t);
  ti_data_dom : ∀ a, is_Some (m_data (t_mem c) !! a) ↔ is_Some (mem0 !! a);
  ti_ver_dom : ∀ o, is_Some (m_ver (t_mem c) !! o) ↔ 0 ≤ o < nobj;
  ti_lock_dom : ∀ o, is_Some (m_lock (t_mem c) !! o) ↔ 0 ≤ o < nobj;
  ti_data : ∀ a, m_data (t_mem c) !! a = a_mem s !! a ∨
    ∃ t th, t_thr c !! t = Some th ∧ early th a;
  ti_unique : ∀ t1 t2 th1 th2 o, t_thr c !! t1 = Some th1 → t_thr c !! t2 = Some th2 →
    owns th1 o → owns th2 o → t1 = t2;
  ti_lock : ∀ t th o, t_thr c !! t = Some th → owns th o → m_lock (t_mem c) !! o = Some 1;
  ti_free : ∀ o, 0 ≤ o < nobj → (∀ t th, t_thr c !! t = Some th → ¬ owns th o) →
    mvs (t_mem c) o = avs s o;
  ti_thr : ∀ t th, t_thr c !! t = Some th → thread_ok E s (t_mem c) t th }.

(** ** What the invariant says of versions *)

Lemma ver_even E s o : history calc_objid nobj mem0 progs E s → 0 ≤ o < nobj →
  Z.even (avs s o) = true.
Proof.
  intros HE Ho. unfold avs. rewrite (lookup_total_correct _ _ _ (history_ver _ _ _ _ _ _ _ HE Ho)).
  by rewrite Z.even_mul.
Qed.

(** Split a shape into its cases, and look into explicit buffers. *)
Ltac split_shape :=
  repeat match goal with
  | H : _ ∧ _ |- _ => destruct H
  | H : _ ∨ _ |- _ => destruct H
  | H : ∃ _, _ |- _ => destruct H
  | H : idle_buf _ _ _ |- _ => unfold idle_buf in H
  end.

Ltac look_buf :=
  repeat match goal with
  | H : _ ∈ [] |- _ => by apply not_elem_of_nil in H
  | H : _ ∈ _ :: _ |- _ => apply elem_of_cons in H as [H|H]; [simplify_eq|]
  end.

(** An owner of [o] keeps its version near the abstract one. *)
Lemma owner_ver mv av data am th o :
  pc_shape mv av data am th → owns th o → av o - 1 ≤ mv o ≤ av o + 1.
Proof.
  unfold owns, pc_shape. intros Hsh [[Hc Ho]|Hb].
  - destruct (tt_prog th), (tt_pc th); try done; cbn in Ho; injection Ho as <-;
      cbn zeta in Hsh; split_shape; lia.
  - destruct (tt_prog th), (tt_pc th); try done; cbn zeta in Hsh; split_shape;
      (match goal with E : tt_buf th = _ |- _ => rewrite E in Hb end); look_buf; lia.
Qed.

#[local] Instance owns_dec th o : Decision (owns th o).
Proof. unfold owns. apply _. Defined.

Lemma owner_or_free (c : tstate) o :
  (∃ t th, t_thr c !! t = Some th ∧ owns th o) ∨
  (∀ t th, t_thr c !! t = Some th → ¬ owns th o).
Proof.
  destruct (decide (map_Forall (λ _ th, ¬ owns th o) (t_thr c))) as [H|H]; [by right|left].
  apply map_not_Forall in H as (t & th & Hth & Ho); [|apply _].
  exists t, th. split; [done|]. by apply dec_stable.
Qed.

Lemma ver_near E s c o : tinv E s c → 0 ≤ o < nobj →
  avs s o - 1 ≤ mvs (t_mem c) o ≤ avs s o + 1.
Proof.
  intros Hc Ho. destruct (owner_or_free c o) as [(t & th & Hth & Hown)|Hfree].
  - eapply owner_ver; [|done]. apply (to_shape _ _ _ _ _ (ti_thr _ _ _ Hc _ _ Hth)).
  - rewrite (ti_free _ _ _ Hc o Ho Hfree). lia.
Qed.

(** An even version in memory is the abstract one. *)
Lemma ver_stable E s c o : tinv E s c → 0 ≤ o < nobj →
  Z.even (mvs (t_mem c) o) = true → mvs (t_mem c) o = avs s o.
Proof.
  intros Hc Ho Hev. pose proof (ver_near E s c o Hc Ho).
  pose proof (ver_even E s o (ti_hist _ _ _ Hc) Ho) as Hav.
  apply Z.even_spec in Hev as [x Hx], Hav as [y Hy]. lia.
Qed.

(** No word of an object whose version is not ahead differs from its abstract
    value. *)
Lemma data_stable E s c a : tinv E s c →
  mvs (t_mem c) (calc_objid a) ≤ avs s (calc_objid a) → m_data (t_mem c) !! a = a_mem s !! a.
Proof.
  intros Hc Hle. destruct (ti_data _ _ _ Hc a) as [?|(t & th & Hth & Hb & (v & Hpc) & val & p & Hp)];
    [done|]. pose proof (to_shape _ _ _ _ _ (ti_thr _ _ _ Hc _ _ Hth)) as Hsh.
  unfold pc_shape in Hsh. rewrite Hp, Hpc, Hb in Hsh. cbn zeta in Hsh. split_shape; try done. lia.
Qed.

(** ** Loads *)

Lemma get_ver E s c o : tinv E s c → 0 ≤ o < nobj →
  m_ver (t_mem c) !! o = Some (mvs (t_mem c) o).
Proof.
  intros Hc Ho. apply lookup_lookup_total. by apply (ti_ver_dom _ _ _ Hc).
Qed.

Lemma load_nil E s c o : tinv E s c → 0 ≤ o < nobj →
  load (t_mem c) [] (LVer o) = Ok (mvs (t_mem c) o).
Proof.
  intros Hc Ho. unfold load. cbn. by apply arr_get_lookup, (get_ver E s).
Qed.

Lemma load_idle E s c b o : tinv E s c → 0 ≤ o < nobj → idle_buf (mvs (t_mem c)) (avs s) b →
  ∃ v, load (t_mem c) b (LVer o) = Ok v ∧
    (v = mvs (t_mem c) o ∨ v = avs s o ∧ mvs (t_mem c) o = avs s o - 1).
Proof.
  intros Hc Ho Hb. pose proof (arr_get_lookup _ _ _ (get_ver E s c o Hc Ho)) as Hg.
  unfold load. destruct Hb as [->|(o' & [[-> Hm]|[-> Hm]])]; cbn.
  - eauto.
  - rewrite ?decide_False by congruence. eauto.
  - destruct (decide (LVer o' = LVer o)) as [Eo|]; cbn.
    + injection Eo as ->. rewrite ?decide_False by congruence. eauto.
    + rewrite ?decide_False by congruence. eauto.
Qed.

(** A version a thread sees twice is the abstract one, if it is even. *)
Lemma load_idle_even E s c b o v : tinv E s c → 0 ≤ o < nobj →
  idle_buf (mvs (t_mem c)) (avs s) b → load (t_mem c) b (LVer o) = Ok v → Z.even v = true →
  avs s o = v ∧ mvs (t_mem c) o ≤ v.
Proof.
  intros Hc Ho Hb Hl Hev. destruct (load_idle E s c b o Hc Ho Hb) as (v' & Hl' & Hv).
  rewrite Hl in Hl'. injection Hl' as <-. destruct Hv as [->|[-> ?]]; [|lia].
  rewrite (ver_stable E s c o Hc Ho Hev). lia.
Qed.

Lemma load_data_idle m mv av b a : idle_buf mv av b → load m b (LData a) = mem_get m (LData a).
Proof.
  unfold load. intros [->|(o & [[-> _]|[-> _]])]; cbn; [done|..]; by rewrite ?decide_False by done.
Qed.

(** ** Steps

    How a step of one thread may change what the others rely on. *)

(** Versions change only for objects the stepping thread owns; the abstract one
    never falls, and while it stays the memory's one does not become stable. *)
Definition ver_frame (own : Z → Prop) (mv av mv' av' : Z → Z) : Prop :=
  ∀ o, (mv' o = mv o ∧ av' o = av o) ∨
       (own o ∧ av o ≤ av' o ∧ (av' o = av o → mv' o ≤ av o → mv o ≤ av o)).

Lemma idle_frame own mv av mv' av' b th :
  ver_frame own mv av mv' av' → (∀ o, owns th o → ¬ own o) → tt_buf th = b →
  idle_buf mv av b → idle_buf mv' av' b.
Proof.
  intros Hf Hno Eb. intros [->|(o & Hb)]; [by left|right]. exists o.
  assert (owns th o) as Hown by (right; rewrite Eb; destruct Hb as [[-> _]|[-> _]]; set_solver).
  destruct (Hf o) as [[-> ->]|[? _]]; [done|]. by destruct (Hno o Hown).
Qed.

(** The shape of another thread survives. *)
Lemma shape_frame own mv av mv' av' data data' am am' th :
  ver_frame own mv av mv' av' → (∀ o, owns th o → ¬ own o) →
  (∀ a, av' (calc_objid a) = av (calc_objid a) → am' !! a = am !! a) →
  (∀ a, data' !! a = data !! a ∨ own (calc_objid a)) →
  pc_shape mv av data am th → pc_shape mv' av' data' am' th.
Proof.
  intros Hf Hno Ham Hdata Hsh.
  assert (idle_buf mv av (tt_buf th) → idle_buf mv' av' (tt_buf th)) as Hidle
    by by eapply idle_frame.
  assert (∀ o, critical (tt_pc th) = true → cur_obj calc_objid (tt_prog th) = Some o →
    mv' o = mv o ∧ av' o = av o ∧ ¬ own o) as Hcrit.
  { intros o Hc Ho. assert (¬ own o) as Hn by (apply Hno; by left).
    destruct (Hf o) as [[-> ->]|[? _]]; [done|]. by destruct Hn. }
  assert (∀ o, av o ≤ av' o) as Hle by (intros o; destruct (Hf o) as [[_ ->]|(_ & ? & _)]; lia).
  unfold pc_shape in *.
  destruct (tt_prog th) as [r|addr k|addr val p], (tt_pc th); try done; cbn zeta in *;
    try (by apply Hidle);
    try (destruct (Hcrit (calc_objid addr) eq_refl eq_refl) as (-> & -> & Hn)); try done.
  - destruct Hsh as (? & ? & ?). specialize (Hle (calc_objid addr)). split_and!; [auto|done|lia].
  - destruct Hsh as (? & ? & ? & Hval). specialize (Hle (calc_objid addr)).
    split_and!; [auto|done|lia|]. intros Hav Hmv. rewrite Ham by lia. apply Hval; [lia|].
    destruct (Hf (calc_objid addr)) as [[<- _]|(_ & _ & Hst)]; [done|].
    apply Z.le_trans with (av (calc_objid addr)); [apply Hst|]; lia.
  - destruct (Hdata addr) as [->|?]; done.
Qed.

(** One step of thread [t], from [th] to [th'], possibly with an access [E'] that
    takes effect; it touches the versions and words of the objects of [touch]. *)
Record step_frame (touch : Z → Prop) (E E' : list event) (s s' : astate) (m m' : tmem) (t : Z) (th th' : tthread)
    : Prop := {
  sf_hist : history calc_objid nobj mem0 progs E' s';
  sf_other : ∀ t', t' ≠ t → a_prog s' !! t' = a_prog s !! t' ∧ tvaccs t' E' = tvaccs t' E;
  sf_data_dom : ∀ a, is_Some (m_data m' !! a) ↔ is_Some (m_data m !! a);
  sf_ver_dom : ∀ o, is_Some (m_ver m' !! o) ↔ is_Some (m_ver m !! o);
  sf_lock_dom : ∀ o, is_Some (m_lock m' !! o) ↔ is_Some (m_lock m !! o);
  sf_ver : ver_frame touch (mvs m) (avs s) (mvs m') (avs s');
  sf_am : ∀ a, avs s' (calc_objid a) = avs s (calc_objid a) → a_mem s' !! a = a_mem s !! a;
  sf_data : ∀ a, m_data m' !! a = m_data m !! a ∨ touch (calc_objid a);
  sf_early : ∀ a, m_data m' !! a = a_mem s' !! a ∨ early th' a ∨
    (m_data m' !! a = m_data m !! a ∧ a_mem s' !! a = a_mem s !! a ∧ ¬ early th a);
  sf_acquire : ∀ o, owns th' o → owns th o ∨ m_lock m !! o = Some 0;
  sf_lock : ∀ o, owns th' o → m_lock m' !! o = Some 1;
  sf_lock_other : ∀ o, m_lock m !! o = Some 1 → ¬ owns th o → m_lock m' !! o = Some 1;
  sf_release : ∀ o, touch o → ¬ owns th' o → mvs m' o = avs s' o;
  sf_thr : thread_ok E' s' m' t th' }.

Lemma tinv_step touch E E' s s' c t th th' m' :
  tinv E s c → t_thr c !! t = Some th →
  (∀ o, owns th o → touch o) → (∀ o, touch o → owns th o ∨ m_lock (t_mem c) !! o = Some 0) →
  step_frame touch E E' s s' (t_mem c) m' t th th' →
  tinv E' s' (TState m' (<[t := th']> (t_thr c))).
Proof.
  intros Hc Hth Hmine Htouch [].
  assert (∀ t2 th2 o, t2 ≠ t → t_thr c !! t2 = Some th2 → owns th2 o → ¬ owns th' o ∧ ¬ owns th o)
    as Hother.
  { intros t2 th2 o Hne Hth2 Ho2.
    assert (¬ owns th o) as Hn by (intros Ho; by apply Hne, (ti_unique _ _ _ Hc t2 t th2 th o)).
    split; [|done]. intros Ho. destruct (sf_acquire0 o Ho) as [?|Hl]; [done|].
    rewrite (ti_lock _ _ _ Hc _ _ _ Hth2 Ho2) in Hl. done. }
  constructor; cbn [t_mem t_thr]; try done.
  - intros t'. rewrite lookup_insert_is_Some', (ti_dom _ _ _ Hc). split; [|tauto].
    intros [<-|?]; [|done]. apply (ti_dom _ _ _ Hc). eauto.
  - intros a. rewrite sf_data_dom0. apply (ti_data_dom _ _ _ Hc).
  - intros o. rewrite sf_ver_dom0. apply (ti_ver_dom _ _ _ Hc).
  - intros o. rewrite sf_lock_dom0. apply (ti_lock_dom _ _ _ Hc).
  - intros a. destruct (sf_early0 a) as [?|[?|(Hd & Ha & Hne)]]; [by left|..].
    + right. exists t, th'. by rewrite lookup_insert_eq.
    + rewrite Hd, Ha. destruct (ti_data _ _ _ Hc a) as [?|(t2 & th2 & Hth2 & He)]; [by left|right].
      exists t2, th2. split; [|done]. rewrite lookup_insert_ne; [done|]. intros <-.
      rewrite Hth in Hth2. injection Hth2 as <-. done.
  - intros t1 t2 th1 th2 o H1 H2 Ho1 Ho2.
    apply lookup_insert_Some in H1 as [[<- <-]|[Hne1 H1]], H2 as [[<- <-]|[Hne2 H2]]; try done.
    + by destruct (Hother t2 th2 o) as [? _].
    + by destruct (Hother t1 th1 o) as [? _].
    + by eapply (ti_unique _ _ _ Hc).
  - intros t1 th1 o H1 Ho1. apply lookup_insert_Some in H1 as [[<- <-]|[Hne1 H1]]; [auto|].
    apply sf_lock_other0; [by eapply (ti_lock _ _ _ Hc)|]. by destruct (Hother t1 th1 o) as [_ ?].
  - intros o Ho Hfree. pose proof (Hfree t th' (lookup_insert_eq _ _ _)) as Hn.
    destruct (decide (owns th o)) as [Hown|Hown]; [by apply sf_release0; [apply Hmine|]|].
    destruct (sf_ver0 o) as [[-> ->]|[? _]]; [|by apply sf_release0]. apply (ti_free _ _ _ Hc o Ho).
    intros t2 th2 Hth2 Ho2. destruct (decide (t2 = t)) as [->|Hne]; [congruence|].
    apply (Hfree t2 th2); [by rewrite lookup_insert_ne|done].
  - intros t2 th2 H2. apply lookup_insert_Some in H2 as [[<- <-]|[Hne H2]]; [done|].
    destruct (ti_thr _ _ _ Hc t2 th2 H2) as [Hp Ht Hw Hsh].
    destruct (sf_other0 t2) as [Ep Et]; [done|]. constructor; [by rewrite Ep|by rewrite Et|done|].
    eapply (shape_frame touch); [done| |done|done|done].
    intros o Ho2 [?|Hl]%Htouch; [by destruct (Hother t2 th2 o) as [_ ?]|].
    by rewrite (ti_lock _ _ _ Hc _ _ _ H2 Ho2) in Hl.
Qed.

Lemma tinv_step_owner E E' s s' c t th th' m' :
  tinv E s c → t_thr c !! t = Some th → step_frame (owns th) E E' s s' (t_mem c) m' t th th' →
  tinv E' s' (TState m' (<[t := th']> (t_thr c))).
Proof. intros Hc Hth. apply (tinv_step (owns th)); [done..|by left]. Qed.

(** ** One instruction *)

Section step.
Context (E : list event) (s : astate) (c : tstate) (t : Z) (th : tthread).
Context (Hc : tinv E s c) (Hth : t_thr c !! t = Some th).
Local Abbreviation m := (t_mem c).
Local Abbreviation Hok := (ti_thr _ _ _ Hc _ _ Hth).

(** The outcome of a step of [t], with the invariant after it. *)
Definition stepped (r : outcome (tmem * tthread)) : Prop :=
  ∃ m' th' E' s', r = Ok (m', th') ∧ tinv E' s' (TState m' (<[t := th']> (t_thr c))).

(** A step that changes neither memory nor the abstract state. *)
Lemma step_local th' :
  (∀ o, owns th' o ↔ owns th o) → (∀ a, early th a → early th' a) → thread_ok E s m t th' →
  stepped (Ok (m, th')).
Proof.
  intros Hown Hearly Hth'. exists m, th', E, s. split; [done|].
  apply (tinv_step_owner E E s s c t th th' m Hc Hth). constructor; try done.
  - apply (ti_hist _ _ _ Hc).
  - intros o. by left.
  - intros a. by left.
  - intros a. destruct (ti_data _ _ _ Hc a) as [?|(t2 & th2 & Hth2 & He)]; [by left|].
    destruct (decide (t2 = t)) as [->|Hne].
    + right; left. rewrite Hth in Hth2. injection Hth2 as <-. auto.
    + right; right. split_and!; [done..|]. intros He'.
      apply Hne, (ti_unique _ _ _ Hc t2 t th2 th (calc_objid a)); [done..| |];
        [destruct He as (_ & (v & Hpc) & val & p & Hp)|destruct He' as (_ & (v & Hpc) & val & p & Hp)];
        left; by rewrite Hpc, Hp.
  - intros o Ho. left. by apply Hown.
  - intros o Ho. apply (ti_lock _ _ _ Hc t th); [done|]. by apply Hown.
  - intros o Ho Hn. destruct Hn. by apply Hown.
Qed.

Lemma thread_ok_local th' :
  tt_prog th' = tt_prog th → tt_tls th' = tt_tls th →
  effective (tt_pc th') = effective (tt_pc th) →
  pc_shape (mvs m) (avs s) (m_data m) (a_mem s) th' → thread_ok E s m t th'.
Proof.
  intros Ep El Ee Hsh. destruct Hok as [Hp Ht Hw _].
  constructor; [|..|done]; unfold aprog, unlogged in *; rewrite ?Ep, ?Ee, ?El; done.
Qed.

(** Such a step that only moves the program counter, with the same ownership. *)
Lemma step_goto pc :
  critical pc = critical (tt_pc th) → effective pc = effective (tt_pc th) →
  (∀ v, tt_pc th = TFence v → pc = TFence v) →
  pc_shape (mvs m) (avs s) (m_data m) (a_mem s) (TThread (tt_prog th) pc (tt_buf th) (tt_tls th)) →
  stepped (Ok (m, TThread (tt_prog th) pc (tt_buf th) (tt_tls th))).
Proof.
  intros Hcr Hef Hfe Hsh. apply step_local.
  - intros o. unfold owns. cbn. by rewrite Hcr.
  - intros a (Hb & (v & Hpc) & Hp). repeat split; cbn; [done|exists v; by apply Hfe|done].
  - by apply thread_ok_local.
Qed.

(** A step that buffers a store to a location other than a lock. *)
Lemma step_push pc l x :
  critical pc = critical (tt_pc th) → effective pc = effective (tt_pc th) →
  (∀ v, tt_pc th ≠ TFence v) → (∀ o, l ≠ LLock o) →
  pc_shape (mvs m) (avs s) (m_data m) (a_mem s)
    (TThread (tt_prog th) pc (tt_buf th ++ [(l, x)]) (tt_tls th)) →
  stepped (Ok (m, TThread (tt_prog th) pc (tt_buf th ++ [(l, x)]) (tt_tls th))).
Proof.
  intros Hcr Hef Hfe Hl Hsh. apply step_local.
  - intros o. unfold owns. cbn. rewrite Hcr, elem_of_app, list_elem_of_singleton.
    specialize (Hl o). naive_solver.
  - intros a (_ & (v & Hpc) & _). by destruct (Hfe v).
  - by apply thread_ok_local.
Qed.

(** The operation a thread is in stays within the allocated memory. *)
Lemma op_addr addr : match tt_prog th with
    PRead a _ | PWrite a _ _ => addr = a | PRet _ => False end →
  0 ≤ calc_objid addr < nobj ∧ is_Some (m_data m !! addr) ∧ is_Some (m_lock m !! calc_objid addr).
Proof.
  pose proof (to_within _ _ _ _ _ Hok) as Hw. intros Ha.
  assert (addr_ok addr) as [Hm Ho] by (destruct (tt_prog th); [done|by subst; apply Hw..]).
  split_and!; [lia..| |].
  - by apply (ti_data_dom _ _ _ Hc).
  - by apply (ti_lock_dom _ _ _ Hc).
Qed.

(** *** Reading *)

Lemma exec_read_start addr k : tt_prog th = PRead addr k → tt_pc th = TStart →
  stepped (texec calc_objid m th).
Proof.
  intros Hp Hpc. destruct (op_addr addr) as (Ho & _); [by rewrite Hp|].
  pose proof (to_shape _ _ _ _ _ Hok) as Hsh. unfold pc_shape in Hsh. rewrite Hp, Hpc in Hsh.
  unfold SeqlockTso.texec. rewrite Hp, Hpc. rewrite <- Hp.
  destruct (load_idle E s c (tt_buf th) _ Hc Ho Hsh) as (v & Hl & _). rewrite Hl. cbn.
  destruct (Z.odd v) eqn:Hodd.
  - apply step_goto; rewrite ?Hpc; try done. unfold pc_shape. cbn. by rewrite Hp.
  - assert (Z.even v = true) as Hev by (rewrite <- Z.negb_odd, Hodd; done).
    destruct (load_idle_even E s c _ _ v Hc Ho Hsh Hl Hev) as [? ?].
    apply step_goto; rewrite ?Hpc; try done. unfold pc_shape. cbn. rewrite Hp.
    split_and!; [done..|lia].
Qed.

Lemma exec_read_data addr k v : tt_prog th = PRead addr k → tt_pc th = TData v →
  stepped (texec calc_objid m th).
Proof.
  intros Hp Hpc. destruct (op_addr addr) as (Ho & [val Hval] & _); [by rewrite Hp|].
  pose proof (to_shape _ _ _ _ _ Hok) as Hsh. unfold pc_shape in Hsh. rewrite Hp, Hpc in Hsh.
  destruct Hsh as (Hb & Hev & Hle). unfold SeqlockTso.texec. rewrite Hp, Hpc. rewrite <- Hp.
  rewrite (load_data_idle _ _ _ _ _ Hb). cbn. rewrite (arr_get_lookup _ _ _ Hval). cbn.
  apply step_goto; rewrite ?Hpc; try done. unfold pc_shape. cbn. rewrite Hp.
  split_and!; [done..|]. intros Hav Hmv. rewrite <- (data_stable E s c addr Hc); [done|lia].
Qed.

(** The access that takes effect is the next one of its thread. *)
Lemma effect_history e s' : astep calc_objid t s = Some (e, s') →
  history calc_objid nobj mem0 progs (E ++ [e]) s' ∧ tvaccs t (E ++ [e]) = tvaccs t E ++ [ev_vaccess e] ∧
  ∀ t', t' ≠ t → a_prog s' !! t' = a_prog s !! t' ∧ tvaccs t' (E ++ [e]) = tvaccs t' E.
Proof.
  intros Hst. destruct (astep_inv _ _ _ _ _ Hst) as [Htid _ _ _ _ Hprog _ _ _].
  split_and!; [by econstructor; [apply Hc|]|..].
  - unfold tvaccs. rewrite tevents_snoc, decide_True, fmap_app by done. done.
  - intros t' Hne. destruct Hprog as (p & p' & _ & -> & _). rewrite lookup_insert_ne by done.
    split; [done|]. unfold tvaccs. rewrite tevents_snoc, decide_False by congruence.
    by rewrite app_nil_r.
Qed.

(** Logging the accesses of a thread in an atomic history cannot fail. *)
Lemma log_next E' s' accs a l :
  history calc_objid nobj mem0 progs E' s' → tvaccs t E' = accs ++ [a] →
  rc_log_all R accs s0 = Ok l →
  ∃ l', rc_log a l = Ok l' ∧ rc_log_all R (accs ++ [a]) s0 = Ok l'.
Proof.
  intros HE' Ht Hl. pose proof (history_wf _ _ _ _ _ _ HE') as Hwf.
  destruct (rc_log_all_ok R nobj (accs ++ [a]) s0 Hs0) as (l' & Hl').
  - rewrite <- Ht, tvaccs_fst. by eapply taccs_mono.
  - rewrite <- Ht, tvaccs_fst. by eapply taccs_range.
  - exists l'. split; [|done]. rewrite rc_log_all_snoc, Hl in Hl'. done.
Qed.

Lemma thread_memop : ∃ n, a_memop s !! t = Some n.
Proof.
  destruct (proj1 (ti_dom _ _ _ Hc t)) as [p Hp]; [eauto|].
  rewrite (history_memop _ _ _ _ _ _ _ _ (ti_hist _ _ _ Hc) Hp). eauto.
Qed.

Lemma get_av o : 0 ≤ o < nobj → a_ver s !! o = Some (avs s o).
Proof.
  intros Ho. unfold avs. pose proof (history_ver _ _ _ _ _ _ _ (ti_hist _ _ _ Hc) Ho) as Hv.
  by rewrite Hv, (lookup_total_correct _ _ _ Hv).
Qed.

Lemma noncritical_pc (pc : tpc) : critical pc = false →
  effective pc = None ∧ ∀ v, pc ≠ TFence v.
Proof. by destruct pc. Qed.

(** A read takes effect: at its second load of the version, or as a transaction. *)
Lemma exec_read_effect addr k v val : tt_prog th = PRead addr k → critical (tt_pc th) = false →
  idle_buf (mvs m) (avs s) (tt_buf th) →
  avs s (calc_objid addr) = v → a_mem s !! addr = Some val →
  stepped (l ← rc_log (Access RD (calc_objid addr) v, val) (tt_tls th);
           Ok (m, TThread (k val) TStart (tt_buf th) l)).
Proof.
  intros Hp Hcr Hb Hav Ham. destruct (op_addr addr) as (Ho & _); [by rewrite Hp|].
  destruct (noncritical_pc _ Hcr) as [Hef Hnf].
  destruct Hok as [Hprog (accs & Hl & Htacc) Hw _]. destruct thread_memop as [n Hn].
  unfold aprog, unlogged in *. rewrite Hef, Hp in *. rewrite app_nil_r in Htacc.
  assert (∃ e s', astep calc_objid t s = Some (e, s') ∧ ev_vaccess e = (Access RD (calc_objid addr) v, val) ∧
    a_mem s' = a_mem s ∧ a_ver s' = a_ver s ∧ a_prog s' !! t = Some (k val)) as
    (e & s' & Hst & Hacc & Em & Ev & Ep).
  { unfold astep. rewrite Hprog, Hn. cbn. rewrite Ham, (get_av _ Ho). cbn.
    eexists _, _. split_and!; [done| |done|done|cbn; by rewrite lookup_insert_eq].
    unfold ev_vaccess, ev_access. cbn. by rewrite Hav. }
  destruct (effect_history e s' Hst) as (HE' & Ht & Hother).
  destruct (log_next (E ++ [e]) s' accs (Access RD (calc_objid addr) v, val) (tt_tls th)) as (l' & Hlog & Hlog');
    [done|by rewrite Ht, Hacc, Htacc|done|].
  rewrite Hlog. cbn.
  set (th' := TThread (k val) TStart (tt_buf th) l').
  exists m, th', (E ++ [e]), s'. split; [done|].
  assert (∀ o, owns th' o ↔ owns th o) as Hown.
  { intros o. unfold owns, th'. cbn. rewrite Hcr. naive_solver. }
  apply (tinv_step_owner E (E ++ [e]) s s' c t th th' m Hc Hth). constructor; try done.
  - intros o. left. unfold avs. by rewrite Ev.
  - intros a _. by rewrite Em.
  - intros a. by left.
  - intros a. right; right. rewrite Em. split_and!; [done..|]. intros (_ & (w & Hw') & _). by apply (Hnf w).
  - intros o Ho'. left. by apply Hown.
  - intros o Ho'. apply (ti_lock _ _ _ Hc t th); [done|]. by apply Hown.
  - intros o Ho' Hn'. destruct Hn'. by apply Hown.
  - constructor.
    + done.
    + exists (accs ++ [(Access RD (calc_objid addr) v, val)]). split; [done|].
      unfold unlogged. cbn. by rewrite Ht, Hacc, Htacc, app_nil_r.
    + cbn. by apply Hw.
    + unfold pc_shape, avs. cbn. rewrite Ev. by destruct (k val).
Qed.

Lemma exec_read_check addr k v val : tt_prog th = PRead addr k → tt_pc th = TCheck v val →
  stepped (texec calc_objid m th).
Proof.
  intros Hp Hpc. destruct (op_addr addr) as (Ho & _); [by rewrite Hp|].
  pose proof (to_shape _ _ _ _ _ Hok) as Hsh. unfold pc_shape in Hsh. rewrite Hp, Hpc in Hsh.
  destruct Hsh as (Hb & Hev & Hle & Hval). unfold SeqlockTso.texec. rewrite Hp, Hpc.
  destruct (load_idle E s c (tt_buf th) _ Hc Ho Hb) as (v' & Hl & _). rewrite Hl. cbn.
  case_decide as Hd.
  - rewrite <- Hp. apply step_goto; rewrite ?Hpc; try done. unfold pc_shape. cbn. by rewrite Hp.
  - assert (v' = v) as -> by lia.
    destruct (load_idle_even E s c _ _ v Hc Ho Hb Hl Hev) as [Hav Hmv].
    eapply exec_read_effect; eauto. by rewrite Hpc.
Qed.

(** *** Writing *)

Lemma no_buf_lock o : tt_buf th = [] → critical (tt_pc th) = false → ¬ owns th o.
Proof. intros Hb Hcr [[? _]|Hin]; [congruence|]. rewrite Hb in Hin. set_solver. Qed.

(** [xchg]: the lock is taken if it was free. *)
Lemma exec_write_start addr val p : tt_prog th = PWrite addr val p → tt_pc th = TStart →
  stepped (texec calc_objid m th).
Proof.
  intros Hp Hpc. destruct (op_addr addr) as (Ho & _ & [old Hold]); [by rewrite Hp|].
  pose proof (to_shape _ _ _ _ _ Hok) as Hsh. unfold pc_shape in Hsh. rewrite Hp, Hpc in Hsh.
  unfold SeqlockTso.texec. rewrite Hp, Hpc. rewrite <- Hp. case_decide as Hb.
  2:{ apply step_goto; rewrite ?Hpc; try done. unfold pc_shape. cbn. by rewrite Hp. }
  cbn. rewrite (arr_get_lookup _ _ _ Hold). cbn. rewrite (arr_set_lookup _ _ _ _ Hold). cbn.
  set (m' := TMem _ _ _). set (th' := TThread _ _ _ _). exists m', th', E, s. split; [done|].
  assert (∀ o, ¬ owns th o) as Hno by (intros o; apply no_buf_lock; [done|by rewrite Hpc]).
  assert (∀ o, owns th' o → o = calc_objid addr ∧ old = 0) as Hown'.
  { intros o [[Hcr Hcur]|Hin]; cbn in *; [|rewrite Hb in Hin; set_solver].
    rewrite Hp in Hcur. case_decide; [|done]. split; [|done]. by injection Hcur. }
  apply (tinv_step_owner E E s s c t th th' m' Hc Hth). constructor; try done.
  - apply (ti_hist _ _ _ Hc).
  - intros o. cbn. rewrite lookup_insert_is_Some'. split; [|by right]. intros [<-|?]; [eauto|done].
  - intros o. by left.
  - intros a. by left.
  - intros a. right; right. split_and!; [done..|]. intros (_ & (w & Hw) & _). congruence.
  - intros o [-> ->]%Hown'. by right.
  - intros o [-> _]%Hown'. cbn. by rewrite lookup_insert_eq.
  - intros o Hl _. cbn. destruct (decide (o = calc_objid addr)) as [->|];
      [by rewrite lookup_insert_eq|by rewrite lookup_insert_ne].
  - intros o Hown. by destruct (Hno o).
  - destruct Hok as [Hprog Htls Hw _].
    constructor; [..|unfold pc_shape, th'; cbn; rewrite Hp, Hb; case_decide as Hold0].
    + unfold aprog, th' in *. cbn. rewrite Hpc in Hprog. by case_decide.
    + unfold unlogged, th' in *. cbn. rewrite Hpc in Htls. by case_decide.
    + done.
    + split; [done|]. subst old. apply (ti_free _ _ _ Hc _ Ho). intros t2 th2 Hth2 Ho2.
      rewrite (ti_lock _ _ _ Hc _ _ _ Hth2 Ho2) in Hold. done.
    + by left.
Qed.

(** The loads of the write path. *)
Lemma exec_write_load addr val p : tt_prog th = PWrite addr val p →
  match tt_pc th with TSpin | TVersion | TIncr _ | TLast _ => True | _ => False end →
  stepped (texec calc_objid m th).
Proof.
  intros Hp Hpc. destruct (op_addr addr) as (Ho & _ & [lk Hlk]); [by rewrite Hp|].
  pose proof (to_shape _ _ _ _ _ Hok) as Hsh. unfold pc_shape in Hsh. rewrite Hp in Hsh.
  unfold SeqlockTso.texec. rewrite Hp. rewrite <- Hp. destruct (tt_pc th) eqn:Epc; try done; cbn zeta in Hsh.
  - assert (∃ l, load m (tt_buf th) (LLock (calc_objid addr)) = Ok l) as [l ->].
    { unfold load. destruct (buf_get _ _); [eauto|]. cbn. rewrite (arr_get_lookup _ _ _ Hlk). eauto. }
    cbn. case_decide; (apply step_goto; rewrite ?Epc; try done); unfold pc_shape; cbn; by rewrite Hp.
  - destruct Hsh as [Hb Hmv]. rewrite Hb. erewrite load_nil by done. cbn. rewrite <- Hb.
    apply step_goto; rewrite ?Epc; try done. unfold pc_shape. cbn. rewrite Hp. by rewrite Hmv.
  - destruct Hsh as (Hb & Hmv & Hv). rewrite Hb. erewrite load_nil by done. cbn. rewrite <- Hb.
    apply step_goto; rewrite ?Epc; try done. unfold pc_shape. cbn. rewrite Hp. split_and!; try done. lia.
  - destruct Hsh as (Hb & Hmv & Hv). rewrite Hb. erewrite load_nil by done. cbn. rewrite <- Hb.
    apply step_goto; rewrite ?Epc; try done. unfold pc_shape. cbn. by rewrite Hp.
Qed.

(** Its stores to the version and to the client's word. *)
Lemma exec_write_push addr val p : tt_prog th = PWrite addr val p →
  match tt_pc th with TIncr1 _ _ | TStore _ | TLast1 _ _ => True | _ => False end →
  stepped (texec calc_objid m th).
Proof.
  intros Hp Hpc. destruct (op_addr addr) as (Ho & [x Hx] & _); [by rewrite Hp|].
  pose proof (to_shape _ _ _ _ _ Hok) as Hsh. unfold pc_shape in Hsh. rewrite Hp in Hsh.
  unfold SeqlockTso.texec. rewrite Hp. rewrite <- Hp. destruct (tt_pc th) eqn:Epc; try done; cbn zeta in Hsh.
  - destruct Hsh as (Hb & Hmv & Hv & ->).
    apply step_push; rewrite ?Epc; try done. unfold pc_shape. cbn. rewrite Hp, Hb.
    split; [done|left]. split; [done|lia].
  - cbn. rewrite (arr_get_lookup _ _ _ Hx). cbn. apply step_push; rewrite ?Epc; try done.
    unfold pc_shape. cbn. rewrite Hp. destruct Hsh as [Hv [[-> Hmv]|[-> Hmv]]]; split; auto.
  - destruct Hsh as (Hb & Hmv & Hv & ->).
    apply step_push; rewrite ?Epc; try done. unfold pc_shape. cbn. rewrite Hp, Hb.
    split; [done|left]. split; [|done]. cbn. by rewrite <- Z.add_assoc.
Qed.

Lemma owns_critical th1 addr val p : tt_prog th1 = PWrite addr val p → tt_buf th1 = [] →
  critical (tt_pc th1) = true → ∀ o, owns th1 o ↔ o = calc_objid addr.
Proof.
  intros Hp Hb Hcr o. unfold owns. rewrite Hp, Hb, Hcr. cbn. split.
  - intros [[_ H]|H]; [by injection H|set_solver].
  - intros ->. by left.
Qed.

(** The atomic write of the operation a thread is in. *)
Lemma write_astep addr val p : tt_prog th = PWrite addr val p → effective (tt_pc th) = None →
  let o := calc_objid addr in
  ∃ e s', astep calc_objid t s = Some (e, s') ∧ ev_vaccess e = (Access WR o (avs s o), val) ∧
    a_mem s' = <[addr := val]> (a_mem s) ∧ a_prog s' !! t = Some p ∧
    ∀ o', avs s' o' = if decide (o' = o) then avs s o + 2 else avs s o'.
Proof.
  intros Hp Hef. destruct (op_addr addr) as (Ho & _); [by rewrite Hp|].
  destruct Hok as [Hprog _ Hw _]. destruct thread_memop as [n Hn].
  unfold aprog in Hprog. rewrite Hef, Hp in Hprog. rewrite Hp in Hw.
  unfold astep. rewrite Hprog, Hn. cbn.
  destruct (proj2 (history_addr _ _ _ _ _ _ addr (ti_hist _ _ _ Hc))) as [x ->]; [apply Hw|].
  cbn. rewrite (get_av _ Ho). cbn. eexists _, _. split_and!; [done..|cbn; by rewrite lookup_insert_eq|].
  intros o'. unfold avs. cbn. case_decide as Hd.
  - rewrite Hd. apply lookup_total_insert_eq.
  - by apply lookup_total_insert_ne.
Qed.

(** The fence, with an empty buffer: the write takes effect. *)
Lemma exec_fence addr val p v : tt_prog th = PWrite addr val p → tt_pc th = TFence v →
  stepped (texec calc_objid m th).
Proof.
  intros Hp Hpc. destruct (op_addr addr) as (Ho & _); [by rewrite Hp|].
  pose proof (to_shape _ _ _ _ _ Hok) as Hsh. unfold SeqlockTso.texec. rewrite Hp, Hpc. rewrite <- Hp.
  case_decide as Hb.
  2:{ apply step_goto; rewrite ?Hpc; try done. unfold pc_shape in *. cbn. by rewrite Hp, Hpc in *. }
  unfold pc_shape in Hsh. rewrite Hp, Hpc in Hsh. cbn zeta in Hsh.
  destruct Hsh as (Hv & [[? _]|[[? _]|(_ & Hmv & Hdata)]]); [congruence..|].
  destruct (write_astep addr val p Hp) as (e & s' & Hst & Hacc & Em & Ep & Hav); [by rewrite Hpc|].
  destruct Hok as [_ (accs & Hl & Htacc) Hw _]. unfold unlogged in Htacc. rewrite Hpc, Hp in *.
  cbn in Htacc. rewrite app_nil_r in Htacc. rewrite <- Hv in *.
  destruct (effect_history e s' Hst) as (HE' & Ht & Hother).
  set (th' := TThread _ _ _ _). exists m, th', (E ++ [e]), s'. split; [done|].
  pose proof (owns_critical th addr val p Hp Hb ltac:(by rewrite Hpc)) as Hown.
  pose proof (owns_critical th' addr val p eq_refl Hb eq_refl) as Hown'.
  apply (tinv_step_owner E (E ++ [e]) s s' c t th th' m Hc Hth). constructor; try done.
  - intros o. rewrite Hav. case_decide as Hd; [right|by left]. subst o.
    split_and!; [by apply Hown|lia..].
  - intros a Ha. rewrite Em. apply lookup_insert_ne. intros <-.
    rewrite Hav, decide_True in Ha by done. lia.
  - intros a. by left.
  - intros a. rewrite Em. destruct (decide (a = addr)) as [->|Hne].
    + left. by rewrite lookup_insert_eq.
    + right; right. rewrite lookup_insert_ne by done. split_and!; [done..|].
      intros (_ & _ & val' & p' & Hp'). rewrite Hp in Hp'. congruence.
  - intros o Ho'. left. apply Hown. by apply Hown'.
  - intros o Ho'. apply (ti_lock _ _ _ Hc t th); [done|]. apply Hown. by apply Hown'.
  - intros o Ho' Hn'. destruct Hn'. apply Hown'. by apply Hown.
  - constructor; unfold aprog, unlogged, pc_shape, th'; cbn [tt_pc tt_prog effective]; try done.
    + exists accs. split; [done|]. by rewrite Ht, Hacc, Htacc.
    + cbn zeta. rewrite Hav, decide_True by done. done.
Qed.

(** The end of a write: the release is buffered and the logs are taken. *)
Lemma exec_unlock addr val p v : tt_prog th = PWrite addr val p → tt_pc th = TUnlock v →
  stepped (texec calc_objid m th).
Proof.
  intros Hp Hpc. destruct Hok as [Hprog (accs & Hl & Htacc) Hw Hsh].
  unfold aprog, unlogged, pc_shape in *. rewrite Hpc, Hp in *. cbn in Hprog, Htacc, Hsh.
  destruct (log_next E s accs _ _ (ti_hist _ _ _ Hc) Htacc Hl) as (l' & Hlog & Hlog').
  unfold SeqlockTso.texec. rewrite Hp, Hpc, Hlog. cbn.
  assert (∀ o, (LLock o, 0) ∉ tt_buf th) as Hnl.
  { intros o Hin. destruct Hsh as [_ [[Hb _]|[Hb _]]]; rewrite Hb in Hin; look_buf. }
  apply step_local.
  - intros o. unfold owns. cbn. rewrite elem_of_app, list_elem_of_singleton, Hpc, Hp. cbn.
    specialize (Hnl o). naive_solver.
  - intros a (_ & (w & Hw') & _). congruence.
  - constructor; unfold aprog, unlogged; cbn [tt_pc tt_prog tt_tls effective].
    + done.
    + exists (accs ++ [(Access WR (calc_objid addr) v, val)]). by rewrite app_nil_r.
    + apply Hw.
    + unfold pc_shape. cbn.
      assert (idle_buf (mvs m) (avs s) (tt_buf th ++ [(LLock (calc_objid addr), 0)])); [|by destruct p].
      right. exists (calc_objid addr).
      destruct Hsh as [Hav [[-> Hmv]|[-> Hmv]]]; cbn; rewrite Hav; [right|left]; (split; [done|lia]).
Qed.

(** *** Draining the buffer *)

Section drain.
Context (l : loc) (x : Z) (b : buffer) (Hbuf : tt_buf th = (l, x) :: b).
Local Abbreviation th' := (TThread (tt_prog th) (tt_pc th) b (tt_tls th)).

Lemma drain_not_early a : ¬ early th a.
Proof. intros [Hb _]. congruence. Qed.

Lemma drain_thread_ok m' :
  pc_shape (mvs m') (avs s) (m_data m') (a_mem s) th' → thread_ok E s m' t th'.
Proof. intros Hsh. destruct Hok as [Hp Ht Hw _]. by constructor. Qed.

(** A store that is not a release keeps the ownership. *)
Lemma drain_owns o : (∀ o, l ≠ LLock o) → owns th' o ↔ owns th o.
Proof.
  intros Hl. unfold owns. cbn. rewrite Hbuf, elem_of_cons. specialize (Hl o). naive_solver.
Qed.

Lemma drain_ver o : l = LVer o → owns th o → (x ≤ avs s o → mvs m o ≤ avs s o) →
  (∀ m', (∀ o', mvs m' o' = if decide (o' = o) then x else mvs m o') → m_data m' = m_data m →
     pc_shape (mvs m') (avs s) (m_data m') (a_mem s) th') →
  stepped (tdrain m th).
Proof.
  intros El Hown Hx Hsh.
  assert (is_Some (m_ver m !! o)) as [y Hy].
  { apply (ti_ver_dom _ _ _ Hc), (ti_lock_dom _ _ _ Hc).
    rewrite (ti_lock _ _ _ Hc _ _ _ Hth Hown). eauto. }
  unfold SeqlockTso.tdrain. rewrite Hbuf, El. cbn. rewrite (arr_set_lookup _ _ _ _ Hy). cbn.
  set (m' := TMem _ _ _).
  assert (∀ o', mvs m' o' = if decide (o' = o) then x else mvs m o') as Hmv.
  { intros o'. unfold mvs, m'. cbn. case_decide as Hd.
    - rewrite Hd. apply lookup_total_insert_eq.
    - by apply lookup_total_insert_ne. }
  exists m', th', E, s. split; [done|].
  pose proof (λ o', drain_owns o' ltac:(intros ?; by rewrite El)) as Ho.
  apply (tinv_step_owner E E s s c t th th' m' Hc Hth). constructor; try done.
  - apply (ti_hist _ _ _ Hc).
  - intros o'. cbn. rewrite lookup_insert_is_Some'. split; [|by right]. intros [<-|?]; [eauto|done].
  - intros o'. rewrite Hmv. case_decide as Hd; [right; subst o'|by left]. split_and!; [done|lia|auto].
  - intros a. by left.
  - intros a. right; right. split_and!; [done..|apply drain_not_early].
  - intros o' Ho'. left. by apply Ho.
  - intros o' Ho'. apply (ti_lock _ _ _ Hc t th); [done|]. by apply Ho.
  - intros o' Ho' Hn'. destruct Hn'. by apply Ho.
  - apply drain_thread_ok. by apply Hsh.
Qed.

Lemma drain_data a val p v : l = LData a → tt_prog th = PWrite a val p → tt_pc th = TFence v →
  (∀ m', mvs m' = mvs m → m_data m' = <[a := x]> (m_data m) →
     pc_shape (mvs m') (avs s) (m_data m') (a_mem s) th') → b = [] →
  stepped (tdrain m th).
Proof.
  intros El Hp Hpc Hsh Hb. destruct (op_addr a) as (Ho & [y Hy] & _); [by rewrite Hp|].
  unfold SeqlockTso.tdrain. rewrite Hbuf, El. cbn. rewrite (arr_set_lookup _ _ _ _ Hy). cbn.
  set (m' := TMem _ _ _). exists m', th', E, s. split; [done|].
  pose proof (λ o', drain_owns o' ltac:(intros ?; by rewrite El)) as Hown.
  apply (tinv_step_owner E E s s c t th th' m' Hc Hth). constructor; try done.
  - apply (ti_hist _ _ _ Hc).
  - intros a'. cbn. rewrite lookup_insert_is_Some'. split; [|by right]. intros [<-|?]; [eauto|done].
  - intros o. by left.
  - intros a'. cbn. destruct (decide (a' = a)) as [->|]; [right|left; by apply lookup_insert_ne].
    left. by rewrite Hpc, Hp.
  - intros a'. cbn. destruct (decide (a' = a)) as [->|].
    + right; left. repeat split; cbn; [done|by exists v|by exists val, p].
    + right; right. rewrite lookup_insert_ne by done. split_and!; [done..|apply drain_not_early].
  - intros o Ho'. left. by apply Hown.
  - intros o Ho'. apply (ti_lock _ _ _ Hc t th); [done|]. by apply Hown.
  - intros o Ho' Hn'. destruct Hn'. by apply Hown.
  - apply drain_thread_ok. by apply Hsh.
Qed.

(** The release reaches memory. *)
Lemma drain_lock o : l = LLock o → x = 0 → b = [] → critical (tt_pc th) = false →
  mvs m o = avs s o →
  (∀ m', mvs m' = mvs m → m_data m' = m_data m →
     pc_shape (mvs m') (avs s) (m_data m') (a_mem s) th') →
  stepped (tdrain m th).
Proof.
  intros El Ex Hb Hcr Hmv Hsh.
  assert (owns th o) as Hown by (right; rewrite Hbuf, El, Ex; set_solver).
  pose proof (ti_lock _ _ _ Hc _ _ _ Hth Hown) as Hlk.
  unfold SeqlockTso.tdrain. rewrite Hbuf, El. cbn. rewrite (arr_set_lookup _ _ _ _ Hlk). cbn.
  set (m' := TMem _ _ _). exists m', th', E, s. split; [done|].
  assert (∀ o', ¬ owns th' o') as Hno.
  { intros o' [[? _]|Hin]; cbn in *; [congruence|]. rewrite Hb in Hin. set_solver. }
  assert (∀ o', owns th o' → o' = o) as Honly.
  { intros o' [[? _]|Hin]; [congruence|]. rewrite Hbuf, El, Hb in Hin. look_buf. done. }
  apply (tinv_step_owner E E s s c t th th' m' Hc Hth). constructor; try done.
  - apply (ti_hist _ _ _ Hc).
  - intros o'. cbn. rewrite lookup_insert_is_Some'. split; [|by right]. intros [<-|?]; [eauto|done].
  - intros o'. by left.
  - intros a. by left.
  - intros a. right; right. split_and!; [done..|apply drain_not_early].
  - intros o' Ho'. by destruct (Hno o').
  - intros o' Ho'. by destruct (Hno o').
  - intros o' Hl' Hn'. cbn. rewrite lookup_insert_ne; [done|]. intros <-. done.
  - intros o' ->%Honly _. done.
  - apply drain_thread_ok. by apply Hsh.
Qed.
End drain.

Lemma shape_idle : critical (tt_pc th) = false → idle_buf (mvs m) (avs s) (tt_buf th).
Proof.
  pose proof (to_shape _ _ _ _ _ Hok) as Hsh. unfold pc_shape in Hsh. intros Hcr.
  destruct (tt_prog th), (tt_pc th); try done; by destruct Hsh.
Qed.

(** Outside a critical section only the buffer's shape depends on the buffer. *)
Lemma shape_drained m' b : critical (tt_pc th) = false → idle_buf (mvs m') (avs s) b →
  (∀ o, mvs m' o ≤ avs s o → mvs m o ≤ avs s o) →
  pc_shape (mvs m') (avs s) (m_data m') (a_mem s)
    (TThread (tt_prog th) (tt_pc th) b (tt_tls th)).
Proof.
  pose proof (to_shape _ _ _ _ _ Hok) as Hsh. unfold pc_shape in *. intros Hcr Hb Hmv. cbn.
  destruct (tt_prog th) as [|addr k|], (tt_pc th) as [| |v y| | | | | | | | |]; try done.
  - by destruct Hsh as (_ & ? & ?).
  - destruct Hsh as (_ & ? & ? & Hval). split_and!; [done..|]. intros Hav Hle.
    apply Hval; [done|]. rewrite <- Hav. apply Hmv. lia.
Qed.

Lemma drain_idle l x b : tt_buf th = (l, x) :: b → critical (tt_pc th) = false →
  stepped (tdrain m th).
Proof.
  intros Hbuf Hcr. destruct (shape_idle Hcr) as [?|(o & [[Hb Hmv]|[Hb Hmv]])]; [congruence|..];
    rewrite Hbuf in Hb; injection Hb as -> -> ->.
  - eapply drain_lock; [done..|]. intros m' Hm _. apply shape_drained; [done|by left|].
    intros o'. by rewrite Hm.
  - eapply drain_ver; [done|done|by right; rewrite Hbuf; set_solver|lia|].
    intros m' Hm _. apply shape_drained; [done| |].
    + right. exists o. left. split; [done|]. by rewrite Hm, decide_True.
    + intros o'. rewrite Hm. case_decide as Hd; [subst o'; lia|done].
Qed.

Lemma drain_critical l x b : tt_buf th = (l, x) :: b → critical (tt_pc th) = true →
  stepped (tdrain m th).
Proof.
  intros Hbuf Hcr. pose proof (to_shape _ _ _ _ _ Hok) as Hsh. unfold pc_shape in Hsh.
  destruct (tt_prog th) as [|addr k|addr val p] eqn:Hp; [by destruct (tt_pc th)..|].
  assert (owns th (calc_objid addr)) as Hown by (left; by rewrite Hp).
  destruct (tt_pc th) as [| | | | | | |v|v| | |v] eqn:Hpc; try done; cbn zeta in Hsh;
    split_shape; try congruence;
    (match goal with H : tt_buf th = _ |- _ => rewrite Hbuf in H; injection H as -> -> -> end);
    try (eapply drain_ver; [done|done|done|lia|]; intros m' Hm _; unfold pc_shape; cbn;
         rewrite Hp, Hpc, Hm, decide_True by done).
  - split; [done|]. right. done.
  - split; [done|]. right; left. done.
  - eapply drain_data; try done. intros m' Hm Hd. unfold pc_shape. cbn. rewrite Hp, Hpc, Hm, Hd.
    split; [done|]. right; right. split_and!; [done..|]. apply lookup_insert_eq.
  - split; [done|]. right. done.
Qed.

Lemma tdrain_ok : stepped (tdrain m th).
Proof.
  destruct (tt_buf th) as [|[l x] b] eqn:Hb.
  - unfold SeqlockTso.tdrain. rewrite Hb. apply step_local; [done..|apply Hok].
  - destruct (critical (tt_pc th)) eqn:Hcr; [by eapply drain_critical|by eapply drain_idle].
Qed.

Lemma texec_ok : stepped (texec calc_objid m th).
Proof.
  pose proof (to_shape _ _ _ _ _ Hok) as Hsh. unfold pc_shape in Hsh.
  destruct (tt_prog th) as [r|addr k|addr val p] eqn:Hp.
  - unfold SeqlockTso.texec. rewrite Hp. apply step_local; [done..|apply Hok].
  - destruct (tt_pc th) eqn:Hpc; try done.
    + by eapply exec_read_start.
    + by eapply exec_read_data.
    + by eapply exec_read_check.
  - destruct (tt_pc th) eqn:Hpc; try done;
      first [by eapply exec_write_start | by eapply exec_fence | by eapply exec_unlock
            | by eapply exec_write_load; [|rewrite Hpc] | by eapply exec_write_push; [|rewrite Hpc]].
Qed.

(** *** Transactions *)

(** A transaction's next state, or an abort. *)
Definition tx_stepped (r : outcome (option (tmem * tthread))) : Prop :=
  r = Ok None ∨ ∃ m' th' E' s', r = Ok (Some (m', th')) ∧ tt_pc th' = TStart ∧ tt_buf th' = [] ∧
    tinv E' s' (TState m' (<[t := th']> (t_thr c))).

Context (Hpc : tt_pc th = TStart) (Hbuf : tt_buf th = []).

Lemma tx_no_owner o : ¬ owns th o.
Proof. apply no_buf_lock; [done|by rewrite Hpc]. Qed.

Lemma tx_read addr k : tt_prog th = PRead addr k → tx_stepped (tx_access R calc_objid m th).
Proof.
  intros Hp. destruct (op_addr addr) as (Ho & [val Hval] & _); [by rewrite Hp|].
  unfold tx_access. rewrite Hp. cbn. rewrite (arr_get_lookup _ _ _ (get_ver E s c _ Hc Ho)). cbn.
  destruct (Z.odd (mvs m (calc_objid addr))) eqn:Hodd; [by left|right].
  assert (mvs m (calc_objid addr) = avs s (calc_objid addr)) as Hmv.
  { apply (ver_stable E s c _ Hc Ho). by rewrite <- Z.negb_odd, Hodd. }
  rewrite (arr_get_lookup _ _ _ Hval). cbn.
  destruct (exec_read_effect addr k (mvs m (calc_objid addr)) val Hp) as (m' & th' & E' & s' & Hst & Hi).
  - by rewrite Hpc.
  - left. done.
  - done.
  - rewrite <- (data_stable E s c addr Hc); [done|lia].
  - destruct (rc_log _ (tt_tls th)) as [l|]; [|done]. cbn in *. injection Hst as <- <-.
    eexists _, _, E', s'. split_and!; [done..|by rewrite Hbuf in *|done].
Qed.

Section tx_write.
Context (addr val : Z) (p : prog) (Hp : tt_prog th = PWrite addr val p).
Local Abbreviation o := (calc_objid addr).
Context (Hlock : m_lock m !! o = Some 0).
Local Abbreviation m' := (TMem (<[addr := val]> (m_data m)) (<[o := mvs m o + 2]> (m_ver m)) (m_lock m)).

Lemma tx_write_ver : mvs m o = avs s o ∧
  ∀ o', mvs m' o' = if decide (o' = o) then avs s o + 2 else mvs m o'.
Proof.
  destruct (op_addr addr) as (Ho & _); [by rewrite Hp|].
  assert (mvs m o = avs s o) as Hmv.
  { apply (ti_free _ _ _ Hc _ Ho). intros t2 th2 Hth2 Ho2.
    by rewrite (ti_lock _ _ _ Hc _ _ _ Hth2 Ho2) in Hlock. }
  split; [done|]. intros o'. rewrite <- Hmv. unfold mvs. cbn. case_decide as Hd.
  - rewrite Hd. apply lookup_total_insert_eq.
  - by apply lookup_total_insert_ne.
Qed.

(** The write of a transaction takes effect. *)
Lemma tx_write_frame : ∃ l E' s', rc_log (Access WR o (mvs m o), val) (tt_tls th) = Ok l ∧
  step_frame (λ o', o' = o) E E' s s' m m' t th (TThread p TStart (tt_buf th) l).
Proof.
  destruct (op_addr addr) as (Ho & [x Hx] & _); [by rewrite Hp|].
  destruct tx_write_ver as [Hmv Hmv'].
  destruct (write_astep addr val p Hp) as (e & s' & Hst & Hacc & Em & Ep & Hav); [by rewrite Hpc|].
  destruct (effect_history e s' Hst) as (HE' & Ht & Hother).
  destruct Hok as [_ (accs & Hl & Htacc) Hw _]. unfold unlogged in Htacc. rewrite Hpc, Hp in *.
  cbn in Htacc. rewrite app_nil_r in Htacc.
  destruct (log_next (E ++ [e]) s' accs (Access WR o (mvs m o), val) (tt_tls th)) as (l & Hlog & Hlog');
    [done|by rewrite Ht, Hacc, Htacc, Hmv|done|].
  exists l, (E ++ [e]), s'. split; [done|].
  assert (∀ o', ¬ owns (TThread p TStart (tt_buf th) l) o') as Hno.
  { intros o' [[? _]|Hin]; [done|]. cbn in Hin. rewrite Hbuf in Hin. set_solver. }
  constructor; try done.
  - intros a. cbn. rewrite lookup_insert_is_Some'. split; [|by right]. intros [<-|?]; [eauto|done].
  - intros o'. cbn. rewrite lookup_insert_is_Some'. split; [|by right]. intros [<-|?]; [|done].
    rewrite (get_ver E s c o Hc Ho). eauto.
  - intros o'. rewrite Hmv', Hav. case_decide as Hd; [right; subst o'|by left]. split_and!; [done|lia|lia].
  - intros a Ha. rewrite Em. apply lookup_insert_ne. intros <-. rewrite Hav, decide_True in Ha by done. lia.
  - intros a. cbn. destruct (decide (a = addr)) as [->|]; [by right|left; by apply lookup_insert_ne].
  - intros a. cbn. rewrite Em. destruct (decide (a = addr)) as [->|].
    + left. by rewrite !lookup_insert_eq.
    + right; right. rewrite !lookup_insert_ne by done. split_and!; [done..|].
      intros (_ & (w & Hw') & _). congruence.
  - intros o' Ho'. by destruct (Hno o').
  - intros o' Ho'. by destruct (Hno o').
  - intros o' -> _. by rewrite Hmv', Hav, !decide_True.
  - constructor; unfold aprog, unlogged; cbn [tt_pc tt_prog tt_tls effective]; [done|..].
    + exists (accs ++ [(Access WR o (mvs m o), val)]). split; [done|]. by rewrite Ht, Hacc, Htacc, app_nil_r, Hmv.
    + apply Hw.
    + unfold pc_shape. cbn. rewrite Hbuf. destruct p; by left.
Qed.
End tx_write.

Lemma tx_write addr val p : tt_prog th = PWrite addr val p → tx_stepped (tx_access R calc_objid m th).
Proof.
  intros Hp. destruct (op_addr addr) as (Ho & [x Hx] & [lk Hlk]); [by rewrite Hp|].
  unfold tx_access. rewrite Hp. cbn. rewrite (arr_get_lookup _ _ _ (get_ver E s c _ Hc Ho)). cbn.
  rewrite (arr_get_lookup _ _ _ Hlk). cbn. case_decide as Hl0; [by left|right].
  assert (lk = 0) as -> by (by destruct (decide (lk = 0))).
  destruct (tx_write_frame addr val p Hp Hlk) as (l & E' & s' & Hlog & Hf).
  rewrite (arr_set_lookup _ _ _ _ Hx). cbn.
  rewrite (arr_set_lookup _ _ _ _ (get_ver E s c _ Hc Ho)). cbn. rewrite Hlog. cbn.
  eexists _, _, E', s'. split_and!; [done..|].
  eapply (tinv_step (λ o', o' = calc_objid addr)); [done..| | |done].
  - intros o Ho'. by destruct (tx_no_owner o).
  - intros o ->. by right.
Qed.

Lemma tx_access_ok : tx_stepped (tx_access R calc_objid m th).
Proof.
  destruct (tt_prog th) as [r|addr k|addr val p] eqn:Hp.
  - right. unfold tx_access. rewrite Hp. exists m, th, E, s. split_and!; [done..|].
    rewrite insert_id by done. by destruct c.
  - by eapply tx_read.
  - by eapply tx_write.
Qed.
End step.

Lemma tx_accesses_ok n E s c t th : tinv E s c → t_thr c !! t = Some th →
  tt_pc th = TStart → tt_buf th = [] → tx_stepped c t (tx_accesses R calc_objid n (t_mem c) th).
Proof.
  revert E s c th. induction n as [|n IH]; intros E s c th Hc Hth Hpc Hb; cbn.
  { right. exists (t_mem c), th, E, s. split_and!; [done..|]. rewrite insert_id by done. by destruct c. }
  destruct (tx_access_ok E s c t th Hc Hth Hpc Hb) as [->|(m1 & th1 & E1 & s1 & -> & Hpc1 & Hb1 & Hc1)];
    [by left|]. cbn.
  destruct (IH E1 s1 _ th1 Hc1) as [Hr|(m2 & th2 & E2 & s2 & Hr & ? & ? & Hc2)];
    [cbn; by rewrite lookup_insert_eq|done|done|by left|right].
  exists m2, th2, E2, s2. cbn in Hr, Hc2. rewrite insert_insert_eq in Hc2. done.
Qed.

Lemma ttx_ok n E s c t th : tinv E s c → t_thr c !! t = Some th →
  stepped c t (ttx R calc_objid n (t_mem c) th).
Proof.
  intros Hc Hth. assert (stepped c t (Ok (t_mem c, th))) as Hstay.
  { exists (t_mem c), th, E, s. split; [done|]. rewrite insert_id by done. by destruct c. }
  unfold ttx. case_decide as Hd; [|done]. destruct Hd as [Hpc Hb].
  destruct (tx_accesses_ok n E s c t th Hc Hth Hpc Hb) as [->|(m' & th' & E' & s' & -> & _ & _ & Hc')];
    [done|]. cbn. by exists m', th', E', s'.
Qed.

(** ** Runs *)

Lemma tstep_ok E s c a : tinv E s c → ∃ E' s' c', tstep calc_objid a c = Ok c' ∧ tinv E' s' c'.
Proof.
  intros Hc. unfold SeqlockTso.tstep. destruct a as [t|t|t n]; (destruct (t_thr c !! t) as [th|] eqn:Hth; [|eauto]).
  - destruct (texec_ok E s c t th Hc Hth) as (m' & th' & E' & s' & -> & Hi). cbn. eauto.
  - destruct (tdrain_ok E s c t th Hc Hth) as (m' & th' & E' & s' & -> & Hi). cbn. eauto.
  - destruct (ttx_ok n E s c t th Hc Hth) as (m' & th' & E' & s' & -> & Hi). cbn. eauto.
Qed.

Lemma trun_ok acts E s c : tinv E s c →
  ∃ E' s' c', trun calc_objid acts c = Ok c' ∧ tinv E' s' c'.
Proof.
  unfold SeqlockTso.trun. revert E s c. induction acts as [|a acts IH]; intros E s c Hc; [by exists E, s, c|].
  destruct (tstep_ok E s c a Hc) as (E1 & s1 & c1 & Hst & Hc1). cbn. rewrite Hst. by eapply IH.
Qed.

Lemma tinit_ok : ∃ c, tinit nobj mem0 progs = Ok c ∧ tinv [] (ainit nobj mem0 progs) c.
Proof.
  unfold SeqlockTso.tinit. rewrite Hs0. cbn. eexists. split; [done|].
  assert (∀ t th, ((λ p, TThread p TStart [] s0) <$> progs) !! t = Some th →
    ∃ p, progs !! t = Some p ∧ th = TThread p TStart [] s0) as Hthr.
  { intros t th. rewrite lookup_fmap. destruct (progs !! t) as [p|]; [|done].
    intros [= <-]. eauto. }
  assert (∀ t th o, ((λ p, TThread p TStart [] s0) <$> progs) !! t = Some th → ¬ owns th o) as Hno.
  { intros t th o (p & _ & ->)%Hthr [[? _]|Hin]; [done|]. cbn in Hin. set_solver. }
  assert (∀ o, is_Some (arr_make nobj 0 !! o) ↔ 0 ≤ o < nobj) as Hdom.
  { intros o. rewrite lookup_arr_make. by case_decide. }
  constructor; cbn [t_mem t_thr m_data m_ver m_lock].
  - constructor.
  - intros t. by rewrite lookup_fmap, fmap_is_Some.
  - done.
  - done.
  - done.
  - intros a. by left.
  - intros t1 t2 th1 th2 o H1 _ Ho1. by destruct (Hno t1 th1 o).
  - intros t1 th1 o H1 Ho1. by destruct (Hno t1 th1 o).
  - done.
  - intros t th (p & Hp & ->)%Hthr. constructor; cbn.
    + done.
    + by exists [].
    + by eapply Hprogs.
    + unfold pc_shape. cbn. destruct p; by left.
Qed.

(** A finished run is a recording: the events of the history are what the
    threads logged, and memory is what they left. *)
Lemma finished_history E s c : tinv E s c → t_finished c →
  a_finished s ∧ m_data (t_mem c) = a_mem s ∧
  ∀ t th, t_thr c !! t = Some th →
    a_prog s !! t = Some (tt_prog th) ∧ rc_log_all R (tvaccs t E) s0 = Ok (tt_tls th).
Proof.
  intros Hc Hf.
  assert (∀ t th, t_thr c !! t = Some th →
    a_prog s !! t = Some (tt_prog th) ∧ rc_log_all R (tvaccs t E) s0 = Ok (tt_tls th)) as Hthr.
  { intros t th Hth. destruct (Hf t th Hth) as [[r Hr] _].
    destruct (ti_thr _ _ _ Hc t th Hth) as [Hp (accs & Hl & Ht) _ _].
    unfold aprog, unlogged in *. rewrite Hr in *.
    destruct (effective (tt_pc th)); rewrite app_nil_r in Ht; split; congruence. }
  split_and!; [| |done].
  - intros t p Hp. destruct (proj2 (ti_dom _ _ _ Hc t)) as [th Hth].
    { apply (history_prog_dom _ _ _ _ _ _ _ (ti_hist _ _ _ Hc)). eauto. }
    destruct (Hthr t th Hth) as [Hp' _], (Hf t th Hth) as [[r Hr] _]. exists r. congruence.
  - apply map_eq. intros a. destruct (ti_data _ _ _ Hc a) as [?|(t & th & Hth & _ & _ & val & p & Hp)];
      [done|]. destruct (Hf t th Hth) as [[r Hr] _]. congruence.
Qed.
End proof.
