(* ===== verification/Reloc.v ===== *)
(** * Reloc: the same program at other addresses

    The program that is recorded and the one that is replayed are different
    executables, and memory they allocate is where the system puts it: the objects
    of the replay are at other addresses.  All that the logs say is in terms of
    objects and versions, so a history of one program is a history of the other,
    also if what memory holds differs, as long as it does not change which accesses
    the threads make. *)
From S2P Require Import Prelude Mem Record History.

(** [p'] is [p] with every address [a], for which [P a] holds, replaced by [f a]. *)
Inductive moved (f : Z → Z) (P : Z → Prop) : prog → prog → Prop :=
| mv_ret r : moved f P (PRet r) (PRet r)
| mv_read a k k' : P a → (∀ v, moved f P (k v) (k' v)) → moved f P (PRead a k) (PRead (f a) k')
| mv_write a val p p' : P a → moved f P p p' → moved f P (PWrite a val p) (PWrite (f a) val p').

(** Objects keep their numbers and start with the same contents. *)
Record relocation (calc_objid calc_objid' : Z → Z) (mem0 mem0' : gmap Z Z) (f : Z → Z)
    (P : Z → Prop) : Prop := {
  mv_inj : ∀ a b, P a → P b → f a = f b → a = b;
  mv_objid : ∀ a, P a → calc_objid' (f a) = calc_objid a;
  mv_mem : ∀ a, P a → mem0' !! f a = mem0 !! a }.

(** The memory of one and of the other program. *)
Definition moved_mem (f : Z → Z) (P : Z → Prop) (m m' : gmap Z Z) : Prop :=
  ∀ a, P a → m' !! f a = m !! a.

Definition moved_event (f : Z → Z) (e : event) : event :=
  Event (ev_tid e) (ev_kind e) (ev_obj e) (f (ev_addr e)) (ev_val e) (ev_ver e) (ev_memop e).

Lemma moved_within f P p p' : moved f P p p' → prog_within P p.
Proof. induction 1; cbn; auto. Qed.

Lemma moved_at_most f P p p' n : moved f P p p' → at_most p n → at_most p' n.
Proof. intros Hm. revert n. induction Hm; intros [|n]; cbn; auto. Qed.

Lemma moved_ret f P p p' : moved f P p p' → (∃ r, p = PRet r) → p' = p.
Proof. intros Hm [r ->]. by inversion Hm. Qed.

Lemma moved_ret' f P p p' : moved f P p p' → (∃ r, p' = PRet r) → p' = p.
Proof. intros Hm [r ->]. by inversion Hm. Qed.

(** A write keeps the memories related. *)
Lemma moved_mem_insert f (P : Z → Prop) m m' a v : (∀ a b, P a → P b → f a = f b → a = b) →
  moved_mem f P m m' → P a → moved_mem f P (<[a := v]> m) (<[f a := v]> m').
Proof.
  intros Hinj Hm Ha b Hb. destruct (decide (a = b)) as [<-|Hne]; [by rewrite !lookup_insert_eq|].
  rewrite !lookup_insert_ne; auto.
Qed.

(** Arrays at two addresses, with the same contents. *)
Lemma array_moved (f : Z → Z) (key : Z → Z) (v : Z → Z) (l : list Z) a :
  (∀ x y, f x = f y → x = y) →
  (list_to_map ((λ i, (f (key i), v i)) <$> l) : gmap Z Z) !! f a =
  (list_to_map ((λ i, (key i, v i)) <$> l) : gmap Z Z) !! a.
Proof.
  intros Hinj. induction l as [|i l IH]; [done|]. cbn.
  destruct (decide (key i = a)) as [<-|Hne]; [by rewrite !lookup_insert_eq|].
  rewrite !lookup_insert_ne; auto.
Qed.

(** Related programs, thread by thread. *)
Definition moved_progs (f : Z → Z) (P : Z → Prop) (ps ps' : gmap Z prog) : Prop :=
  map_relation (λ _, moved f P) (λ _ _, False) (λ _ _, False) ps ps'.

Lemma moved_progs_lookup f P ps ps' t : moved_progs f P ps ps' →
  (∃ p p', ps !! t = Some p ∧ ps' !! t = Some p' ∧ moved f P p p') ∨ ps !! t = None ∧ ps' !! t = None.
Proof. intros H. specialize (H t). destruct (ps !! t), (ps' !! t); cbn in H; naive_solver. Qed.

Lemma moved_progs_insert f P ps ps' t p p' : moved_progs f P ps ps' → moved f P p p' →
  moved_progs f P (<[t := p]> ps) (<[t := p']> ps').
Proof.
  intros H Hp u. destruct (decide (t = u)) as [<-|Hne]; [by rewrite !lookup_insert_eq|].
  rewrite !lookup_insert_ne by done. apply H.
Qed.

Lemma moved_progs_seq f P (ps ps' : list prog) : Forall2 (moved f P) ps ps' →
  moved_progs f P (map_seqZ 0 ps) (map_seqZ 0 ps').
Proof.
  intros HF t. rewrite !lookup_map_seqZ. case_guard; cbn; [|done].
  destruct (ps !! Z.to_nat (t - 0)) as [p|] eqn:Hp.
  - destruct (Forall2_lookup_l _ _ _ _ _ HF Hp) as (p' & -> & ?). done.
  - destruct (ps' !! Z.to_nat (t - 0)) as [p'|] eqn:Hp'; [|done].
    destruct (Forall2_lookup_r _ _ _ _ _ HF Hp') as (p & ? & ?). congruence.
Qed.

(** ** Other contents, too

    Memory that the program did not initialize holds something else in another
    executable.  [W a v v'] relates what one program finds and leaves at [a] to what
    the other finds and leaves at [f a]. *)

Inductive related (f : Z → Z) (P : Z → Prop) (W : Z → Z → Z → Prop) : prog → prog → Prop :=
| re_ret r : related f P W (PRet r) (PRet r)
| re_read a k k' : P a → (∀ v v', W a v v' → related f P W (k v) (k' v')) →
    related f P W (PRead a k) (PRead (f a) k')
| re_write a v v' p p' : P a → W a v v' → related f P W p p' →
    related f P W (PWrite a v p) (PWrite (f a) v' p').

Definition related_mem (f : Z → Z) (P : Z → Prop) (W : Z → Z → Z → Prop) (m m' : gmap Z Z) : Prop :=
  ∀ a, P a → ∃ v v', m !! a = Some v ∧ m' !! f a = Some v' ∧ W a v v'.

Definition related_progs (f : Z → Z) (P : Z → Prop) (W : Z → Z → Z → Prop) (ps ps' : gmap Z prog) : Prop :=
  map_relation (λ _, related f P W) (λ _ _, False) (λ _ _, False) ps ps'.

Definition related_event (f : Z → Z) (W : Z → Z → Z → Prop) (e e' : event) : Prop :=
  ∃ v', e' = Event (ev_tid e) (ev_kind e) (ev_obj e) (f (ev_addr e)) v' (ev_ver e) (ev_memop e) ∧
    W (ev_addr e) (ev_val e) v'.

(** The same contents. *)
Definition same_val (a v v' : Z) : Prop := v' = v.

Lemma moved_related f P p p' : moved f P p p' → related f P same_val p p'.
Proof. induction 1 as [|a k k' Ha _ IH|]; constructor; auto; try done. intros v v' ->. apply IH. Qed.

Lemma related_moved_mem f P m m' : related_mem f P same_val m m' → moved_mem f P m m'.
Proof. intros H a Ha. destruct (H a Ha) as (v & v' & -> & -> & ->). done. Qed.

Lemma moved_related_mem f (P : Z → Prop) m m' : (∀ a, P a → is_Some (m !! a)) →
  moved_mem f P m m' → related_mem f P same_val m m'.
Proof. intros HP H a Ha. destruct (HP a Ha) as [v Hv]. exists v, v. by rewrite (H a Ha). Qed.

Lemma related_mem_insert f (P : Z → Prop) W m m' a v v' : (∀ a b, P a → P b → f a = f b → a = b) →
  related_mem f P W m m' → P a → W a v v' → related_mem f P W (<[a := v]> m) (<[f a := v']> m').
Proof.
  intros Hinj Hm Ha Hv b Hb. destruct (decide (a = b)) as [<-|Hne].
  - rewrite !lookup_insert_eq. eauto.
  - rewrite !lookup_insert_ne; auto.
Qed.

Lemma related_progs_lookup f P W ps ps' t : related_progs f P W ps ps' →
  (∃ p p', ps !! t = Some p ∧ ps' !! t = Some p' ∧ related f P W p p') ∨ ps !! t = None ∧ ps' !! t = None.
Proof. intros H. specialize (H t). destruct (ps !! t), (ps' !! t); cbn in H; naive_solver. Qed.

Lemma related_progs_insert f P W ps ps' t p p' : related_progs f P W ps ps' → related f P W p p' →
  related_progs f P W (<[t := p]> ps) (<[t := p']> ps').
Proof.
  intros H Hp u. destruct (decide (t = u)) as [<-|Hne]; [by rewrite !lookup_insert_eq|].
  rewrite !lookup_insert_ne by done. apply H.
Qed.

Lemma related_progs_seq f P W (ps ps' : list prog) : Forall2 (related f P W) ps ps' →
  related_progs f P W (map_seqZ 0 ps) (map_seqZ 0 ps').
Proof.
  intros HF t. rewrite !lookup_map_seqZ. case_guard; cbn; [|done].
  destruct (ps !! Z.to_nat (t - 0)) as [p|] eqn:Hp.
  - destruct (Forall2_lookup_l _ _ _ _ _ HF Hp) as (p' & -> & ?). done.
  - destruct (ps' !! Z.to_nat (t - 0)) as [p'|] eqn:Hp'; [|done].
    destruct (Forall2_lookup_r _ _ _ _ _ HF Hp') as (p & ? & ?). congruence.
Qed.

Section history.
Context (calc_objid calc_objid' : Z → Z) (nobj : Z) (mem0 mem0' : gmap Z Z) (progs progs' : gmap Z prog).
Context (f : Z → Z) (P : Z → Prop) (W : Z → Z → Z → Prop).
Context (Hinj : ∀ a b, P a → P b → f a = f b → a = b).
Context (Hobjid : ∀ a, P a → calc_objid' (f a) = calc_objid a).
Context (Hmem : related_mem f P W mem0 mem0') (Hprogs : related_progs f P W progs progs').

Record related_state (s s' : astate) : Prop := {
  ms_mem : related_mem f P W (a_mem s) (a_mem s');
  ms_ver : a_ver s' = a_ver s;
  ms_memop : a_memop s' = a_memop s;
  ms_prog : related_progs f P W (a_prog s) (a_prog s') }.

Lemma astep_related t s e s1 s' : related_state s s' → astep calc_objid t s = Some (e, s1) →
  ∃ e' s1', astep calc_objid' t s' = Some (e', s1') ∧ related_event f W e e' ∧ related_state s1 s1'.
Proof using Hinj Hobjid.
  intros [Hm Hv Hn Hp]. unfold astep. rewrite Hv, Hn.
  destruct (related_progs_lookup _ _ _ _ _ t Hp) as [(p & p' & Hpt & -> & Hmv)|[-> _]]; [|done].
  rewrite Hpt. cbn. destruct (a_memop s !! t) as [n|]; [|done]. cbn.
  destruct Hmv as [r|a k k' Ha Hk|a v v' p p' Ha Hw Hk]; [done|..];
    destruct (Hm a Ha) as (x & x' & -> & -> & Hx); rewrite (Hobjid a Ha); cbn;
    (destruct (a_ver s !! calc_objid a) as [y|]; [|done]); cbn;
    intros [= <- <-]; (eexists _, _; split_and!; [done|eexists; by split|]); constructor; cbn; try done.
  - apply related_progs_insert; auto.
  - by apply related_mem_insert.
  - by apply related_progs_insert.
Qed.

Lemma history_related E s : history calc_objid nobj mem0 progs E s →
  ∃ E' s', history calc_objid' nobj mem0' progs' E' s' ∧ Forall2 (related_event f W) E E' ∧ related_state s s'.
Proof using Hinj Hobjid Hmem Hprogs.
  induction 1 as [|E s t e s1 _ (E' & s' & HE' & HF & Hs') Hst].
  - eexists [], _. split_and!; [constructor|done|]. constructor; cbn; [done|done| |done].
    apply map_eq. intros t. rewrite !lookup_fmap.
    by destruct (related_progs_lookup _ _ _ _ _ t Hprogs) as [(p & p' & -> & -> & _)|[-> ->]].
  - destruct (astep_related t s e s1 s' Hs' Hst) as (e' & s1' & Hst' & He & Hs1). exists (E' ++ [e']), s1'.
    split_and!; [by econstructor|by apply Forall2_app; [|constructor]|done].
Qed.

(** The accesses of a thread are the same, with other values. *)
Lemma tvaccs_related t E E' : Forall2 (related_event f W) E E' →
  Forall2 (λ x y, y.1 = x.1 ∧ ∃ a, W a x.2 y.2) (tvaccs t E) (tvaccs t E').
Proof using Type.
  unfold tvaccs, tevents. induction 1 as [|e e' E E' (v' & -> & Hv) _ IH]; [constructor|].
  rewrite !filter_cons. cbn [ev_tid]. case_decide; [|done]. rewrite !fmap_cons. constructor; [|done].
  split; [done|by eexists].
Qed.

Lemma finished_related s s' : related_state s s' → a_finished s → a_finished s' ∧ a_prog s' = a_prog s.
Proof using Type.
  intros Hs Hf. assert (a_prog s' = a_prog s) as E.
  { apply map_eq. intros t.
    destruct (related_progs_lookup _ _ _ _ _ t (ms_prog _ _ Hs)) as [(p & p' & Hp & -> & Hm)|[-> ->]]; [|done].
    rewrite Hp. f_equal. destruct (Hf t p Hp) as [r ->]. by inversion Hm. }
  split; [|done]. intros t p. rewrite E. apply Hf.
Qed.
End history.

(** With the same contents the events are the same but for the addresses. *)
Lemma related_event_same f E E' : Forall2 (related_event f same_val) E E' → E' = moved_event f <$> E.
Proof.
  induction 1 as [|e e' E E' (v' & -> & ->) _ IH]; [done|]. rewrite fmap_cons. by f_equal.
Qed.
