(* ===== verification/Reorder.v ===== *)
(** * Reorder: [reorder-memop.cpp], which groups a thread's memop log by object *)
From S2P Require Import Prelude Mem.

(** ** The program *)

(** The loop of [load_wait_memop_log]: read records up to the one with object id
    -1, dropping those without a [memop]; a mapping that ends before it is a bad
    access. *)
Fixpoint load_wait_memop_loop (g_nobj : Z) (log : list wait_memop)
    (all : gmap Z (list wait_memop)) (total : Z)
    : outcome (gmap Z (list wait_memop) * Z) :=
  match log with
  | [] => Err BadAccess
  | w :: log =>
      if decide (wm_objid w = -1) then Ok (all, total)
      else if decide (wm_memop w = -1) then load_wait_memop_loop g_nobj log all total
      else if decide (wm_objid w < 0 ∨ g_nobj ≤ wm_objid w) then Err AssertFail
      else
        l ← arr_get all (wm_objid w);
        load_wait_memop_loop g_nobj log (<[wm_objid w := l ++ [w]]> all) (total + 1)
  end.

Definition load_wait_memop_log (g_nobj : Z) (log : list wait_memop)
    (all : gmap Z (list wait_memop)) : outcome (gmap Z (list wait_memop) * Z) :=
  load_wait_memop_loop g_nobj log all 0.

(** [write_out_memop_log]: the vectors are copied one after the other into a new
    file of [total] records, whose unwritten part stays zero. *)
Definition write_out_memop_log (g_nobj : Z) (all : gmap Z (list wait_memop)) (total : Z)
    : outcome (list wait_memop) :=
  let out := seqZ 0 g_nobj ≫= λ i, default [] (all !! i) in
  if decide (Z.of_nat (length out) ≤ total) then
    Ok (out ++ replicate (Z.to_nat total - length out) (WaitMemop 0 0 0))
  else Err BadAccess.

(** [main]: no file is written when there is nothing to write. *)
Definition reorder_main (g_nobj : Z) (log : list wait_memop) : outcome (option (list wait_memop)) :=
  '(all, total) ← load_wait_memop_log g_nobj log (arr_make g_nobj []);
  if decide (total ≠ 0) then
    out ← write_out_memop_log g_nobj all total;
    Ok (Some out)
  else Ok None.

(** ** Lemmas *)

(** The specification: a stable grouping by object id. *)
Definition group (g_nobj : Z) (M : list wait_memop) : list wait_memop :=
  seqZ 0 g_nobj ≫= λ o, filter (λ e, wm_objid e = o) M.

Definition valid_entry (g_nobj : Z) (e : wait_memop) : Prop :=
  0 ≤ wm_objid e < g_nobj ∧ 0 ≤ wm_memop e.

(** What the loop accepts before the end mark: an entry it skips, or one of an
    object that exists. *)
Definition loadable (g_nobj : Z) (e : wait_memop) : Prop :=
  wm_objid e ≠ -1 ∧ (wm_memop e = -1 ∨ 0 ≤ wm_objid e < g_nobj).

(** The entries that are not skipped: those that name an earlier access. *)
Definition waits (M : list wait_memop) : list wait_memop := filter (λ e, wm_memop e ≠ -1) M.

Lemma loadable_waits g_nobj M :
  Forall (loadable g_nobj) M → Forall (λ e, 0 ≤ wm_objid e < g_nobj) (waits M).
Proof.
  intros HM. apply list.Forall_forall. intros e [Hm He]%list_elem_of_filter.
  destruct (proj1 (list.Forall_forall _ _) HM e He) as [_ [?|?]]; [done|lia].
Qed.

Lemma valid_loadable g_nobj M :
  Forall (valid_entry g_nobj) M → Forall (loadable g_nobj) M ∧ waits M = M.
Proof.
  intros HM. split.
  - eapply Forall_impl; [|exact HM]. intros e [? ?]. split; [lia|by right].
  - apply filter_all. intros e He.
    destruct (proj1 (list.Forall_forall _ _) HM e He) as [_ ?]. lia.
Qed.

Lemma load_loop_spec g_nobj M mark rest all total :
  Forall (loadable g_nobj) M → wm_objid mark = -1 →
  (∀ o, is_Some (all !! o) ↔ 0 ≤ o < g_nobj) →
  ∃ all', load_wait_memop_loop g_nobj (M ++ mark :: rest) all total
            = Ok (all', total + Z.of_nat (length (waits M))) ∧
    ∀ o, all' !! o = (λ l, l ++ filter (λ e, wm_objid e = o) (waits M)) <$> all !! o.
Proof.
  intros HM Hmark. revert all total. induction HM as [|w M Hw HM IH]; intros all total Hd.
  - exists all. cbn. rewrite decide_True by done. split; [f_equal; f_equal; lia|]. intros o.
    destruct (all !! o); cbn; by rewrite ?app_nil_r.
  - destruct Hw as [Hne Hw]. unfold waits. rewrite filter_cons. fold (waits M).
    cbn [app load_wait_memop_loop]. rewrite (decide_False (P := wm_objid w = -1)) by done.
    destruct (decide (wm_memop w = -1)) as [Hm|Hm].
    { rewrite decide_False by tauto. by apply IH. }
    destruct Hw as [?|Ho]; [done|]. destruct (proj2 (Hd (wm_objid w)) Ho) as [l Hl].
    rewrite decide_False by lia. rewrite (arr_get_lookup _ _ _ Hl), decide_True by done. cbn.
    destruct (IH (<[wm_objid w := l ++ [w]]> all) (total + 1)) as (all' & -> & Hall').
    { intros o. rewrite lookup_insert_is_Some', Hd. split; [|tauto]. intros [<-|?]; done. }
    exists all'. split; [f_equal; f_equal; lia|]. intros o. rewrite Hall'.
    destruct (decide (wm_objid w = o)) as [<-|Hne'].
    + rewrite lookup_insert_eq, Hl. cbn. by rewrite <- app_assoc.
    + by rewrite lookup_insert_ne by done.
Qed.

Lemma group_Permutation_range g_nobj M :
  Forall (λ e, 0 ≤ wm_objid e < g_nobj) M → group g_nobj M ≡ₚ M.
Proof.
  intros HM. unfold group. rewrite bind_filter_Permutation by apply NoDup_seqZ.
  rewrite filter_all; [done|]. intros e He. apply elem_of_seqZ.
  pose proof (proj1 (list.Forall_forall _ _) HM e He). cbn in *. lia.
Qed.

Lemma group_Permutation g_nobj M :
  Forall (valid_entry g_nobj) M → group g_nobj M ≡ₚ M.
Proof.
  intros HM. apply group_Permutation_range. eapply Forall_impl; [|exact HM]. by intros e [? _].
Qed.

Lemma write_out_group g_nobj M all :
  Forall (λ e, 0 ≤ wm_objid e < g_nobj) M →
  (∀ o, 0 ≤ o < g_nobj → all !! o = Some (filter (λ e, wm_objid e = o) M)) →
  write_out_memop_log g_nobj all (Z.of_nat (length M)) = Ok (group g_nobj M).
Proof.
  intros HM Hall. unfold write_out_memop_log.
  assert ((seqZ 0 g_nobj ≫= λ i, default [] (all !! i)) = group g_nobj M) as ->.
  { unfold group. apply Forall_bind_ext, list.Forall_forall. intros o Ho%elem_of_seqZ.
    by rewrite Hall by lia. }
  rewrite (Permutation_length (group_Permutation_range _ _ HM)), decide_True by lia.
  rewrite Nat2Z.id, Nat.sub_diag. by rewrite app_nil_r.
Qed.

(** The output is the stable grouping of the entries that are not skipped. *)
Lemma reorder_main_loadable g_nobj M mark rest :
  Forall (loadable g_nobj) M → wm_objid mark = -1 →
  reorder_main g_nobj (M ++ mark :: rest) =
  Ok (if decide (waits M = []) then None else Some (group g_nobj (waits M))).
Proof.
  intros HM Hmark. unfold reorder_main, load_wait_memop_log.
  destruct (load_loop_spec g_nobj M mark rest (arr_make g_nobj []) 0 HM Hmark) as (all & -> & Hall).
  { intros o. rewrite lookup_arr_make. by case_decide. }
  cbn -[write_out_memop_log waits]. pose proof (loadable_waits _ _ HM) as HW.
  rewrite Z.add_0_l. destruct (decide (waits M = [])) as [->|Hne]; [done|].
  rewrite decide_True by (destruct (waits M); cbn; [done|lia]).
  rewrite (write_out_group _ _ _ HW); [done|]. intros o Ho.
  by rewrite Hall, lookup_arr_make, decide_True.
Qed.

Lemma reorder_main_spec g_nobj M rest :
  Forall (valid_entry g_nobj) M →
  reorder_main g_nobj (M ++ WaitMemop (-1) (-1) (-1) :: rest) =
  Ok (if decide (M = []) then None else Some (group g_nobj M)).
Proof.
  intros [HM Hw]%valid_loadable. rewrite (reorder_main_loadable _ _ _ _ HM) by done. by rewrite Hw.
Qed.

(** Lexicographic order on object id and version: the order of [merge-memop]. *)
Definition key_le (a b : wait_memop) : Prop :=
  wm_objid a < wm_objid b ∨ wm_objid a = wm_objid b ∧ wm_version a ≤ wm_version b.

Lemma group_sorted g_nobj M :
  (∀ o, StronglySorted (λ a b, wm_version a ≤ wm_version b)
          (filter (λ e, wm_objid e = o) M)) →
  StronglySorted key_le (group g_nobj M).
Proof.
  intros HM. unfold group.
  assert (StronglySorted Z.lt (seqZ 0 g_nobj)) as Hs by apply StronglySorted_seqZ_lt.
  induction Hs as [|o ks Hks IH Ho]; cbn [mbind list_bind]; [constructor|].
  apply StronglySorted_app_2; [| |done].
  - intros a b [Ea _]%list_elem_of_filter (o' & Hb & Ho')%list_elem_of_bind.
    apply list_elem_of_filter in Hb as [Eb _]. left.
    eapply list.Forall_forall in Ho; [|done]. lia.
  - eapply StronglySorted_impl_in; [|apply (HM o)].
    intros a b [Ea _]%list_elem_of_filter [Eb _]%list_elem_of_filter ?. right. split; [lia|done].
Qed.

(** Grouping sorts by object, whatever the versions are. *)
Lemma group_sorted_objid g_nobj M :
  StronglySorted (λ a b, wm_objid a ≤ wm_objid b) (group g_nobj M).
Proof.
  unfold group.
  assert (StronglySorted Z.lt (seqZ 0 g_nobj)) as Hs by apply StronglySorted_seqZ_lt.
  induction Hs as [|o ks Hks IH Ho]; cbn [mbind list_bind]; [constructor|].
  apply StronglySorted_app_2; [| |done].
  - intros a b [Ea _]%list_elem_of_filter (o' & Hb & Ho')%list_elem_of_bind.
    apply list_elem_of_filter in Hb as [Eb _].
    eapply list.Forall_forall in Ho; [|done]. lia.
  - clear. induction M as [|e M IHM]; [constructor|]. rewrite filter_cons. case_decide; [|done].
    constructor; [done|]. apply list.Forall_forall. intros b [Eb _]%list_elem_of_filter. lia.
Qed.

(** Grouping keeps the records of each object, in their order. *)
Lemma group_filter g_nobj M o : Forall (λ e, 0 ≤ wm_objid e < g_nobj) M →
  filter (λ e, wm_objid e = o) (group g_nobj M) = filter (λ e, wm_objid e = o) M.
Proof.
  intros HM. destruct (decide (0 ≤ o < g_nobj)) as [Ho|Ho].
  2: { pose proof (proj1 (list.Forall_forall _ _) HM) as HM'. cbn in HM'.
       rewrite !filter_none; [done|..]; intros e He <-; apply Ho, HM'; [done|].
       by rewrite <- (group_Permutation_range _ _ HM). }
  unfold group. assert (NoDup (seqZ 0 g_nobj)) as Hnd by apply NoDup_seqZ.
  assert (o ∈ seqZ 0 g_nobj) as Hin by (apply elem_of_seqZ; lia).
  assert (∀ o', o' ≠ o → filter (λ e, wm_objid e = o) (filter (λ e, wm_objid e = o') M) = [])
    as Hother.
  { intros o' Hne. rewrite list_filter_filter. apply filter_none. intros x _. naive_solver. }
  revert Hin. induction Hnd as [|o' ks Ho' Hks IH]; [set_solver|].
  cbn [mbind list_bind]. rewrite list.filter_app. intros [<-|Hin]%elem_of_cons.
  - rewrite list_filter_filter_l by done.
    rewrite <- (app_nil_r (filter _ M)) at 2. f_equal. clear IH Hks.
    induction ks as [|o' ks IH]; [done|]. cbn [mbind list_bind].
    rewrite list.filter_app, Hother, IH by set_solver. done.
  - rewrite Hother by (intros ->; done). by apply IH.
Qed.

(** ** Properties *)

(** C18: on a log closed by the end mark, whatever follows it, whose entries name an
    object that exists or have [memop] -1, [reorder-memop] writes no file exactly
    when every entry has [memop] -1, and otherwise the file holds a permutation of
    the entries whose [memop] is not -1, sorted by object, in which each object's
    entries keep their order; if the log's versions rise per object the file is
    sorted by object and version. *)
Theorem reorder_stable_sort g_nobj M mark rest :
  Forall (λ e, wm_objid e ≠ -1 ∧ (wm_memop e = -1 ∨ 0 ≤ wm_objid e < g_nobj)) M →
  wm_objid mark = -1 →
  let kept := filter (λ e, wm_memop e ≠ -1) M in
  ∃ out,
    reorder_main g_nobj (M ++ mark :: rest) = Ok (if decide (kept = []) then None else Some out) ∧
    out ≡ₚ kept ∧
    StronglySorted (λ a b, wm_objid a ≤ wm_objid b) out ∧
    (∀ o, filter (λ e, wm_objid e = o) out = filter (λ e, wm_objid e = o) kept) ∧
    ((∀ o, StronglySorted (λ a b, wm_version a ≤ wm_version b)
             (filter (λ e, wm_objid e = o) kept)) → StronglySorted key_le out).
Proof.
  intros HM Hmark kept. pose proof (loadable_waits g_nobj M HM) as HW.
  exists (group g_nobj kept). split_and!.
  - by apply reorder_main_loadable.
  - by apply group_Permutation_range.
  - apply group_sorted_objid.
  - intros o. by apply group_filter.
  - apply group_sorted.
Qed.

(** With a skipped entry of an object that does not exist and versions that do not
    rise, and with nothing but skipped entries. *)
Lemma reorder_stable_sort_witness :
  (let M := [WaitMemop 1 6 0; WaitMemop 7 0 (-1); WaitMemop 0 2 3; WaitMemop 1 4 7] in
   let kept := filter (λ e, wm_memop e ≠ -1) M in
   ∃ out,
     reorder_main 2 (M ++ WaitMemop (-1) (-1) (-1) :: []) =
       Ok (if decide (kept = []) then None else Some out) ∧
     out ≡ₚ kept ∧
     StronglySorted (λ a b, wm_objid a ≤ wm_objid b) out ∧
     (∀ o, filter (λ e, wm_objid e = o) out = filter (λ e, wm_objid e = o) kept) ∧
     ((∀ o, StronglySorted (λ a b, wm_version a ≤ wm_version b)
              (filter (λ e, wm_objid e = o) kept)) → StronglySorted key_le out)) ∧
  reorder_main 2 [WaitMemop 0 0 (-1); WaitMemop (-1) (-1) (-1)] = Ok None.
Proof.
  split.
  - apply (reorder_stable_sort 2 [WaitMemop 1 6 0; WaitMemop 7 0 (-1); WaitMemop 0 2 3;
      WaitMemop 1 4 7] (WaitMemop (-1) (-1) (-1)) []); [|done].
    repeat constructor; cbn; lia.
  - destruct (reorder_stable_sort 2 [WaitMemop 0 0 (-1)] (WaitMemop (-1) (-1) (-1)) [])
      as (out & H & _); [repeat constructor; cbn; lia|done|exact H].
Defined.


