(* ===== verification/PQueue.v ===== *)
(** * PQueue: [std::priority_queue] with [greater], as the merge tools use it

    The interface says what the C++ standard promises: [top] is an element that
    no element of the queue is smaller than, [pop] removes that element, and the
    order of equivalent elements is left open.  The merge tools are verified
    against the interface; the instance shows it can be implemented. *)
From S2P Require Import Prelude.

(** The comparison: [gt a b] is [a > b]. *)
Class strict_weak {A} (gt : A → A → bool) : Prop := {
  gt_irrefl a : gt a a = false;
  gt_asym a b : gt a b = true → gt b a = false;
  ngt_trans a b c : gt a b = false → gt b c = false → gt a c = false }.

Class prio_queue {A : Type} (gt : A → A → bool) := {
  pq_t : Type;
  pq_empty : pq_t;
  pq_push : A → pq_t → pq_t;
  pq_top : pq_t → option A;
  pq_pop : pq_t → pq_t }.
Arguments pq_t {A gt} _.

(** [pq_wf] is the queue's own invariant, [pq_items] the multiset it holds. *)
Class prio_queue_ok {A} {gt : A → A → bool} (Q : prio_queue gt) := {
  pq_wf : pq_t Q → Prop;
  pq_items : pq_t Q → list A;
  pq_wf_empty : pq_wf pq_empty;
  pq_wf_push x q : pq_wf q → pq_wf (pq_push x q);
  pq_wf_pop q : pq_wf q → pq_wf (pq_pop q);
  pq_items_empty : pq_items pq_empty = [];
  pq_items_push x q : pq_items (pq_push x q) ≡ₚ x :: pq_items q;
  pq_top_None q : pq_top q = None → pq_items q = [];
  pq_top_pop q x : pq_top q = Some x → pq_items q ≡ₚ x :: pq_items (pq_pop q);
  pq_top_least q x y : pq_wf q → pq_top q = Some x → y ∈ pq_items q → gt x y = false }.

(** ** An instance: a list kept in ascending order *)

Section sorted_queue.
Context {A : Type} (gt : A → A → bool).

Fixpoint sq_push (x : A) (q : list A) : list A :=
  match q with
  | [] => [x]
  | y :: q => if gt x y then y :: sq_push x q else x :: y :: q
  end.

Lemma sq_push_Permutation x q : sq_push x q ≡ₚ x :: q.
Proof.
  induction q as [|y q IH]; [done|]. cbn. destruct (gt x y); [|done].
  rewrite IH. apply Permutation_swap.
Qed.

Lemma sq_push_sorted `{!strict_weak gt} x q :
  StronglySorted (λ a b, gt a b = false) q →
  StronglySorted (λ a b, gt a b = false) (sq_push x q).
Proof.
  induction 1 as [|y q Hq IH Hy]; cbn; [repeat constructor|].
  destruct (gt x y) eqn:Exy.
  - constructor; [done|]. rewrite sq_push_Permutation. constructor; [|done].
    by apply gt_asym.
  - constructor; [by constructor|]. constructor; [done|].
    eapply list.Forall_impl; [exact Hy|]. intros z Hz. by eapply ngt_trans.
Qed.

#[global] Instance sorted_queue : prio_queue gt := {|
  pq_t := list A;
  pq_empty := [];
  pq_push := sq_push;
  pq_top := head;
  pq_pop := tail |}.

#[global] Instance sorted_queue_ok `{!strict_weak gt} : prio_queue_ok sorted_queue.
Proof.
  refine {| pq_wf (q : pq_t sorted_queue) := StronglySorted (λ a b, gt a b = false) q;
            pq_items (q : pq_t sorted_queue) := q |}.
  - constructor.
  - intros. by apply sq_push_sorted.
  - intros q Hq. destruct Hq; [constructor|done].
  - done.
  - intros. apply sq_push_Permutation.
  - intros q. by destruct q.
  - intros q x. destruct q; [done|]. by intros [= ->].
  - intros q x y Hq. destruct Hq as [|z q Hq Hz]; [done|]. intros [= ->] Hy.
    apply elem_of_cons in Hy as [->|Hy]; [apply gt_irrefl|].
    by eapply list.Forall_forall in Hz.
Qed.
End sorted_queue.
