(* ===== verification/KWay.v ===== *)
(** * KWay: merging sorted logs with a priority queue

    The part [merge-memop.cpp] and [merge-commit.cpp] share: the queue holds the
    next entry of every log that is not exhausted, tagged with its thread. *)
From S2P Require Import Prelude PQueue.

(** ** The program *)

(** [QueEnt] of [merge-memop.cpp] and [q_ent] of [merge-commit.cpp]: a thread and
    what its log holds. *)
Record que_ent (W : Type) := QueEnt {
  qe_tid : Z;
  qe_wop : W }.
Arguments QueEnt {W} _ _.
Arguments qe_tid {W} _.
Arguments qe_wop {W} _.

Section kway.
Context {W : Type} {gt : que_ent W → que_ent W → bool} (Q : prio_queue gt).

(** The next entry of thread [tid]'s log, if there is one, goes into the queue;
    [log] is what is left of the logs. *)
Definition enqueue_next (pq : pq_t Q) (log : list (list W)) (tid : Z)
    : outcome (pq_t Q * list (list W)) :=
  match log !! Z.to_nat tid with
  | None => Err BadAccess
  | Some [] => Ok (pq, log)
  | Some (w :: l) => Ok (pq_push (QueEnt tid w) pq, <[Z.to_nat tid := l]> log)
  end.

(** The first entry of every log that could be opened. *)
Definition init_queue (nthr : Z) (files : list (option (list W)))
    : outcome (pq_t Q * list (list W)) :=
  foldl (λ r i,
      '(pq, log) ← r;
      match files !! Z.to_nat i with
      | None => Err BadAccess
      | Some None => Ok (pq, log)
      | Some (Some _) => enqueue_next pq log i
      end) (Ok (pq_empty, default [] <$> files)) (seqZ 0 nthr).

Definition total_entries (files : list (option (list W))) : nat :=
  sum_list_with (λ f, length (default [] f)) files.
End kway.

(** ** Lemmas: the queue and the logs *)

Section remaining.
Context {W : Type}.

(** The entries left in the logs, tagged with their thread. *)
Definition remaining (log : list (list W)) : list (que_ent W) :=
  mjoin (imap (λ i l, QueEnt (Z.of_nat i) <$> l) log).

Lemma remaining_take log i w l : log !! i = Some (w :: l) →
  remaining log ≡ₚ QueEnt (Z.of_nat i) w :: remaining (<[i := l]> log).
Proof.
  intros Hi. assert (i < length log)%nat as Hlt by by eapply lookup_lt_Some.
  unfold remaining. rewrite insert_take_drop by done.
  rewrite <- (take_drop_middle log i (w :: l) Hi) at 1.
  rewrite !imap_app, !join_app. cbn. rewrite !length_take, Nat.min_l, Nat.add_0_r by lia.
  by rewrite <- Permutation_middle.
Qed.

Lemma remaining_wops log : qe_wop <$> remaining log = mjoin log.
Proof.
  unfold remaining. assert (∀ (ls : list (list W)) g,
    qe_wop <$> mjoin (imap (λ i l, QueEnt (g i) <$> l) ls) = mjoin ls) as H; [|apply H].
  intros ls. induction ls as [|l ls IH]; intros g; [done|]. cbn.
  rewrite fmap_app, <- list_fmap_compose. f_equal; [apply list_fmap_id|apply (IH (g ∘ S))].
Qed.

Lemma elem_of_remaining log q :
  q ∈ remaining log ↔ ∃ i l, log !! i = Some l ∧ qe_tid q = Z.of_nat i ∧ qe_wop q ∈ l.
Proof.
  unfold remaining. rewrite list_elem_of_join. split.
  - intros (x & Hq & Hx). apply elem_of_lookup_imap in Hx as (i & l & -> & Hi).
    apply list_elem_of_fmap in Hq as (w & -> & Hw). eauto.
  - intros (i & l & Hi & Ht & Hw). exists (QueEnt (Z.of_nat i) <$> l). split.
    + apply list_elem_of_fmap. exists (qe_wop q). split; [|done]. destruct q; cbn in *; congruence.
    + apply elem_of_lookup_imap. eauto.
Qed.
End remaining.

Section queue.
Context {W : Type} {gt : que_ent W → que_ent W → bool} {Q : prio_queue gt}.
Context {HQ : prio_queue_ok Q} (le : relation W) `{!PreOrder le}.
Context (gt_le : ∀ a b, gt a b = false ↔ le (qe_wop a) (qe_wop b)).

(** [T] are all entries, [P] those already written.  The queue holds, for each
    thread in [ok], an entry that is not larger than what its log still holds. *)
Record queue_inv (T P : list (que_ent W)) (ok : nat → Prop) (pq : pq_t Q)
    (log : list (list W)) : Prop := {
  qi_wf : pq_wf pq;
  qi_perm : P ++ pq_items pq ++ remaining log ≡ₚ T;
  qi_le : ∀ p q, p ∈ P → q ∈ pq_items pq → le (qe_wop p) (qe_wop q);
  qi_logs : ∀ i l, log !! i = Some l → StronglySorted le l;
  qi_head : ∀ i l w, ok i → log !! i = Some l → w ∈ l →
    ∃ q, q ∈ pq_items pq ∧ qe_tid q = Z.of_nat i ∧ le (qe_wop q) w;
  qi_tid : ∀ q, q ∈ pq_items pq → 0 ≤ qe_tid q < Z.of_nat (length log) }.

Lemma queue_inv_impl T P (ok ok' : nat → Prop) pq log :
  (∀ j, (j < length log)%nat → ok' j → ok j) → queue_inv T P ok pq log → queue_inv T P ok' pq log.
Proof.
  intros Himp []. constructor; try done. intros i l w Hi Hl. apply qi_head0; [|done].
  apply Himp; [by eapply lookup_lt_Some|done].
Qed.

Lemma enqueue_inv T P ok pq log i :
  queue_inv T P ok pq log → (i < length log)%nat →
  (∀ l p w, log !! i = Some l → p ∈ P → w ∈ l → le (qe_wop p) w) →
  ∃ pq' log', enqueue_next Q pq log (Z.of_nat i) = Ok (pq', log') ∧
    queue_inv T P (λ j, ok j ∨ j = i) pq' log' ∧ length log' = length log ∧
    ∀ j, j ≠ i → log' !! j = log !! j.
Proof.
  intros [] Hi Hle. destruct (lookup_lt_is_Some_2 _ _ Hi) as [l Hl].
  unfold enqueue_next. rewrite Nat2Z.id, Hl. destruct l as [|w l].
  - exists pq, log. split_and!; [done| |done..]. constructor; try done.
    intros j l w [Hj| ->] Hlj Hw; [by eapply qi_head0|]. rewrite Hl in Hlj.
    injection Hlj as <-. by apply not_elem_of_nil in Hw.
  - pose proof (qi_logs0 _ _ Hl) as Hs. apply StronglySorted_inv in Hs as [Hs Hw].
    eexists _, _. split_and!;
      [done| |by rewrite length_insert|intros; by apply list_lookup_insert_ne].
    assert (∀ q, q ∈ pq_items (pq_push (QueEnt (Z.of_nat i) w) pq) ↔
      q = QueEnt (Z.of_nat i) w ∨ q ∈ pq_items pq) as Hpush.
    { intros q. by rewrite pq_items_push, elem_of_cons. }
    constructor.
    + by apply pq_wf_push.
    + rewrite pq_items_push, <- qi_perm0, (remaining_take log i w l Hl). cbn.
      by rewrite Permutation_middle.
    + intros p q Hp [->|Hq]%Hpush; [|auto]. cbn. eapply Hle; [done..|set_solver].
    + intros j l' Hj. apply list_lookup_insert_Some in Hj as [(_ & <- & _)|[_ Hj]]; eauto.
    + intros j l' w' Hj Hlj Hw'.
      apply list_lookup_insert_Some in Hlj as [(<- & -> & _)|[Hne Hlj]].
      * exists (QueEnt (Z.of_nat i) w). split_and!; [apply Hpush; by left|done|].
        by eapply list.Forall_forall in Hw.
      * destruct Hj as [Hj| ->]; [|done].
        destruct (qi_head0 j l' w' Hj Hlj Hw') as (q & Hq & ? & ?).
        exists q. split_and!; [apply Hpush; by right|done..].
    + rewrite length_insert. intros q [->|Hq]%Hpush; [cbn; lia|auto].
Qed.

(** Taking the top of the queue. *)
Lemma pop_inv T P ok pq log x :
  queue_inv T P ok pq log → pq_top pq = Some x →
  queue_inv T (P ++ [x]) (λ j, ok j ∧ Z.of_nat j ≠ qe_tid x) (pq_pop pq) log ∧
  (∀ p, p ∈ P → le (qe_wop p) (qe_wop x)) ∧
  0 ≤ qe_tid x < Z.of_nat (length log) ∧
  (∀ l w, ok (Z.to_nat (qe_tid x)) → log !! Z.to_nat (qe_tid x) = Some l → w ∈ l →
     le (qe_wop x) w).
Proof.
  intros [] Hx. pose proof (pq_top_pop _ _ Hx) as Hp.
  assert (∀ q, q ∈ pq_items pq ↔ q = x ∨ q ∈ pq_items (pq_pop pq)) as Hin.
  { intros q. by rewrite Hp, elem_of_cons. }
  assert (∀ q, q ∈ pq_items pq → le (qe_wop x) (qe_wop q)) as Hleast.
  { intros q Hq. apply gt_le. by eapply pq_top_least. }
  assert (x ∈ pq_items pq) as Hxin by (apply Hin; by left).
  split_and!; [constructor| |by apply qi_tid0..|].
  - by apply pq_wf_pop.
  - rewrite <- qi_perm0, Hp, <- app_assoc. done.
  - intros p q [Hp'| ->%list_elem_of_singleton]%elem_of_app Hq.
    + apply qi_le0; [done|]. apply Hin. by right.
    + apply Hleast, Hin. by right.
  - done.
  - intros i l w [Hi Hne] Hl Hw. destruct (qi_head0 i l w Hi Hl Hw) as (q & Hq & Ht & Hk).
    exists q. split_and!; [|done..]. apply Hin in Hq as [->|Hq]; [congruence|done].
  - intros q Hq. apply qi_tid0, Hin. by right.
  - intros p Hp'. by apply qi_le0.
  - intros l w Hok Hl Hw. destruct (qi_head0 _ l w Hok Hl Hw) as (q & Hq & _ & Hk).
    transitivity (qe_wop q); [by apply Hleast|done].
Qed.

(** An empty queue means that everything has been written. *)
Lemma empty_inv T P pq log :
  queue_inv T P (λ _, True) pq log → pq_top pq = None → P ≡ₚ T.
Proof.
  intros [] Hx. apply pq_top_None in Hx. rewrite <- qi_perm0, Hx. cbn.
  destruct (remaining log) as [|q r] eqn:E; [by rewrite app_nil_r|].
  assert (q ∈ remaining log) as Hq by (rewrite E; set_solver).
  apply elem_of_remaining in Hq as (i & l & Hi & _ & Hw).
  destruct (qi_head0 i l _ I Hi Hw) as (q' & Hq' & _). rewrite Hx in Hq'. set_solver.
Qed.

(** ** Lemmas: filling the queue *)

Section init.
Context (files : list (option (list W))).

(** All entries, tagged with their threads. *)
Definition all_entries : list (que_ent W) := remaining (default [] <$> files).

Lemma length_all_entries : length all_entries = total_entries files.
Proof.
  unfold all_entries, remaining, total_entries.
  assert (∀ (ls : list (list W)) g,
    length (mjoin (imap (λ i l, QueEnt (g i) <$> l) ls)) = sum_list_with length ls) as ->.
  { intros ls. induction ls as [|l ls IH]; intros g; [done|]. cbn.
    rewrite length_app, length_fmap. f_equal. apply (IH (g ∘ S)). }
  clear. induction files as [|f fs IH]; [done|]. cbn. by rewrite IH.
Qed.

Context (Hsorted : ∀ l, Some l ∈ files → StronglySorted le l).

Lemma init_queue_prefix k : (k ≤ length files)%nat → ∃ pq log,
  init_queue Q (Z.of_nat k) files = Ok (pq, log) ∧
  queue_inv all_entries [] (λ j, (j < k)%nat) pq log ∧ length log = length files ∧
  ∀ j, (k ≤ j)%nat → log !! j = (default [] <$> files) !! j.
Proof.
  unfold init_queue. induction k as [|k IH]; intros Hk.
  - exists pq_empty, (default [] <$> files). split_and!; [done| |by rewrite length_fmap|done].
    constructor; [apply pq_wf_empty|by rewrite pq_items_empty|set_solver| |lia|].
    + intros i l Hl. apply list_lookup_fmap_Some in Hl as (f & -> & Hf).
      destruct f as [l|]; [|constructor]. apply Hsorted. by eapply list_elem_of_lookup_2.
    + rewrite pq_items_empty. set_solver.
  - destruct IH as (pq & log & Hrun & Hq & Hlen & Hrest); [lia|].
    rewrite Nat2Z.inj_succ, <- Z.add_1_r, seqZ_snoc, foldl_snoc, Hrun by lia.
    cbn [mbind outcome_bind]. rewrite Z.add_0_l, Nat2Z.id. destruct (lookup_lt_is_Some_2 files k) as [f Hf]; [lia|].
    pose proof (Hrest k ltac:(lia)) as Hlk. rewrite list_lookup_fmap, Hf in Hlk. rewrite Hf.
    destruct f as [l|]; cbn in Hlk.
    + destruct (enqueue_inv _ _ _ _ _ k Hq) as (pq' & log' & -> & Hq' & Hlen' & Hsame);
        [lia|set_solver|].
      exists pq', log'. split_and!; [done| |lia|].
      * eapply queue_inv_impl; [|done]. intros j _ Hj. cbn in *. lia.
      * intros j Hj. rewrite Hsame by lia. apply Hrest. lia.
    + exists pq, log. split_and!; [done| |done|intros j Hj; apply Hrest; lia].
      destruct Hq. constructor; try done. intros i l' w Hi Hl'.
      destruct (decide (i = k)) as [->|]; [|apply qi_head0; [lia|done]].
      rewrite Hlk in Hl'. injection Hl' as <-. set_solver.
Qed.

Lemma init_queue_ok : ∃ pq log,
  init_queue Q (Z.of_nat (length files)) files = Ok (pq, log) ∧
  queue_inv all_entries [] (λ _, True) pq log.
Proof.
  destruct (init_queue_prefix (length files) (le_n _)) as (pq & log & Hrun & Hq & Hlen & _).
  exists pq, log. split; [done|]. eapply queue_inv_impl; [|done]. intros j Hj _. cbn. lia.
Qed.
End init.
End queue.
