(* ===== verification/Merge.v ===== *)
(** * Merge: [merge-memop.cpp], which merges the threads' sorted memop logs

    The entries of all threads are merged by object and version into one file,
    and an index file tells where each object's entries are. *)
From S2P Require Import Prelude Mem Reorder PQueue KWay.

(** ** The program *)

(** [QueEnt::operator>]. *)
Definition qe_gt (a b : que_ent wait_memop) : bool :=
  if decide (wm_objid (qe_wop a) = wm_objid (qe_wop b))
  then bool_decide (wm_version (qe_wop b) < wm_version (qe_wop a))
  else bool_decide (wm_objid (qe_wop b) < wm_objid (qe_wop a)).

(** [*p++ = x] into a mapping of [cap] elements, of which [buf] are written. *)
Definition put {A} (cap : Z) (x : A) (buf : list A) : outcome (list A) :=
  if decide (Z.of_nat (length buf) < cap) then Ok (buf ++ [x]) else Err BadAccess.

(** The loop that marks the objects from [lo] to [hi - 1] as having no entries. *)
Definition write_empty (cap lo hi : Z) (buf : list Z) : outcome (list Z) :=
  foldl (λ r _, b ← r; b ← put cap (-1) b; put cap 0 b) (Ok buf) (seqZ lo (hi - lo)).

(** The fields [version], [memop] and [tid] written to [next_mwm]. *)
Definition mwm (qe : que_ent wait_memop) : replay_wait_memop :=
  ReplayWaitMemop (wm_version (qe_wop qe)) (wm_memop (qe_wop qe)) (qe_tid qe).

Section merge.
Context (Q : prio_queue qe_gt).

(** The local variables of [merge_memop]: [ms_log] is what is left of each log
    between [buf] and [end], [ms_out] and [ms_index] what has been written. *)
Record mstate := MState {
  ms_pq : pq_t Q;
  ms_log : list (list wait_memop);
  ms_out : list replay_wait_memop;
  ms_index : list Z;
  ms_prev_id : Z;
  ms_cnt : Z;
  ms_prev_cnt : Z }.

Definition enqueue_next_waitmemop (pq : pq_t Q) (log : list (list wait_memop)) (tid : Z)
    : outcome (pq_t Q * list (list wait_memop)) :=
  enqueue_next Q pq log tid.

(** The index is written when the entry is the first one of its object. *)
Definition write_index (g_nobj : Z) (objid : Z) (s : mstate) : outcome mstate :=
  if decide (ms_prev_id s ≠ objid) then
    index ←
      (if decide (ms_prev_id s ≠ -1) then
         let n := ms_cnt s - ms_prev_cnt s in
         index ← put (2 * g_nobj) n (ms_index s);
         _ ← c_assert (0 < n);
         Ok index
       else Ok (ms_index s));
    index ← write_empty (2 * g_nobj) (ms_prev_id s + 1) objid index;
    index ← put (2 * g_nobj) (ms_cnt s) index;
    Ok (MState (ms_pq s) (ms_log s) (ms_out s) index objid (ms_cnt s) (ms_cnt s))
  else Ok s.

(** The body of the loop, once [qe] is taken from the queue. *)
Definition merge_body (g_nobj entrycount : Z) (qe : que_ent wait_memop) (s : mstate) : outcome mstate :=
  s ← write_index g_nobj (wm_objid (qe_wop qe)) s;
  out ← put entrycount (mwm qe) (ms_out s);
  '(pq, log) ← enqueue_next_waitmemop (ms_pq s) (ms_log s) (qe_tid qe);
  Ok (MState pq log out (ms_index s) (ms_prev_id s) (ms_cnt s + 1) (ms_prev_cnt s)).

Fixpoint merge_loop (fuel : nat) (g_nobj entrycount : Z) (s : mstate) : outcome mstate :=
  match pq_top (ms_pq s) with
  | None => Ok s
  | Some qe =>
      match fuel with
      | O => Err OutOfFuel
      | S fuel =>
          s ← merge_body g_nobj entrycount qe
                (MState (pq_pop (ms_pq s)) (ms_log s) (ms_out s) (ms_index s) (ms_prev_id s)
                   (ms_cnt s) (ms_prev_cnt s));
          merge_loop fuel g_nobj entrycount s
      end
  end.

(** [create_mapped_file] for [n] elements: an empty or a negative size fails. *)
Definition create_check (n : Z) : outcome unit :=
  if decide (0 < n) then Ok () else Err ExitFailure.

(** [merge_memop]: the memop and the index file, or none when there is nothing
    to merge; what is not written of a created file reads as zero. *)
Definition merge_memop (g_nobj nthr : Z) (files : list (option (list wait_memop)))
    : outcome (option (list replay_wait_memop * list Z)) :=
  _ ← c_assert (Z.of_nat (length files) = nthr);
  if decide (total_entries files = 0%nat) then Ok None
  else
    let entrycount := wrap_s 32 (Z.of_nat (total_entries files)) in
    _ ← create_check entrycount;
    _ ← create_check g_nobj;
    '(pq, log) ← init_queue Q nthr files;
    s ← merge_loop (total_entries files) g_nobj entrycount (MState pq log [] [] (-1) 0 0);
    index ← put (2 * g_nobj) (ms_cnt s - ms_prev_cnt s) (ms_index s);
    index ← write_empty (2 * g_nobj) (ms_prev_id s + 1) g_nobj index;
    Ok (Some (ms_out s ++ replicate (Z.to_nat entrycount - length (ms_out s))
                                    (ReplayWaitMemop 0 0 0),
              index ++ replicate (Z.to_nat (2 * g_nobj) - length index) 0)).

(** [main] casts the number of threads to the 8-bit [tid_t]. *)
Definition merge_main (g_nobj : Z) (files : list (option (list wait_memop)))
    : outcome (option (list replay_wait_memop * list Z)) :=
  merge_memop g_nobj (wrap_s 8 (Z.of_nat (length files))) files.
End merge.
Arguments MState {Q} _ _ _ _ _ _ _.

(** ** Lemmas: the order *)

Definition qle (a b : que_ent wait_memop) : Prop := key_le (qe_wop a) (qe_wop b).

Lemma qe_gt_false a b : qe_gt a b = false ↔ qle a b.
Proof.
  unfold qe_gt, qle, key_le. case_decide; rewrite bool_decide_eq_false; lia.
Qed.

Lemma qle_refl a : qle a a.
Proof. right. lia. Qed.

Lemma qle_trans a b c : qle a b → qle b c → qle a c.
Proof. unfold qle, key_le. lia. Qed.

Lemma qle_objid a b : qle a b → wm_objid (qe_wop a) ≤ wm_objid (qe_wop b).
Proof. unfold qle, key_le. lia. Qed.

#[global] Instance key_le_preorder : PreOrder key_le.
Proof. split; repeat intro; unfold key_le in *; lia. Qed.

#[global] Instance qe_gt_strict_weak : strict_weak qe_gt.
Proof.
  split.
  - intros a. apply qe_gt_false, qle_refl.
  - intros a b Hab. apply qe_gt_false. destruct (decide (qle a b)) as [H|H].
    + apply qe_gt_false in H. congruence.
    + unfold qle, key_le in *. lia.
  - intros a b c Hab Hbc. apply qe_gt_false in Hab, Hbc. apply qe_gt_false.
    by eapply qle_trans.
Qed.

(** ** Lemmas: the queue and the logs *)

(** ** Lemmas: the index *)

(** The number of entries of object [o], and of the objects before it. *)
Definition obj_count (P : list (que_ent wait_memop)) (o : Z) : Z :=
  Z.of_nat (length (filter (λ q, wm_objid (qe_wop q) = o) P)).
Definition obj_start (P : list (que_ent wait_memop)) (o : Z) : Z :=
  Z.of_nat (length (filter (λ q, wm_objid (qe_wop q) < o) P)).

(** What the index says of object [o]: its first entry and their number. *)
Definition index_of (P : list (que_ent wait_memop)) (o : Z) : list Z :=
  if decide (obj_count P o = 0) then [-1; 0] else [obj_start P o; obj_count P o].

Lemma index_of_some P o : obj_count P o ≠ 0 → index_of P o = [obj_start P o; obj_count P o].
Proof. intros. unfold index_of. by rewrite decide_False. Qed.

Lemma obj_count_snoc P x o :
  obj_count (P ++ [x]) o = obj_count P o + (if decide (wm_objid (qe_wop x) = o) then 1 else 0).
Proof.
  unfold obj_count. rewrite list.filter_app, filter_singleton, length_app by done.
  case_decide; cbn; lia.
Qed.

Lemma obj_start_snoc P x o :
  obj_start (P ++ [x]) o = obj_start P o + (if decide (wm_objid (qe_wop x) < o) then 1 else 0).
Proof.
  unfold obj_start. rewrite list.filter_app, filter_singleton, length_app by done.
  case_decide; cbn; lia.
Qed.

Lemma index_of_snoc P x o : o < wm_objid (qe_wop x) → index_of (P ++ [x]) o = index_of P o.
Proof.
  intros Ho. unfold index_of. rewrite obj_count_snoc, obj_start_snoc.
  rewrite (decide_False (P := _ = o)) by lia.
  rewrite (decide_False (P := _ < o)) by lia. by rewrite !Z.add_0_r.
Qed.

Lemma indexes_snoc P x n : n ≤ wm_objid (qe_wop x) →
  (seqZ 0 n ≫= index_of (P ++ [x])) = (seqZ 0 n ≫= index_of P).
Proof.
  intros Hn. apply Forall_bind_ext, list.Forall_forall. intros o Ho%elem_of_seqZ.
  apply index_of_snoc. lia.
Qed.

Lemma indexes_length P m n : length (seqZ m n ≫= index_of P) = (2 * Z.to_nat n)%nat.
Proof.
  assert (∀ ks, length (ks ≫= index_of P) = (2 * length ks)%nat) as H.
  { intros ks. induction ks as [|k ks IH]; [done|]. cbn [mbind list_bind length].
    rewrite length_app, IH. unfold index_of. case_decide; cbn; lia. }
  by rewrite H, length_seqZ.
Qed.

Lemma put_Ok {A} cap (x : A) buf :
  Z.of_nat (length buf) < cap → put cap x buf = Ok (buf ++ [x]).
Proof. intros. unfold put. by rewrite decide_True. Qed.

(** Marking objects that have no entries extends the index. *)
Lemma write_empty_ext P cap lo hi buf :
  lo ≤ hi → (∀ o, lo ≤ o < hi → obj_count P o = 0) →
  Z.of_nat (length buf) + 2 * (hi - lo) ≤ cap →
  write_empty cap lo hi buf = Ok (buf ++ (seqZ lo (hi - lo) ≫= index_of P)).
Proof.
  intros Hlh Hc Hcap. unfold write_empty.
  assert (∀ ks buf, Z.of_nat (length buf) + 2 * Z.of_nat (length ks) ≤ cap →
    (∀ o, o ∈ ks → obj_count P o = 0) →
    foldl (λ r _, b ← r; b ← put cap (-1) b; put cap 0 b) (Ok buf) ks
      = Ok (buf ++ (ks ≫= index_of P))) as H.
  { clear. intros ks. induction ks as [|k ks IH]; intros buf Hcap Hks; cbn [mbind list_bind].
    { by rewrite app_nil_r. }
    cbn [length] in Hcap. cbn [foldl mbind outcome_bind].
    rewrite put_Ok by lia. cbn [mbind outcome_bind].
    rewrite put_Ok by (rewrite length_app; cbn; lia).
    rewrite IH; [|rewrite !length_app; cbn; lia|set_solver].
    unfold index_of at 2. rewrite decide_True by (apply Hks; set_solver).
    by rewrite <- !app_assoc. }
  apply H.
  - rewrite length_seqZ. lia.
  - intros o Ho%elem_of_seqZ. apply Hc. lia.
Qed.

Section index.
Context (Q : prio_queue qe_gt) (g_nobj : Z).
Implicit Types (s : mstate Q).

(** Entries up to [P] have been indexed; the last object's count is missing. *)
Definition index_inv (P : list (que_ent wait_memop)) s : Prop :=
  ms_cnt Q s = Z.of_nat (length P) ∧
  ((P = [] ∧ ms_prev_id Q s = -1 ∧ ms_prev_cnt Q s = 0 ∧ ms_index Q s = []) ∨
   (∃ P' p, P = P' ++ [p] ∧ ms_prev_id Q s = wm_objid (qe_wop p) ∧
      ms_prev_cnt Q s = obj_start P (ms_prev_id Q s) ∧
      ms_index Q s = (seqZ 0 (ms_prev_id Q s) ≫= index_of P)
                       ++ [obj_start P (ms_prev_id Q s)])).

Lemma last_count P' p : StronglySorted qle (P' ++ [p]) →
  let P := P' ++ [p] in
  let o := wm_objid (qe_wop p) in
  Z.of_nat (length P) - obj_start P o = obj_count P o ∧ 0 < obj_count P o ∧
  ∀ q, q ∈ P → wm_objid (qe_wop q) ≤ o.
Proof.
  intros Hs. cbn zeta.
  assert (∀ q, q ∈ P' ++ [p] → wm_objid (qe_wop q) ≤ wm_objid (qe_wop p)) as Hle.
  { intros q [Hq| ->%list_elem_of_singleton]%elem_of_app; [|lia].
    apply qle_objid. eapply (StronglySorted_app_1_elem_of qle P' [p]); [done..|set_solver]. }
  split_and!.
  - assert (∀ P, (∀ q, q ∈ P → wm_objid (qe_wop q) ≤ wm_objid (qe_wop p)) →
      Z.of_nat (length P) = obj_start P (wm_objid (qe_wop p)) + obj_count P (wm_objid (qe_wop p)))
      as H; [|rewrite (H _ Hle); lia].
    clear. intros P. induction P as [|x P IH] using rev_ind; intros H; [done|].
    rewrite obj_start_snoc, obj_count_snoc, length_app. cbn.
    specialize (H x ltac:(set_solver)) as Hx.
    rewrite Nat2Z.inj_add, IH by set_solver. case_decide; case_decide; cbn; lia.
  - rewrite obj_count_snoc, decide_True by done. unfold obj_count. lia.
  - done.
Qed.

Definition in_range (P : list (que_ent wait_memop)) : Prop :=
  ∀ q, q ∈ P → 0 ≤ wm_objid (qe_wop q) < g_nobj.

(** Writing the count of the last object completes its part of the index. *)
Lemma close_index P s : index_inv P s → P ≠ [] → StronglySorted qle P → in_range P →
  put (2 * g_nobj) (ms_cnt Q s - ms_prev_cnt Q s) (ms_index Q s)
    = Ok (seqZ 0 (ms_prev_id Q s + 1) ≫= index_of P) ∧
  0 < ms_cnt Q s - ms_prev_cnt Q s ∧ 0 ≤ ms_prev_id Q s < g_nobj ∧
  ∀ q, q ∈ P → wm_objid (qe_wop q) ≤ ms_prev_id Q s.
Proof.
  intros [Hcnt [[-> _]|(P' & p & -> & Hid & Hpc & Hix)]] Hne Hs Hr; [done|].
  destruct (last_count _ _ Hs) as (Hc & Hpos & Hmax). rewrite Hcnt, Hpc, Hid, Hc, Hix, Hid.
  specialize (Hr p ltac:(set_solver)). split_and!; try lia; [|done].
  rewrite put_Ok by (rewrite length_app, indexes_length; cbn; lia).
  rewrite seqZ_snoc, bind_app by lia. cbn [mbind list_bind]. rewrite Z.add_0_l.
  by rewrite (index_of_some _ (wm_objid _)), <- app_assoc by lia.
Qed.

Lemma obj_count_none P o : (∀ q, q ∈ P → wm_objid (qe_wop q) ≠ o) → obj_count P o = 0.
Proof. intros H. unfold obj_count. by rewrite filter_none. Qed.

Lemma obj_start_all P o : (∀ q, q ∈ P → wm_objid (qe_wop q) < o) →
  obj_start P o = Z.of_nat (length P).
Proof. intros H. unfold obj_start. by rewrite filter_all. Qed.

Lemma write_index_next P x lo :
  (∀ q, q ∈ P → wm_objid (qe_wop q) < lo) → lo ≤ wm_objid (qe_wop x) < g_nobj → 0 ≤ lo →
  let o := wm_objid (qe_wop x) in
  ∃ index,
    write_empty (2 * g_nobj) lo o (seqZ 0 lo ≫= index_of P) = Ok index ∧
    put (2 * g_nobj) (Z.of_nat (length P)) index
      = Ok ((seqZ 0 o ≫= index_of (P ++ [x])) ++ [Z.of_nat (length P)]) ∧
    obj_start (P ++ [x]) o = Z.of_nat (length P).
Proof.
  intros HP Hx Hlo o. subst o. eexists. split_and!.
  - apply (write_empty_ext P); [lia| |rewrite indexes_length; lia].
    intros o Ho. apply obj_count_none. intros q Hq. specialize (HP q Hq). lia.
  - rewrite <- bind_app.
    replace (seqZ lo _) with (seqZ (0 + lo) (wm_objid (qe_wop x) - lo)) by done.
    rewrite <- seqZ_app by lia. rewrite Zplus_minus.
    rewrite put_Ok by (rewrite indexes_length; lia). by rewrite indexes_snoc by lia.
  - rewrite obj_start_snoc, decide_False by lia.
    rewrite Z.add_0_r, obj_start_all; [done|]. intros q Hq. specialize (HP q Hq). lia.
Qed.

Lemma write_index_ok P s x :
  index_inv P s → StronglySorted qle (P ++ [x]) → in_range (P ++ [x]) →
  ∃ index prev_cnt,
    let s' := MState (ms_pq Q s) (ms_log Q s) (ms_out Q s) index (wm_objid (qe_wop x))
                (ms_cnt Q s) prev_cnt in
    write_index Q g_nobj (wm_objid (qe_wop x)) s = Ok s' ∧
    prev_cnt = obj_start (P ++ [x]) (wm_objid (qe_wop x)) ∧
    index = (seqZ 0 (wm_objid (qe_wop x)) ≫= index_of (P ++ [x])) ++ [prev_cnt].
Proof.
  intros Hi Hs Hr. pose proof (Hr x ltac:(set_solver)) as Hx.
  apply StronglySorted_app_1_l in Hs as HsP.
  assert (in_range P) as HrP by (intros q Hq; apply Hr; set_solver).
  assert (∀ q, q ∈ P → wm_objid (qe_wop q) ≤ wm_objid (qe_wop x)) as Hle.
  { intros q Hq. apply qle_objid.
    eapply (StronglySorted_app_1_elem_of qle P [x]); [done..|set_solver]. }
  unfold write_index. pose proof Hi as [Hcnt [(-> & Hid & Hpc & Hix)|(P' & p & EP & Hid & Hpc & Hix)]].
  - rewrite Hid, Hix, decide_True by lia. rewrite decide_False by lia. cbn [mbind outcome_bind].
    destruct (write_index_next [] x 0) as (ix & Hw & Hp & Ho); [set_solver|lia..|].
    change (seqZ 0 0 ≫= index_of []) with (@nil Z) in Hw.
    replace (-1 + 1) with 0 by lia. rewrite Hw. cbn [mbind outcome_bind].
    rewrite Hcnt, Hp. cbn [mbind outcome_bind]. by eexists _, _.
  - assert (P ≠ []) as Hne by (rewrite EP; by destruct P').
    case_decide as Hnew.
    + destruct (close_index P s Hi Hne HsP HrP) as (Hput & Hpos & Hprev & Hmax).
      rewrite decide_True, Hput, c_assert_true by (done || lia). cbn [mbind outcome_bind].
      specialize (Hle p ltac:(set_solver)).
      destruct (write_index_next P x (ms_prev_id Q s + 1)) as (ix & Hw & Hp & Ho); [|lia..|].
      { intros q Hq. specialize (Hmax q Hq). lia. }
      rewrite Hw. cbn [mbind outcome_bind].
      rewrite Hcnt, Hp. cbn [mbind outcome_bind]. by eexists _, _.
    + assert (ms_prev_id Q s = wm_objid (qe_wop x)) as Ex by lia.
      exists (ms_index Q s), (ms_prev_cnt Q s). rewrite <- Ex.
      rewrite Hpc, Hix, indexes_snoc, obj_start_snoc, decide_False by lia.
      split_and!; [|lia|f_equal; f_equal; lia]. f_equal.
      destruct s; cbn in *. congruence.
Qed.
End index.

(** ** Lemmas: the merge *)

Section merge_proof.
Context {Q : prio_queue qe_gt} {HQ : prio_queue_ok Q} (g_nobj entrycount : Z) (T : list (que_ent wait_memop)).
Context (Hrange : in_range g_nobj T).
Implicit Types (s : mstate Q).

Record merge_inv (P : list (que_ent wait_memop)) (ok : nat → Prop) s : Prop := {
  mi_queue : queue_inv key_le T P ok (ms_pq Q s) (ms_log Q s);
  mi_sorted : StronglySorted qle P;
  mi_index : index_inv Q P s;
  mi_out : ms_out Q s = mwm <$> P }.

Lemma merge_inv_range P ok s : merge_inv P ok s → in_range g_nobj P.
Proof.
  intros Hs q Hq. apply Hrange. rewrite <- (qi_perm _ _ _ _ _ _ (mi_queue _ _ _ Hs)). set_solver.
Qed.

(** The body after the top [x] has been taken from the queue. *)
Lemma merge_body_ok P s x :
  merge_inv P (λ _, True) s → pq_top (ms_pq Q s) = Some x →
  Z.of_nat (length T) ≤ entrycount →
  ∃ s', merge_body Q g_nobj entrycount x
          (MState (pq_pop (ms_pq Q s)) (ms_log Q s) (ms_out Q s) (ms_index Q s)
             (ms_prev_id Q s) (ms_cnt Q s) (ms_prev_cnt Q s)) = Ok s' ∧
        merge_inv (P ++ [x]) (λ _, True) s' ∧ (length P < length T)%nat.
Proof.
  intros [Hq Hs Hi Ho] Hx Hcap.
  destruct (pop_inv key_le qe_gt_false _ _ _ _ _ _ Hq Hx) as (Hq' & HPx & Htid & Hnext).
  assert (StronglySorted qle (P ++ [x])) as Hs' by by apply StronglySorted_snoc.
  pose proof (Permutation_length (qi_perm _ _ _ _ _ _ Hq')) as Hlen.
  rewrite !length_app in Hlen. cbn in Hlen.
  assert (in_range g_nobj (P ++ [x])) as Hr.
  { intros q Hqin. apply Hrange. rewrite <- (qi_perm _ _ _ _ _ _ Hq'). set_solver. }
  set (s1 := MState _ _ _ _ _ _ _).
  destruct (write_index_ok Q g_nobj P s1 x Hi Hs' Hr) as (ix & pc & Hw & Hpc & Hix).
  destruct (enqueue_inv key_le qe_gt_false _ _ _ _ _ (Z.to_nat (qe_tid x)) Hq') as (pq' & log' & He & Hq'' & _).
  { lia. }
  { intros l p w Hl [Hp| ->%list_elem_of_singleton]%elem_of_app Hw'; [|by eapply Hnext].
    transitivity (qe_wop x); [auto|by eapply Hnext]. }
  rewrite Z2Nat.id in He by lia.
  unfold merge_body, enqueue_next_waitmemop. rewrite Hw. cbn [mbind outcome_bind ms_out ms_pq ms_log s1].
  rewrite put_Ok by (rewrite Ho, length_fmap; lia). cbn [mbind outcome_bind].
  rewrite He. cbn [mbind outcome_bind]. eexists. split_and!; [done| |lia].
  constructor; cbn; [|done| |by rewrite Ho, fmap_app].
  - eapply (queue_inv_impl key_le); [|done]. intros j _ _.
    destruct (decide (j = Z.to_nat (qe_tid x))); [by right|left]. split; [done|lia].
  - destruct Hi as [Hc _]. split; [cbn; rewrite Hc, length_app; cbn; lia|].
    right. exists P, x. cbn. rewrite <- Hpc. done.
Qed.

Lemma merge_loop_ok fuel P s :
  merge_inv P (λ _, True) s → Z.of_nat (length T) ≤ entrycount →
  (length T ≤ fuel + length P)%nat →
  ∃ s' P', merge_loop Q fuel g_nobj entrycount s = Ok s' ∧
    merge_inv P' (λ _, True) s' ∧ P' ≡ₚ T.
Proof.
  intros Hs Hcap. revert P s Hs. induction fuel as [|fuel IH]; intros P s Hs Hf; cbn [merge_loop];
    destruct (pq_top (ms_pq Q s)) as [x|] eqn:Hx.
  - destruct (merge_body_ok P s x Hs Hx Hcap) as (_ & _ & _ & ?). lia.
  - exists s, P. split_and!; [done..|]. eapply (empty_inv key_le qe_gt_false); [apply Hs|done].
  - destruct (merge_body_ok P s x Hs Hx Hcap) as (s' & -> & Hs' & ?). cbn [mbind outcome_bind].
    apply (IH (P ++ [x])); [done|]. rewrite length_app. cbn. lia.
  - exists s, P. split_and!; [done..|]. eapply (empty_inv key_le qe_gt_false); [apply Hs|done].
Qed.
End merge_proof.

Section merge_spec.
Context (Q : prio_queue qe_gt) {HQ : prio_queue_ok Q}.
Context (g_nobj : Z) (files : list (option (list wait_memop))).
Context (Hsorted : ∀ l, Some l ∈ files → StronglySorted key_le l).

(** The merged file holds every entry once, ordered by object and version, and
    the index tells where each object's entries are. *)
Lemma merge_memop_ok :
  in_range g_nobj (all_entries files) → 0 < g_nobj →
  (0 < total_entries files)%nat → Z.of_nat (total_entries files) < 2 ^ 31 →
  ∃ P, merge_memop Q g_nobj (Z.of_nat (length files)) files
         = Ok (Some (mwm <$> P, seqZ 0 g_nobj ≫= index_of P)) ∧
    P ≡ₚ (all_entries files) ∧ StronglySorted qle P.
Proof.
  intros Hr Hn Hpos Hmax. unfold merge_memop, create_check.
  rewrite c_assert_true, wrap_s_id by lia. cbn [mbind outcome_bind].
  rewrite decide_False, !decide_True by lia. cbn [mbind outcome_bind].
  destruct (init_queue_ok key_le qe_gt_false files Hsorted) as (pq & log & -> & Hq). cbn [mbind outcome_bind].
  rewrite <- length_all_entries in *.
  destruct (merge_loop_ok g_nobj (Z.of_nat (length (all_entries files))) (all_entries files) Hr
              (length (all_entries files)) [] (MState pq log [] [] (-1) 0 0))
    as (s & P & -> & Hs & HP); [|lia|cbn; lia|].
  { constructor; [done|constructor| |done]. split; [done|]. by left. }
  cbn [mbind outcome_bind]. exists P. split_and!; [|done|apply Hs].
  assert (P ≠ []) as Hne. { intros ->. apply Permutation_length in HP. cbn in HP. lia. }
  destruct (close_index Q g_nobj P s) as (-> & _ & Hprev & Hmaxo);
    [apply Hs|done|apply Hs|by eapply merge_inv_range|]. cbn [mbind outcome_bind].
  rewrite (write_empty_ext P); [|lia| |rewrite indexes_length; lia].
  2:{ intros o Ho. apply obj_count_none. intros q Hqin. specialize (Hmaxo q Hqin). lia. }
  cbn [mbind outcome_bind]. rewrite <- bind_app.
  replace (seqZ (ms_prev_id Q s + 1) _)
    with (seqZ (0 + (ms_prev_id Q s + 1)) (g_nobj - (ms_prev_id Q s + 1))) by done.
  rewrite <- seqZ_app, Zplus_minus by lia.
  rewrite (mi_out _ _ _ _ Hs), length_fmap, indexes_length, (Permutation_length HP).
  rewrite Nat2Z.id, Nat.sub_diag. cbn [replicate]. rewrite app_nil_r.
  replace (Z.to_nat (2 * g_nobj) - 2 * Z.to_nat g_nobj)%nat with 0%nat by lia.
  cbn [replicate]. by rewrite app_nil_r.
Qed.
End merge_spec.

(** ** Properties *)

(** C17: for every priority queue, [merge-memop] turns sorted logs of at most 127
    threads into one file that holds every entry once, tagged with its thread and
    ordered by object and version, and an index of where each object's entries
    begin and how many there are; without entries it writes no files. *)
Theorem merge_sorts_and_indexes (Q : prio_queue qe_gt) {HQ : prio_queue_ok Q} g_nobj files :
  (∀ l, Some l ∈ files → StronglySorted key_le l) → in_range g_nobj (all_entries files) →
  (length files ≤ 127)%nat → Z.of_nat (total_entries files) < 2 ^ 31 →
  (total_entries files = 0%nat ∧ merge_main Q g_nobj files = Ok None) ∨
  ∃ P, merge_main Q g_nobj files = Ok (Some (mwm <$> P, seqZ 0 g_nobj ≫= index_of P)) ∧
    P ≡ₚ all_entries files ∧ StronglySorted qle P.
Proof.
  intros Hs Hr Hl Ht. unfold merge_main. rewrite wrap_s_id by lia.
  destruct (decide (total_entries files = 0%nat)) as [H0|H0]; [left|right].
  - split; [done|]. unfold merge_memop. rewrite c_assert_true by done. cbn. by rewrite decide_True.
  - apply merge_memop_ok; try done; [|lia]. rewrite <- length_all_entries in H0.
    destruct (all_entries files) as [|q l]; [done|]. specialize (Hr q ltac:(set_solver)). lia.
Qed.

Definition demo_files : list (option (list wait_memop)) :=
  [Some [WaitMemop 0 0 1; WaitMemop 2 4 9]; None; Some [WaitMemop 0 0 0; WaitMemop 0 2 5]].

Lemma merge_sorts_and_indexes_witness :
  (total_entries demo_files = 0%nat ∧ merge_main (sorted_queue qe_gt) 3 demo_files = Ok None) ∨
  ∃ P, merge_main (sorted_queue qe_gt) 3 demo_files
         = Ok (Some (mwm <$> P, seqZ 0 3 ≫= index_of P)) ∧
    P ≡ₚ all_entries demo_files ∧ StronglySorted qle P.
Proof.
  apply (merge_sorts_and_indexes (sorted_queue qe_gt) 3 demo_files).
  - intros l Hl. repeat (apply elem_of_cons in Hl as [Hl|Hl]; [simplify_eq;
      repeat constructor; unfold key_le; cbn; lia|]). by apply not_elem_of_nil in Hl.
  - intros q Hq. change (all_entries demo_files) with
      [QueEnt 0 (WaitMemop 0 0 1); QueEnt 0 (WaitMemop 2 4 9);
       QueEnt 2 (WaitMemop 0 0 0); QueEnt 2 (WaitMemop 0 2 5)] in Hq.
    repeat (apply elem_of_cons in Hq as [->|Hq]; [cbn; lia|]). by apply not_elem_of_nil in Hq.
  - cbn. lia.
  - cbn. lia.
Defined.

(** C21: with more than 127 threads the number of threads does not fit [tid_t]:
    the assertion that compares it with the number of logs fails. *)
Theorem merge_rejects_too_many_threads (Q : prio_queue qe_gt) g_nobj files :
  (127 < length files)%nat → merge_main Q g_nobj files = Err AssertFail.
Proof.
  intros Hl. unfold merge_main, merge_memop. rewrite c_assert_false; [done|].
  pose proof (wrap_s_range 8 (Z.of_nat (length files))). lia.
Qed.

Lemma merge_rejects_too_many_threads_witness :
  merge_main (sorted_queue qe_gt) 3 (replicate 128 None) = Err AssertFail.
Proof. apply merge_rejects_too_many_threads. rewrite length_replicate. lia. Defined.
