(* ===== verification/Sched.v ===== *)
(** * Sched: runs of a machine under a schedule, and fair schedules

    A machine is a step function of the scheduled thread.  [live_machine] is what
    a component has to show of its step function; that no run fails and that
    every fair schedule finishes follows here once. *)
From S2P Require Import Prelude.

Section sched.
Context {A S : Type} (step : A → S → outcome S).

Definition run_sched (sched : list A) (s : S) : outcome S :=
  foldl (λ r a, s ← r; step a s) (Ok s) sched.

Lemma run_sched_cons a sched s :
  run_sched (a :: sched) s = s' ← step a s; run_sched sched s'.
Proof.
  unfold run_sched; cbn. destruct (step a s) as [s'|er]; cbn; [done|].
  induction sched; cbn; auto.
Qed.

Lemma run_sched_app sched1 sched2 s :
  run_sched (sched1 ++ sched2) s = s' ← run_sched sched1 s; run_sched sched2 s'.
Proof.
  revert s. induction sched1 as [|a sched1 IH]; intros s; [done|]. cbn [app].
  rewrite !run_sched_cons. destruct (step a s); cbn; [apply IH|done].
Qed.

Lemma run_sched_snoc sched a s :
  run_sched (sched ++ [a]) s = s' ← run_sched sched s; step a s'.
Proof. unfold run_sched. by rewrite foldl_snoc. Qed.

(** The index of the invariant bounds the steps that change the state. *)
Class live_machine (live : A → Prop) (finished : S → Prop) (inv : nat → S → Prop) : Prop := {
  lm_step n s a : inv n s → ∃ s', step a s = Ok s' ∧ (s' = s ∨ ∃ n', (n' < n)%nat ∧ inv n' s');
  lm_progress n s : inv n s → finished s ∨ ∃ a, live a ∧ step a s ≠ Ok s;
  lm_finished s a : finished s → step a s = Ok s }.

(** A round lets every live thread take a step. *)
Definition fair (live : A → Prop) (round : list A) : Prop := ∀ a, live a → a ∈ round.

Context {live : A → Prop} {finished : S → Prop} {inv : nat → S → Prop}.
Context `{HM : !live_machine live finished inv}.

Lemma run_sched_effect sched n s : inv n s → ∃ s', run_sched sched s = Ok s' ∧
  (s' = s ∧ (∀ a, a ∈ sched → step a s = Ok s) ∨ ∃ n', (n' < n)%nat ∧ inv n' s').
Proof.
  revert n s. induction sched as [|a sched IH]; intros n s Hs.
  { exists s. split; [done|]. left. split; [done|]. set_solver. }
  rewrite run_sched_cons. destruct (lm_step n s a Hs) as (s1 & Est & [->|(n1 & Hn1 & Hs1)]);
    rewrite Est; cbn.
  - destruct (IH n s Hs) as (s2 & -> & [[-> Hall]|?]); eexists; (split; [done|]); [left|by right].
    split; [done|]. by intros b [->|?]%elem_of_cons; auto.
  - destruct (IH n1 s1 Hs1) as (s2 & -> & [[-> _]|(n2 & ? & ?)]); eexists; (split; [done|]);
      right; [by exists n1|]. exists n2. split; [lia|done].
Qed.

Lemma run_sched_ok sched n s : inv n s →
  ∃ s' n', run_sched sched s = Ok s' ∧ (n' ≤ n)%nat ∧ inv n' s'.
Proof.
  intros Hs. destruct (run_sched_effect sched n s Hs) as (s' & Hr & [[-> _]|(n' & ? & ?)]);
    eexists _, _; (split; [done|]); split; [|done| |done]; lia.
Qed.

Lemma finished_stays sched s : finished s → run_sched sched s = Ok s.
Proof.
  intros Hf. induction sched as [|a sched IH]; [done|].
  rewrite run_sched_cons, (lm_finished s a Hf). apply IH.
Qed.

Lemma fair_rounds_finish rounds n s :
  inv n s → Forall (fair live) rounds → (n ≤ length rounds)%nat →
  ∃ s' n', run_sched (concat rounds) s = Ok s' ∧ inv n' s' ∧ finished s'.
Proof.
  intros Hs Hf. revert n s Hs. induction Hf as [|ts rounds Hts Hf IH]; intros n s Hs Hlen.
  - destruct (lm_progress n s Hs) as [?|(a & _ & Ha)]; [by exists s, n|].
    destruct (lm_step n s a Hs) as (s' & Hst & [->|(n' & ? & _)]); [done|]. cbn in Hlen. lia.
  - destruct (lm_progress n s Hs) as [Hfin|(a & Hla & Ha)].
    { exists s, n. split_and!; [by apply finished_stays|done..]. }
    change (concat (ts :: rounds)) with (ts ++ concat rounds). rewrite run_sched_app.
    destruct (run_sched_effect ts n s Hs) as (s' & -> & [[-> Hall]|(n' & Hn' & Hs')]).
    + destruct Ha. by apply Hall, Hts.
    + cbn. apply (IH n' s' Hs'). cbn in Hlen. lia.
Qed.
End sched.
Arguments live_machine {A S} step live finished inv.

(** ** Sums over the threads *)

Section over.
Context {P : Type} (N : Z) (f : P → nat).

Definition over (thr : gmap Z P) : nat :=
  sum_list_with (λ t, from_option f 0%nat (thr !! t)) (seqZ 0 N).

Lemma over_insert thr t pc pc' : 0 ≤ t < N → thr !! t = Some pc →
  (over (<[t := pc']> thr) + f pc = over thr + f pc')%nat.
Proof.
  intros Ht Hpc. unfold over.
  pose proof (sum_list_with_update (λ u, from_option f 0%nat (<[t := pc']> thr !! u))
    (λ u, from_option f 0%nat (thr !! u)) (seqZ 0 N) t) as H.
  cbn beta in H. rewrite lookup_insert_eq, Hpc in H. cbn [from_option] in H.
  apply H; [apply NoDup_seqZ|apply elem_of_seqZ; lia|]. intros u _ Hne. by rewrite lookup_insert_ne.
Qed.

(** The sum when every thread contributes the same. *)
Lemma over_const thr c : 0 ≤ N → (∀ t, 0 ≤ t < N → from_option f 0%nat (thr !! t) = c) →
  over thr = (c * Z.to_nat N)%nat.
Proof.
  intros HN Hc. unfold over. rewrite (sum_list_with_ext _ (λ _, c)).
  - enough (∀ l : list Z, sum_list_with (λ _, c) l = (c * length l)%nat) as ->; [by rewrite length_seqZ|].
    intros l. induction l; cbn; lia.
  - intros t Ht%elem_of_seqZ. apply Hc. lia.
Qed.

(** Each summand is at most the sum. *)
Lemma over_le_const thr c : 0 ≤ N → (∀ pc, f pc ≤ c)%nat → (over thr ≤ c * Z.to_nat N)%nat.
Proof.
  intros HN Hc. unfold over.
  enough (∀ l : list Z, sum_list_with (λ t, from_option f 0%nat (thr !! t)) l ≤ c * length l)%nat as H.
  { by rewrite <- (length_seqZ 0 N). }
  intros l. induction l as [|t l IH]; cbn; [lia|].
  destruct (thr !! t) as [pc|]; cbn; [pose proof (Hc pc)|]; lia.
Qed.
End over.

(** One thread pays for what the others gain. *)
Lemma sum_list_with_grow {A} (f g : A → nat) (l : list A) c :
  (∀ u, u ∈ l → (g u ≤ f u + c)%nat) → (sum_list_with g l ≤ sum_list_with f l + c * length l)%nat.
Proof.
  induction l as [|a l IH]; intros H; cbn; [lia|].
  pose proof (H a ltac:(set_solver)). assert (∀ u, u ∈ l → (g u ≤ f u + c)%nat) as H' by set_solver.
  specialize (IH H'). lia.
Qed.

Lemma sum_list_with_pay {A} (f g : A → nat) (l : list A) t c :
  NoDup l → t ∈ l → (∀ u, u ∈ l → u ≠ t → (g u ≤ f u + c)%nat) →
  (sum_list_with g l + f t ≤ sum_list_with f l + g t + c * length l)%nat.
Proof.
  induction 1 as [|a l Ha Hl IH]; intros Ht Hu; [set_solver|]. cbn in *.
  apply elem_of_cons in Ht as [->|Ht].
  - assert (sum_list_with g l ≤ sum_list_with f l + c * length l)%nat; [|lia].
    apply sum_list_with_grow. intros u Hin. apply Hu; [set_solver|]. by intros ->.
  - pose proof (Hu a ltac:(set_solver) ltac:(by intros ->)).
    assert (∀ u, u ∈ l → u ≠ t → (g u ≤ f u + c)%nat) as Hu' by set_solver.
    specialize (IH Ht Hu'). lia.
Qed.
