(* ===== verification/Replay.v ===== *)
(** * Replay: the replayer [mem-replay.c]

    Every thread runs [mem_read] and [mem_write] of [mem-replay.c]; a step of the
    machine is one access to shared memory (or one critical section of
    [next_reader_memop], which its mutex protects), so the runs of the machine
    are all the interleavings of the threads' instructions. *)
From S2P Require Import Prelude Mem Sched.

(** ** State *)

(** [struct replay_wait_memop_log]; [wr_log] is what the pointer [log] reaches
    in the mapped memop file, [wr_mutex] whether the mutex is held. *)
Record replay_wait_memop_log := ReplayWaitMemopLog {
  wr_log : list replay_wait_memop;
  wr_n : Z;
  wr_size : Z;
  wr_mutex : bool }.

(** Where a thread is inside [mem_read] or [mem_write]; the operation itself is
    the first one of its program. *)
Inductive rpc :=
| PcStart                              (* wait_object_version: memop == wait_version.memop ? *)
| PcWaitVersion                        (* while (obj_version[objid] < wait_version.version) *)
| PcCheckVersion                       (* assert(obj_version[objid] == wait_version.version) *)
| PcLoad                               (* val = *addr *)
| PcReadDone (val : Z)                 (* memop++; return val *)
| PcNextReader                         (* next_reader_memop: pthread_mutex_trylock *)
| PcReaderLocked                       (* its critical section *)
| PcWaitReader (log : replay_wait_memop) (* while ( *memop_cnt[log->tid] <= log->memop) *)
| PcStore                              (* *addr = val *)
| PcLoadVersion                        (* obj_version[objid] += 2: the load *)
| PcStoreVersion (v : Z)               (* obj_version[objid] += 2: the store *)
| PcWriteDone.                         (* memop++ *)

(** The [__thread] variables of a thread, with its program. *)
Record rthread := RThread {
  rt_prog : prog;
  rt_pc : rpc;
  rt_wait_version : wait_version;
  rt_wait_version_log : list wait_version }.

(** [memop_cnt[t]] points to thread [t]'s [memop], which only [t] writes. *)
Record rstate := RState {
  r_mem : gmap Z Z;
  obj_version : gmap Z Z;
  memop_cnt : gmap Z Z;
  wait_reader_log : gmap Z replay_wait_memop_log;
  r_thr : gmap Z rthread }.

(** ** Initialisation *)

(** [next_wait_version_log]: the head of the version log becomes the current
    wait; the end mark is not consumed. *)
Definition next_wait_version_log (cur : wait_version) (log : list wait_version)
    : outcome (wait_version * list wait_version) :=
  match log with
  | [] => Err BadAccess
  | wv :: log' =>
      if decide (wv_memop wv = -1) then Ok (WaitVersion (-1) (wv_version cur), log)
      else Ok (wv, log')
  end.

(** The loop of [load_wait_reader_log] over the objects [objs], reading [index]. *)
Fixpoint load_loop (memops : list replay_wait_memop) (objs : list Z) (index : list Z)
    (acc : gmap Z replay_wait_memop_log) : outcome (gmap Z replay_wait_memop_log) :=
  match objs with
  | [] => Ok acc
  | i :: objs =>
      match index with
      | [] => Err BadAccess
      | i0 :: index =>
          if decide (i0 = -1) then
            load_loop memops objs (tail index) (<[i := ReplayWaitMemopLog [] 0 (-1) false]> acc)
          else
            match index with
            | [] => Err BadAccess
            | sz :: index =>
                load_loop memops objs index
                  (<[i := ReplayWaitMemopLog (drop (Z.to_nat i0) memops) 0 sz false]> acc)
            end
      end
  end.

(** [load_wait_reader_log]; a file that does not exist is [None]. *)
Definition load_wait_reader_log (g_nobj : Z) (memop_file : option (list replay_wait_memop))
    (index_file : option (list Z)) : outcome (gmap Z replay_wait_memop_log) :=
  match memop_file with
  | None => Ok (arr_make g_nobj (ReplayWaitMemopLog [] 0 (-1) false))
  | Some memops =>
      match index_file with
      | None => Err ExitFailure
      | Some index => load_loop memops (seqZ 0 g_nobj) index ∅
      end
  end.

(** [mem_init_thr] for a thread that will run [p]. *)
Definition mem_init_thr (version_log : list wait_version) (p : prog) : outcome rthread :=
  '(wv, log) ← next_wait_version_log (WaitVersion 0 0) version_log;
  Ok (RThread p PcStart wv log).

(** ** Steps *)

Definition set_pc (pc : rpc) (th : rthread) : rthread :=
  RThread (rt_prog th) pc (rt_wait_version th) (rt_wait_version_log th).

Definition set_thr (t : Z) (th : rthread) (s : rstate) : rstate :=
  RState (r_mem s) (obj_version s) (memop_cnt s) (wait_reader_log s) (<[t := th]> (r_thr s)).

Definition set_wrl (o : Z) (w : replay_wait_memop_log) (s : rstate) : rstate :=
  RState (r_mem s) (obj_version s) (memop_cnt s) (<[o := w]> (wait_reader_log s)) (r_thr s).

(** The value [next_reader_memop] returns once the mutex is taken, and the log
    after it; the mutex is released on every path. *)
Definition next_reader_memop (version : Z) (w : replay_wait_memop_log)
    : outcome (option replay_wait_memop * replay_wait_memop_log) :=
  let unlocked n := ReplayWaitMemopLog (wr_log w) n (wr_size w) false in
  if decide (wr_size w ≤ wr_n w) then Ok (None, unlocked (wr_n w))
  else
    match wr_log w !! Z.to_nat (wr_n w) with
    | None => Err BadAccess
    | Some e =>
        _ ← c_assert (version ≤ rwm_version e);
        if decide (wr_n w < wr_size w ∧ version = rwm_version e)
        then Ok (Some e, unlocked (wr_n w + 1))
        else Ok (None, unlocked (wr_n w))
    end.

Section step.
Context (calc_objid : Z → Z).

(** Where an operation goes on after [wait_object_version]. *)
Definition after_wait (p : prog) : rpc :=
  match p with PWrite _ _ _ => PcNextReader | _ => PcLoad end.

(** One step of thread [t].  A spinning thread and a finished one stay where
    they are. *)
Definition rstep (t : Z) (s : rstate) : outcome rstate :=
  match r_thr s !! t with
  | None => Ok s
  | Some th =>
      match cur_obj calc_objid (rt_prog th) with
      | None => Ok s
      | Some o =>
          let goto pc := set_thr t (set_pc pc th) in
          let count p s :=
            n ← arr_get (memop_cnt s) t;
            Ok (RState (r_mem s) (obj_version s) (<[t := n + 1]> (memop_cnt s))
                  (wait_reader_log s)
                  (<[t := RThread p PcStart (rt_wait_version th) (rt_wait_version_log th)]>
                     (r_thr s))) in
          match rt_pc th, rt_prog th with
          | PcStart, p =>
              n ← arr_get (memop_cnt s) t;
              if decide (n = wv_memop (rt_wait_version th)) then Ok (goto PcWaitVersion s)
              else Ok (goto (after_wait p) s)
          | PcWaitVersion, _ =>
              v ← arr_get (obj_version s) o;
              if decide (v < wv_version (rt_wait_version th)) then Ok s
              else Ok (goto PcCheckVersion s)
          | PcCheckVersion, p =>
              v ← arr_get (obj_version s) o;
              _ ← c_assert (v = wv_version (rt_wait_version th));
              '(wv, log) ← next_wait_version_log (rt_wait_version th) (rt_wait_version_log th);
              Ok (set_thr t (RThread p (after_wait p) wv log) s)
          | PcLoad, PRead addr _ =>
              val ← arr_get (r_mem s) addr;
              Ok (goto (PcReadDone val) s)
          | PcReadDone val, PRead _ k => count (k val) s
          | PcNextReader, PWrite _ _ _ =>
              w ← arr_get (wait_reader_log s) o;
              if wr_mutex w then Err Abort
              else Ok (goto PcReaderLocked
                         (set_wrl o (ReplayWaitMemopLog (wr_log w) (wr_n w) (wr_size w) true) s))
          | PcReaderLocked, PWrite _ _ _ =>
              w ← arr_get (wait_reader_log s) o;
              v ← arr_get (obj_version s) o;
              '(r, w) ← next_reader_memop v w;
              match r with
              | Some e => Ok (goto (PcWaitReader e) (set_wrl o w s))
              | None => Ok (goto PcStore (set_wrl o w s))
              end
          | PcWaitReader e, PWrite _ _ _ =>
              n ← arr_get (memop_cnt s) (rwm_tid e);
              if decide (n ≤ rwm_memop e) then Ok s else Ok (goto PcNextReader s)
          | PcStore, PWrite addr val _ =>
              m ← arr_set (r_mem s) addr val;
              Ok (goto PcLoadVersion
                    (RState m (obj_version s) (memop_cnt s) (wait_reader_log s) (r_thr s)))
          | PcLoadVersion, PWrite _ _ _ =>
              v ← arr_get (obj_version s) o;
              Ok (goto (PcStoreVersion v) s)
          | PcStoreVersion v, PWrite _ _ _ =>
              vs ← arr_set (obj_version s) o (v + 2);
              Ok (goto PcWriteDone
                    (RState (r_mem s) vs (memop_cnt s) (wait_reader_log s) (r_thr s)))
          | PcWriteDone, PWrite _ _ p => count p s
          | _, _ => Err BadAccess
          end
      end
  end.

(** Running a schedule: the list of the threads that take the next steps. *)
Definition rrun (sched : list Z) (s : rstate) : outcome rstate :=
  run_sched rstep sched s.

(** Every thread has returned. *)
Definition r_finished (s : rstate) : Prop :=
  ∀ t th, r_thr s !! t = Some th → ∃ r, rt_prog th = PRet r.

#[global] Instance r_finished_dec s : Decision (r_finished s).
Proof.
  refine (cast_if (decide (map_Forall (λ _ th, ∃ r, rt_prog th = PRet r) (r_thr s)))); done.
Defined.
End step.
