(* ===== verification/ReplayProof.v ===== *)
(** * ReplayProof: every interleaving of the replayer follows the recorded order

    The invariant that ties a state of the replay machine to a recorded history,
    its preservation by every step, and a measure that every step other than a
    spin decreases. *)
From S2P Require Import Prelude Mem Record History Sched Replay.

(** ** What the logs promise *)

Record version_log_ok (accs : list access) (V : list wait_version) : Prop := {
  vl_sound : ∀ e, e ∈ V →
    0 ≤ wv_memop e ∧ ∃ a, accs !! Z.to_nat (wv_memop e) = Some a ∧ acc_ver a = wv_version e;
  vl_sorted : StronglySorted (λ a b, wv_memop a < wv_memop b) V;
  vl_complete : ∀ k a, accs !! k = Some a →
    WaitVersion (Z.of_nat k) (acc_ver a) ∈ V ∨ acc_ver a = 0 ∨
    ∃ j b, (j < k)%nat ∧ accs !! j = Some b ∧ acc_obj b = acc_obj a ∧ acc_ver b = acc_ver a }.

(** [L] is the log of the last readers of object [o]. *)
Record reader_log_ok (E : list event) (o : Z) (L : list replay_wait_memop) : Prop := {
  rl_sorted : StronglySorted (λ a b, rwm_version a ≤ rwm_version b) L;
  rl_sound : ∀ r, r ∈ L → ∃ f, f ∈ E ∧ ev_tid f = rwm_tid r ∧ ev_memop f = rwm_memop r ∧
    ev_kind f = RD ∧ ev_obj f = o ∧ ev_ver f = rwm_version r;
  rl_complete : ∀ f, f ∈ E → ev_kind f = RD → ev_obj f = o →
    (∃ r, r ∈ L ∧ rwm_tid r = ev_tid f ∧ rwm_version r = ev_ver f ∧ ev_memop f ≤ rwm_memop r) ∨
    (∃ g, g ∈ E ∧ ev_tid g = ev_tid f ∧ is_write o g ∧ ev_ver g = ev_ver f) }.

Section replay.
Context (calc_objid : Z → Z) (nobj : Z) (mem0 : gmap Z Z) (progs : gmap Z prog).
Context (E : list event) (V : Z → list wait_version) (L : Z → list replay_wait_memop).
Context (res : Z → Z).

(** A recorded history in which every thread [t] returned [res t], with its logs. *)
Record recorded : Prop := {
  rd_wf : hist_wf calc_objid nobj mem0 progs E;
  rd_trace : ∀ t p, progs !! t = Some p → prog_trace p (tevents t E) (PRet (res t));
  rd_version : ∀ t, version_log_ok (taccs t E) (V t);
  rd_reader : ∀ o, 0 ≤ o < nobj → reader_log_ok E o (L o);
  rd_mem : ∀ e, e ∈ E → is_Some (mem0 !! ev_addr e) }.

Context (HR : recorded).
Local Abbreviation HE := (rd_wf HR).

(** ** Facts about the history *)

Lemma write_unique e f o : e ∈ E → f ∈ E → is_write o e → is_write o f →
  ev_ver e = ev_ver f → e = f.
Proof.
  intros [i He]%list_elem_of_lookup_1 [j Hf]%list_elem_of_lookup_1 [Ke Oe] [Kf Of] Hv.
  destruct (lt_eq_lt_dec i j) as [[Hij| ->]|Hij].
  - destruct (hw_mono _ _ _ _ _ HE _ _ _ _ Hij He Hf) as [_ H]; [congruence|].
    specialize (H Ke). lia.
  - congruence.
  - destruct (hw_mono _ _ _ _ _ HE _ _ _ _ Hij Hf He) as [_ H]; [congruence|].
    specialize (H Kf). lia.
Qed.

(** A read at the version a write of its own thread replaces comes before it. *)
Lemma read_before_write e w o : e ∈ E → w ∈ E → ev_kind e = RD → ev_obj e = o →
  is_write o w → ev_ver e = ev_ver w → ev_tid e = ev_tid w → ev_memop e < ev_memop w.
Proof.
  intros He Hw Ke Oe [Kw Ow] Hv Ht.
  apply list_elem_of_lookup_1 in He as [i He]. apply list_elem_of_lookup_1 in Hw as [j Hw].
  destruct (lt_eq_lt_dec i j) as [[Hij| ->]|Hij].
  - by eapply (tevents_order _ _ _ _ _ _ _ _ _ HE).
  - congruence.
  - destruct (hw_mono _ _ _ _ _ HE _ _ _ _ Hij Hw He) as [_ H]; [congruence|].
    specialize (H Kw). lia.
Qed.

Lemma even_gap v w : Z.even v = true → Z.even w = true → v < w → v + 2 ≤ w.
Proof. intros [a ->]%Z.even_spec [b ->]%Z.even_spec ?. lia. Qed.

(** ** The invariant *)

Definition entry_done (cnt : gmap Z Z) (r : replay_wait_memop) : Prop :=
  ∃ n, cnt !! rwm_tid r = Some n ∧ rwm_memop r < n.

#[local] Instance entry_done_dec cnt r : Decision (entry_done cnt r).
Proof.
  unfold entry_done. destruct (cnt !! rwm_tid r) as [n|] eqn:H.
  - destruct (decide (rwm_memop r < n)); [left|right]; naive_solver.
  - right. naive_solver.
Defined.

(** Event [e] is complete. *)
Definition ev_done (cnt : gmap Z Z) (e : event) : Prop :=
  ∃ n, cnt !! ev_tid e = Some n ∧ ev_memop e < n.

(** The part of the version log thread [t] has not passed: the waits of its
    accesses from the [m]-th on. *)
Definition vlog_at (t m : Z) (wv : wait_version) (log : list wait_version) : Prop :=
  let R := filter (λ e, m ≤ wv_memop e) (V t) in
  (R = [] ∧ wv_memop wv = -1 ∧ log = [WaitVersion (-1) (-1)]) ∨
  (∃ R', R = wv :: R' ∧ log = R' ++ [WaitVersion (-1) (-1)]).

Definition before_wait (pc : rpc) : bool :=
  match pc with PcStart | PcWaitVersion | PcCheckVersion => true | _ => false end.

(** Every entry of the log of [o] up to version [v] has been taken. *)
Definition readers_passed (w : replay_wait_memop_log) (o v : Z) : Prop :=
  ∀ j r, wr_n w ≤ Z.of_nat j → L o !! j = Some r → v < rwm_version r.

(** What holds of a thread in the middle of event [e]: [x] is the version of its
    object and [w] the object's reader log. *)
Definition pc_ok (x : Z) (w : replay_wait_memop_log) (th : rthread) (e : event) : Prop :=
  let o := ev_obj e in
  match rt_pc th with
  | PcStart => True
  | PcWaitVersion => wv_version (rt_wait_version th) = ev_ver e ∧
      wv_memop (rt_wait_version th) = ev_memop e
  | PcCheckVersion => wv_version (rt_wait_version th) = ev_ver e ∧
      wv_memop (rt_wait_version th) = ev_memop e ∧ ev_ver e ≤ x
  | PcLoad => ev_kind e = RD ∧ x = ev_ver e
  | PcReadDone val => ev_kind e = RD ∧ x = ev_ver e ∧ val = ev_val e
  | PcNextReader | PcReaderLocked => ev_kind e = WR ∧ x = ev_ver e
  | PcWaitReader r => ev_kind e = WR ∧ x = ev_ver e ∧ r ∈ L o ∧ rwm_version r = ev_ver e
  | PcStore | PcLoadVersion => ev_kind e = WR ∧ x = ev_ver e ∧ readers_passed w o x
  | PcStoreVersion v => ev_kind e = WR ∧ x = ev_ver e ∧ v = x ∧ readers_passed w o x
  | PcWriteDone => ev_kind e = WR ∧ ev_ver e + 2 ≤ x
  end.

Record thread_ok (cnt ov : gmap Z Z) (wrl : gmap Z replay_wait_memop_log) (t : Z) (th : rthread)
    : Prop := {
  to_cnt : ∃ k, cnt !! t = Some (Z.of_nat k) ∧
    prog_trace (rt_prog th) (drop k (tevents t E)) (PRet (res t)) ∧
    vlog_at t (if before_wait (rt_pc th) then Z.of_nat k else Z.of_nat k + 1)
      (rt_wait_version th) (rt_wait_version_log th);
  to_pc : ∀ k e x w, cnt !! t = Some (Z.of_nat k) → tevents t E !! k = Some e →
    ov !! ev_obj e = Some x → wrl !! ev_obj e = Some w → pc_ok x w th e;
  to_ret : ∀ r, rt_prog th = PRet r → rt_pc th = PcStart }.

(** The write of event [e] has reached the object's version. *)
Definition bumped (s : rstate) (e : event) : Prop :=
  ev_done (memop_cnt s) e ∨
  (memop_cnt s !! ev_tid e = Some (ev_memop e) ∧
   ∃ th, r_thr s !! ev_tid e = Some th ∧ rt_pc th = PcWriteDone).

(** Thread [th] has stored its value for object [o], not yet the version. *)
Definition storing (o : Z) (th : rthread) : Prop :=
  cur_obj calc_objid (rt_prog th) = Some o ∧
  match rt_pc th with PcLoadVersion | PcStoreVersion _ => True | _ => False end.

Record wrl_ok (s : rstate) (o x : Z) (w : replay_wait_memop_log) : Prop := {
  wo_list : take (Z.to_nat (wr_size w)) (wr_log w) = L o;
  wo_size : Z.to_nat (wr_size w) = length (L o);
  wo_n : 0 ≤ wr_n w ≤ Z.of_nat (length (L o));
  wo_past : ∀ j r, Z.of_nat j < wr_n w → L o !! j = Some r →
    entry_done (memop_cnt s) r ∨
    ∃ t th, r_thr s !! t = Some th ∧ rt_pc th = PcWaitReader r ∧
            cur_obj calc_objid (rt_prog th) = Some o;
  wo_next : ∀ j r, wr_n w ≤ Z.of_nat j → L o !! j = Some r → x ≤ rwm_version r;
  wo_mutex : wr_mutex w = true →
    ∃ t th, r_thr s !! t = Some th ∧ rt_pc th = PcReaderLocked ∧
            cur_obj calc_objid (rt_prog th) = Some o }.

Record rinv (s : rstate) : Prop := {
  ri_dom : ∀ t, is_Some (r_thr s !! t) ↔ is_Some (progs !! t);
  ri_ov : ∀ o, is_Some (obj_version s !! o) ↔ 0 ≤ o < nobj;
  ri_wrl : ∀ o, is_Some (wait_reader_log s !! o) ↔ 0 ≤ o < nobj;
  ri_memdom : ∀ a, is_Some (r_mem s !! a) ↔ is_Some (mem0 !! a);
  ri_thr : ∀ t th, r_thr s !! t = Some th →
    thread_ok (memop_cnt s) (obj_version s) (wait_reader_log s) t th;
  ri_even : ∀ o x, obj_version s !! o = Some x → 0 ≤ x ∧ Z.even x = true;
  ri_pending : ∀ e x, e ∈ E → obj_version s !! ev_obj e = Some x → ¬ bumped s e → x ≤ ev_ver e;
  ri_bumped : ∀ e x, e ∈ E → obj_version s !! ev_obj e = Some x → ev_kind e = WR →
    bumped s e → ev_ver e + 2 ≤ x;
  ri_done : ∀ e x, e ∈ E → obj_version s !! ev_obj e = Some x → ev_done (memop_cnt s) e →
    ev_ver e ≤ x;
  ri_log : ∀ o x w, obj_version s !! o = Some x → wait_reader_log s !! o = Some w →
    wrl_ok s o x w;
  ri_mem : ∀ a x, obj_version s !! calc_objid a = Some x →
    (∀ t th, r_thr s !! t = Some th → ¬ storing (calc_objid a) th) →
    r_mem s !! a = vmem mem0 E x a;
  ri_mem_store : ∀ a x t th, obj_version s !! calc_objid a = Some x →
    r_thr s !! t = Some th → storing (calc_objid a) th →
    r_mem s !! a = vmem mem0 E (x + 2) a }.

(** ** Facts about states that satisfy the invariant *)

Lemma ev_inj e f : e ∈ E → f ∈ E → ev_tid e = ev_tid f → ev_memop e = ev_memop f → e = f.
Proof.
  intros He Hf Ht Hm.
  destruct (tevents_at _ _ _ _ _ _ HE He) as [_ H1], (tevents_at _ _ _ _ _ _ HE Hf) as [_ H2].
  rewrite Ht, Hm in H1. congruence.
Qed.

(** The operation a thread is in, and the recorded event it replays. *)
Record current (s : rstate) (t : Z) (th : rthread) (k : nat) (e : event) (x : Z)
    (w : replay_wait_memop_log) : Prop := {
  cu_thr : r_thr s !! t = Some th;
  cu_cnt : memop_cnt s !! t = Some (Z.of_nat k);
  cu_ev : tevents t E !! k = Some e;
  cu_in : e ∈ E;
  cu_tid : ev_tid e = t;
  cu_memop : ev_memop e = Z.of_nat k;
  cu_range : 0 ≤ ev_obj e < nobj;
  cu_obj : cur_obj calc_objid (rt_prog th) = Some (ev_obj e);
  cu_ov : obj_version s !! ev_obj e = Some x;
  cu_wrl : wait_reader_log s !! ev_obj e = Some w;
  cu_pc : pc_ok x w th e;
  cu_vlog : vlog_at t (if before_wait (rt_pc th) then Z.of_nat k else Z.of_nat k + 1)
    (rt_wait_version th) (rt_wait_version_log th);
  cu_mem : is_Some (r_mem s !! ev_addr e);
  cu_prog : match rt_prog th with
    | PRead addr f => ev_kind e = RD ∧ ev_addr e = addr ∧
        prog_trace (f (ev_val e)) (drop (S k) (tevents t E)) (PRet (res t))
    | PWrite addr val p => ev_kind e = WR ∧ ev_addr e = addr ∧ ev_val e = val ∧
        prog_trace p (drop (S k) (tevents t E)) (PRet (res t))
    | PRet _ => False
    end }.

Lemma drop_cons_lookup {A} (l : list A) k x rest :
  drop k l = x :: rest → l !! k = Some x ∧ drop (S k) l = rest.
Proof.
  intros H. split.
  - rewrite <- (Nat.add_0_r k), <- lookup_drop, H. done.
  - replace (S k) with (k + 1)%nat by lia. by rewrite <- drop_drop, H.
Qed.

Lemma current_of s t th o : rinv s → r_thr s !! t = Some th →
  cur_obj calc_objid (rt_prog th) = Some o → ∃ k e x w, current s t th k e x w.
Proof.
  intros Hs Hth Ho. pose proof (ri_thr _ Hs _ _ Hth) as [(k & Hk & Htr & Hvl) Hpc _].
  assert (∃ e rest, drop k (tevents t E) = e :: rest ∧
    ev_addr e = match rt_prog th with PRead a _ | PWrite a _ _ => a | PRet _ => 0 end ∧
    match rt_prog th with
    | PRead addr f => ev_kind e = RD ∧ ev_addr e = addr ∧
        prog_trace (f (ev_val e)) rest (PRet (res t))
    | PWrite addr val p => ev_kind e = WR ∧ ev_addr e = addr ∧ ev_val e = val ∧
        prog_trace p rest (PRet (res t))
    | PRet _ => False
    end) as (e & rest & Hd & Ha & Hp).
  { destruct (rt_prog th); [done|..]; inversion Htr; subst; eexists _, _; split_and!; eauto. }
  apply drop_cons_lookup in Hd as [He Hd].
  assert (e ∈ tevents t E) as Hin by by eapply list_elem_of_lookup_2.
  apply tevents_elem in Hin as [Ht Hin].
  destruct (hw_event _ _ _ _ _ HE _ Hin) as (Eo & Hr & _).
  destruct (proj2 (ri_ov _ Hs _) Hr) as [x Hx], (proj2 (ri_wrl _ Hs _) Hr) as [w Hw].
  exists k, e, x, w. constructor; eauto.
  - by apply (hw_memop _ _ _ _ _ HE _ _ _ He).
  - rewrite Eo, Ha. by destruct (rt_prog th).
  - apply (ri_memdom _ Hs). by apply (rd_mem HR).
  - by rewrite Hd.
Qed.

Lemma current_read s t th k e x w : current s t th k e x w → ev_kind e = RD →
  ∃ f, rt_prog th = PRead (ev_addr e) f ∧
    prog_trace (f (ev_val e)) (drop (S k) (tevents t E)) (PRet (res t)).
Proof.
  intros [] Ke. destruct (rt_prog th); [done| |].
  - destruct cu_prog0 as (_ & -> & ?). eauto.
  - destruct cu_prog0 as [? _]. congruence.
Qed.

Lemma current_write s t th k e x w : current s t th k e x w → ev_kind e = WR →
  ∃ p, rt_prog th = PWrite (ev_addr e) (ev_val e) p ∧
    prog_trace p (drop (S k) (tevents t E)) (PRet (res t)).
Proof.
  intros [] Ke. destruct (rt_prog th); [done| |].
  - destruct cu_prog0 as [? _]. congruence.
  - destruct cu_prog0 as (_ & -> & -> & ?). eauto.
Qed.

Lemma current_not_done s t th k e x w : current s t th k e x w → ¬ ev_done (memop_cnt s) e.
Proof.
  intros [] (n & Hn & Hlt). rewrite cu_tid0, cu_cnt0 in Hn. injection Hn as <-. lia.
Qed.

Lemma current_not_bumped s t th k e x w :
  current s t th k e x w → rt_pc th ≠ PcWriteDone → ¬ bumped s e.
Proof.
  intros Hc Hpc [Hd|(_ & th' & Hth & Hpc')]; [by eapply current_not_done|].
  destruct Hc. rewrite cu_tid0, cu_thr0 in Hth. congruence.
Qed.

Lemma current_le s t th k e x w :
  rinv s → current s t th k e x w → rt_pc th ≠ PcWriteDone → x ≤ ev_ver e.
Proof.
  intros Hs Hc Hpc. eapply (ri_pending _ Hs); [apply Hc|apply Hc|].
  by eapply current_not_bumped.
Qed.

(** Between the wait for readers and the version store. *)
Definition writing (pc : rpc) : Prop :=
  match pc with
  | PcNextReader | PcReaderLocked | PcWaitReader _ | PcStore | PcLoadVersion
  | PcStoreVersion _ => True
  | _ => False
  end.

Lemma writing_ok x w th e : writing (rt_pc th) → pc_ok x w th e →
  ev_kind e = WR ∧ x = ev_ver e.
Proof. unfold pc_ok. destruct (rt_pc th); cbn; tauto. Qed.

Lemma writing_unique s t th k e x w t' th' k' e' x' w' :
  current s t th k e x w → current s t' th' k' e' x' w' → ev_obj e = ev_obj e' →
  writing (rt_pc th) → writing (rt_pc th') → t = t'.
Proof.
  intros [] [] Ho H1 H2.
  destruct (writing_ok _ _ _ _ H1 cu_pc0), (writing_ok _ _ _ _ H2 cu_pc1).
  assert (e = e') as ->.
  { apply (write_unique _ _ (ev_obj e')); try done. congruence. }
  congruence.
Qed.

(** While a thread is the writer of an object, the taken entries of the object's
    log are complete, but for the one it waits on. *)
Lemma writer_entry_done s t th k e x w j r :
  rinv s → current s t th k e x w → ev_kind e = WR → x = ev_ver e →
  Z.of_nat j < wr_n w → L (ev_obj e) !! j = Some r → rt_pc th ≠ PcWaitReader r →
  entry_done (memop_cnt s) r.
Proof.
  intros Hs Hc Ke Hx Hj Hr Hpc.
  destruct (wo_past _ _ _ _ (ri_log _ Hs _ _ _ (cu_ov _ _ _ _ _ _ _ Hc) (cu_wrl _ _ _ _ _ _ _ Hc))
    j r Hj Hr) as [?|(t' & th' & Ht' & Hp' & Ho')]; [done|].
  destruct (current_of _ _ _ _ Hs Ht' Ho') as (k' & e' & x' & w' & Hc').
  rewrite (cu_obj _ _ _ _ _ _ _ Hc') in Ho'. injection Ho' as Ho'.
  assert (ev_kind e' = WR ∧ x' = ev_ver e') as [Ke' Hx'].
  { eapply writing_ok; [|apply Hc']. by rewrite Hp'. }
  assert (e = e') as <-.
  { apply (write_unique _ _ (ev_obj e)); [apply Hc|apply Hc'|by split|by split|].
    pose proof (cu_ov _ _ _ _ _ _ _ Hc) as H1. pose proof (cu_ov _ _ _ _ _ _ _ Hc') as H2.
    rewrite Ho', H1 in H2. congruence. }
  destruct Hc, Hc'. simplify_eq.
Qed.

(** Once a writer has passed [wait_reader], every recorded read of the version
    it replaces is complete. *)
Lemma readers_done s t th k e x w f :
  rinv s → current s t th k e x w → ev_kind e = WR → x = ev_ver e →
  (∀ r, rt_pc th ≠ PcWaitReader r) → readers_passed w (ev_obj e) x →
  f ∈ E → ev_kind f = RD → ev_obj f = ev_obj e → ev_ver f = ev_ver e →
  ev_done (memop_cnt s) f.
Proof.
  intros Hs Hc Ke Hx Hpc Hnext Hf Kf Of Vf.
  destruct (rl_complete _ _ _ (rd_reader HR _ (cu_range _ _ _ _ _ _ _ Hc)) f Hf Kf Of)
    as [(r & Hr & Et & Ev & Hm)|(g & Hg & Tg & Wg & Vg)].
  - apply list_elem_of_lookup_1 in Hr as [j Hj].
    destruct (decide (Z.of_nat j < wr_n w)) as [Hlt|Hge].
    + destruct (writer_entry_done _ _ _ _ _ _ _ _ _ Hs Hc Ke Hx Hlt Hj (Hpc _)) as (n & Hn & ?).
      exists n. rewrite <- Et. split; [done|lia].
    + assert (x < rwm_version r) by (apply (Hnext j); [lia|done]). lia.
  - assert (g = e) as ->.
    { apply (write_unique _ _ (ev_obj e)); [done|apply Hc|done|by split|congruence]. }
    exists (ev_memop e). split.
    + rewrite <- Tg, (cu_tid _ _ _ _ _ _ _ Hc), (cu_cnt _ _ _ _ _ _ _ Hc).
      by rewrite (cu_memop _ _ _ _ _ _ _ Hc).
    + by apply (read_before_write f e (ev_obj e)); [|apply Hc|..].
Qed.

(** ** Frames *)

Definition cnt_le (c c' : gmap Z Z) : Prop :=
  ∀ t n, c !! t = Some n → ∃ n', c' !! t = Some n' ∧ n ≤ n'.

Lemma entry_done_le c c' r : cnt_le c c' → entry_done c r → entry_done c' r.
Proof. intros Hle (n & Hn & ?). destruct (Hle _ _ Hn) as (n' & ? & ?). exists n'. split; [done|lia]. Qed.

Lemma ev_done_le c c' e : cnt_le c c' → ev_done c e → ev_done c' e.
Proof. intros Hle (n & Hn & ?). destruct (Hle _ _ Hn) as (n' & ? & ?). exists n'. split; [done|lia]. Qed.

Lemma pc_ok_log x w w' th e : ¬ writing (rt_pc th) → pc_ok x w th e → pc_ok x w' th e.
Proof. unfold pc_ok. destruct (rt_pc th); cbn; tauto. Qed.

(** A thread past its version wait pins the version of its object, until it has
    stored the next one. *)
Lemma pc_ok_cases x w th e : pc_ok x w th e → before_wait (rt_pc th) = false →
  rt_pc th = PcWriteDone ∧ ev_ver e + 2 ≤ x ∨ rt_pc th ≠ PcWriteDone ∧ x = ev_ver e.
Proof.
  unfold pc_ok. destruct (rt_pc th); intros Hp Hb; try done;
    destruct_and?; solve [by right | by left].
Qed.

Lemma bumped_set_thr s s' t th th' e :
  r_thr s !! t = Some th → r_thr s' = <[t := th']> (r_thr s) → memop_cnt s' = memop_cnt s →
  (rt_pc th' = PcWriteDone ↔ rt_pc th = PcWriteDone) →
  bumped s' e ↔ bumped s e.
Proof.
  intros Hth Es Ec Hpc. unfold bumped. rewrite Es, Ec.
  destruct (decide (ev_tid e = t)) as [->|Hne].
  - rewrite lookup_insert_eq, Hth. naive_solver.
  - by rewrite lookup_insert_ne.
Qed.

Lemma storing_set_thr s s' t th th' o :
  r_thr s !! t = Some th → r_thr s' = <[t := th']> (r_thr s) →
  (storing o th' ↔ storing o th) →
  (∃ t th, r_thr s' !! t = Some th ∧ storing o th) ↔
  (∃ t th, r_thr s !! t = Some th ∧ storing o th).
Proof.
  intros Hth Es Hst. rewrite Es. split.
  - intros (t' & th'' & Ht & Hs). apply lookup_insert_Some in Ht as [[<- <-]|[? ?]]; [|eauto].
    exists t, th. tauto.
  - intros (t' & th'' & Ht & Hs). destruct (decide (t = t')) as [<-|Hne].
    + exists t, th'. rewrite lookup_insert_eq. split; [done|]. rewrite Hth in Ht. naive_solver.
    + exists t', th''. by rewrite lookup_insert_ne.
Qed.

(** A thread other than [t] is still there after a step of [t]. *)
Lemma other_set_thr (Q : rthread → Prop) s s' t th th' :
  r_thr s !! t = Some th → r_thr s' = <[t := th']> (r_thr s) → ¬ Q th →
  (∃ t th, r_thr s !! t = Some th ∧ Q th) → ∃ t th, r_thr s' !! t = Some th ∧ Q th.
Proof.
  intros Hth Es Hpc (t' & th'' & Ht & HQ). exists t', th''. rewrite Es.
  rewrite lookup_insert_ne; [done|]. congruence.
Qed.

(** The memory holds, for every object, the recorded values of its version. *)
Definition mem_ok (s : rstate) : Prop :=
  ∀ a x, obj_version s !! calc_objid a = Some x →
    ((∀ t th, r_thr s !! t = Some th → ¬ storing (calc_objid a) th) →
       r_mem s !! a = vmem mem0 E x a) ∧
    (∀ t th, r_thr s !! t = Some th → storing (calc_objid a) th →
       r_mem s !! a = vmem mem0 E (x + 2) a).

Lemma rinv_mem_ok s : rinv s → mem_ok s.
Proof. intros Hs a x Hx. split; [by apply (ri_mem _ Hs)|]. intros. by eapply (ri_mem_store _ Hs). Qed.

(** Steps that change at most the local state of thread [t] and the memory. *)
Lemma rinv_move s s' t th th' :
  rinv s → r_thr s !! t = Some th → r_thr s' = <[t := th']> (r_thr s) →
  memop_cnt s' = memop_cnt s → obj_version s' = obj_version s →
  wait_reader_log s' = wait_reader_log s →
  thread_ok (memop_cnt s) (obj_version s) (wait_reader_log s) t th' →
  (rt_pc th' = PcWriteDone ↔ rt_pc th = PcWriteDone) → rt_pc th ≠ PcReaderLocked →
  (∀ r, rt_pc th = PcWaitReader r → entry_done (memop_cnt s) r) →
  (∀ a, is_Some (r_mem s' !! a) ↔ is_Some (mem0 !! a)) → mem_ok s' → rinv s'.
Proof.
  intros Hs Hth Es Ec Eo Ew Hok Hwd Hlk Hwt Hmd Hm.
  assert (∀ e, bumped s' e ↔ bumped s e) as Hb by (intros; by eapply bumped_set_thr).
  constructor; rewrite ?Ec, ?Eo, ?Ew; try apply Hs; try done.
  - intros t'. rewrite Es, lookup_insert_is_Some', (ri_dom _ Hs). split; [|tauto].
    intros [<-|?]; [|done]. apply (ri_dom _ Hs). eauto.
  - intros t' th''. rewrite Es, lookup_insert_Some. intros [[<- <-]|[_ ?]]; [done|].
    by apply (ri_thr _ Hs).
  - intros e x He Hx. rewrite Hb. by apply (ri_pending _ Hs).
  - intros e x He Hx Hk. rewrite Hb. by apply (ri_bumped _ Hs).
  - intros o x w Hx Hw. destruct (ri_log _ Hs o x w Hx Hw). constructor; try done.
    + rewrite Ec. intros j r Hj Hr. destruct (wo_past0 j r Hj Hr) as [?|Hp]; [by left|].
      destruct (decide (entry_done (memop_cnt s) r)) as [?|Hn]; [by left|right].
      eapply other_set_thr; eauto. intros [? _]. by apply Hn, Hwt.
    + intros ?. eapply other_set_thr; eauto. tauto.
  - intros a x Hx Hn. by apply Hm; [rewrite Eo|].
  - intros a x t1 th1 Hx Ht1 Hs1. eapply Hm; [by rewrite Eo|done..].
Qed.

(** Steps that change nothing but the local state of thread [t]. *)
Lemma rinv_local s t th th' :
  rinv s → r_thr s !! t = Some th →
  thread_ok (memop_cnt s) (obj_version s) (wait_reader_log s) t th' →
  (rt_pc th' = PcWriteDone ↔ rt_pc th = PcWriteDone) →
  (∀ o, storing o th' ↔ storing o th) → rt_pc th ≠ PcReaderLocked →
  (∀ r, rt_pc th = PcWaitReader r → entry_done (memop_cnt s) r) →
  rinv (set_thr t th' s).
Proof.
  intros Hs Hth Hok Hwd Hst Hlk Hwt.
  apply (rinv_move s (set_thr t th' s) t th th'); try done; [apply Hs|].
  intros a x Hx. destruct (rinv_mem_ok _ Hs a x Hx) as [H1 H2].
  pose proof (storing_set_thr s (set_thr t th' s) t th th' _ Hth eq_refl (Hst (calc_objid a))) as Hiff.
  split.
  - intros Hn. apply H1. intros t1 th1 Ht1 Hs1.
    destruct (proj2 Hiff) as (t2 & th2 & Ht2 & Hs2); [by eauto|]. by eapply Hn.
  - intros t1 th1 Ht1 Hs1. destruct (proj1 Hiff) as (t2 & th2 & Ht2 & Hs2); eauto.
Qed.

(** The state of thread [t] after a step inside its current operation. *)
Lemma thread_ok_update s t th k e x w th' ov x' wrl w' :
  current s t th k e x w → rt_prog th' = rt_prog th →
  vlog_at t (if before_wait (rt_pc th') then Z.of_nat k else Z.of_nat k + 1)
    (rt_wait_version th') (rt_wait_version_log th') →
  ov !! ev_obj e = Some x' → wrl !! ev_obj e = Some w' → pc_ok x' w' th' e →
  thread_ok (memop_cnt s) ov wrl t th'.
Proof.
  intros [] Hp Hvl Hov Hw' Hpc. constructor.
  - exists k. split_and!; [done| |done].
    assert (drop k (tevents t E) = e :: drop (S k) (tevents t E)) as ->
      by by apply drop_S.
    rewrite Hp. destruct (rt_prog th); [done|..]; destruct_and!; by constructor.
  - intros k' e' x1 w1 Hk He Hx Hw. rewrite cu_cnt0 in Hk. injection Hk as Hk.
    apply Nat2Z.inj in Hk as <-. by simplify_eq.
  - intros r Hr. rewrite Hp in Hr. rewrite Hr in cu_obj0. done.
Qed.

Lemma thread_ok_same s t th k e x w th' wrl w' :
  current s t th k e x w → rt_prog th' = rt_prog th →
  vlog_at t (if before_wait (rt_pc th') then Z.of_nat k else Z.of_nat k + 1)
    (rt_wait_version th') (rt_wait_version_log th') →
  wrl !! ev_obj e = Some w' → pc_ok x w' th' e →
  thread_ok (memop_cnt s) (obj_version s) wrl t th'.
Proof. intros Hc ? ? ? ?. eapply thread_ok_update; eauto. apply Hc. Qed.

(** ** The version log of a thread *)

Lemma vlog_head t m wv R' : filter (λ e, m ≤ wv_memop e) (V t) = wv :: R' →
  wv ∈ V t ∧ m ≤ wv_memop wv ∧ ∀ r, r ∈ R' → wv_memop wv < wv_memop r ∧ 0 ≤ wv_memop r.
Proof.
  intros HR'. assert (∀ r, r ∈ wv :: R' → r ∈ V t ∧ m ≤ wv_memop r) as Hin.
  { intros r Hr. rewrite <- HR' in Hr. by apply list_elem_of_filter in Hr as [? ?]. }
  destruct (Hin wv) as [? ?]; [set_solver|]. split_and!; [done..|].
  intros r Hr. split.
  - pose proof (vl_sorted _ _ (rd_version HR t)) as Hs.
    destruct (list_elem_of_lookup_1 R' r Hr) as [j Hj].
    destruct (filter_lookup_lt (λ e, m ≤ wv_memop e) (V t) 0 (S j) wv r) as (i' & j' & Hij & Hi & Hj');
      [lia|by rewrite HR'..|].
    by apply (StronglySorted_lookup_lt _ _ _ _ _ _ Hs Hij Hi Hj').
  - destruct (Hin r) as [Hr' _]; [set_solver|]. apply (vl_sound _ _ (rd_version HR t) _ Hr').
Qed.

Lemma vlog_next t m wv log : 0 ≤ m → vlog_at t m wv log → wv_memop wv = m →
  wv ∈ V t ∧ ∃ wv' log', next_wait_version_log wv log = Ok (wv', log') ∧ vlog_at t (m + 1) wv' log'.
Proof.
  intros Hm [(_ & ? & _)|(R' & HR' & ->)] Ewv; [lia|].
  destruct (vlog_head _ _ _ _ HR') as (Hin & _ & Hgt). split; [done|].
  assert (filter (λ e, m + 1 ≤ wv_memop e) (V t) = R') as E1.
  { rewrite <- (filter_filter_le _ _ m) by lia. rewrite HR', filter_cons_False by lia.
    apply filter_all. intros r Hr. destruct (Hgt r Hr). lia. }
  unfold vlog_at. rewrite E1. destruct R' as [|r R']; cbn.
  - eexists _, _. split; [done|]. by left.
  - destruct (Hgt r) as [_ ?]; [set_solver|]. rewrite decide_False by lia.
    eexists _, _. split; [done|]. right. by exists R'.
Qed.

Lemma vlog_skip t m wv log : 0 ≤ m → vlog_at t m wv log → wv_memop wv ≠ m →
  vlog_at t (m + 1) wv log ∧ ∀ v, WaitVersion m v ∉ V t.
Proof.
  intros Hm Hvl Hne.
  assert (∀ r, r ∈ filter (λ e, m ≤ wv_memop e) (V t) → m + 1 ≤ wv_memop r) as Hall.
  { destruct Hvl as [(HR' & _ & _)|(R' & HR' & _)]; rewrite HR'; [set_solver|].
    destruct (vlog_head _ _ _ _ HR') as (_ & ? & Hgt). intros r Hr.
    apply elem_of_cons in Hr as [->|Hr]; [lia|]. destruct (Hgt r Hr). lia. }
  split.
  - unfold vlog_at. rewrite <- (filter_filter_le _ _ m), filter_all by (done || lia). done.
  - intros v Hv. assert (m + 1 ≤ m); [|lia].
    apply (Hall (WaitVersion m v)). apply list_elem_of_filter. cbn. split; [lia|done].
Qed.

(** The version wait of the current event, if it has one, is for its version. *)
Lemma vlog_version s t th k e x w : current s t th k e x w →
  rt_wait_version th ∈ V t → wv_memop (rt_wait_version th) = Z.of_nat k →
  wv_version (rt_wait_version th) = ev_ver e.
Proof.
  intros [] Hin Hk. destruct (vl_sound _ _ (rd_version HR t) _ Hin) as (_ & a & Ha & Ev).
  rewrite Hk, Nat2Z.id in Ha. apply taccs_lookup in Ha as (e' & He' & ->).
  rewrite cu_ev0 in He'. injection He' as <-. by rewrite <- Ev.
Qed.

(** An event without a version wait is at the initial version, or at that of an
    earlier event of its thread. *)
Lemma no_wait_cases s t th k e x w : current s t th k e x w →
  (∀ v, WaitVersion (Z.of_nat k) v ∉ V t) →
  ev_ver e = 0 ∨ ∃ f, f ∈ E ∧ ev_tid f = t ∧ ev_obj f = ev_obj e ∧ ev_ver f = ev_ver e ∧
    ev_done (memop_cnt s) f.
Proof.
  intros [] Hno. assert (taccs t E !! k = Some (ev_access e)) as Ha by (apply taccs_lookup; eauto).
  destruct (vl_complete _ _ (rd_version HR t) _ _ Ha) as [H1|[H1|(j & b & Hj & Hb & Eo & Ev)]].
  - by destruct (Hno (ev_ver e)).
  - by left.
  - right. apply taccs_lookup in Hb as (f & Hf & ->). cbn in *. exists f.
    assert (f ∈ tevents t E) as Hin by by eapply list_elem_of_lookup_2.
    apply tevents_elem in Hin as [Ht Hin]. split_and!; [done..|].
    exists (Z.of_nat k). rewrite Ht, (hw_memop _ _ _ _ _ HE _ _ _ Hf). split; [done|lia].
Qed.

(** It finds its version reached. *)
Lemma no_wait_reached s t th k e x w : rinv s → current s t th k e x w →
  rt_pc th ≠ PcWriteDone → (∀ v, WaitVersion (Z.of_nat k) v ∉ V t) → x = ev_ver e.
Proof.
  intros Hs Hc Hpc Hno. pose proof (current_le _ _ _ _ _ _ _ Hs Hc Hpc).
  pose proof (cu_ov _ _ _ _ _ _ _ Hc) as Hx.
  destruct (no_wait_cases _ _ _ _ _ _ _ Hc Hno) as [H0|(f & Hf & _ & Ho & Hv & Hd)].
  - destruct (ri_even _ Hs _ _ Hx). lia.
  - rewrite <- Ho in Hx. pose proof (ri_done _ Hs f x Hf Hx Hd). lia.
Qed.

(** ** Preservation, step by step *)

Definition step_ok (s : rstate) (t : Z) : Prop :=
  ∃ s', rstep calc_objid t s = Ok s' ∧ rinv s'.

(** Unfold a step of the thread whose current operation is [Hc]. *)
Ltac unfold_step Hc Hpc :=
  unfold step_ok, rstep;
  rewrite (cu_thr _ _ _ _ _ _ _ Hc), (cu_obj _ _ _ _ _ _ _ Hc), Hpc;
  cbn -[set_thr set_wrl set_pc];
  rewrite ?(arr_get_lookup _ _ _ (cu_cnt _ _ _ _ _ _ _ Hc)),
    ?(arr_get_lookup _ _ _ (cu_ov _ _ _ _ _ _ _ Hc)),
    ?(arr_get_lookup _ _ _ (cu_wrl _ _ _ _ _ _ _ Hc));
  cbn -[set_thr set_wrl set_pc].

(** The conditions of [rinv_local] that only look at program counters. *)
Ltac pc_side Hpc :=
  first
    [ done
    | by rewrite Hpc
    | by intros ? [_ ?]
    | rewrite Hpc; cbn; (done || naive_solver)
    | intros ?; rewrite Hpc; done
    | intros ?; unfold storing; rewrite Hpc; cbn; (done || naive_solver) ].

Section steps.
Context (s : rstate) (t : Z) (th : rthread) (k : nat) (e : event) (x : Z).
Context (w : replay_wait_memop_log) (Hs : rinv s) (Hc : current s t th k e x w).

(** A step that only moves thread [t] to [pc]. *)
Lemma goto_ok pc :
  before_wait pc = before_wait (rt_pc th) →
  pc_ok x w (set_pc pc th) e →
  pc ≠ PcWriteDone → rt_pc th ≠ PcWriteDone →
  (∀ o, storing o (set_pc pc th) ↔ storing o th) → rt_pc th ≠ PcReaderLocked →
  (∀ r, rt_pc th = PcWaitReader r → entry_done (memop_cnt s) r) →
  rinv (set_thr t (set_pc pc th) s).
Proof.
  intros Hb Hp H1 H2 H3 H4 H5. apply (rinv_local s t th); eauto; [apply Hc| |done].
  eapply (thread_ok_same s t th); eauto; [|apply Hc]. cbn. rewrite Hb. apply Hc.
Qed.

(** Passing the version wait to [after_wait]. *)
Lemma pass_wait_ok wv log :
  before_wait (rt_pc th) = true → x = ev_ver e → vlog_at t (Z.of_nat k + 1) wv log →
  rinv (set_thr t (RThread (rt_prog th) (after_wait (rt_prog th)) wv log) s).
Proof.
  intros Hb Hx Hvl. pose proof (cu_prog _ _ _ _ _ _ _ Hc) as Hr.
  apply (rinv_local s t th); [done|apply Hc|..].
  - eapply (thread_ok_same s t th); eauto; [|apply Hc|].
    + cbn. by destruct (rt_prog th).
    + unfold pc_ok; cbn. destruct (rt_prog th); cbn; naive_solver.
  - cbn. destruct (rt_pc th), (rt_prog th); done.
  - intros o. unfold storing. cbn. destruct (rt_pc th), (rt_prog th); cbn in *; naive_solver.
  - destruct (rt_pc th); done.
  - intros ? E1. rewrite E1 in Hb. done.
Qed.

Lemma step_start : rt_pc th = PcStart → step_ok s t.
Proof.
  intros Hpc. unfold_step Hc Hpc. pose proof (cu_vlog _ _ _ _ _ _ _ Hc) as Hvl.
  rewrite Hpc in Hvl; cbn in Hvl. case_decide as Hk.
  - eexists. split; [done|]. destruct (vlog_next _ _ _ _ (Nat2Z.is_nonneg k) Hvl (eq_sym Hk)) as [Hin _].
    apply goto_ok; try pc_side Hpc. unfold pc_ok; cbn. split.
    + by eapply vlog_version.
    + by rewrite (cu_memop _ _ _ _ _ _ _ Hc).
  - eexists. split; [done|].
    destruct (vlog_skip _ _ _ _ (Nat2Z.is_nonneg k) Hvl (not_eq_sym Hk)) as [Hvl' Hno].
    apply pass_wait_ok; [by rewrite Hpc| |done].
    eapply no_wait_reached; eauto. by rewrite Hpc.
Qed.

Lemma step_wait_version : rt_pc th = PcWaitVersion → step_ok s t.
Proof.
  intros Hpc. unfold_step Hc Hpc. pose proof (cu_pc _ _ _ _ _ _ _ Hc) as Hp.
  unfold pc_ok in Hp. rewrite Hpc in Hp. case_decide as Hv; [by exists s|].
  eexists. split; [done|]. apply goto_ok; try pc_side Hpc. unfold pc_ok; cbn. naive_solver lia.
Qed.

Lemma step_check_version : rt_pc th = PcCheckVersion → step_ok s t.
Proof.
  intros Hpc. unfold_step Hc Hpc. pose proof (cu_pc _ _ _ _ _ _ _ Hc) as Hp.
  unfold pc_ok in Hp. rewrite Hpc in Hp. destruct Hp as (Ev & Em & Hle).
  pose proof (current_le _ _ _ _ _ _ _ Hs Hc ltac:(by rewrite Hpc)).
  rewrite c_assert_true by lia. cbn -[set_thr].
  pose proof (cu_vlog _ _ _ _ _ _ _ Hc) as Hvl. rewrite Hpc in Hvl; cbn in Hvl.
  rewrite (cu_memop _ _ _ _ _ _ _ Hc) in Em.
  destruct (vlog_next _ _ _ _ (Nat2Z.is_nonneg k) Hvl Em) as (_ & wv & log & -> & Hvl'). cbn -[set_thr].
  eexists. split; [done|]. apply pass_wait_ok; [by rewrite Hpc|lia|done].
Qed.

Lemma step_wait_reader r : rt_pc th = PcWaitReader r → step_ok s t.
Proof.
  intros Hpc. unfold_step Hc Hpc. pose proof (cu_pc _ _ _ _ _ _ _ Hc) as Hp.
  unfold pc_ok in Hp. rewrite Hpc in Hp. destruct Hp as (Ke & Hx & Hr & Hrv).
  destruct (current_write _ _ _ _ _ _ _ Hc Ke) as (p & Ep & Htr). rewrite Ep.
  destruct (rl_sound _ _ _ (rd_reader HR _ (cu_range _ _ _ _ _ _ _ Hc)) r Hr)
    as (f & Hf & Tf & _). destruct (hw_event _ _ _ _ _ HE _ Hf) as (_ & _ & Hpf).
  rewrite Tf in Hpf. destruct (proj2 (ri_dom _ Hs _) Hpf) as [thf Hthf].
  destruct (to_cnt _ _ _ _ _ (ri_thr _ Hs _ _ Hthf)) as (kf & Hkf & _).
  rewrite (arr_get_lookup _ _ _ Hkf). cbn -[set_thr set_pc].
  case_decide as Hle; [by exists s|]. eexists. split; [done|].
  apply goto_ok; try pc_side Hpc.
  intros r2. rewrite Hpc. intros [= <-]. exists (Z.of_nat kf). split; [done|lia].
Qed.

Lemma step_load_version : rt_pc th = PcLoadVersion → step_ok s t.
Proof.
  intros Hpc. unfold_step Hc Hpc. pose proof (cu_pc _ _ _ _ _ _ _ Hc) as Hp.
  unfold pc_ok in Hp. rewrite Hpc in Hp. destruct Hp as (Ke & Hx & Hrp).
  destruct (current_write _ _ _ _ _ _ _ Hc Ke) as (p & Ep & Htr). rewrite Ep.
  eexists. split; [done|]. apply goto_ok; by pc_side Hpc.
Qed.

(** No value is being replaced under a pending read of the current version. *)
Lemma no_storing t' th' : ev_kind e = RD → x = ev_ver e →
  r_thr s !! t' = Some th' → ¬ storing (ev_obj e) th'.
Proof.
  intros Ke Hx Ht' [Ho' Hst]. destruct (current_of _ _ _ _ Hs Ht' Ho') as (k' & e' & x' & w' & Hc').
  pose proof (cu_obj _ _ _ _ _ _ _ Hc') as Ho. rewrite Ho' in Ho. injection Ho as Ho.
  assert (ev_kind e' = WR ∧ x' = ev_ver e' ∧ readers_passed w' (ev_obj e') x') as (Ke' & Hx' & Hrp).
  { pose proof (cu_pc _ _ _ _ _ _ _ Hc') as Hp. unfold pc_ok in Hp.
    destruct (rt_pc th'); try done; naive_solver. }
  apply (current_not_done _ _ _ _ _ _ _ Hc).
  eapply (readers_done s t' th' k' e' x' w'); eauto; [|apply Hc|].
  - intros r Hr. by rewrite Hr in Hst.
  - pose proof (cu_ov _ _ _ _ _ _ _ Hc) as H1. pose proof (cu_ov _ _ _ _ _ _ _ Hc') as H2.
    rewrite <- Ho, H1 in H2. congruence.
Qed.

Lemma step_load : rt_pc th = PcLoad → step_ok s t.
Proof.
  intros Hpc. unfold_step Hc Hpc. pose proof (cu_pc _ _ _ _ _ _ _ Hc) as Hp.
  unfold pc_ok in Hp. rewrite Hpc in Hp. destruct Hp as (Ke & Hx).
  destruct (current_read _ _ _ _ _ _ _ Hc Ke) as (f & Ep & Htr). rewrite Ep.
  destruct (hw_event _ _ _ _ _ HE _ (cu_in _ _ _ _ _ _ _ Hc)) as (Eo & _).
  assert (r_mem s !! ev_addr e = Some (ev_val e)) as Hv.
  { rewrite <- (hw_val _ _ _ _ _ HE e (cu_in _ _ _ _ _ _ _ Hc) Ke), <- Hx.
    apply (ri_mem _ Hs); rewrite <- Eo; [apply Hc|]. intros. by apply no_storing with t0. }
  rewrite (arr_get_lookup _ _ _ Hv). cbn -[set_thr set_pc]. eexists. split; [done|].
  apply goto_ok; by pc_side Hpc.
Qed.

(** The state after [memop++] at the end of an operation. *)
Definition counted (p : prog) : rstate :=
  RState (r_mem s) (obj_version s) (<[t := Z.of_nat k + 1]> (memop_cnt s)) (wait_reader_log s)
    (<[t := RThread p PcStart (rt_wait_version th) (rt_wait_version_log th)]> (r_thr s)).

Lemma counted_le p : cnt_le (memop_cnt s) (memop_cnt (counted p)).
Proof.
  intros t' n Hn. cbn. destruct (decide (t = t')) as [<-|Hne].
  - rewrite lookup_insert_eq. rewrite (cu_cnt _ _ _ _ _ _ _ Hc) in Hn. injection Hn as <-.
    eexists. split; [done|lia].
  - rewrite lookup_insert_ne by done. eauto with lia.
Qed.

Lemma counted_done p f : f ∈ E → ev_done (memop_cnt (counted p)) f →
  ev_done (memop_cnt s) f ∨ f = e.
Proof.
  intros Hf (n & Hn & Hlt). cbn in Hn. destruct (decide (ev_tid f = t)) as [Et|Hne].
  - rewrite Et, lookup_insert_eq in Hn. injection Hn as <-.
    destruct (decide (ev_memop f = Z.of_nat k)) as [Em|Em].
    + right. apply ev_inj; [done|apply Hc|..]; destruct Hc; congruence.
    + left. exists (Z.of_nat k). rewrite Et, (cu_cnt _ _ _ _ _ _ _ Hc). split; [done|lia].
  - rewrite lookup_insert_ne in Hn by done. left. by exists n.
Qed.

Lemma counted_bumped p f : bumped s f → bumped (counted p) f.
Proof.
  intros [Hd|(Hm & th' & Hth & Hp)]; [left; by eapply ev_done_le, Hd; apply counted_le|].
  destruct (decide (ev_tid f = t)) as [Et|Hne].
  - left. exists (Z.of_nat k + 1). cbn. rewrite Et, lookup_insert_eq. split; [done|].
    rewrite Et, (cu_cnt _ _ _ _ _ _ _ Hc) in Hm. injection Hm. lia.
  - right. cbn. rewrite !lookup_insert_ne by done. eauto.
Qed.

Lemma rinv_count p :
  ev_ver e ≤ x → (ev_kind e = WR → rt_pc th = PcWriteDone) →
  rt_pc th ≠ PcReaderLocked → (∀ r', rt_pc th ≠ PcWaitReader r') →
  (∀ o, ¬ storing o th) → before_wait (rt_pc th) = false →
  prog_trace p (drop (S k) (tevents t E)) (PRet (res t)) → rinv (counted p).
Proof.
  intros Hx Hwr Hlk Hwt Hst Hb Htr. constructor; try apply Hs; cbn [counted r_thr].
  - intros t'. rewrite lookup_insert_is_Some', (ri_dom _ Hs). split; [|tauto].
    intros [<-|?]; [|done]. apply (ri_dom _ Hs). destruct Hc. eauto.
  - intros t' th'. rewrite lookup_insert_Some. intros [[<- <-]|[Hne Ht']].
    + constructor; cbn; [|by intros|done]. exists (S k).
      rewrite lookup_insert_eq. pose proof (cu_vlog _ _ _ _ _ _ _ Hc) as Hvl.
      rewrite Hb in Hvl. split_and!; [f_equal; lia|done|].
      replace (Z.of_nat (S k)) with (Z.of_nat k + 1) by lia. done.
    + destruct (ri_thr _ Hs _ _ Ht').
      assert (∀ n, <[t := n]> (memop_cnt s) !! t' = memop_cnt s !! t') as Ec
        by (intros; by rewrite lookup_insert_ne).
      constructor; cbn; [by setoid_rewrite Ec| |done]. intros k' f y wl. rewrite Ec. eauto.
  - intros f y Hf Hy Hnb. apply (ri_pending _ Hs); [done..|].
    intros ?. by apply Hnb, counted_bumped.
  - intros f y Hf Hy Kf [Hd|(Hm & th' & Hth & Hp)]; apply (ri_bumped _ Hs); try done.
    + destruct (counted_done _ _ Hf Hd) as [?| ->]; [by left|]. right.
      destruct Hc. rewrite cu_tid0, cu_memop0. eauto.
    + right. cbn in *. destruct (decide (ev_tid f = t)) as [Et|?].
      * rewrite Et, lookup_insert_eq in Hth. by simplify_eq/=.
      * rewrite lookup_insert_ne in Hm by done. rewrite lookup_insert_ne in Hth by done. eauto.
  - intros f y Hf Hy Hd. destruct (counted_done _ _ Hf Hd) as [?| ->]; [by apply (ri_done _ Hs)|].
    cbn in Hy. destruct Hc. simplify_eq. done.
  - intros o y wl Hy Hwl. destruct (ri_log _ Hs o y wl Hy Hwl). constructor; try done.
    + intros j r' Hj Hr. destruct (wo_past0 j r' Hj Hr) as [?|?].
      * left. eapply entry_done_le; [apply counted_le|done].
      * right. eapply (other_set_thr _ s (counted p) t th _ (cu_thr _ _ _ _ _ _ _ Hc) eq_refl);
          [naive_solver|done].
    + intros ?. eapply (other_set_thr _ s (counted p) t th _ (cu_thr _ _ _ _ _ _ _ Hc) eq_refl);
        [naive_solver|auto].
  - intros a y Hy Hn. apply (ri_mem _ Hs); [done|]. intros t1 th1 Ht1 Hs1.
    eapply (Hn t1 th1); [|done]. rewrite lookup_insert_ne; [done|].
    intros <-. destruct Hc. simplify_eq. by eapply Hst.
  - intros a y t1 th1 Hy. rewrite lookup_insert_Some. intros [[<- <-]|[_ Ht1]] Hs1.
    + by destruct Hs1.
    + by eapply (ri_mem_store _ Hs).
Qed.

Lemma step_read_done val : rt_pc th = PcReadDone val → step_ok s t.
Proof.
  intros Hpc. unfold_step Hc Hpc. pose proof (cu_pc _ _ _ _ _ _ _ Hc) as Hp.
  unfold pc_ok in Hp. rewrite Hpc in Hp. destruct Hp as (Ke & Hx & ->).
  destruct (current_read _ _ _ _ _ _ _ Hc Ke) as (f & -> & Htr).
  eexists. split; [done|]. apply rinv_count; try pc_side Hpc; [lia|congruence].
Qed.

Lemma step_write_done : rt_pc th = PcWriteDone → step_ok s t.
Proof.
  intros Hpc. unfold_step Hc Hpc. pose proof (cu_pc _ _ _ _ _ _ _ Hc) as Hp.
  unfold pc_ok in Hp. rewrite Hpc in Hp. destruct Hp as (Ke & Hx).
  destruct (current_write _ _ _ _ _ _ _ Hc Ke) as (p & -> & Htr).
  eexists. split; [done|]. apply rinv_count; try pc_side Hpc; lia.
Qed.

(** The other threads at the object of a writer are not writing. *)
Lemma other_not_writing t' th' k' e' x' w' : writing (rt_pc th) →
  current s t' th' k' e' x' w' → t ≠ t' → ev_obj e' = ev_obj e → ¬ writing (rt_pc th').
Proof. intros Hw Hc' Hne Ho Hw'. apply Hne. by eapply (writing_unique s t th k e x w). Qed.

(** A step of the writer on the object's reader log. *)
Lemma rinv_log pc w' :
  let s' := set_thr t (set_pc pc th) (set_wrl (ev_obj e) w' s) in
  writing (rt_pc th) → before_wait pc = false → pc ≠ PcWriteDone →
  (∀ o, ¬ storing o th) → (∀ o, ¬ storing o (set_pc pc th)) →
  pc_ok x w' (set_pc pc th) e → wrl_ok s' (ev_obj e) x w' → rinv s'.
Proof.
  intros s' Hw Hb Hwd Hst Hst' Hp Hok.
  assert (rt_pc th ≠ PcWriteDone ∧ before_wait (rt_pc th) = false) as [Hwd' Hb'].
  { destruct (rt_pc th); done. }
  pose proof (cu_thr _ _ _ _ _ _ _ Hc) as Hth.
  assert (∀ f, bumped s' f ↔ bumped s f) as Hbu.
  { intros f. by apply (bumped_set_thr s s' t th (set_pc pc th)). }
  constructor; try apply Hs; cbn [s' set_thr set_wrl r_thr wait_reader_log obj_version memop_cnt r_mem].
  - intros t'. rewrite lookup_insert_is_Some', (ri_dom _ Hs). split; [|tauto].
    intros [<-|?]; [|done]. apply (ri_dom _ Hs). eauto.
  - intros o. rewrite lookup_insert_is_Some', (ri_wrl _ Hs). split; [|tauto].
    intros [<-|?]; [|done]. apply Hc.
  - intros t' th'. rewrite lookup_insert_Some. intros [[<- <-]|[Hne Ht']].
    + eapply (thread_ok_same s t th); eauto; [|by rewrite lookup_insert_eq].
      cbn. pose proof (cu_vlog _ _ _ _ _ _ _ Hc) as Hvl. rewrite Hb' in Hvl. by rewrite Hb.
    + destruct (ri_thr _ Hs _ _ Ht') as [H1 H2 H3]. constructor; [done| |done].
      intros k' e' x' w1 Hk' He' Hx'. rewrite lookup_insert_Some. intros [[Eo <-]|[_ Hw1]]; [|eauto].
      rewrite <- Eo in Hx'. assert (x' = x) as -> by (destruct Hc; congruence).
      destruct (cur_obj calc_objid (rt_prog th')) as [o'|] eqn:Eo'.
      * destruct (current_of _ _ _ _ Hs Ht' Eo') as (k2 & e2 & x2 & w2 & Hc2).
        assert (k2 = k' ∧ e2 = e') as [-> ->].
        { destruct Hc2. rewrite Hk' in cu_cnt0. injection cu_cnt0 as E1.
          apply Nat2Z.inj in E1 as ->. split; congruence. }
        eapply pc_ok_log; [eapply (other_not_writing t'); eauto|].
        destruct Hc2. apply (H2 k' e' x w2); congruence.
      * unfold pc_ok. destruct (rt_prog th') eqn:Epr; try done. by rewrite (H3 _ eq_refl).
  - intros f y Hf Hy. rewrite Hbu. by apply (ri_pending _ Hs).
  - intros f y Hf Hy Kf. rewrite Hbu. by apply (ri_bumped _ Hs).
  - intros o y wl Hy. rewrite lookup_insert_Some. intros [[<- <-]|[Hne Hwl]].
    { assert (y = x) as -> by (destruct Hc; congruence). done. }
    destruct (ri_log _ Hs o y wl Hy Hwl). pose proof (cu_obj _ _ _ _ _ _ _ Hc) as Ho.
    constructor; try done.
    + intros j r Hj Hr. destruct (wo_past0 j r Hj Hr) as [?|?]; [by left|right].
      eapply (other_set_thr _ s s' t th _ Hth eq_refl); [naive_solver|done].
    + intros ?. eapply (other_set_thr _ s s' t th _ Hth eq_refl); [naive_solver|auto].
  - intros a y Hy Hn. apply (ri_mem _ Hs); [done|]. intros t1 th1 Ht1 Hs1.
    eapply (Hn t1 th1); [|done]. rewrite lookup_insert_ne; [done|].
    intros <-. simplify_eq. by eapply Hst.
  - intros a y t1 th1 Hy. rewrite lookup_insert_Some. intros [[<- <-]|[_ Ht1]] Hs1.
    + by eapply Hst' in Hs1.
    + by eapply (ri_mem_store _ Hs).
Qed.

(** [pthread_mutex_trylock] never finds the mutex held. *)
Lemma mutex_free : writing (rt_pc th) → rt_pc th ≠ PcReaderLocked → wr_mutex w = false.
Proof.
  intros Hw Hpc. destruct (wr_mutex w) eqn:Em; [|done].
  destruct (wo_mutex _ _ _ _ (ri_log _ Hs _ _ _ (cu_ov _ _ _ _ _ _ _ Hc) (cu_wrl _ _ _ _ _ _ _ Hc)) Em)
    as (t' & th' & Ht' & Hp' & Ho').
  destruct (current_of _ _ _ _ Hs Ht' Ho') as (k' & e' & x' & w' & Hc').
  assert (t = t') as <-; [|destruct Hc; congruence].
  eapply (writing_unique s t th k e x w t' th'); eauto; [|by rewrite Hp'].
  rewrite (cu_obj _ _ _ _ _ _ _ Hc') in Ho'. congruence.
Qed.

Lemma step_next_reader : rt_pc th = PcNextReader → step_ok s t.
Proof.
  intros Hpc. unfold_step Hc Hpc. pose proof (cu_pc _ _ _ _ _ _ _ Hc) as Hp.
  unfold pc_ok in Hp. rewrite Hpc in Hp. destruct Hp as (Ke & Hx).
  destruct (current_write _ _ _ _ _ _ _ Hc Ke) as (p & Ep & Htr). rewrite Ep.
  rewrite mutex_free by (by rewrite Hpc). eexists. split; [done|].
  apply rinv_log; try pc_side Hpc.
  destruct (ri_log _ Hs _ _ _ (cu_ov _ _ _ _ _ _ _ Hc) (cu_wrl _ _ _ _ _ _ _ Hc)).
  constructor; try done.
  - intros j r' Hj Hr. cbn in Hj. left. cbn.
    eapply (writer_entry_done s t th k e x w); eauto. by rewrite Hpc.
  - intros _. exists t, (set_pc PcReaderLocked th). cbn. rewrite lookup_insert_eq.
    split_and!; [done..|]. apply Hc.
Qed.

Lemma step_reader_locked : rt_pc th = PcReaderLocked → step_ok s t.
Proof.
  intros Hpc. unfold_step Hc Hpc. pose proof (cu_pc _ _ _ _ _ _ _ Hc) as Hp.
  unfold pc_ok in Hp. rewrite Hpc in Hp. destruct Hp as (Ke & Hx).
  destruct (current_write _ _ _ _ _ _ _ Hc Ke) as (p & Ep & Htr). rewrite Ep.
  destruct (ri_log _ Hs _ _ _ (cu_ov _ _ _ _ _ _ _ Hc) (cu_wrl _ _ _ _ _ _ _ Hc)).
  assert (∀ j r', Z.of_nat j < wr_n w → L (ev_obj e) !! j = Some r' →
            entry_done (memop_cnt s) r') as Hdone.
  { intros j r' Hj Hr. eapply (writer_entry_done s t th k e x w); eauto. by rewrite Hpc. }
  unfold next_reader_memop. case_decide as Hsz; cbn -[set_thr set_wrl set_pc].
  { eexists. split; [done|]. apply rinv_log; try pc_side Hpc.
    - unfold pc_ok; cbn. split_and!; [done..|]. intros j r' Hj Hr.
      apply lookup_lt_Some in Hr. cbn in Hj. lia.
    - constructor; try done. intros j r' Hj Hr. left. by eapply Hdone. }
  destruct (lookup_lt_is_Some_2 (L (ev_obj e)) (Z.to_nat (wr_n w))) as [r1 Hr1]; [lia|].
  assert (wr_log w !! Z.to_nat (wr_n w) = Some r1) as ->.
  { rewrite <- wo_list0, lookup_take_lt in Hr1 by lia. done. }
  assert (x ≤ rwm_version r1) as Hle by (apply (wo_next0 (Z.to_nat (wr_n w))); [lia|done]).
  rewrite c_assert_true by done. cbn -[set_thr set_wrl set_pc]. case_decide as Hd.
  - eexists. split; [done|]. apply rinv_log; try pc_side Hpc.
    + unfold pc_ok; cbn. split_and!; [done..| |lia]. by eapply list_elem_of_lookup_2.
    + constructor; try done; cbn; [lia| |].
      * intros j r' Hj Hr. destruct (decide (Z.of_nat j < wr_n w)); [left; by eapply Hdone|].
        right. exists t, (set_pc (PcWaitReader r1) th). rewrite lookup_insert_eq.
        assert (j = Z.to_nat (wr_n w)) as -> by lia. split_and!; [done|cbn; congruence|apply Hc].
      * intros j r' Hj Hr. apply (wo_next0 j); [lia|done].
  - eexists. split; [done|]. apply rinv_log; try pc_side Hpc.
    + unfold pc_ok; cbn. split_and!; [done..|]. intros j r' Hj Hr. cbn in Hj.
      assert (rwm_version r1 ≤ rwm_version r'); [|lia].
      destruct (decide (j = Z.to_nat (wr_n w))) as [->|Hne]; [simplify_eq; lia|].
      apply (StronglySorted_lookup_lt _ _ (Z.to_nat (wr_n w)) j r1 r'
        (rl_sorted _ _ _ (rd_reader HR _ (cu_range _ _ _ _ _ _ _ Hc)))); [lia|done..].
    + constructor; try done. intros j r' Hj Hr. left. by eapply Hdone.
Qed.

(** The value of an address of the writer's object one version later. *)
Lemma vmem_next a : ev_kind e = WR → x = ev_ver e → calc_objid a = ev_obj e →
  vmem mem0 E (x + 2) a = if decide (ev_addr e = a) then Some (ev_val e) else vmem mem0 E x a.
Proof.
  intros Ke Hx Ha. pose proof (cu_in _ _ _ _ _ _ _ Hc) as Hin. case_decide as Hd.
  - subst a. destruct (list_elem_of_lookup_1 _ _ Hin) as [i Hi].
    apply (vmem_write _ _ i); [done..|lia|]. intros j f Hij Hf Kf Af.
    destruct (hw_event _ _ _ _ _ HE f) as (Of & _); [by eapply list_elem_of_lookup_2|].
    destruct (hw_mono _ _ _ _ _ HE i j e f Hij Hi Hf) as [_ Hm]; [congruence|].
    specialize (Hm Ke). lia.
  - apply vmem_ext. intros f Hf Kf Af. split; [|lia]. intros Hlt.
    destruct (hw_event _ _ _ _ _ HE f Hf) as (Of & _).
    destruct (decide (ev_ver f < x)) as [?|Hge]; [done|].
    destruct (hw_even _ _ _ _ _ HE f Hf) as [_ Ef], (hw_even _ _ _ _ _ HE e Hin) as [_ Ee].
    destruct (decide (x < ev_ver f)).
    + assert (ev_ver e + 2 ≤ ev_ver f); [|lia]. by apply even_gap; [..|lia].
    + assert (f = e) as ->; [|done].
      apply (write_unique _ _ (ev_obj e)); [done..|by split; congruence|by split|lia].
Qed.

Lemma writer_not_storing o t' th' : writing (rt_pc th) → t' ≠ t → o = ev_obj e →
  r_thr s !! t' = Some th' → ¬ storing o th'.
Proof.
  intros Hw Hne -> Ht' [Ho' Hst]. destruct (current_of _ _ _ _ Hs Ht' Ho') as (k' & e' & x' & w' & Hc').
  eapply (other_not_writing t' th'); eauto.
  - rewrite (cu_obj _ _ _ _ _ _ _ Hc') in Ho'. congruence.
  - destruct (rt_pc th'); done.
Qed.

(** Memory after the value store. *)
Lemma store_mem_ok : let s' := set_thr t (set_pc PcLoadVersion th)
    (RState (<[ev_addr e := ev_val e]> (r_mem s)) (obj_version s) (memop_cnt s)
       (wait_reader_log s) (r_thr s)) in
  rt_pc th = PcStore → ev_kind e = WR → x = ev_ver e → mem_ok s'.
Proof.
  intros s' Hpc Ke Hx a y Hy. cbn in Hy.
  destruct (hw_event _ _ _ _ _ HE _ (cu_in _ _ _ _ _ _ _ Hc)) as (Eo & _).
  assert (writing (rt_pc th)) as Hw by (by rewrite Hpc).
  pose proof (cu_thr _ _ _ _ _ _ _ Hc) as Hth.
  assert (∀ o, ¬ storing o th) as Hns by (intros o [_ Ho]; by rewrite Hpc in Ho).
  assert (storing (ev_obj e) (set_pc PcLoadVersion th)) as Hsto by (split; [apply Hc|done]).
  destruct (rinv_mem_ok _ Hs a y Hy) as [H1 H2]. cbn.
  destruct (decide (calc_objid a = ev_obj e)) as [Ea|Ea]; split.
  - intros Hn. exfalso. eapply (Hn t); [by rewrite lookup_insert_eq|]. by rewrite Ea.
  - intros _ _ _ _. assert (y = x) as -> by (destruct Hc; congruence).
    rewrite vmem_next by done. case_decide as Hd; [subst; by rewrite lookup_insert_eq|].
    rewrite lookup_insert_ne by done. apply H1. intros t2 th2 Ht2 Hs2.
    destruct (decide (t2 = t)) as [->|?]; [simplify_eq; by eapply Hns|].
    by eapply (writer_not_storing (calc_objid a) t2 th2).
  - rewrite (lookup_insert_ne _ (ev_addr e)) by congruence. intros Hn. apply H1.
    intros t1 th1 Ht1 Hs1. eapply (Hn t1 th1); [|done]. rewrite lookup_insert_ne; [done|].
    intros <-. simplify_eq. by eapply Hns.
  - rewrite (lookup_insert_ne _ (ev_addr e)) by congruence. intros t1 th1.
    rewrite lookup_insert_Some. intros [[<- <-]|[_ Ht1]] Hs1; [|by eauto].
    exfalso. apply Ea. destruct Hs1 as [Ho1 _], Hsto as [Ho2 _]. congruence.
Qed.

Lemma step_store : rt_pc th = PcStore → step_ok s t.
Proof.
  intros Hpc. unfold_step Hc Hpc. pose proof (cu_pc _ _ _ _ _ _ _ Hc) as Hp.
  unfold pc_ok in Hp. rewrite Hpc in Hp. destruct Hp as (Ke & Hx & Hrp).
  destruct (current_write _ _ _ _ _ _ _ Hc Ke) as (p & Ep & Htr). rewrite Ep.
  destruct (cu_mem _ _ _ _ _ _ _ Hc) as [old Hold]. rewrite (arr_set_lookup _ _ _ _ Hold).
  cbn -[set_thr set_pc]. eexists. split; [done|].
  eapply (rinv_move s _ t th); try done; try apply Hc; try pc_side Hpc.
  - eapply (thread_ok_same s t th); eauto; [|apply Hc|done].
    pose proof (cu_vlog _ _ _ _ _ _ _ Hc) as Hvl. by rewrite Hpc in Hvl.
  - intros a. cbn. rewrite lookup_insert_is_Some', (ri_memdom _ Hs). split; [|tauto].
    intros [<-|?]; [|done]. apply (rd_mem HR). apply Hc.
  - by apply store_mem_ok.
Qed.

(** After the version store every pending event of the object is past it. *)
Lemma pending_after f :
  (∀ r, rt_pc th ≠ PcWaitReader r) → ev_kind e = WR → x = ev_ver e →
  readers_passed w (ev_obj e) x →
  f ∈ E → ev_obj f = ev_obj e → f ≠ e → ¬ bumped s f → x + 2 ≤ ev_ver f.
Proof.
  intros Hpc Ke Hx Hrp Hf Of Hne Hnb.
  assert (x ≤ ev_ver f) as Hle.
  { apply (ri_pending _ Hs); [done| |done]. rewrite Of. apply Hc. }
  pose proof (cu_in _ _ _ _ _ _ _ Hc) as Hin.
  destruct (hw_even _ _ _ _ _ HE f Hf) as [_ Ef], (hw_even _ _ _ _ _ HE e Hin) as [_ Ee].
  destruct (decide (ev_ver f = ev_ver e)) as [Ev|Ev].
  - exfalso. destruct (ev_kind f) eqn:Kf.
    + apply Hnb. left. by eapply (readers_done s t th k e x w).
    + apply Hne. apply (write_unique _ _ (ev_obj e)); done.
  - rewrite Hx. apply even_gap; [done..|lia].
Qed.

Section bump.
Context (Hpc : rt_pc th = PcStoreVersion x) (Ke : ev_kind e = WR) (Hx : x = ev_ver e).
Context (Hrp : readers_passed w (ev_obj e) x).

(** The state after the version store. *)
Definition bump : rstate :=
  set_thr t (set_pc PcWriteDone th)
    (RState (r_mem s) (<[ev_obj e := x + 2]> (obj_version s)) (memop_cnt s)
       (wait_reader_log s) (r_thr s)).

Lemma bump_ov o y : obj_version bump !! o = Some y →
  o = ev_obj e ∧ y = x + 2 ∨ o ≠ ev_obj e ∧ obj_version s !! o = Some y.
Proof. cbn. rewrite lookup_insert_Some. naive_solver. Qed.

Lemma bump_bumped f : f ∈ E → bumped bump f ↔ bumped s f ∨ f = e.
Proof.
  intros Hf. unfold bumped. cbn. destruct (decide (ev_tid f = t)) as [Et|Hne].
  - rewrite Et, lookup_insert_eq, (cu_thr _ _ _ _ _ _ _ Hc), (cu_cnt _ _ _ _ _ _ _ Hc). split.
    + intros [?|[Em _]]; [by auto|]. right.
      apply ev_inj; [done|apply Hc|..]; destruct Hc; congruence.
    + intros [[?|(_ & th' & [= <-] & ?)]| ->]; [by auto|congruence|].
      right. rewrite (cu_memop _ _ _ _ _ _ _ Hc). eauto.
  - rewrite lookup_insert_ne by done. split; [tauto|].
    intros [?| ->]; [done|]. by destruct Hne; apply Hc.
Qed.

Lemma bump_thread t' th' : t ≠ t' → r_thr s !! t' = Some th' →
  thread_ok (memop_cnt s) (obj_version bump) (wait_reader_log s) t' th'.
Proof.
  intros Hne Ht'. destruct (ri_thr _ Hs _ _ Ht') as [H1 H2 H3]. constructor; [done| |done].
  intros k' e' y w' Hk' He' Hy Hw'. apply bump_ov in Hy as [[Eo ->]|[_ Hy]]; [|by eauto].
  assert (e' ∈ tevents t' E) as Hin by by eapply list_elem_of_lookup_2.
  apply tevents_elem in Hin as [Ht Hin].
  assert (pc_ok x w' th' e') as Hp by (apply (H2 k'); try done; rewrite Eo; apply Hc).
  destruct (before_wait (rt_pc th')) eqn:Hb.
  { unfold pc_ok in *. destruct (rt_pc th'); try done. destruct_and!. split_and!; [done..|lia]. }
  destruct (pc_ok_cases _ _ _ _ Hp Hb) as [[Epc Hle]|[Epc Ex]].
  { unfold pc_ok in *. rewrite Epc in *. destruct Hp. split; [done|lia]. }
  exfalso.
  assert (¬ bumped s e') as Hnb.
  { intros [(n & Hn & ?)|(_ & th2 & Hth2 & Epc')].
    - rewrite Ht, Hk' in Hn. injection Hn as <-.
      rewrite (hw_memop _ _ _ _ _ HE _ _ _ He') in *. lia.
    - rewrite Ht, Ht' in Hth2. by simplify_eq. }
  assert (e' ≠ e) by (intros ->; destruct Hc; congruence).
  assert (x + 2 ≤ ev_ver e'); [|lia]. apply pending_after; try done. by rewrite Hpc.
Qed.

Lemma bump_log o y wl : obj_version bump !! o = Some y → wait_reader_log s !! o = Some wl →
  wrl_ok bump o y wl.
Proof.
  intros Hy Hwl. pose proof (cu_thr _ _ _ _ _ _ _ Hc) as Hth.
  assert (∃ y0, obj_version s !! o = Some y0 ∧
    ∀ j r, wr_n wl ≤ Z.of_nat j → L o !! j = Some r → y ≤ rwm_version r) as (y0 & Hy0 & Hnext).
  { apply bump_ov in Hy as [[-> ->]|[_ Hy]].
    - exists x. split; [apply Hc|]. assert (wl = w) as -> by (destruct Hc; congruence).
      intros j r Hj Hr. specialize (Hrp j r Hj Hr).
      destruct (rl_sound _ _ _ (rd_reader HR _ (cu_range _ _ _ _ _ _ _ Hc)) r)
        as (f & Hf & _ & _ & _ & _ & Ev); [by eapply list_elem_of_lookup_2|].
      rewrite <- Ev. rewrite Hx in *. apply even_gap; [apply (hw_even _ _ _ _ _ HE)..|lia]; [apply Hc|done].
    - exists y. split; [done|]. by destruct (ri_log _ Hs o y wl Hy Hwl). }
  destruct (ri_log _ Hs o y0 wl Hy0 Hwl). constructor; try done.
  - intros j r Hj Hr. destruct (wo_past0 j r Hj Hr) as [?|?]; [by left|right].
    eapply (other_set_thr _ s bump t th _ Hth eq_refl); [|done].
    intros [Ep _]. by rewrite Hpc in Ep.
  - intros ?. eapply (other_set_thr _ s bump t th _ Hth eq_refl); [|auto].
    intros [Ep _]. by rewrite Hpc in Ep.
Qed.

Lemma bump_mem : mem_ok bump.
Proof.
  intros a y Hy. pose proof (cu_thr _ _ _ _ _ _ _ Hc) as Hth.
  assert (writing (rt_pc th)) as Hw by (by rewrite Hpc).
  assert (storing (ev_obj e) th) as Hsto by (split; [apply Hc|by rewrite Hpc]).
  apply bump_ov in Hy as [[Ea ->]|[Ea Hy]]; cbn; split.
  - intros _. eapply (ri_mem_store _ Hs a x t th); [rewrite Ea; apply Hc|done|by rewrite Ea].
  - intros t1 th1. rewrite lookup_insert_Some. intros [[<- <-]|[? Ht1]] Hs1; [by destruct Hs1|].
    exfalso. eapply (writer_not_storing (calc_objid a) t1 th1); eauto.
  - intros Hn. apply (ri_mem _ Hs); [done|]. intros t1 th1 Ht1 Hs1.
    eapply (Hn t1 th1); [|done]. rewrite lookup_insert_ne; [done|].
    intros <-. simplify_eq. destruct Hs1 as [Ho1 _], Hsto as [Ho2 _]. congruence.
  - intros t1 th1. rewrite lookup_insert_Some. intros [[<- <-]|[? Ht1]] Hs1; [by destruct Hs1|].
    by eapply (ri_mem_store _ Hs).
Qed.

Lemma rinv_bump : rinv bump.
Proof.
  destruct (ri_even _ Hs _ _ (cu_ov _ _ _ _ _ _ _ Hc)) as [Hx0 Hxe].
  constructor; try apply Hs.
  - intros t'. cbn. rewrite lookup_insert_is_Some', (ri_dom _ Hs). split; [|tauto].
    intros [<-|?]; [|done]. apply (ri_dom _ Hs). destruct Hc. eauto.
  - intros o. cbn. rewrite lookup_insert_is_Some', (ri_ov _ Hs). split; [|tauto].
    intros [<-|?]; [apply Hc|done].
  - intros t' th'. cbn. rewrite lookup_insert_Some. intros [[<- <-]|[? ?]]; [|by apply bump_thread].
    eapply (thread_ok_update s t th); eauto; [|by rewrite lookup_insert_eq|apply Hc|].
    + pose proof (cu_vlog _ _ _ _ _ _ _ Hc) as Hvl. by rewrite Hpc in Hvl.
    + unfold pc_ok; cbn. split; [done|lia].
  - intros o y Hy. apply bump_ov in Hy as [[_ ->]|[_ Hy]]; [|by eapply (ri_even _ Hs)].
    split; [lia|]. by rewrite Z.even_add, Hxe.
  - intros f y Hf Hy. rewrite bump_bumped by done. intros Hnb.
    apply bump_ov in Hy as [[Ho ->]|[_ Hy]]; [|apply (ri_pending _ Hs); tauto].
    apply pending_after; try done; [by rewrite Hpc|tauto..].
  - intros f y Hf Hy Kf. rewrite bump_bumped by done.
    intros Hb. apply bump_ov in Hy as [[Ho ->]|[Hne Hy]].
    + destruct Hb as [Hb| ->]; [|lia].
      assert (ev_ver f + 2 ≤ x); [|lia]. apply (ri_bumped _ Hs); try done. rewrite Ho. apply Hc.
    + destruct Hb as [Hb| ->]; [|done]. by apply (ri_bumped _ Hs).
  - intros f y Hf Hy Hd. apply bump_ov in Hy as [[Ho ->]|[_ Hy]]; [|by apply (ri_done _ Hs)].
    assert (ev_ver f ≤ x); [|lia]. apply (ri_done _ Hs); [done| |done]. rewrite Ho. apply Hc.
  - apply bump_log.
  - intros a y Hy. by apply bump_mem.
  - intros a y t1 th1 Hy Ht1. by eapply bump_mem.
Qed.
End bump.

Lemma step_store_version v : rt_pc th = PcStoreVersion v → step_ok s t.
Proof.
  intros Hpc. unfold_step Hc Hpc. pose proof (cu_pc _ _ _ _ _ _ _ Hc) as Hp.
  unfold pc_ok in Hp. rewrite Hpc in Hp. destruct Hp as (Ke & Hx & -> & Hrp).
  destruct (current_write _ _ _ _ _ _ _ Hc Ke) as (p & Ep & Htr). rewrite Ep.
  rewrite (arr_set_lookup _ _ _ _ (cu_ov _ _ _ _ _ _ _ Hc)). cbn -[set_thr set_pc].
  eexists. split; [done|]. by apply rinv_bump.
Qed.
End steps.

(** ** Safety *)

Lemma rstep_ok s t : rinv s → step_ok s t.
Proof.
  intros Hs. destruct (r_thr s !! t) as [th|] eqn:Hth.
  2: { exists s. unfold rstep. by rewrite Hth. }
  destruct (cur_obj calc_objid (rt_prog th)) as [o|] eqn:Ho.
  2: { exists s. unfold rstep. by rewrite Hth, Ho. }
  destruct (current_of s t th o Hs Hth Ho) as (k & e & x & w & Hc).
  destruct (rt_pc th) eqn:Hpc;
    eauto using step_start, step_wait_version, step_check_version, step_load, step_read_done,
      step_next_reader, step_reader_locked, step_wait_reader, step_store, step_load_version,
      step_store_version, step_write_done.
Qed.

Lemma rrun_ok sched s : rinv s → ∃ s', rrun calc_objid sched s = Ok s' ∧ rinv s'.
Proof.
  revert s. induction sched as [|t sched IH]; intros s Hs; [by exists s|].
  destruct (rstep_ok s t Hs) as (s' & Es & Hs'). unfold rrun. rewrite run_sched_cons, Es. by apply IH.
Qed.

(** ** Termination

    Every step that is not a spin decreases the measure. *)

Definition rank (pc : rpc) : nat :=
  match pc with
  | PcStart => 9 | PcWaitVersion => 8 | PcCheckVersion => 7
  | PcLoad => 2 | PcReadDone _ => 1
  | PcWaitReader _ => 7 | PcNextReader => 6 | PcReaderLocked => 5
  | PcStore => 4 | PcLoadVersion => 3 | PcStoreVersion _ => 2 | PcWriteDone => 1
  end.

Definition thr_measure (s : rstate) (t : Z) : nat :=
  match r_thr s !! t, memop_cnt s !! t with
  | Some th, Some n => 16 * (length (tevents t E) - Z.to_nat n) + rank (rt_pc th)
  | _, _ => 0
  end.

Definition log_measure (s : rstate) (o : Z) : nat :=
  match wait_reader_log s !! o with
  | Some w => 4 * (length (L o) - Z.to_nat (wr_n w))
  | None => 0
  end.

Definition measure (s : rstate) : nat :=
  sum_list_with (thr_measure s) (elements (dom progs)) +
  sum_list_with (log_measure s) (seqZ 0 nobj).

Lemma measure_lt s s' t o :
  is_Some (progs !! t) → 0 ≤ o < nobj →
  (∀ t', t' ≠ t → thr_measure s' t' = thr_measure s t') →
  (∀ o', o' ≠ o → log_measure s' o' = log_measure s o') →
  (thr_measure s' t + log_measure s' o < thr_measure s t + log_measure s o)%nat →
  (measure s' < measure s)%nat.
Proof.
  intros Ht Ho Hthr Hlog Hlt. unfold measure.
  pose proof (sum_list_with_update (thr_measure s') (thr_measure s) (elements (dom progs)) t) as H1.
  pose proof (sum_list_with_update (log_measure s') (log_measure s) (seqZ 0 nobj) o) as H2.
  assert (sum_list_with (thr_measure s') (elements (dom progs)) + thr_measure s t =
    sum_list_with (thr_measure s) (elements (dom progs)) + thr_measure s' t)%nat.
  { apply H1; [apply NoDup_elements|by apply elem_of_elements, elem_of_dom|auto]. }
  assert (sum_list_with (log_measure s') (seqZ 0 nobj) + log_measure s o =
    sum_list_with (log_measure s) (seqZ 0 nobj) + log_measure s' o)%nat.
  { apply H2; [apply NoDup_seqZ|apply elem_of_seqZ; lia|auto]. }
  lia.
Qed.

Lemma thr_measure_eq s t th k : r_thr s !! t = Some th → memop_cnt s !! t = Some (Z.of_nat k) →
  thr_measure s t = (16 * (length (tevents t E) - k) + rank (rt_pc th))%nat.
Proof. intros H1 H2. unfold thr_measure. by rewrite H1, H2, Nat2Z.id. Qed.

Section effect.
Context (s : rstate) (t : Z) (th : rthread) (k : nat) (e : event) (x : Z).
Context (w : replay_wait_memop_log) (Hs : rinv s) (Hc : current s t th k e x w).

Lemma current_progs : is_Some (progs !! t).
Proof. apply (ri_dom _ Hs). destruct Hc. eauto. Qed.

(** A step that moves thread [t] and keeps the counters. *)
Lemma measure_goto s' th' :
  r_thr s' = <[t := th']> (r_thr s) → memop_cnt s' = memop_cnt s →
  (∀ o, wr_n <$> wait_reader_log s' !! o = wr_n <$> wait_reader_log s !! o) →
  (rank (rt_pc th') < rank (rt_pc th))%nat → (measure s' < measure s)%nat.
Proof.
  intros Es Ec Ew Hr. assert (∀ o, log_measure s' o = log_measure s o) as El.
  { intros o. specialize (Ew o). unfold log_measure.
    destruct (wait_reader_log s' !! o), (wait_reader_log s !! o); cbn in Ew; simplify_eq; [|done].
    by rewrite Ew. }
  apply (measure_lt s s' t (ev_obj e)); [apply current_progs|apply Hc| |by intros|].
  - intros t' Hne. unfold thr_measure. by rewrite Es, Ec, lookup_insert_ne.
  - rewrite El, (thr_measure_eq s t th k), (thr_measure_eq s' t th' k); try apply Hc; [lia|..].
    + by rewrite Es, lookup_insert_eq.
    + rewrite Ec. apply Hc.
Qed.

(** A step of the writer on the reader log that takes no entry. *)
Lemma measure_log pc w' : wr_n w' = wr_n w → (rank pc < rank (rt_pc th))%nat →
  (measure (set_thr t (set_pc pc th) (set_wrl (ev_obj e) w' s)) < measure s)%nat.
Proof.
  intros En Hr. eapply measure_goto; [done|done| |done].
  intros o. cbn. destruct (decide (o = ev_obj e)) as [->|?].
  - by rewrite lookup_insert_eq, (cu_wrl _ _ _ _ _ _ _ Hc); cbn; rewrite En.
  - by rewrite lookup_insert_ne.
Qed.

(** A step that ends the current operation. *)
Lemma measure_count p : (measure (counted s t th k p) < measure s)%nat.
Proof.
  apply (measure_lt _ _ t (ev_obj e)); [apply current_progs|apply Hc| |by intros|].
  - intros t' Hne. unfold thr_measure. cbn. by rewrite !lookup_insert_ne.
  - assert (k < length (tevents t E))%nat by (eapply lookup_lt_Some, Hc).
    rewrite (thr_measure_eq s t th k) by apply Hc.
    erewrite (thr_measure_eq (counted s t th k p) t _ (S k)); cycle 1.
    + cbn. by rewrite lookup_insert_eq.
    + cbn. rewrite lookup_insert_eq. f_equal. lia.
    + change (log_measure (counted s t th k p)) with (log_measure s). cbn [rank rt_pc]. lia.
Qed.

(** The writer takes one entry of the reader log. *)
Lemma measure_take w' r :
  rt_pc th = PcReaderLocked → wr_n w' = wr_n w + 1 → wr_n w < Z.of_nat (length (L (ev_obj e))) →
  0 ≤ wr_n w →
  (measure (set_thr t (set_pc (PcWaitReader r) th) (set_wrl (ev_obj e) w' s)) < measure s)%nat.
Proof.
  intros Hpc En Hn Hn0.
  apply (measure_lt _ _ t (ev_obj e)); [apply current_progs|apply Hc|..].
  - intros t' Hne. unfold thr_measure. cbn. by rewrite lookup_insert_ne.
  - intros o Hne. unfold log_measure. cbn. by rewrite lookup_insert_ne.
  - rewrite (thr_measure_eq s t th k) by apply Hc. rewrite Hpc.
    erewrite thr_measure_eq; [|by cbn; rewrite lookup_insert_eq|apply Hc].
    unfold log_measure. rewrite (cu_wrl _ _ _ _ _ _ _ Hc). cbn [set_thr set_wrl wait_reader_log].
    rewrite lookup_insert_eq, En. cbn [rank rt_pc set_pc]. lia.
Qed.

(** The thread waits for a version or for a reader. *)
Definition spinning : Prop :=
  (rt_pc th = PcWaitVersion ∧ x < wv_version (rt_wait_version th)) ∨
  (∃ r n, rt_pc th = PcWaitReader r ∧ memop_cnt s !! rwm_tid r = Some n ∧ n ≤ rwm_memop r).

Ltac moved := right; eapply measure_goto;
  [reflexivity|done|done|cbn; match goal with H : rt_pc th = _ |- _ => rewrite H end; cbn; lia].

Lemma step_effect_write s' : rstep calc_objid t s = Ok s' → writing (rt_pc th) →
  s' = s ∧ spinning ∨ (measure s' < measure s)%nat.
Proof.
  intros Hst Hw. assert (ev_kind e = WR) as Ke by (by destruct (writing_ok _ _ _ _ Hw (cu_pc _ _ _ _ _ _ _ Hc))).
  destruct (current_write _ _ _ _ _ _ _ Hc Ke) as (p & Ep & _).
  pose proof (ri_log _ Hs _ _ _ (cu_ov _ _ _ _ _ _ _ Hc) (cu_wrl _ _ _ _ _ _ _ Hc)) as Hlog.
  revert Hst. destruct (rt_pc th) eqn:Hpc; try done; unfold_step Hc Hpc; rewrite Ep.
  - destruct (wr_mutex w); [done|]. intros [= <-]. right. by apply measure_log; rewrite ?Hpc; cbn; try lia.
  - unfold next_reader_memop. destruct Hlog. case_decide as Hd; cbn -[set_thr set_wrl set_pc].
    + intros [= <-]. right. by apply measure_log; rewrite ?Hpc; cbn; try lia.
    + destruct (wr_log w !! Z.to_nat (wr_n w)) as [r|]; [|done].
      destruct (c_assert _); [|done]. cbn -[set_thr set_wrl set_pc]. case_decide.
      * intros [= <-]. right. apply measure_take; cbn; lia || done.
      * intros [= <-]. right. by apply measure_log; rewrite ?Hpc; cbn; try lia.
  - destruct (arr_get _ _) as [n|] eqn:En; [|done]. apply arr_get_Ok in En.
    cbn -[set_thr set_pc]. case_decide; intros [= <-]; [|moved].
    left. split; [done|]. right. rewrite Hpc. eauto.
  - destruct (arr_set _ _ _); [|done]. intros [= <-]. moved.
  - intros [= <-]. moved.
  - destruct (arr_set _ _ _); [|done]. intros [= <-]. moved.
Qed.

Lemma step_effect s' : rstep calc_objid t s = Ok s' →
  s' = s ∧ spinning ∨ (measure s' < measure s)%nat.
Proof.
  intros Hst. pose proof (cu_pc _ _ _ _ _ _ _ Hc) as Hp. unfold pc_ok in Hp.
  destruct (rt_pc th) eqn:Hpc; try (apply step_effect_write; [done|by rewrite Hpc]);
    revert Hst; unfold_step Hc Hpc.
  - case_decide; intros [= <-]; [moved|]. right. eapply measure_goto; [done..|].
    rewrite Hpc. cbn. destruct (rt_prog th); cbn; lia.
  - case_decide; intros [= <-]; [|moved]. left. split; [done|]. by left; rewrite Hpc.
  - destruct (c_assert _); [|done]. cbn -[set_thr].
    destruct (next_wait_version_log _ _) as [[wv log]|]; [|done]. intros [= <-].
    right. eapply measure_goto; [done..|]. rewrite Hpc. cbn. destruct (rt_prog th); cbn; lia.
  - destruct (rt_prog th); try done. destruct (arr_get _ _); [|done]. intros [= <-]. moved.
  - destruct (rt_prog th); try done. intros [= <-]. right. apply measure_count.
  - destruct (rt_prog th); try done. intros [= <-]. right. apply measure_count.
Qed.
End effect.

Lemma rstep_effect s t s' : rinv s → rstep calc_objid t s = Ok s' →
  s' = s ∨ (measure s' < measure s)%nat.
Proof.
  intros Hs Hst. destruct (r_thr s !! t) as [th|] eqn:Hth.
  2: { left. unfold rstep in Hst. rewrite Hth in Hst. congruence. }
  destruct (cur_obj calc_objid (rt_prog th)) as [o|] eqn:Ho.
  2: { left. unfold rstep in Hst. rewrite Hth, Ho in Hst. congruence. }
  destruct (current_of s t th o Hs Hth Ho) as (k & e & x & w & Hc).
  destruct (step_effect s t th k e x w Hs Hc s' Hst) as [[? _]|?]; auto.
Qed.

#[local] Instance ev_done_dec cnt e : Decision (ev_done cnt e).
Proof.
  unfold ev_done. destruct (cnt !! ev_tid e) as [n|] eqn:H.
  - destruct (decide (ev_memop e < n)); [left|right]; naive_solver.
  - right. naive_solver.
Defined.

(** The earliest recorded event that is not complete is the current operation of
    its thread. *)
Lemma first_pending_current s i e : rinv s → E !! i = Some e → ¬ ev_done (memop_cnt s) e →
  (∀ j f, (j < i)%nat → E !! j = Some f → ev_done (memop_cnt s) f) →
  ∃ th k x w, current s (ev_tid e) th k e x w.
Proof.
  intros Hs Hi Hnd Hbefore.
  assert (e ∈ E) as Hin by by eapply list_elem_of_lookup_2.
  destruct (hw_event _ _ _ _ _ HE e Hin) as (_ & _ & Hp).
  destruct (proj2 (ri_dom _ Hs _) Hp) as [th Hth].
  destruct (to_cnt _ _ _ _ _ (ri_thr _ Hs _ _ Hth)) as (k & Hk & Htr & _).
  destruct (tevents_at _ _ _ _ _ _ HE Hin) as [H0 Hat].
  assert (Z.of_nat k = ev_memop e) as Ek.
  { destruct (Z.lt_trichotomy (Z.of_nat k) (ev_memop e)) as [Hlt|[?|Hgt]]; [exfalso|done|].
    - destruct (lookup_lt_is_Some_2 (tevents (ev_tid e) E) k) as [f Hf].
      { apply lookup_lt_Some in Hat. lia. }
      assert (f ∈ tevents (ev_tid e) E) as Hfin by by eapply list_elem_of_lookup_2.
      apply tevents_elem in Hfin as [Tf Hfin]. apply list_elem_of_lookup_1 in Hfin as [j Hj].
      assert (ev_memop f = Z.of_nat k) as Mf by by apply (hw_memop _ _ _ _ _ HE _ _ _ Hf).
      destruct (lt_eq_lt_dec j i) as [[Hji| ->]|Hij].
      + destruct (Hbefore j f Hji Hj) as (n & Hn & ?). rewrite Tf, Hk in Hn. injection Hn. lia.
      + simplify_eq. lia.
      + pose proof (tevents_order _ _ _ _ _ _ _ _ _ HE Hi Hj (eq_sym Tf) Hij). lia.
    - destruct Hnd. by exists (Z.of_nat k). }
  destruct (cur_obj calc_objid (rt_prog th)) as [o|] eqn:Ho.
  - destruct (current_of s _ th o Hs Hth Ho) as (k' & e' & x & w & Hc). exists th, k', x, w.
    assert (e' = e) as ->; [|done]. apply ev_inj; [apply Hc|done|apply Hc|].
    destruct Hc. rewrite cu_memop0. rewrite Hk in cu_cnt0. injection cu_cnt0. lia.
  - destruct (rt_prog th); try done. apply prog_trace_ret in Htr as [Hd _].
    apply (f_equal length) in Hd. rewrite length_drop in Hd. cbn in Hd.
    apply lookup_lt_Some in Hat. lia.
Qed.

(** That thread does not spin: its version is reached, its readers are done. *)
Lemma first_pending_not_spinning s i e th k x w :
  rinv s → E !! i = Some e → (∀ j f, (j < i)%nat → E !! j = Some f → ev_done (memop_cnt s) f) →
  current s (ev_tid e) th k e x w → ¬ spinning s th x.
Proof.
  intros Hs Hi Hbefore Hc Hsp. pose proof (cu_pc _ _ _ _ _ _ _ Hc) as Hp. unfold pc_ok in Hp.
  destruct Hsp as [[Hpc Hlt]|(r & n & Hpc & Hn & Hle)]; rewrite Hpc in Hp.
  - destruct Hp as [Hv _]. destruct (hw_prev _ _ _ _ _ HE i e Hi) as [H0|(j & f & Hj & Hf & Hw & Ev)].
    + destruct (ri_even _ Hs _ _ (cu_ov _ _ _ _ _ _ _ Hc)). lia.
    + assert (ev_ver f + 2 ≤ x); [|lia]. destruct Hw as [Kf Of].
      apply (ri_bumped _ Hs); [by eapply list_elem_of_lookup_2|rewrite Of; apply Hc|done|].
      left. by eapply Hbefore.
  - destruct Hp as (Ke & _ & Hr & Hrv).
    destruct (rl_sound _ _ _ (rd_reader HR _ (cu_range _ _ _ _ _ _ _ Hc)) r Hr)
      as (f & Hf & Tf & Mf & Kf & Of & Vf).
    apply list_elem_of_lookup_1 in Hf as [j Hj].
    assert (j < i)%nat as Hji.
    { destruct (lt_eq_lt_dec j i) as [[?| ->]|Hij]; [done|congruence|].
      destruct (hw_mono _ _ _ _ _ HE i j e f Hij Hi Hj) as [_ Hm]; [done|]. specialize (Hm Ke). lia. }
    destruct (Hbefore j f Hji Hj) as (n' & Hn' & ?). rewrite Tf, Hn in Hn'. injection Hn'. lia.
Qed.

(** Deadlock freedom: if not every thread has returned, some thread can move. *)
Lemma progress s : rinv s → r_finished s ∨ ∃ t s', rstep calc_objid t s = Ok s' ∧
  is_Some (progs !! t) ∧ (measure s' < measure s)%nat.
Proof.
  intros Hs. destruct (list_first_fail (ev_done (memop_cnt s)) E) as [Hall|(i & e & Hi & Hn & Hb)].
  - left. intros t th Hth. destruct (rt_prog th) as [r|addr f|addr val p] eqn:Ep; [eauto|exfalso..];
      (destruct (current_of s t th (calc_objid addr) Hs Hth) as (k & e & x & w & Hc);
        [by rewrite Ep|]);
      apply (current_not_done _ _ _ _ _ _ _ Hc), Hall, Hc.
  - right. destruct (first_pending_current s i e Hs Hi Hn Hb) as (th & k & x & w & Hc).
    destruct (rstep_ok s (ev_tid e) Hs) as (s' & Hst & _). exists (ev_tid e), s'.
    destruct (step_effect s _ th k e x w Hs Hc s' Hst) as [[_ Hsp]|Hlt].
    + destruct (first_pending_not_spinning s i e th k x w Hs Hi Hb Hc Hsp).
    + split_and!; [done|by eapply current_progs|done].
Qed.

#[export] Instance replay_live :
  live_machine (rstep calc_objid) (λ t, is_Some (progs !! t)) r_finished
    (λ n s, rinv s ∧ measure s = n).
Proof.
  split.
  - intros n s t [Hs <-]. destruct (rstep_ok s t Hs) as (s' & Hst & Hs'). exists s'.
    split; [done|]. destruct (rstep_effect s t s' Hs Hst) as [->|?]; [by left|right; eauto].
  - intros n s [Hs _]. destruct (progress s Hs) as [?|(t & s' & Hst & Ht & Hlt)]; [by left|right].
    exists t. split; [done|]. rewrite Hst. intros [= ->]. lia.
  - intros s t Hf. unfold rstep. destruct (r_thr s !! t) as [th|] eqn:Hth; [|done].
    by destruct (Hf t th Hth) as [r ->].
Qed.

(** ** What a finished replay has computed *)

Lemma finished_done s e : rinv s → r_finished s → e ∈ E → ev_done (memop_cnt s) e.
Proof.
  intros Hs Hf Hin. destruct (hw_event _ _ _ _ _ HE e Hin) as (_ & _ & Hp).
  destruct (proj2 (ri_dom _ Hs _) Hp) as [th Hth]. destruct (Hf _ _ Hth) as [r Hr].
  destruct (to_cnt _ _ _ _ _ (ri_thr _ Hs _ _ Hth)) as (k & Hk & Htr & _).
  rewrite Hr in Htr. apply prog_trace_ret in Htr as [Hd _].
  apply (f_equal length) in Hd. rewrite length_drop in Hd. cbn in Hd.
  destruct (tevents_at _ _ _ _ _ _ HE Hin) as [H0 Hat]. apply lookup_lt_Some in Hat.
  exists (Z.of_nat k). split; [done|lia].
Qed.

Lemma finished_result s t th : rinv s → r_finished s → r_thr s !! t = Some th →
  rt_prog th = PRet (res t).
Proof.
  intros Hs Hf Hth. destruct (Hf _ _ Hth) as [r Hr].
  destruct (to_cnt _ _ _ _ _ (ri_thr _ Hs _ _ Hth)) as (k & _ & Htr & _).
  rewrite Hr in *. apply prog_trace_ret in Htr as [_ ?]. congruence.
Qed.

(** [v] is past every write to the object of [a]. *)
Lemma finished_mem s a v : rinv s → r_finished s → 0 ≤ calc_objid a < nobj →
  (∀ e, e ∈ E → ev_kind e = WR → ev_addr e = a → ev_ver e < v) →
  r_mem s !! a = vmem mem0 E v a.
Proof.
  intros Hs Hf Ha Hv. destruct (proj2 (ri_ov _ Hs _) Ha) as [x Hx].
  rewrite (ri_mem _ Hs a x Hx).
  - apply vmem_ext. intros e He Ke Ae. split; [auto|]. intros _.
    destruct (hw_event _ _ _ _ _ HE e He) as (Eo & _).
    assert (ev_ver e + 2 ≤ x); [|lia]. apply (ri_bumped _ Hs); [done|by rewrite Eo, Ae|done|].
    left. by apply finished_done.
  - intros t th Hth [Ho _]. destruct (Hf _ _ Hth) as [r Hr]. by rewrite Hr in Ho.
Qed.
End replay.
