(* ===== verification/Pipeline.v ===== *)
(** * Pipeline: from the recorder's logs to the replayer's initial state

    [reorder-memop] runs on every thread's memop log, [merge-memop] on their
    outputs, and the replayer loads the result.  The lemmas show that the state
    it starts from satisfies the replay invariant. *)
From S2P Require Import Prelude Mem Record History Reorder PQueue KWay Merge Replay ReplayProof.

(** ** The program *)

Section pipeline.
Context (R : recorder) (Q : prio_queue qe_gt).

(** The logs of the threads [0 .. nthr-1] that made the accesses of [E]. *)
Definition record_all (nobj nthr : Z) (E : list event) : outcome (list tls) :=
  mapM (λ t, record_thread R nobj (tvaccs t E)) (seqZ 0 nthr).

(** [reorder-memop] for each thread, then [merge-memop]. *)
Definition preprocess (nobj : Z) (logs : list tls)
    : outcome (option (list replay_wait_memop * list Z)) :=
  files ← mapM (λ s, reorder_main nobj (logs_wait_memop s)) logs;
  merge_main Q nobj files.

(** [mem_init], and [mem_init_thr] of every thread: the clients pass a barrier
    between it and their first access. *)
Definition replay_init (nobj : Z) (mem0 : gmap Z Z) (ps : list prog)
    (vlogs : list (list wait_version)) (merged : option (list replay_wait_memop * list Z))
    : outcome rstate :=
  wrl ← load_wait_reader_log nobj (fst <$> merged) (snd <$> merged);
  ths ← mapM (λ pv, Replay.mem_init_thr pv.2 pv.1) (zip ps vlogs);
  Ok (RState mem0 (arr_make nobj 0) (arr_make (Z.of_nat (length ps)) 0) wrl (map_seqZ 0 ths)).

(** Everything between the end of a recording that left [logs] and the start of
    its replay. *)
Definition prepare_logs (nobj : Z) (mem0 : gmap Z Z) (ps : list prog) (logs : list tls)
    : outcome rstate :=
  merged ← preprocess nobj logs;
  replay_init nobj mem0 ps (logs_wait_version <$> logs) merged.

(** The same from the events [E] the recording took down. *)
Definition prepare (nobj : Z) (mem0 : gmap Z Z) (ps : list prog) (E : list event)
    : outcome rstate :=
  logs ← record_all nobj (Z.of_nat (length ps)) E;
  prepare_logs nobj mem0 ps logs.
End pipeline.

(** ** Lemmas: loading the merged log *)

Lemma sorted_split P o : StronglySorted qle P →
  P = filter (λ q, wm_objid (qe_wop q) < o) P ++ filter (λ q, wm_objid (qe_wop q) = o) P
        ++ filter (λ q, o < wm_objid (qe_wop q)) P.
Proof.
  induction 1 as [|x P HP IH Hx]; [done|].
  assert (∀ q, q ∈ P → wm_objid (qe_wop x) ≤ wm_objid (qe_wop q)) as Hle.
  { intros q Hq. apply qle_objid. by eapply list.Forall_forall in Hx. }
  destruct (Z.lt_trichotomy (wm_objid (qe_wop x)) o) as [Ho|[Ho|Ho]].
  - rewrite filter_cons_True, !filter_cons_False by lia. cbn. by rewrite <- IH.
  - rewrite (filter_none (λ q, _ < o)); [|intros q [->|Hq]%elem_of_cons;
      [lia|specialize (Hle q Hq); lia]].
    rewrite filter_cons_True, filter_cons_False by lia. cbn. f_equal. rewrite IH at 1.
    rewrite (filter_none (λ q, _ < o)); [done|]. intros q Hq. specialize (Hle q Hq). lia.
  - rewrite (filter_none (λ q, _ < o)), (filter_none (λ q, _ = o)), filter_all; [done|..];
      intros q [->|Hq]%elem_of_cons; try lia; specialize (Hle q Hq); lia.
Qed.

(** The entries of object [o] in the merged file. *)
Definition obj_log (P : list (que_ent wait_memop)) (o : Z) : list replay_wait_memop :=
  mwm <$> filter (λ q, wm_objid (qe_wop q) = o) P.

Lemma obj_log_take P o : StronglySorted qle P →
  take (Z.to_nat (obj_count P o)) (drop (Z.to_nat (obj_start P o)) (mwm <$> P)) = obj_log P o.
Proof.
  intros HP. unfold obj_count, obj_start, obj_log. rewrite !Nat2Z.id.
  rewrite (sorted_split P o HP) at 3.
  rewrite !fmap_app, drop_app_length', take_app_length' by by rewrite length_fmap. done.
Qed.

(** What the replayer holds for an object whose entries are [l]. *)
Definition loaded (l : list replay_wait_memop) (w : replay_wait_memop_log) : Prop :=
  take (Z.to_nat (wr_size w)) (wr_log w) = l ∧ Z.to_nat (wr_size w) = length l ∧
  wr_n w = 0 ∧ wr_mutex w = false.

Lemma load_loop_ok P objs acc : StronglySorted qle P → NoDup objs →
  ∃ wrl, load_loop (mwm <$> P) objs (objs ≫= index_of P) acc = Ok wrl ∧
    (∀ o, o ∉ objs → wrl !! o = acc !! o) ∧
    ∀ o, o ∈ objs → ∃ w, wrl !! o = Some w ∧ loaded (obj_log P o) w.
Proof.
  intros HP Hn. revert acc. induction Hn as [|o objs Ho Hn IH]; intros acc.
  { exists acc. split_and!; [done..|set_solver]. }
  assert (∃ w, load_loop (mwm <$> P) (o :: objs) ((o :: objs) ≫= index_of P) acc
    = load_loop (mwm <$> P) objs (objs ≫= index_of P) (<[o := w]> acc) ∧
    loaded (obj_log P o) w) as (w & -> & Hw).
  { cbn. unfold index_of at 1. case_decide as Hc.
    - cbn. eexists. split; [done|]. split_and!; try done; cbn; unfold obj_log;
        (destruct (filter _ P) eqn:Ef; [done|]);
        exfalso; unfold obj_count in Hc; by rewrite Ef in Hc.
    - cbn. rewrite decide_False by (unfold obj_start; lia). eexists. split; [done|].
      split_and!; try done; cbn; [by apply obj_log_take|].
      unfold obj_count, obj_log. by rewrite Nat2Z.id, length_fmap. }
  destruct (IH (<[o := w]> acc)) as (wrl & -> & Hout & Hin). exists wrl. split_and!; [done|..].
  - intros o' Ho'. rewrite Hout by set_solver. apply lookup_insert_ne. set_solver.
  - intros o' [->|Ho']%elem_of_cons; [|auto]. exists w. split; [|done].
    rewrite Hout by done. apply lookup_insert_eq.
Qed.

(** ** Lemmas: the preprocessing tools on recorded logs *)

Section prepare.
Context (R : recorder) {HR : recorder_ok R} (Q : prio_queue qe_gt) {HQ : prio_queue_ok Q}.
Context (calc_objid : Z → Z) (nobj : Z) (mem0 : gmap Z Z) (ps : list prog).
Context (E : list event) (s : astate).
Local Abbreviation progs := (map_seqZ 0 ps : gmap Z prog).
Context (HE : history calc_objid nobj mem0 progs E s).
Local Abbreviation Hwf := (history_wf _ _ _ _ _ _ HE).

(** The logs of the threads without their end marks. *)
Definition logs_of (logs : list tls) : list (list wait_version * list wait_memop) :=
  (λ s, (strip (logs_wait_version s), strip (logs_wait_memop s))) <$> logs.

Record recorded_logs (logs : list tls) : Prop := {
  rl_length : length logs = length ps;
  rl_ends : ∀ i s, logs !! i = Some s →
    logs_wait_version s = strip (logs_wait_version s) ++ [WaitVersion (-1) (-1)] ∧
    logs_wait_memop s = strip (logs_wait_memop s) ++ [WaitMemop (-1) (-1) (-1)];
  rl_ok : ∀ i VM, logs_of logs !! i = Some VM → logs_ok (taccs (Z.of_nat i) E) VM.1 VM.2 }.

Lemma record_all_ok : ∃ logs,
  record_all R nobj (Z.of_nat (length ps)) E = Ok logs ∧ recorded_logs logs.
Proof.
  destruct (mapM_exists (λ t, record_thread R nobj (tvaccs t E)) (λ t s, ∃ V M,
    logs_wait_version s = V ++ [WaitVersion (-1) (-1)] ∧
    logs_wait_memop s = M ++ [WaitMemop (-1) (-1) (-1)] ∧ logs_ok (taccs t E) V M)
    (seqZ 0 (Z.of_nat (length ps)))) as (logs & Hlogs & HF).
  { intros t _. destruct (rc_ok nobj (tvaccs t E)) as (s' & V & M & Hrec);
      rewrite ?tvaccs_fst in *; [by eapply taccs_mono, Hwf|by eapply taccs_range, Hwf|].
    naive_solver. }
  exists logs. split; [done|]. constructor.
  - apply Forall2_length in HF. rewrite length_seqZ in HF. lia.
  - intros i s' Hi. destruct (Forall2_seqZ_lookup _ _ _ _ _ HF Hi) as [(V & M & -> & -> & _) _].
    by rewrite !strip_snoc.
  - intros i VM Hi. apply list_lookup_fmap_Some in Hi as (s' & -> & Hi).
    destruct (Forall2_seqZ_lookup _ _ _ _ _ HF Hi) as [(V & M & -> & -> & ?) _].
    cbn. by rewrite !strip_snoc.
Qed.

Section files.
Context (logs : list tls) (HL : recorded_logs logs).

(** The file [reorder-memop] leaves for a thread. *)
Definition file_of (VM : list wait_version * list wait_memop) : option (list wait_memop) :=
  if decide (VM.2 = []) then None else Some (group nobj VM.2).

Definition files : list (option (list wait_memop)) := file_of <$> logs_of logs.

Lemma logs_valid i VM : logs_of logs !! i = Some VM → Forall (valid_entry nobj) VM.2.
Proof.
  intros Hi. apply list.Forall_forall. intros e He.
  destruct (lk_memop_sound _ _ _ (rl_ok _ HL _ _ Hi) e He) as [H0 Ha].
  split; [|done]. apply list_elem_of_lookup_2 in Ha.
  by apply (taccs_range _ _ _ _ _ _ Hwf) in Ha.
Qed.

Lemma reorder_all :
  mapM (λ s, reorder_main nobj (logs_wait_memop s)) logs = Ok files.
Proof.
  unfold files, logs_of. rewrite <- list_fmap_compose. apply mapM_fmap.
  intros s' [i Hi]%list_elem_of_lookup_1. destruct (rl_ends _ HL _ _ Hi) as [_ He].
  rewrite He at 1. apply reorder_main_spec.
  apply (logs_valid i (strip (logs_wait_version s'), strip (logs_wait_memop s'))).
  unfold logs_of. by rewrite list_lookup_fmap, Hi.
Qed.

Lemma file_elem VM w : Forall (valid_entry nobj) VM.2 →
  w ∈ default [] (file_of VM) ↔ w ∈ VM.2.
Proof.
  intros Hv. unfold file_of. case_decide as Hd; cbn; [by rewrite Hd|].
  by rewrite group_Permutation.
Qed.

Lemma entries_elem q : q ∈ all_entries files ↔
  ∃ i VM, logs_of logs !! i = Some VM ∧ qe_tid q = Z.of_nat i ∧ qe_wop q ∈ VM.2.
Proof.
  unfold all_entries, files. rewrite elem_of_remaining. split.
  - intros (i & l & Hi & Ht & Hw). rewrite !list_lookup_fmap in Hi.
    destruct (logs_of logs !! i) as [VM|] eqn:EVM; [|done]. cbn in Hi. injection Hi as <-.
    exists i, VM. split_and!; [done..|]. by apply file_elem; [eapply logs_valid|].
  - intros (i & VM & Hi & Ht & Hw). exists i, (default [] (file_of VM)).
    split_and!; [by rewrite !list_lookup_fmap, Hi|done|]. by apply file_elem; [eapply logs_valid|].
Qed.

Lemma files_sorted l : Some l ∈ files → StronglySorted key_le l.
Proof.
  intros (VM & EVM & [i Hi]%list_elem_of_lookup_1)%list_elem_of_fmap.
  unfold file_of in EVM. case_decide; [done|]. injection EVM as ->.
  apply group_sorted. apply (rl_ok _ HL _ _ Hi).
Qed.

Lemma entries_range : in_range nobj (all_entries files).
Proof.
  intros q (i & VM & Hi & _ & Hw)%entries_elem.
  by destruct (proj1 (list.Forall_forall _ _) (logs_valid i VM Hi) _ Hw) as [? _].
Qed.

Lemma entries_total : (total_entries files ≤ length E)%nat.
Proof.
  etransitivity; [|apply (tevents_total (seqZ 0 (Z.of_nat (length ps)))), NoDup_seqZ].
  unfold total_entries. apply sum_list_with_le.
  - unfold files, logs_of. rewrite !length_fmap, length_seqZ, (rl_length _ HL). lia.
  - intros i f t Hf [-> _]%lookup_seqZ. unfold files in Hf.
    apply list_lookup_fmap_Some in Hf as (VM & -> & Hi). rewrite Z.add_0_l.
    pose proof (logs_ok_length _ _ _ (rl_ok _ HL _ _ Hi)) as Hle.
    unfold taccs in Hle. rewrite length_fmap in Hle. unfold file_of.
    case_decide; cbn; [lia|]. by rewrite (Permutation_length (group_Permutation _ _ (logs_valid i VM Hi))).
Qed.

(** [P] is the merged order and [wrl] what the replayer loads of it. *)
Record preprocessed (P : list (que_ent wait_memop)) (wrl : gmap Z replay_wait_memop_log) : Prop := {
  pp_perm : P ≡ₚ all_entries files;
  pp_sorted : StronglySorted qle P;
  pp_dom : ∀ o, is_Some (wrl !! o) ↔ 0 ≤ o < nobj;
  pp_loaded : ∀ o w, wrl !! o = Some w → loaded (obj_log P o) w }.

Lemma load_none : all_entries files = [] →
  preprocessed [] (arr_make nobj (ReplayWaitMemopLog [] 0 (-1) false)).
Proof.
  intros H0. constructor; [by rewrite H0|constructor| |].
  - intros o. rewrite lookup_arr_make. by case_decide.
  - intros o w. rewrite lookup_arr_make. case_decide; [|done]. by intros [= <-].
Qed.

Lemma load_some P : P ≡ₚ all_entries files → StronglySorted qle P →
  ∃ wrl, load_loop (mwm <$> P) (seqZ 0 nobj) (seqZ 0 nobj ≫= index_of P) ∅ = Ok wrl ∧
    preprocessed P wrl.
Proof.
  intros HP Hs.
  destruct (load_loop_ok P (seqZ 0 nobj) ∅ Hs (NoDup_seqZ _ _)) as (wrl & Hl & Hout & Hin).
  exists wrl. split; [done|].
  assert (∀ o, is_Some (wrl !! o) → o ∈ seqZ 0 nobj) as Hdom.
  { intros o Ho. destruct (decide (o ∈ seqZ 0 nobj)) as [|Hno]; [done|].
    rewrite Hout, lookup_empty in Ho by done. by destruct Ho. }
  constructor; [done..| |].
  - intros o. split; [by intros Ho%Hdom%elem_of_seqZ|]. intros Ho.
    destruct (Hin o) as (w & -> & _); [apply elem_of_seqZ; lia|done].
  - intros o w Hw. destruct (Hin o) as (w' & Hw' & ?); [apply Hdom; eauto|]. congruence.
Qed.

(** [reorder-memop] and [merge-memop] succeed, and the replayer loads their
    result. *)
Lemma preprocess_ok : (length ps ≤ 127)%nat → Z.of_nat (length E) < 2 ^ 31 →
  ∃ P merged wrl, preprocess Q nobj logs = Ok merged ∧
    load_wait_reader_log nobj (fst <$> merged) (snd <$> merged) = Ok wrl ∧ preprocessed P wrl ∧
    (merged = None ∨ merged = Some (mwm <$> P, seqZ 0 nobj ≫= index_of P) ∧ P ≠ [] ∧ 0 < nobj).
Proof.
  intros Hthr Hlen. pose proof entries_total as Htot. unfold preprocess. rewrite reorder_all. cbn.
  assert (length files = length ps) as Hfl.
  { unfold files, logs_of. by rewrite !length_fmap, (rl_length _ HL). }
  unfold merge_main. rewrite wrap_s_id by lia.
  destruct (decide (total_entries files = 0%nat)) as [H0|H0].
  - eexists _, None, _. split_and!; [|done|apply load_none|by left].
    + unfold merge_memop. rewrite c_assert_true by done. cbn. by rewrite decide_True.
    + apply nil_length_inv. by rewrite length_all_entries.
  - assert (0 < nobj).
    { destruct (all_entries files) as [|q l] eqn:Eq.
      { rewrite <- length_all_entries, Eq in H0. done. }
      pose proof (entries_range q) as H. rewrite Eq in H. specialize (H ltac:(set_solver)). lia. }
    destruct (merge_memop_ok Q nobj files) as (P & -> & HP & Hs);
      [apply files_sorted|apply entries_range|lia..|].
    destruct (load_some P HP Hs) as (wrl & Hload & Hpp).
    exists P, (Some (mwm <$> P, seqZ 0 nobj ≫= index_of P)), wrl. split_and!; [done..|right].
    split_and!; [done| |done]. intros ->. apply Permutation_length in HP.
    by rewrite length_all_entries in HP.
Qed.

(** ** Lemmas: the logs describe the history *)

Definition vlog (t : Z) : list wait_version :=
  match (map_seqZ 0 (logs_of logs) : gmap Z _) !! t with Some VM => VM.1 | None => [] end.

(** What a thread of the finished recording returned. *)
Definition result (t : Z) : Z :=
  match a_prog s !! t with Some (PRet r) => r | _ => 0 end.

Lemma tevents_none t : progs !! t = None → taccs t E = [].
Proof.
  intros Hp. unfold taccs. destruct (tevents t E) as [|e l] eqn:Et; [done|].
  assert (e ∈ tevents t E) as He by (rewrite Et; set_solver).
  apply tevents_elem in He as [<- He].
  destruct (hw_event _ _ _ _ _ Hwf e He) as (_ & _ & [p Hp']). congruence.
Qed.

Lemma logs_of_lookup t : is_Some (progs !! t) →
  ∃ VM, logs_of logs !! Z.to_nat t = Some VM ∧ 0 ≤ t ∧ vlog t = VM.1 ∧
    logs_ok (taccs t E) VM.1 VM.2.
Proof.
  intros [H0 Ht]%lookup_map_seqZ_is_Some.
  destruct (lookup_lt_is_Some_2 (logs_of logs) (Z.to_nat t)) as [VM HVM].
  { unfold logs_of. rewrite length_fmap, (rl_length _ HL). lia. }
  exists VM. split_and!; [done..| |].
  - unfold vlog. by rewrite lookup_map_seqZ_0, HVM by lia.
  - rewrite <- (Z2Nat.id t) at 1 by done. by apply (rl_ok _ HL).
Qed.

Lemma vlog_ok t : version_log_ok (taccs t E) (vlog t).
Proof.
  destruct (progs !! t) as [p|] eqn:Hp.
  - destruct (logs_of_lookup t) as (VM & _ & _ & -> & []); [eauto|]. by constructor.
  - rewrite (tevents_none t Hp). unfold vlog.
    replace ((map_seqZ 0 (logs_of logs) : gmap Z _) !! t)
      with (@None (list wait_version * list wait_memop)).
    + constructor; [set_solver|constructor|done].
    + symmetry. apply lookup_map_seqZ_None. apply lookup_map_seqZ_None in Hp.
      unfold logs_of. by rewrite length_fmap, (rl_length _ HL).
Qed.

Lemma init_thread p i s' : logs !! i = Some s' → is_Some (ps !! i) →
  ∃ th, Replay.mem_init_thr (logs_wait_version s') p = Ok th ∧ rt_prog th = p ∧
    rt_pc th = PcStart ∧
    vlog_at vlog (Z.of_nat i) 0 (rt_wait_version th) (rt_wait_version_log th).
Proof.
  intros Hi Hp. destruct (rl_ends _ HL _ _ Hi) as [-> _].
  assert (vlog (Z.of_nat i) = strip (logs_wait_version s')) as HV.
  { unfold vlog, logs_of. rewrite lookup_map_seqZ_0, Nat2Z.id, list_lookup_fmap, Hi by lia. done. }
  pose proof (vlog_ok (Z.of_nat i)) as Hok. rewrite HV in Hok.
  assert (filter (λ e, 0 ≤ wv_memop e) (strip (logs_wait_version s')) =
          strip (logs_wait_version s')) as Hall.
  { apply filter_all. intros e He. by destruct (vl_sound _ _ Hok e He). }
  unfold Replay.mem_init_thr, vlog_at. rewrite HV, Hall.
  destruct (strip (logs_wait_version s')) as [|wv V] eqn:EV; cbn.
  - eexists. split_and!; [done..|]. by left.
  - destruct (vl_sound _ _ Hok wv) as [? _]; [set_solver|]. rewrite decide_False by lia. cbn.
    eexists. split_and!; [done..|]. right. by exists V.
Qed.

Lemma init_threads : ∃ ths,
  mapM (λ pv, Replay.mem_init_thr pv.2 pv.1) (zip ps (logs_wait_version <$> logs)) = Ok ths ∧
  length ths = length ps ∧
  ∀ i th, ths !! i = Some th → ps !! i = Some (rt_prog th) ∧ rt_pc th = PcStart ∧
    vlog_at vlog (Z.of_nat i) 0 (rt_wait_version th) (rt_wait_version_log th).
Proof.
  pose proof (rl_length _ HL) as Hlen.
  assert (∀ i pv, zip ps (logs_wait_version <$> logs) !! i = Some pv →
    ∃ s', ps !! i = Some pv.1 ∧ logs !! i = Some s' ∧ pv.2 = logs_wait_version s') as Hzip.
  { intros i pv Hi. apply lookup_zip_with_Some in Hi as (p & v & -> & Hp & Hv).
    apply list_lookup_fmap_Some in Hv as (s' & -> & Hs'). by exists s'. }
  destruct (mapM_exists (λ pv, Replay.mem_init_thr pv.2 pv.1)
    (λ pv th, Replay.mem_init_thr pv.2 pv.1 = Ok th)
    (zip ps (logs_wait_version <$> logs))) as (ths & Hths & HF).
  { intros pv [i Hi]%list_elem_of_lookup_1. destruct (Hzip i pv Hi) as (s' & Hp & Hs' & ->).
    destruct (init_thread pv.1 i s' Hs') as (th & ? & _); eauto. }
  exists ths. split_and!; [done|..].
  - apply Forall2_length in HF. rewrite length_zip, length_fmap in HF. lia.
  - intros i th Hi. destruct (Forall2_lookup_r _ _ _ _ _ HF Hi) as (pv & Hpv & Hth).
    destruct (Hzip i pv Hpv) as (s' & Hp & Hs' & Ev). rewrite Ev in Hth.
    destruct (init_thread pv.1 i s' Hs') as (th' & Hth' & Hpr & Hpc & Hvl); [eauto|].
    rewrite Hth' in Hth. injection Hth as ->. by rewrite Hpr.
Qed.

Context (Hfin : a_finished s) (P : list (que_ent wait_memop)) (wrl : gmap Z replay_wait_memop_log).
Context (HP : preprocessed P wrl).

Lemma obj_log_elem o r : r ∈ obj_log P o ↔ ∃ i VM w, logs_of logs !! i = Some VM ∧ w ∈ VM.2 ∧
  wm_objid w = o ∧ r = ReplayWaitMemop (wm_version w) (wm_memop w) (Z.of_nat i).
Proof.
  unfold obj_log. rewrite list_elem_of_fmap. split.
  - intros (q & -> & [Ho Hq]%list_elem_of_filter). rewrite (pp_perm _ _ HP) in Hq.
    apply entries_elem in Hq as (i & VM & Hi & Ht & Hw). exists i, VM, (qe_wop q).
    split_and!; [done..|]. unfold mwm. by rewrite Ht.
  - intros (i & VM & w & Hi & Hw & Ho & ->). exists (QueEnt (Z.of_nat i) w).
    split; [done|]. apply list_elem_of_filter. split; [done|].
    rewrite (pp_perm _ _ HP). apply entries_elem. by exists i, VM.
Qed.

Lemma obj_log_sound o r : r ∈ obj_log P o → ∃ f, f ∈ E ∧ ev_tid f = rwm_tid r ∧
  ev_memop f = rwm_memop r ∧ ev_kind f = RD ∧ ev_obj f = o ∧ ev_ver f = rwm_version r.
Proof.
  intros (i & VM & w & Hi & Hw & <- & ->)%obj_log_elem. cbn.
  destruct (lk_memop_sound _ _ _ (rl_ok _ HL _ _ Hi) w Hw) as [H0 Ha].
  apply taccs_lookup in Ha as (e & He & [= Ek Eo Ev]).
  pose proof (hw_memop _ _ _ _ _ Hwf _ _ _ He) as Hm.
  apply list_elem_of_lookup_2, tevents_elem in He as [Ht Hin].
  exists e. split_and!; try done. lia.
Qed.

Lemma obj_log_complete o f : f ∈ E → ev_kind f = RD → ev_obj f = o →
  (∃ r, r ∈ obj_log P o ∧ rwm_tid r = ev_tid f ∧ rwm_version r = ev_ver f ∧
     ev_memop f ≤ rwm_memop r) ∨
  (∃ g, g ∈ E ∧ ev_tid g = ev_tid f ∧ is_write o g ∧ ev_ver g = ev_ver f).
Proof.
  intros Hf Kf Of. destruct (tevents_at _ _ _ _ _ _ Hwf Hf) as [H0 Hat].
  destruct (hw_event _ _ _ _ _ Hwf f Hf) as (_ & _ & Hp).
  destruct (logs_of_lookup _ Hp) as (VM & Hi & Ht0 & _ & Hok).
  destruct (lk_memop_complete _ _ _ Hok (Z.to_nat (ev_memop f)) o (ev_ver f))
    as [(m & Hm & Hin)|(j & _ & Hj)].
  - apply taccs_lookup. exists f. split; [done|]. unfold ev_access. by rewrite Kf, Of.
  - left. exists (ReplayWaitMemop (ev_ver f) (Z.of_nat m) (ev_tid f)). cbn.
    split_and!; [|done..|lia]. apply obj_log_elem.
    exists (Z.to_nat (ev_tid f)), VM, (WaitMemop o (ev_ver f) (Z.of_nat m)).
    split_and!; [done..|]. cbn. by rewrite Z2Nat.id.
  - right. apply taccs_lookup in Hj as (g & Hg & [= Kg Og Vg]).
    apply list_elem_of_lookup_2, tevents_elem in Hg as [Tg Hg]. by exists g.
Qed.

Lemma logs_recorded :
  recorded calc_objid nobj mem0 progs E vlog (obj_log P) result.
Proof.
  constructor.
  - apply Hwf.
  - intros t p Hp. destruct (history_prog _ _ _ _ _ _ _ _ HE Hp) as (q & Hq & Htr).
    destruct (Hfin t q Hq) as [r ->]. unfold result. by rewrite Hq.
  - apply vlog_ok.
  - intros o Ho. constructor; [|apply obj_log_sound|apply obj_log_complete].
    unfold obj_log. eapply StronglySorted_fmap; [|apply StronglySorted_filter, (pp_sorted _ _ HP)].
    intros a b [Ea _]%list_elem_of_filter [Eb _]%list_elem_of_filter. unfold qle, key_le; cbn. lia.
  - intros e. by eapply history_event_addr.
Qed.

(** ** Lemmas: the initial state *)

Section init.
Context (ths : list rthread) (Hlen : length ths = length ps).
Context (Hths : ∀ i th, ths !! i = Some th → ps !! i = Some (rt_prog th) ∧ rt_pc th = PcStart ∧
  vlog_at vlog (Z.of_nat i) 0 (rt_wait_version th) (rt_wait_version_log th)).

Definition init_state : rstate :=
  RState mem0 (arr_make nobj 0) (arr_make (Z.of_nat (length ps)) 0) wrl (map_seqZ 0 ths).

Lemma init_thr t th : r_thr init_state !! t = Some th →
  0 ≤ t < Z.of_nat (length ps) ∧ progs !! t = Some (rt_prog th) ∧ rt_pc th = PcStart ∧
  vlog_at vlog t 0 (rt_wait_version th) (rt_wait_version_log th).
Proof.
  cbn. intros [H0 Ht]%lookup_map_seqZ_Some. rewrite Z.sub_0_r in Ht.
  apply lookup_lt_Some in Ht as Hlt. destruct (Hths _ _ Ht) as (Hp & Hpc & Hv).
  rewrite Z2Nat.id in Hv by done. rewrite lookup_map_seqZ_0 by done. split_and!; [lia..|done|done|done].
Qed.

Lemma init_ov o x : obj_version init_state !! o = Some x → x = 0 ∧ 0 ≤ o < nobj.
Proof. cbn. rewrite lookup_arr_make. case_decide; [|done]. by intros [= <-]. Qed.

Lemma init_not_done e : e ∈ E → ¬ ev_done (memop_cnt init_state) e.
Proof.
  intros He (n & Hn & Hlt). destruct (tevents_at _ _ _ _ _ _ Hwf He) as [H0 _].
  cbn in Hn. rewrite lookup_arr_make in Hn. case_decide; [|done]. injection Hn as <-. lia.
Qed.

Lemma init_not_bumped e : e ∈ E → ¬ bumped init_state e.
Proof.
  intros He [?|(_ & th & Hth & Hpc)]; [by eapply init_not_done|].
  apply init_thr in Hth as (_ & _ & Hpc' & _). congruence.
Qed.

Lemma init_not_storing t th o : r_thr init_state !! t = Some th → ¬ storing calc_objid o th.
Proof. intros (_ & _ & Hpc & _)%init_thr [_ H]. by rewrite Hpc in H. Qed.

Lemma init_thread_ok t th : r_thr init_state !! t = Some th →
  thread_ok E vlog (obj_log P) result (memop_cnt init_state) (obj_version init_state) wrl t th.
Proof.
  intros Hth. destruct (init_thr _ _ Hth) as (Ht & Hp & Hpc & Hv). constructor.
  - exists 0%nat. cbn. rewrite lookup_arr_make, decide_True, Hpc by done. split_and!; [done| |done].
    rewrite drop_0. by apply (rd_trace _ _ _ _ _ _ _ _ logs_recorded).
  - intros k e x w _ _ _ _. unfold pc_ok. by rewrite Hpc.
  - done.
Qed.

Lemma init_wrl o x w : obj_version init_state !! o = Some x → wrl !! o = Some w →
  wrl_ok calc_objid (obj_log P) init_state o x w.
Proof.
  intros [-> Ho]%init_ov Hw. destruct (pp_loaded _ _ HP _ _ Hw) as (Ht & Hs & Hn & Hm).
  constructor; rewrite ?Hn, ?Hm; try done.
  - lia.
  - intros j r Hj. lia.
  - intros j r _ (f & Hf & _ & _ & _ & _ & <-)%list_elem_of_lookup_2%obj_log_sound.
    apply (hw_even _ _ _ _ _ Hwf f Hf).
Qed.

Lemma init_inv : rinv calc_objid nobj mem0 progs E vlog (obj_log P) result init_state.
Proof.
  constructor.
  - intros t. cbn. by rewrite !lookup_map_seqZ_is_Some, Hlen.
  - intros o. cbn. rewrite lookup_arr_make. by case_decide.
  - apply (pp_dom _ _ HP).
  - done.
  - apply init_thread_ok.
  - intros o x [-> _]%init_ov. done.
  - intros e x He [-> _]%init_ov _. apply (hw_even _ _ _ _ _ Hwf e He).
  - intros e x He _ _ []%init_not_bumped. done.
  - intros e x He _ []%init_not_done. done.
  - apply init_wrl.
  - intros a x [-> _]%init_ov _. symmetry. apply vmem_initial.
    intros e He _ _. apply (hw_even _ _ _ _ _ Hwf e He).
  - intros a x t th _ Hth Hst. by eapply init_not_storing in Hst.
Qed.
End init.
End files.

(** The tools and the replayer's initialisation succeed, and the state they
    leave satisfies the invariant of the replay. *)
Lemma prepare_ok :
  a_finished s → (length ps ≤ 127)%nat → Z.of_nat (length E) < 2 ^ 31 →
  ∃ r0 V L, prepare R Q nobj mem0 ps E = Ok r0 ∧
    recorded calc_objid nobj mem0 progs E V L result ∧
    rinv calc_objid nobj mem0 progs E V L result r0.
Proof.
  intros Hfin Hthr Hlen. destruct record_all_ok as (logs & Hrec & HL).
  destruct (preprocess_ok logs HL Hthr Hlen) as (P & merged & wrl & Hpre & Hload & HP & _).
  destruct (init_threads logs HL) as (ths & Hini & Hl & Hths).
  exists (init_state wrl ths), (vlog logs), (obj_log P). split_and!.
  - unfold prepare, prepare_logs. rewrite Hrec. cbn [mbind outcome_bind]. rewrite Hpre. cbn [mbind outcome_bind].
    unfold replay_init. rewrite Hload. cbn [mbind outcome_bind]. by rewrite Hini.
  - by eapply logs_recorded.
  - by eapply init_inv.
Qed.
End prepare.

(** The threads a replay starts with. *)
Lemma replay_init_threads nobj mem0 ps vlogs merged r :
  replay_init nobj mem0 ps vlogs merged = Ok r →
  ∀ t th, r_thr r !! t = Some th →
    (map_seqZ 0 ps : gmap Z prog) !! t = Some (rt_prog th) ∧ rt_pc th = PcStart ∧
    memop_cnt r !! t = Some 0.
Proof.
  unfold replay_init. intros (wrl & _ & (ths & HF%mapM_Ok & [= <-])%bind_Ok)%bind_Ok t th Hth.
  cbn in *. apply lookup_map_seqZ_Some in Hth as [Ht Hth]. destruct (Forall2_lookup_r _ _ _ _ _ HF Hth) as ([p v] & Hpv & Hi).
  apply lookup_zip_with_Some in Hpv as (p' & v' & [= -> ->] & Hp & _).
  unfold Replay.mem_init_thr in Hi. cbn in Hi. apply bind_Ok in Hi as ([wv log] & _ & [= <-]). cbn.
  split_and!; [by apply lookup_map_seqZ_Some|done|].
  apply lookup_lt_Some in Hp. rewrite lookup_arr_make, decide_True by lia. done.
Qed.
