(* ===== verification/Correctness.v ===== *)
(** * Correctness: record, preprocess and replay, end to end

    The theorems about the whole system.  [R] is any recorder and [Q] any
    priority queue that keep their interfaces' promises; [E] is any finished
    recording of the client threads [ps], of any interleaving. *)
From S2P Require Import Prelude Mem Record History Reorder PQueue KWay Merge Sched Replay ReplayProof Pipeline.

(** A finished recording of the threads [ps] that ended in state [s], within the
    tools' limits: thread ids are 8 bits wide, entry counts 32. *)
Record recording (calc_objid : Z → Z) (nobj : Z) (mem0 : gmap Z Z) (ps : list prog)
    (E : list event) (s : astate) : Prop := {
  rec_history : history calc_objid nobj mem0 (map_seqZ 0 ps) E s;
  rec_finished : a_finished s;
  rec_threads : (length ps ≤ 127)%nat;
  rec_events : Z.of_nat (length E) < 2 ^ 31 }.

Section correctness.
Context (R : recorder) {HR : recorder_ok R} (Q : prio_queue qe_gt) {HQ : prio_queue_ok Q}.
Context (calc_objid : Z → Z) (nobj : Z) (mem0 : gmap Z Z) (ps : list prog).
Context (E : list event) (s : astate).

(** Every state a replay reaches satisfies the invariant. *)
Lemma replay_inv r0 sched r :
  recording calc_objid nobj mem0 ps E s →
  prepare R Q nobj mem0 ps E = Ok r0 → rrun calc_objid sched r0 = Ok r →
  ∃ V L, recorded calc_objid nobj mem0 (map_seqZ 0 ps) E V L (result s) ∧
    rinv calc_objid nobj mem0 (map_seqZ 0 ps) E V L (result s) r0 ∧
    rinv calc_objid nobj mem0 (map_seqZ 0 ps) E V L (result s) r.
Proof.
  intros [] Hp Hrun. destruct (prepare_ok R Q calc_objid nobj mem0 ps E s)
    as (r0' & V & L & Hp' & HRec & Hr0); [done..|].
  rewrite Hp in Hp'. injection Hp' as <-.
  destruct (rrun_ok _ _ _ _ _ _ _ _ HRec sched r0 Hr0) as (r' & Hrun' & Hr).
  rewrite Hrun in Hrun'. injection Hrun' as <-. eauto.
Qed.

(** C6: the tools accept every recording, and no interleaving of the replaying
    threads fails an assertion, aborts on a concurrent access to a reader log,
    or leaves its arrays and mappings. *)
Theorem replay_never_fails :
  recording calc_objid nobj mem0 ps E s →
  ∃ r0, prepare R Q nobj mem0 ps E = Ok r0 ∧
    ∀ sched, ∃ r, rrun calc_objid sched r0 = Ok r.
Proof.
  intros []. destruct (prepare_ok R Q calc_objid nobj mem0 ps E s)
    as (r0 & V & L & Hp & HRec & Hr0); [done..|].
  exists r0. split; [done|]. intros sched.
  destruct (rrun_ok _ _ _ _ _ _ _ _ HRec sched r0 Hr0) as (r & ? & _). eauto.
Qed.

(** A finished state that satisfies the invariant is where the recording ended. *)
Lemma inv_final V L r :
  recording calc_objid nobj mem0 ps E s →
  recorded calc_objid nobj mem0 (map_seqZ 0 ps) E V L (result s) →
  rinv calc_objid nobj mem0 (map_seqZ 0 ps) E V L (result s) r → r_finished r →
  (∀ a, 0 ≤ calc_objid a < nobj → r_mem r !! a = a_mem s !! a) ∧
  (∀ t th, r_thr r !! t = Some th → a_prog s !! t = Some (rt_prog th)).
Proof.
  intros [HE Hfin _ _] HRec Hr Hf. split.
  - intros a Ha. rewrite (history_mem _ _ _ _ _ _ _ _ HE (history_ver _ _ _ _ _ _ _ HE Ha)).
    eapply (finished_mem _ _ _ _ _ _ _ _ HRec); [done..|]. intros e He Ke <-.
    destruct (history_event _ _ _ _ _ _ _ HE He) as (Eo & _).
    destruct (history_ver_bound _ _ _ _ _ _ _ HE He) as (_ & Hb & _).
    rewrite decide_True, Eo in Hb by done. lia.
  - intros t th Hth. erewrite (finished_result _ _ _ _ _ _ _ _ r t th Hr Hf Hth).
    destruct (proj1 (ri_dom _ _ _ _ _ _ _ _ _ Hr t)) as [p Hp']; [eauto|].
    destruct (history_prog _ _ _ _ _ _ _ _ HE Hp') as (q & Hq & _).
    destruct (Hfin t q Hq) as [v ->]. unfold result. by rewrite Hq.
Qed.

(** A replay that finishes ends where the recording ended. *)
Lemma replay_final r0 sched r :
  recording calc_objid nobj mem0 ps E s →
  prepare R Q nobj mem0 ps E = Ok r0 → rrun calc_objid sched r0 = Ok r → r_finished r →
  (∀ a, 0 ≤ calc_objid a < nobj → r_mem r !! a = a_mem s !! a) ∧
  (∀ t th, r_thr r !! t = Some th → a_prog s !! t = Some (rt_prog th)).
Proof.
  intros Hrec Hp Hrun Hf. destruct (replay_inv r0 sched r Hrec Hp Hrun) as (V & L & HRec & _ & Hr).
  by eapply inv_final.
Qed.

(** C5: a replay that finishes, whatever its interleaving, leaves in every
    address of every object the value the recording left there, and every thread
    returns what it returned when it was recorded. *)
Theorem replay_reproduces r0 sched r :
  recording calc_objid nobj mem0 ps E s →
  prepare R Q nobj mem0 ps E = Ok r0 → rrun calc_objid sched r0 = Ok r → r_finished r →
  (∀ a, 0 ≤ calc_objid a < nobj → r_mem r !! a = a_mem s !! a) ∧
  (∀ t th, r_thr r !! t = Some th → a_prog s !! t = Some (rt_prog th)).
Proof. apply replay_final. Qed.

(** C8: as long as some thread has not returned, some thread can take a step
    that changes the state: the waits of the replayer never form a cycle. *)
Theorem replay_deadlock_free r0 sched r :
  recording calc_objid nobj mem0 ps E s →
  prepare R Q nobj mem0 ps E = Ok r0 → rrun calc_objid sched r0 = Ok r →
  r_finished r ∨ ∃ t r', rstep calc_objid t r = Ok r' ∧ r' ≠ r.
Proof.
  intros Hrec Hp Hrun. destruct (replay_inv r0 sched r Hrec Hp Hrun) as (V & L & HRec & _ & Hr).
  destruct (progress _ _ _ _ _ _ _ _ HRec r Hr) as [?|(t & r' & Hst & _ & Hlt)]; [by left|].
  right. exists t, r'. split; [done|]. intros ->. lia.
Qed.

(** C7: there is a number of rounds after which every fair schedule has
    finished, however the threads are ordered inside the rounds. *)
Theorem replay_terminates :
  recording calc_objid nobj mem0 ps E s →
  ∃ r0 bound, prepare R Q nobj mem0 ps E = Ok r0 ∧
    ∀ rounds, Forall (fair (λ t, is_Some ((map_seqZ 0 ps : gmap Z prog) !! t))) rounds → (bound ≤ length rounds)%nat →
      ∃ r, rrun calc_objid (concat rounds) r0 = Ok r ∧ r_finished r.
Proof.
  intros []. destruct (prepare_ok R Q calc_objid nobj mem0 ps E s)
    as (r0 & V & L & Hp & HRec & Hr0); [done..|].
  eexists r0, _. split; [done|]. intros rounds Hf Hlen.
  destruct (fair_rounds_finish _ (HM := replay_live _ _ _ _ _ _ _ _ HRec) rounds _ r0 (conj Hr0 eq_refl) Hf Hlen)
    as (r & _ & ? & _ & ?).
  eauto.
Qed.
End correctness.

(** ** A concrete recording

    Two threads and two objects of one address each: each thread writes one
    object, reads the other and returns what it read. *)

Definition demo_prog (mine other : Z) : prog :=
  PWrite mine 1 (PRead other (λ v, PWrite mine (v + 5) (PRead mine PRet))).

Definition demo_threads : list prog := [demo_prog 0 1; demo_prog 1 0].

Definition demo_mem : gmap Z Z := {[0 := 0; 1 := 0]}.

Definition demo_run : option (list event * astate) :=
  arun (λ a, a) 2 demo_mem (map_seqZ 0 demo_threads) [0; 0; 1; 0; 1; 1; 0; 1].

Definition demo_events : list event := default [] (fst <$> demo_run).
Definition demo_state : astate := default (AState ∅ ∅ ∅ ∅) (snd <$> demo_run).

Lemma demo_recording :
  recording (λ a, a) 2 demo_mem demo_threads demo_events demo_state.
Proof.
  split.
  - apply (arun_history _ _ _ _ [0; 0; 1; 0; 1; 1; 0; 1]). vm_compute. reflexivity.
  - apply (bool_decide_unpack _). vm_compute. exact I.
  - cbn. lia.
  - vm_compute. reflexivity.
Qed.

Definition demo_replay : outcome rstate :=
  prepare seqlock_recorder (sorted_queue qe_gt) 2 demo_mem demo_threads demo_events.

(** The state a replay of it starts from, and the one a fair schedule ends in. *)
Definition demo_start : rstate := value (RState ∅ ∅ ∅ ∅ ∅) demo_replay.
Definition demo_sched : list Z := concat (replicate 60 [1; 0]).
Definition demo_end : rstate := value demo_start (rrun (λ a, a) demo_sched demo_start).

Lemma demo_start_ok :
  prepare seqlock_recorder (sorted_queue qe_gt) 2 demo_mem demo_threads demo_events = Ok demo_start.
Proof. vm_compute. reflexivity. Qed.

Lemma demo_end_ok : rrun (λ a, a) demo_sched demo_start = Ok demo_end.
Proof. vm_compute. reflexivity. Qed.

Lemma replay_never_fails_witness :
  recording (λ a, a) 2 demo_mem demo_threads demo_events demo_state ∧
  ∃ r0, prepare seqlock_recorder (sorted_queue qe_gt) 2 demo_mem demo_threads demo_events = Ok r0 ∧
    ∀ sched, ∃ r, rrun (λ a, a) sched r0 = Ok r.
Proof.
  split; [apply demo_recording|].
  exact (replay_never_fails seqlock_recorder (sorted_queue qe_gt) _ 2 demo_mem demo_threads
           demo_events demo_state demo_recording).
Defined.

Lemma replay_reproduces_witness :
  r_mem demo_end !! 0 = a_mem demo_state !! 0 ∧ r_mem demo_end !! 0 = Some 5 ∧
  ∀ t th, r_thr demo_end !! t = Some th → a_prog demo_state !! t = Some (rt_prog th).
Proof.
  destruct (replay_reproduces seqlock_recorder (sorted_queue qe_gt) (λ a, a) 2 demo_mem
    demo_threads demo_events demo_state demo_start demo_sched demo_end demo_recording
    demo_start_ok demo_end_ok) as [Hm Ht].
  - apply (bool_decide_unpack _). vm_compute. exact I.
  - split; [apply Hm; lia|]. split; [vm_compute; reflexivity|exact Ht].
Defined.

Lemma replay_deadlock_free_witness :
  r_finished demo_start ∨ ∃ t r', rstep (λ a, a) t demo_start = Ok r' ∧ r' ≠ demo_start.
Proof.
  apply (replay_deadlock_free seqlock_recorder (sorted_queue qe_gt) (λ a, a) 2 demo_mem
    demo_threads demo_events demo_state demo_start [] demo_start demo_recording demo_start_ok).
  reflexivity.
Defined.

Lemma replay_terminates_witness :
  ∃ r0 bound, prepare seqlock_recorder (sorted_queue qe_gt) 2 demo_mem demo_threads demo_events
      = Ok r0 ∧
    ∀ rounds, Forall (fair (λ t, is_Some ((map_seqZ 0 demo_threads : gmap Z prog) !! t))) rounds → (bound ≤ length rounds)%nat →
      ∃ r, rrun (λ a, a) (concat rounds) r0 = Ok r ∧ r_finished r.
Proof.
  exact (replay_terminates seqlock_recorder (sorted_queue qe_gt) (λ a, a) 2 demo_mem demo_threads
           demo_events demo_state demo_recording).
Defined.
