(* ===== verification/Files.v ===== *)
(** * Files: the pipeline on files of bytes

    The recorders, the tools and the replayer exchange files.  Here each of them
    reads and writes bytes under the names of [Paths], with the layouts of
    [MappedLog], and the theorem is that the pipeline on files starts the replay
    from the state the pipeline on lists of entries starts it from: every entry
    fits its machine types, no file is overwritten, and none is read before it is
    written. *)
From Stdlib Require Import Ascii.
From stdpp Require Import strings pretty.
From S2P Require Import Prelude Mem MappedLog Paths Text Record History Reorder PQueue KWay Merge Sched Replay ReplayProof Pipeline Correctness.

#[local] Open Scope string_scope.
#[local] Open Scope Z_scope.

(** ** The program *)

(** An array of structures in a mapped file. *)
Definition decode_file {A} `{log_entry A} (f : list Z) : list A :=
  let size := Z.to_nat (entry_size (A := A)) in
  decode <$> reshape (replicate (length f / size) size) f.

(** The bytes of such an array. *)
Definition file_bytes {A} `{log_entry A} (l : list A) : list Z := l ≫= encode.

(** The index file is an array of [int]. *)
Definition ints_bytes (l : list Z) : list Z := l ≫= le_bytes 4.
Definition decode_ints (f : list Z) : list Z :=
  field_at 4 0 <$> reshape (replicate (length f / 4) 4%nat) f.

Section program.
Context (addr : string → nat → Z) (Q : prio_queue qe_gt).

(** A log from its creation by [new_mapped_log] to [unmap_truncate_log]. *)
Definition write_file {A} `{log_entry A} (name : string) (id : Z) (l : list A) (fs : file_system)
    : outcome file_system :=
  path ← logpath name id;
  f ← write_log (addr path) l;
  Ok (<[path := f]> fs).

(** [open_mapped_log_path]: the bytes that are mapped, if there is such a file. *)
Definition map_path (path : string) (fs : file_system) : outcome (option (list Z)) :=
  match open_mapped_log (addr path 0%nat) (fs !! path) with
  | Ok log => Ok (ml_file <$> log)
  | Err e => Err e
  end.

(** [open_mapped_log]. *)
Definition map_file (name : string) (id : Z) (fs : file_system) : outcome (option (list Z)) :=
  path ← logpath name id;
  map_path path fs.

(** The files threads [i], [i + 1], ... leave when they finish. *)
Fixpoint record_files (i : Z) (logs : list tls) (fs : file_system) : outcome file_system :=
  match logs with
  | [] => Ok fs
  | s :: logs =>
      fs ← write_file "version" i (logs_wait_version s) fs;
      fs ← write_file "memop" i (logs_wait_memop s) fs;
      record_files (i + 1) logs fs
  end.

(** [reorder-memop nobj tid]; the result of [open_mapped_log] is not tested, and
    without the file [log.buf] is [NULL]. *)
Definition reorder_file (nobj tid : Z) (fs : file_system) : outcome file_system :=
  f ← map_file "memop" tid fs;
  match f with
  | None => Err BadAccess
  | Some f =>
      out ← reorder_main nobj (decode_file f);
      match out with
      | None => Ok fs
      | Some l => path ← logpath "sorted-memop" tid; Ok (<[path := l ≫= encode]> fs)
      end
  end.

(** The loop of [process_memorder_log]: the shell goes on after a run that fails,
    which leaves no file. *)
Definition reorder_files (nobj : Z) (tids : list Z) (fs : file_system) : file_system :=
  foldl (λ fs tid, value fs (reorder_file nobj tid fs)) fs tids.

(** The files [merge-memop] reads: their total size, and the entries in them. *)
Definition total_size (sorted : list (option (list Z))) : Z :=
  Z.of_nat (sum_list_with (λ f, length (default [] f)) sorted).
Definition sorted_entries (sorted : list (option (list Z))) : list (option (list wait_memop)) :=
  (λ f, option_map decode_file f) <$> sorted.

(** [merge-memop nobj nthr]. *)
Definition merge_file (nobj nthr : Z) (fs : file_system) : outcome file_system :=
  sorted ← mapM (λ i, map_file "sorted-memop" i fs) (seqZ 0 nthr);
  _ ← c_assert (total_size sorted mod 24 = 0);
  merged ← merge_main Q nobj (sorted_entries sorted);
  match merged with
  | None => Ok fs
  | Some (memops, index) =>
      Ok (<[LOGDIR +:+ "memop-index" := ints_bytes index]> (<[LOGDIR +:+ "memop" := memops ≫= encode]> fs))
  end.

(** [process_memorder_log] of [test.sh]. *)
Definition process_memorder_log (nobj nthr : Z) (fs : file_system) : outcome file_system :=
  merge_file nobj nthr (reorder_files nobj (seqZ 0 nthr) fs).

(** [mem_init] and every [mem_init_thr] of the replayer. *)
Definition replay_init_files (nobj : Z) (mem0 : gmap Z Z) (ps : list prog) (fs : file_system)
    : outcome rstate :=
  memops ← map_path (LOGDIR +:+ "memop") fs;
  index ← match memops with
    | Some _ => map_path (LOGDIR +:+ "memop-index") fs
    | None => Ok None
    end;
  wrl ← load_wait_reader_log nobj (option_map decode_file memops) (option_map decode_ints index);
  ths ← mapM (λ pt,
      f ← map_file "version" pt.2 fs;
      match f with
      | None => Err ExitFailure
      | Some f => Replay.mem_init_thr (decode_file f) pt.1
      end) (zip ps (seqZ 0 (Z.of_nat (length ps))));
  Ok (RState mem0 (arr_make nobj 0) (arr_make (Z.of_nat (length ps)) 0) wrl (map_seqZ 0 ths)).

(** [rm -f replay-log/{memop*,version*,sorted-*,commit*}] of [test.sh]. *)
Definition rm_logs (fs : file_system) : file_system :=
  filter (λ pf, Forall (λ pre, String.prefix (LOGDIR +:+ pre) pf.1 = false)
    ["memop"; "version"; "sorted-"; "commit"]) fs.

(** Everything between the recording and the replay, on files. *)
Definition prepare_files (nobj : Z) (mem0 : gmap Z Z) (ps : list prog) (logs : list tls)
    (fs : file_system) : outcome rstate :=
  fs ← record_files 0 logs (rm_logs fs);
  fs ← process_memorder_log nobj (Z.of_nat (length ps)) fs;
  replay_init_files nobj mem0 ps fs.
End program.

(** ** Lemmas: arrays of structures *)

Lemma reshape_bind {A B} (f : A → list B) (n : nat) (l : list A) :
  (∀ a, length (f a) = n) → reshape (replicate (length l) n) (l ≫= f) = f <$> l.
Proof.
  intros Hn. induction l as [|a l IH]; [done|]. cbn. f_equal.
  - by rewrite take_app_length' by by rewrite Hn.
  - by rewrite drop_app_length' by by rewrite Hn.
Qed.

Lemma length_bind_const {A B} (f : A → list B) (n : nat) (l : list A) :
  (∀ a, length (f a) = n) → length (l ≫= f) = (length l * n)%nat.
Proof. intros Hn. induction l as [|a l IH]; [done|]. cbn. by rewrite length_app, Hn, IH. Qed.

Lemma decode_file_bytes {A} `{log_entry_ok A} (l : list A) :
  Forall valid l → decode_file (l ≫= encode) = l.
Proof.
  intros Hv. pose proof entry_size_range as Hs. unfold decode_file.
  assert (∀ a : A, length (encode a) = Z.to_nat (entry_size (A := A))) as He.
  { intros a. pose proof (length_encode a). lia. }
  rewrite (length_bind_const _ _ _ He), Nat.div_mul by lia.
  rewrite (reshape_bind _ _ _ He), <- list_fmap_compose.
  induction Hv as [|a l Ha _ IH]; [done|]. cbn. by rewrite decode_encode, IH.
Qed.

Lemma decode_ints_bytes (l : list Z) : Forall int32 l → decode_ints (ints_bytes l) = l.
Proof.
  intros Hv. unfold decode_ints, ints_bytes.
  rewrite (length_bind_const _ _ _ (length_le_bytes 4)), Nat.div_mul by lia.
  rewrite (reshape_bind _ _ _ (length_le_bytes 4)), <- list_fmap_compose.
  induction Hv as [|a l Ha _ IH]; [done|]. cbn -[le_bytes field_at]. rewrite IH. f_equal.
  by apply field_at_signed; [lia| |].
Qed.

Lemma bytes_not_nil {A} `{log_entry_ok A} (l : list A) : l ≠ [] → l ≫= encode ≠ [].
Proof.
  destruct l as [|a l]; [done|]. intros _ Hb. pose proof (length_encode a) as Hl.
  pose proof entry_size_range. cbn in Hb. destruct (encode a); [cbn in *; lia|done].
Qed.

(** ** Lemmas: names *)

(** The logs of the pipeline. *)
Definition log_kinds : list string := ["version"; "memop"; "sorted-memop"; "commit"].

Lemma kind_version : "version" ∈ log_kinds.
Proof. unfold log_kinds. set_solver. Qed.
Lemma kind_memop : "memop" ∈ log_kinds.
Proof. unfold log_kinds. set_solver. Qed.
Lemma kind_sorted : "sorted-memop" ∈ log_kinds.
Proof. unfold log_kinds. set_solver. Qed.
Lemma kind_commit : "commit" ∈ log_kinds.
Proof. unfold log_kinds. set_solver. Qed.

Lemma logpath_short name i : name ∈ log_kinds → 0 ≤ i ≤ 127 → logpath name i = Ok (log_name name i).
Proof.
  intros Hname Hi. unfold logpath. rewrite decide_False; [done|].
  assert (forallb (λ name, forallb (λ i, Z.of_nat (String.length (log_name name i)) <? MAX_PATH_LEN)
    (seqZ 0 128)) log_kinds = true) as Hall by (vm_compute; reflexivity).
  rewrite List.forallb_forall in Hall. setoid_rewrite List.forallb_forall in Hall.
  assert (i ∈ seqZ 0 128) as Hin by (apply elem_of_seqZ; lia).
  apply list_elem_of_In in Hname, Hin. specialize (Hall name Hname i Hin). lia.
Qed.

Lemma log_name_ne name1 name2 i1 i2 : 0 ≤ i1 → 0 ≤ i2 → name1 ≠ name2 ∨ i1 ≠ i2 →
  log_name name1 i1 ≠ log_name name2 i2.
Proof. intros H1 H2 Hne Heq. apply log_name_inj in Heq; [|done..]. naive_solver. Qed.

(** The merged files are not the log of any thread. *)
Lemma log_name_memop name i : log_name name i ≠ LOGDIR +:+ "memop".
Proof.
  intros H%string_app_inj. assert (has_char "-" "memop") as Hc.
  { rewrite <- H, has_char_app, has_char_app. right; left. apply has_char_cons. by left. }
  unfold has_char in Hc. cbn in Hc. set_solver.
Qed.

Lemma log_name_index name i : 0 ≤ i → log_name name i ≠ LOGDIR +:+ "memop-index".
Proof.
  intros Hi H%string_app_inj. change "memop-index" with ("memop" +:+ "-" +:+ "index") in H.
  apply split_last_dash in H as [_ H]; [|by apply dash_not_digit|].
  - assert (has_char "i" (pretty i)) as Hc by (rewrite H; apply has_char_cons; by left).
    apply pretty_digits in Hc; [|done]. unfold digits in Hc. set_solver.
  - unfold has_char. cbn. set_solver.
Qed.

Lemma string_prefix_app (s t : string) : String.prefix s (s +:+ t) = true.
Proof.
  induction s as [|c s IH]; [by destruct t|].
  change ((if ascii_dec c c then String.prefix s (s +:+ t) else false) = true).
  by destruct (ascii_dec c c).
Qed.

Lemma rm_logs_none name i fs : name ∈ log_kinds → rm_logs fs !! log_name name i = None.
Proof.
  intros Hname. apply map_lookup_filter_None. right. intros f _ HF. cbn in HF.
  unfold log_kinds in Hname. rewrite !elem_of_cons, elem_of_nil in Hname.
  assert (∃ pre post, pre ∈ ["memop"; "version"; "sorted-"; "commit"] ∧ name = pre +:+ post)
    as (pre & post & Hpre & ->).
  { destruct Hname as [->|[->|[->|[->|[]]]]];
      [exists "version", ""|exists "memop", ""|exists "sorted-", "memop"|exists "commit", ""];
      (split; [set_solver|done]). }
  eapply list.Forall_forall in HF; [|done]. unfold log_name in HF.
  rewrite (string_app_assoc pre), <- string_app_assoc, string_prefix_app in HF. done.
Qed.

Lemma rm_logs_memop fs : rm_logs fs !! (LOGDIR +:+ "memop") = None.
Proof.
  apply map_lookup_filter_None. right. intros f _ HF. eapply list.Forall_forall in HF; [|by left].
  cbn in HF. done.
Qed.

(** ** Lemmas: the steps of the pipeline *)

(** The side conditions of the lemmas below. *)
Ltac path_side :=
  first [apply kind_version|apply kind_memop|apply kind_sorted|apply kind_commit|assumption|lia
        |apply bytes_not_nil; assumption].

Section steps.
Context (addr : string → nat → Z) (Haddr : ∀ path i, addr path i mod PAGE_SIZE = 0).

Lemma write_file_ok {A} `{log_entry_ok A} name i (l : list A) fs :
  name ∈ log_kinds → 0 ≤ i ≤ 127 →
  write_file addr name i l fs = Ok (<[log_name name i := l ≫= encode]> fs).
Proof.
  intros Hn Hi. unfold write_file. rewrite logpath_short by done. cbn [mbind outcome_bind].
  rewrite write_log_ok by auto. done.
Qed.

Lemma map_path_some path fs f : fs !! path = Some f → f ≠ [] → map_path addr path fs = Ok (Some f).
Proof. unfold map_path. intros -> Hf. by destruct f. Qed.

Lemma map_path_none path fs : fs !! path = None → map_path addr path fs = Ok None.
Proof. unfold map_path. by intros ->. Qed.

Lemma map_file_path name i fs : name ∈ log_kinds → 0 ≤ i ≤ 127 →
  map_file addr name i fs = map_path addr (log_name name i) fs.
Proof. intros Hn Hi. unfold map_file. by rewrite logpath_short. Qed.

Lemma record_files_ok i logs fs : 0 ≤ i → i + Z.of_nat (length logs) ≤ 128 →
  ∃ fs', record_files addr i logs fs = Ok fs' ∧
    (∀ j s, logs !! j = Some s →
       fs' !! log_name "version" (i + Z.of_nat j) = Some (logs_wait_version s ≫= encode) ∧
       fs' !! log_name "memop" (i + Z.of_nat j) = Some (logs_wait_memop s ≫= encode)) ∧
    (∀ path, (∀ j, i ≤ j → path ≠ log_name "version" j ∧ path ≠ log_name "memop" j) →
       fs' !! path = fs !! path).
Proof.
  revert i fs. induction logs as [|s logs IH]; intros i fs Hi Hl; cbn [record_files].
  { exists fs. split_and!; [done..|]. intros path _. done. }
  cbn [length] in Hl. rewrite !write_file_ok by path_side. cbn [mbind outcome_bind].
  rewrite !write_file_ok by path_side. cbn [mbind outcome_bind].
  destruct (IH (i + 1) (<[log_name "memop" i := logs_wait_memop s ≫= encode]>
    (<[log_name "version" i := logs_wait_version s ≫= encode]> fs))) as (fs' & -> & Hin & Hout); [lia..|].
  exists fs'. split_and!; [done| |].
  - intros [|j] s' Hs'; cbn in Hs'.
    + injection Hs' as <-. rewrite Z.add_0_r. split; rewrite Hout.
      * rewrite lookup_insert_ne by (apply log_name_ne; [lia..|by left]). by rewrite lookup_insert_eq.
      * intros j Hj. split; apply log_name_ne; try lia; by right; lia.
      * by rewrite lookup_insert_eq.
      * intros j Hj. split; apply log_name_ne; try lia; by right; lia.
    + replace (i + Z.of_nat (S j)) with (i + 1 + Z.of_nat j) by lia. by apply Hin.
  - intros path Hp. rewrite Hout by (intros j Hj; apply Hp; lia).
    destruct (Hp i ltac:(lia)) as [? ?]. by rewrite !lookup_insert_ne by done.
Qed.

(** What [reorder-memop] leaves for a thread whose log is [M]. *)
Record reordered (nobj i : Z) (M : list wait_memop) (out : option (list wait_memop)) : Prop := {
  ro_tid : 0 ≤ i ≤ 127;
  ro_valid : Forall valid M;
  ro_mark : M ≠ [];
  ro_main : reorder_main nobj M = Ok out }.

Lemma reorder_files_ok nobj tids fs M out : NoDup tids →
  (∀ i, i ∈ tids → fs !! log_name "memop" i = Some (M i ≫= encode) ∧ reordered nobj i (M i) (out i)) →
  ∃ fs', reorder_files addr nobj tids fs = fs' ∧
    (∀ i, i ∈ tids → fs' !! log_name "sorted-memop" i =
       match out i with Some l => Some (l ≫= encode) | None => fs !! log_name "sorted-memop" i end) ∧
    (∀ path, (∀ i, i ∈ tids → path ≠ log_name "sorted-memop" i) → fs' !! path = fs !! path).
Proof.
  intros Hd. revert fs. induction Hd as [|i tids Hi Hd IH]; intros fs Ht.
  { exists fs. split_and!; [done|set_solver|done]. }
  destruct (Ht i ltac:(set_solver)) as [Hfs [Htid Hv Hm Hr]].
  unfold reorder_files. cbn [foldl].
  assert (reorder_file addr nobj i fs = Ok (match out i with
    Some l => <[log_name "sorted-memop" i := l ≫= encode]> fs | None => fs end)) as ->.
  { unfold reorder_file. rewrite map_file_path, (map_path_some _ _ _ Hfs) by path_side. cbn [mbind outcome_bind].
    rewrite decode_file_bytes, Hr by done. cbn [mbind outcome_bind]. destruct (out i); [|done].
    rewrite logpath_short by path_side. done. }
  cbn [value].
  set (fs1 := match out i with Some l => _ | None => _ end).
  assert (∀ path, path ≠ log_name "sorted-memop" i → fs1 !! path = fs !! path) as Hfs1.
  { intros path Hp. unfold fs1. destruct (out i); [|done]. by apply lookup_insert_ne. }
  destruct (IH fs1) as (fs' & <- & Hin & Hout).
  { intros j Hj. destruct (Ht j ltac:(set_solver)) as [Hfsj Hrj]. split; [|done].
    rewrite Hfs1; [done|]. apply log_name_ne; [apply Hrj|lia|by left]. }
  assert (∀ j, j ∈ tids → 0 ≤ j ∧ j ≠ i) as Hne.
  { intros j Hj. destruct (Ht j ltac:(set_solver)) as [_ [? _ _ _]]. split; [lia|]. by intros ->. }
  eexists. split_and!; [done| |].
  - intros j [->|Hj]%elem_of_cons.
    + rewrite Hout; [unfold fs1; destruct (out i); [by rewrite lookup_insert_eq|done]|].
      intros j Hj. destruct (Hne j Hj). apply log_name_ne; [lia..|by right].
    + rewrite Hin by done. destruct (Hne j Hj). destruct (out j); [done|].
      apply Hfs1, log_name_ne; [lia..|by right].
  - intros path Hp. rewrite Hout by (intros j Hj; apply Hp; set_solver). apply Hfs1, Hp. set_solver.
Qed.

(** [merge-memop] reads what [reorder-memop] wrote. *)
Lemma merge_file_ok Q nobj nthr fs outs merged :
  (length outs ≤ 127)%nat → nthr = Z.of_nat (length outs) →
  (∀ i o, outs !! i = Some o → fs !! log_name "sorted-memop" (Z.of_nat i) = option_map file_bytes o ∧
     match o with Some l => l ≠ [] ∧ Forall valid l | None => True end) →
  merge_main Q nobj outs = Ok merged →
  merge_file addr Q nobj nthr fs = Ok (match merged with
    | None => fs
    | Some (memops, index) => <[LOGDIR +:+ "memop-index" := ints_bytes index]>
        (<[LOGDIR +:+ "memop" := memops ≫= encode]> fs)
    end).
Proof.
  intros Hlen -> Hfs Hm. unfold merge_file.
  match goal with |- context [mapM ?f ?l] =>
    assert (mapM f l = Ok ((λ o, option_map file_bytes o) <$> outs)) as -> end.
  { apply mapM_Ok. apply Forall2_same_length_lookup_2; [by rewrite length_fmap, length_seqZ, Nat2Z.id|].
    intros i j f [-> Hj]%lookup_seqZ Hf. apply list_lookup_fmap_Some in Hf as (o & -> & Ho).
    rewrite Z.add_0_l. destruct (Hfs i o Ho) as [Hl Hv].
    rewrite map_file_path by path_side.
    destruct o as [l|]; cbn in Hl, Hv |- *; [|by apply map_path_none].
    apply map_path_some; [done|]. apply bytes_not_nil, Hv. }
  cbn [mbind outcome_bind].
  assert (Forall (λ o, match o with Some l => l ≠ [] ∧ Forall valid l | None => True end) outs) as Hv.
  { apply Forall_lookup. intros i o Ho. by apply (Hfs i). }
  assert (sorted_entries ((λ o, option_map file_bytes o) <$> outs) = outs) as ->.
  { unfold sorted_entries. rewrite <- list_fmap_compose. clear -Hv.
    induction Hv as [|o outs Ho _ IH]; [done|]. cbn. rewrite IH. f_equal.
    destruct o as [l|]; [|done]. cbn. unfold file_bytes. by rewrite decode_file_bytes by apply Ho. }
  rewrite c_assert_true.
  { cbn [mbind outcome_bind]. rewrite Hm. cbn. by destruct merged as [[memops index]|]. }
  unfold total_size. clear. apply Z.mod_divide; [lia|].
  induction outs as [|[l|] outs [k Hk]]; cbn; [by exists 0| |by exists k].
  exists (Z.of_nat (length l) + k). rewrite Nat2Z.inj_add, Hk. unfold file_bytes.
  rewrite (length_bind_const _ 24%nat); [lia|]. intros a. apply (inj Z.of_nat). by rewrite length_encode.
Qed.

(** The replayer loads what the recorder and [merge-memop] wrote. *)
Lemma replay_init_files_ok nobj mem0 ps fs vlogs merged r :
  length vlogs = length ps → (length ps ≤ 127)%nat →
  (∀ i V, vlogs !! i = Some V → fs !! log_name "version" (Z.of_nat i) = Some (V ≫= encode) ∧
     V ≠ [] ∧ Forall valid V) →
  match merged with
  | None => fs !! (LOGDIR +:+ "memop") = None
  | Some (memops, index) =>
      fs !! (LOGDIR +:+ "memop") = Some (memops ≫= encode) ∧ memops ≠ [] ∧ Forall valid memops ∧
      fs !! (LOGDIR +:+ "memop-index") = Some (ints_bytes index) ∧ index ≠ [] ∧ Forall int32 index
  end →
  replay_init nobj mem0 ps vlogs merged = Ok r → replay_init_files addr nobj mem0 ps fs = Ok r.
Proof.
  intros Hl Hn Hv Hm Hr. unfold replay_init in Hr. apply bind_Ok in Hr as (wrl & Hwrl & Hr).
  apply bind_Ok in Hr as (ths & Hths & Hr). unfold replay_init_files.
  assert (∃ memops index, map_path addr (LOGDIR +:+ "memop") fs = Ok memops ∧
    match memops with Some _ => map_path addr (LOGDIR +:+ "memop-index") fs | None => Ok None end = Ok index ∧
    option_map decode_file memops = fst <$> merged ∧ option_map decode_ints index = snd <$> merged)
    as (memops & index & -> & Hi & Hm1 & Hm2).
  { destruct merged as [[memops index]|].
    - destruct Hm as (H1 & H2 & H3 & H4 & H5 & H6). eexists (Some _), (Some _).
      split_and!; [by apply map_path_some; [|apply bytes_not_nil]|apply map_path_some; [done|]|..].
      + destruct index; [done|]. unfold ints_bytes. cbn. done.
      + cbn [option_map]. by rewrite decode_file_bytes.
      + cbn [option_map]. by rewrite decode_ints_bytes.
    - exists None, None. split_and!; [by apply map_path_none|done..]. }
  cbn [mbind outcome_bind]. rewrite Hi. cbn [mbind outcome_bind]. rewrite Hm1, Hm2, Hwrl.
  cbn [mbind outcome_bind].
  match goal with |- context [mapM ?f ?l] => assert (mapM f l = Ok ths) as -> end; [|done].
  apply mapM_Ok in Hths. apply mapM_Ok. pose proof (Forall2_length Hths) as Hlen.
  rewrite length_zip_with in Hlen.
  apply Forall2_same_length_lookup_2; [rewrite length_zip_with, length_seqZ; lia|].
  intros i [p t] th Hpt Hth.
  apply lookup_zip_with_Some in Hpt as (p' & t' & [= -> ->] & Hp & [-> _]%lookup_seqZ).
  rewrite Z.add_0_l. apply lookup_lt_Some in Hp as Hlt.
  destruct (lookup_lt_is_Some_2 vlogs i) as [V HV]; [lia|]. destruct (Hv i V HV) as (Hf & Hne & Hva).
  cbn [fst snd]. rewrite map_file_path, (map_path_some _ _ _ Hf) by path_side.
  cbn [mbind outcome_bind]. rewrite decode_file_bytes by done.
  destruct (Forall2_lookup_r _ _ _ _ _ Hths Hth) as ([p'' V'] & Hpv & Hini).
  apply lookup_zip_with_Some in Hpv as (? & ? & [= -> ->] & Hp' & HV'). cbn in Hini. congruence.
Qed.
End steps.

(** ** Lemmas: the entries of a recording fit their types *)

Lemma index_fit nobj P : Z.of_nat (length P) < 2 ^ 31 → Forall int32 (seqZ 0 nobj ≫= index_of P).
Proof.
  intros Hn. apply list.Forall_forall. intros x (o & Hx & _)%list_elem_of_bind.
  unfold index_of, obj_start, obj_count, int32 in *.
  pose proof (length_filter (λ q, wm_objid (qe_wop q) = o) P).
  pose proof (length_filter (λ q, wm_objid (qe_wop q) < o) P).
  case_decide; rewrite !elem_of_cons, elem_of_nil in Hx; lia.
Qed.

Section fit.
Context (R : recorder) {HR : recorder_ok R} (Q : prio_queue qe_gt) {HQ : prio_queue_ok Q}.
Context (calc_objid : Z → Z) (nobj : Z) (mem0 : gmap Z Z) (ps : list prog).
Context (E : list event) (s : astate).
Local Abbreviation progs := (map_seqZ 0 ps : gmap Z prog).
Context (HE : history calc_objid nobj mem0 progs E s) (Hobj : nobj ≤ 2 ^ 31).
Context (Hlen : Z.of_nat (length E) < 2 ^ 62).

Lemma tevents_le t : (length (tevents t E) ≤ length E)%nat.
Proof. apply length_filter. Qed.

Lemma access_fits t k a : taccs t E !! k = Some a →
  0 ≤ acc_ver a ≤ 2 * Z.of_nat (length E) ∧ 0 ≤ acc_obj a < nobj ∧ (k < length E)%nat.
Proof.
  intros Ha. apply taccs_lookup in Ha as (e & He & ->). cbn.
  pose proof (lookup_lt_Some _ _ _ He). pose proof (tevents_le t).
  apply list_elem_of_lookup_2, tevents_elem in He as [_ He].
  destruct (history_ver_bound _ _ _ _ _ _ _ HE He) as (Hv0 & Hv1 & _).
  destruct (history_event _ _ _ _ _ _ _ HE He) as (_ & Ho & _).
  assert (nwrites (ev_obj e) E ≤ Z.of_nat (length E)) by
    (unfold nwrites; pose proof (length_filter (is_write (ev_obj e)) E); lia).
  split_and!; try lia. case_decide; lia.
Qed.

Lemma logs_fit t V M : logs_ok (taccs t E) V M → Forall valid V ∧ Forall valid M.
Proof.
  intros HL. split; apply list.Forall_forall; intros e He.
  - destruct (lk_version_sound _ _ _ HL e He) as (H0 & a & Ha & Hv).
    apply access_fits in Ha as (? & _ & ?). cbn. unfold int64. lia.
  - destruct (lk_memop_sound _ _ _ HL e He) as (H0 & Ha).
    apply access_fits in Ha as (? & ? & ?). cbn in *. unfold int64, int32. lia.
Qed.

Lemma thread_fits t s' : record_thread R nobj (tvaccs t E) = Ok s' →
  Forall valid (logs_wait_version s') ∧ Forall valid (logs_wait_memop s').
Proof.
  intros Hs. pose proof (history_wf _ _ _ _ _ _ HE) as Hwf.
  destruct (rc_ok nobj (tvaccs t E)) as (s'' & V & M & Hs' & HV & HM & _ & HL);
    rewrite ?tvaccs_fst in *; [by eapply taccs_mono|by eapply taccs_range|].
  rewrite Hs in Hs'. injection Hs' as <-. rewrite HV, HM. apply logs_fit in HL as [? ?].
  split; (apply Forall_app; split; [done|]); repeat constructor; cbn; unfold int64, int32; lia.
Qed.

Section recorded.
Context (logs : list tls) (HL : recorded_logs ps E logs).

Lemma logs_of_fit i VM : logs_of logs !! i = Some VM → Forall valid VM.1 ∧ Forall valid VM.2.
Proof. intros Hi. eapply logs_fit, (rl_ok _ _ _ HL), Hi. Qed.

(** A thread's log ends with its mark. *)
Lemma thread_logs i s' : logs !! i = Some s' →
  Forall valid (logs_wait_version s') ∧ Forall valid (logs_wait_memop s') ∧
  logs_wait_version s' ≠ [] ∧ logs_wait_memop s' ≠ [].
Proof.
  intros Hi. destruct (rl_ends _ _ _ HL i s' Hi) as [-> ->].
  destruct (logs_of_fit i (strip (logs_wait_version s'), strip (logs_wait_memop s'))) as [? ?].
  { unfold logs_of. by rewrite list_lookup_fmap, Hi. }
  split_and!; [| |by intros [_ ?]%app_nil..];
    (apply Forall_app; split; [done|]); repeat constructor; cbn; unfold int64, int32; lia.
Qed.

Lemma sorted_fit i o : (files nobj logs : list (option (list wait_memop))) !! i = Some o →
  match o with Some l => l ≠ [] ∧ Forall valid l | None => True end.
Proof.
  unfold files. intros (VM & -> & Hi)%list_lookup_fmap_Some. unfold file_of.
  case_decide as Hd; [done|]. destruct (logs_of_fit i VM Hi) as [_ Hv].
  pose proof (group_Permutation _ _ (logs_valid _ _ _ _ _ _ HE logs HL i VM Hi)) as HP. split.
  - intros Hn. rewrite Hn in HP. by apply Permutation_nil_l in HP.
  - by rewrite HP.
Qed.

Lemma merged_fit P : P ≡ₚ all_entries (files nobj logs) → (length ps ≤ 127)%nat →
  Forall valid (mwm <$> P).
Proof.
  intros HP Hn. apply list.Forall_forall. intros w (q & -> & Hq)%list_elem_of_fmap.
  rewrite HP in Hq. apply (entries_elem _ _ _ _ _ _ HE logs HL) in Hq as (i & VM & Hi & Ht & Hw).
  destruct (logs_of_fit i VM Hi) as [_ Hv]. eapply list.Forall_forall in Hv as (? & ? & ?); [|done].
  apply lookup_lt_Some in Hi. unfold logs_of in Hi. rewrite length_fmap, (rl_length _ _ _ HL) in Hi.
  cbn. unfold int8. split_and!; [done..|lia|lia].
Qed.
End recorded.
End fit.

(** ** Lemmas: the stages of the pipeline on a recording *)

Section stages.
Context (R : recorder) {HR : recorder_ok R} (Q : prio_queue qe_gt) {HQ : prio_queue_ok Q}.
Context (calc_objid : Z → Z) (nobj : Z) (mem0 : gmap Z Z) (ps : list prog).
Context (E : list event) (s : astate) (Hrec : recording calc_objid nobj mem0 ps E s).
Context (Hobj : nobj ≤ 2 ^ 31).
Context (addr : string → nat → Z) (Haddr : ∀ path i, addr path i mod PAGE_SIZE = 0).
Context (logs : list tls) (HL : recorded_logs ps E logs).
Local Abbreviation nthr := (Z.of_nat (length logs)).

Lemma stage_bounds : Z.of_nat (length E) < 2 ^ 62 ∧ (length logs ≤ 127)%nat ∧ length logs = length ps.
Proof. destruct Hrec. rewrite (rl_length _ _ _ HL). split_and!; [lia|done..]. Qed.

Lemma thread_files i s' : logs !! i = Some s' →
  Forall valid (logs_wait_version s') ∧ Forall valid (logs_wait_memop s') ∧
  logs_wait_version s' ≠ [] ∧ logs_wait_memop s' ≠ [].
Proof.
  destruct stage_bounds as (? & _). eapply thread_logs; [apply Hrec|done..].
Qed.

(** The files after the recording: [sorted] are those [reorder-memop] has left. *)
Record stage (sorted : Z → option (list wait_memop)) (fs : file_system) : Prop := {
  sg_version : ∀ i s', logs !! i = Some s' →
    fs !! log_name "version" (Z.of_nat i) = Some (logs_wait_version s' ≫= encode);
  sg_memop : ∀ i s', logs !! i = Some s' →
    fs !! log_name "memop" (Z.of_nat i) = Some (logs_wait_memop s' ≫= encode);
  sg_sorted : ∀ i, 0 ≤ i < nthr → fs !! log_name "sorted-memop" i = option_map file_bytes (sorted i);
  sg_merged : fs !! (LOGDIR +:+ "memop") = None }.

Lemma stage_record fs : ∃ fs1, record_files addr 0 logs (rm_logs fs) = Ok fs1 ∧ stage (λ _, None) fs1.
Proof.
  destruct stage_bounds as (_ & Hn & _).
  destruct (record_files_ok addr Haddr 0 logs (rm_logs fs)) as (fs1 & -> & Hin & Hout); [lia..|].
  exists fs1. split; [done|]. constructor.
  - intros i s' Hi. by destruct (Hin i s' Hi) as [? _].
  - intros i s' Hi. by destruct (Hin i s' Hi) as [_ ?].
  - intros i Hi. rewrite Hout; [apply rm_logs_none, kind_sorted|].
    intros j Hj. split; apply log_name_ne; [lia..|by left|lia|lia|by left].
  - rewrite Hout; [apply rm_logs_memop|]. intros j _. split; apply not_eq_sym, log_name_memop.
Qed.

(** The file [reorder-memop] leaves for thread [i]. *)
Definition sorted_of (i : Z) : option (list wait_memop) :=
  default None (files nobj logs !! Z.to_nat i).

Lemma stage_reorder fs : stage (λ _, None) fs →
  ∃ fs', reorder_files addr nobj (seqZ 0 nthr) fs = fs' ∧ stage sorted_of fs'.
Proof.
  intros [Hv Hm Hs H0]. destruct stage_bounds as (_ & Hn & _).
  destruct (reorder_files_ok addr Haddr nobj (seqZ 0 nthr) fs
    (λ i, default [] (logs_wait_memop <$> logs !! Z.to_nat i)) sorted_of) as (fs' & Hfs & Hin & Hout).
  { apply NoDup_seqZ. }
  { intros i Hi%elem_of_seqZ. destruct (lookup_lt_is_Some_2 logs (Z.to_nat i)) as [s' Hs']; [lia|].
    specialize (Hm _ _ Hs'). rewrite Z2Nat.id in Hm by lia. rewrite Hs'.
    split; [done|]. destruct (thread_files _ _ Hs') as (_ & ? & _ & ?). constructor; [lia|done..|].
    pose proof (reorder_all _ _ _ _ _ _ (rec_history _ _ _ _ _ _ Hrec) logs HL) as Hr.
    apply mapM_Ok in Hr. destruct (Forall2_lookup_l _ _ _ _ _ Hr Hs') as (o & Ho & ?).
    unfold sorted_of. by rewrite Ho. }
  exists fs'. split; [done|].
  assert (∀ name i, 0 ≤ i → name ≠ "sorted-memop" → fs' !! log_name name i = fs !! log_name name i) as Hsame.
  { intros name i Hi Hne. apply Hout. intros j Hj%elem_of_seqZ. apply log_name_ne; [lia..|by left]. }
  constructor.
  - intros i s' Hi. rewrite Hsame by (done || lia). by apply Hv.
  - intros i s' Hi. rewrite Hsame by (done || lia). by apply Hm.
  - intros i Hi. rewrite Hin by (apply elem_of_seqZ; lia). destruct (sorted_of i); [done|]. by apply Hs.
  - rewrite Hout; [done|]. intros i _. apply not_eq_sym, log_name_memop.
Qed.

Lemma stage_merge fs merged : stage sorted_of fs → preprocess Q nobj logs = Ok merged →
  merge_file addr Q nobj nthr fs = Ok (match merged with
    | None => fs
    | Some (memops, index) => <[LOGDIR +:+ "memop-index" := ints_bytes index]>
        (<[LOGDIR +:+ "memop" := memops ≫= encode]> fs)
    end).
Proof.
  intros [Hv Hm Hs H0] Hpre. destruct stage_bounds as (? & Hn & _).
  assert (length (files nobj logs) = length logs) as Hfl.
  { unfold files, logs_of. by rewrite !length_fmap. }
  apply (merge_file_ok addr Q nobj _ fs (files nobj logs)); [lia|lia| |].
  - intros i o Ho. apply lookup_lt_Some in Ho as Hi. rewrite Hs by lia. unfold sorted_of.
    rewrite Nat2Z.id, Ho. split; [done|].
    eapply sorted_fit; [apply Hrec|done..].
  - unfold preprocess in Hpre.
    by rewrite (reorder_all _ _ _ _ _ _ (rec_history _ _ _ _ _ _ Hrec) logs HL) in Hpre.
Qed.

(** The pipeline on the files of a recording ends where the pipeline on its
    entries ends, whatever files of earlier runs there were. *)
Lemma prepare_files_ok r0 fs :
  prepare_logs Q nobj mem0 ps logs = Ok r0 → prepare_files addr Q nobj mem0 ps logs fs = Ok r0.
Proof.
  intros Hp. destruct stage_bounds as (? & Hn & Hl). pose proof (rec_events _ _ _ _ _ _ Hrec) as Hlen.
  pose proof (rec_history _ _ _ _ _ _ Hrec) as HE.
  destruct (preprocess_ok R Q calc_objid nobj mem0 ps E s HE logs HL) as (P & merged & wrl & Hpre & _ & HP & Hmerged);
    [lia|done|].
  unfold prepare_logs in Hp. rewrite Hpre in Hp. cbn [mbind outcome_bind] in Hp.
  unfold prepare_files, process_memorder_log. rewrite <- Hl.
  destruct (stage_record fs) as (fs1 & -> & Hfs1). cbn [mbind outcome_bind].
  destruct (stage_reorder fs1 Hfs1) as (fs2 & -> & Hfs2). cbn [mbind outcome_bind].
  rewrite (stage_merge fs2 merged Hfs2 Hpre). cbn [mbind outcome_bind].
  apply (replay_init_files_ok addr nobj mem0 ps _ (logs_wait_version <$> logs) merged);
    [by rewrite length_fmap|lia| | |done].
  - intros i V (s' & -> & Hi)%list_lookup_fmap_Some.
    destruct (thread_files i s' Hi) as (? & _ & ? & _). split_and!; [|done..].
    destruct merged as [[memops index]|]; [|by apply (sg_version _ _ Hfs2)].
    rewrite lookup_insert_ne by (apply not_eq_sym, log_name_index; lia).
    rewrite lookup_insert_ne by (apply not_eq_sym, log_name_memop). by apply (sg_version _ _ Hfs2).
  - destruct Hmerged as [->|(-> & Hne & Hpos)]; [exact (sg_merged _ _ Hfs2)|].
    split_and!; [rewrite lookup_insert_ne by discriminate; apply lookup_insert_eq|by destruct P|
      |apply lookup_insert_eq| |].
    + eapply merged_fit; [done..|apply HP|lia].
    + rewrite seqZ_cons by lia. unfold index_of. cbn. by case_decide.
    + apply index_fit. pose proof (Permutation_length (pp_perm _ _ _ _ HP)) as HPl.
      rewrite length_all_entries in HPl. pose proof (entries_total _ _ _ _ _ _ HE logs HL). lia.
Qed.
End stages.

(** ** Properties *)

(** C33: in a recording of fewer than 2^62 accesses every entry of every log,
    end marks included, fits the C types of its fields, so the bytes written for
    it are read back as the same entry. *)
Theorem logged_entries_fit (R : recorder) `{!recorder_ok R} calc_objid nobj mem0 ps E s t logs :
  history calc_objid nobj mem0 (map_seqZ 0 ps) E s → nobj ≤ 2 ^ 31 →
  Z.of_nat (length E) < 2 ^ 62 → record_thread R nobj (tvaccs t E) = Ok logs →
  Forall valid (logs_wait_version logs) ∧ Forall valid (logs_wait_memop logs).
Proof. intros HE Hobj Hlen. by apply (thread_fits R calc_objid nobj mem0 ps E s HE Hobj Hlen). Qed.

Definition demo_logs : tls :=
  value (Tls ∅ 0 [] []) (record_thread seqlock_recorder 2 (tvaccs 1 demo_events)).

Lemma logged_entries_fit_witness :
  length (logs_wait_version demo_logs) = 4%nat ∧
  Forall valid (logs_wait_version demo_logs) ∧ Forall valid (logs_wait_memop demo_logs).
Proof.
  split; [vm_compute; reflexivity|].
  apply (logged_entries_fit seqlock_recorder (λ a, a) 2 demo_mem demo_threads demo_events demo_state 1).
  - apply demo_recording.
  - lia.
  - vm_compute. reflexivity.
  - apply value_ok. vm_compute. reflexivity.
Defined.
