(* ===== verification/TsoCorrectness.v ===== *)
(** * TsoCorrectness: the instruction-level recorders

    Every run of the x86-TSO machine of the recorders is an atomic history, which
    is also a run of the program built without recording, and the logs a finished
    run leaves are those of the history; [TsoReplay] replays them.  The theorems
    hold of every recorder that keeps the promise [recorder_ok], so of
    [mem-record-seqlock.c], [mem-record-seqbatch.c], [mem-record-rtmseq.c] and
    [mem-record-rtmcluster.c]. *)
From stdpp Require Import strings.
From S2P Require Import Prelude Mem Record Batch History SeqlockTso SeqlockTsoProof.
From S2P Require Import Reorder PQueue KWay Merge Sched Replay ReplayProof Pipeline Correctness.
From S2P Require Import MappedLog Paths Files.

(** The accesses of a history, made by the build without recording. *)
Lemma history_dummy calc_objid nobj mem0 progs E s : history calc_objid nobj mem0 progs E s →
  run_sched dummy_step (ev_tid <$> E) (DummyState mem0 progs) = Ok (DummyState (a_mem s) (a_prog s)).
Proof.
  induction 1 as [|E s t e s' _ IH Hst]; [done|]. rewrite fmap_app. cbn. rewrite run_sched_snoc, IH. cbn.
  unfold astep in Hst. apply bind_Some in Hst as (p & Hp & Hst). apply bind_Some in Hst as (n & _ & Hst).
  destruct p as [r|addr k|addr val p]; [done|..];
    apply bind_Some in Hst as (x & Hx & (v & _ & [= <- <-])%bind_Some); unfold dummy_step; cbn; rewrite Hp.
  - unfold dummy_read. by rewrite (arr_get_lookup _ _ _ Hx).
  - unfold dummy_write. by rewrite (arr_set_lookup _ _ _ _ Hx).
Qed.

Section tso.
Context (R : recorder) {HR : recorder_ok R}.
Context (calc_objid : Z → Z) (nobj : Z) (mem0 : gmap Z Z).

(** The invariant of every state a run reaches; a run never fails. *)
Lemma tso_run progs acts :
  (∀ t p, progs !! t = Some p → prog_within (addr_ok calc_objid nobj mem0) p) →
  ∃ s0 c0 c E s, rc_init nobj = Ok s0 ∧ tinit R nobj mem0 progs = Ok c0 ∧
    trun R calc_objid acts c0 = Ok c ∧ tinv R calc_objid nobj mem0 progs s0 E s c.
Proof.
  intros Hp. destruct (rc_init_ok R nobj) as [s0 Hs0].
  destruct (tinit_ok R calc_objid nobj mem0 progs s0 Hs0 Hp) as (c0 & Hc0 & Hinv).
  destruct (trun_ok R calc_objid nobj mem0 progs s0 Hs0 Hp acts _ _ c0 Hinv) as (E & s & c & Hrun & Hc).
  by exists s0, c0, c, E, s.
Qed.

(** The logs the threads leave once they have called [mem_finish_thr]. *)
Definition tso_logs (nthr : Z) (c : tstate R) : outcome (list tls) :=
  mapM (λ t, match t_thr c !! t with
             | Some th => rc_finish nobj (tt_tls th)
             | None => Err BadAccess
             end) (seqZ 0 nthr).

(** The number of accesses that left [logs]. *)
Definition recorded_accesses (logs : list tls) : nat :=
  sum_list_with (λ s, Z.to_nat (memop s)) logs.

Section finished.
Context (ps : list prog) (s0 : @rc_state R) (E : list event) (s : astate) (c : tstate R).
Local Abbreviation progs := (map_seqZ 0 ps : gmap Z prog).
Context (Hs0 : rc_init nobj = Ok s0).
Context (Hc : tinv R calc_objid nobj mem0 progs s0 E s c) (Hf : t_finished R c).

(** The machine's logs are those of the recorder on the history's accesses. *)
Lemma finished_thread t : t ∈ seqZ 0 (Z.of_nat (length ps)) →
  match t_thr c !! t with
  | Some th => rc_finish nobj (tt_tls th)
  | None => Err BadAccess
  end = record_thread R nobj (tvaccs t E).
Proof.
  intros Ht%elem_of_seqZ. destruct (proj2 (ti_dom _ _ _ _ _ _ _ _ _ Hc t)) as [th Hth].
  { apply lookup_map_seqZ_is_Some. lia. }
  destruct (finished_history _ _ _ _ _ _ _ _ _ Hc Hf) as (_ & _ & Hthr).
  destruct (Hthr t th Hth) as [_ Hl]. rewrite Hth. unfold record_thread. rewrite Hs0. cbn.
  by rewrite Hl.
Qed.

Lemma tso_logs_record : ∃ logs,
  tso_logs (Z.of_nat (length ps)) c = Ok logs ∧
  record_all R nobj (Z.of_nat (length ps)) E = Ok logs ∧ recorded_accesses logs = length E.
Proof.
  pose proof (history_wf _ _ _ _ _ _ (ti_hist _ _ _ _ _ _ _ _ _ Hc)) as Hwf.
  destruct (mapM_exists (λ t, record_thread R nobj (tvaccs t E))
    (λ t s, length (tevents t E) = Z.to_nat (memop s)) (seqZ 0 (Z.of_nat (length ps))))
    as (logs & Hlogs & HF).
  { intros t _. destruct (rc_ok nobj (tvaccs t E)) as (l & _ & _ & Hl & _ & _ & Hm & _);
      rewrite ?tvaccs_fst; [by eapply taccs_mono|by eapply taccs_range|].
    exists l. split; [done|]. rewrite Hm, Nat2Z.id. unfold tvaccs. by rewrite length_fmap. }
  exists logs. split_and!; [|done|].
  - unfold tso_logs. rewrite <- Hlogs. apply mapM_ext_in. apply finished_thread.
  - unfold recorded_accesses. rewrite <- (sum_list_with_Forall2 _ _ _ _ HF).
    apply tevents_total_eq; [apply NoDup_seqZ|].
    intros e He. destruct (hw_event _ _ _ _ _ Hwf e He) as (_ & _ & Ht%lookup_map_seqZ_is_Some).
    apply elem_of_seqZ. lia.
Qed.
End finished.

(** A finished run is a recording, and its logs are those of its history. *)
Lemma tso_recording ps acts c0 c :
  Forall (prog_within (addr_ok calc_objid nobj mem0)) ps → (length ps ≤ 127)%nat →
  tinit R nobj mem0 (map_seqZ 0 ps) = Ok c0 → trun R calc_objid acts c0 = Ok c → t_finished R c →
  ∃ s0 logs E s, rc_init nobj = Ok s0 ∧ tinv R calc_objid nobj mem0 (map_seqZ 0 ps) s0 E s c ∧
    tso_logs (Z.of_nat (length ps)) c = Ok logs ∧
    record_all R nobj (Z.of_nat (length ps)) E = Ok logs ∧ recorded_accesses logs = length E ∧
    a_finished s ∧
    (Z.of_nat (length E) < 2 ^ 31 → recording calc_objid nobj mem0 ps E s).
Proof.
  intros Hps Hthr Hc0 Hrun Hf.
  destruct (tso_run (map_seqZ 0 ps) acts) as (s0 & c0' & c' & E & s & Hs0 & Hc0' & Hrun' & Hc).
  { intros t p [_ Hp]%lookup_map_seqZ_Some. apply list_elem_of_lookup_2 in Hp.
    by eapply list.Forall_forall in Hps. }
  rewrite Hc0 in Hc0'. injection Hc0' as <-. rewrite Hrun in Hrun'. injection Hrun' as <-.
  destruct (finished_history _ _ _ _ _ _ _ _ _ Hc Hf) as (Hfin & _ & _).
  destruct (tso_logs_record ps s0 E s c Hs0 Hc Hf) as (logs & Hl & Hlogs & Hn).
  exists s0, logs, E, s. split_and!; [done..|]. intros Hlen. by split; [apply Hc|..].
Qed.

(** C3: every run of an instruction-level recorder, under every interleaving of
    instructions, of stores leaving the buffers and of transactions, avoids bad
    accesses and implements atomic accesses: there is an atomic history in which
    each thread made exactly the accesses it has logged, but for a write past its
    fence.  Recording adds no behaviour: the build without recording, scheduled in
    the order of the history, makes the same accesses and ends in its memory and
    with its results. *)
Theorem tso_implements_atomic progs acts :
  (∀ t p, progs !! t = Some p → prog_within (addr_ok calc_objid nobj mem0) p) →
  ∃ s0 c0 c E s, rc_init nobj = Ok s0 ∧ tinit R nobj mem0 progs = Ok c0 ∧
    trun R calc_objid acts c0 = Ok c ∧ history calc_objid nobj mem0 progs E s ∧
    run_sched dummy_step (ev_tid <$> E) (DummyState mem0 progs) = Ok (DummyState (a_mem s) (a_prog s)) ∧
    (∀ t th, t_thr c !! t = Some th →
       a_prog s !! t = Some (aprog R th) ∧
       ∃ accs, rc_log_all R accs s0 = Ok (tt_tls th) ∧
         tvaccs t E = accs ++ unlogged R calc_objid th) ∧
    (t_finished R c → a_finished s ∧ m_data (t_mem c) = a_mem s).
Proof.
  intros Hp. destruct (tso_run progs acts Hp) as (s0 & c0 & c & E & s & Hs0 & Hc0 & Hrun & Hc).
  exists s0, c0, c, E, s. split_and!; [done..|apply Hc|eapply history_dummy, Hc| |].
  - intros t th Hth. by destruct (ti_thr _ _ _ _ _ _ _ _ _ Hc t th Hth).
  - intros Hf. by destruct (finished_history _ _ _ _ _ _ _ _ _ Hc Hf) as (? & ? & _).
Qed.

(** C12: no two threads are ever between taking and releasing the lock of the same
    object, and the lock is taken while one is. *)
Theorem tso_mutual_exclusion progs acts c0 c :
  (∀ t p, progs !! t = Some p → prog_within (addr_ok calc_objid nobj mem0) p) →
  tinit R nobj mem0 progs = Ok c0 → trun R calc_objid acts c0 = Ok c →
  ∀ t1 t2 th1 th2 o, t_thr c !! t1 = Some th1 → t_thr c !! t2 = Some th2 →
    critical (tt_pc th1) = true → critical (tt_pc th2) = true →
    cur_obj calc_objid (tt_prog th1) = Some o → cur_obj calc_objid (tt_prog th2) = Some o →
    t1 = t2 ∧ m_lock (t_mem c) !! o = Some 1.
Proof.
  intros Hp Hc0 Hrun t1 t2 th1 th2 o H1 H2 Hcr1 Hcr2 Ho1 Ho2.
  destruct (tso_run progs acts Hp) as (s0 & c0' & c' & E & s & Hs0 & Hc0' & Hrun' & Hc).
  rewrite Hc0 in Hc0'. injection Hc0' as <-. rewrite Hrun in Hrun'. injection Hrun' as <-.
  assert (owns R calc_objid th1 o) by (by left). assert (owns R calc_objid th2 o) by (by left).
  split; [by eapply (ti_unique _ _ _ _ _ _ _ _ _ Hc)|by eapply (ti_lock _ _ _ _ _ _ _ _ _ Hc)].
Qed.

End tso.

(** ** The blocks of [mem-record-rtmcluster.c] *)

(** Its runs are runs of the machine, with its transactions only at the start of
    blocks. *)
Lemma cluster_run_trun calc_objid acts (c : tstate rtmcluster_recorder) :
  ∃ acts', cluster_run calc_objid acts c = trun rtmcluster_recorder calc_objid acts' c.
Proof.
  unfold cluster_run, trun. induction acts as [|a acts IH] using rev_ind; [by exists []|].
  destruct IH as (acts' & IH). rewrite foldl_snoc, IH.
  assert (∀ a', ∃ acts1, (c1 ← foldl (λ r a, c ← r; tstep rtmcluster_recorder calc_objid a c) (Ok c) acts';
      tstep rtmcluster_recorder calc_objid a' c1)
    = foldl (λ r a, c ← r; tstep rtmcluster_recorder calc_objid a c) (Ok c) acts1) as Hsnoc.
  { intros a'. exists (acts' ++ [a']). by rewrite foldl_snoc. }
  destruct a as [t|t|t n]; [apply Hsnoc..|].
  destruct (foldl _ (Ok c) acts') as [c1|e] eqn:Hrun; [|exists acts'; by rewrite Hrun].
  cbn [mbind outcome_bind cluster_step].
  destruct (block_start c1 t); [apply (Hsnoc (Tx t _))|]. exists acts'. by rewrite Hrun.
Qed.

(** A thread that makes at most [b] accesses has made no more at any time. *)
Lemma cluster_count calc_objid nobj mem0 (ps : list prog) b acts c0 c t th :
  Forall (prog_within (addr_ok calc_objid nobj mem0)) ps → Forall (λ p, at_most p b) ps →
  tinit rtmcluster_recorder nobj mem0 (map_seqZ 0 ps) = Ok c0 → cluster_run calc_objid acts c0 = Ok c →
  t_thr c !! t = Some th → 0 ≤ cluster_accesses th ≤ Z.of_nat b.
Proof.
  intros Hw Hb Hc0 Hrun Hth. destruct (cluster_run_trun calc_objid acts c0) as (acts' & E).
  rewrite Hrun in E. symmetry in E.
  assert (∀ t p, (map_seqZ 0 ps : gmap Z prog) !! t = Some p → p ∈ ps) as Hin.
  { intros u p [_ Hp]%lookup_map_seqZ_Some. by eapply list_elem_of_lookup_2. }
  rewrite list.Forall_forall in Hw, Hb.
  destruct (tso_run rtmcluster_recorder calc_objid nobj mem0 (map_seqZ 0 ps) acts')
    as (s0 & c0' & c' & E' & s & Hs0 & Hc0' & Hrun' & Hc); [by eauto|].
  rewrite Hc0 in Hc0'. injection Hc0' as <-. rewrite E in Hrun'. injection Hrun' as <-.
  destruct (ti_thr _ _ _ _ _ _ _ _ _ Hc t th Hth) as [_ (accs & Hl & Ht) _ _].
  destruct (batch_log_all_counts _ _ _ _ _ Hs0 Hl) as [_ Hn]. unfold cluster_accesses.
  destruct (proj1 (ti_dom _ _ _ _ _ _ _ _ _ Hc t)) as [p Hp]; [eauto|].
  destruct (history_prog _ _ _ _ _ _ _ _ (ti_hist _ _ _ _ _ _ _ _ _ Hc) Hp) as (q & _ & Htr).
  apply prog_trace_at_most with (n := b) in Htr; [|by eauto].
  apply (f_equal length) in Ht. unfold tvaccs in Ht. rewrite length_fmap, length_app in Ht. cbn in *. lia.
Qed.

(** ** Concrete runs

    The threads of the demonstration, with stores that stay buffered for a
    while; and the recorder of [mem-record-rtmcluster.c], where a thread commits
    its first accesses as a transaction. *)

Definition demo_acts : list action :=
  concat (replicate 40 [Exec 0; Exec 1; Exec 0; Drain 1; Exec 1; Drain 0]).

Definition demo_tso_start (R : recorder) : tstate R :=
  value (TState (TMem ∅ ∅ ∅) ∅) (tinit R 2 demo_mem (map_seqZ 0 demo_threads)).

Lemma demo_within : Forall (prog_within (addr_ok (λ a, a) 2 demo_mem)) demo_threads.
Proof.
  assert (addr_ok (λ a, a) 2 demo_mem 0 ∧ addr_ok (λ a, a) 2 demo_mem 1) as [H0 H1].
  { split; (split; [vm_compute; by eexists|lia]). }
  repeat constructor; done.
Qed.

Lemma demo_progs_within t p : (map_seqZ 0 demo_threads : gmap Z prog) !! t = Some p →
  prog_within (addr_ok (λ a, a) 2 demo_mem) p.
Proof.
  intros [_ Hp]%lookup_map_seqZ_Some. apply list_elem_of_lookup_2 in Hp.
  by eapply list.Forall_forall in Hp; [|apply demo_within].
Qed.

Lemma tso_implements_atomic_witness :
  ∃ s0 c0 c E s, @rc_init seqlock_recorder 2 = Ok s0 ∧
    tinit seqlock_recorder 2 demo_mem (map_seqZ 0 demo_threads) = Ok c0 ∧
    trun seqlock_recorder (λ a, a) demo_acts c0 = Ok c ∧
    history (λ a, a) 2 demo_mem (map_seqZ 0 demo_threads) E s ∧
    run_sched dummy_step (ev_tid <$> E) (DummyState demo_mem (map_seqZ 0 demo_threads)) =
      Ok (DummyState (a_mem s) (a_prog s)) ∧
    (∀ t th, t_thr c !! t = Some th →
       a_prog s !! t = Some (aprog seqlock_recorder th) ∧
       ∃ accs, rc_log_all seqlock_recorder accs s0 = Ok (tt_tls th) ∧
         tvaccs t E = accs ++ unlogged seqlock_recorder (λ a, a) th) ∧
    (t_finished seqlock_recorder c → a_finished s ∧ m_data (t_mem c) = a_mem s).
Proof.
  exact (tso_implements_atomic seqlock_recorder (λ a, a) 2 demo_mem (map_seqZ 0 demo_threads)
           demo_acts demo_progs_within).
Defined.

Lemma demo_tso_start_ok :
  tinit seqlock_recorder 2 demo_mem (map_seqZ 0 demo_threads) = Ok (demo_tso_start seqlock_recorder).
Proof. apply value_ok. vm_compute. reflexivity. Qed.

(** After three actions thread 0 holds the lock of object 0. *)
Definition demo_tso_mid : tstate seqlock_recorder :=
  value (demo_tso_start _)
    (trun seqlock_recorder (λ a, a) [Exec 0; Exec 0; Exec 1] (demo_tso_start seqlock_recorder)).

Definition demo_tso_thr0 : tthread seqlock_recorder :=
  value (TThread (PRet 0) TStart [] (Tls ∅ 0 [] [] : @rc_state seqlock_recorder))
    (arr_get (t_thr demo_tso_mid) 0).

Lemma tso_mutual_exclusion_witness :
  t_thr demo_tso_mid !! 0 = Some demo_tso_thr0 ∧ critical (tt_pc demo_tso_thr0) = true ∧
  0 = 0 ∧ m_lock (t_mem demo_tso_mid) !! 0 = Some 1.
Proof.
  assert (t_thr demo_tso_mid !! 0 = Some demo_tso_thr0) as Hthr.
  { assert (arr_get (t_thr demo_tso_mid) 0 = Ok demo_tso_thr0) as H
      by (apply value_ok; vm_compute; reflexivity).
    revert H. unfold arr_get. by destruct (t_thr demo_tso_mid !! 0) as [x|]; [intros [= ->]|]. }
  split; [exact Hthr|]. split; [vm_compute; reflexivity|].
  apply (tso_mutual_exclusion seqlock_recorder (λ a, a) 2 demo_mem (map_seqZ 0 demo_threads)
           [Exec 0; Exec 0; Exec 1] (demo_tso_start _) demo_tso_mid demo_progs_within
           demo_tso_start_ok ltac:(apply value_ok; vm_compute; reflexivity) 0 0 demo_tso_thr0
           demo_tso_thr0 0 Hthr Hthr); vm_compute; reflexivity.
Defined.

Definition demo_tx_end : tstate rtmcluster_recorder :=
  value (demo_tso_start _) (trun rtmcluster_recorder (λ a, a) ([Tx 0 3] ++ demo_acts) (demo_tso_start rtmcluster_recorder)).

Definition demo_path_addr (path : string) (i : nat) : Z := demo_addr i.

(** Thread 0's program is one block, committed as a transaction. *)
Definition demo_cluster_acts : list action := [Tx 1 0; Exec 1; Exec 1; Tx 0 0] ++ demo_acts.

Definition demo_cluster_end : tstate rtmcluster_recorder :=
  value (demo_tso_start _)
    (cluster_run (λ a, a) demo_cluster_acts (demo_tso_start rtmcluster_recorder)).
