(* ===== verification/RecordLive.v ===== *)
(** * RecordLive: recordings finish

    Readers of the seqlock retry and writers spin, but not for ever: threads with
    a bounded number of accesses finish under every schedule that lets each of
    them, and each store buffer, take steps again and again, whatever transactions
    commit or abort between.  A step that can make others retry or try again pays
    for it: the measure of a buffered store and of an access left is larger than
    what all the other threads may lose. *)
From stdpp Require Import functions.
From S2P Require Import Prelude Mem Record History SeqlockTso SeqlockTsoProof Sched.
From S2P Require Import Batch Correctness TsoCorrectness.

Section live.
Context (R : recorder) {HR : recorder_ok R}.
Context (calc_objid : Z → Z) (nobj : Z) (mem0 : gmap Z Z) (N : Z) (progs : gmap Z prog).
Context (s0 : @rc_state R) (Hs0 : rc_init nobj = Ok s0).
Context (Hprogs : ∀ t p, progs !! t = Some p → prog_within (addr_ok calc_objid nobj mem0) p).
Context (HN : ∀ t, is_Some (progs !! t) ↔ 0 ≤ t < N).
Local Abbreviation tthread := (tthread R).
Local Abbreviation tstate := (tstate R).
Local Abbreviation tstep := (tstep R calc_objid).
Local Abbreviation texec := (texec R calc_objid).
Local Abbreviation owns := (owns R calc_objid).
Local Abbreviation tinv := (tinv R calc_objid nobj mem0 progs s0).

(** ** The measure *)

(** What a buffered store may cost the other threads, and an access. *)
Definition store_cost : nat := (3 * Z.to_nat N + 1)%nat.
Definition access_cost : nat := (6 * store_cost + 12)%nat.

Definition seen (m : tmem) (b : buffer) (l : loc) : Z := value 0 (load m b l).

(** The instructions up to the end of an access, or, for a reader whose version
    is out of date, to the end of another try. *)
Definition pc_rank (m : tmem) (th : tthread) : nat :=
  let D := store_cost in
  match tt_prog th, tt_pc th with
  | PRet _, _ => 0
  | PRead _ _, TStart => 3
  | PRead addr _, TData v => if decide (seen m (tt_buf th) (LVer (calc_objid addr)) = v) then 2 else 5
  | PRead addr _, TCheck v _ => if decide (seen m (tt_buf th) (LVer (calc_objid addr)) = v) then 1 else 4
  | PRead _ _, _ => 0
  | PWrite _ _ _, TStart => 4 * D + 10
  | PWrite addr _ _, TSpin =>
      if decide (seen m (tt_buf th) (LLock (calc_objid addr)) = 0%Z) then 4 * D + 11 else 4 * D + 9
  | PWrite _ _ _, TVersion => 4 * D + 8
  | PWrite _ _ _, TIncr _ => 4 * D + 7
  | PWrite _ _ _, TIncr1 _ _ => 4 * D + 6
  | PWrite _ _ _, TStore _ => 3 * D + 5
  | PWrite _ _ _, TFence _ => 2 * D + 4
  | PWrite _ _ _, TLast _ => 2 * D + 3
  | PWrite _ _ _, TLast1 _ _ => 2 * D + 2
  | PWrite _ _ _, TUnlock _ => D + 1
  | PWrite _ _ _, _ => 0
  end%nat.

(** A thread that has at most [l] accesses left. *)
Definition thr_measure (m : tmem) (l : nat) (th : tthread) : nat :=
  (access_cost * l + pc_rank m th + store_cost * length (tt_buf th))%nat.

Definition tmeasure (l : Z → nat) (c : tstate) : nat :=
  sum_list_with (λ t, from_option (thr_measure (t_mem c) (l t)) 0%nat (t_thr c !! t)) (seqZ 0 N).

(** ** How much a step changes it *)

Lemma pc_rank_start m th : tt_pc th = TStart → (pc_rank m th ≤ 4 * store_cost + 10)%nat.
Proof. intros Hpc. unfold pc_rank. rewrite Hpc. destruct (tt_prog th); lia. Qed.

(** Whatever a step does to memory. *)
Lemma pc_rank_grow m m' th : (pc_rank m' th ≤ pc_rank m th + 3)%nat.
Proof.
  unfold pc_rank. destruct (tt_prog th), (tt_pc th); try lia; repeat case_decide; lia.
Qed.

(** What taking a lock does. *)
Lemma pc_rank_lock m o th m' : m' = TMem (m_data m) (m_ver m) (<[o := 1]> (m_lock m)) →
  (pc_rank m' th ≤ pc_rank m th)%nat.
Proof.
  intros ->. assert (∀ l b, (∀ o, l ≠ LLock o) →
    seen (TMem (m_data m) (m_ver m) (<[o := 1]> (m_lock m))) b l = seen m b l) as Hv.
  { intros l b Hl. unfold seen, load, mem_get. destruct (buf_get b l); [done|].
    destruct l as [| |o']; [done..|]. by destruct (Hl o'). }
  unfold pc_rank. destruct (tt_prog th) as [|addr k|addr val p], (tt_pc th); try lia;
    rewrite ?Hv by done; try done.
  case_decide as H1; [|repeat case_decide; lia]. rewrite decide_True; [lia|].
  unfold seen, load, mem_get in *. destruct (buf_get (tt_buf th) _); [done|]. cbn in H1.
  unfold arr_get in *. cbn in *. destruct (decide (o = calc_objid addr)) as [->|Hne].
  - rewrite lookup_insert_eq in H1. done.
  - by rewrite lookup_insert_ne in H1.
Qed.

(** A store that reaches memory is what its thread has seen already. *)
Lemma buf_get_cons l x b l' :
  buf_get ((l, x) :: b) l' = match buf_get b l' with
                             | Some y => Some y
                             | None => if decide (l = l') then Some x else None
                             end.
Proof.
  unfold buf_get. cbn. enough (∀ r, foldl (λ r e, if decide (e.1 = l') then Some e.2 else r) r b
    = match foldl (λ r e, if decide (e.1 = l') then Some e.2 else r) None b with
      | Some y => Some y | None => r end) as -> by done.
  induction b as [|e b IH]; intros r; [done|]. cbn. rewrite IH. symmetry. rewrite IH.
  by case_decide; destruct (foldl _ None b).
Qed.

Lemma mem_put_get m l x m' l' : mem_put m l x = Ok m' →
  mem_get m' l' = if decide (l = l') then Ok x else mem_get m l'.
Proof.
  intros H. destruct l as [a|o|o], l' as [a'|o'|o']; cbn in H; outcome_inv; cbn;
    try (rewrite decide_False by done; done); unfold arr_get; case_decide as E; simplify_eq;
    rewrite ?lookup_insert_eq; try done; rewrite lookup_insert_ne by congruence; done.
Qed.

Lemma seen_drain m l x b m' l' : mem_put m l x = Ok m' → seen m' b l' = seen m ((l, x) :: b) l'.
Proof.
  intros H. unfold seen, load. rewrite buf_get_cons. destruct (buf_get b l'); [done|].
  rewrite (mem_put_get m l x m' l' H). by case_decide.
Qed.

(** Thread [th] with at most [l] accesses left does something that takes it nearer
    to its end and the others not away from theirs. *)
Definition advances (m : tmem) (l : nat) (th : tthread) (m' : tmem) (th' : tthread) : Prop :=
  (∃ l', at_most (tt_prog th') l' ∧ (thr_measure m' l' th' < thr_measure m l th)%nat) ∧
  ∀ u, (pc_rank m' u ≤ pc_rank m u)%nat.

(** The next instruction of an access. *)
Lemma advances_instr m l p pc b tl pc' b' : at_most p l →
  (pc_rank m (TThread p pc' b' tl) + store_cost * length b'
   < pc_rank m (TThread p pc b tl) + store_cost * length b)%nat →
  advances m l (TThread p pc b tl) m (TThread p pc' b' tl).
Proof. intros Hl H. split; [|done]. exists l. split; [done|]. unfold thr_measure. cbn in *. lia. Qed.

(** The end of one. *)
Lemma advances_access m l p pc b tl p' b' tl' : at_most p' l → (length b' ≤ S (length b))%nat →
  advances m (S l) (TThread p pc b tl) m (TThread p' TStart b' tl').
Proof.
  intros Hl Hb. split; [|done]. exists l. split; [done|]. unfold thr_measure. cbn [tt_buf].
  pose proof (pc_rank_start m (TThread p' TStart b' tl') eq_refl). unfold access_cost in *. nia.
Qed.

Lemma seen_load m b l x : load m b l = Ok x → seen m b l = x.
Proof. unfold seen. by intros ->. Qed.

(** [xchg]: another thread that waits for the lock waits on. *)
Lemma xchg_advances m l addr val p tl m1 pc : at_most (PWrite addr val p) l →
  mem_put m (LLock (calc_objid addr)) 1 = Ok m1 → pc = TVersion ∨ pc = TSpin →
  advances m l (TThread (PWrite addr val p) TStart [] tl) m1 (TThread (PWrite addr val p) pc [] tl).
Proof.
  intros Hl H1 Hpc. assert (seen m1 [] (LLock (calc_objid addr)) = 1) as Hs.
  { unfold seen, load. cbn [buf_get foldl]. by rewrite (mem_put_get _ _ _ _ _ H1), decide_True. }
  split.
  - exists l. split; [done|]. unfold thr_measure, pc_rank. cbn [tt_prog tt_pc tt_buf length].
    destruct Hpc as [->| ->]; cbn beta iota; [lia|]. rewrite decide_False by (rewrite Hs; done). lia.
  - intros u. cbn in H1. outcome_inv. by eapply pc_rank_lock.
Qed.

Ltac next_instr :=
  right; apply advances_instr; [done|]; unfold pc_rank; cbn [tt_prog tt_pc tt_buf];
  repeat match goal with H : load _ _ _ = Ok _ |- _ => apply seen_load in H end;
  rewrite ?length_app; cbn [length]; repeat case_decide; try congruence; nia.

Lemma texec_advances m th m' th' l : texec m th = Ok (m', th') → at_most (tt_prog th) l →
  (m' = m ∧ th' = th) ∨ advances m l th m' th'.
Proof.
  destruct th as [p pc b tl]. unfold SeqlockTso.texec. cbn [tt_prog tt_pc tt_buf tt_tls].
  intros H Hl. destruct p as [r|addr k|addr val p]; [by left; simplify_eq|destruct l as [|l]; [done|]..];
    destruct pc; try done;
    repeat (outcome_inv; try case_decide; try case_match); simplify_eq;
    try (by left); try next_instr; right.
  - apply advances_access; [apply Hl|lia].
  - apply xchg_advances; [done..|by left].
  - apply xchg_advances; [done..|by right].
  - apply advances_access; [done|]. rewrite length_app. cbn. lia.
Qed.

(** A store that reaches memory changes what the others see. *)
Lemma drain_advances m l th lo x b m' : tt_buf th = (lo, x) :: b → mem_put m lo x = Ok m' →
  (thr_measure m' l (TThread (tt_prog th) (tt_pc th) b (tt_tls th)) + store_cost
   = thr_measure m l th)%nat.
Proof.
  intros Hb Hm. assert (pc_rank m' (TThread (tt_prog th) (tt_pc th) b (tt_tls th)) = pc_rank m th) as Hr.
  { unfold pc_rank. cbn [tt_prog tt_pc tt_buf]. rewrite Hb.
    destruct (tt_prog th), (tt_pc th); try done; by rewrite (seen_drain m lo x b m'). }
  unfold thr_measure. rewrite Hr, Hb. cbn [tt_buf length]. lia.
Qed.

(** A transaction makes accesses, or nothing has happened. *)
Lemma tx_access_left m th m' th' l : tx_access R calc_objid m th = Ok (Some (m', th')) →
  at_most (tt_prog th) l → (m' = m ∧ th' = th) ∨
  ∃ l', (l' < l)%nat ∧ at_most (tt_prog th') l' ∧ tt_pc th' = TStart ∧ tt_buf th' = tt_buf th ∧
    m_lock m' = m_lock m.
Proof.
  unfold tx_access. intros H Hl. destruct (tt_prog th) as [r|addr k|addr val p];
    [left; by simplify_eq|destruct l as [|l]; [done|]..]; right; exists l;
    outcome_inv; repeat case_match; try case_decide; outcome_inv; cbn in *; outcome_inv;
    (split_and!; [lia|done..]).
Qed.

Lemma tx_accesses_left n m th m' th' l : tx_accesses R calc_objid n m th = Ok (Some (m', th')) →
  at_most (tt_prog th) l → (m' = m ∧ th' = th) ∨
  ∃ l', (l' < l)%nat ∧ at_most (tt_prog th') l' ∧ tt_pc th' = TStart ∧ tt_buf th' = tt_buf th ∧
    m_lock m' = m_lock m.
Proof.
  revert m th l. induction n as [|n IH]; intros m th l H Hl; cbn in H; [left; by simplify_eq|].
  outcome_inv. destruct x as [[m1 th1]|]; [|done].
  destruct (tx_access_left m th m1 th1 l H Hl) as [[-> ->]|(l1 & ? & Hl1 & Hpc & Hb & Hk)]; [by apply IH|].
  destruct (IH m1 th1 l1 H0 Hl1) as [[-> ->]|(l2 & ? & ? & ? & Hb2 & Hk2)]; right; [by exists l1|].
  exists l2. split_and!; [lia|done..|congruence|congruence].
Qed.

Lemma tx_advances m l l' th m' th' : (l' < l)%nat → tt_pc th' = TStart → tt_buf th' = tt_buf th →
  (thr_measure m' l' th' + 3 * Z.to_nat N < thr_measure m l th)%nat.
Proof.
  intros Hl Hpc Hb. unfold thr_measure. rewrite Hb. pose proof (pc_rank_start m' th' Hpc).
  unfold access_cost, store_cost in *. nia.
Qed.

(** ** The measure of a state *)

Lemma tmeasure_step l c t th m' th' l' cost : 0 ≤ t < N → t_thr c !! t = Some th →
  (∀ u, (pc_rank m' u ≤ pc_rank (t_mem c) u + cost)%nat) →
  (thr_measure m' l' th' + cost * Z.to_nat N < thr_measure (t_mem c) (l t) th)%nat →
  (tmeasure (<[t := l']> l) (TState m' (<[t := th']> (t_thr c))) < tmeasure l c)%nat.
Proof.
  intros Ht Hth Hu Hpay. unfold tmeasure.
  set (f := λ u, from_option (thr_measure (t_mem c) (l u)) 0%nat (t_thr c !! u)).
  set (g := λ u, from_option (thr_measure (t_mem (TState m' (<[t := th']> (t_thr c)))) ((<[t := l']> l) u))
    0%nat (t_thr (TState m' (<[t := th']> (t_thr c))) !! u)).
  pose proof (sum_list_with_pay f g (seqZ 0 N) t cost (NoDup_seqZ 0 N)) as H.
  rewrite length_seqZ in H. assert (g t = thr_measure m' l' th') as Eg.
  { unfold g. cbn [t_mem t_thr]. by rewrite lookup_insert_eq, fn_lookup_insert. }
  assert (f t = thr_measure (t_mem c) (l t) th) as Ef by (unfold f; by rewrite Hth).
  rewrite Eg, Ef in H. enough (sum_list_with g (seqZ 0 N) + thr_measure (t_mem c) (l t) th
    ≤ sum_list_with f (seqZ 0 N) + thr_measure m' l' th' + cost * Z.to_nat N)%nat by lia.
  apply H; [apply elem_of_seqZ; lia|]. intros u _ Hne. unfold f, g. cbn [t_mem t_thr].
  rewrite lookup_insert_ne, fn_lookup_insert_ne by done. destruct (t_thr c !! u) as [thu|]; cbn; [|lia].
  unfold thr_measure. specialize (Hu thu). lia.
Qed.

(** ** Locks that are taken have an owner *)

Definition locks_owned (c : tstate) : Prop :=
  ∀ o x, m_lock (t_mem c) !! o = Some x → x ≠ 0 → ∃ t th, t_thr c !! t = Some th ∧ owns th o.

(** A step of [th] that takes locks only for it and keeps those it has. *)
Definition locks_kept (m : tmem) (th : tthread) (m' : tmem) (th' : tthread) : Prop :=
  ∀ o x, m_lock m' !! o = Some x → x ≠ 0 →
    owns th' o ∨ (∃ y, m_lock m !! o = Some y ∧ y ≠ 0) ∧ (owns th o → owns th' o).

Lemma locks_owned_step c t th m' th' : locks_owned c → t_thr c !! t = Some th →
  locks_kept (t_mem c) th m' th' → locks_owned (TState m' (<[t := th']> (t_thr c))).
Proof.
  intros Hc Hth Hk o x Ho Hx. cbn in *. destruct (Hk o x Ho Hx) as [H|[(y & Hy & Hy0) Hkeep]].
  { exists t, th'. by rewrite lookup_insert_eq. }
  destruct (Hc o y Hy Hy0) as (u & thu & Hu & Hown). destruct (decide (u = t)) as [->|Hne].
  - exists t, th'. rewrite lookup_insert_eq. split; [done|]. apply Hkeep. congruence.
  - exists u, thu. by rewrite lookup_insert_ne.
Qed.

Lemma locks_kept_same m th m' th' : m_lock m' = m_lock m → (∀ o, owns th o → owns th' o) →
  locks_kept m th m' th'.
Proof. intros Hm Ho o x Hx Hx0. right. rewrite Hm in Hx. eauto. Qed.

Lemma xchg_locks m addr val p tl old m1 : mem_get m (LLock (calc_objid addr)) = Ok old →
  mem_put m (LLock (calc_objid addr)) 1 = Ok m1 →
  locks_kept m (TThread (PWrite addr val p) TStart [] tl) m1
    (TThread (PWrite addr val p) (if decide (old = 0) then TVersion else TSpin) [] tl).
Proof.
  intros Ho Hp o x Hx Hx0. cbn in Ho, Hp. outcome_inv. cbn in Hx.
  apply lookup_insert_Some in Hx as [[<- _]|[_ Hx]].
  - case_decide as Hold; [by left; left|right]. split; [by exists old|].
    intros [[? _]|Hin]; [done|]. cbn in Hin. set_solver.
  - right. split; [by exists x|]. intros [[? _]|Hin]; [done|]. cbn in Hin. set_solver.
Qed.

Lemma texec_locks m th m' th' : texec m th = Ok (m', th') → locks_kept m th m' th'.
Proof.
  destruct th as [p pc b tl]. unfold SeqlockTso.texec. cbn [tt_prog tt_pc tt_buf tt_tls].
  intros H. destruct p as [r|addr k|addr val p]; [simplify_eq; by apply locks_kept_same|..];
    destruct pc; try done.
  4: { case_decide as Hb; outcome_inv; [by eapply xchg_locks|by apply locks_kept_same]. }
  all: repeat (outcome_inv; try case_decide; try case_match); simplify_eq;
    (apply locks_kept_same; [done|]); intros o [[Hc Ho]|Hin]; try done; try (by left); cbn [tt_buf] in *.
  all: try (right; cbn [tt_buf]; rewrite ?elem_of_app; by auto).
  cbn in Ho. injection Ho as <-. right. cbn [tt_buf]. apply elem_of_app. right. by left.
Qed.

Lemma drain_locks m th l x b m' : tt_buf th = (l, x) :: b → mem_put m l x = Ok m' →
  (∀ o, l = LLock o → x = 0) → locks_kept m th m' (TThread (tt_prog th) (tt_pc th) b (tt_tls th)).
Proof.
  intros Hb Hm Hx o y Hy Hy0.
  assert (l ≠ LLock o) as Hl.
  { intros ->. specialize (Hx o eq_refl). subst x. cbn in Hm. outcome_inv. cbn in Hy.
    rewrite lookup_insert_eq in Hy. congruence. }
  right. split.
  - exists y. split; [|done]. destruct l as [a|o'|o']; cbn in Hm; outcome_inv; [done..|]. cbn in Hy.
    by rewrite lookup_insert_ne in Hy by congruence.
  - intros [?|Hin]; [by left|right]. cbn. rewrite Hb in Hin. by apply elem_of_cons in Hin as [[= <- _]|?].
Qed.

(** Only releases of locks are buffered. *)
Lemma shape_releases mv av data am th o x : pc_shape R calc_objid mv av data am th →
  (LLock o, x) ∈ tt_buf th → x = 0.
Proof.
  unfold pc_shape, idle_buf. destruct (tt_prog th), (tt_pc th); intros Hsh Hin; try done; cbn zeta in Hsh;
    repeat match goal with
    | H : _ ∧ _ |- _ => destruct H
    | H : _ ∨ _ |- _ => destruct H
    | H : ∃ _, _ |- _ => destruct H
    | E : tt_buf th = _ |- _ => rewrite E in Hin; clear E
    end; set_solver.
Qed.

(** ** The machine is live *)

Definition bounded (l : Z → nat) (c : tstate) : Prop :=
  ∀ t th, t_thr c !! t = Some th → at_most (tt_prog th) (l t).

Definition tlive (a : action) : Prop :=
  match a with Exec t | Drain t => is_Some (progs !! t) | Tx _ _ => False end.

Definition live_inv (n : nat) (c : tstate) : Prop :=
  ∃ E s l, tinv E s c ∧ locks_owned c ∧ bounded l c ∧ n = tmeasure l c.

Lemma bounded_step l c t th' l' m' : bounded l c → at_most (tt_prog th') l' →
  bounded (<[t := l']> l) (TState m' (<[t := th']> (t_thr c))).
Proof.
  intros Hb Hl' u thu. cbn. intros [[<- <-]|[Hne Hu]]%lookup_insert_Some.
  - by rewrite fn_lookup_insert.
  - rewrite fn_lookup_insert_ne by done. by apply Hb.
Qed.

(** What a step of a thread does to the state. *)
Definition moves (c : tstate) (t : Z) (th : tthread) (l : Z → nat) (m' : tmem) (th' : tthread) : Prop :=
  locks_kept (t_mem c) th m' th' ∧
  ((m' = t_mem c ∧ th' = th) ∨
   ∃ l' cost, at_most (tt_prog th') l' ∧ (∀ u, (pc_rank m' u ≤ pc_rank (t_mem c) u + cost)%nat) ∧
     (thr_measure m' l' th' + cost * Z.to_nat N < thr_measure (t_mem c) (l t) th)%nat).

Lemma exec_moves c t th l m' th' : bounded l c → t_thr c !! t = Some th →
  texec (t_mem c) th = Ok (m', th') → moves c t th l m' th'.
Proof.
  intros Hl Hth H. split; [by eapply texec_locks|].
  destruct (texec_advances _ _ _ _ (l t) H) as [?|[(l' & ? & ?) Hu]]; [by apply Hl|by left|right].
  exists l', 0%nat. split_and!; [done| |lia]. intros u. specialize (Hu u). lia.
Qed.

Lemma drain_moves E s c t th l m' th' : tinv E s c → bounded l c → t_thr c !! t = Some th →
  tdrain R (t_mem c) th = Ok (m', th') → moves c t th l m' th'.
Proof.
  intros Hc Hl Hth H. unfold tdrain in H. destruct (tt_buf th) as [|[lo x] b] eqn:Hb.
  { injection H as <- <-. split; [by apply locks_kept_same|by left]. }
  apply bind_Ok in H as (m1 & Hm & [= <- <-]). split.
  - eapply drain_locks; [done..|]. intros o ->.
    eapply shape_releases; [apply (to_shape _ _ _ _ _ _ _ _ _ _ (ti_thr _ _ _ _ _ _ _ _ _ Hc _ _ Hth))|].
    rewrite Hb. by left.
  - right. exists (l t), 3%nat. split_and!; [by apply (Hl t th)|intros u; apply pc_rank_grow|].
    rewrite <- (drain_advances (t_mem c) (l t) th lo x b m1 Hb Hm). unfold store_cost. lia.
Qed.

Lemma tx_moves c t th l n m' th' : bounded l c → t_thr c !! t = Some th →
  ttx R calc_objid n (t_mem c) th = Ok (m', th') → moves c t th l m' th'.
Proof.
  intros Hl Hth H. assert (m' = t_mem c ∧ th' = th → moves c t th l m' th') as Hstay.
  { intros [-> ->]. split; [by apply locks_kept_same|by left]. }
  unfold ttx in H. case_decide as Hd; [|injection H as <- <-; auto]. destruct Hd as [Hpc Hb].
  apply bind_Ok in H as (r & Hr & H). destruct r as [[m1 th1]|]; injection H as <- <-; [|auto].
  destruct (tx_accesses_left n _ _ _ _ (l t) Hr) as [?|(l' & Hlt & Hl' & Hpc' & Hb' & Hk)];
    [by apply Hl|auto|]. split.
  - apply locks_kept_same; [done|]. intros o [[Hcr _]|Hin]; [by rewrite Hpc in Hcr|].
    rewrite Hb in Hin. set_solver.
  - right. exists l', 3%nat. split_and!; [done|intros u; apply pc_rank_grow|by apply tx_advances].
Qed.

Lemma tstep_live n c a : live_inv n c →
  ∃ c', tstep a c = Ok c' ∧ (c' = c ∨ ∃ n', (n' < n)%nat ∧ live_inv n' c').
Proof using Hs0 Hprogs HN HR.
  intros (E & s & l & Hc & Hk & Hb & ->).
  destruct (tstep_ok R calc_objid nobj mem0 progs s0 Hs0 Hprogs E s c a Hc) as (E' & s' & c' & Hst & Hc').
  exists c'. split; [done|]. unfold SeqlockTso.tstep in Hst.
  assert (∃ t f, match a with Exec t => (t, texec) | Drain t => (t, tdrain R) | Tx t n => (t, ttx R calc_objid n) end
    = (t, f) ∧ ∀ th m' th', t_thr c !! t = Some th → f (t_mem c) th = Ok (m', th') → moves c t th l m' th')
    as (t & f & Ef & Hf).
  { destruct a as [t|t|t n]; eexists _, _; (split; [reflexivity|]); intros th m' th' Hth H;
      [by eapply exec_moves|by eapply drain_moves|by eapply tx_moves]. }
  rewrite Ef in Hst. destruct (t_thr c !! t) as [th|] eqn:Hth; [|left; congruence].
  apply bind_Ok in Hst as ([m' th'] & Hex & [= <-]).
  destruct (Hf th m' th' eq_refl Hex) as [Hlk [[-> ->]|(l' & cost & Hl' & Hu & Hm)]].
  { left. rewrite insert_id by done. by destruct c. }
  right. eexists. split; [|exists E', s', (<[t := l']> l); split_and!; [done| | |reflexivity]].
  - eapply tmeasure_step; [|done..]. apply HN, (ti_dom _ _ _ _ _ _ _ _ _ Hc). eauto.
  - by eapply locks_owned_step.
  - by apply bounded_step.
Qed.

(** ** Someone can go on *)

Lemma tstep_stays a c t f : tstep a c = Ok c →
  match a with Exec t => (t, texec) | Drain t => (t, tdrain R) | Tx t n => (t, ttx R calc_objid n) end = (t, f) →
  ∀ th m' th', t_thr c !! t = Some th → f (t_mem c) th = Ok (m', th') → th' = th.
Proof.
  intros H Ef th m' th' Hth Hf. unfold SeqlockTso.tstep in H. rewrite Ef, Hth, Hf in H. cbn in H.
  injection H as H. apply (f_equal t_thr) in H. cbn in H. apply (f_equal (.!! t)) in H.
  rewrite lookup_insert_eq, Hth in H. congruence.
Qed.

Lemma drain_changes c t th : t_thr c !! t = Some th → tt_buf th ≠ [] → tstep (Drain t) c ≠ Ok c.
Proof.
  intros Hth Hb H. destruct (tt_buf th) as [|[l x] b] eqn:Eb; [done|].
  assert (∃ m' th', tdrain R (t_mem c) th = Ok (m', th') ∧ tt_buf th' = b) as (m' & th' & Hd & Hb').
  { unfold SeqlockTso.tstep in H. rewrite Hth in H. apply bind_Ok in H as ([m' th'] & Hd & _).
    exists m', th'. split; [done|]. unfold tdrain in Hd. rewrite Eb in Hd. by outcome_inv. }
  pose proof (tstep_stays (Drain t) c t _ H eq_refl th m' th' Hth Hd) as ->. rewrite Eb in Hb'.
  apply (f_equal length) in Hb'. cbn in Hb'. lia.
Qed.

(** A thread with an empty buffer that cannot go on: a reader that finds an odd
    version, or a writer that finds the lock taken. *)
Definition stuck (m : tmem) (th : tthread) : Prop :=
  (∃ addr k, tt_prog th = PRead addr k ∧ tt_pc th = TStart ∧ Z.odd (seen m [] (LVer (calc_objid addr))) = true) ∨
  (∃ addr val p, tt_prog th = PWrite addr val p ∧ tt_pc th = TSpin ∧
     ∃ x, mem_get m (LLock (calc_objid addr)) = Ok x ∧ x ≠ 0).

Lemma exec_or_stuck m th m' th' : texec m th = Ok (m', th') → tt_buf th = [] →
  (∀ r, tt_prog th ≠ PRet r) → th' ≠ th ∨ stuck m th.
Proof.
  destruct th as [p pc b tl]. unfold SeqlockTso.texec, stuck. cbn [tt_prog tt_pc tt_buf tt_tls].
  intros H -> Hr. destruct p as [r|addr k|addr val p]; [by destruct (Hr r)|..];
    destruct pc; try done; repeat (outcome_inv; try case_decide; try case_match); simplify_eq;
    try (left; intros [=]; by eauto); try (left; done).
  - right. left. exists addr, k. split_and!; [done..|]. by rewrite (seen_load _ _ _ _ H).
  - right. right. exists addr, val, p. split_and!; [done..|]. by exists x.
Qed.

(** The owner of a lock, when its stores have reached memory, goes on. *)
Lemma owner_goes_on E s c t th o : tinv E s c → t_thr c !! t = Some th → owns th o → tt_buf th = [] →
  tstep (Exec t) c ≠ Ok c.
Proof using Hs0 Hprogs HR.
  intros Hc Hth [[Hcr Hp]|Hin] Hb H; [|by rewrite Hb in Hin; apply not_elem_of_nil in Hin].
  destruct (tstep_ok R calc_objid nobj mem0 progs s0 Hs0 Hprogs E s c (Exec t) Hc) as (_ & _ & c' & Hst & _).
  unfold SeqlockTso.tstep in Hst. rewrite Hth in Hst. apply bind_Ok in Hst as ([m' th'] & Hex & _).
  pose proof (tstep_stays (Exec t) c t _ H eq_refl th m' th' Hth Hex) as ->.
  destruct (exec_or_stuck _ _ _ _ Hex Hb) as [?|[(? & ? & _ & Hpc & _)|(? & ? & ? & _ & Hpc & _)]]; try done.
  - intros r Hr. by rewrite Hr in Hp.
  - by rewrite Hpc in Hcr.
  - by rewrite Hpc in Hcr.
Qed.

(** What a stuck thread waits for has an owner. *)
Lemma stuck_owner E s c t th : tinv E s c → locks_owned c → t_thr c !! t = Some th → stuck (t_mem c) th →
  ∃ o u thu, t_thr c !! u = Some thu ∧ owns thu o.
Proof.
  intros Hc Hk Hth Hst. pose proof (to_within _ _ _ _ _ _ _ _ _ _ (ti_thr _ _ _ _ _ _ _ _ _ Hc _ _ Hth)) as Hw.
  destruct Hst as [(addr & k & Hp & _ & Hodd)|(addr & val & p & _ & _ & x & Hx & Hx0)]; exists (calc_objid addr).
  - rewrite Hp in Hw. destruct Hw as [[_ Ho] _].
    destruct (owner_or_free R calc_objid c (calc_objid addr)) as [?|Hfree]; [done|].
    rewrite (seen_load _ _ _ _ (load_nil _ _ _ _ _ _ _ _ _ _ Hc Ho)) in Hodd.
    rewrite (ti_free _ _ _ _ _ _ _ _ _ Hc _ Ho Hfree), <- Z.negb_even in Hodd.
    by rewrite (ver_even _ _ _ _ _ _ _ (ti_hist _ _ _ _ _ _ _ _ _ Hc) Ho) in Hodd.
  - apply (Hk _ x); [|done]. cbn in Hx. by outcome_inv.
Qed.

Lemma live_progress n c : live_inv n c → t_finished R c ∨ ∃ a, tlive a ∧ tstep a c ≠ Ok c.
Proof using Hs0 Hprogs HR.
  intros (E & s & l & Hc & Hk & Hb & ->).
  assert (∀ t th, t_thr c !! t = Some th → is_Some (progs !! t)) as Hdom.
  { intros t th Hth. apply (ti_dom _ _ _ _ _ _ _ _ _ Hc). eauto. }
  destruct (decide (map_Forall (λ _ th, tt_buf th = []) (t_thr c))) as [Hempty|Hne].
  2: { apply map_not_Forall in Hne as (t & th & Hth & Hne); [|apply _]. right. exists (Drain t).
       split; [by eapply Hdom|by eapply drain_changes]. }
  destruct (decide (map_Forall (λ _ th, ∃ r, tt_prog th = PRet r) (t_thr c))) as [Hret|Hrun].
  { left. intros t th Hth. split; [by eapply Hret|by eapply Hempty]. }
  right. apply map_not_Forall in Hrun as (t & th & Hth & Hrun); [|apply _].
  destruct (tstep_ok R calc_objid nobj mem0 progs s0 Hs0 Hprogs E s c (Exec t) Hc) as (_ & _ & c' & Hst & _).
  assert (∃ m' th', texec (t_mem c) th = Ok (m', th')) as (m' & th' & Hex).
  { unfold SeqlockTso.tstep in Hst. rewrite Hth in Hst. apply bind_Ok in Hst as ([m' th'] & ? & _). eauto. }
  destruct (exec_or_stuck _ _ _ _ Hex (Hempty _ _ Hth)) as [Hne|Hs];
    [intros r Hr; by apply Hrun; exists r|..].
  - exists (Exec t). split; [by eapply Hdom|]. intros H.
    by apply Hne, (tstep_stays (Exec t) c t _ H eq_refl th m' th' Hth Hex).
  - destruct (stuck_owner E s c t th Hc Hk Hth Hs) as (o & u & thu & Hu & Ho). exists (Exec u).
    split; [by eapply Hdom|]. eapply owner_goes_on; [done..|]. by eapply Hempty.
Qed.

Lemma finished_tstep c a : t_finished R c → tstep a c = Ok c.
Proof.
  intros Hf. assert (∀ t th, t_thr c !! t = Some th → TState (t_mem c) (<[t := th]> (t_thr c)) = c) as Hid.
  { intros t th Hth. rewrite insert_id by done. by destruct c. }
  unfold SeqlockTso.tstep. destruct a as [t|t|t n]; (destruct (t_thr c !! t) as [th|] eqn:Hth; [|done]);
    destruct (Hf t th Hth) as [[r Hr] Hb].
  - unfold SeqlockTso.texec. rewrite Hr. cbn. by rewrite Hid.
  - unfold tdrain. rewrite Hb. cbn. by rewrite Hid.
  - unfold ttx. case_decide; cbn; [|by rewrite Hid].
    assert (tx_accesses R calc_objid n (t_mem c) th = Ok (Some (t_mem c, th))) as ->; [|cbn; by rewrite Hid].
    induction n as [|n IH]; [done|]. cbn. unfold tx_access. rewrite Hr. done.
Qed.

#[global] Instance record_live : live_machine tstep tlive (t_finished R) live_inv.
Proof using Hs0 Hprogs HN HR.
  constructor; [apply tstep_live|apply live_progress|intros; by apply finished_tstep].
Qed.

(** Where the recording starts. *)
Lemma live_start b : (∀ t p, progs !! t = Some p → at_most p b) →
  ∃ c n, tinit R nobj mem0 progs = Ok c ∧ live_inv n c.
Proof using Hs0 Hprogs HR.
  intros Hb. destruct (tinit_ok R calc_objid nobj mem0 progs s0 Hs0 Hprogs) as (c & Hi & Hc).
  exists c, (tmeasure (λ _, b) c). split; [done|]. exists [], (ainit nobj mem0 progs), (λ _, b).
  split_and!; [done|..|done]; unfold tinit in Hi; rewrite Hs0 in Hi; injection Hi as <-.
  - intros o x. cbn. rewrite lookup_arr_make. case_decide; [|done]. by intros [= <-].
  - intros t th. cbn. rewrite lookup_fmap. intros (p & Hp & ->)%fmap_Some. by eapply Hb.
Qed.
End live.

(** The recorder of threads with bounded programs is a live machine. *)
Lemma recording_machine R `{!recorder_ok R} calc_objid nobj mem0 (ps : list prog) b :
  Forall (prog_within (addr_ok calc_objid nobj mem0)) ps → Forall (λ p, at_most p b) ps →
  ∃ inv c0 n, tinit R nobj mem0 (map_seqZ 0 ps) = Ok c0 ∧ inv n c0 ∧
    live_machine (tstep R calc_objid) (tlive (map_seqZ 0 ps)) (t_finished R) inv.
Proof.
  intros Hw Hb. destruct (rc_init_ok R nobj) as [s0 Hs0].
  assert (∀ t p, (map_seqZ 0 ps : gmap Z prog) !! t = Some p → p ∈ ps) as Hin.
  { intros t p [_ Hp]%lookup_map_seqZ_Some. by eapply list_elem_of_lookup_2. }
  rewrite list.Forall_forall in Hw, Hb.
  assert (∀ t, is_Some ((map_seqZ 0 ps : gmap Z prog) !! t) ↔ 0 ≤ t < Z.of_nat (length ps)) as HN.
  { intros t. rewrite lookup_map_seqZ_is_Some. lia. }
  destruct (live_start R calc_objid nobj mem0 (Z.of_nat (length ps)) (map_seqZ 0 ps) s0 Hs0) with (b := b)
    as (c0 & n & Hc0 & Hn); [by eauto..|].
  eexists _, c0, n. split_and!; [done..|].
  exact (record_live R calc_objid nobj mem0 (Z.of_nat (length ps)) (map_seqZ 0 ps) s0 Hs0 ltac:(by eauto) HN).
Qed.

(** A schedule of rounds in each of which every thread and every store buffer
    takes a step, with other steps and transactions anywhere between. *)
Lemma recording_live R `{!recorder_ok R} calc_objid nobj mem0 (ps : list prog) b :
  Forall (prog_within (addr_ok calc_objid nobj mem0)) ps → Forall (λ p, at_most p b) ps →
  ∃ c0 bound, tinit R nobj mem0 (map_seqZ 0 ps) = Ok c0 ∧
    ∀ rounds, Forall (fair (tlive (map_seqZ 0 ps))) rounds → (bound ≤ length rounds)%nat →
      ∃ c, trun R calc_objid (concat rounds) c0 = Ok c ∧ t_finished R c.
Proof.
  intros Hw Hb. destruct (recording_machine R calc_objid nobj mem0 ps b Hw Hb) as (inv & c0 & n & Hc0 & Hn & HM).
  exists c0, n. split; [done|]. intros rounds Hf Hlen.
  destruct (fair_rounds_finish _ (HM := HM) rounds n c0 Hn Hf Hlen) as (c & _ & Hr & _ & Hfin). by exists c.
Qed.

(** With transactions only at the start of blocks the machine is as live: the
    steps it needs are none of them. *)
Lemma cluster_live calc_objid progs inv :
  live_machine (tstep rtmcluster_recorder calc_objid) (tlive progs) (t_finished rtmcluster_recorder) inv →
  live_machine (cluster_step calc_objid) (tlive progs) (t_finished rtmcluster_recorder) inv.
Proof.
  intros HM. split.
  - intros n c [t|t|t k] Hc; [exact (lm_step (tstep _ _) n c (Exec t) Hc)|exact (lm_step (tstep _ _) n c (Drain t) Hc)|]. cbn [cluster_step].
    destruct (block_start c t); [exact (lm_step (tstep _ _) n c (Tx t _) Hc)|by eauto].
  - intros n c Hc. destruct (lm_progress _ n c Hc) as [?|([t|t|t k] & Ha & Hne)]; [by left|right..|done].
    + by exists (Exec t).
    + by exists (Drain t).
  - intros c [t|t|t k] Hf; [exact (lm_finished (tstep _ _) c (Exec t) Hf)|exact (lm_finished (tstep _ _) c (Drain t) Hf)|]. cbn [cluster_step].
    destruct (block_start c t); [exact (lm_finished (tstep _ _) c (Tx t _) Hf)|done].
Qed.

(** C4: a recording finishes.  Threads that make at most [b] accesses, on objects
    that exist, finish under every schedule that is fair to them and to their
    store buffers, for each of the recorders: there is a number of rounds after
    which all have returned and every store has reached memory.  Transactions may
    commit or abort anywhere between; readers that find a version changed and
    writers that find a lock taken try again, but not for ever. *)
Theorem recording_finishes R `{!recorder_ok R} calc_objid nobj mem0 (ps : list prog) b :
  Forall (prog_within (addr_ok calc_objid nobj mem0)) ps → Forall (λ p, at_most p b) ps →
  ∃ c0 bound, tinit R nobj mem0 (map_seqZ 0 ps) = Ok c0 ∧
    ∀ rounds, Forall (fair (tlive (map_seqZ 0 ps))) rounds → (bound ≤ length rounds)%nat →
      ∃ c, trun R calc_objid (concat rounds) c0 = Ok c ∧ t_finished R c.
Proof. by apply recording_live. Qed.

Lemma recording_finishes_witness :
  ∃ c0 bound, tinit rtmcluster_recorder 2 demo_mem (map_seqZ 0 demo_threads) = Ok c0 ∧
    ∀ rounds, Forall (fair (tlive (map_seqZ 0 demo_threads))) rounds → (bound ≤ length rounds)%nat →
      ∃ c, trun rtmcluster_recorder (λ a, a) (concat rounds) c0 = Ok c ∧ t_finished rtmcluster_recorder c.
Proof.
  apply (recording_finishes rtmcluster_recorder (λ a, a) 2 demo_mem demo_threads 4 demo_within).
  repeat constructor; intros v v'; exact I.
Defined.
