(* ===== verification/ReplayTso.v ===== *)
(** * ReplayTso: the replayer on x86-TSO

    [mem-replay.c] synchronizes with plain loads and stores: the versions, the
    counters of the threads and the data itself.  Here each thread has a store
    buffer, as in [SeqlockTso]: an instruction of [Replay.rstep] reads through the
    thread's buffer and its store goes to the end of the buffer; a buffered store
    reaches memory at any later time.  The mutex of [next_reader_memop] is taken
    and released by locked instructions, which wait for an empty buffer. *)
From S2P Require Import Prelude Mem Sched Replay.

(** ** Memory and buffers *)

(** What the threads share without a lock. *)
Inductive rloc :=
| RData (addr : Z)    (* the memory of the objects *)
| RVer (objid : Z)    (* obj_version[objid] *)
| RCnt (tid : Z).     (* the memop of thread tid, behind memop_cnt[tid] *)

#[global] Instance rloc_eq_dec : EqDecision rloc.
Proof. solve_decision. Defined.

Definition rget (l : rloc) (s : rstate) : option Z :=
  match l with
  | RData addr => r_mem s !! addr
  | RVer objid => obj_version s !! objid
  | RCnt tid => memop_cnt s !! tid
  end.

Definition rput (l : rloc) (x : Z) (s : rstate) : rstate :=
  match l with
  | RData addr =>
      RState (<[addr := x]> (r_mem s)) (obj_version s) (memop_cnt s) (wait_reader_log s) (r_thr s)
  | RVer objid =>
      RState (r_mem s) (<[objid := x]> (obj_version s)) (memop_cnt s) (wait_reader_log s) (r_thr s)
  | RCnt tid =>
      RState (r_mem s) (obj_version s) (<[tid := x]> (memop_cnt s)) (wait_reader_log s) (r_thr s)
  end.

Abbreviation rstore := (rloc * Z)%type.

(** Memory with the stores of [b] made, oldest first. *)
Definition flush (b : list rstore) (s : rstate) : rstate :=
  foldl (λ s st, rput st.1 st.2 s) s b.

(** ** The machine *)

(** Memory with the threads' variables and the reader logs, and the buffers. *)
Record qstate := QState {
  q_s : rstate;
  q_buf : gmap Z (list rstore) }.

(** An instruction of a thread, or its oldest buffered store reaching memory. *)
Inductive qact := QExec (t : Z) | QDrain (t : Z).

(** [pthread_mutex_trylock], and the critical section up to the unlock. *)
Definition locked_pc (pc : rpc) : bool :=
  match pc with PcNextReader | PcReaderLocked => true | _ => false end.

Section machine.
Context (calc_objid : Z → Z).

(** The store of the instruction thread [t] is at. *)
Definition rstores (t : Z) (th : rthread) (v : rstate) : list rstore :=
  match rt_pc th, rt_prog th with
  | PcReadDone _, PRead _ _ | PcWriteDone, PWrite _ _ _ =>
      from_option (λ n, [(RCnt t, n + 1)]) [] (memop_cnt v !! t)
  | PcStore, PWrite addr val _ => [(RData addr, val)]
  | PcStoreVersion x, PWrite addr _ _ => [(RVer (calc_objid addr), x + 2)]
  | _, _ => []
  end.

Definition qstep (a : qact) (q : qstate) : outcome qstate :=
  match a with
  | QExec t =>
      match r_thr (q_s q) !! t, q_buf q !! t with
      | Some th, Some b =>
          if decide (locked_pc (rt_pc th) = true ∧ b ≠ []) then Ok q
          else
            let view := flush b (q_s q) in
            v ← rstep calc_objid t view;
            Ok (QState (RState (r_mem (q_s q)) (obj_version (q_s q)) (memop_cnt (q_s q))
                          (wait_reader_log v) (r_thr v))
                  (<[t := b ++ rstores t th view]> (q_buf q)))
      | _, _ => Ok q
      end
  | QDrain t =>
      match q_buf q !! t with
      | Some ((l, x) :: b) => Ok (QState (rput l x (q_s q)) (<[t := b]> (q_buf q)))
      | _ => Ok q
      end
  end.
End machine.

(** The replay starts with empty buffers. *)
Definition qstart (r : rstate) : qstate := QState r ((λ _, []) <$> r_thr r).

(** Every thread has returned and its stores have reached memory. *)
Definition q_finished (q : qstate) : Prop :=
  r_finished (q_s q) ∧ map_Forall (λ _ b, b = []) (q_buf q).

#[global] Instance q_finished_dec q : Decision (q_finished q).
Proof. apply _. Defined.

(** ** Lemmas: locations and buffers *)

Lemma rget_rput l x s : rget l (rput l x s) = Some x.
Proof. destruct l; cbn; apply lookup_insert_eq. Qed.

Lemma rget_rput_ne l l' x s : l ≠ l' → rget l (rput l' x s) = rget l s.
Proof. intros Hne. destruct l, l'; cbn; try done; apply lookup_insert_ne; congruence. Qed.

(** The stores of [b] to [l]. *)
Definition values (l : rloc) (b : list rstore) : list Z := snd <$> filter (λ st, st.1 = l) b.

Lemma values_app l b1 b2 : values l (b1 ++ b2) = values l b1 ++ values l b2.
Proof. unfold values. by rewrite list.filter_app, fmap_app. Qed.

Lemma values_one l x : values l [(l, x)] = [x].
Proof. unfold values. by rewrite filter_cons_True. Qed.

Lemma values_one_ne l l' x : l ≠ l' → values l [(l', x)] = [].
Proof. intros Hne. unfold values. rewrite filter_cons_False by (cbn; congruence). done. Qed.

Lemma values_elem l x b : x ∈ values l b ↔ (l, x) ∈ b.
Proof.
  unfold values. rewrite list_elem_of_fmap. split.
  - intros ([l' x'] & -> & [<- ?]%list_elem_of_filter). done.
  - intros Hin. exists (l, x). split; [done|]. by apply list_elem_of_filter.
Qed.

Lemma rget_flush l b s :
  rget l (flush b s) = match list.last (values l b) with Some x => Some x | None => rget l s end.
Proof.
  induction b as [|[l' x] b IH] using rev_ind; [done|]. unfold flush. rewrite foldl_snoc. cbn.
  rewrite values_app. destruct (decide (l = l')) as [<-|Hne].
  - by rewrite values_one, last_snoc, rget_rput.
  - rewrite values_one_ne, app_nil_r, rget_rput_ne by done. apply IH.
Qed.

Lemma flush_nil_values l b s : values l b = [] → rget l (flush b s) = rget l s.
Proof. intros H. by rewrite rget_flush, H. Qed.

Lemma flush_thr b s : r_thr (flush b s) = r_thr s ∧ wait_reader_log (flush b s) = wait_reader_log s.
Proof.
  unfold flush. revert s. induction b as [|[l x] b IH]; intros s; [done|]. cbn.
  destruct (IH (rput l x s)) as [-> ->]. by destruct l.
Qed.

(** ** Coherence

    How memory [m] and the buffers stand to the state [s] in which every store was
    made at once: only one thread has stores to a location, the last of which is
    what [s] has there, and versions and counters only grow. *)

Definition grows (l : rloc) : bool := match l with RData _ => false | _ => true end.

Record coherent (m s : rstate) (bufs : gmap Z (list rstore)) : Prop := {
  ch_dom : ∀ l, is_Some (rget l m) ↔ is_Some (rget l s);
  ch_own : ∀ t b l, bufs !! t = Some b → values l b ≠ [] →
    rget l s = list.last (values l b) ∧
    ∀ u b', u ≠ t → bufs !! u = Some b' → values l b' = [];
  ch_free : ∀ l, (∀ t b, bufs !! t = Some b → values l b = []) → rget l s = rget l m;
  ch_grow : ∀ t b l x, bufs !! t = Some b → grows l = true → rget l m = Some x →
    StronglySorted Z.lt (x :: values l b) }.

(** The other threads have no store to [l] under way. *)
Definition others_done (bufs : gmap Z (list rstore)) (t : Z) (l : rloc) : Prop :=
  ∀ u b, u ≠ t → bufs !! u = Some b → values l b = [].

Lemma sorted_last_le x vs y : StronglySorted Z.lt (x :: vs) → list.last vs = Some y → x < y.
Proof.
  intros [_ HF]%StronglySorted_inv Hl. rewrite list.Forall_forall in HF. apply HF.
  apply last_Some in Hl as [l' ->]. set_solver.
Qed.

Section coherent.
Context (m s : rstate) (bufs : gmap Z (list rstore)) (Hc : coherent m s bufs).

(** A thread sees [s] where no other thread has stores under way. *)
Lemma coherent_agree t b l : bufs !! t = Some b → others_done bufs t l →
  rget l (flush b m) = rget l s.
Proof.
  intros Hb Ho. rewrite rget_flush. destruct (values l b) as [|x vs] eqn:Hv.
  - cbn. symmetry. apply (ch_free _ _ _ Hc). intros u b' Hu.
    destruct (decide (u = t)) as [->|Hne]; [congruence|by apply (Ho u)].
  - destruct (ch_own _ _ _ Hc t b l Hb) as [-> _]; [by rewrite Hv|]. rewrite Hv.
    destruct (list.last (x :: vs)) eqn:E; [done|]. by apply last_None in E.
Qed.

(** Otherwise it lags behind. *)
Lemma coherent_lag t b l y : bufs !! t = Some b → grows l = true → rget l (flush b m) = Some y →
  ∃ z, rget l s = Some z ∧ y ≤ z ∧ (y = z → others_done bufs t l).
Proof.
  intros Hb Hg Hy.
  destruct (decide (map_Forall (λ u b', u ≠ t → values l b' = []) bufs)) as [Ho|Hn].
  - exists y. rewrite <- (coherent_agree t b l Hb); [|intros u b' Hne Hu; by apply (Ho u)].
    split_and!; [done|lia|]. intros _ u b' Hne Hu. by apply (Ho u).
  - apply map_not_Forall in Hn as (u & b' & Hu & Hn); [|apply _].
    assert (u ≠ t ∧ values l b' ≠ []) as [Hne Hv] by (split; intros ?; apply Hn; [done|]; by intros).
    destruct (ch_own _ _ _ Hc u b' l Hu Hv) as [Hs Ho].
    rewrite flush_nil_values in Hy by (apply (Ho t); done).
    destruct (list.last (values l b')) as [z|] eqn:Hz; [|by apply last_None in Hz].
    pose proof (sorted_last_le _ _ _ (ch_grow _ _ _ Hc u b' l y Hu Hg Hy) Hz).
    exists z. split_and!; [done|lia|lia].
Qed.

(** A store enters the buffer of [t]. *)
Lemma coherent_push t b l x : bufs !! t = Some b → others_done bufs t l →
  (∃ y, rget l s = Some y ∧ (grows l = true → y < x)) →
  coherent m (rput l x s) (<[t := b ++ [(l, x)]]> bufs).
Proof.
  intros Hb Ho (y & Hy & Hlt). pose proof (coherent_agree t b l Hb Ho) as Ha.
  constructor.
  - intros l'. rewrite (ch_dom _ _ _ Hc). destruct (decide (l' = l)) as [->|Hne].
    + rewrite rget_rput, Hy. split; eauto.
    + by rewrite rget_rput_ne.
  - intros u b' l' [[<- <-]|[Hne Hu]]%lookup_insert_Some Hv.
    + rewrite values_app in *. destruct (decide (l' = l)) as [->|Hnl].
      * rewrite values_one, last_snoc, rget_rput. split; [done|].
        intros v b' Hv' Hlv. rewrite lookup_insert_ne in Hlv by done. by apply (Ho v).
      * rewrite values_one_ne, app_nil_r in * by done. rewrite rget_rput_ne by done.
        destruct (ch_own _ _ _ Hc t b l' Hb Hv) as [-> Hov]. split; [done|].
        intros v b' Hv' Hlv. rewrite lookup_insert_ne in Hlv by done. by apply (Hov v).
    + assert (l' ≠ l) as Hnl by (intros ->; by apply Hv, (Ho u)).
      rewrite rget_rput_ne by done. destruct (ch_own _ _ _ Hc u b' l' Hu Hv) as [-> Hov].
      split; [done|]. intros v b'' Hv' [[<- <-]|[_ Hlv]]%lookup_insert_Some; [|by apply (Hov v)].
      by rewrite values_app, values_one_ne, app_nil_r, (Hov t b) by done.
  - intros l' Hall. pose proof (Hall t _ (lookup_insert_eq _ _ _)) as Ht. rewrite values_app in Ht.
    apply app_nil in Ht as [Ht1 Ht2]. assert (l' ≠ l) as Hnl by (intros ->; by rewrite values_one in Ht2).
    rewrite rget_rput_ne by done. apply (ch_free _ _ _ Hc). intros u b' Hu.
    destruct (decide (u = t)) as [->|Hne]; [congruence|].
    apply (Hall u). by rewrite lookup_insert_ne by done.
  - intros u b' l' z [[<- <-]|[Hne Hu]]%lookup_insert_Some Hg Hz; [|by apply (ch_grow _ _ _ Hc u)].
    pose proof (ch_grow _ _ _ Hc t b l' z Hb Hg Hz) as HS. rewrite values_app.
    destruct (decide (l' = l)) as [->|Hnl]; [|by rewrite values_one_ne, app_nil_r].
    rewrite values_one, app_comm_cons. apply StronglySorted_snoc; [done|]. specialize (Hlt Hg).
    rewrite rget_flush, Hy in Ha. intros w [->|Hw]%elem_of_cons.
    + destruct (list.last (values l b)) as [y'|] eqn:Hl; [|congruence].
      injection Ha as ->. pose proof (sorted_last_le _ _ _ HS Hl). lia.
    + destruct (list.last (values l b)) as [y'|] eqn:Hl; [|apply last_None in Hl; rewrite Hl in Hw; by apply elem_of_nil in Hw].
      injection Ha as ->. apply last_Some in Hl as [vs Hl]. rewrite Hl in *.
      apply elem_of_app in Hw as [Hw| ->%list_elem_of_singleton]; [|done].
      apply StronglySorted_inv in HS as [HS _]. apply StronglySorted_app in HS as (HS & _ & _).
      specialize (HS w y Hw ltac:(set_solver)). lia.
Qed.

(** The oldest store of [t] reaches memory. *)
Lemma coherent_drain t l x b : bufs !! t = Some ((l, x) :: b) →
  coherent (rput l x m) s (<[t := b]> bufs) ∧ others_done bufs t l.
Proof.
  intros Hb. change ((l, x) :: b) with ([(l, x)] ++ b) in Hb.
  assert (values l ([(l, x)] ++ b) ≠ []) as Hne by (rewrite values_app, values_one; done).
  destruct (ch_own _ _ _ Hc t _ l Hb Hne) as [Hs Ho].
  assert (∀ l', l' ≠ l → values l' ([(l, x)] ++ b) = values l' b) as Hv.
  { intros l' Hl. by rewrite values_app, values_one_ne. }
  split; [|exact Ho]. constructor.
  - intros l'. rewrite <- (ch_dom _ _ _ Hc). destruct (decide (l' = l)) as [->|Hnl].
    + rewrite rget_rput, (ch_dom _ _ _ Hc), Hs, values_app, values_one.
      split; [intros _|by eauto]. destruct (list.last ([x] ++ values l b)) eqn:E; [eauto|].
      by apply last_None in E.
    + by rewrite rget_rput_ne.
  - intros u b' l' [[<- <-]|[Hnu Hu]]%lookup_insert_Some Hn.
    + assert (rget l' s = list.last (values l' b) ∧ others_done bufs t l') as [-> Ho'].
      { destruct (ch_own _ _ _ Hc t _ l' Hb) as [-> ?].
        { rewrite values_app. by intros [_ ?]%app_nil. }
        split; [|done]. rewrite values_app. destruct (values l' b) as [|z vs] eqn:E; [done|].
        rewrite last_app. by destruct (list.last (z :: vs)) eqn:El; [|apply last_None in El]. }
      split; [done|]. intros v b' Hv' Hlv. rewrite lookup_insert_ne in Hlv by done. by apply (Ho' v).
    + destruct (ch_own _ _ _ Hc u b' l' Hu Hn) as [-> Ho']. split; [done|].
      intros v b'' Hv' [[<- <-]|[_ Hlv]]%lookup_insert_Some; [|by apply (Ho' v)].
      pose proof (Ho' t _ Hv' Hb) as Hz. rewrite values_app in Hz. by apply app_nil in Hz as [_ ?].
  - intros l' Hall. pose proof (Hall t b (lookup_insert_eq _ _ _)) as Ht.
    destruct (decide (l' = l)) as [->|Hnl].
    + by rewrite rget_rput, Hs, values_app, values_one, Ht.
    + rewrite rget_rput_ne by done. apply (ch_free _ _ _ Hc). intros u b' Hu.
      destruct (decide (u = t)) as [->|Hnu]; [rewrite Hb in Hu; injection Hu as <-; by rewrite Hv|].
      apply (Hall u). by rewrite lookup_insert_ne.
  - intros u b' l' z Hu Hg Hz. apply lookup_insert_Some in Hu as [[<- <-]|[Hnu Hu]].
    + destruct (decide (l' = l)) as [->|Hnl].
      * rewrite rget_rput in Hz. injection Hz as <-.
        assert (is_Some (rget l m)) as [y Hy].
        { apply (ch_dom _ _ _ Hc). rewrite Hs. destruct (list.last _) eqn:E; [eauto|by apply last_None in E]. }
        pose proof (ch_grow _ _ _ Hc t _ l y Hb Hg Hy) as HS. rewrite values_app, values_one in HS.
        by apply StronglySorted_inv in HS as [HS _].
      * rewrite rget_rput_ne in Hz by done. rewrite <- Hv by done. by apply (ch_grow _ _ _ Hc t).
    + destruct (decide (l' = l)) as [->|Hnl].
      * rewrite (Ho u b') by done. repeat constructor.
      * rewrite rget_rput_ne in Hz by done. by apply (ch_grow _ _ _ Hc u).
Qed.

(** What a thread sees of a growing location does not shrink when a store drains. *)
Lemma coherent_drain_mono t l x b u bu l' y : bufs !! t = Some ((l, x) :: b) →
  grows l' = true → bufs !! u = Some bu → rget l' (flush bu m) = Some y →
  ∃ bu' y', <[t := b]> bufs !! u = Some bu' ∧ rget l' (flush bu' (rput l x m)) = Some y' ∧ y ≤ y'.
Proof.
  intros Hb Hg Hu Hy. destruct (decide (u = t)) as [->|Hne].
  { rewrite Hb in Hu. injection Hu as <-. exists b, y. rewrite lookup_insert_eq. split_and!; [done..|lia]. }
  exists bu. rewrite lookup_insert_ne by done. destruct (decide (l' = l)) as [->|Hnl].
  - destruct (coherent_drain t l x b Hb) as [_ Ho]. pose proof (Ho u bu Hne Hu) as Hv.
    rewrite flush_nil_values in Hy by done. rewrite flush_nil_values, rget_rput by done.
    exists x. split_and!; [done..|].
    pose proof (ch_grow _ _ _ Hc t _ l y Hb Hg Hy) as HS.
    change ((l, x) :: b) with ([(l, x)] ++ b) in HS. rewrite values_app, values_one in HS.
    apply StronglySorted_inv in HS as [_ HF]. apply Forall_inv in HF. lia.
  - exists y. rewrite !rget_flush in *. rewrite rget_rput_ne by done. split_and!; [done..|lia].
Qed.
End coherent.

(** Coherence only looks at the locations. *)
Lemma coherent_ext m m' s s' bufs : (∀ l, rget l m' = rget l m) → (∀ l, rget l s' = rget l s) →
  coherent m s bufs → coherent m' s' bufs.
Proof.
  intros Hm Hs []. constructor; intros *; rewrite ?Hm, ?Hs; eauto.
Qed.

Lemma coherent_start s bufs : map_Forall (λ _ b, b = []) bufs → coherent s s bufs.
Proof.
  intros Hb. constructor; try done.
  - intros t b l Ht Hv. by rewrite (Hb t b Ht) in Hv.
  - intros t b l x Ht _ _. rewrite (Hb t b Ht). repeat constructor.
Qed.

(** ** Lemmas: the same instruction on two memories *)

Section agree.
Context (calc_objid : Z → Z).

(** The instruction of [th] takes the same branch on [v] and on [s]. *)
Definition agrees (t : Z) (th : rthread) (v s : rstate) : Prop :=
  match rt_pc th, rt_prog th with
  | PcWaitVersion, p => ∀ o, cur_obj calc_objid p = Some o →
      ∃ y z, obj_version v !! o = Some y ∧ obj_version s !! o = Some z ∧
        (y < wv_version (rt_wait_version th) ↔ z < wv_version (rt_wait_version th))
  | PcWaitReader e, _ =>
      ∃ y z, memop_cnt v !! rwm_tid e = Some y ∧ memop_cnt s !! rwm_tid e = Some z ∧
        (y ≤ rwm_memop e ↔ z ≤ rwm_memop e)
  | (PcCheckVersion | PcReaderLocked | PcLoadVersion | PcStoreVersion _), p =>
      ∀ o, cur_obj calc_objid p = Some o → obj_version v !! o = obj_version s !! o
  | PcLoad, PRead addr _ => r_mem v !! addr = r_mem s !! addr
  | PcStore, PWrite addr _ _ => r_mem v !! addr = r_mem s !! addr
  | _, _ => memop_cnt v !! t = memop_cnt s !! t
  end.

(** Finish the run of an instruction that is the same on both memories. *)
Ltac same_run := intros [= <-]; split_and!; [done..|]; eexists; split_and!; done.

Lemma rstep_agree t v s th s' :
  r_thr v = r_thr s → wait_reader_log v = wait_reader_log s → r_thr s !! t = Some th →
  agrees t th v s → rstep calc_objid t s = Ok s' →
  rstores calc_objid t th v = rstores calc_objid t th s ∧
  (∀ l, rget l s' = rget l (flush (rstores calc_objid t th s) s)) ∧
  ∃ v', rstep calc_objid t v = Ok v' ∧ r_thr v' = r_thr s' ∧ wait_reader_log v' = wait_reader_log s'.
Proof.
  intros Ht Hw Hth Ha. destruct v as [vm vo vc vw vt], s as [sm so sc sw st].
  cbn in Ht, Hw, Hth. subst vt vw. unfold rstep. cbn [r_thr]. rewrite Hth. unfold agrees in Ha.
  unfold rstores. destruct (rt_prog th) as [r|addr k|addr val p] eqn:Hp; cbn.
  { intros [= <-]. split_and!; [by destruct (rt_pc th)..|]. eauto. }
  - destruct (rt_pc th) as [| | | |x| | |e| | |x| ] eqn:Hpc; try done; cbn in Ha;
      try specialize (Ha _ eq_refl); unfold arr_get, arr_set; cbn.
    + rewrite Ha. destruct (sc !! t); [|done]. cbn. case_decide; same_run.
    + destruct Ha as (y & z & Hy & Hz & Hyz). rewrite Hy, Hz. cbn.
      repeat case_decide; try (exfalso; lia); same_run.
    + rewrite Ha. destruct (so !! calc_objid addr); [|done]. cbn. destruct (c_assert _); [|done]. cbn.
      destruct (next_wait_version_log _ _) as [[wv log]|]; [|done]. cbn. same_run.
    + rewrite Ha. destruct (sm !! addr); [|done]. cbn. same_run.
    + rewrite Ha. destruct (sc !! t); [|done]. cbn. same_run.
  - destruct (rt_pc th) as [| | | |x| | |e| | |x| ] eqn:Hpc; try done; cbn in Ha;
      try specialize (Ha _ eq_refl); unfold arr_get, arr_set; cbn.
    + rewrite Ha. destruct (sc !! t); [|done]. cbn. case_decide; same_run.
    + destruct Ha as (y & z & Hy & Hz & Hyz). rewrite Hy, Hz. cbn.
      repeat case_decide; try (exfalso; lia); same_run.
    + rewrite Ha. destruct (so !! calc_objid addr); [|done]. cbn. destruct (c_assert _); [|done]. cbn.
      destruct (next_wait_version_log _ _) as [[wv log]|]; [|done]. cbn. same_run.
    + destruct (sw !! calc_objid addr) as [w|]; [|done]. cbn. destruct (wr_mutex w); [done|]. same_run.
    + destruct (sw !! calc_objid addr) as [w|]; [|done]. cbn. rewrite Ha.
      destruct (so !! calc_objid addr); [|done]. cbn. destruct (next_reader_memop _ _) as [[[r|] w']|]; [..|done]; cbn; same_run.
    + destruct Ha as (y & z & Hy & Hz & Hyz). rewrite Hy, Hz. cbn.
      repeat case_decide; try (exfalso; lia); same_run.
    + rewrite Ha. destruct (sm !! addr); [|done]. cbn. same_run.
    + rewrite Ha. destruct (so !! calc_objid addr); [|done]. cbn. same_run.
    + rewrite Ha. destruct (so !! calc_objid addr); [|done]. cbn. same_run.
    + rewrite Ha. destruct (sc !! t); [|done]. cbn. same_run.
Qed.
End agree.
