(* ===== verification/ReplayTsoProof.v ===== *)
(** * ReplayTsoProof: store buffers do not matter to the replayer

    Every state of the replayer on x86-TSO corresponds to a state of [Replay] in
    which all buffered stores have been made: a thread that waits may see old
    versions and counters, and then waits on; once it has seen the version of its
    access, no store to what the access reads or writes is under way. *)
From S2P Require Import Prelude Mem Record History Sched Replay ReplayProof ReplayTso.

(** ** Lemmas: what a step does to a thread *)

(** Past the loop of [wait_object_version]. *)
Definition passed (pc : rpc) : bool :=
  match pc with PcStart | PcWaitVersion => false | _ => true end.

Section after.
Context (calc_objid : Z → Z).

Record after_step (t : Z) (s s' : rstate) (th th' : rthread) : Prop := {
  as_thr : r_thr s' = <[t := th']> (r_thr s);
  as_store : ∀ o, storing calc_objid o th →
    storing calc_objid o th' ∨ ∃ x, (RVer o, x) ∈ rstores calc_objid t th s;
  as_data : ∀ a x, (RData a, x) ∈ rstores calc_objid t th s → storing calc_objid (calc_objid a) th';
  as_cnt : memop_cnt s' = memop_cnt s ∧
      (passed (rt_pc th') = true → passed (rt_pc th) = true ∨
       rt_pc th = PcWaitVersion ∨
       rt_pc th = PcStart ∧ memop_cnt s !! t ≠ Some (wv_memop (rt_wait_version th))) ∨
    passed (rt_pc th) = true ∧ passed (rt_pc th') = false ∧
      ∃ n, memop_cnt s !! t = Some n ∧ memop_cnt s' = <[t := n + 1]> (memop_cnt s) }.

(** The sides of [after_step] in each case. *)
Ltac after_side :=
  try match goal with H : memop_cnt _ !! _ = Some _ |- _ => rewrite H; cbn end;
  first
    [ naive_solver
    | intros ?%elem_of_nil; done
    | intros [= <- <-]%list_elem_of_singleton; done
    | intros [= ]%list_elem_of_singleton
    | intros [[= <-] _]; right; eexists; by apply list_elem_of_singleton ].

Lemma rstep_after t s s' th o : rstep calc_objid t s = Ok s' → r_thr s !! t = Some th →
  cur_obj calc_objid (rt_prog th) = Some o → ∃ th', after_step t s s' th th'.
Proof.
  unfold rstep. intros Hst Hth Ho. rewrite Hth, Ho in Hst.
  destruct (rt_prog th) as [r|addr k|addr val p] eqn:Hp; [done|..]; cbn in Ho; injection Ho as <-;
    destruct (rt_pc th) as [| | | |x| | |e| | |x| ] eqn:Hpc; try done; outcome_inv;
    repeat case_decide; outcome_inv; repeat (case_match; outcome_inv); try done;
    [eexists|eexists|exists th|eexists|eexists|eexists|eexists
    |eexists|eexists|exists th|eexists|eexists|eexists|eexists|eexists|exists th|eexists
    |eexists|eexists|eexists|eexists];
    (constructor;
     [ first [reflexivity | by rewrite insert_id]
     | intros o; unfold storing, rstores; rewrite ?Hp, ?Hpc; cbn; rewrite ?Hp; after_side
     | intros a y; unfold storing, rstores; rewrite ?Hp, ?Hpc; cbn; rewrite ?Hp; after_side
     | rewrite ?Hpc; cbn; after_side ]).
Qed.
End after.

(** ** The relation *)

Section tso.
Context (calc_objid : Z → Z) (nobj : Z) (mem0 : gmap Z Z) (progs : gmap Z prog).
Context (E : list event) (V : Z → list wait_version) (L : Z → list replay_wait_memop).
Context (res : Z → Z) (HR : recorded calc_objid nobj mem0 progs E V L res).
Local Abbreviation rinv := (rinv calc_objid nobj mem0 progs E V L res).
Local Abbreviation current := (current calc_objid nobj E V L res).
Local Abbreviation rstep := (rstep calc_objid).
Local Abbreviation rstores := (rstores calc_objid).

(** Thread [t] sees [v] or more at [l]. *)
Definition sees (q : qstate) (t : Z) (l : rloc) (v : Z) : Prop :=
  ∃ b x, q_buf q !! t = Some b ∧ rget l (flush b (q_s q)) = Some x ∧ v ≤ x.

(** [s] is the state in which every buffered store has been made. *)
Record qrel (q : qstate) (s : rstate) : Prop := {
  qr_inv : rinv s;
  qr_thr : r_thr (q_s q) = r_thr s;
  qr_wrl : wait_reader_log (q_s q) = wait_reader_log s;
  qr_bufs : ∀ t, is_Some (q_buf q !! t) ↔ is_Some (r_thr s !! t);
  qr_coh : coherent (q_s q) s (q_buf q);
  qr_cnt : ∀ t b u x, q_buf q !! t = Some b → (RCnt u, x) ∈ b → u = t;
  qr_data : ∀ t b i a x th, q_buf q !! t = Some b → b !! i = Some (RData a, x) →
    r_thr s !! t = Some th →
    storing calc_objid (calc_objid a) th ∨
    ∃ j y, (i < j)%nat ∧ b !! j = Some (RVer (calc_objid a), y);
  qr_nonneg : ∀ o x, obj_version (q_s q) !! o = Some x → 0 ≤ x;
  qr_done : ∀ f, f ∈ E → ev_done (memop_cnt s) f → sees q (ev_tid f) (RVer (ev_obj f)) (ev_ver f);
  qr_pass : ∀ t th k e, r_thr s !! t = Some th → memop_cnt s !! t = Some (Z.of_nat k) →
    tevents t E !! k = Some e → passed (rt_pc th) = true → sees q t (RVer (ev_obj e)) (ev_ver e) }.

(** ** Lemmas: what a thread sees *)

Section sees.
Context (q : qstate) (s : rstate) (Hq : qrel q s).
Context (t : Z) (th : rthread) (k : nat) (e : event) (x : Z) (w : replay_wait_memop_log).
Context (Hc : current s t th k e x w) (b : list rstore) (Hb : q_buf q !! t = Some b).
Local Abbreviation view := (flush b (q_s q)).

Lemma view_dom l z : rget l s = Some z → ∃ y, rget l view = Some y.
Proof using Hb Hq.
  intros Hz. destruct (rget l view) as [y|] eqn:Hy; [eauto|exfalso].
  rewrite rget_flush in Hy. destruct (list.last (values l b)); [done|].
  assert (is_Some (rget l (q_s q))) as [? ?] by (apply (ch_dom _ _ _ (qr_coh _ _ Hq)); eauto). congruence.
Qed.

(** Only a thread itself writes its counter. *)
Lemma cnt_others : others_done (q_buf q) t (RCnt t).
Proof using Hq.
  intros u b' Hne Hu. destruct (values (RCnt t) b') as [|y vs] eqn:Hv; [done|].
  assert (y ∈ values (RCnt t) b') as Hy by (rewrite Hv; by left).
  apply values_elem in Hy. by apply (qr_cnt _ _ Hq u b' t y Hu) in Hy.
Qed.

Lemma view_cnt : memop_cnt view !! t = memop_cnt s !! t.
Proof using Hb Hq.
  exact (coherent_agree _ _ _ (qr_coh _ _ Hq) t b (RCnt t) Hb cnt_others).
Qed.

(** A thread past its wait sees its object's version, and no other thread has a
    store to it under way. *)
Lemma view_passed : passed (rt_pc th) = true → rt_pc th ≠ PcWriteDone →
  obj_version view !! ev_obj e = Some x ∧ x = ev_ver e ∧ others_done (q_buf q) t (RVer (ev_obj e)).
Proof using Hq Hc Hb HR.
  intros Hp Hpc. pose proof (current_le _ _ _ _ _ _ _ _ s t th k e x w (qr_inv _ _ Hq) Hc Hpc) as Hle.
  destruct (qr_pass _ _ Hq t th k e) as (b' & y & Hb' & Hy & Hey); [apply Hc..|done|].
  rewrite Hb in Hb'. injection Hb' as <-.
  destruct (coherent_lag _ _ _ (qr_coh _ _ Hq) t b (RVer (ev_obj e)) y Hb eq_refl Hy) as (z & Hz & Hyz & Ho).
  cbn in Hz, Hy. rewrite (cu_ov _ _ _ _ _ _ _ _ _ _ _ _ _ Hc) in Hz. injection Hz as <-.
  split_and!; [rewrite Hy; f_equal; lia|lia|apply Ho; lia].
Qed.

(** Nor has another thread a store to the data it is about to access. *)
Lemma data_others a : passed (rt_pc th) = true → rt_pc th ≠ PcWriteDone →
  ev_kind e = RD ∨ writing (rt_pc th) → calc_objid a = ev_obj e →
  others_done (q_buf q) t (RData a).
Proof using Hq Hc Hb HR.
  intros Hp Hpc Hk Ha u b' Hne Hu. destruct (view_passed Hp Hpc) as (_ & Hx & Ho).
  destruct (values (RData a) b') as [|y vs] eqn:Hv; [done|exfalso].
  assert (y ∈ values (RData a) b') as Hy by (rewrite Hv; by left).
  apply values_elem, list_elem_of_lookup in Hy as [i Hi].
  destruct (proj1 (qr_bufs _ _ Hq u)) as [thu Hthu]; [eauto|].
  destruct (qr_data _ _ Hq u b' i a y thu Hu Hi Hthu) as [Hst|(j & z & _ & Hj)].
  - rewrite Ha in Hst. destruct Hk as [Hk|Hw].
    + by eapply (no_storing _ _ _ _ _ _ _ _ HR s t th k e x w (qr_inv _ _ Hq) Hc u thu).
    + pose proof Hst as [Hou Hpu].
      destruct (current_of _ _ _ _ _ _ _ _ HR _ _ _ _ (qr_inv _ _ Hq) Hthu Hou) as (ku & eu & xu & wu & Hcu).
      pose proof (cu_obj _ _ _ _ _ _ _ _ _ _ _ _ _ Hcu) as Hou'. rewrite Hou in Hou'. injection Hou' as Hou'.
      apply Hne. symmetry.
      eapply (writing_unique _ _ _ _ _ _ _ _ HR _ _ _ _ _ _ _ _ _ _ _ _ _ Hc Hcu); [done..|].
      by destruct (rt_pc thu).
  - rewrite Ha in Hj. apply list_elem_of_lookup_2, values_elem in Hj.
    rewrite (Ho u b' Hne Hu) in Hj. by apply elem_of_nil in Hj.
Qed.

Lemma view_thr : r_thr view !! t = Some th.
Proof using Hq Hc.
  destruct (flush_thr b (q_s q)) as [-> _]. rewrite (qr_thr _ _ Hq). apply Hc.
Qed.

Lemma view_ver_agree o : passed (rt_pc th) = true → rt_pc th ≠ PcWriteDone →
  cur_obj calc_objid (rt_prog th) = Some o → obj_version view !! o = obj_version s !! o.
Proof using Hq Hc Hb HR.
  intros Hp Hpc Ho. rewrite (cu_obj _ _ _ _ _ _ _ _ _ _ _ _ _ Hc) in Ho. injection Ho as <-.
  destruct (view_passed Hp Hpc) as (-> & _ & _). symmetry. apply Hc.
Qed.

Lemma view_data_agree a : passed (rt_pc th) = true → rt_pc th ≠ PcWriteDone →
  ev_kind e = RD ∨ writing (rt_pc th) → calc_objid a = ev_obj e → r_mem view !! a = r_mem s !! a.
Proof using Hq Hc Hb HR.
  intros Hp Hpc Hk Ha.
  exact (coherent_agree _ _ _ (qr_coh _ _ Hq) t b (RData a) Hb (data_others a Hp Hpc Hk Ha)).
Qed.

(** The instruction leaves the thread where it is. *)
Definition spins : Prop := rstep t view = Ok view ∧ rstores t th view = [].

(** A waiting thread either sees what lets it go on, or spins. *)
Lemma exec_wait_version : rt_pc th = PcWaitVersion →
  (sees q t (RVer (ev_obj e)) (ev_ver e) ∧ agrees calc_objid t th view s) ∨ spins.
Proof using Hq Hc Hb.
  intros Hpc. pose proof (cu_pc _ _ _ _ _ _ _ _ _ _ _ _ _ Hc) as Hp. unfold pc_ok in Hp. rewrite Hpc in Hp.
  destruct Hp as [Hwv _]. pose proof (cu_obj _ _ _ _ _ _ _ _ _ _ _ _ _ Hc) as Ho.
  pose proof (cu_ov _ _ _ _ _ _ _ _ _ _ _ _ _ Hc) as Hx.
  destruct (view_dom (RVer (ev_obj e)) x Hx) as [y Hy].
  destruct (coherent_lag _ _ _ (qr_coh _ _ Hq) t b (RVer (ev_obj e)) y Hb eq_refl Hy) as (z & Hz & Hyz & _).
  cbn in Hz, Hy. rewrite Hx in Hz. injection Hz as <-. destruct (decide (y < ev_ver e)) as [Hlt|Hge].
  - right. split; [|unfold ReplayTso.rstores; by rewrite Hpc].
    unfold Replay.rstep. rewrite view_thr, Ho, Hpc. rewrite (arr_get_lookup _ _ _ Hy).
    cbn [mbind outcome_bind]. by rewrite decide_True by lia.
  - left. split; [exists b, y; split_and!; [done..|lia]|]. unfold agrees. rewrite Hpc.
    intros o Ho'. rewrite Ho in Ho'. injection Ho' as <-. exists y, x. split_and!; [done..|lia].
Qed.

Lemma exec_wait_reader r s' : rt_pc th = PcWaitReader r → rstep t s = Ok s' →
  agrees calc_objid t th view s ∨ spins.
Proof using Hq Hc Hb.
  intros Hpc. pose proof (cu_obj _ _ _ _ _ _ _ _ _ _ _ _ _ Hc) as Ho.
  unfold spins, ReplayTso.rstores, Replay.rstep.
  rewrite (cu_thr _ _ _ _ _ _ _ _ _ _ _ _ _ Hc), view_thr, Ho, Hpc.
  destruct (rt_prog th) as [|addr f|addr val p]; [done..|]. intros (z & Hz%arr_get_Ok & _)%bind_Ok.
  destruct (view_dom (RCnt (rwm_tid r)) z Hz) as [y Hy].
  destruct (coherent_lag _ _ _ (qr_coh _ _ Hq) t b (RCnt (rwm_tid r)) y Hb eq_refl Hy) as (z' & Hz' & Hyz & _).
  cbn in Hz', Hy. rewrite Hz in Hz'. injection Hz' as <-. destruct (decide (y ≤ rwm_memop r)) as [Hle|Hgt].
  - right. rewrite (arr_get_lookup _ _ _ Hy). cbn [mbind outcome_bind]. by rewrite decide_True by lia.
  - left. unfold agrees. rewrite Hpc. exists y, z. split_and!; [done..|lia].
Qed.

Lemma exec_agrees s' : rstep t s = Ok s' →
  (agrees calc_objid t th view s ∧
   (rt_pc th = PcWaitVersion → sees q t (RVer (ev_obj e)) (ev_ver e))) ∨ spins.
Proof using Hq Hc Hb HR.
  intros Hst. pose proof (cu_prog _ _ _ _ _ _ _ _ _ _ _ _ _ Hc) as Hprog.
  pose proof (cu_pc _ _ _ _ _ _ _ _ _ _ _ _ _ Hc) as Hp. unfold pc_ok in Hp.
  destruct (hw_event _ _ _ _ _ (rd_wf _ _ _ _ _ _ _ _ HR) e (cu_in _ _ _ _ _ _ _ _ _ _ _ _ _ Hc)) as (Eo & _).
  destruct (rt_pc th) as [| | | |v| | |r| | |v|] eqn:Hpc.
  2: { destruct (exec_wait_version Hpc) as [[? ?]|?]; auto. }
  7: { destruct (exec_wait_reader r s' Hpc Hst) as [?|?]; [left|by right]. by split. }
  all: left; (split; [|done]); unfold agrees; rewrite Hpc; try exact view_cnt.
  all: try (intros o; apply view_ver_agree; rewrite Hpc; done).
  - destruct (rt_prog th) as [|addr f|addr val p]; [exact view_cnt| |exact view_cnt].
    destruct Hprog as (Hk & Ha & _). apply view_data_agree; rewrite ?Hpc; [done..|by left|by rewrite Eo, Ha].
  - destruct (rt_prog th) as [|addr f|addr val p]; [exact view_cnt..|].
    destruct Hprog as (Hk & Ha & _). apply view_data_agree; rewrite ?Hpc; [done..|by right|by rewrite Eo, Ha].
Qed.

(** ** Lemmas: an instruction *)

(** The store of an instruction, if it has one, can be made at once. *)
Lemma stores_ok : rstores t th s = [] ∨ ∃ l y, rstores t th s = [(l, y)] ∧
  others_done (q_buf q) t l ∧ (∃ z, rget l s = Some z ∧ (grows l = true → z < y)) ∧
  (∀ u, l = RCnt u → u = t).
Proof using Hq Hc Hb HR.
  pose proof (cu_prog _ _ _ _ _ _ _ _ _ _ _ _ _ Hc) as Hprog.
  pose proof (cu_pc _ _ _ _ _ _ _ _ _ _ _ _ _ Hc) as Hp. unfold pc_ok in Hp.
  pose proof (cu_cnt _ _ _ _ _ _ _ _ _ _ _ _ _ Hc) as Hk.
  destruct (hw_event _ _ _ _ _ (rd_wf _ _ _ _ _ _ _ _ HR) e (cu_in _ _ _ _ _ _ _ _ _ _ _ _ _ Hc)) as (Eo & _).
  assert (∃ l y, from_option (λ n, [(RCnt t, n + 1)]) [] (memop_cnt s !! t) = [(l, y)] ∧
    others_done (q_buf q) t l ∧ (∃ z, rget l s = Some z ∧ (grows l = true → z < y)) ∧
    (∀ u, l = RCnt u → u = t)) as Hcnt.
  { exists (RCnt t), (Z.of_nat k + 1). rewrite Hk. split_and!; [done|exact cnt_others| |congruence].
    exists (Z.of_nat k). split; [done|lia]. }
  unfold ReplayTso.rstores.
  destruct (rt_pc th) as [| | | |v| | |r| | |v|] eqn:Hpc, (rt_prog th) as [|addr f|addr val p]; auto; right.
  - destruct Hprog as (Kk & Ha & _). exists (RData addr), val. split_and!; [done| | |done].
    + apply data_others; rewrite ?Hpc; [done..|by right|by rewrite Eo, Ha].
    + rewrite <- Ha. destruct (cu_mem _ _ _ _ _ _ _ _ _ _ _ _ _ Hc) as [z Hz]. by exists z.
  - destruct Hprog as (Kk & Ha & _). exists (RVer (calc_objid addr)), (v + 2).
    rewrite <- Ha, <- Eo. destruct (view_passed ltac:(by rewrite Hpc) ltac:(by rewrite Hpc)) as (_ & _ & Ho).
    split_and!; [done..| |done]. exists x. split; [apply Hc|]. intros _. destruct Hp as (_ & _ & -> & _). lia.
Qed.

(** The state after the instruction, with memory as it was. *)
Definition executed (s' : rstate) : qstate :=
  QState (RState (r_mem (q_s q)) (obj_version (q_s q)) (memop_cnt (q_s q)) (wait_reader_log s') (r_thr s'))
    (<[t := b ++ rstores t th s]> (q_buf q)).

Lemma executed_rget s' l : rget l (q_s (executed s')) = rget l (q_s q).
Proof using Type. by destruct l. Qed.

Lemma executed_coherent s' : (∀ l, rget l s' = rget l (flush (rstores t th s) s)) →
  coherent (q_s (executed s')) s' (q_buf (executed s')).
Proof using Hq Hc Hb HR.
  intros Hs'. apply (coherent_ext (q_s q) _ (flush (rstores t th s) s)); [apply executed_rget|done|].
  cbn [q_buf executed]. destruct stores_ok as [->|(l & y & -> & Ho & Hz & _)].
  - rewrite app_nil_r, insert_id by done. apply Hq.
  - cbn. by apply coherent_push; [apply Hq|..].
Qed.

Lemma executed_sees s' u l v : grows l = true → sees q u l v → sees (executed s') u l v.
Proof using Hq Hc Hb HR.
  intros Hg (bu & y & Hbu & Hy & Hv). unfold sees. cbn [q_buf executed].
  destruct (decide (u = t)) as [->|Hne].
  - rewrite Hb in Hbu. injection Hbu as <-. rewrite lookup_insert_eq.
    destruct stores_ok as [->|(l' & y' & -> & Ho & (z & Hz & Hlt) & _)].
    + exists b, y. rewrite app_nil_r, rget_flush, executed_rget, <- rget_flush. done.
    + eexists _, (if decide (l = l') then y' else y). split; [done|].
      rewrite rget_flush, executed_rget, values_app. case_decide as El.
      * subst l'. rewrite values_one, last_snoc. split; [done|].
        rewrite (coherent_agree _ _ _ (qr_coh _ _ Hq) t b l Hb Ho), Hz in Hy. injection Hy as ->.
        specialize (Hlt Hg). lia.
      * rewrite values_one_ne, app_nil_r, <- rget_flush by done. done.
  - exists bu, y. rewrite lookup_insert_ne by done. rewrite rget_flush, executed_rget, <- rget_flush. done.
Qed.

(** The wait is over when the thread finds its version. *)
Lemma start_sees : rt_pc th = PcStart → memop_cnt s !! t ≠ Some (wv_memop (rt_wait_version th)) →
  sees q t (RVer (ev_obj e)) (ev_ver e).
Proof using Hq Hc Hb HR.
  intros Hpc Hne. pose proof (cu_vlog _ _ _ _ _ _ _ _ _ _ _ _ _ Hc) as Hvl. rewrite Hpc in Hvl. cbn in Hvl.
  rewrite (cu_cnt _ _ _ _ _ _ _ _ _ _ _ _ _ Hc) in Hne.
  destruct (vlog_skip _ _ _ _ _ _ _ _ HR _ _ _ _ (Nat2Z.is_nonneg k) Hvl ltac:(congruence)) as [_ Hno].
  destruct (no_wait_cases _ _ _ _ _ _ _ _ HR s t th k e x w Hc Hno) as [H0|(f & Hf & Tf & Of & Vf & Hd)].
  - destruct (view_dom (RVer (ev_obj e)) x (cu_ov _ _ _ _ _ _ _ _ _ _ _ _ _ Hc)) as [y Hy].
    exists b, y. split_and!; [done..|]. rewrite H0. rewrite rget_flush in Hy.
    destruct (list.last (values (RVer (ev_obj e)) b)) as [y'|] eqn:Hl;
      [|by apply (qr_nonneg _ _ Hq (ev_obj e))].
    assert (is_Some (rget (RVer (ev_obj e)) (q_s q))) as [m Hm].
    { apply (ch_dom _ _ _ (qr_coh _ _ Hq)). exists x. apply Hc. }
    pose proof (sorted_last_le _ _ _ (ch_grow _ _ _ (qr_coh _ _ Hq) t b (RVer (ev_obj e)) m Hb eq_refl Hm) Hl).
    pose proof (qr_nonneg _ _ Hq _ _ Hm). injection Hy as <-. lia.
  - rewrite <- Of, <- Vf, <- Tf. by apply (qr_done _ _ Hq).
Qed.

Lemma executed_done th' s' f : after_step calc_objid t s s' th th' → f ∈ E →
  ev_done (memop_cnt s') f → sees q (ev_tid f) (RVer (ev_obj f)) (ev_ver f).
Proof using Hq Hc Hb HR.
  intros Has Hf Hd. destruct (as_cnt _ _ _ _ _ _ Has) as [[Hcnt _]|(Hp & _ & n & Hn & Hcnt)].
  { rewrite Hcnt in Hd. by apply (qr_done _ _ Hq). }
  destruct Hd as (m & Hm & Hlt). rewrite Hcnt in Hm. rewrite (cu_cnt _ _ _ _ _ _ _ _ _ _ _ _ _ Hc) in Hn.
  injection Hn as <-. destruct (decide (ev_tid f = t)) as [Et|Et].
  - rewrite Et, lookup_insert_eq in Hm. injection Hm as <-.
    destruct (decide (ev_memop f = Z.of_nat k)) as [Em|Em].
    + assert (f = e) as ->.
      { apply (ev_inj _ _ _ _ _ _ _ _ HR); [done|apply Hc|..]; destruct Hc; congruence. }
      rewrite Et. by apply (qr_pass _ _ Hq t th k e); [apply Hc..|].
    + apply (qr_done _ _ Hq); [done|]. exists (Z.of_nat k).
      rewrite Et, (cu_cnt _ _ _ _ _ _ _ _ _ _ _ _ _ Hc). split; [done|lia].
  - rewrite lookup_insert_ne in Hm by done. apply (qr_done _ _ Hq); [done|]. by exists m.
Qed.

Lemma executed_passed th' s' k' f : after_step calc_objid t s s' th th' →
  (rt_pc th = PcWaitVersion → sees q t (RVer (ev_obj e)) (ev_ver e)) →
  memop_cnt s' !! t = Some (Z.of_nat k') → tevents t E !! k' = Some f → passed (rt_pc th') = true →
  sees q t (RVer (ev_obj f)) (ev_ver f).
Proof using Hq Hc Hb HR.
  intros Has Hwait Hk' Hf Hp'. destruct (as_cnt _ _ _ _ _ _ Has) as [[Hcnt Hcase]|(_ & Hnp & _)]; [|congruence].
  rewrite Hcnt, (cu_cnt _ _ _ _ _ _ _ _ _ _ _ _ _ Hc) in Hk'. injection Hk' as Hk'%(inj Z.of_nat). subst k'.
  rewrite (cu_ev _ _ _ _ _ _ _ _ _ _ _ _ _ Hc) in Hf. injection Hf as <-.
  destruct (Hcase Hp') as [Hp|[Hpc|[Hpc Hne]]]; [|auto|by apply start_sees].
  by apply (qr_pass _ _ Hq t th k e); [apply Hc..|].
Qed.

Lemma executed_data th' s' u bu i a y thu : after_step calc_objid t s s' th th' →
  q_buf (executed s') !! u = Some bu → bu !! i = Some (RData a, y) → r_thr s' !! u = Some thu →
  storing calc_objid (calc_objid a) thu ∨
  ∃ j z, (i < j)%nat ∧ bu !! j = Some (RVer (calc_objid a), z).
Proof using Hq Hc Hb.
  intros Has Hu Hi Hthu. rewrite (as_thr _ _ _ _ _ _ Has) in Hthu. cbn [q_buf executed] in Hu.
  destruct (decide (u = t)) as [->|Hne].
  2: { rewrite lookup_insert_ne in Hu by done. rewrite lookup_insert_ne in Hthu by done. by eapply (qr_data _ _ Hq). }
  rewrite lookup_insert_eq in Hu. rewrite lookup_insert_eq in Hthu. injection Hu as <-. injection Hthu as <-.
  apply lookup_app_Some in Hi as [Hi|[Hlen Hi]].
  - destruct (qr_data _ _ Hq t b i a y th Hb Hi (cu_thr _ _ _ _ _ _ _ _ _ _ _ _ _ Hc)) as [Hst|(j & z & Hij & Hj)].
    + destruct (as_store _ _ _ _ _ _ Has _ Hst) as [?|(z & Hz)]; [by left|right].
      apply list_elem_of_lookup in Hz as [j Hj]. exists (length b + j)%nat, z.
      apply lookup_lt_Some in Hi. split; [lia|]. by rewrite lookup_app_r, Nat.add_sub_swap, Nat.sub_diag by lia.
    + right. exists j, z. split; [done|]. by apply lookup_app_l_Some.
  - left. by eapply (as_data _ _ _ _ _ _ Has), list_elem_of_lookup_2.
Qed.

Lemma qrel_executed th' s' : rinv s' → after_step calc_objid t s s' th th' →
  (∀ l, rget l s' = rget l (flush (rstores t th s) s)) →
  (rt_pc th = PcWaitVersion → sees q t (RVer (ev_obj e)) (ev_ver e)) → qrel (executed s') s'.
Proof using Hq Hc Hb HR.
  intros Hs' Has Hget Hwait. constructor; try done.
  - intros u. cbn. rewrite (as_thr _ _ _ _ _ _ Has), !lookup_insert_is_Some', (qr_bufs _ _ Hq). done.
  - by apply executed_coherent.
  - intros u bu v y Hu Hin. cbn in Hu. apply lookup_insert_Some in Hu as [[<- <-]|[_ Hu]];
      [|by eapply (qr_cnt _ _ Hq)].
    apply elem_of_app in Hin as [Hin|Hin]; [by eapply (qr_cnt _ _ Hq)|].
    destruct stores_ok as [E0|(l & z & E0 & _ & _ & Hcnt)]; rewrite E0 in Hin.
    + by apply elem_of_nil in Hin.
    + apply list_elem_of_singleton in Hin as [= <- <-]. by apply Hcnt.
  - intros *. by apply (executed_data th').
  - apply Hq.
  - intros f Hf Hd. apply executed_sees; [done|]. by eapply executed_done.
  - intros u thu k' f Hthu Hk' Hf Hp. apply executed_sees; [done|].
    destruct (decide (u = t)) as [->|Hne].
    + rewrite (as_thr _ _ _ _ _ _ Has), lookup_insert_eq in Hthu. injection Hthu as <-.
      by eapply (executed_passed th').
    + rewrite (as_thr _ _ _ _ _ _ Has), lookup_insert_ne in Hthu by done.
      assert (memop_cnt s' !! u = memop_cnt s !! u) as Ecnt.
      { destruct (as_cnt _ _ _ _ _ _ Has) as [[-> _]|(_ & _ & n & _ & ->)]; [done|]. by apply lookup_insert_ne. }
      rewrite Ecnt in Hk'. by eapply (qr_pass _ _ Hq).
Qed.
End sees.

(** ** Lemmas: a store reaches memory *)

Lemma rput_thr l x s : r_thr (rput l x s) = r_thr s ∧ wait_reader_log (rput l x s) = wait_reader_log s.
Proof. by destruct l. Qed.

Lemma qrel_drain q s t l x b : qrel q s → q_buf q !! t = Some ((l, x) :: b) →
  qrel (QState (rput l x (q_s q)) (<[t := b]> (q_buf q))) s.
Proof.
  intros Hq Hb. pose proof (qr_coh _ _ Hq) as Hco. destruct (rput_thr l x (q_s q)) as [Hpt Hpw].
  assert (∀ u l' v, grows l' = true → sees q u l' v →
    sees (QState (rput l x (q_s q)) (<[t := b]> (q_buf q))) u l' v) as Hsees.
  { intros u l' v Hg (bu & y & Hbu & Hy & Hv).
    destruct (coherent_drain_mono _ _ _ Hco t l x b u bu l' y Hb Hg Hbu Hy) as (bu' & y' & ? & ? & ?).
    exists bu', y'. split_and!; [done..|lia]. }
  constructor.
  - apply Hq.
  - cbn. rewrite Hpt. apply Hq.
  - cbn. rewrite Hpw. apply Hq.
  - intros u. cbn. rewrite lookup_insert_is_Some', (qr_bufs _ _ Hq). split; [|tauto].
    intros [<-|?]; [|done]. apply (qr_bufs _ _ Hq). eauto.
  - by apply (coherent_drain _ _ _ Hco t l x b Hb).
  - cbn [q_buf]. intros u bu v y [[<- <-]|[_ Hu]]%lookup_insert_Some Hin; [|by eapply (qr_cnt _ _ Hq)].
    eapply (qr_cnt _ _ Hq); [done|]. by right.
  - cbn [q_buf]. intros u bu i a y th [[<- <-]|[_ Hu]]%lookup_insert_Some Hi Hth; [|by eapply (qr_data _ _ Hq)].
    destruct (qr_data _ _ Hq t ((l, x) :: b) (S i) a y th Hb Hi Hth) as [?|(j & z & Hij & Hj)]; [by left|right].
    destruct j as [|j]; [lia|]. exists j, z. split; [lia|done].
  - intros o y Hy. cbn in Hy. destruct (decide (l = RVer o)) as [->|Hne].
    + cbn in Hy. rewrite lookup_insert_eq in Hy. injection Hy as <-.
      assert (is_Some (rget (RVer o) (q_s q))) as [m Hm].
      { apply (ch_dom _ _ _ Hco). destruct (ch_own _ _ _ Hco t _ (RVer o) Hb) as [-> _].
        - unfold values. by rewrite filter_cons_True.
        - unfold values. rewrite filter_cons_True by done. cbn. destruct (list.last _) eqn:El; [eauto|].
          by apply last_None in El. }
      pose proof (ch_grow _ _ _ Hco t _ (RVer o) m Hb eq_refl Hm) as HS. unfold values in HS.
      rewrite filter_cons_True in HS by done. apply StronglySorted_inv in HS as [_ HF]. apply Forall_inv in HF.
      pose proof (qr_nonneg _ _ Hq o m Hm). cbn in HF. lia.
    + apply (qr_nonneg _ _ Hq o). change (rget (RVer o) (rput l x (q_s q)) = Some y) in Hy.
      by rewrite rget_rput_ne in Hy.
  - intros f Hf Hd. apply Hsees; [done|]. by apply Hq.
  - intros u th k e Hth Hk He Hp. apply Hsees; [done|]. by eapply (qr_pass _ _ Hq).
Qed.

(** ** The machine *)

(** Steps left: those of the state with all stores made, and the stores. *)
Definition qmeasure (q : qstate) (s : rstate) : nat :=
  2 * measure nobj progs E L s +
  sum_list_with (λ t, length (q_buf q !!! t)) (elements (dom progs)).

Definition qinv (n : nat) (q : qstate) : Prop := ∃ s, qrel q s ∧ qmeasure q s = n.

Lemma buffered_update q s t b b' m' : qrel q s → q_buf q !! t = Some b →
  (sum_list_with (λ u, length (q_buf (QState m' (<[t := b']> (q_buf q))) !!! u)) (elements (dom progs)) + length b =
   sum_list_with (λ u, length (q_buf q !!! u)) (elements (dom progs)) + length b')%nat.
Proof using Type.
  intros Hq Hb. cbn [q_buf].
  pose proof (sum_list_with_update (λ u, length (<[t := b']> (q_buf q) !!! u))
    (λ u, length (q_buf q !!! u)) (elements (dom progs)) t (NoDup_elements _)) as Hs.
  cbn in Hs. rewrite lookup_total_insert_eq, (lookup_total_correct _ _ _ Hb) in Hs.
  rewrite elem_of_elements, elem_of_dom in Hs. apply Hs.
  - apply (ri_dom _ _ _ _ _ _ _ _ _ (qr_inv _ _ Hq)), (qr_bufs _ _ Hq). eauto.
  - intros u _ Hne. by rewrite lookup_total_insert_ne.
Qed.

Lemma qstep_drain q s t : qrel q s →
  ∃ q', qstep calc_objid (QDrain t) q = Ok q' ∧
    (q' = q ∨ (qmeasure q' s < qmeasure q s)%nat ∧ qrel q' s).
Proof using Type.
  intros Hq. unfold qstep. destruct (q_buf q !! t) as [[|[l x] b]|] eqn:Hb; [by eauto| |by eauto].
  eexists. split; [done|right]. split; [|by apply qrel_drain]. unfold qmeasure.
  pose proof (buffered_update q s t _ b (rput l x (q_s q)) Hq Hb) as Hu. cbn [length] in Hu. lia.
Qed.

(** An instruction that changes neither thread nor log nor buffer. *)
Lemma executed_self q t b w thr : q_buf q !! t = Some b →
  w = wait_reader_log (q_s q) → thr = r_thr (q_s q) →
  QState (RState (r_mem (q_s q)) (obj_version (q_s q)) (memop_cnt (q_s q)) w thr)
    (<[t := b ++ []]> (q_buf q)) = q.
Proof using Type.
  intros Hb -> ->. rewrite app_nil_r, insert_id by done. by destruct q as [[] ?].
Qed.

Lemma spinning_stores s t th k e x w : current s t th k e x w →
  spinning s th x → rstores t th s = [].
Proof using Type.
  intros Hc [[Hpc _]|(r & n & Hpc & _)]; unfold ReplayTso.rstores; by rewrite Hpc.
Qed.

(** With all buffers empty memory is the state with all stores made. *)
Lemma drained_state q s : qrel q s → map_Forall (λ _ b, b = []) (q_buf q) → q_s q = s.
Proof using Type.
  intros Hq Hall. assert (∀ l, rget l s = rget l (q_s q)) as Hget.
  { intros l. apply (ch_free _ _ _ (qr_coh _ _ Hq)). intros t b Hb. by rewrite (Hall t b Hb). }
  pose proof (qr_thr _ _ Hq). pose proof (qr_wrl _ _ Hq).
  assert (r_mem s = r_mem (q_s q)) as Hm by (apply map_eq; intros a; exact (Hget (RData a))).
  assert (obj_version s = obj_version (q_s q)) as Hv by (apply map_eq; intros a; exact (Hget (RVer a))).
  assert (memop_cnt s = memop_cnt (q_s q)) as Hn by (apply map_eq; intros a; exact (Hget (RCnt a))).
  destruct s, (q_s q). cbn in *. congruence.
Qed.

Lemma qstep_exec q s t : qrel q s →
  ∃ q', qstep calc_objid (QExec t) q = Ok q' ∧
    (q' = q ∧ (map_Forall (λ _ b, b = []) (q_buf q) → rstep t s = Ok s) ∨
     ∃ s', rstep t s = Ok s' ∧ (qmeasure q' s' < qmeasure q s)%nat ∧ qrel q' s').
Proof using HR.
  intros Hq. unfold qstep. rewrite (qr_thr _ _ Hq).
  destruct (r_thr s !! t) as [th|] eqn:Hth.
  2: { exists q. split; [done|left]. split; [done|]. intros _. unfold Replay.rstep. by rewrite Hth. }
  destruct (proj2 (qr_bufs _ _ Hq t)) as [b Hb]; [eauto|]. rewrite Hb. case_decide as Hlk.
  { exists q. split; [done|left]. split; [done|]. intros Hall. destruct Hlk as [_ []]. by apply (Hall t). }
  destruct (flush_thr b (q_s q)) as [Hvt Hvw].
  destruct (cur_obj calc_objid (rt_prog th)) as [o|] eqn:Ho.
  2: { assert (rstep t (flush b (q_s q)) = Ok (flush b (q_s q))) as ->.
       { unfold Replay.rstep. by rewrite Hvt, (qr_thr _ _ Hq), Hth, Ho. }
       assert (rstores t th (flush b (q_s q)) = []) as ->.
       { unfold ReplayTso.rstores. by destruct (rt_pc th), (rt_prog th). }
       cbn [mbind outcome_bind]. eexists. split; [done|left]. split; [by apply executed_self|].
       intros _. unfold Replay.rstep. by rewrite Hth, Ho. }
  destruct (current_of _ _ _ _ _ _ _ _ HR _ _ _ _ (qr_inv _ _ Hq) Hth Ho) as (k & e & x & w & Hc).
  destruct (rstep_ok _ _ _ _ _ _ _ _ HR s t (qr_inv _ _ Hq)) as (s' & Hst & Hs').
  destruct (exec_agrees q s Hq t th k e x w Hc b Hb s' Hst) as [[Ha Hwait]|[Hv Hn]].
  2: { rewrite Hn, Hv. cbn [mbind outcome_bind]. eexists. split; [done|left]. split; [by apply executed_self|].
       intros Hall. rewrite (Hall t b Hb) in Hv. cbn in Hv. by rewrite (drained_state q s Hq Hall) in Hv. }
  destruct (rstep_agree calc_objid t (flush b (q_s q)) s th s') as (Hrs & Hget & v' & -> & Hv't & Hv'w);
    [by rewrite Hvt, (qr_thr _ _ Hq)|by rewrite Hvw, (qr_wrl _ _ Hq)|done..|].
  cbn [mbind outcome_bind]. rewrite Hrs, Hv't, Hv'w. eexists. split; [done|].
  destruct (step_effect _ _ _ _ _ _ _ _ s t th k e x w (qr_inv _ _ Hq) Hc s' Hst) as [[-> Hsp]|Hlt].
  - left. split; [|done]. rewrite (spinning_stores s t th k e x w Hc Hsp).
    apply executed_self; [done|..]; symmetry; apply Hq.
  - right. exists s'. destruct (rstep_after calc_objid t s s' th o Hst Hth Ho) as [th' Has].
    split_and!; [done| |exact (qrel_executed q s Hq t th k e x w Hc b Hb th' s' Hs' Has Hget Hwait)].
    unfold qmeasure.
    pose proof (buffered_update q s t b (b ++ rstores t th s) (RState (r_mem (q_s q)) (obj_version (q_s q))
      (memop_cnt (q_s q)) (wait_reader_log s') (r_thr s')) Hq Hb) as Hu. rewrite length_app in Hu.
    destruct (stores_ok q s Hq t th k e x w Hc b Hb) as [E0|(l & y & E0 & _)]; rewrite E0 in Hu; cbn [length] in Hu;
      rewrite E0; lia.
Qed.

(** Threads that take instructions and drain their buffers. *)
Definition qlive (a : qact) : Prop := match a with QExec t | QDrain t => is_Some (progs !! t) end.

#[export] Instance replay_tso_live : live_machine (qstep calc_objid) qlive q_finished qinv.
Proof using HR.
  split.
  - intros n q [t|t] (s & Hq & <-).
    + destruct (qstep_exec q s t Hq) as (q' & Hst & [[-> _]|(s' & _ & Hlt & Hq')]); eexists; (split; [done|]);
        [by left|right]. exists (qmeasure q' s'). split; [done|]. by exists s'.
    + destruct (qstep_drain q s t Hq) as (q' & Hst & [->|[Hlt Hq']]); eexists; (split; [done|]);
        [by left|right]. exists (qmeasure q' s). split; [done|]. by exists s.
  - intros n q (s & Hq & _).
    destruct (decide (map_Forall (λ _ b, b = []) (q_buf q))) as [Hall|Hn].
    + destruct (progress _ _ _ _ _ _ _ _ HR s (qr_inv _ _ Hq)) as [Hf|(t & s' & Hst & Ht & Hlt)].
      { left. split; [|done]. by rewrite (drained_state q s Hq Hall). }
      right. exists (QExec t). split; [done|].
      destruct (qstep_exec q s t Hq) as (q' & -> & [[_ Hsp]|(s1 & Hst1 & _ & Hq1)]); intros [= ->].
      * rewrite (Hsp Hall) in Hst. injection Hst as ->. lia.
      * pose proof (drained_state q s Hq Hall) as E1. pose proof (drained_state q s1 Hq1 Hall) as E2.
        rewrite Hst in Hst1. injection Hst1 as <-. rewrite <- E2, E1 in Hlt. lia.
    + right. apply map_not_Forall in Hn as (t & b & Hb & Hne); [|apply _]. exists (QDrain t).
      split; [apply (ri_dom _ _ _ _ _ _ _ _ _ (qr_inv _ _ Hq)), (qr_bufs _ _ Hq); eauto|].
      unfold qstep. rewrite Hb. destruct b as [|[l x] b]; [done|]. intros [= E0]. apply (f_equal q_buf) in E0.
      cbn in E0. apply (f_equal (lookup t)) in E0. rewrite lookup_insert_eq, Hb in E0. injection E0 as E0.
      apply (f_equal length) in E0. cbn in E0. lia.
  - intros q a [Hf Hall]. unfold qstep. destruct a as [t|t].
    + destruct (r_thr (q_s q) !! t) as [th|] eqn:Hth; [|done]. destruct (q_buf q !! t) as [b|] eqn:Hb; [|done].
      pose proof (Hall t b Hb) as ->. rewrite decide_False by tauto. destruct (Hf t th Hth) as [r Hr].
      unfold Replay.rstep. cbn [flush foldl]. rewrite Hth, Hr. cbn [cur_obj mbind outcome_bind].
      assert (rstores t th (q_s q) = []) as -> by (unfold ReplayTso.rstores; rewrite Hr; by destruct (rt_pc th)).
      f_equal. by apply executed_self.
    + destruct (q_buf q !! t) as [b|] eqn:Hb; [|done]. by rewrite (Hall t b Hb).
Qed.
End tso.
