(* ===== verification/TsoReplay.v ===== *)
(** * TsoReplay: the memory order scheme on x86-TSO and on files, end to end

    The strongest form of the theorem: the recorder and the replayer both run on
    x86-TSO, with store buffers; between them there are files of bytes; and the
    program that is replayed has its objects at other addresses. *)
From stdpp Require Import strings.
From S2P Require Import Prelude Mem MappedLog Record Batch History SeqlockTso SeqlockTsoProof Reloc.
From S2P Require Import Reorder PQueue KWay Merge Sched Replay ReplayProof Pipeline Correctness Files.
From S2P Require Import TsoCorrectness RecordLive ReplayTso ReplayTsoProof.

(** A replay starts with all stores made. *)
Lemma qrel_start calc_objid nobj mem0 progs E V L res r :
  recorded calc_objid nobj mem0 progs E V L res → rinv calc_objid nobj mem0 progs E V L res r →
  (∀ t th, r_thr r !! t = Some th → rt_pc th = PcStart ∧ memop_cnt r !! t = Some 0) →
  qrel calc_objid nobj mem0 progs E V L res (qstart r) r.
Proof.
  intros HR Hr H0. assert (map_Forall (λ _ b, b = []) (q_buf (qstart r))) as Hall.
  { intros t b Hb. cbn in Hb. rewrite lookup_fmap in Hb. by apply fmap_Some in Hb as (? & _ & ->). }
  constructor; try done.
  - intros t. cbn. by rewrite lookup_fmap, fmap_is_Some.
  - by apply coherent_start.
  - intros t b u x Hb Hin. rewrite (Hall t b Hb) in Hin. by apply elem_of_nil in Hin.
  - intros t b i a x th Hb Hi. rewrite (Hall t b Hb) in Hi. done.
  - intros o x Hx. by apply (ri_even _ _ _ _ _ _ _ _ _ Hr o).
  - intros f Hf (n & Hn & Hlt). exfalso. pose proof (rd_wf _ _ _ _ _ _ _ _ HR) as Hwf.
    destruct (hw_event _ _ _ _ _ Hwf f Hf) as (_ & _ & Hp).
    apply (ri_dom _ _ _ _ _ _ _ _ _ Hr) in Hp as [th Hth]. destruct (H0 _ _ Hth) as [_ Hc].
    rewrite Hc in Hn. injection Hn as <-. destruct (tevents_at _ _ _ _ _ _ Hwf Hf) as [? _]. lia.
  - intros t th k e Hth _ _ Hp. destruct (H0 t th Hth) as [Hpc _]. by rewrite Hpc in Hp.
Qed.

Lemma moved_all_within f P ps ps' : Forall2 (moved f P) ps ps' → Forall (prog_within P) ps.
Proof.
  intros Hps. apply list.Forall_forall. intros p [i Hi]%list_elem_of_lookup_1.
  destruct (Forall2_lookup_l _ _ _ _ _ Hps Hi) as (p' & _ & ?). by eapply moved_within.
Qed.

Section properties.
Context (R : recorder) {HR : recorder_ok R} (Q : prio_queue qe_gt) {HQ : prio_queue_ok Q}.
Context (addr : string → nat → Z) (Haddr : ∀ path i, addr path i mod PAGE_SIZE = 0).

(** The replay of the logs of a history starts with all stores made. *)
Lemma history_replay_start calc_objid nobj mem0 ps E s logs :
  recording calc_objid nobj mem0 ps E s → nobj ≤ 2 ^ 31 →
  record_all R nobj (Z.of_nat (length ps)) E = Ok logs →
  ∃ r0 V L, (∀ fs, prepare_files addr Q nobj mem0 ps logs fs = Ok r0) ∧
    (∃ vlogs merged, replay_init nobj mem0 ps vlogs merged = Ok r0) ∧
    recorded calc_objid nobj mem0 (map_seqZ 0 ps) E V L (result s) ∧
    qrel calc_objid nobj mem0 (map_seqZ 0 ps) E V L (result s) (qstart r0) r0.
Proof using All.
  intros Hrec Hobj Hlogs.
  destruct (prepare_ok R Q calc_objid nobj mem0 ps E s) as (r0 & V & L & Hp & HRd & Hr0); [apply Hrec..|].
  assert (prepare_logs Q nobj mem0 ps logs = Ok r0) as Hpl by (unfold prepare in Hp; by rewrite Hlogs in Hp).
  exists r0, V, L. unfold prepare_logs in Hpl. pose proof Hpl as (merged & _ & Hi)%bind_Ok. split_and!; [|eauto|done|].
  - destruct (record_all_ok R calc_objid nobj mem0 ps E s (rec_history _ _ _ _ _ _ Hrec)) as (logs' & Hl & HL).
    rewrite Hlogs in Hl. injection Hl as <-. intros fs. by eapply (prepare_files_ok R Q).
  - apply qrel_start; [done..|]. intros t th Hth. by apply (replay_init_threads _ _ _ _ _ _ Hi t th Hth).
Qed.

(** A finished replay, its stores drained, has ended as the history. *)
Lemma tso_replay_final calc_objid nobj mem0 ps E s V L q s1 :
  recording calc_objid nobj mem0 ps E s → recorded calc_objid nobj mem0 (map_seqZ 0 ps) E V L (result s) →
  qrel calc_objid nobj mem0 (map_seqZ 0 ps) E V L (result s) q s1 → q_finished q →
  (∀ a, 0 ≤ calc_objid a < nobj → r_mem (q_s q) !! a = a_mem s !! a) ∧
  rt_prog <$> r_thr (q_s q) = a_prog s.
Proof using Type.
  intros Hrec HRd Hq [Hrf Hall].
  pose proof (drained_state _ _ _ _ _ _ _ _ q s1 Hq Hall) as Es. rewrite Es in *.
  assert (rinv calc_objid nobj mem0 (map_seqZ 0 ps) E V L (result s) s1) as Hi by apply Hq.
  destruct (inv_final calc_objid nobj mem0 ps E s V L s1 Hrec HRd Hi Hrf) as [Hm Ht].
  split; [done|]. apply map_eq. intros t. rewrite lookup_fmap.
  destruct (r_thr s1 !! t) as [th|] eqn:Hth; cbn; [by rewrite (Ht t th)|].
  symmetry. apply eq_None_not_Some. intros Hp'.
  apply (history_prog_dom _ _ _ _ _ _ _ (rec_history _ _ _ _ _ _ Hrec)) in Hp'.
  apply (ri_dom _ _ _ _ _ _ _ _ _ Hi) in Hp' as [? ?]. congruence.
Qed.

(** The replay of the logs of a history, with store buffers. *)
Lemma history_tso_replay calc_objid nobj mem0 ps E s logs :
  recording calc_objid nobj mem0 ps E s → nobj ≤ 2 ^ 31 →
  record_all R nobj (Z.of_nat (length ps)) E = Ok logs →
  ∃ r0 bound, (∀ fs, prepare_files addr Q nobj mem0 ps logs fs = Ok r0) ∧
    (∀ rounds, Forall (fair (qlive (map_seqZ 0 ps))) rounds → (bound ≤ length rounds)%nat →
      ∃ q, run_sched (qstep calc_objid) (concat rounds) (qstart r0) = Ok q ∧ q_finished q) ∧
    ∀ sched, ∃ q, run_sched (qstep calc_objid) sched (qstart r0) = Ok q ∧
      (q_finished q →
        (∀ a, 0 ≤ calc_objid a < nobj → r_mem (q_s q) !! a = a_mem s !! a) ∧
        rt_prog <$> r_thr (q_s q) = a_prog s).
Proof using All.
  intros Hrec Hobj Hlogs.
  destruct (history_replay_start calc_objid nobj mem0 ps E s logs) as (r0 & V & L & Hp & _ & HRd & Hq0); [done..|].
  pose proof (replay_tso_live _ _ _ _ _ _ _ _ HRd) as HM.
  eexists r0, _. split_and!; [done|..].
  { intros rounds Hfair Hlr.
    destruct (fair_rounds_finish _ (HM := HM) rounds _ (qstart r0)
      (ex_intro _ r0 (conj Hq0 eq_refl)) Hfair Hlr) as (q & _ & ? & _ & ?). eauto. }
  intros sched. destruct (run_sched_ok _ (HM := HM) sched _ (qstart r0) (ex_intro _ r0 (conj Hq0 eq_refl)))
    as (q & n & Hr & _ & s1 & Hq & _).
  exists q. split; [done|]. by eapply tso_replay_final.
Qed.

(** A recorder whose order logs do not depend on values that differ as [W] allows. *)
Definition same_logs (W : Z → Z → Z → Prop) : Prop :=
  ∀ nobj accs accs', Forall2 (λ x y, y.1 = x.1 ∧ ∃ a, W a x.2 y.2) accs accs' →
    record_thread R nobj accs' = record_thread R nobj accs.

Lemma same_val_logs : same_logs same_val.
Proof using Type.
  intros nobj accs accs' HF. enough (accs' = accs) by congruence.
  induction HF as [|[x v] [y v'] accs accs' [E (? & Ev)] _ IH]; [done|]. unfold same_val in Ev. cbn in *. congruence.
Qed.

Lemma blind_logs W `{!value_blind R} : same_logs W.
Proof using Type.
  intros nobj accs accs' HF. apply rc_blind.
  induction HF as [|x y accs accs' [E _] _ IH]; [done|]. cbn. by f_equal.
Qed.

(** A finished run of the recorder on x86-TSO, its history, and the history of
    another executable of the program that makes the same accesses. *)
Lemma tso_related_recording W calc_objid calc_objid' nobj mem0 mem0' f ps ps' acts c0 c :
  let ok := addr_ok calc_objid nobj mem0 in
  same_logs W → (∀ a b, ok a → ok b → f a = f b → a = b) → (∀ a, ok a → calc_objid' (f a) = calc_objid a) →
  related_mem f ok W mem0 mem0' → Forall (prog_within ok) ps → Forall2 (related f ok W) ps ps' →
  (length ps ≤ 127)%nat →
  tinit R nobj mem0 (map_seqZ 0 ps) = Ok c0 → trun R calc_objid acts c0 = Ok c → t_finished R c →
  ∃ s0 logs E E' s s', rc_init nobj = Ok s0 ∧ tinv R calc_objid nobj mem0 (map_seqZ 0 ps) s0 E s c ∧
    tso_logs R nobj (Z.of_nat (length ps)) c = Ok logs ∧ recorded_accesses logs = length E ∧
    history calc_objid nobj mem0 (map_seqZ 0 ps) E s ∧ a_finished s ∧
    Forall2 (related_event f W) E E' ∧
    record_all R nobj (Z.of_nat (length ps')) E' = Ok logs ∧
    (Z.of_nat (length E) < 2 ^ 31 → recording calc_objid' nobj mem0' ps' E' s') ∧
    related_mem f ok W (m_data (t_mem c)) (a_mem s') ∧
    a_prog s' = tt_prog <$> t_thr c.
Proof using HR.
  intros ok HW Hinj Hobj Hm Hw Hps Hthr Hc0 Hrun Hf. pose proof (Forall2_length Hps) as Hlen.
  destruct (tso_recording R calc_objid nobj mem0 ps acts c0 c Hw Hthr Hc0 Hrun Hf)
    as (s0 & logs & E & s & Hs0 & Hc & Hl & Hlogs & Hn & Hfin & Hrecd).
  assert (history calc_objid nobj mem0 (map_seqZ 0 ps) E s) as HE by apply Hc.
  destruct (history_related _ _ nobj _ _ _ _ f ok W Hinj Hobj Hm (related_progs_seq _ _ _ _ _ Hps) E s HE)
    as (E' & s' & HE' & HF & Hs').
  destruct (finished_related _ _ _ s s' Hs' Hfin) as [Hfin' Hprog].
  destruct (finished_history _ _ _ _ _ _ _ _ _ Hc Hf) as (_ & Hdata & Hthreads).
  exists s0, logs, E, E', s, s'. split_and!; try done.
  - rewrite <- Hlogs, <- Hlen. unfold record_all. apply mapM_ext_in. intros t _.
    by apply HW, (tvaccs_related f).
  - intros Hle. constructor; [done..|lia|by rewrite <- (Forall2_length HF)].
  - rewrite Hdata. apply Hs'.
  - rewrite Hprog. apply map_eq. intros t. rewrite lookup_fmap.
    destruct (t_thr c !! t) as [th|] eqn:Hth; cbn; [by destruct (Hthreads t th Hth)|].
    apply eq_None_not_Some. intros Hp'. apply (history_prog_dom _ _ _ _ _ _ _ HE) in Hp'.
    apply (ti_dom _ _ _ _ _ _ _ _ _ Hc) in Hp' as [? ?]. congruence.
Qed.

(** The recorder on x86-TSO and the replay of another executable of the same
    program, with its history. *)
Lemma tso_related_replay W calc_objid calc_objid' nobj mem0 mem0' f ps ps' acts c0 c :
  let ok := addr_ok calc_objid nobj mem0 in
  same_logs W → (∀ a b, ok a → ok b → f a = f b → a = b) → (∀ a, ok a → calc_objid' (f a) = calc_objid a) →
  related_mem f ok W mem0 mem0' → Forall (prog_within ok) ps → Forall2 (related f ok W) ps ps' →
  (length ps ≤ 127)%nat → nobj ≤ 2 ^ 31 →
  tinit R nobj mem0 (map_seqZ 0 ps) = Ok c0 → trun R calc_objid acts c0 = Ok c → t_finished R c →
  ∃ logs E s, tso_logs R nobj (Z.of_nat (length ps)) c = Ok logs ∧ recorded_accesses logs = length E ∧
    history calc_objid nobj mem0 (map_seqZ 0 ps) E s ∧ a_finished s ∧
    (Z.of_nat (length E) < 2 ^ 31 →
     ∃ r0 bound, (∀ fs, prepare_files addr Q nobj mem0' ps' logs fs = Ok r0) ∧
     (∀ rounds, Forall (fair (qlive (map_seqZ 0 ps'))) rounds → (bound ≤ length rounds)%nat →
        ∃ q, run_sched (qstep calc_objid') (concat rounds) (qstart r0) = Ok q ∧ q_finished q) ∧
     ∀ sched, ∃ q, run_sched (qstep calc_objid') sched (qstart r0) = Ok q ∧
      (q_finished q → related_mem f ok W (m_data (t_mem c)) (r_mem (q_s q)) ∧
        rt_prog <$> r_thr (q_s q) = tt_prog <$> t_thr c)).
Proof using All.
  intros ok HW Hinj Hobjid Hm0 Hw Hps Hthr Hobj Hc0 Hrun Hf.
  destruct (tso_related_recording W calc_objid calc_objid' nobj mem0 mem0' f ps ps' acts c0 c)
    as (s0 & logs & E & E' & s & s' & _ & Hc & Hl & Hn & HE & Hfin & _ & Hlogs & Hrecd & Hdata & Hprog); [done..|].
  exists logs, E, s. split_and!; [done..|]. intros Hle.
  destruct (history_tso_replay calc_objid' nobj mem0' ps' E' s' logs)
    as (r0 & bound & Hp & Hfair & Hall); [by apply Hrecd|done..|].
  exists r0, bound. split_and!; [done..|]. intros sched. destruct (Hall sched) as (q & Hq & Hqf).
  exists q. split; [done|]. intros Hd. destruct (Hqf Hd) as [Hm Ht]. rewrite <- Hprog. split; [|done].
  intros a Ha. rewrite Hm; [by apply Hdata|]. rewrite (Hobjid a Ha). apply Ha.
Qed.

(** The same with the same contents. *)
Lemma tso_moved_recording calc_objid calc_objid' nobj mem0 mem0' f ps ps' acts c0 c :
  relocation calc_objid calc_objid' mem0 mem0' f (addr_ok calc_objid nobj mem0) →
  Forall2 (moved f (addr_ok calc_objid nobj mem0)) ps ps' → (length ps ≤ 127)%nat →
  tinit R nobj mem0 (map_seqZ 0 ps) = Ok c0 → trun R calc_objid acts c0 = Ok c → t_finished R c →
  ∃ s0 logs E s s', rc_init nobj = Ok s0 ∧ tinv R calc_objid nobj mem0 (map_seqZ 0 ps) s0 E s c ∧
    tso_logs R nobj (Z.of_nat (length ps)) c = Ok logs ∧ recorded_accesses logs = length E ∧
    history calc_objid nobj mem0 (map_seqZ 0 ps) E s ∧ a_finished s ∧
    record_all R nobj (Z.of_nat (length ps')) (moved_event f <$> E) = Ok logs ∧
    (Z.of_nat (length E) < 2 ^ 31 → recording calc_objid' nobj mem0' ps' (moved_event f <$> E) s') ∧
    (∀ a, addr_ok calc_objid nobj mem0 a → a_mem s' !! f a = m_data (t_mem c) !! a) ∧
    a_prog s' = tt_prog <$> t_thr c.
Proof using HR.
  intros [Hinj Hobjid Hm] Hps Hthr Hc0 Hrun Hf. pose proof (moved_all_within _ _ _ _ Hps) as Hw.
  destruct (tso_related_recording same_val calc_objid calc_objid' nobj mem0 mem0' f ps ps' acts c0 c)
    as (s0 & logs & E & E' & s & s' & ? & ? & ? & ? & ? & ? & ->%related_event_same & ? & ? & Hd & ?); try done.
  - apply same_val_logs.
  - apply moved_related_mem; [|done]. by intros a [? _].
  - eapply Forall2_impl; [|exact Hps]. apply moved_related.
  - exists s0, logs, E, s, s'. split_and!; try done. by apply related_moved_mem.
Qed.

Lemma tso_moved_replay calc_objid calc_objid' nobj mem0 mem0' f ps ps' acts c0 c :
  relocation calc_objid calc_objid' mem0 mem0' f (addr_ok calc_objid nobj mem0) →
  Forall2 (moved f (addr_ok calc_objid nobj mem0)) ps ps' → (length ps ≤ 127)%nat → nobj ≤ 2 ^ 31 →
  tinit R nobj mem0 (map_seqZ 0 ps) = Ok c0 → trun R calc_objid acts c0 = Ok c → t_finished R c →
  ∃ logs E s, tso_logs R nobj (Z.of_nat (length ps)) c = Ok logs ∧ recorded_accesses logs = length E ∧
    history calc_objid nobj mem0 (map_seqZ 0 ps) E s ∧ a_finished s ∧
    (Z.of_nat (length E) < 2 ^ 31 →
     ∃ r0 bound, (∀ fs, prepare_files addr Q nobj mem0' ps' logs fs = Ok r0) ∧
     (∀ rounds, Forall (fair (qlive (map_seqZ 0 ps'))) rounds → (bound ≤ length rounds)%nat →
        ∃ q, run_sched (qstep calc_objid') (concat rounds) (qstart r0) = Ok q ∧ q_finished q) ∧
     ∀ sched, ∃ q, run_sched (qstep calc_objid') sched (qstart r0) = Ok q ∧
      (q_finished q →
        (∀ a, addr_ok calc_objid nobj mem0 a → r_mem (q_s q) !! f a = m_data (t_mem c) !! a) ∧
        rt_prog <$> r_thr (q_s q) = tt_prog <$> t_thr c)).
Proof using All.
  intros [Hinj Hobjid Hm] Hps Hthr Hobj Hc0 Hrun Hf. pose proof (moved_all_within _ _ _ _ Hps) as Hw.
  destruct (tso_related_replay same_val calc_objid calc_objid' nobj mem0 mem0' f ps ps' acts c0 c)
    as (logs & E & s & ? & ? & ? & ? & Hr); try done.
  - apply same_val_logs.
  - apply moved_related_mem; [|done]. by intros a [? _].
  - eapply Forall2_impl; [|exact Hps]. apply moved_related.
  - exists logs, E, s. split_and!; try done. intros Hle. destruct (Hr Hle) as (r0 & bound & ? & ? & Hall).
    exists r0, bound. split_and!; try done. intros sched. destruct (Hall sched) as (q & ? & Hq). exists q.
    split; [done|]. intros [Hd ?]%Hq. split; [by apply related_moved_mem|done].
Qed.

(** C1: recorder and replayer on x86-TSO, with the files between them.  For every
    finished run of a recorder the bytes its threads leave go through the tools,
    and start a replay by another executable of the same program, with its objects
    at other addresses.  Whatever the order in which the replaying threads take
    their instructions and their buffered stores reach memory: no assertion of the
    replayer fails, every fair run finishes within a bound, and a run that has
    finished, its stores drained, has in every object's memory and in every
    thread's result what the recording left there.  Nothing depends on where files
    are mapped, or on the logs an earlier run left. *)
Theorem tso_record_tso_replay calc_objid calc_objid' nobj mem0 mem0' f ps ps' acts c0 c fs :
  relocation calc_objid calc_objid' mem0 mem0' f (addr_ok calc_objid nobj mem0) →
  Forall2 (moved f (addr_ok calc_objid nobj mem0)) ps ps' → (length ps ≤ 127)%nat → nobj ≤ 2 ^ 31 →
  tinit R nobj mem0 (map_seqZ 0 ps) = Ok c0 → trun R calc_objid acts c0 = Ok c → t_finished R c →
  ∃ logs, tso_logs R nobj (Z.of_nat (length ps)) c = Ok logs ∧
    (Z.of_nat (recorded_accesses logs) < 2 ^ 31 →
     ∃ r0 bound, prepare_files addr Q nobj mem0' ps' logs fs = Ok r0 ∧
     (∀ rounds, Forall (fair (qlive (map_seqZ 0 ps'))) rounds → (bound ≤ length rounds)%nat →
        ∃ q, run_sched (qstep calc_objid') (concat rounds) (qstart r0) = Ok q ∧ q_finished q) ∧
     ∀ sched, ∃ q, run_sched (qstep calc_objid') sched (qstart r0) = Ok q ∧
      (q_finished q →
        (∀ a, addr_ok calc_objid nobj mem0 a → r_mem (q_s q) !! f a = m_data (t_mem c) !! a) ∧
        rt_prog <$> r_thr (q_s q) = tt_prog <$> t_thr c)).
Proof using All.
  intros Hmv Hps Hthr Hobj Hc0 Hrun Hf.
  destruct (tso_moved_replay calc_objid calc_objid' nobj mem0 mem0' f ps ps' acts c0 c)
    as (logs & E & s & Hl & Hn & _ & _ & Hr); [done..|].
  exists logs. rewrite Hn. split; [done|]. intros Hlen.
  destruct (Hr Hlen) as (r0 & bound & Hp & ? & ?). by exists r0, bound.
Qed.
End properties.

(** C22: the RTM cluster recorder, with each block a transaction or a sequence of
    fallback accesses, from the first access to the end of the replay.  Threads
    that make at most [b] accesses, fewer than 2^31, never fail and finish recording
    under every schedule that is fair to them and to their store buffers, whichever
    blocks commit; the [int] that counts the accesses of a thread, and so says where
    its blocks begin, never overflows; and from every finished recording the files lead to a replay on x86-TSO
    by another executable of the program, which fails on no schedule, finishes
    under every fair one and then has the recorded memory and results. *)
Theorem cluster_record_replay (Q : prio_queue qe_gt) `{!prio_queue_ok Q} addr
    (Haddr : ∀ path i, addr path i mod PAGE_SIZE = 0) calc_objid calc_objid' nobj mem0 mem0' f ps ps' b fs :
  relocation calc_objid calc_objid' mem0 mem0' f (addr_ok calc_objid nobj mem0) →
  Forall2 (moved f (addr_ok calc_objid nobj mem0)) ps ps' → Forall (λ p, at_most p b) ps →
  Z.of_nat b < 2 ^ 31 → (length ps ≤ 127)%nat → nobj ≤ 2 ^ 31 →
  ∃ c0 rec_bound, tinit rtmcluster_recorder nobj mem0 (map_seqZ 0 ps) = Ok c0 ∧
  (∀ rounds, Forall (fair (tlive (map_seqZ 0 ps))) rounds → (rec_bound ≤ length rounds)%nat →
     ∃ c, cluster_run calc_objid (concat rounds) c0 = Ok c ∧ t_finished rtmcluster_recorder c) ∧
  ∀ acts, ∃ c, cluster_run calc_objid acts c0 = Ok c ∧
   (∀ t th, t_thr c !! t = Some th → g_sim_bbcnt th = cluster_accesses th ∧ 0 ≤ g_sim_bbcnt th ≤ Z.of_nat b) ∧
   (t_finished rtmcluster_recorder c →
    ∃ logs, tso_logs rtmcluster_recorder nobj (Z.of_nat (length ps)) c = Ok logs ∧
    (Z.of_nat (recorded_accesses logs) < 2 ^ 31 →
     ∃ r0 bound, prepare_files addr Q nobj mem0' ps' logs fs = Ok r0 ∧
     (∀ rounds, Forall (fair (qlive (map_seqZ 0 ps'))) rounds → (bound ≤ length rounds)%nat →
        ∃ q, run_sched (qstep calc_objid') (concat rounds) (qstart r0) = Ok q ∧ q_finished q) ∧
     ∀ sched, ∃ q, run_sched (qstep calc_objid') sched (qstart r0) = Ok q ∧
      (q_finished q →
        (∀ a, addr_ok calc_objid nobj mem0 a → r_mem (q_s q) !! f a = m_data (t_mem c) !! a) ∧
        rt_prog <$> r_thr (q_s q) = tt_prog <$> t_thr c))).
Proof.
  intros Hmv Hps Hb Hb31 Hthr Hobj. pose proof (moved_all_within _ _ _ _ Hps) as Hw.
  destruct (recording_machine rtmcluster_recorder calc_objid nobj mem0 ps b) as (inv & c0 & n & Hc0 & Hn & HM);
    [done..|]. apply cluster_live in HM.
  exists c0, n. split_and!; [done|..].
  - intros rounds Hf Hlen.
    destruct (fair_rounds_finish _ (HM := HM) rounds n c0 Hn Hf Hlen) as (c & _ & Hr & _ & Hfin). by exists c.
  - intros acts. destruct (run_sched_ok _ (HM := HM) acts n c0 Hn) as (c & _ & Hrun & _).
    exists c. split_and!; [done|..].
    { intros t th Hth. destruct (cluster_count calc_objid nobj mem0 ps b acts c0 c t th Hw Hb Hc0 Hrun Hth).
      unfold g_sim_bbcnt. rewrite wrap_s_id by (change (2 ^ (32 - 1)) with (2 ^ 31); lia). lia. }
    intros Hf. destruct (cluster_run_trun calc_objid acts c0) as (acts' & Hrun').
    unfold cluster_run in Hrun'. unfold run_sched in Hrun. rewrite Hrun in Hrun'.
    destruct (tso_moved_replay rtmcluster_recorder Q addr Haddr calc_objid calc_objid' nobj mem0 mem0' f ps ps'
      acts' c0 c) as (logs & E & s & Hl & HE & _ & _ & Hr); [done..|].
    exists logs. rewrite HE. split; [done|]. intros Hlen.
    destruct (Hr Hlen) as (r0 & bound & Hp & ? & ?). by exists r0, bound.
Qed.

(** ** A concrete recording, and a replay with delayed stores

    The replayed program has object 0 at address 100 and object 1 at 108. *)

Definition demo_move (a : Z) : Z := 100 + 8 * a.
Definition demo_objid (a : Z) : Z := (a - 100) / 8.
Definition demo_moved_mem : gmap Z Z := {[100 := 0; 108 := 0]}.
Definition demo_moved_threads : list prog := [demo_prog 100 108; demo_prog 108 100].

Lemma demo_relocation :
  relocation (λ a, a) demo_objid demo_mem demo_moved_mem demo_move (addr_ok (λ a, a) 2 demo_mem).
Proof.
  split.
  - intros a b _ _. unfold demo_move. lia.
  - intros a _. unfold demo_move, demo_objid. replace (100 + 8 * a - 100) with (a * 8) by lia.
    by rewrite Z.div_mul.
  - intros a [_ Ha]. assert (a = 0 ∨ a = 1) as [-> | ->] by lia; done.
Qed.

Lemma demo_moved : Forall2 (moved demo_move (addr_ok (λ a, a) 2 demo_mem)) demo_threads demo_moved_threads.
Proof.
  assert (addr_ok (λ a, a) 2 demo_mem 0 ∧ addr_ok (λ a, a) 2 demo_mem 1) as [H0 H1].
  { split; (split; [vm_compute; by eexists|lia]). }
  unfold demo_threads, demo_moved_threads, demo_prog. change 100 with (demo_move 0). change 108 with (demo_move 1).
  repeat constructor; done.
Qed.

Definition demo_replay_start : rstate :=
  value (RState ∅ ∅ ∅ ∅ ∅)
    (logs ← tso_logs rtmcluster_recorder 2 2 demo_tx_end;
     prepare_files demo_path_addr (sorted_queue qe_gt) 2 demo_moved_mem demo_moved_threads logs ∅).

(** Each thread takes six instructions before one of its stores drains. *)
Definition demo_tso_sched : list qact :=
  concat (replicate 80 (replicate 6 (QExec 0) ++ replicate 6 (QExec 1) ++ [QDrain 0; QDrain 1])).

Definition demo_replay_end : qstate :=
  value (qstart demo_replay_start) (run_sched (qstep demo_objid) demo_tso_sched (qstart demo_replay_start)).

Example demo_replay_finished :
  q_finished demo_replay_end ∧
  (r_mem (q_s demo_replay_end) !! 100, r_mem (q_s demo_replay_end) !! 108) =
    (m_data (t_mem demo_tx_end) !! 0, m_data (t_mem demo_tx_end) !! 1).
Proof. split; [apply (bool_decide_unpack _)|]; vm_compute; [exact I|reflexivity]. Qed.

Lemma tso_record_tso_replay_witness :
  ∃ logs, tso_logs rtmcluster_recorder 2 2 demo_tx_end = Ok logs ∧
    (Z.of_nat (recorded_accesses logs) < 2 ^ 31 →
     ∃ r0 bound, prepare_files demo_path_addr (sorted_queue qe_gt) 2 demo_moved_mem demo_moved_threads logs ∅
       = Ok r0 ∧
     (∀ rounds, Forall (fair (qlive (map_seqZ 0 demo_moved_threads))) rounds → (bound ≤ length rounds)%nat →
        ∃ q, run_sched (qstep demo_objid) (concat rounds) (qstart r0) = Ok q ∧ q_finished q) ∧
     ∀ sched, ∃ q, run_sched (qstep demo_objid) sched (qstart r0) = Ok q ∧
      (q_finished q →
        (∀ a, addr_ok (λ a, a) 2 demo_mem a →
          r_mem (q_s q) !! demo_move a = m_data (t_mem demo_tx_end) !! a) ∧
        rt_prog <$> r_thr (q_s q) = tt_prog <$> t_thr demo_tx_end)).
Proof.
  apply (tso_record_tso_replay rtmcluster_recorder (sorted_queue qe_gt) demo_path_addr
           (λ _, demo_addr_aligned) (λ a, a) demo_objid 2 demo_mem demo_moved_mem demo_move
           demo_threads demo_moved_threads ([Tx 0 3] ++ demo_acts) (demo_tso_start rtmcluster_recorder)
           demo_tx_end ∅ demo_relocation demo_moved).
  - cbn. lia.
  - lia.
  - apply value_ok. vm_compute. reflexivity.
  - apply value_ok. vm_compute. reflexivity.
  - apply (bool_decide_unpack _). vm_compute. exact I.
Defined.

Example demo_cluster_finished : t_finished rtmcluster_recorder demo_cluster_end.
Proof. apply (bool_decide_unpack _). vm_compute. exact I. Qed.

Lemma cluster_record_replay_witness :
  ∃ c0 rec_bound, tinit rtmcluster_recorder 2 demo_mem (map_seqZ 0 demo_threads) = Ok c0 ∧
  (∀ rounds, Forall (fair (tlive (map_seqZ 0 demo_threads))) rounds → (rec_bound ≤ length rounds)%nat →
     ∃ c, cluster_run (λ a, a) (concat rounds) c0 = Ok c ∧ t_finished rtmcluster_recorder c) ∧
  ∀ acts, ∃ c, cluster_run (λ a, a) acts c0 = Ok c ∧
   (∀ t th, t_thr c !! t = Some th → g_sim_bbcnt th = cluster_accesses th ∧ 0 ≤ g_sim_bbcnt th ≤ 4) ∧
   (t_finished rtmcluster_recorder c →
    ∃ logs, tso_logs rtmcluster_recorder 2 2 c = Ok logs ∧
    (Z.of_nat (recorded_accesses logs) < 2 ^ 31 →
     ∃ r0 bound, prepare_files demo_path_addr (sorted_queue qe_gt) 2 demo_moved_mem demo_moved_threads logs ∅
       = Ok r0 ∧
     (∀ rounds, Forall (fair (qlive (map_seqZ 0 demo_moved_threads))) rounds → (bound ≤ length rounds)%nat →
        ∃ q, run_sched (qstep demo_objid) (concat rounds) (qstart r0) = Ok q ∧ q_finished q) ∧
     ∀ sched, ∃ q, run_sched (qstep demo_objid) sched (qstart r0) = Ok q ∧
      (q_finished q →
        (∀ a, addr_ok (λ a, a) 2 demo_mem a → r_mem (q_s q) !! demo_move a = m_data (t_mem c) !! a) ∧
        rt_prog <$> r_thr (q_s q) = tt_prog <$> t_thr c))).
Proof.
  apply (cluster_record_replay (sorted_queue qe_gt) demo_path_addr (λ _, demo_addr_aligned)
           (λ a, a) demo_objid 2 demo_mem demo_moved_mem demo_move demo_threads demo_moved_threads 4 ∅
           demo_relocation demo_moved).
  - repeat constructor; intros v v'; exact I.
  - lia.
  - cbn. lia.
  - lia.
Defined.
