(* ===== verification/DebugAccess.v ===== *)
(** * DebugAccess: the self-check that [DEBUG_ACCESS] compiles in

    With [DEBUG_ACCESS] the recorders write every access to a third log
    ([log_access] of [mem-record.c], called by [mem-record-seqlock.c],
    [mem-record-seqbatch.c] and [mem-record-rtmseq.c]), and the replayer compares
    every access it replays with its entry ([check_access] of [mem-replay.c]).
    The log is a file that is never cut to its entries: the rest of its last buffer
    stays, zeroed.
    Recorder and replayer run on x86-TSO: the check reads [obj_version] through the
    store buffer of its thread.  This file has the logs, the check, the machine of
    the replayer that checks, and how far a thread that passes its checks follows
    the recording; [DebugReplay] has the files and the theorems. *)
From stdpp Require Import strings.
From S2P Require Import Prelude Mem MappedLog Paths Record Batch History SeqlockTso SeqlockTsoProof Reloc.
From S2P Require Import Reorder PQueue KWay Merge Sched Replay ReplayProof Pipeline Correctness Files.
From S2P Require Import TsoCorrectness ReplayTso ReplayTsoProof TsoReplay.

(** ** The log *)

(** [struct mem_acc]; [ma_acc] is the character ['R'] or ['W']. *)
Record mem_acc := MemAcc {
  ma_acc : Z;
  ma_objid : Z;
  ma_val : Z;
  ma_version : Z;
  ma_memop : Z }.

Definition acc_char (k : kind) : Z := match k with RD => 82 | WR => 87 end.

(** [log_access] leaves [memop] alone, which is zero in a new file. *)
Definition log_access (acc objid ver val : Z) (log : list mem_acc) : list mem_acc :=
  log ++ [MemAcc acc objid val ver 0].

(** The bytes of an entry: padding follows [acc] and [val]. *)
#[global] Instance mem_acc_entry : log_entry mem_acc := {|
  entry_size := 32;
  fields a := [(0%nat, le_bytes 1 (ma_acc a)); (4%nat, le_bytes 4 (ma_objid a));
               (8%nat, le_bytes 4 (ma_val a)); (16%nat, le_bytes 8 (ma_version a))];
  decode bs := MemAcc (field_at 1 0 bs) (field_at 4 4 bs) (le_value (take 4 (drop 8 bs)))
                 (field_at 8 16 bs) (field_at 8 24 bs);
  valid a := int8 (ma_acc a) ∧ int32 (ma_objid a) ∧ 0 ≤ ma_val a < 2 ^ 32 ∧
    int64 (ma_version a) ∧ ma_memop a = 0 |}.

#[global] Instance mem_acc_entry_ok : log_entry_ok mem_acc.
Proof.
  split; [cbn; unfold PAGE_SIZE; lia|solve_fields|].
  intros [c o x v m] (Hc & Ho & Hx & Hv & Hm). cbn in Hc, Ho, Hx, Hv, Hm. subst m.
  cbn -[le_bytes field_at]. f_equal; try (apply field_at_signed; [lia|done|reflexivity]).
  change (le_value (le_bytes 4 x) = x). rewrite le_value_bytes. by apply Z.mod_small.
Qed.

(** A recorder whose [mem_read] and [mem_write] call [log_access]: [mem_init_thr]
    creates the log, every access appends to it, and [mem_finish_thr] neither closes
    nor truncates it. *)
Definition with_log_access (R : recorder) : recorder := {|
  rc_state := @rc_state R * list mem_acc;
  rc_init nobj := s ← rc_init nobj; Ok (s, []);
  rc_log a s :=
    s' ← rc_log a s.1;
    Ok (s', log_access (acc_char (acc_kind a.1)) (acc_obj a.1) (acc_ver a.1) a.2 s.2);
  rc_finish nobj s := rc_finish nobj s.1 |}.

(** The three recorders that call it; [mem-record-rtmcluster.c] does not, and
    [mem.h] says that it cannot be built with [DEBUG_ACCESS].  [mem-record-rtmseq.c]
    takes the logs of [mem-record-seqlock.c]. *)
Inductive debug_impl := debug_seqlock | debug_seqbatch | debug_rtmseq.

Definition order_recorder (i : debug_impl) : recorder :=
  match i with
  | debug_seqlock | debug_rtmseq => seqlock_recorder
  | debug_seqbatch => seqbatch_recorder
  end.

Definition debug_recorder (i : debug_impl) : recorder := with_log_access (order_recorder i).

(** ** The check *)

(** [check_access]: one entry is consumed; [read_log_entry] returns [NULL] at the
    end of the log, and [ent] is used without a test. *)
Definition check_access (acc objid ver val : Z) (log : list mem_acc) : outcome (list mem_acc) :=
  match log with
  | [] => Err BadAccess
  | ent :: log =>
      if decide (ma_acc ent ≠ acc ∨ ma_objid ent ≠ objid ∨ ma_val ent ≠ val ∨ ma_version ent ≠ ver)
      then Err ExitFailure else Ok log
  end.

(** The replayer with its debug logs; [d_checked] are the threads that have made
    the check of the access they are in. *)
Record dstate := DState {
  d_q : qstate;
  d_log : gmap Z (list mem_acc);
  d_checked : gset Z }.

Section dstep.
Context (calc_objid : Z → Z).

(** The check a thread makes before its next instruction: [mem_read] after the
    load, [mem_write] before the store. *)
Definition pending_check (th : rthread) : option (Z * Z * Z) :=
  match rt_prog th, rt_pc th with
  | PRead addr _, PcReadDone val => Some (acc_char RD, calc_objid addr, val)
  | PWrite addr val _, PcStore => Some (acc_char WR, calc_objid addr, val)
  | _, _ => None
  end.

(** The check of thread [t] with buffer [b]: it loads the version through the
    buffer and consumes an entry of the thread's log. *)
Definition check_step (t : Z) (b : list rstore) (acc objid val : Z) (d : dstate) : outcome dstate :=
  ver ← arr_get (obj_version (flush b (q_s (d_q d)))) objid;
  log ← arr_get (d_log d) t;
  log ← check_access acc objid ver val log;
  Ok (DState (d_q d) (<[t := log]> (d_log d)) ({[t]} ∪ d_checked d)).

(** A step: the check of thread [t], or a step of [mem-replay.c] without it. *)
Definition dstep (a : qact) (d : dstate) : outcome dstate :=
  match a with
  | QDrain t => q ← qstep calc_objid (QDrain t) (d_q d); Ok (DState q (d_log d) (d_checked d))
  | QExec t =>
      let step := q ← qstep calc_objid (QExec t) (d_q d); Ok (DState q (d_log d) (d_checked d ∖ {[t]})) in
      match r_thr (q_s (d_q d)) !! t, q_buf (d_q d) !! t with
      | Some th, Some b =>
          match pending_check th with
          | Some (acc, objid, val) =>
              if decide (t ∈ d_checked d) then step else check_step t b acc objid val d
          | None => step
          end
      | _, _ => Ok d
      end
  end.
End dstep.

(** The replayer before its first step, with the entries of the debug logs. *)
Definition debug_start (logs : list (list mem_acc)) (r : rstate) : dstate :=
  DState (qstart r) (map_seqZ 0 logs) ∅.

Section debug_files.
Context (addr : string → nat → Z).

(** The file thread [tid] of the recorder leaves: from [new_mapped_log] on an
    entry per access, and no [unmap_truncate_log]. *)
Definition debug_file (tid : Z) (l : list mem_acc) : outcome (list Z) :=
  path ← logpath "debug-access" tid;
  log ← append_all (λ i, addr path (S i)) l (new_mapped_log (addr path 0%nat));
  Ok (ml_file log).

Definition debug_files (logs : list (list mem_acc)) : outcome (list (list Z)) :=
  mapM (λ tl, debug_file tl.1 tl.2) (zip (seqZ 0 (Z.of_nat (length logs))) logs).

(** [mem_init_thr] of the replayer opens the debug log of every thread. *)
Definition debug_init (files : list (list Z)) (r : rstate) : outcome dstate :=
  logs ← mapM (λ tf,
    path ← logpath "debug-access" tf.1;
    log ← open_mapped_log (addr path 0%nat) (Some tf.2);
    match log with
    | Some log => Ok (decode_file (ml_file log))
    | None => Err ExitFailure
    end) (zip (seqZ 0 (Z.of_nat (length files))) files);
  Ok (debug_start logs r).
End debug_files.

(** ** Lemmas: the debug log of a recording *)

Definition ev_entry (e : event) : mem_acc :=
  MemAcc (acc_char (ev_kind e)) (ev_obj e) (ev_val e) (ev_ver e) 0.

Lemma debug_log_all R accs s :
  rc_log_all (with_log_access R) accs s =
    s' ← rc_log_all R accs s.1;
    Ok (s', s.2 ++ ((λ a, MemAcc (acc_char (acc_kind a.1)) (acc_obj a.1) a.2 (acc_ver a.1) 0) <$> accs)).
Proof.
  induction accs as [|a accs IH] using rev_ind.
  { cbn. destruct s. by rewrite app_nil_r. }
  rewrite !rc_log_all_snoc, IH. destruct (rc_log_all R accs s.1) as [s'|]; cbn; [|done].
  destruct (rc_log a s') as [s''|]; cbn; [|done].
  unfold log_access. by rewrite fmap_app, app_assoc.
Qed.

Lemma debug_record_thread R nobj accs :
  record_thread (with_log_access R) nobj accs = record_thread R nobj accs.
Proof.
  unfold record_thread. cbn. destruct (rc_init nobj) as [s|]; cbn; [|done].
  rewrite debug_log_all. cbn. by destruct (rc_log_all R accs s).
Qed.

#[global] Instance with_log_access_ok R `{!recorder_ok R} : recorder_ok (with_log_access R).
Proof. intros nobj accs. rewrite debug_record_thread. apply rc_ok. Qed.

(** The debug log a thread of the recorder's machine has written. *)
Definition debug_log_of {R} (th : tthread (with_log_access R)) : list mem_acc :=
  (tt_tls th : @rc_state R * list mem_acc).2.

(** The debug logs a finished run leaves. *)
Definition debug_logs {R} (nthr : Z) (c : tstate (with_log_access R)) : list (list mem_acc) :=
  (λ t, default [] (debug_log_of <$> t_thr c !! t)) <$> seqZ 0 nthr.

(** ** Lemmas: one step of the replayer, seen by the check *)

(** Past the check of a write, before [memop++]. *)
Definition stored_pc (pc : rpc) : bool :=
  match pc with PcLoadVersion | PcStoreVersion _ | PcWriteDone => true | _ => false end.

Definition at_store (pc : rpc) : bool := match pc with PcStore => true | _ => false end.

(** How a step of thread [t] changes it: it moves inside its access, or finishes
    it. *)
Inductive stepped (cnt cnt' : gmap Z Z) (t : Z) (th th' : rthread) : Prop :=
| stepped_inside :
    cnt' = cnt → rt_prog th' = rt_prog th → (∀ val, rt_pc th ≠ PcReadDone val) →
    (rt_pc th = PcStore → ∃ addr val p, rt_prog th = PWrite addr val p) →
    stored_pc (rt_pc th') = stored_pc (rt_pc th) || at_store (rt_pc th) →
    stepped cnt cnt' t th th'
| stepped_read n addr k val :
    cnt !! t = Some n → cnt' = <[t := n + 1]> cnt → rt_pc th' = PcStart →
    rt_prog th = PRead addr k → rt_pc th = PcReadDone val → rt_prog th' = k val →
    stepped cnt cnt' t th th'
| stepped_write n addr val p :
    cnt !! t = Some n → cnt' = <[t := n + 1]> cnt → rt_pc th' = PcStart →
    rt_prog th = PWrite addr val p → rt_pc th = PcWriteDone → rt_prog th' = p →
    stepped cnt cnt' t th th'.

(** What a thread sees: memory with its buffered stores made. *)
Record dview := DView {
  v_r : rstate;
  v_log : gmap Z (list mem_acc);
  v_checked : gset Z }.

Definition dview_of (d : dstate) (b : list rstore) : dview :=
  DView (flush b (q_s (d_q d))) (d_log d) (d_checked d).

Section check_proof.
Context (calc_objid : Z → Z).

Lemma rstep_moved t s s' th : rstep calc_objid t s = Ok s' → r_thr s !! t = Some th →
  ¬ (∃ r, rt_prog th = PRet r) →
  ∃ th', r_thr s' = <[t := th']> (r_thr s) ∧ stepped (memop_cnt s) (memop_cnt s') t th th'.
Proof.
  unfold rstep. intros Hst Hth Hret. rewrite Hth in Hst.
  destruct (rt_prog th) as [r|addr k|addr val p] eqn:Hp; [naive_solver|..]; cbn in Hst;
    destruct (rt_pc th) as [| | | |x| | |e| | |x| ] eqn:Hpc; try done; outcome_inv;
    repeat case_decide; outcome_inv; repeat (case_match; outcome_inv); try done;
    try (by exists th; rewrite insert_id by done; split; [done|]; constructor; rewrite ?Hpc; eauto);
    (eexists; split; [reflexivity|]);
    try (by constructor 1; cbn; rewrite ?Hp, ?Hpc; eauto);
    [econstructor 2|econstructor 3]; rewrite ?Hpc; done.
Qed.

(** The counter after an instruction is the one its store leaves. *)
Lemma rstep_cnt t v v' th : rstep calc_objid t v = Ok v' → r_thr v !! t = Some th →
  memop_cnt v' = memop_cnt (flush (rstores calc_objid t th v) v).
Proof.
  unfold rstep, rstores. intros Hst Hth. rewrite Hth in Hst.
  destruct (rt_prog th) as [r|addr k|addr val p]; cbn in Hst;
    [injection Hst as <-; by destruct (rt_pc th)|..];
    destruct (rt_pc th) as [| | | |x| | |e| | |x| ]; try done; outcome_inv;
    repeat case_decide; outcome_inv; repeat (case_match; outcome_inv); try done;
    match goal with H : memop_cnt v !! t = Some _ |- _ => by rewrite H end.
Qed.

(** [E] are the recorded events and [res] the recorded results. *)
Context (E : list event) (res : Z → Z) (pad : Z → list mem_acc).

(** The entry of the access a thread is in has been consumed. *)
Definition consumed (d : dview) (t : Z) (th : rthread) : bool :=
  bool_decide (t ∈ v_checked d) || stored_pc (rt_pc th).

(** A thread has followed the recorded accesses so far, and its debug log holds
    the entries of those to come. *)
Definition dbg_thread (d : dview) (t : Z) (th : rthread) : Prop :=
  ∃ k, memop_cnt (v_r d) !! t = Some (Z.of_nat k) ∧
    prog_trace (rt_prog th) (drop k (tevents t E)) (PRet (res t)) ∧
    v_log d !! t = Some ((ev_entry <$> drop (if consumed d t th then S k else k) (tevents t E)) ++ pad t) ∧
    (t ∈ v_checked d → ∃ e, tevents t E !! k = Some e ∧
       pending_check calc_objid th = Some (acc_char (ev_kind e), ev_obj e, ev_val e)).

Lemma dbg_thread_ext d d' t th :
  memop_cnt (v_r d') !! t = memop_cnt (v_r d) !! t → v_log d' !! t = v_log d !! t →
  (t ∈ v_checked d' ↔ t ∈ v_checked d) → dbg_thread d t th → dbg_thread d' t th.
Proof.
  intros Hc Hl Hd (k & Hk & Htr & Hlog & Hchk). exists k. rewrite Hc, Hl, Hd. split_and!; try done.
  unfold consumed in *. by rewrite (bool_decide_ext _ _ Hd).
Qed.

Lemma pending_not_stored th c : pending_check calc_objid th = Some c → stored_pc (rt_pc th) = false.
Proof. unfold pending_check. by destruct (rt_prog th), (rt_pc th). Qed.

Lemma drop_entry t k e : tevents t E !! k = Some e →
  drop k (tevents t E) = e :: drop (S k) (tevents t E).
Proof. intros. by apply drop_S. Qed.

(** A check that passes is a check of the next recorded access. *)
Lemma check_dbg d t th acc o val ver log log' :
  dbg_thread d t th → pending_check calc_objid th = Some (acc, o, val) → t ∉ v_checked d →
  v_log d !! t = Some log → check_access acc o ver val log = Ok log' →
  dbg_thread (DView (v_r d) (<[t := log']> (v_log d)) ({[t]} ∪ v_checked d)) t th.
Proof.
  intros (k & Hk & Htr & Hlog & _) Hp Hn Hl Hchk.
  rewrite Hl in Hlog. injection Hlog as ->.
  unfold consumed in *. rewrite bool_decide_false, (pending_not_stored _ _ Hp) in Hchk by done. cbn in Hchk.
  assert (∃ e, tevents t E !! k = Some e) as [e He].
  { unfold pending_check in Hp. destruct (drop k (tevents t E)) as [|e l] eqn:Hd.
    - by destruct (rt_prog th); [|inversion Htr..].
    - exists e. apply drop_cons_lookup in Hd. apply Hd. }
  rewrite (drop_entry _ _ _ He) in Hchk. cbn in Hchk. case_decide as Hd; [done|]. injection Hchk as <-.
  exists k. cbn. rewrite lookup_insert_eq. split_and!; [done..| |].
  - unfold consumed. rewrite bool_decide_true by (cbn; set_solver). done.
  - intros _. exists e. split; [done|]. rewrite Hp. f_equal. f_equal; [f_equal|]; lia.
Qed.

(** A step that is not a check. *)
Section step_dbg.
Context (d : dview) (t : Z) (th th' : rthread) (r : rstate).
Local Abbreviation d' := (DView r (v_log d) (v_checked d ∖ {[t]})).
Context (Hdbg : dbg_thread d t th).
Context (Hpend : is_Some (pending_check calc_objid th) → t ∈ v_checked d).

Lemma not_checked : t ∉ v_checked d'.
Proof. cbn. set_solver. Qed.

Lemma step_dbg_inside :
  memop_cnt r = memop_cnt (v_r d) → rt_prog th' = rt_prog th → (∀ val, rt_pc th ≠ PcReadDone val) →
  (rt_pc th = PcStore → ∃ addr val p, rt_prog th = PWrite addr val p) →
  stored_pc (rt_pc th') = stored_pc (rt_pc th) || at_store (rt_pc th) → dbg_thread d' t th'.
Proof.
  intros Hc Hp Hnr Hps Hpc. destruct Hdbg as (k & Hk & Htr & Hlog & Hchk). exists k. cbn.
  rewrite Hc, Hp. split_and!; [done..| |by intros ?%not_checked].
  rewrite Hlog. unfold consumed. rewrite (bool_decide_false _ not_checked), Hpc. cbn.
  destruct (decide (t ∈ v_checked d)) as [Hin|Hin].
  - rewrite bool_decide_true by done. cbn. destruct (Hchk Hin) as (e & _ & He).
    unfold pending_check in He. destruct (rt_prog th), (rt_pc th); try done. by destruct (Hnr val).
  - rewrite bool_decide_false by done. cbn. destruct (rt_pc th) eqn:Epc; try done.
    destruct (Hps eq_refl) as (addr & val & p & Hpw). destruct Hin. apply Hpend.
    unfold pending_check. rewrite Hpw, Epc. eauto.
Qed.

Lemma step_dbg_read n addr f val :
  memop_cnt (v_r d) !! t = Some n → memop_cnt r = <[t := n + 1]> (memop_cnt (v_r d)) →
  rt_pc th' = PcStart → rt_prog th = PRead addr f → rt_pc th = PcReadDone val →
  rt_prog th' = f val → dbg_thread d' t th'.
Proof.
  intros Hn Hc Hs Hp Hpc Hp'. destruct Hdbg as (k & Hk & Htr & Hlog & Hchk).
  assert (t ∈ v_checked d) as Hin.
  { apply Hpend. unfold pending_check. rewrite Hp, Hpc. eauto. }
  destruct (Hchk Hin) as (e & He & Hpe). unfold pending_check in Hpe. rewrite Hp, Hpc in Hpe.
  injection Hpe as _ _ ->. rewrite Hk in Hn. injection Hn as <-. exists (S k). cbn.
  rewrite Hc, lookup_insert_eq, Hlog, Hp'. rewrite (drop_entry _ _ _ He), Hp in Htr.
  inversion Htr; subst. split_and!; [f_equal; lia|done| |by intros ?%not_checked].
  unfold consumed. rewrite (bool_decide_false _ not_checked), Hs. by rewrite bool_decide_true.
Qed.

Lemma step_dbg_write n addr val p :
  memop_cnt (v_r d) !! t = Some n → memop_cnt r = <[t := n + 1]> (memop_cnt (v_r d)) →
  rt_pc th' = PcStart → rt_prog th = PWrite addr val p → rt_pc th = PcWriteDone →
  rt_prog th' = p → dbg_thread d' t th'.
Proof.
  intros Hn Hc Hs Hp Hpc Hp'. destruct Hdbg as (k & Hk & Htr & Hlog & Hchk).
  rewrite Hk in Hn. injection Hn as <-. exists (S k). cbn.
  rewrite Hc, lookup_insert_eq, Hlog, Hp'. rewrite Hp in Htr.
  split_and!; [f_equal; lia| | |by intros ?%not_checked].
  - inversion Htr as [|?|? ? ? e evs ? ? ? ? Hr Ea Hd]; subst. symmetry in Hd.
    apply drop_cons_lookup in Hd as [_ ->]. done.
  - unfold consumed. rewrite (bool_decide_false _ not_checked), Hs, Hpc. by rewrite orb_true_r.
Qed.

End step_dbg.

Lemma step_dbg d t th r :
  dbg_thread d t th → (is_Some (pending_check calc_objid th) → t ∈ v_checked d) →
  r_thr (v_r d) !! t = Some th → rstep calc_objid t (v_r d) = Ok r →
  ∃ th', r_thr r = <[t := th']> (r_thr (v_r d)) ∧
    (∀ t', t' ≠ t → memop_cnt r !! t' = memop_cnt (v_r d) !! t') ∧
    dbg_thread (DView r (v_log d) (v_checked d ∖ {[t]})) t th'.
Proof.
  intros Hdbg Hpend Hth Hst. destruct (decide (∃ x, rt_prog th = PRet x)) as [[x Hx]|Hret].
  { unfold rstep in Hst. rewrite Hth, Hx in Hst. injection Hst as <-. exists th.
    rewrite insert_id by done. split_and!; [done..|].
    apply (dbg_thread_ext d); [done..|cbn|done].
    destruct Hdbg as (k & _ & _ & _ & Hchk).
    assert (t ∉ v_checked d); [|set_solver].
    intros (e & _ & He)%Hchk. unfold pending_check in He. by rewrite Hx in He. }
  destruct (rstep_moved _ _ _ _ Hst Hth Hret) as (th' & Hthr & Hm). exists th'. split; [done|].
  destruct Hm as [Hc ? ? ? ?|n addr f val ? Hc ? ? ? ?|n addr val p ? Hc ? ? ? ?];
    (split; [intros t' Ht'; rewrite Hc; by rewrite ?lookup_insert_ne|]);
    [by eapply step_dbg_inside|by eapply step_dbg_read|by eapply step_dbg_write].
Qed.

(** Every thread, as it sees memory, has followed the recording; only a thread
    itself has stores to its counter under way. *)
Record dbg_inv (d : dstate) : Prop := {
  db_bufs : ∀ t, is_Some (q_buf (d_q d) !! t) ↔ is_Some (r_thr (q_s (d_q d)) !! t);
  db_cnt : ∀ t b u x, q_buf (d_q d) !! t = Some b → (RCnt u, x) ∈ b → u = t;
  db_thr : ∀ t th b, r_thr (q_s (d_q d)) !! t = Some th → q_buf (d_q d) !! t = Some b →
    dbg_thread (dview_of d b) t th;
  db_checked : ∀ t, t ∈ d_checked d → is_Some (r_thr (q_s (d_q d)) !! t) }.

Lemma flush_app b1 b2 s : flush (b1 ++ b2) s = flush b2 (flush b1 s).
Proof. unfold flush. by rewrite foldl_app. Qed.

(** What a thread sees of its counter only depends on memory there. *)
Lemma flush_cnt b m m' t : memop_cnt m !! t = memop_cnt m' !! t →
  memop_cnt (flush b m) !! t = memop_cnt (flush b m') !! t.
Proof.
  intros H. change (rget (RCnt t) (flush b m) = rget (RCnt t) (flush b m')).
  rewrite !rget_flush. cbn. by rewrite H.
Qed.

Lemma rstores_cnt t th v u x : (RCnt u, x) ∈ rstores calc_objid t th v → u = t.
Proof.
  unfold rstores. destruct (rt_pc th), (rt_prog th); try (by intros ?%elem_of_nil);
    try (by intros [= ]%list_elem_of_singleton);
    (destruct (memop_cnt v !! t); cbn; [|by intros ?%elem_of_nil]); by intros [= ]%list_elem_of_singleton.
Qed.

(** An instruction of [t] that is not a check. *)
Lemma exec_dbg d t th b q : dbg_inv d → r_thr (q_s (d_q d)) !! t = Some th → q_buf (d_q d) !! t = Some b →
  (is_Some (pending_check calc_objid th) → t ∈ d_checked d) →
  qstep calc_objid (QExec t) (d_q d) = Ok q → dbg_inv (DState q (d_log d) (d_checked d ∖ {[t]})).
Proof.
  intros Hd Hth Hb Hpend Hst. unfold qstep in Hst. rewrite Hth, Hb in Hst. case_decide as Hlk.
  { injection Hst as <-. assert (t ∉ d_checked d) as Hn.
    { intros Hin. destruct (db_thr _ Hd t th b Hth Hb) as (k & _ & _ & _ & Hchk).
      destruct (Hchk Hin) as (e & _ & Hp). unfold pending_check in Hp. destruct Hlk as [Hlk _].
      by destruct (rt_prog th), (rt_pc th). }
    assert (d_checked d ∖ {[t]} = d_checked d) as -> by set_solver. by destruct d. }
  apply bind_Ok in Hst as (v & Hv & [= <-]). destruct (flush_thr b (q_s (d_q d))) as [Hft _].
  destruct (step_dbg (dview_of d b) t th v) as (th' & Hthr & _ & Ht);
    [by apply (db_thr _ Hd)|done|cbn; by rewrite Hft|done|]. cbn in Hthr. rewrite Hft in Hthr.
  constructor; cbn; rewrite ?Hthr.
  - intros u. rewrite !lookup_insert_is_Some'. by rewrite (db_bufs _ Hd).
  - intros u bu w x [[<- <-]|[_ Hu]]%lookup_insert_Some Hin; [|by eapply (db_cnt _ Hd)].
    apply elem_of_app in Hin as [Hin|Hin]; [by eapply (db_cnt _ Hd)|by eapply rstores_cnt].
  - intros u thu bu [[<- <-]|[Hne Hu]]%lookup_insert_Some Hbu.
    + rewrite lookup_insert_eq in Hbu. injection Hbu as <-. apply (dbg_thread_ext (DView v (d_log d) (d_checked d ∖ {[t]}))); [|done..].
      cbn. rewrite (rstep_cnt _ _ _ _ Hv) by (by rewrite Hft). rewrite <- flush_app. by apply flush_cnt.
    + rewrite lookup_insert_ne in Hbu by done.
      apply (dbg_thread_ext (dview_of d bu)); [by apply flush_cnt|done|cbn; set_solver|by apply (db_thr _ Hd)].
  - intros u Hu. apply lookup_insert_is_Some'. right. apply (db_checked _ Hd). set_solver.
Qed.

Lemma drain_dbg d t q : dbg_inv d → qstep calc_objid (QDrain t) (d_q d) = Ok q →
  dbg_inv (DState q (d_log d) (d_checked d)).
Proof.
  intros Hd Hst. unfold qstep in Hst. destruct (q_buf (d_q d) !! t) as [[|[l x] b]|] eqn:Hb;
    [by injection Hst as <-; destruct d| |by injection Hst as <-; destruct d]. injection Hst as <-.
  destruct (rput_thr l x (q_s (d_q d))) as [Hpt _]. constructor; cbn; rewrite ?Hpt.
  - intros u. rewrite lookup_insert_is_Some', <- (db_bufs _ Hd). split; [|tauto]. intros [<-|?]; eauto.
  - intros u bu w y [[<- <-]|[_ Hu]]%lookup_insert_Some Hin; [|by eapply (db_cnt _ Hd)].
    eapply (db_cnt _ Hd); [done|]. by right.
  - intros u thu bu Hu [[<- <-]|[Hne Hbu]]%lookup_insert_Some.
    + exact (db_thr _ Hd t thu _ Hu Hb).
    + apply (dbg_thread_ext (dview_of d bu)); [|done..|by apply (db_thr _ Hd)]. cbn. apply flush_cnt.
      destruct (decide (l = RCnt u)) as [->|Hl].
      * destruct Hne. symmetry. eapply (db_cnt _ Hd); [done|]. by left.
      * change (rget (RCnt u) (rput l x (q_s (d_q d))) = rget (RCnt u) (q_s (d_q d))).
        by apply rget_rput_ne.
  - apply (db_checked _ Hd).
Qed.

Lemma check_step_dbg d t th b acc o val d' : dbg_inv d → r_thr (q_s (d_q d)) !! t = Some th →
  q_buf (d_q d) !! t = Some b → pending_check calc_objid th = Some (acc, o, val) → t ∉ d_checked d →
  check_step t b acc o val d = Ok d' → dbg_inv d'.
Proof.
  intros Hd Hth Hb Hp Hn (ver & _ & (log & Hlog%arr_get_Ok & (log' & Hchk & [= <-])%bind_Ok)%bind_Ok)%bind_Ok.
  constructor; cbn; [apply (db_bufs _ Hd)|apply (db_cnt _ Hd)| |].
  - intros u thu bu Hu Hbu. destruct (decide (u = t)) as [->|Hne].
    + rewrite Hth in Hu. injection Hu as <-. rewrite Hb in Hbu. injection Hbu as <-.
      by eapply (check_dbg (dview_of d b)); [by apply (db_thr _ Hd)|..].
    + apply (dbg_thread_ext (dview_of d bu)); cbn;
        [done|by rewrite lookup_insert_ne|set_solver|by apply (db_thr _ Hd)].
  - intros u [->%elem_of_singleton|Hu]%elem_of_union; [eauto|]. by apply (db_checked _ Hd).
Qed.

Lemma dstep_dbg a d d' : dbg_inv d → dstep calc_objid a d = Ok d' → dbg_inv d'.
Proof.
  intros Hd Hst. unfold dstep in Hst. destruct a as [t|t].
  2:{ apply bind_Ok in Hst as (q & Hq & [= <-]). by eapply drain_dbg. }
  destruct (r_thr (q_s (d_q d)) !! t) as [th|] eqn:Hth; [|by injection Hst as <-].
  destruct (q_buf (d_q d) !! t) as [b|] eqn:Hb; [|by injection Hst as <-].
  destruct (pending_check calc_objid th) as [[[acc o] val]|] eqn:Hp; [case_decide as Hin|].
  2: by eapply check_step_dbg.
  all: apply bind_Ok in Hst as (q & Hq & [= <-]); eapply exec_dbg; [done..| |done]; rewrite Hp; by intros [].
Qed.

(** The instruction after a check is never one that spins. *)
Lemma checked_moves d t : dbg_inv d → t ∈ d_checked d → qstep calc_objid (QExec t) (d_q d) ≠ Ok (d_q d).
Proof.
  intros Hd Hin Hst. destruct (db_checked _ Hd t Hin) as [th Hth].
  destruct (proj2 (db_bufs _ Hd t)) as [b Hb]; [eauto|].
  destruct (db_thr _ Hd t th b Hth Hb) as (k & _ & _ & _ & Hchk). destruct (Hchk Hin) as (e & _ & Hp).
  unfold pending_check in Hp. unfold qstep in Hst. rewrite Hth, Hb in Hst.
  rewrite decide_False in Hst by (intros [Hl _]; by destruct (rt_prog th), (rt_pc th)).
  apply bind_Ok in Hst as (v & Hv & [= E0]). apply (f_equal (λ q, r_thr (q_s q) !! t)) in E0. cbn in E0.
  destruct (flush_thr b (q_s (d_q d))) as [Hft _]. rewrite <- Hft in Hth.
  destruct (rstep_moved _ _ _ _ Hv Hth) as (th' & Hthr & Hm).
  { intros [x Hx]. by rewrite Hx in Hp. }
  rewrite Hthr, lookup_insert_eq, <- Hft, Hth in E0. injection E0 as ->.
  destruct (rt_prog th), (rt_pc th) eqn:Epc; try done; destruct Hm; try congruence;
    rewrite Epc in *; try done; naive_solver.
Qed.
End check_proof.

(** A finished thread has followed its recording and consumed its debug log. *)
Lemma dbg_finished calc_objid E res pad d t th :
  dbg_inv calc_objid E res pad d → r_finished (q_s (d_q d)) → r_thr (q_s (d_q d)) !! t = Some th →
  rt_prog th = PRet (res t) ∧ d_log d !! t = Some (pad t).
Proof.
  intros Hd Hf Hth. destruct (Hf t th Hth) as [x Hx].
  destruct (proj2 (db_bufs _ _ _ _ _ Hd t)) as [b Hb]; [eauto|].
  destruct (db_thr _ _ _ _ _ Hd t th b Hth Hb) as (k & _ & Htr & Hlog & _). rewrite Hx in Htr.
  apply prog_trace_ret in Htr as [Hdrop ->]. split; [done|]. cbn in Hlog. rewrite Hlog.
  assert (∀ k', (k ≤ k')%nat → drop k' (tevents t E) = []) as Hk.
  { intros k' Hk. replace k' with (k + (k' - k))%nat by lia. by rewrite <- drop_drop, Hdrop, drop_nil. }
  by destruct (consumed _ t th); rewrite Hk by lia.
Qed.

(** ** Lemmas: the check passes on the replay of a recording *)

Section passes.
Context (calc_objid : Z → Z) (nobj : Z) (mem0 : gmap Z Z) (progs : gmap Z prog).
Context (E : list event) (V : Z → list wait_version) (L : Z → list replay_wait_memop).
Context (res : Z → Z) (pad : Z → list mem_acc).
Context (HR : recorded calc_objid nobj mem0 progs E V L res).
Local Abbreviation qrel := (qrel calc_objid nobj mem0 progs E V L res).
Local Abbreviation dbg_inv := (dbg_inv calc_objid E res pad).
Local Abbreviation dstep := (dstep calc_objid).

(** Rest of the replay, and of the checks. *)
Definition dmeasure (d : dstate) (s : rstate) : nat :=
  qmeasure nobj progs E L (d_q d) s +
  sum_list_with (λ t, length (d_log d !!! t)) (elements (dom progs)).

Definition dinv (n : nat) (d : dstate) : Prop :=
  ∃ s, qrel (d_q d) s ∧ dbg_inv d ∧ dmeasure d s = n.

(** The check of the access a thread is in succeeds. *)
Lemma check_ok d s t th b acc o val :
  qrel (d_q d) s → dbg_inv d → r_thr s !! t = Some th → q_buf (d_q d) !! t = Some b →
  pending_check calc_objid th = Some (acc, o, val) → t ∉ d_checked d →
  ∃ log log', check_step t b acc o val d = Ok (DState (d_q d) (<[t := log']> (d_log d)) ({[t]} ∪ d_checked d)) ∧
    d_log d !! t = Some log ∧ (length log' < length log)%nat.
Proof.
  intros Hq Hd Hth Hb Hp Hn.
  destruct (db_thr _ _ _ _ _ Hd t th b) as (k' & Hk' & _ & Hlog & _); [by rewrite (qr_thr _ _ _ _ _ _ _ _ _ _ Hq)|done|].
  assert (∃ o', cur_obj calc_objid (rt_prog th) = Some o') as [o' Ho'].
  { unfold pending_check in Hp. destruct (rt_prog th); cbn; eauto; done. }
  destruct (current_of _ _ _ _ _ _ _ _ HR _ _ _ _ (qr_inv _ _ _ _ _ _ _ _ _ _ Hq) Hth Ho') as (k & e & x & w & Hc).
  destruct (view_passed _ _ _ _ _ _ _ _ HR _ _ Hq _ _ _ _ _ _ Hc _ Hb) as (Hver & Hx & _);
    [unfold pending_check in Hp; by destruct (rt_prog th), (rt_pc th)..|]. subst x.
  cbn in Hk'. rewrite (view_cnt _ _ _ _ _ _ _ _ _ _ Hq _ _ Hb) in Hk'. destruct Hc.
  rewrite cu_cnt in Hk'. injection Hk' as ->%(inj Z.of_nat).
  assert (acc = acc_char (ev_kind e) ∧ o = ev_obj e ∧ val = ev_val e) as (-> & -> & ->).
  { unfold pending_check in Hp. unfold pc_ok in cu_pc.
    destruct (rt_prog th), (rt_pc th); try done; cbn in *; destruct (ev_kind e); naive_solver. }
  unfold consumed in Hlog. rewrite bool_decide_false, (pending_not_stored _ _ _ Hp) in Hlog by done.
  cbn in Hlog. rewrite (drop_entry _ _ _ _ cu_ev) in Hlog. cbn in Hlog.
  eexists _, _. split_and!; [|done|cbn; apply Nat.lt_succ_diag_r].
  unfold check_step. rewrite (arr_get_lookup _ _ _ Hver), (arr_get_lookup _ _ _ Hlog). cbn.
  by rewrite decide_False by naive_solver.
Qed.

(** A step of the replayer, with the checked threads as they are after it. *)
Lemma replayer_step d s t : qrel (d_q d) s → dbg_inv d →
  ∃ q, qstep calc_objid (QExec t) (d_q d) = Ok q ∧
    let d' := DState q (d_log d) (d_checked d ∖ {[t]}) in
    (dbg_inv d' → d' = d ∨ ∃ n', (n' < dmeasure d s)%nat ∧ dinv n' d').
Proof.
  intros Hq Hd. destruct (qstep_exec _ _ _ _ _ _ _ _ HR (d_q d) s t Hq)
    as (q & Hst & [[-> _]|(s' & _ & Hlt & Hq')]); (eexists; split; [done|]); intros d' Hd'; subst d'.
  - left. assert (t ∉ d_checked d) by (intros Hin; by apply (checked_moves _ _ _ _ d t Hd Hin)).
    destruct d as [q l c]; cbn in *. f_equal. set_solver.
  - right. eexists. split; [|exists s'; by split_and!]. unfold dmeasure. cbn [d_q d_log]. lia.
Qed.

Lemma dstep_exec_ok d s t : qrel (d_q d) s → dbg_inv d →
  ∃ d', dstep (QExec t) d = Ok d' ∧ (d' = d ∨ ∃ n', (n' < dmeasure d s)%nat ∧ dinv n' d').
Proof.
  intros Hq Hd. assert (∀ d', dstep (QExec t) d = Ok d' → dbg_inv d') as Hpres by (intros; by eapply dstep_dbg).
  destruct (replayer_step d s t Hq Hd) as (q & Hst & Hstep).
  unfold DebugAccess.dstep in *. rewrite Hst in *. cbn [mbind outcome_bind] in *.
  destruct (r_thr (q_s (d_q d)) !! t) as [th|] eqn:Hth; [|eauto].
  destruct (q_buf (d_q d) !! t) as [b|] eqn:Hb; [|eauto].
  destruct (pending_check calc_objid th) as [[[acc o] val]|] eqn:Hp; [|eauto].
  case_decide as Hin; [eauto|].
  rewrite (qr_thr _ _ _ _ _ _ _ _ _ _ Hq) in Hth.
  destruct (check_ok d s t th b acc o val Hq Hd Hth Hb Hp Hin) as (log & log' & Hc & Hl & Hlt).
  rewrite Hc in *. eexists. split; [done|right].
  eexists. split; [|exists s; split_and!; [done|by apply Hpres|done]].
  unfold dmeasure. cbn [d_q d_log].
  pose proof (sum_list_with_update (λ t', length (<[t := log']> (d_log d) !!! t'))
    (λ t', length (d_log d !!! t')) (elements (dom progs)) t (NoDup_elements _)) as Hs.
  cbn in Hs. rewrite lookup_total_insert_eq, (lookup_total_correct _ _ _ Hl) in Hs.
  rewrite elem_of_elements, elem_of_dom in Hs.
  specialize (Hs (proj1 (ri_dom _ _ _ _ _ _ _ _ _ (qr_inv _ _ _ _ _ _ _ _ _ _ Hq) t) ltac:(eauto))).
  specialize (Hs ltac:(intros; by rewrite lookup_total_insert_ne)). lia.
Qed.

Lemma dstep_drain_ok d s t : qrel (d_q d) s → dbg_inv d →
  ∃ d', dstep (QDrain t) d = Ok d' ∧ (d' = d ∨ ∃ n', (n' < dmeasure d s)%nat ∧ dinv n' d').
Proof.
  intros Hq Hd. assert (∀ d', dstep (QDrain t) d = Ok d' → dbg_inv d') as Hpres by (intros; by eapply dstep_dbg).
  destruct (qstep_drain _ _ _ _ _ _ _ _ (d_q d) s t Hq) as (q & Hst & Hor).
  unfold DebugAccess.dstep in *. rewrite Hst in *. cbn [mbind outcome_bind] in *. eexists. split; [done|].
  destruct Hor as [->|[Hlt Hq']]; [left; by destruct d|right].
  eexists. split; [|exists s; split_and!; [done|by apply Hpres|done]]. unfold dmeasure. cbn [d_q d_log]. lia.
Qed.

Definition d_finished (d : dstate) : Prop := q_finished (d_q d) ∧ d_checked d = ∅.

(** Where the replayer can go on, so can the replayer that checks. *)
Lemma dstep_goes_on d a : qstep calc_objid a (d_q d) ≠ Ok (d_q d) → dstep a d ≠ Ok d.
Proof.
  intros Hne Hst. unfold DebugAccess.dstep in Hst. destruct a as [t|t].
  2:{ apply bind_Ok in Hst as (q & Hq & [= E0]). destruct Hne. by rewrite Hq, <- E0. }
  destruct (r_thr (q_s (d_q d)) !! t) as [th|] eqn:Hth; [|by destruct Hne; unfold qstep; rewrite Hth].
  destruct (q_buf (d_q d) !! t) as [b|] eqn:Hb; [|by destruct Hne; unfold qstep; rewrite Hth, Hb].
  destruct (pending_check calc_objid th) as [[[acc o] val]|]; [case_decide as Hin|].
  2: { destruct Hin. apply bind_Ok in Hst as (v & _ & (l & _ & (l' & _ & Hd')%bind_Ok)%bind_Ok).
       apply (f_equal (λ o, match o with Ok d => d_checked d | _ => ∅ end)) in Hd'. cbn in Hd'. set_solver. }
  all: apply bind_Ok in Hst as (q & Hq & [= E0]); destruct Hne; by rewrite Hq, <- E0.
Qed.

#[export] Instance debug_live : live_machine dstep (qlive progs) d_finished dinv.
Proof.
  split.
  - intros n d [t|t] (s & Hq & Hd & <-); [by apply dstep_exec_ok|by apply dstep_drain_ok].
  - intros n d (s & Hq & Hd & _).
    destruct (lm_progress _ (live_machine := replay_tso_live _ _ _ _ _ _ _ _ HR) _ (d_q d)
      (ex_intro _ s (conj Hq eq_refl))) as [Hf|(a & Ha & Hne)].
    + left. split; [done|]. apply elem_of_equiv_empty_L. intros t Hin.
      destruct (db_checked _ _ _ _ _ Hd t Hin) as [th Hth]. destruct Hf as [Hf _]. destruct (Hf t th Hth) as [x Hx].
      destruct (proj2 (db_bufs _ _ _ _ _ Hd t)) as [b Hb]; [eauto|].
      destruct (db_thr _ _ _ _ _ Hd t th b Hth Hb) as (k & _ & _ & _ & Hchk). destruct (Hchk Hin) as (e & _ & Hp).
      unfold pending_check in Hp. by rewrite Hx in Hp.
    + right. exists a. split; [done|]. by apply dstep_goes_on.
  - intros d a [Hf Hc]. pose proof (lm_finished _ (live_machine := replay_tso_live _ _ _ _ _ _ _ _ HR) (d_q d) a Hf) as Hst.
    unfold DebugAccess.dstep. destruct a as [t|t]; rewrite Hst; cbn [mbind outcome_bind]; [|by destruct d].
    assert (d_checked d ∖ {[t]} = d_checked d) as -> by set_solver.
    destruct (r_thr (q_s (d_q d)) !! t) as [th|] eqn:Hth; [|done].
    destruct Hf as [Hf _], (Hf t th Hth) as [x Hx]. unfold pending_check. rewrite Hx.
    destruct (q_buf (d_q d) !! t); by destruct d.
Qed.
End passes.
