(* ===== verification/DebugReplay.v ===== *)
(** * DebugReplay: recording and replaying with [DEBUG_ACCESS]

    The debug logs as files of bytes, and the theorems: the check never fires on
    the replay of a recording, and it is sound: a replay that passes it, on
    whatever order logs and from whatever memory, has returned what was recorded. *)
From stdpp Require Import strings.
From S2P Require Import Prelude Mem MappedLog Paths Record Batch History SeqlockTso SeqlockTsoProof Reloc.
From S2P Require Import Reorder PQueue KWay Merge Sched Replay ReplayProof Pipeline Correctness Files.
From S2P Require Import TsoCorrectness ReplayTso ReplayTsoProof TsoReplay DebugAccess.

(** ** Lemmas: where a debug replay starts *)

(** No step makes a thread. *)
Lemma rstep_dom calc_objid t r r' : rstep calc_objid t r = Ok r' → dom (r_thr r') = dom (r_thr r).
Proof.
  intros Hst. destruct (r_thr r !! t) as [th|] eqn:Hth.
  2:{ unfold rstep in Hst. rewrite Hth in Hst. by injection Hst as <-. }
  destruct (decide (∃ x, rt_prog th = PRet x)) as [[x Hx]|Hret].
  { unfold rstep in Hst. rewrite Hth, Hx in Hst. by injection Hst as <-. }
  destruct (rstep_moved _ _ _ _ _ Hst Hth Hret) as (th' & -> & _).
  rewrite dom_insert_lookup_L by eauto. done.
Qed.

Lemma qstep_dom calc_objid a q q' : qstep calc_objid a q = Ok q' → dom (r_thr (q_s q')) = dom (r_thr (q_s q)).
Proof.
  unfold qstep. intros Hst. destruct a as [t|t].
  - destruct (r_thr (q_s q) !! t) as [th|], (q_buf q !! t) as [b|]; try by injection Hst as <-.
    case_decide; [by injection Hst as <-|]. apply bind_Ok in Hst as (v & Hv & [= <-]). cbn.
    rewrite (rstep_dom _ _ _ _ Hv). by destruct (flush_thr b (q_s q)) as [-> _].
  - destruct (q_buf q !! t) as [[|[l x] b]|]; injection Hst as <-; [done| |done]. cbn.
    by destruct (rput_thr l x (q_s q)) as [-> _].
Qed.

Lemma dstep_dom calc_objid a d d' :
  dstep calc_objid a d = Ok d' → dom (r_thr (q_s (d_q d'))) = dom (r_thr (q_s (d_q d))).
Proof.
  unfold dstep, check_step. intros Hst.
  destruct a as [t|t]; [|outcome_inv; by eapply qstep_dom].
  destruct (r_thr (q_s (d_q d)) !! t) as [th|], (q_buf (d_q d) !! t) as [b|]; try by injection Hst as <-.
  destruct (pending_check calc_objid th) as [[[acc o] val]|];
    repeat case_decide; outcome_inv; cbn; try done; by eapply qstep_dom.
Qed.

(** The debug logs are those of the history, each followed by [pad t]. *)
Definition debug_logs_of (E : list event) (nthr : Z) (pad : Z → list mem_acc) : list (list mem_acc) :=
  (λ t, (ev_entry <$> tevents t E) ++ pad t) <$> seqZ 0 nthr.

(** The debug logs do not hold addresses. *)
Lemma debug_logs_moved f E nthr pad : debug_logs_of (moved_event f <$> E) nthr pad = debug_logs_of E nthr pad.
Proof.
  unfold debug_logs_of. apply list_fmap_ext. intros _ t _. f_equal. unfold tevents.
  induction E as [|e E IH]; [done|]. rewrite fmap_cons, !filter_cons.
  change (ev_tid (moved_event f e)) with (ev_tid e). case_decide; [|done]. rewrite !fmap_cons. by f_equal.
Qed.

Lemma debug_logs_pad E nthr pad : 0 ≤ nthr →
  zip_with (λ t l, l ++ pad t) (seqZ 0 (Z.of_nat (length (debug_logs_of E nthr (λ _, [])))))
    (debug_logs_of E nthr (λ _, [])) = debug_logs_of E nthr pad.
Proof.
  intros Hn. unfold debug_logs_of. rewrite length_fmap, length_seqZ, Z2Nat.id by done.
  apply list_eq. intros i. rewrite lookup_zip_with, !list_lookup_fmap.
  destruct (seqZ 0 nthr !! i); cbn; [|done]. by rewrite app_nil_r.
Qed.

Lemma debug_init_inv calc_objid nobj mem0 mem1 ps E s vlogs merged r pad :
  history calc_objid nobj mem0 (map_seqZ 0 ps) E s → a_finished s →
  replay_init nobj mem1 ps vlogs merged = Ok r →
  dbg_inv calc_objid E (result s) pad
    (debug_start (debug_logs_of E (Z.of_nat (length ps)) pad) r).
Proof.
  intros HE Hfin Hr. assert (∀ t b, q_buf (qstart r) !! t = Some b → b = []) as Hall.
  { intros t b Hb. cbn in Hb. rewrite lookup_fmap in Hb. by apply fmap_Some in Hb as (? & _ & ->). }
  constructor.
  - intros t. cbn. by rewrite lookup_fmap, fmap_is_Some.
  - intros t b u x Hb Hin. rewrite (Hall t b Hb) in Hin. by apply elem_of_nil in Hin.
  - intros t th b Hth Hb. rewrite (Hall t b Hb). cbn in Hth.
    destruct (replay_init_threads _ _ _ _ _ _ Hr t th Hth) as (Hp & Hpc & Hcnt).
    exists 0%nat. cbn. split_and!; [done|..|set_solver].
    + destruct (history_prog _ _ _ _ _ _ _ _ HE Hp) as (q & Hq & Htr).
      destruct (Hfin t q Hq) as [x ->]. unfold result. rewrite Hq. done.
    + unfold consumed. cbn. rewrite bool_decide_false, Hpc by set_solver. cbn.
      apply lookup_map_seqZ_Some in Hp as [Ht Hp]. apply lookup_lt_Some in Hp.
      apply lookup_map_seqZ_Some. split; [done|]. unfold debug_logs_of.
      rewrite !list_lookup_fmap, (proj2 (lookup_seqZ _ _ _ t)) by lia. done.
  - cbn. set_solver.
Qed.

Lemma debug_logs_history R calc_objid nobj mem0 progs s0 E s (c : tstate (with_log_access R)) nthr :
  @rc_init (with_log_access R) nobj = Ok s0 →
  tinv (with_log_access R) calc_objid nobj mem0 progs s0 E s c → t_finished (with_log_access R) c →
  (∀ t, 0 ≤ t < nthr → is_Some (progs !! t)) → debug_logs nthr c = debug_logs_of E nthr (λ _, []).
Proof.
  intros Hs0 Hc Hf Hn. unfold debug_logs, debug_logs_of. apply list_fmap_ext.
  intros i t [-> Ht]%lookup_seqZ. rewrite app_nil_r. assert (0 ≤ 0 + Z.of_nat i < nthr) as Hi by lia.
  destruct (proj2 (ti_dom _ _ _ _ _ _ _ _ _ Hc _) (Hn _ Hi)) as [th Hth].
  destruct (finished_history _ _ _ _ _ _ _ _ _ Hc Hf) as (_ & _ & Hthr).
  destruct (Hthr _ _ Hth) as [_ Hl]. rewrite Hth. cbn. rewrite debug_log_all in Hl.
  apply bind_Ok in Hl as (s' & _ & Hl). unfold debug_log_of.
  cbn in Hs0. apply bind_Ok in Hs0 as (s1 & _ & [= <-]). cbn in Hl.
  injection Hl as Hl. apply (f_equal snd) in Hl. cbn in Hl. rewrite <- Hl.
  unfold tvaccs. by rewrite <- list_fmap_compose.
Qed.

(** ** Lemmas: the files of the debug logs *)

(** What a new file holds where nothing was written. *)
Definition unused (k : nat) : list mem_acc := replicate k (MemAcc 0 0 0 0 0).

Lemma unused_bytes k : file_bytes (unused k) = replicate (k * 32) 0.
Proof.
  induction k as [|k IH]; [done|]. change (unused (S k)) with (MemAcc 0 0 0 0 0 :: unused k).
  unfold file_bytes in *. cbn [mbind list_bind]. by rewrite IH.
Qed.

Lemma unused_valid k : Forall valid (unused k).
Proof. apply Forall_replicate. cbn. unfold int8, int32, int64. lia. Qed.

Section debug_files_ok.
Context (addr : string → nat → Z) (Haddr : ∀ path i, addr path i mod PAGE_SIZE = 0).

Lemma debug_path_short tid : 0 ≤ tid ≤ 127 → logpath "debug-access" tid = Ok (log_name "debug-access" tid).
Proof.
  intros Ht. unfold logpath. rewrite decide_False; [done|].
  assert (forallb (λ i, Z.of_nat (String.length (log_name "debug-access" i)) <? MAX_PATH_LEN)
    (seqZ 0 128) = true) as Hall by (vm_compute; reflexivity).
  rewrite List.forallb_forall in Hall. assert (tid ∈ seqZ 0 128) as Hin by (apply elem_of_seqZ; lia).
  apply list_elem_of_In in Hin. specialize (Hall tid Hin). lia.
Qed.

(** The file of a thread: its entries, and whole entries of zeros. *)
Lemma debug_file_ok tid l : 0 ≤ tid ≤ 127 → Forall valid l →
  ∃ f k, debug_file addr tid l = Ok f ∧ f ≠ [] ∧ decode_file f = l ++ unused k.
Proof using Haddr.
  intros Ht Hv. unfold debug_file. rewrite debug_path_short by done. cbn [mbind outcome_bind].
  set (path := log_name "debug-access" tid).
  destruct (append_all_ok [] l (new_mapped_log (addr path 0%nat)) (λ i, addr path (S i)))
    as (log & -> & [(k & Hk & Hk0) _ _ _ _ _ [Hpos Hsz]]); [by apply new_log_wf|done|].
  cbn [mbind outcome_bind app] in *. rewrite Hk in *.
  assert (∀ a : mem_acc, length (MappedLog.encode a) = 32%nat) as He.
  { intros a. pose proof (MappedLog.length_encode a) as Hl. change (entry_size (A := mem_acc)) with 32 in Hl. lia. }
  rewrite length_app, (length_bind_const _ _ _ He) in Hpos, Hsz.
  assert (∃ j, Z.to_nat k = (j * 32)%nat) as [j Hj].
  { pose proof (length_zeros k Hk0) as Hz. exists (Z.to_nat (k / 32)).
    assert (k mod 32 = 0) as Hm.
    { apply Z.mod_divide in Hsz as [m Hm]; [|unfold LOG_BUFFER_SIZE; lia]. unfold LOG_BUFFER_SIZE in Hm.
      replace k with ((m * 128 - Z.of_nat (length l)) * 32) by lia. apply Z.mod_mul. lia. }
    apply Z.mod_divide in Hm as [m ->]; [|lia]. rewrite Z.div_mul by lia. lia. }
  eexists _, j. unfold zeros in *. rewrite Hj in *. rewrite <- unused_bytes in *.
  unfold file_bytes in *. rewrite <- bind_app in *.
  split_and!; [done| |by apply decode_file_bytes, Forall_app; split; [|apply unused_valid]].
  intros E0. apply (f_equal length) in E0. rewrite bind_app, length_app, (length_bind_const _ _ _ He) in E0.
  cbn in E0. lia.
Qed.

(** The debug logs of all threads through their files. *)
Lemma debug_files_ok logs r : (length logs ≤ 127)%nat → Forall (Forall valid) logs →
  ∃ files pad, debug_files addr logs = Ok files ∧ (∀ t, ∃ k, pad t = unused k) ∧
    debug_init addr files r = Ok (debug_start (zip_with (λ t l, l ++ pad t) (seqZ 0 (Z.of_nat (length logs))) logs) r).
Proof using Haddr.
  intros Hlen Hv. set (tls := zip (seqZ 0 (Z.of_nat (length logs))) logs).
  assert (∀ tl, tl ∈ tls → 0 ≤ tl.1 ≤ 127 ∧ Forall valid tl.2) as Hin.
  { intros [t l] [i Hi]%list_elem_of_lookup_1. unfold tls in Hi. rewrite lookup_zip_with in Hi.
    apply bind_Some in Hi as (t' & [-> Ht]%lookup_seqZ & (l' & Hl & [= <- <-])%bind_Some). split; [cbn; lia|].
    rewrite list.Forall_forall in Hv. by eapply Hv, list_elem_of_lookup_2. }
  destruct (mapM_exists (λ tl, debug_file addr tl.1 tl.2)
    (λ tl f, f ≠ [] ∧ ∃ k, decode_file f = tl.2 ++ unused k) tls) as (files & Hfiles & Hall).
  { intros tl Htl. destruct (Hin tl Htl) as [Ht Hl]. destruct (debug_file_ok tl.1 tl.2 Ht Hl) as (f & k & ? & ? & ?). eauto. }
  assert (length tls = length logs) as Hlt.
  { unfold tls. rewrite length_zip_with, length_seqZ. lia. }
  pose proof (Forall2_length Hall) as Hlf.
  exists files, (λ t, match tls !! Z.to_nat t, files !! Z.to_nat t with
    | Some tl, Some f => drop (length tl.2) (decode_file f) | _, _ => [] end). split_and!; [done|..].
  { intros t. destruct (tls !! Z.to_nat t) as [tl|] eqn:Htl; [|by exists 0%nat].
    destruct (Forall2_lookup_l _ _ _ _ _ Hall Htl) as (f & -> & _ & k & ->). exists k. by rewrite drop_app_length. }
  unfold debug_init. rewrite (mapM_fmap _ (λ tf, decode_file tf.2)).
  - cbn [mbind outcome_bind]. do 2 f_equal. apply list_eq. intros i.
    rewrite list_lookup_fmap, !lookup_zip_with.
    destruct (decide (i < length logs)%nat) as [Hi|Hi].
    + destruct (lookup_lt_is_Some_2 logs i Hi) as [l Hl].
      assert (tls !! i = Some (Z.of_nat i, l)) as Htl.
      { unfold tls. rewrite lookup_zip_with, (proj2 (lookup_seqZ _ _ i (Z.of_nat i))) by lia. cbn. by rewrite Hl. }
      destruct (Forall2_lookup_l _ _ _ _ _ Hall Htl) as (f & Hf & _ & k & Hd).
      rewrite (proj2 (lookup_seqZ 0 (Z.of_nat (length files)) i (Z.of_nat i))) by lia.
      rewrite (proj2 (lookup_seqZ 0 (Z.of_nat (length logs)) i (Z.of_nat i))) by lia.
      cbn. rewrite Hl, Hf. cbn. rewrite Nat2Z.id, Htl, Hf. cbn in *. by rewrite Hd, drop_app_length.
    + rewrite (lookup_ge_None_2 files i), (lookup_ge_None_2 logs i) by lia.
      by destruct (seqZ _ _ !! i), (seqZ _ _ !! i).
  - intros [t f] [i Hi]%list_elem_of_lookup_1. rewrite lookup_zip_with in Hi.
    apply bind_Some in Hi as (t' & [-> Ht]%lookup_seqZ & (f' & Hf & [= <- <-])%bind_Some). cbn.
    rewrite debug_path_short by lia. cbn [mbind outcome_bind].
    destruct (Forall2_lookup_r _ _ _ _ _ Hall Hf) as (tl & _ & Hne & _). by destruct f'.
Qed.
End debug_files_ok.

(** The entries of a history fit their fields if its values do. *)
Lemma debug_entries_fit calc_objid nobj mem0 ps E s t :
  history calc_objid nobj mem0 (map_seqZ 0 ps) E s → nobj ≤ 2 ^ 31 → Z.of_nat (length E) < 2 ^ 31 →
  Forall (λ e, 0 ≤ ma_val e < 2 ^ 32) (ev_entry <$> tevents t E) → Forall valid (ev_entry <$> tevents t E).
Proof.
  intros HE Hobj Hlen Hval. apply list.Forall_forall. intros a [k Hk]%list_elem_of_lookup_1.
  assert (0 ≤ ma_val a < 2 ^ 32) as Hv.
  { rewrite list.Forall_forall in Hval. by eapply Hval, list_elem_of_lookup_2. }
  apply list_lookup_fmap_Some in Hk as (e & -> & He).
  destruct (access_fits calc_objid nobj mem0 ps E s HE t k (Access (ev_kind e) (ev_obj e) (ev_ver e)))
    as (? & ? & ?); [apply taccs_lookup; by exists e|]. cbn in *.
  unfold int8, int32, int64. destruct (ev_kind e); cbn; lia.
Qed.

(** ** Properties *)

Section properties.
Context (Q : prio_queue qe_gt) {HQ : prio_queue_ok Q}.
Context (addr : string → nat → Z) (Haddr : ∀ path i, addr path i mod PAGE_SIZE = 0).

(** Whatever the recorder that calls [log_access] does for the order logs. *)
Lemma log_access_passes R `{HR : !recorder_ok R} calc_objid calc_objid' nobj mem0 mem0' f ps ps' acts c0 c fs :
  relocation calc_objid calc_objid' mem0 mem0' f (addr_ok calc_objid nobj mem0) →
  Forall2 (moved f (addr_ok calc_objid nobj mem0)) ps ps' → (length ps ≤ 127)%nat → nobj ≤ 2 ^ 31 →
  tinit (with_log_access R) nobj mem0 (map_seqZ 0 ps) = Ok c0 →
  trun (with_log_access R) calc_objid acts c0 = Ok c → t_finished (with_log_access R) c →
  Forall (Forall (λ e, 0 ≤ ma_val e < 2 ^ 32)) (debug_logs (Z.of_nat (length ps)) c) →
  ∃ logs, tso_logs (with_log_access R) nobj (Z.of_nat (length ps)) c = Ok logs ∧
    (Z.of_nat (recorded_accesses logs) < 2 ^ 31 →
     ∃ r0 files d0 bound, prepare_files addr Q nobj mem0' ps' logs fs = Ok r0 ∧
     debug_files addr (debug_logs (Z.of_nat (length ps)) c) = Ok files ∧ debug_init addr files r0 = Ok d0 ∧
     (∀ rounds, Forall (fair (qlive (map_seqZ 0 ps'))) rounds → (bound ≤ length rounds)%nat →
        ∃ d, run_sched (dstep calc_objid') (concat rounds) d0 = Ok d ∧ q_finished (d_q d)) ∧
     ∀ sched, ∃ d, run_sched (dstep calc_objid') sched d0 = Ok d ∧
       (q_finished (d_q d) →
        (∀ a, addr_ok calc_objid nobj mem0 a → r_mem (q_s (d_q d)) !! f a = m_data (t_mem c) !! a) ∧
        rt_prog <$> r_thr (q_s (d_q d)) = tt_prog <$> t_thr c ∧
        ∀ t, is_Some (r_thr (q_s (d_q d)) !! t) → ∃ k, d_log d !! t = Some (unused k))).
Proof using All.
  intros Hmv Hps Hthr Hobj Hc0 Hrun Hf Hval. pose proof (Forall2_length Hps) as Hlps.
  destruct (tso_moved_recording (with_log_access R) calc_objid calc_objid' nobj mem0 mem0' f ps ps' acts c0 c)
    as (s0 & logs & E & s & s' & Hs0 & Hc & Hl & Hn & HE & Hfin & Hlogs & Hrecd & Hdata & Hprog); [done..|].
  exists logs. split; [done|]. rewrite Hn. intros Hlen. pose proof (Hrecd Hlen) as Hrec.
  destruct (history_replay_start (with_log_access R) Q addr Haddr calc_objid' nobj mem0' ps' (moved_event f <$> E) s' logs)
    as (r0 & V & L & Hp & (vlogs & merged & Hinit) & HRd & Hq0); [done..|].
  rewrite (debug_logs_history R calc_objid nobj mem0 _ s0 E s c _ Hs0 Hc Hf) in *
    by (intros; apply lookup_map_seqZ_is_Some; lia).
  destruct (debug_files_ok addr Haddr (debug_logs_of E (Z.of_nat (length ps)) (λ _, [])) r0)
    as (files & pad & Hfiles & Hpad & Hd0); [unfold debug_logs_of; rewrite length_fmap, length_seqZ; lia| |].
  { unfold debug_logs_of in *. rewrite Forall_fmap in *. eapply Forall_impl; [|exact Hval]. intros t.
    unfold compose. rewrite app_nil_r. by eapply debug_entries_fit. }
  rewrite (debug_logs_pad E _ pad), Hlps, <- (debug_logs_moved f) in Hd0 by lia.
  assert (∃ bound, dinv calc_objid' nobj mem0' (map_seqZ 0 ps') (moved_event f <$> E) V L (result s') pad bound
    (debug_start (debug_logs_of (moved_event f <$> E) (Z.of_nat (length ps')) pad) r0)) as [bound Hinv].
  { eexists. exists r0. split_and!; [done| |reflexivity]. by eapply debug_init_inv; [apply Hrec|apply Hrec|]. }
  eexists r0, files, _, bound. split_and!; [done..| |].
  - intros rounds Hfair Hb.
    destruct (fair_rounds_finish _ (HM := debug_live _ _ _ _ _ _ _ _ _ HRd) rounds _ _ Hinv Hfair Hb)
      as (d & _ & ? & _ & [? _]). eauto.
  - intros sched. destruct (run_sched_ok _ (HM := debug_live _ _ _ _ _ _ _ _ _ HRd) sched _ _ Hinv)
      as (d & n' & Hrd & _ & s1 & Hq & Hd & _). exists d. split; [done|]. intros Hqf.
    destruct (tso_replay_final calc_objid' nobj mem0' ps' (moved_event f <$> E) s' V L (d_q d) s1) as [Hm Ht]; [done..|].
    rewrite <- Hprog. split_and!; [|done|].
    + intros a Ha. rewrite Hm; [by apply Hdata|]. rewrite (mv_objid _ _ _ _ _ _ Hmv a Ha). apply Ha.
    + intros t [th Hth]. destruct Hqf as [Hrf _], (Hpad t) as [k Hk]. exists k. rewrite <- Hk.
      by apply (dbg_finished _ _ _ _ _ _ _ Hd Hrf Hth).
Qed.
(** C23: a recording made with [DEBUG_ACCESS], by one of the three recorders that
    can be built with it and of 32-bit values, replays with every check passing.  Recorder and replayer run on x86-TSO, with the files of the
    order logs and of the debug logs between them, and the replay is by another
    executable of the program: no schedule of instructions and buffered stores
    finds an entry that differs from the access it replays, or a log that has
    ended; every fair schedule finishes; and a finished replay has checked every
    recorded access, with only the unused rest of the debug files left, and ends as
    the recording did. *)
Theorem debug_access_passes (i : debug_impl) calc_objid calc_objid' nobj mem0 mem0' f ps ps' acts c0 c fs :
  relocation calc_objid calc_objid' mem0 mem0' f (addr_ok calc_objid nobj mem0) →
  Forall2 (moved f (addr_ok calc_objid nobj mem0)) ps ps' → (length ps ≤ 127)%nat → nobj ≤ 2 ^ 31 →
  tinit (debug_recorder i) nobj mem0 (map_seqZ 0 ps) = Ok c0 →
  trun (debug_recorder i) calc_objid acts c0 = Ok c → t_finished (debug_recorder i) c →
  Forall (Forall (λ e, 0 ≤ ma_val e < 2 ^ 32)) (debug_logs (Z.of_nat (length ps)) c) →
  ∃ logs, tso_logs (debug_recorder i) nobj (Z.of_nat (length ps)) c = Ok logs ∧
    (Z.of_nat (recorded_accesses logs) < 2 ^ 31 →
     ∃ r0 files d0 bound, prepare_files addr Q nobj mem0' ps' logs fs = Ok r0 ∧
     debug_files addr (debug_logs (Z.of_nat (length ps)) c) = Ok files ∧ debug_init addr files r0 = Ok d0 ∧
     (∀ rounds, Forall (fair (qlive (map_seqZ 0 ps'))) rounds → (bound ≤ length rounds)%nat →
        ∃ d, run_sched (dstep calc_objid') (concat rounds) d0 = Ok d ∧ q_finished (d_q d)) ∧
     ∀ sched, ∃ d, run_sched (dstep calc_objid') sched d0 = Ok d ∧
       (q_finished (d_q d) →
        (∀ a, addr_ok calc_objid nobj mem0 a → r_mem (q_s (d_q d)) !! f a = m_data (t_mem c) !! a) ∧
        rt_prog <$> r_thr (q_s (d_q d)) = tt_prog <$> t_thr c ∧
        ∀ t, is_Some (r_thr (q_s (d_q d)) !! t) → ∃ k, d_log d !! t = Some (unused k))).
Proof using All.
  assert (recorder_ok (order_recorder i)) by (destruct i; apply _).
  exact (log_access_passes (order_recorder i) calc_objid calc_objid' nobj mem0 mem0' f ps ps' acts c0 c fs).
Qed.
End properties.

(** C24: the check is sound, also with store buffers.  Whatever order logs the
    replayer is given and from whatever memory it starts, threads that finish with
    every check passed have returned what they returned in the recording the debug
    logs are of, and have used those logs up. *)
Theorem debug_check_sound calc_objid nobj mem0 ps (pad : Z → list mem_acc) E s mem1 vlogs merged r0 sched d :
  history calc_objid nobj mem0 (map_seqZ 0 ps) E s → a_finished s →
  replay_init nobj mem1 ps vlogs merged = Ok r0 →
  run_sched (dstep calc_objid) sched (debug_start (debug_logs_of E (Z.of_nat (length ps)) pad) r0)
    = Ok d →
  r_finished (q_s (d_q d)) →
  ∀ t th, r_thr (q_s (d_q d)) !! t = Some th →
    a_prog s !! t = Some (rt_prog th) ∧ d_log d !! t = Some (pad t).
Proof.
  intros HE Hfin Hr Hrun Hf t th Hth.
  pose proof (debug_init_inv calc_objid nobj mem0 mem1 ps E s vlogs merged r0 pad HE Hfin Hr) as Hd0.
  assert (dbg_inv calc_objid E (result s) pad d ∧ dom (r_thr (q_s (d_q d))) = dom (r_thr r0)) as [Hd Hdom].
  { revert Hd0 Hrun. change (dom (r_thr r0)) with (dom (r_thr (q_s (d_q (debug_start
      (debug_logs_of E (Z.of_nat (length ps)) pad) r0))))).
    generalize (debug_start (debug_logs_of E (Z.of_nat (length ps)) pad) r0).
    induction sched as [|a sched IH]; intros d0 Hd0; [by intros [= <-]|].
    rewrite run_sched_cons. intros (d1 & Hst & Hrun)%bind_Ok.
    destruct (IH d1) as [? ->]; [by eapply dstep_dbg|done|]. split; [done|by eapply dstep_dom]. }
  destruct (dbg_finished _ _ _ _ _ _ _ Hd Hf Hth) as [Hres ?]. split; [|done].
  assert (is_Some (a_prog s !! t)) as [q Hq].
  { apply (history_prog_dom _ _ _ _ _ _ _ HE). apply elem_of_dom_2 in Hth.
    rewrite Hdom, elem_of_dom in Hth. destruct Hth as [th0 Hth0].
    destruct (replay_init_threads _ _ _ _ _ _ Hr t th0 Hth0) as [? _]. eauto. }
  destruct (Hfin t q Hq) as [x ->]. rewrite Hq, Hres. unfold result. by rewrite Hq.
Qed.

(** ** Concrete runs *)

Definition demo_debug_end : tstate (debug_recorder debug_rtmseq) :=
  value (demo_tso_start _)
    (trun (debug_recorder debug_rtmseq) (λ a, a) demo_acts
       (demo_tso_start (debug_recorder debug_rtmseq))).

Lemma debug_access_passes_witness :
  debug_logs 2 demo_debug_end ≠ [[]; []] ∧
  ∃ logs, tso_logs (debug_recorder debug_rtmseq) 2 2 demo_debug_end = Ok logs ∧
    (Z.of_nat (recorded_accesses logs) < 2 ^ 31 →
     ∃ r0 files d0 bound,
     prepare_files demo_path_addr (sorted_queue qe_gt) 2 demo_moved_mem demo_moved_threads logs ∅ = Ok r0 ∧
     debug_files demo_path_addr (debug_logs 2 demo_debug_end) = Ok files ∧
     debug_init demo_path_addr files r0 = Ok d0 ∧
     (∀ rounds, Forall (fair (qlive (map_seqZ 0 demo_moved_threads))) rounds → (bound ≤ length rounds)%nat →
        ∃ d, run_sched (dstep demo_objid) (concat rounds) d0 = Ok d ∧ q_finished (d_q d)) ∧
     ∀ sched, ∃ d, run_sched (dstep demo_objid) sched d0 = Ok d ∧
       (q_finished (d_q d) →
        (∀ a, addr_ok (λ a, a) 2 demo_mem a →
          r_mem (q_s (d_q d)) !! demo_move a = m_data (t_mem demo_debug_end) !! a) ∧
        rt_prog <$> r_thr (q_s (d_q d)) = tt_prog <$> t_thr demo_debug_end ∧
        ∀ t, is_Some (r_thr (q_s (d_q d)) !! t) → ∃ k, d_log d !! t = Some (unused k))).
Proof.
  split; [vm_compute; discriminate|].
  apply (debug_access_passes (sorted_queue qe_gt) demo_path_addr
           (λ _, demo_addr_aligned) debug_rtmseq (λ a, a) demo_objid 2 demo_mem demo_moved_mem demo_move
           demo_threads demo_moved_threads demo_acts (demo_tso_start _) demo_debug_end ∅
           demo_relocation demo_moved).
  - cbn. lia.
  - lia.
  - apply value_ok. vm_compute. reflexivity.
  - apply value_ok. vm_compute. reflexivity.
  - apply (bool_decide_unpack _). vm_compute. exact I.
  - apply (bool_decide_unpack _). vm_compute. exact I.
Defined.

(** Without any order logs, threads that happen to run in the recorded order pass. *)
Definition demo_debug_start : rstate :=
  value (RState ∅ ∅ ∅ ∅ ∅)
    (replay_init 2 demo_mem demo_threads (replicate 2 [WaitVersion (-1) (-1)]) None).

(** A number of rounds, in each of which the thread takes an instruction and its
    oldest store drains. *)
Definition demo_debug_sched : list qact :=
  concat ((λ tn, concat (replicate tn.2 [QExec tn.1; QDrain tn.1]))
    <$> [(0, 8%nat); (0, 4%nat); (1, 8%nat); (0, 8%nat); (1, 4%nat); (1, 8%nat); (0, 4%nat); (1, 4%nat)]).

Definition demo_debug_play : dstate :=
  value (debug_start [] demo_debug_start)
    (run_sched (dstep (λ a, a)) demo_debug_sched
       (debug_start (debug_logs_of demo_events 2 (λ _, unused 1)) demo_debug_start)).

Lemma debug_check_sound_witness :
  is_Some (r_thr (q_s (d_q demo_debug_play)) !! 1) ∧
  ∀ t th, r_thr (q_s (d_q demo_debug_play)) !! t = Some th →
    a_prog demo_state !! t = Some (rt_prog th) ∧ d_log demo_debug_play !! t = Some (unused 1).
Proof.
  split; [vm_compute; by eexists|].
  apply (debug_check_sound (λ a, a) 2 demo_mem demo_threads (λ _, unused 1) demo_events demo_state demo_mem
           (replicate 2 [WaitVersion (-1) (-1)]) None demo_debug_start demo_debug_sched demo_debug_play).
  - apply demo_recording.
  - apply demo_recording.
  - apply value_ok. vm_compute. reflexivity.
  - apply value_ok. vm_compute. reflexivity.
  - apply (bool_decide_unpack _). vm_compute. exact I.
Defined.
