(* ===== verification/Barrier.v ===== *)
(** * Barrier: the start barrier of the clients on x86-TSO

    [racey.c] and [addcnt.c] start every thread with [mem_init_thr] and then
    [sync_thread]: a thread adds one to a shared flag and spins until the flag is
    the number of threads.  The replayer relies on it: [wait_reader] follows the
    pointers [memop_cnt[tid]] that [mem_init_thr] of the other threads set with a
    plain store.  The store goes to the thread's store buffer; the locked addition
    waits until the buffer is empty. *)
From S2P Require Import Prelude Sched.

(** ** The program *)

(** Where a thread is in its first lines. *)
Inductive sync_pc :=
| SyInit            (* mem_init_thr(tid) *)
| SyAdd             (* v = __sync_fetch_and_add(&flag, 1) *)
| SySpin (v : Z)    (* while (flag != NumProcs) *)
| SyPassed (v : Z). (* after sync_thread, which returned v *)

#[global] Instance sync_pc_eq_dec : EqDecision sync_pc.
Proof. solve_decision. Defined.

(** [sy_ready t]: [memop_cnt[t]] is set in memory; before that the pointer is the
    [NULL] of [calloc_check].  [sy_buf t]: the indexes of the buffered stores to
    [memop_cnt] of thread [t], oldest first. *)
Record sync_state := SyncState {
  sy_flag : Z;
  sy_ready : gmap Z bool;
  sy_buf : gmap Z (list Z);
  sy_thr : gmap Z sync_pc }.

(** An instruction of a thread, or its oldest buffered store reaching memory. *)
Inductive sync_act := SyExec (t : Z) | SyDrain (t : Z).

Section barrier.
Context (NumProcs : Z).

(** The next instruction of thread [t]. *)
Definition sync_exec (t : Z) (s : sync_state) : outcome sync_state :=
  match sy_thr s !! t, sy_buf s !! t with
  | Some SyInit, Some b =>
      Ok (SyncState (sy_flag s) (sy_ready s) (<[t := b ++ [t]]> (sy_buf s)) (<[t := SyAdd]> (sy_thr s)))
  | Some SyAdd, Some b =>
      Ok (if decide (b ≠ []) then s
          else SyncState (sy_flag s + 1) (sy_ready s) (sy_buf s) (<[t := SySpin (sy_flag s)]> (sy_thr s)))
  | Some (SySpin v), _ =>
      Ok (if decide (sy_flag s ≠ NumProcs) then s
          else SyncState (sy_flag s) (sy_ready s) (sy_buf s) (<[t := SyPassed v]> (sy_thr s)))
  | _, _ => Ok s
  end.

Definition sync_step (a : sync_act) (s : sync_state) : outcome sync_state :=
  match a with
  | SyExec t => sync_exec t s
  | SyDrain t =>
      match sy_buf s !! t with
      | Some (i :: b) =>
          ready ← arr_set (sy_ready s) i true;
          Ok (SyncState (sy_flag s) ready (<[t := b]> (sy_buf s)) (sy_thr s))
      | _ => Ok s
      end
  end.

(** After [mem_init] and the creation of the threads. *)
Definition sync_init : sync_state :=
  SyncState 0 (arr_make NumProcs false) (arr_make NumProcs []) (arr_make NumProcs SyInit).

Definition sync_live_act (a : sync_act) : Prop :=
  match a with SyExec t | SyDrain t => 0 ≤ t < NumProcs end.

(** Every thread has passed, and no store is under way. *)
Definition sync_done (s : sync_state) : Prop :=
  (∀ t pc, sy_thr s !! t = Some pc → ∃ v, pc = SyPassed v) ∧
  (∀ t b, sy_buf s !! t = Some b → b = []).

(** ** The invariant *)

Definition arrived (pc : sync_pc) : nat := match pc with SyInit | SyAdd => 0 | _ => 1 end.
Definition sync_rank (pc : sync_pc) : nat :=
  match pc with SyInit => 4 | SyAdd => 2 | SySpin _ => 1 | SyPassed _ => 0 end.

(** The value [__sync_fetch_and_add] gave the thread. *)
Definition sync_ticket (pc : sync_pc) : option Z :=
  match pc with SySpin v | SyPassed v => Some v | _ => None end.

(** [memop_cnt[t]] is set in memory and nothing of [t] is under way. *)
Definition pointer_set (s : sync_state) (t : Z) : Prop :=
  sy_ready s !! t = Some true ∧ sy_buf s !! t = Some [].

Definition sync_pc_inv (s : sync_state) (t : Z) (pc : sync_pc) : Prop :=
  match pc with
  | SyInit => sy_buf s !! t = Some []
  | SyAdd => pointer_set s t ∨ sy_buf s !! t = Some [t]
  | SySpin v => pointer_set s t ∧ 0 ≤ v < sy_flag s
  | SyPassed v => pointer_set s t ∧ 0 ≤ v < sy_flag s ∧ sy_flag s = NumProcs
  end.

Record sync_inv (n : nat) (s : sync_state) : Prop := {
  sv_dom : ∀ t, is_Some (sy_thr s !! t) ↔ 0 ≤ t < NumProcs;
  sv_ready : ∀ t, is_Some (sy_ready s !! t) ↔ 0 ≤ t < NumProcs;
  sv_buf : ∀ t, is_Some (sy_buf s !! t) ↔ 0 ≤ t < NumProcs;
  sv_flag : sy_flag s = Z.of_nat (over NumProcs arrived (sy_thr s));
  sv_pc : ∀ t pc, sy_thr s !! t = Some pc → sync_pc_inv s t pc;
  sv_inj : ∀ t1 t2 pc1 pc2 v, sy_thr s !! t1 = Some pc1 → sy_thr s !! t2 = Some pc2 →
    sync_ticket pc1 = Some v → sync_ticket pc2 = Some v → t1 = t2;
  sv_left : n = (over NumProcs sync_rank (sy_thr s) + over NumProcs length (sy_buf s))%nat }.

(** ** Lemmas *)

Context (HN : 0 < NumProcs).

(** The counting of a step of [t] from [pc] to [pc']. *)
Lemma sync_count n s t pc pc' : sync_inv n s → sy_thr s !! t = Some pc →
  (sync_rank pc' < sync_rank pc)%nat →
  (0 ≤ t < NumProcs) ∧
  (∀ u, is_Some (<[t := pc']> (sy_thr s) !! u) ↔ 0 ≤ u < NumProcs) ∧
  (over NumProcs sync_rank (<[t := pc']> (sy_thr s)) + over NumProcs length (sy_buf s) +
     (sync_rank pc - sync_rank pc') = n)%nat ∧
  Z.of_nat (over NumProcs arrived (<[t := pc']> (sy_thr s))) =
    sy_flag s + Z.of_nat (arrived pc') - Z.of_nat (arrived pc).
Proof.
  intros [] Ht Hr. assert (0 ≤ t < NumProcs) as Htr by (apply sv_dom0; eauto).
  pose proof (over_insert NumProcs sync_rank _ t pc pc' Htr Ht).
  pose proof (over_insert NumProcs arrived _ t pc pc' Htr Ht).
  split_and!; [lia..| |lia|lia]. intros u. rewrite lookup_insert_is_Some', sv_dom0.
  split; [|tauto]. by intros [<-|?].
Qed.

(** A thread before the addition keeps the others from having passed. *)
Lemma not_arrived_flag n s t pc : sync_inv n s → sy_thr s !! t = Some pc → arrived pc = 0%nat →
  sy_flag s < NumProcs.
Proof.
  intros Hs Ht Ha. assert (0 ≤ t < NumProcs) as Htr by (apply (sv_dom _ _ Hs); eauto).
  pose proof (over_insert NumProcs arrived _ t pc (SySpin 0) Htr Ht) as Hi. rewrite Ha in Hi.
  pose proof (over_le_const NumProcs arrived (<[t := SySpin 0]> (sy_thr s)) 1 ltac:(lia)
    ltac:(intros []; cbn; lia)) as Hle.
  rewrite (sv_flag _ _ Hs). cbn [arrived] in Hi. lia.
Qed.

Lemma sync_add n s t : sync_inv n s → sy_thr s !! t = Some SyAdd → sy_buf s !! t = Some [] →
  ∃ n', (n' < n)%nat ∧ sync_inv n'
    (SyncState (sy_flag s + 1) (sy_ready s) (sy_buf s) (<[t := SySpin (sy_flag s)]> (sy_thr s))).
Proof.
  intros Hs Ht Hb. pose proof (not_arrived_flag n s t _ Hs Ht eq_refl) as Hlt.
  destruct (sync_count n s t _ (SySpin (sy_flag s)) Hs Ht) as (Htr & Hd & Hn & Hf); [cbn; lia|].
  cbn [sync_rank] in Hn. pose proof (sv_pc _ _ Hs) as Hpc.
  eexists; split; [|constructor; cbn; [done|apply (sv_ready _ _ Hs)|apply (sv_buf _ _ Hs)|cbn in Hf; lia| | |reflexivity]].
  - cbn. lia.
  - intros u pu [[<- <-]|[_ Hu]]%lookup_insert_Some; cbn.
    + specialize (Hpc _ _ Ht). cbn in Hpc. rewrite (sv_flag _ _ Hs).
      split; [|lia]. destruct Hpc as [?|?]; [done|congruence].
    + specialize (Hpc u pu Hu). destruct pu; cbn in *; [done..| |]; unfold pointer_set in *; cbn; naive_solver lia.
  - intros t1 t2 pc1 pc2 v [[<- <-]|[_ H1]]%lookup_insert_Some [[<- <-]|[_ H2]]%lookup_insert_Some E1 E2;
      [done|..|by eapply (sv_inj _ _ Hs)]; cbn in *; simplify_eq.
    + specialize (Hpc _ _ H2). destruct pc2; cbn in *; simplify_eq; lia.
    + specialize (Hpc _ _ H1). destruct pc1; cbn in *; simplify_eq; lia.
Qed.

Lemma sync_pass n s t v : sync_inv n s → sy_thr s !! t = Some (SySpin v) → sy_flag s = NumProcs →
  ∃ n', (n' < n)%nat ∧ sync_inv n'
    (SyncState (sy_flag s) (sy_ready s) (sy_buf s) (<[t := SyPassed v]> (sy_thr s))).
Proof.
  intros Hs Ht Hfl. destruct (sync_count n s t _ (SyPassed v) Hs Ht) as (Htr & Hd & Hn & Hf); [cbn; lia|].
  cbn [sync_rank] in Hn. pose proof (sv_pc _ _ Hs _ _ Ht) as Hpt. cbn in Hpt.
  eexists; split; [|constructor; cbn; [done|apply (sv_ready _ _ Hs)|apply (sv_buf _ _ Hs)|cbn in Hf; lia| | |reflexivity]].
  - cbn. lia.
  - intros u pu [[<- <-]|[_ Hu]]%lookup_insert_Some; [cbn; naive_solver|]. by apply (sv_pc _ _ Hs).
  - assert (∀ u pu w, <[t := SyPassed v]> (sy_thr s) !! u = Some pu → sync_ticket pu = Some w →
      ∃ pu', sy_thr s !! u = Some pu' ∧ sync_ticket pu' = Some w) as Hback.
    { intros u pu w [[<- <-]|[_ Hu]]%lookup_insert_Some E; eauto. }
    intros t1 t2 pc1 pc2 w H1 H2 E1 E2. destruct (Hback _ _ _ H1 E1) as (? & ? & ?).
    destruct (Hback _ _ _ H2 E2) as (? & ? & ?). by eapply (sv_inj _ _ Hs).
Qed.

(** The store of [mem_init_thr] enters the buffer. *)
Lemma sync_store n s t : sync_inv n s → sy_thr s !! t = Some SyInit → ∃ n', (n' < n)%nat ∧
  sync_inv n' (SyncState (sy_flag s) (sy_ready s) (<[t := [t]]> (sy_buf s)) (<[t := SyAdd]> (sy_thr s))).
Proof.
  intros Hs Ht. destruct (sync_count n s t _ SyAdd Hs Ht) as (Htr & Hd & Hn & Hf); [cbn; lia|].
  cbn [sync_rank] in Hn. pose proof (sv_pc _ _ Hs _ _ Ht) as Hb. cbn in Hb.
  pose proof (over_insert NumProcs length _ t [] [t] Htr Hb) as Hl. cbn [length] in Hl.
  eexists; split; [|constructor; cbn; [done|apply (sv_ready _ _ Hs)| |cbn in Hf; lia| | |reflexivity]].
  - cbn. lia.
  - intros u. rewrite lookup_insert_is_Some', (sv_buf _ _ Hs). split; [|tauto]. by intros [<-|?].
  - intros u pu [[<- <-]|[Hne Hu]]%lookup_insert_Some; cbn; [right; by rewrite lookup_insert_eq|].
    pose proof (sv_pc _ _ Hs u pu Hu). destruct pu; unfold sync_pc_inv, pointer_set in *; cbn in *;
      by rewrite ?lookup_insert_ne.
  - intros t1 t2 pc1 pc2 v [[<- <-]|[_ H1]]%lookup_insert_Some [[<- <-]|[_ H2]]%lookup_insert_Some E1 E2;
      [done..|]. by eapply (sv_inj _ _ Hs).
Qed.

(** Only a thread that is about to add has a store under way, its own. *)
Lemma sync_buf_own n s t i b : sync_inv n s → sy_buf s !! t = Some (i :: b) → is_Some (sy_thr s !! t) →
  sy_thr s !! t = Some SyAdd ∧ i = t ∧ b = [].
Proof.
  intros Hs Hb [pc Hpc]. pose proof (sv_pc _ _ Hs _ _ Hpc) as Hp. rewrite Hpc.
  destruct pc; unfold sync_pc_inv, pointer_set in Hp; rewrite Hb in Hp; naive_solver.
Qed.

(** The store reaches memory. *)
Lemma sync_drain n s t : sync_inv n s → sy_thr s !! t = Some SyAdd → sy_buf s !! t = Some [t] →
  ∃ n', (n' < n)%nat ∧ sync_inv n'
    (SyncState (sy_flag s) (<[t := true]> (sy_ready s)) (<[t := []]> (sy_buf s)) (sy_thr s)).
Proof.
  intros Hs Ht Hb. assert (0 ≤ t < NumProcs) as Htr by (apply (sv_dom _ _ Hs); eauto).
  pose proof (over_insert NumProcs length _ t [t] [] Htr Hb) as Hl. cbn [length] in Hl.
  eexists; split; [|constructor; cbn; [apply (sv_dom _ _ Hs)| | |apply (sv_flag _ _ Hs)| |apply (sv_inj _ _ Hs)|reflexivity]].
  - rewrite (sv_left _ _ Hs). cbn. lia.
  - intros u. rewrite lookup_insert_is_Some', (sv_ready _ _ Hs). split; [|tauto]. by intros [<-|?].
  - intros u. rewrite lookup_insert_is_Some', (sv_buf _ _ Hs). split; [|tauto]. by intros [<-|?].
  - intros u pu Hu. pose proof (sv_pc _ _ Hs u pu Hu) as Hp. destruct (decide (u = t)) as [->|Hne].
    + rewrite Ht in Hu. injection Hu as <-. left. unfold pointer_set. cbn. by rewrite !lookup_insert_eq.
    + destruct pu; unfold sync_pc_inv, pointer_set in *; cbn; by rewrite ?lookup_insert_ne by done.
Qed.

Lemma sync_buf_some n s t pc : sync_inv n s → sy_thr s !! t = Some pc → is_Some (sy_buf s !! t).
Proof.
  intros Hs Ht. pose proof (sv_pc _ _ Hs _ _ Ht) as Hp.
  destruct pc; unfold sync_pc_inv, pointer_set in Hp; naive_solver.
Qed.

Lemma sync_inv_step n s a : sync_inv n s →
  ∃ s', sync_step a s = Ok s' ∧ (s' = s ∨ ∃ n', (n' < n)%nat ∧ sync_inv n' s').
Proof.
  intros Hs. destruct a as [t|t]; cbn.
  - unfold sync_exec. destruct (sy_thr s !! t) as [pc|] eqn:Ht; [|eauto].
    destruct (sync_buf_some n s t pc Hs Ht) as [b Hb]. rewrite Hb.
    pose proof (sv_pc _ _ Hs _ _ Ht) as Hp. destruct pc as [| |v|v]; cbn in Hp; [..|eauto].
    + rewrite Hb in Hp. injection Hp as ->. eexists. split; [done|]. right. by apply sync_store.
    + case_decide as Hd; [eauto|]. eexists. split; [done|]. right. subst b.
      by apply sync_add.
    + case_decide as Hd; [eauto|]. eexists. split; [done|]. right. apply sync_pass; [done..|lia].
  - destruct (sy_buf s !! t) as [[|i b]|] eqn:Hb; [eauto| |eauto].
    assert (is_Some (sy_thr s !! t)) as Hth.
    { apply (sv_dom _ _ Hs), (sv_buf _ _ Hs). eauto. }
    destruct (sync_buf_own n s t i b Hs Hb Hth) as (Ht & -> & ->).
    assert (is_Some (sy_ready s !! t)) as [x Hx].
    { apply (sv_ready _ _ Hs), (sv_dom _ _ Hs). eauto. }
    unfold arr_set. rewrite Hx. cbn. eexists. split; [done|]. right. by apply sync_drain.
Qed.

Lemma sync_moved_ne s t pc pc' flag ready buf : sy_thr s !! t = Some pc → pc' ≠ pc →
  Ok (SyncState flag ready buf (<[t := pc']> (sy_thr s))) ≠ Ok s.
Proof.
  intros Ht Hne [= E]. apply Hne. rewrite <- E in Ht. cbn in Ht.
  rewrite lookup_insert_eq in Ht. by injection Ht.
Qed.

(** A thread that has not arrived, or its store, can move. *)
Lemma sync_arriving n s t pc : sync_inv n s → sy_thr s !! t = Some pc → arrived pc ≠ 1%nat →
  ∃ a, sync_live_act a ∧ sync_step a s ≠ Ok s.
Proof.
  intros Hs Ht Hpc. assert (0 ≤ t < NumProcs) as Htr by (apply (sv_dom _ _ Hs); eauto).
  destruct (sync_buf_some n s t pc Hs Ht) as [b Hb]. destruct pc; cbn in Hpc; [| |done..].
  - exists (SyExec t). split; [done|]. cbn. unfold sync_exec. rewrite Ht, Hb. by eapply sync_moved_ne.
  - destruct b as [|i b].
    + exists (SyExec t). split; [done|]. cbn. unfold sync_exec. rewrite Ht, Hb.
      rewrite decide_False by (intros Hf; by apply Hf). by eapply sync_moved_ne.
    + exists (SyDrain t). split; [done|]. destruct (sync_buf_own n s t i b Hs Hb) as (_ & -> & ->); [eauto|].
      destruct (proj2 (sv_ready _ _ Hs t) Htr) as [x Hx]. cbn. rewrite Hb. unfold arr_set. rewrite Hx. cbn.
      intros [= E]. apply (f_equal (λ s, sy_buf s !! t)) in E. cbn in E. by rewrite lookup_insert_eq, Hb in E.
Qed.

(** When all threads have arrived the flag lets every one pass. *)
Lemma sync_progress n s : sync_inv n s →
  sync_done s ∨ ∃ a, sync_live_act a ∧ sync_step a s ≠ Ok s.
Proof.
  intros Hs. destruct (decide (map_Forall (λ _ pc, arrived pc = 1%nat) (sy_thr s))) as [Hall|Hno].
  2: { apply map_not_Forall in Hno as (t & pc & Ht & Hpc); [|apply _]. right. by eapply sync_arriving. }
  assert (sy_flag s = NumProcs) as Hfl.
  { rewrite (sv_flag _ _ Hs), (over_const _ _ _ 1); [lia..|].
    intros t Ht. destruct (proj2 (sv_dom _ _ Hs t) Ht) as [pc Hpc]. rewrite Hpc. exact (Hall _ _ Hpc). }
  destruct (decide (map_Forall (λ _ pc, sync_rank pc = 0%nat) (sy_thr s))) as [Hd|Hd].
  { left. split; intros t pc Ht.
    - specialize (Hd t pc Ht). cbn in Hd. destruct pc; [done..|]. eauto.
    - destruct pc as [|i b]; [done|]. assert (is_Some (sy_thr s !! t)) as Hth.
      { apply (sv_dom _ _ Hs), (sv_buf _ _ Hs). eauto. }
      destruct (sync_buf_own n s t i b Hs Ht Hth) as (Ha & _). by specialize (Hall t _ Ha). }
  apply map_not_Forall in Hd as (t & pc & Ht & Hpc); [|apply _]. right. exists (SyExec t).
  split; [apply (sv_dom _ _ Hs); eauto|]. pose proof (Hall t pc Ht) as Ha. cbn. unfold sync_exec. rewrite Ht.
  destruct pc; cbn in Ha, Hpc; [done..| |done].
  destruct (sy_buf s !! t); rewrite decide_False by (intros Hf; by apply Hf); by eapply sync_moved_ne.
Qed.

#[export] Instance sync_live : live_machine sync_step sync_live_act sync_done sync_inv.
Proof.
  split; [intros n s t; apply sync_inv_step|apply sync_progress|].
  intros s a [Hd Hb]. destruct a as [t|t]; cbn.
  - unfold sync_exec. destruct (sy_thr s !! t) as [pc|] eqn:Ht; [|done].
    by destruct (Hd t pc Ht) as [v ->], (sy_buf s !! t).
  - destruct (sy_buf s !! t) as [b|] eqn:Hbt; [|done]. by rewrite (Hb t b Hbt).
Qed.

Lemma sync_init_inv : ∃ n, sync_inv n sync_init.
Proof using HN.
  assert (∀ {A} (a : A) t, arr_make NumProcs a !! t = if decide (0 ≤ t < NumProcs) then Some a else None)
    as Ha by (intros; apply lookup_arr_make).
  eexists. constructor; cbn; [..|reflexivity].
  1-3: intros t; rewrite Ha; by case_decide.
  - rewrite (over_const _ _ _ 0); [lia..|]. intros t _. rewrite Ha. by case_decide.
  - intros t pc. rewrite Ha. case_decide; [|done]. intros [= <-]. cbn. rewrite Ha. by case_decide.
  - intros t1 t2 pc1 pc2 v. rewrite Ha. case_decide; [|done]. by intros [= <-].
Qed.
End barrier.

(** ** Properties *)

(** C34: on x86-TSO, however the threads and their store buffers are scheduled, a
    thread is past [sync_thread] only when every thread's store of [mem_init_thr]
    is in memory, so every pointer of [memop_cnt] is set for every reader; the
    flag never exceeds the number of threads, every fair schedule lets all threads
    pass, and the values [sync_thread] returns are distinct and below the number of
    threads. *)
Theorem sync_thread_barrier NumProcs : 0 < NumProcs →
  (∃ bound, ∀ rounds, Forall (fair (sync_live_act NumProcs)) rounds → (bound ≤ length rounds)%nat →
     ∃ s, run_sched (sync_step NumProcs) (concat rounds) (sync_init NumProcs) = Ok s ∧ sync_done s) ∧
  ∀ sched, ∃ s, run_sched (sync_step NumProcs) sched (sync_init NumProcs) = Ok s ∧
    (0 ≤ sy_flag s ≤ NumProcs) ∧
    (∀ t v, sy_thr s !! t = Some (SyPassed v) → 0 ≤ v < NumProcs ∧
       ∀ u, 0 ≤ u < NumProcs → sy_ready s !! u = Some true) ∧
    (∀ t1 t2 v, sy_thr s !! t1 = Some (SyPassed v) → sy_thr s !! t2 = Some (SyPassed v) → t1 = t2).
Proof.
  intros HN. destruct (sync_init_inv NumProcs HN) as [n Hn]. split.
  - exists n. intros rounds Hf Hl.
    destruct (fair_rounds_finish _ (HM := sync_live NumProcs HN) rounds n _ Hn Hf Hl) as (s & _ & ? & _ & ?).
    eauto.
  - intros sched. destruct (run_sched_ok _ (HM := sync_live NumProcs HN) sched n _ Hn) as (s & n' & Hr & _ & Hs).
    exists s. split_and!; [done| | | |].
    + rewrite (sv_flag _ _ _ Hs). lia.
    + rewrite (sv_flag _ _ _ Hs).
      pose proof (over_le_const NumProcs arrived (sy_thr s) 1 ltac:(lia) ltac:(intros []; cbn; lia)). lia.
    + intros t v Ht. destruct (sv_pc _ _ _ Hs _ _ Ht) as (_ & Hv & Hfl). split; [lia|].
      intros u Hu. destruct (proj2 (sv_dom _ _ _ Hs u) Hu) as [pc Hpc].
      pose proof (sv_pc _ _ _ Hs _ _ Hpc) as Hp.
      pose proof (not_arrived_flag NumProcs HN n' s u pc Hs Hpc) as Hna.
      destruct pc; cbn in Hp, Hna; [specialize (Hna eq_refl); lia..|by apply Hp|by apply Hp].
    + intros t1 t2 v H1 H2. by eapply (sv_inj _ _ _ Hs).
Qed.

Lemma sync_thread_barrier_witness :
  run_sched (sync_step 2)
    [SyExec 0; SyExec 0; SyDrain 0; SyExec 0; SyExec 1; SyExec 0; SyDrain 1; SyExec 1; SyExec 0; SyExec 1]
    (sync_init 2) =
    Ok (SyncState 2 (<[1 := true]> (<[0 := true]> (arr_make 2 false))) (arr_make 2 [])
      (<[1 := SyPassed 1]> (<[0 := SyPassed 0]> (arr_make 2 SyInit)))) ∧
  ∀ sched, ∃ s, run_sched (sync_step 2) sched (sync_init 2) = Ok s ∧
    (0 ≤ sy_flag s ≤ 2) ∧
    (∀ t v, sy_thr s !! t = Some (SyPassed v) → 0 ≤ v < 2 ∧
       ∀ u, 0 ≤ u < 2 → sy_ready s !! u = Some true) ∧
    (∀ t1 t2 v, sy_thr s !! t1 = Some (SyPassed v) → sy_thr s !! t2 = Some (SyPassed v) → t1 = t2).
Proof. split; [vm_compute; reflexivity|]. apply (sync_thread_barrier 2). lia. Defined.
