(* ===== verification/Clients.v ===== *)
(** * Clients: what record and replay promise a client program

    A client is its objects, its initial memory and its threads, each of which
    makes the same number of accesses whatever it reads.  The number bounds what
    the tools have to count in an [int]. *)
From stdpp Require Import strings.
From S2P Require Import Prelude Mem MappedLog Record Batch History SeqlockTso SeqlockTsoProof Reloc.
From S2P Require Import Reorder PQueue KWay Merge Sched Replay ReplayProof Pipeline Correctness Files.
From S2P Require Import TsoCorrectness ReplayTso ReplayTsoProof TsoReplay.

Record client := Client {
  cl_objid : Z → Z;
  cl_nobj : Z;
  cl_mem : gmap Z Z;
  cl_threads : list prog }.

(** The threads stay within the objects, and [n] accesses of each fit. *)
Record client_ok (C : client) (n : nat) : Prop := {
  co_within : Forall (prog_within (addr_ok (cl_objid C) (cl_nobj C) (cl_mem C))) (cl_threads C);
  co_makes : Forall (λ p, makes p n) (cl_threads C);
  co_nobj : cl_nobj C ≤ 2 ^ 31;
  co_threads : (length (cl_threads C) ≤ 127)%nat;
  co_accesses : Z.of_nat (length (cl_threads C) * n) < 2 ^ 31 }.

(** A finished recording of the client. *)
Definition client_recording (R : recorder) (C : client) (acts : list action) (c : tstate R) : Prop :=
  ∃ c0, tinit R (cl_nobj C) (cl_mem C) (map_seqZ 0 (cl_threads C)) = Ok c0 ∧
    trun R (cl_objid C) acts c0 = Ok c ∧ t_finished R c.

(** What the client's threads return when a recording or a replay has finished. *)
Definition recorded_results {R} (n : nat) (c : tstate R) : list Z :=
  (λ t, from_option (prog_result ∘ tt_prog) 0 (t_thr c !! t)) <$> seqZ 0 (Z.of_nat n).

Definition replayed_results (n : nat) (r : rstate) : list Z :=
  (λ t, from_option (prog_result ∘ rt_prog) 0 (r_thr r !! t)) <$> seqZ 0 (Z.of_nat n).

(** [C'] is the client [C] with its objects elsewhere: [f] says where. *)
Record moved_client (f : Z → Z) (C C' : client) : Prop := {
  mc_nobj : cl_nobj C' = cl_nobj C;
  mc_reloc : relocation (cl_objid C) (cl_objid C') (cl_mem C) (cl_mem C') f
    (addr_ok (cl_objid C) (cl_nobj C) (cl_mem C));
  mc_threads : Forall2 (moved f (addr_ok (cl_objid C) (cl_nobj C) (cl_mem C)))
    (cl_threads C) (cl_threads C') }.

(** [C'] is [C] with its objects elsewhere and with other contents, related by [W],
    which do not change the accesses its threads make. *)
Record related_client (f : Z → Z) (W : Z → Z → Z → Prop) (C C' : client) : Prop := {
  rl_nobj : cl_nobj C' = cl_nobj C;
  rl_inj : ∀ a b, addr_ok (cl_objid C) (cl_nobj C) (cl_mem C) a →
    addr_ok (cl_objid C) (cl_nobj C) (cl_mem C) b → f a = f b → a = b;
  rl_objid : ∀ a, addr_ok (cl_objid C) (cl_nobj C) (cl_mem C) a → cl_objid C' (f a) = cl_objid C a;
  rl_mem : related_mem f (addr_ok (cl_objid C) (cl_nobj C) (cl_mem C)) W (cl_mem C) (cl_mem C');
  rl_threads : Forall2 (related f (addr_ok (cl_objid C) (cl_nobj C) (cl_mem C)) W)
    (cl_threads C) (cl_threads C') }.

Lemma moved_related_client f C C' : moved_client f C C' → related_client f same_val C C'.
Proof.
  intros [Hn [Hinj Hobj Hm] Hth]. split; [done..| |].
  - apply moved_related_mem; [|done]. by intros a [? _].
  - eapply Forall2_impl; [|exact Hth]. apply moved_related.
Qed.

(** The logs of a recording of [C] that ended in [c] can be replayed by [C'],
    whatever files there were: no run of the replay fails, every fair one finishes
    within a bound, and one that has finished is [same] as the recording. *)
Definition replays (R : recorder) (Q : prio_queue qe_gt) (addr : string → nat → Z)
    (C C' : client) (c : tstate R) (same : rstate → Prop) : Prop :=
  ∃ logs r0 bound, tso_logs R (cl_nobj C) (Z.of_nat (length (cl_threads C))) c = Ok logs ∧
    (∀ fs, prepare_files addr Q (cl_nobj C') (cl_mem C') (cl_threads C') logs fs = Ok r0) ∧
    (∀ rounds, Forall (fair (qlive (map_seqZ 0 (cl_threads C')))) rounds → (bound ≤ length rounds)%nat →
       ∃ q, run_sched (qstep (cl_objid C')) (concat rounds) (qstart r0) = Ok q ∧ q_finished q) ∧
    ∀ sched, ∃ q, run_sched (qstep (cl_objid C')) sched (qstart r0) = Ok q ∧
      (q_finished q → same (q_s q)).

Lemma replays_impl R Q addr C C' c (P P' : rstate → Prop) :
  (∀ r, P r → P' r) → replays R Q addr C C' c P → replays R Q addr C C' c P'.
Proof.
  intros HP (logs & r0 & bound & ? & ? & ? & Hall). exists logs, r0, bound. split_and!; [done..|].
  intros sched. destruct (Hall sched) as (q & ? & ?). exists q. auto.
Qed.

Section client.
Context (R : recorder) {HR : recorder_ok R} (Q : prio_queue qe_gt) {HQ : prio_queue_ok Q}.
Context (addr : string → nat → Z) (Haddr : ∀ path i, addr path i mod PAGE_SIZE = 0).
Context (C : client) (n : nat) (HC : client_ok C n).

(** The events of a finished history of the client. *)
Lemma client_events E s :
  history (cl_objid C) (cl_nobj C) (cl_mem C) (map_seqZ 0 (cl_threads C)) E s → a_finished s →
  length E = (length (cl_threads C) * n)%nat.
Proof.
  intros HE Hf. pose proof (history_wf _ _ _ _ _ _ HE) as Hwf.
  rewrite <- (tevents_total_eq (seqZ 0 (Z.of_nat (length (cl_threads C)))) E).
  - rewrite (sum_list_with_ext _ (λ _, n)).
    + rewrite <- (Nat2Z.id (length (cl_threads C))) at 2. rewrite <- (length_seqZ 0).
      generalize (seqZ 0 (Z.of_nat (length (cl_threads C)))). intros l. induction l; cbn; lia.
    + intros t Ht%elem_of_seqZ.
      destruct (proj2 (lookup_map_seqZ_is_Some (M := gmap Z) 0 (cl_threads C) t)) as [p Hp]; [lia|].
      destruct (history_prog _ _ _ _ _ _ _ _ HE Hp) as (q & Hq & Htr).
      destruct (Hf t q Hq) as [r ->]. eapply prog_trace_makes; [done|].
      apply lookup_map_seqZ_Some in Hp as [_ Hp]. exact (Forall_lookup_1 _ _ _ _ (co_makes _ _ HC) Hp).
  - apply NoDup_seqZ.
  - intros e He. destruct (hw_event _ _ _ _ _ Hwf e He) as (_ & _ & Ht%lookup_map_seqZ_is_Some).
    apply elem_of_seqZ. lia.
Qed.

(** Recording and replaying a client. *)
Lemma client_related_replay W C' f acts c : same_logs R W → related_client f W C C' → client_recording R C acts c →
  replays R Q addr C C' c (λ r,
    related_mem f (addr_ok (cl_objid C) (cl_nobj C) (cl_mem C)) W (m_data (t_mem c)) (r_mem r) ∧
    replayed_results (length (cl_threads C)) r = recorded_results (length (cl_threads C)) c).
Proof using All.
  intros HW [Hn' Hinj Hobjid Hm0 Hth] (c0 & Hc0 & Hrun & Hf). destruct HC.
  destruct (tso_related_replay R Q addr Haddr W (cl_objid C) (cl_objid C') (cl_nobj C) (cl_mem C) (cl_mem C')
    f (cl_threads C) (cl_threads C') acts c0 c) as (logs & E & s & Hl & _ & HE & Hfin & Hr); [done..|].
  destruct Hr as (r0 & bound & Hp & Hfair & Hall); [by rewrite (client_events E s HE Hfin)|].
  exists logs, r0, bound. rewrite Hn'. split_and!; [done..|]. intros sched.
  destruct (Hall sched) as (q & Hq & Hqf). exists q. split; [done|]. intros Hd.
  destruct (Hqf Hd) as [Hm Ht]. split; [done|]. unfold replayed_results, recorded_results.
  apply list_fmap_ext. intros _ t _. apply (f_equal (lookup t)) in Ht. rewrite !lookup_fmap in Ht.
  destruct (r_thr (q_s q) !! t), (t_thr c !! t); cbn in *; congruence.
Qed.

Lemma client_replay C' f acts c : moved_client f C C' → client_recording R C acts c →
  replays R Q addr C C' c (λ r,
    (∀ a, addr_ok (cl_objid C) (cl_nobj C) (cl_mem C) a → r_mem r !! f a = m_data (t_mem c) !! a) ∧
    replayed_results (length (cl_threads C)) r = recorded_results (length (cl_threads C)) c).
Proof using All.
  intros Hmv%moved_related_client Hrec. eapply replays_impl; [|eapply client_related_replay; [|done..]].
  - intros r [Hm%related_moved_mem ?]. by split.
  - apply same_val_logs.
Qed.
End client.
