(* ===== verification/Racey.v ===== *)
(** * Racey: the client [racey.c]

    Each thread reads two elements of a shared array that its running number
    selects, mixes them in and writes the second one; the signature printed at the
    end depends on the order of all accesses. *)
From stdpp Require Import strings.
From S2P Require Import Prelude Mem MappedLog Text Record Batch History SeqlockTso SeqlockTsoProof Reloc.
From S2P Require Import PQueue KWay Merge Sched Replay ReplayProof Pipeline TsoCorrectness ReplayTso Clients.

#[local] Open Scope string_scope.
#[local] Open Scope Z_scope.

(** ** The program *)

Definition MAX_LOOP : Z := 1000000.
Definition MAX_ELEM : Z := 64.
Definition PRIME1 : Z := 103072243.
Definition PRIME2 : Z := 103995407.

(** [mix], in [uint32_t] arithmetic. *)
Definition mix (i j : Z) : Z := wrap_u 32 (i + j * PRIME2) mod PRIME1.

Section racey.
(** The address of [g_m]. *)
Context (g_m : Z).

(** [&g_m[i].value]: an element is a cache line of 64 bytes. *)
Definition elem (i : Z) : Z := g_m + 64 * i.

Definition calc_objid_racey (addr : Z) : Z := wrap_s 32 (wrap_u 64 (addr - g_m) / 64).

(** The main loop of [ThreadBody], with [num] the thread's [g_sig]. *)
Fixpoint racey_loop (n : nat) (num : Z) : prog :=
  match n with
  | O => PRet num
  | S n =>
      let index1 := num mod MAX_ELEM in
      PRead (elem index1) (λ v,
        let num := mix num v in
        let index2 := num mod MAX_ELEM in
        PRead (elem index2) (λ v,
          let num := mix num v in
          PWrite (elem index2) num (racey_loop n num)))
  end.

(** [ThreadBody] of thread [tid], whose [g_sig] starts with [tid]; [max_loop] is
    [MAX_LOOP] in the source, and smaller in examples. *)
Definition ThreadBody (max_loop : nat) (tid : Z) : prog := racey_loop max_loop tid.

(** The mix array as [main] initializes it. *)
Definition init_elems : gmap Z Z :=
  list_to_map ((λ i, (elem i, mix i i)) <$> seqZ 0 MAX_ELEM).

(** [main], up to [pthread_join]. *)
Definition racey (max_loop : nat) (NumProcs : Z) : outcome client :=
  _ ← c_assert (0 < NumProcs ∧ NumProcs < 16);
  Ok (Client calc_objid_racey MAX_ELEM init_elems (ThreadBody max_loop <$> seqZ 0 NumProcs)).
End racey.

(** The signature [main] prints: [sig] is what the threads left in [g_sig]. *)
Definition mix_sig (sig : list Z) : Z :=
  match sig with
  | [] => 0
  | s0 :: sig => foldl (λ acc s, mix s acc) s0 sig
  end.

(** What it prints. *)
Definition racey_output (sig : list Z) : string :=
  "Short signature: " +:+ print_08x (mix_sig sig) +:+ LF.

(** ** Lemmas *)

Section proof.
Context (g_m : Z).

Lemma calc_objid_elem i : 0 ≤ i < MAX_ELEM → calc_objid_racey g_m (elem g_m i) = i.
Proof.
  intros Hi. unfold calc_objid_racey, elem, MAX_ELEM in *.
  replace (g_m + 64 * i - g_m) with (64 * i) by lia.
  rewrite wrap_u_id by lia. rewrite Z.mul_comm, Z.div_mul by lia. apply wrap_s_id; lia.
Qed.

Lemma elem_ok i : 0 ≤ i < MAX_ELEM →
  addr_ok (calc_objid_racey g_m) MAX_ELEM (init_elems g_m) (elem g_m i).
Proof.
  intros Hi. split; [|by rewrite calc_objid_elem].
  unfold init_elems. exists (mix i i). apply elem_of_list_to_map_1.
  - rewrite <- list_fmap_compose. apply NoDup_fmap_2_strong; [|apply NoDup_seqZ].
    intros x y _ _. unfold elem. cbn. lia.
  - apply list_elem_of_fmap. exists i. split; [done|]. apply elem_of_seqZ. lia.
Qed.

Lemma racey_loop_ok n num :
  prog_within (addr_ok (calc_objid_racey g_m) MAX_ELEM (init_elems g_m)) (racey_loop g_m n num) ∧
  makes (racey_loop g_m n num) (3 * n).
Proof.
  revert num. induction n as [|n IH]; intros num; [done|].
  assert (∀ x, addr_ok (calc_objid_racey g_m) MAX_ELEM (init_elems g_m) (elem g_m (x mod MAX_ELEM))) as Hok.
  { intros x. by apply elem_ok, Z.mod_pos_bound. }
  replace (3 * S n)%nat with (S (S (S (3 * n)))) by lia. cbn. split_and!; [apply Hok| |].
  - intros v. split_and!; [apply Hok|]. intros w. split; [apply Hok|]. apply IH.
  - intros v w. apply IH.
Qed.

(** racey is a client the tools can count: 45 million accesses at most. *)
Lemma racey_client max_loop NumProcs C : racey g_m max_loop NumProcs = Ok C →
  (max_loop ≤ Z.to_nat MAX_LOOP)%nat → client_ok C (3 * max_loop).
Proof.
  unfold racey. intros H Hl. apply bind_Ok in H as ([] & Hn%c_assert_Ok & [= <-]).
  assert (∀ p, p ∈ ThreadBody g_m max_loop <$> seqZ 0 NumProcs → ∃ t, p = racey_loop g_m max_loop t) as Hp.
  { intros p (t & -> & _)%list_elem_of_fmap. by exists t. }
  constructor; cbn [cl_objid cl_nobj cl_mem cl_threads].
  - apply list.Forall_forall. intros p (t & ->)%Hp. apply racey_loop_ok.
  - apply list.Forall_forall. intros p (t & ->)%Hp. apply racey_loop_ok.
  - unfold MAX_ELEM. lia.
  - rewrite length_fmap, length_seqZ. lia.
  - rewrite length_fmap, length_seqZ. unfold MAX_LOOP in Hl. nia.
Qed.

(** Two executables of racey, with [g_m] at different addresses. *)
Context (g_m' : Z).
Definition racey_move (a : Z) : Z := a - g_m + g_m'.

Lemma racey_move_elem i : racey_move (elem g_m i) = elem g_m' i.
Proof. unfold racey_move, elem. lia. Qed.

Lemma racey_loop_moved n num :
  moved racey_move (addr_ok (calc_objid_racey g_m) MAX_ELEM (init_elems g_m))
    (racey_loop g_m n num) (racey_loop g_m' n num).
Proof.
  revert num. induction n as [|n IH]; intros num; [constructor|]. cbn [racey_loop].
  rewrite <- (racey_move_elem (num mod MAX_ELEM)). constructor; [by apply elem_ok, Z.mod_pos_bound|]. intros v.
  rewrite <- (racey_move_elem (mix num v mod MAX_ELEM)). constructor; [by apply elem_ok, Z.mod_pos_bound|].
  intros w. constructor; [by apply elem_ok, Z.mod_pos_bound|]. apply IH.
Qed.

Lemma racey_moved max_loop NumProcs C C' :
  racey g_m max_loop NumProcs = Ok C → racey g_m' max_loop NumProcs = Ok C' → moved_client racey_move C C'.
Proof.
  unfold racey. intros HC HC'. outcome_inv. split; cbn [cl_objid cl_nobj cl_mem cl_threads].
  - done.
  - split.
    + intros a b _ _. unfold racey_move. lia.
    + intros a _. unfold calc_objid_racey, racey_move. do 3 f_equal. lia.
    + intros a _. unfold init_elems.
      rewrite <- (array_moved racey_move (elem g_m) (λ i, mix i i)) by (unfold racey_move; lia).
      do 2 f_equal. apply list_fmap_ext. intros _ i _. by rewrite racey_move_elem.
  - apply Forall2_fmap, Forall_Forall2_diag, list.Forall_forall. intros t _. apply racey_loop_moved.
Qed.
End proof.

(** ** Properties *)

(** C25: [calc_objid_racey]'s assertion never fails, and every access of every
    thread is to an element of the array; what every finished recording of racey
    prints, by any recorder, is what every finished replay by another executable,
    with the array elsewhere, prints, and the elements themselves are the same. *)
Theorem racey_replays R `{!recorder_ok R} (Q : prio_queue qe_gt) `{!prio_queue_ok Q} addr
    g_m g_m' max_loop NumProcs C C' acts c :
  (∀ path i, addr path i mod PAGE_SIZE = 0) → (max_loop ≤ Z.to_nat MAX_LOOP)%nat →
  racey g_m max_loop NumProcs = Ok C → racey g_m' max_loop NumProcs = Ok C' →
  client_recording R C acts c →
  Forall (prog_within (λ a, is_Some (cl_mem C !! a) ∧ 0 ≤ calc_objid_racey g_m a < MAX_ELEM))
    (cl_threads C) ∧
  replays R Q addr C C' c (λ r,
    let n := Z.to_nat NumProcs in
    racey_output (replayed_results n r) = racey_output (recorded_results n c) ∧
    ∀ i, 0 ≤ i < MAX_ELEM → r_mem r !! elem g_m' i = m_data (t_mem c) !! elem g_m i).
Proof.
  intros Haddr Hl HC HC' Hrec. pose proof (racey_client g_m max_loop NumProcs C HC Hl) as Hok.
  pose proof (racey_moved g_m g_m' max_loop NumProcs C C' HC HC') as Hmv.
  apply bind_Ok in HC as ([] & Hn%c_assert_Ok & [= <-]). split; [apply (co_within _ _ Hok)|].
  eapply replays_impl; [|by eapply client_replay]. cbn [cl_objid cl_nobj cl_threads cl_mem].
  rewrite length_fmap, length_seqZ. intros r [Hm ->]. split; [done|].
  intros i Hi. rewrite <- (racey_move_elem g_m g_m'). by apply Hm, elem_ok.
Qed.

(** ** A concrete recording: two threads, four loops each. *)

Definition rdemo_client : client :=
  value (Client (λ a, a) 0 ∅ []) (racey 4096 4 2).

Definition rdemo_moved : client :=
  value (Client (λ a, a) 0 ∅ []) (racey 65536 4 2).

Definition rdemo_acts : list action :=
  concat (replicate 150 [Exec 0; Exec 1; Exec 0; Drain 1; Exec 1; Drain 0]).

Definition rdemo_start : tstate seqlock_recorder :=
  value (TState (TMem ∅ ∅ ∅) ∅)
    (tinit seqlock_recorder MAX_ELEM (init_elems 4096) (map_seqZ 0 (ThreadBody 4096 4 <$> [0; 1]))).

Definition rdemo_end : tstate seqlock_recorder :=
  value rdemo_start (trun seqlock_recorder (calc_objid_racey 4096) rdemo_acts rdemo_start).

Lemma racey_replays_witness :
  replays seqlock_recorder (sorted_queue qe_gt) demo_path_addr rdemo_client rdemo_moved rdemo_end (λ r,
    racey_output (replayed_results 2 r) = racey_output (recorded_results 2 rdemo_end) ∧
    ∀ i, 0 ≤ i < MAX_ELEM → r_mem r !! elem 65536 i = m_data (t_mem rdemo_end) !! elem 4096 i).
Proof.
  apply (racey_replays seqlock_recorder (sorted_queue qe_gt) demo_path_addr 4096 65536 4 2 rdemo_client
           rdemo_moved rdemo_acts rdemo_end (λ _, demo_addr_aligned)).
  - unfold MAX_LOOP. lia.
  - apply value_ok. reflexivity.
  - apply value_ok. reflexivity.
  - exists rdemo_start. split_and!.
    + apply value_ok. vm_compute. reflexivity.
    + apply value_ok. vm_compute. reflexivity.
    + apply (bool_decide_unpack _). vm_compute. exact I.
Defined.
