(* ===== verification/Addcnt.v ===== *)
(** * Addcnt: the client [addcnt.c]

    Ten counters and four thread functions that read and write them in different
    orders. *)
From stdpp Require Import strings.
From S2P Require Import Prelude Mem MappedLog Text Record Batch History SeqlockTso SeqlockTsoProof Reloc.
From S2P Require Import PQueue KWay Merge Sched Replay ReplayProof Pipeline TsoCorrectness ReplayTso TsoReplay Clients.

(** ** The program *)

Definition NOBJS : Z := 10.
Definition NITER : Z := 20000.

Section addcnt.
(** The address [posix_memalign] returned for [g_obj], and the 32-bit words that
    memory holds: an object is two of them. *)
Context (g_obj : Z) (init : Z → Z).

Definition addcnt_mem : gmap Z Z :=
  list_to_map ((λ i, (g_obj + 4 * i, init i)) <$> seqZ 0 (2 * NOBJS)).

(** [&g_obj[j]]. *)
Definition obj (j : Z) : Z := g_obj + 8 * j.

Definition calc_objid_addcnt (addr : Z) : Z := wrap_s 32 (Z.shiftr (addr - g_obj) 3).

(** One round of [access_thr_fn1] and [access_thr_fn2]: read each object and write
    it back increased, for the objects [js] in turn. *)
Definition incr_round (js : list Z) (p : prog) : prog :=
  foldr (λ j p, PRead (obj j) (λ val, PWrite (obj j) (wrap_u 32 (val + 1)) p)) p js.

(** One round of [access_thr_fn3] and [access_thr_fn4]: each pair of [js] is an
    object and its neighbour. *)
Definition pair_round (js : list (Z * Z)) (p : prog) : prog :=
  foldr (λ '(j, j1) p,
    PRead (obj j) (λ val, PWrite (obj j1) (wrap_u 32 (val + 1))
      (PRead (obj j1) (λ val, PWrite (obj j) (wrap_u 32 (val + 2)) p)))) p js.

(** The loops over the objects. *)
Definition up : list Z := seqZ 0 NOBJS.
Definition down : list Z := reverse (seqZ 0 NOBJS).
Definition pairs_up : list (Z * Z) := (λ k, (2 * k, 2 * k + 1)) <$> seqZ 0 5.
Definition pairs_down : list (Z * Z) := (λ k, (9 - 2 * k, 9 - 2 * k - 1)) <$> seqZ 0 5.

(** The thread functions; [niter] is [NITER] in the source. *)
Definition access_thr_fn1 (niter : nat) : prog := Nat.iter niter (incr_round up) (PRet 0).
Definition access_thr_fn2 (niter : nat) : prog := Nat.iter niter (incr_round down) (PRet 0).
Definition access_thr_fn3 (niter : nat) : prog := Nat.iter niter (pair_round pairs_up) (PRet 0).
Definition access_thr_fn4 (niter : nat) : prog := Nat.iter niter (pair_round pairs_down) (PRet 0).

Definition thr_fn (niter : nat) : list prog :=
  [access_thr_fn1 niter; access_thr_fn2 niter; access_thr_fn3 niter; access_thr_fn4 niter].

(** [i % sizeof(thr_fn)/sizeof(thr_fn[0])], with function pointers of 8 bytes: [%]
    and [/] associate to the left. *)
Definition thr_fn_index (i : Z) : Z := i mod 32 / 8.

(** The thread [main] creates as number [i]. *)
Definition thr_body (niter : nat) (i : Z) : outcome prog :=
  match thr_fn niter !! Z.to_nat (thr_fn_index i) with
  | Some p => Ok p
  | None => Err BadAccess
  end.

(** [main], up to [pthread_join]. *)
Definition addcnt (niter : nat) (nthr : Z) : outcome client :=
  ths ← mapM (thr_body niter) (seqZ 0 nthr);
  Ok (Client calc_objid_addcnt NOBJS addcnt_mem ths).
End addcnt.

(** [print_g_obj]: the threads write the lower word of an object. *)
Definition word (mem : gmap Z Z) (a : Z) : Z := default 0 (mem !! a).
Definition print_g_obj (g_obj : Z) (mem : gmap Z Z) : string :=
  text_of (λ j, (print_lx (word mem (obj g_obj j) + 2 ^ 32 * word mem (obj g_obj j + 4)) +:+ LF)%string)
    (seqZ 0 NOBJS).

(** ** Lemmas *)

Section proof.
Context (g_obj : Z) (init : Z → Z).
Local Abbreviation mem0 := (addcnt_mem g_obj init).
Local Abbreviation ok := (addr_ok (calc_objid_addcnt g_obj) NOBJS mem0).

Lemma calc_objid_half j h : 0 ≤ j < NOBJS → h = 0 ∨ h = 4 → calc_objid_addcnt g_obj (obj g_obj j + h) = j.
Proof.
  intros Hj Hh. unfold calc_objid_addcnt, obj, NOBJS in *.
  replace (g_obj + 8 * j + h - g_obj) with (j * 8 + h) by lia.
  rewrite Z.shiftr_div_pow2 by lia. change (2 ^ 3) with 8.
  rewrite Z.div_add_l, (Z.div_small h), Z.add_0_r by lia. apply wrap_s_id; lia.
Qed.

Lemma addcnt_mem_lookup i : 0 ≤ i < 2 * NOBJS → mem0 !! (g_obj + 4 * i) = Some (init i).
Proof.
  intros Hi. unfold addcnt_mem. apply elem_of_list_to_map_1.
  - rewrite <- list_fmap_compose. apply NoDup_fmap_2_strong; [|apply NoDup_seqZ].
    intros x y _ _. cbn. lia.
  - apply list_elem_of_fmap. exists i. split; [done|]. apply elem_of_seqZ. lia.
Qed.

Lemma addcnt_mem_inv a : is_Some (mem0 !! a) → ∃ i, 0 ≤ i < 2 * NOBJS ∧ a = g_obj + 4 * i.
Proof.
  intros [v Hv]. apply elem_of_list_to_map_2, list_elem_of_fmap in Hv as (i & E & Hi%elem_of_seqZ).
  injection E as -> _. exists i. split; [lia|done].
Qed.

(** Both words of an object are allocated. *)
Lemma half_ok j h : 0 ≤ j < NOBJS → h = 0 ∨ h = 4 → ok (obj g_obj j + h).
Proof.
  intros Hj Hh. split; [|by rewrite calc_objid_half].
  assert (∃ i, 0 ≤ i < 2 * NOBJS ∧ obj g_obj j + h = g_obj + 4 * i) as (i & Hi & ->).
  { unfold obj, NOBJS in *. destruct Hh as [-> | ->]; [exists (2 * j)|exists (2 * j + 1)]; lia. }
  rewrite addcnt_mem_lookup by done. eauto.
Qed.

Lemma obj_ok j : 0 ≤ j < NOBJS → ok (obj g_obj j).
Proof. intros Hj. rewrite <- (Z.add_0_r (obj g_obj j)). apply half_ok; auto. Qed.

Lemma incr_round_ok js p n : Forall (λ j, 0 ≤ j < NOBJS) js → prog_within ok p → makes p n →
  prog_within ok (incr_round g_obj js p) ∧ makes (incr_round g_obj js p) (2 * length js + n).
Proof.
  intros Hj Hp Hn. induction Hj as [|j js Hj _ [IH1 IH2]]; [done|].
  replace (2 * length (j :: js) + n)%nat with (S (S (2 * length js + n))) by (cbn; lia).
  cbn. split_and!; try by apply obj_ok. intros _. split; [by apply obj_ok|done]. done.
Qed.

Lemma pair_round_ok js p n : Forall (λ '(j, j1), 0 ≤ j < NOBJS ∧ 0 ≤ j1 < NOBJS) js →
  prog_within ok p → makes p n →
  prog_within ok (pair_round g_obj js p) ∧ makes (pair_round g_obj js p) (4 * length js + n).
Proof.
  intros Hj Hp Hn. induction Hj as [|[j j1] js [Hj Hj1] _ [IH1 IH2]]; [done|].
  replace (4 * length ((j, j1) :: js) + n)%nat with (S (S (S (S (4 * length js + n))))) by (cbn; lia).
  cbn. split_and!; try by apply obj_ok.
  - intros _. split_and!; try by apply obj_ok. intros _. split; [by apply obj_ok|done].
  - done.
Qed.

Lemma rounds_ok (f : prog → prog) niter :
  (∀ p n, prog_within ok p → makes p n → prog_within ok (f p) ∧ makes (f p) (20 + n)) →
  prog_within ok (Nat.iter niter f (PRet 0)) ∧ makes (Nat.iter niter f (PRet 0)) (20 * niter).
Proof.
  intros Hf. induction niter as [|niter [IH1 IH2]]; [done|].
  replace (20 * S niter)%nat with (20 + 20 * niter)%nat by lia. by apply Hf.
Qed.

Lemma loops_in_range : Forall (λ j, 0 ≤ j < NOBJS) up ∧ Forall (λ j, 0 ≤ j < NOBJS) down ∧
  Forall (λ '(j, j1), 0 ≤ j < NOBJS ∧ 0 ≤ j1 < NOBJS) pairs_up ∧
  Forall (λ '(j, j1), 0 ≤ j < NOBJS ∧ 0 ≤ j1 < NOBJS) pairs_down.
Proof. unfold NOBJS. split_and!; repeat (constructor; [cbn; lia|]); constructor. Qed.

(** Every thread function makes twenty accesses a round. *)
Lemma thr_fn_ok niter p : p ∈ thr_fn g_obj niter → prog_within ok p ∧ makes p (20 * niter).
Proof.
  intros Hp. destruct loops_in_range as (H1 & H2 & H3 & H4).
  unfold thr_fn in Hp. repeat (apply elem_of_cons in Hp as [->|Hp]); [..|by apply not_elem_of_nil in Hp];
    apply rounds_ok; intros p n Hp Hn.
  - apply (incr_round_ok up p n H1 Hp Hn).
  - apply (incr_round_ok down p n H2 Hp Hn).
  - apply (pair_round_ok pairs_up p n H3 Hp Hn).
  - apply (pair_round_ok pairs_down p n H4 Hp Hn).
Qed.

Lemma thr_body_ok niter i : 0 ≤ i →
  ∃ p, thr_body g_obj niter i = Ok p ∧ p ∈ thr_fn g_obj niter.
Proof.
  intros Hi. unfold thr_body. destruct (lookup_lt_is_Some_2 (thr_fn g_obj niter) (Z.to_nat (thr_fn_index i)))
    as [p Hp].
  - assert (0 ≤ thr_fn_index i < 4); [|cbn; lia]. unfold thr_fn_index.
    pose proof (Z.mod_pos_bound i 32). split; [apply Z.div_pos|apply Z.div_lt_upper_bound]; lia.
  - rewrite Hp. exists p. split; [done|]. by eapply list_elem_of_lookup_2.
Qed.

Lemma addcnt_client niter nthr C : addcnt g_obj init niter nthr = Ok C → 0 ≤ nthr ≤ 127 →
  (niter ≤ Z.to_nat NITER)%nat →
  client_ok C (20 * niter).
Proof.
  intros H Hn Hi. unfold addcnt in H.
  destruct (mapM_exists (thr_body g_obj niter) (λ _ p, p ∈ thr_fn g_obj niter) (seqZ 0 nthr))
    as (ths & Hths & HF).
  { intros i Hr%elem_of_seqZ. apply thr_body_ok. lia. }
  rewrite Hths in H. cbn in H. injection H as <-.
  assert (∀ p, p ∈ ths → prog_within ok p ∧ makes p (20 * niter)) as Hall.
  { intros p [i Hp]%list_elem_of_lookup_1. destruct (Forall2_lookup_r _ _ _ _ _ HF Hp) as (_ & _ & ?).
    by apply thr_fn_ok. }
  apply Forall2_length in HF. rewrite length_seqZ in HF.
  constructor; cbn [cl_objid cl_nobj cl_mem cl_threads].
  - apply list.Forall_forall. intros p Hp. by apply Hall.
  - apply list.Forall_forall. intros p Hp. by apply Hall.
  - unfold NOBJS. lia.
  - lia.
  - unfold NITER in Hi. nia.
Qed.

(** *** Two executables

    [g_obj] is at different addresses, and the memory [posix_memalign] returned
    holds different words.  What the threads compute is an object's first word plus
    a number: [own] says that it is always the first word of the same object. *)
Context (g_obj' : Z) (init' : Z → Z) (own : Prop).
Definition addcnt_move (a : Z) : Z := a - g_obj + g_obj'.

Definition addcnt_val (a v v' : Z) : Prop :=
  let w := (a - g_obj) / 4 in
  if Z.even w then
    ∃ i d, 0 ≤ i < NOBJS ∧ (own → i = w / 2) ∧
      v = wrap_u 32 (init (2 * i) + d) ∧ v' = wrap_u 32 (init' (2 * i) + d)
  else v = init w ∧ v' = init' w.

Local Abbreviation re := (related addcnt_move ok addcnt_val).

Lemma addcnt_move_obj j : addcnt_move (obj g_obj j) = obj g_obj' j.
Proof. unfold addcnt_move, obj. lia. Qed.

Lemma addcnt_val_word w v v' : addcnt_val (g_obj + 4 * w) v v' ↔
  if Z.even w then
    ∃ i d, 0 ≤ i < NOBJS ∧ (own → i = w / 2) ∧
      v = wrap_u 32 (init (2 * i) + d) ∧ v' = wrap_u 32 (init' (2 * i) + d)
  else v = init w ∧ v' = init' w.
Proof. unfold addcnt_val. replace ((g_obj + 4 * w - g_obj) / 4) with w; [done|]. apply Z.div_unique_exact; lia. Qed.

Lemma addcnt_val_obj j v v' : addcnt_val (obj g_obj j) v v' ↔
  ∃ i d, 0 ≤ i < NOBJS ∧ (own → i = j) ∧
    v = wrap_u 32 (init (2 * i) + d) ∧ v' = wrap_u 32 (init' (2 * i) + d).
Proof.
  replace (obj g_obj j) with (g_obj + 4 * (2 * j)) by (unfold obj; lia). rewrite addcnt_val_word, Z.even_mul.
  cbn [orb Z.even]. by replace (2 * j / 2) with j by (apply Z.div_unique_exact; lia).
Qed.

(** Adding to a word that was read, for the same object or, if threads mix them, for
    another one. *)
Lemma addcnt_val_add j k c v v' : (own → j = k) → addcnt_val (obj g_obj j) v v' →
  addcnt_val (obj g_obj k) (wrap_u 32 (v + c)) (wrap_u 32 (v' + c)).
Proof.
  rewrite !addcnt_val_obj. intros Hk (i & d & Hi & Ho & -> & ->). exists i, (d + c).
  split_and!; [apply Hi|apply Hi|intros ?; rewrite Ho by done; auto| |];
    unfold wrap_u; rewrite Zplus_mod_idemp_l; f_equal; lia.
Qed.

Lemma incr_round_related js p p' : Forall (λ j, 0 ≤ j < NOBJS) js → re p p' →
  re (incr_round g_obj js p) (incr_round g_obj' js p').
Proof.
  intros Hj Hp. induction Hj as [|j js Hj _ IH]; [done|]. cbn. rewrite <- !addcnt_move_obj.
  constructor; [by apply obj_ok|]. intros v v' Hv. constructor; [by apply obj_ok| |done].
  by apply (addcnt_val_add j).
Qed.

Lemma pair_round_related js p p' : Forall (λ '(j, j1), 0 ≤ j < NOBJS ∧ 0 ≤ j1 < NOBJS) js → ¬ own → re p p' →
  re (pair_round g_obj js p) (pair_round g_obj' js p').
Proof.
  intros Hj Ho Hp. induction Hj as [|[j j1] js [Hj Hj1] _ IH]; [done|]. cbn. rewrite <- !addcnt_move_obj.
  constructor; [by apply obj_ok|]. intros v v' Hv.
  constructor; [by apply obj_ok|by apply (addcnt_val_add j)|].
  constructor; [by apply obj_ok|]. intros x x' Hx.
  constructor; [by apply obj_ok|by apply (addcnt_val_add j1)|done].
Qed.

Lemma rounds_related (h h' : prog → prog) niter : (∀ p p', re p p' → re (h p) (h' p')) →
  re (Nat.iter niter h (PRet 0)) (Nat.iter niter h' (PRet 0)).
Proof. intros Hf. induction niter as [|niter IH]; [constructor|]. by apply Hf. Qed.

(** The first thread function keeps to one object, the last two do not. *)
Lemma thr_body_related niter i p p' : 0 ≤ i → (own → i < 8) →
  thr_body g_obj niter i = Ok p → thr_body g_obj' niter i = Ok p' → re p p'.
Proof.
  intros Hi Ho. destruct loops_in_range as (H1 & H2 & H3 & H4).
  assert (own → Z.to_nat (thr_fn_index i) = 0%nat) as H0.
  { intros Hown%Ho. unfold thr_fn_index. by rewrite Z.mod_small, Z.div_small by lia. }
  unfold thr_body. destruct (Z.to_nat (thr_fn_index i)) as [|[|[|[|n]]]]; [| | | |done];
    intros [= <-] [= <-]; apply rounds_related; intros q q' Hq.
  - by apply incr_round_related.
  - by apply incr_round_related.
  - apply pair_round_related; [done| |done]. by intros ?%H0.
  - apply pair_round_related; [done| |done]. by intros ?%H0.
Qed.

Lemma addcnt_mem_related : (∀ i, 0 ≤ init i < 2 ^ 32) → (∀ i, 0 ≤ init' i < 2 ^ 32) →
  related_mem addcnt_move ok addcnt_val mem0 (addcnt_mem g_obj' init').
Proof.
  intros Hi Hi' a [(i & Hr & ->)%addcnt_mem_inv _]. exists (init i), (init' i). split_and!.
  - by apply addcnt_mem_lookup.
  - replace (addcnt_move (g_obj + 4 * i)) with (g_obj' + 4 * i) by (unfold addcnt_move; lia).
    unfold addcnt_mem. apply elem_of_list_to_map_1.
    + rewrite <- list_fmap_compose. apply NoDup_fmap_2_strong; [|apply NoDup_seqZ]. intros x y _ _. cbn. lia.
    + apply list_elem_of_fmap. exists i. split; [done|]. apply elem_of_seqZ. lia.
  - apply addcnt_val_word. destruct (Z.even i) eqn:He; [|done]. apply Z.even_spec in He as [k ->].
    unfold NOBJS in *. exists k, 0.
    rewrite !Z.add_0_r, !wrap_u_id by (apply Hi || apply Hi'). split_and!; [lia|lia| |done|done].
    intros _. apply Z.div_unique_exact; lia.
Qed.

Lemma addcnt_related niter nthr C C' : (∀ i, 0 ≤ init i < 2 ^ 32) → (∀ i, 0 ≤ init' i < 2 ^ 32) →
  (own → nthr ≤ 8) →
  addcnt g_obj init niter nthr = Ok C → addcnt g_obj' init' niter nthr = Ok C' →
  related_client addcnt_move addcnt_val C C'.
Proof.
  intros Hi Hi' Ho HC HC'. unfold addcnt in *. apply bind_Ok in HC as (ths & Hths%mapM_Ok & [= <-]).
  apply bind_Ok in HC' as (ths' & Hths'%mapM_Ok & [= <-]). split; cbn [cl_objid cl_nobj cl_mem cl_threads].
  - done.
  - intros a b _ _. unfold addcnt_move. lia.
  - intros a _. unfold calc_objid_addcnt, addcnt_move. do 2 f_equal. lia.
  - by apply addcnt_mem_related.
  - apply Forall2_same_length_lookup_2.
    { apply Forall2_length in Hths, Hths'. congruence. }
    intros k p p' Hp Hp'. destruct (Forall2_lookup_r _ _ _ _ _ Hths Hp) as (i & Hk & H).
    destruct (Forall2_lookup_r _ _ _ _ _ Hths' Hp') as (i' & Hk' & H'). rewrite Hk in Hk'.
    injection Hk' as <-. apply lookup_seqZ in Hk as [-> Hlt].
    eapply thr_body_related; [..|done|done]; [lia|]. intros ?%Ho. lia.
Qed.
End proof.

(** ** What is printed *)

Lemma print_g_obj_eq g_obj g_obj' m m' :
  (∀ j h, 0 ≤ j < NOBJS → h = 0 ∨ h = 4 → word m' (obj g_obj' j + h) = word m (obj g_obj j + h)) →
  print_g_obj g_obj' m' = print_g_obj g_obj m.
Proof.
  intros Hm. unfold print_g_obj. assert (Forall (λ j, 0 ≤ j < NOBJS) (seqZ 0 NOBJS)) as HF.
  { apply list.Forall_forall. intros j Hj%elem_of_seqZ. lia. }
  induction HF as [|j l Hj _ IH]; [done|]. rewrite !text_of_cons, IH.
  pose proof (Hm j 4 Hj ltac:(auto)) as H4. pose proof (Hm j 0 Hj ltac:(auto)) as H0.
  rewrite !Z.add_0_r in H0. by rewrite H0, H4.
Qed.

Lemma print_g_obj_inj g_obj g_obj' m m' :
  (∀ j h, 0 ≤ j < NOBJS → h = 0 ∨ h = 4 →
    0 ≤ word m (obj g_obj j + h) < 2 ^ 32 ∧ 0 ≤ word m' (obj g_obj' j + h) < 2 ^ 32) →
  print_g_obj g_obj' m' = print_g_obj g_obj m →
  ∀ j h, 0 ≤ j < NOBJS → h = 0 ∨ h = 4 → word m' (obj g_obj' j + h) = word m (obj g_obj j + h).
Proof.
  intros Hr E j h Hj Hh.
  pose proof (Hr j 0 Hj ltac:(auto)) as [H0 H0']. pose proof (Hr j 4 Hj ltac:(auto)) as [H4 H4'].
  unfold print_g_obj in E. apply text_of_inj with (x := j) in E;
    [|intros; apply print_lx_no_LF..|apply elem_of_seqZ; lia].
  rewrite !Z.add_0_r in H0, H0'. apply print_lx_inj in E; [|lia..].
  destruct Hh as [-> | ->]; rewrite ?Z.add_0_r; lia.
Qed.

(** The words of a recording and of a replay that are related, and what is printed. *)
Lemma addcnt_outputs g_obj g_obj' init init' own m m' :
  (∀ i, 0 ≤ init i < 2 ^ 32) → (∀ i, 0 ≤ init' i < 2 ^ 32) →
  (∀ j h, 0 ≤ j < NOBJS → h = 0 ∨ h = 4 → ∃ v v', m !! (obj g_obj j + h) = Some v ∧
    m' !! addcnt_move g_obj g_obj' (obj g_obj j + h) = Some v' ∧
    addcnt_val g_obj init init' own (obj g_obj j + h) v v') →
  (∀ j, 0 ≤ j < NOBJS → ∃ i d, 0 ≤ i < NOBJS ∧ (own → i = j) ∧
    word m (obj g_obj j + 0) = wrap_u 32 (init (2 * i) + d) ∧
    word m' (obj g_obj' j + 0) = wrap_u 32 (init' (2 * i) + d)) ∧
  (∀ j, 0 ≤ j < NOBJS → word m (obj g_obj j + 4) = init (2 * j + 1) ∧ word m' (obj g_obj' j + 4) = init' (2 * j + 1)) ∧
  ((∀ k, 0 ≤ k < 2 * NOBJS → init' k = init k) → print_g_obj g_obj' m' = print_g_obj g_obj m) ∧
  (own → print_g_obj g_obj' m' = print_g_obj g_obj m → ∀ k, 0 ≤ k < 2 * NOBJS → init' k = init k).
Proof.
  intros Hr Hr' Hm.
  assert (∀ j h, addcnt_move g_obj g_obj' (obj g_obj j + h) = obj g_obj' j + h) as Emv
    by (intros; unfold addcnt_move, obj; lia).
  assert (∀ j, 0 ≤ j < NOBJS → ∃ i d, 0 ≤ i < NOBJS ∧ (own → i = j) ∧
    word m (obj g_obj j + 0) = wrap_u 32 (init (2 * i) + d) ∧
    word m' (obj g_obj' j + 0) = wrap_u 32 (init' (2 * i) + d)) as Hlow.
  { intros j Hj. destruct (Hm j 0 Hj ltac:(auto)) as (v & v' & Hv & Hv' & Hw). rewrite Emv in Hv'.
    unfold word. rewrite Hv, Hv'. rewrite Z.add_0_r in Hw. by apply addcnt_val_obj in Hw. }
  assert (∀ j, 0 ≤ j < NOBJS → word m (obj g_obj j + 4) = init (2 * j + 1) ∧
    word m' (obj g_obj' j + 4) = init' (2 * j + 1)) as Hup.
  { intros j Hj. destruct (Hm j 4 Hj ltac:(auto)) as (v & v' & Hv & Hv' & Hw). rewrite Emv in Hv'.
    unfold word. rewrite Hv, Hv'. replace (obj g_obj j + 4) with (g_obj + 4 * (2 * j + 1)) in Hw by (unfold obj; lia).
    apply addcnt_val_word in Hw. by rewrite Z.even_add, Z.even_mul in Hw. }
  split_and!; [done|done|..].
  - intros Hs. apply print_g_obj_eq. intros j h Hj [-> | ->].
    + destruct (Hlow j Hj) as (i & d & Hi & _ & -> & ->). rewrite Hs; [done|unfold NOBJS in *; lia].
    + destruct (Hup j Hj) as [-> ->]. apply Hs. unfold NOBJS in *. lia.
  - intros Hown Hp k Hk.
    assert (∀ j h, 0 ≤ j < NOBJS → h = 0 ∨ h = 4 → word m' (obj g_obj' j + h) = word m (obj g_obj j + h)) as Hw.
    { apply print_g_obj_inj; [|done]. intros j h Hj [-> | ->].
      - destruct (Hlow j Hj) as (i & d & _ & _ & -> & ->). split; by apply Z.mod_pos_bound.
      - destruct (Hup j Hj) as [-> ->]. by split. }
    destruct (Z.Even_or_Odd k) as [[j ->]|[j ->]].
    + assert (0 ≤ j < NOBJS) as Hj by lia. destruct (Hlow j Hj) as (i & d & _ & Hij & E & E').
      rewrite Hij in * by done. rewrite (Hw j 0 Hj), E in E' by auto. unfold wrap_u in E'.
      pose proof (Hr (2 * j)). pose proof (Hr' (2 * j)). Z.div_mod_to_equations. lia.
    + assert (0 ≤ j < NOBJS) as Hj by lia. destruct (Hup j Hj) as [E E']. rewrite <- E, <- E'. apply Hw; auto.
Qed.

Lemma thr_fn_index_eq q r : 0 ≤ q → 0 ≤ r < 8 → thr_fn_index (8 * q + r) = q mod 4.
Proof. intros Hq Hr. unfold thr_fn_index. Z.div_mod_to_equations. lia. Qed.

(** ** Properties *)

(** C27: addcnt never initializes its counters, and replaying it gives what is
    recorded up to that.  Whatever the memory [posix_memalign] returned held in the
    recording and in the replay, by another executable with the counters elsewhere:
    no replay fails, every fair one finishes, and in a finished one every counter is
    computed as in the recording, as the first word of the same object plus the same
    number, modulo 2^32, each from its own memory; the second word of a counter is
    as it was.  So equal memory gives equal output; and for at most eight threads,
    which keep the counters apart, the output is equal exactly if the memory was. *)
Theorem addcnt_replays R `{!recorder_ok R, !value_blind R} (Q : prio_queue qe_gt) `{!prio_queue_ok Q} addr
    g_obj g_obj' init init' niter nthr C C' acts c :
  (∀ path i, addr path i mod PAGE_SIZE = 0) → 0 ≤ nthr ≤ 127 → (niter ≤ Z.to_nat NITER)%nat →
  (∀ i, 0 ≤ init i < 2 ^ 32) → (∀ i, 0 ≤ init' i < 2 ^ 32) →
  addcnt g_obj init niter nthr = Ok C → addcnt g_obj' init' niter nthr = Ok C' →
  client_recording R C acts c →
  replays R Q addr C C' c (λ r,
    let recorded j h := word (m_data (t_mem c)) (obj g_obj j + h) in
    let replayed j h := word (r_mem r) (obj g_obj' j + h) in
    (∀ j, 0 ≤ j < NOBJS → ∃ i d, 0 ≤ i < NOBJS ∧ (nthr ≤ 8 → i = j) ∧
      recorded j 0 = wrap_u 32 (init (2 * i) + d) ∧ replayed j 0 = wrap_u 32 (init' (2 * i) + d)) ∧
    (∀ j, 0 ≤ j < NOBJS → recorded j 4 = init (2 * j + 1) ∧ replayed j 4 = init' (2 * j + 1)) ∧
    let same_output := print_g_obj g_obj' (r_mem r) = print_g_obj g_obj (m_data (t_mem c)) in
    let same_memory := ∀ k, 0 ≤ k < 2 * NOBJS → init' k = init k in
    (same_memory → same_output) ∧ (nthr ≤ 8 → same_output → same_memory)).
Proof.
  intros Haddr Hn Hi Hr Hr' HC HC' Hrec. pose proof (addcnt_client g_obj init niter nthr C HC Hn Hi) as Hok.
  pose proof (addcnt_related g_obj init g_obj' init' (nthr ≤ 8) niter nthr C C' Hr Hr' id HC HC') as Hre.
  apply bind_Ok in HC as (ths & _ & [= <-]).
  eapply replays_impl; [|eapply client_related_replay; [done..|apply blind_logs, _|exact Hre|exact Hrec]].
  cbn [cl_objid cl_nobj cl_threads cl_mem]. intros r [Hm _]. cbn zeta.
  apply addcnt_outputs; [done..|]. intros j h Hj Hh. by apply Hm, half_ok.
Qed.

(** C32: the index of [thr_fn] in [main] is in bounds for any number of threads,
    and it is the thread number divided by 8, modulo 4, not its remainder by 4:
    eight threads in a row run the same function, and the first eight all run
    [access_thr_fn1]. *)
Theorem addcnt_thread_functions g_obj init niter nthr :
  0 ≤ nthr →
  ∃ C, addcnt g_obj init niter nthr = Ok C ∧ Z.of_nat (length (cl_threads C)) = nthr ∧
    (∀ q r, 0 ≤ q → 0 ≤ r < 8 → 8 * q + r < nthr →
      cl_threads C !! Z.to_nat (8 * q + r) = thr_fn g_obj niter !! Z.to_nat (q mod 4)) ∧
    (∀ i, 0 ≤ i < nthr → i < 8 → cl_threads C !! Z.to_nat i = Some (access_thr_fn1 g_obj niter)).
Proof.
  intros Hn. unfold addcnt.
  destruct (mapM_exists (thr_body g_obj niter) (λ i p, thr_body g_obj niter i = Ok p) (seqZ 0 nthr))
    as (ths & -> & HF).
  { intros i Hi%elem_of_seqZ. destruct (thr_body_ok g_obj niter i) as (p & Hp & _); [lia|]. eauto. }
  assert (∀ q r, 0 ≤ q → 0 ≤ r < 8 → 8 * q + r < nthr →
    ths !! Z.to_nat (8 * q + r) = thr_fn g_obj niter !! Z.to_nat (q mod 4)) as Hq.
  { intros q r Hq Hr Hlt.
    destruct (Forall2_lookup_l _ _ _ (Z.to_nat (8 * q + r)) (8 * q + r) HF) as (p & -> & Hp).
    { apply lookup_seqZ. lia. }
    unfold thr_body in Hp. rewrite thr_fn_index_eq in Hp by lia.
    destruct (thr_fn g_obj niter !! _); [by injection Hp as ->|done]. }
  eexists. split_and!; [done|..]; cbn [cl_threads].
  - apply Forall2_length in HF. rewrite length_seqZ in HF. lia.
  - done.
  - intros i Hi H8. pose proof (Hq 0 i ltac:(lia) ltac:(lia) ltac:(lia)) as E.
    rewrite Z.mul_0_r, Z.add_0_l in E. by rewrite E.
Qed.

(** ** A concrete recording: two threads, one round each. *)

(** The two executables find different words in the memory they were given. *)
Definition ademo_init (i : Z) : Z := if decide (0 ≤ i < 100) then 5 + i else 0.
Definition ademo_init' (i : Z) : Z := if decide (0 ≤ i < 100) then 2 ^ 32 - 1 - i else 0.

Definition ademo_client : client := value (Client (λ a, a) 0 ∅ []) (addcnt 4096 ademo_init 1 2).
Definition ademo_moved : client := value (Client (λ a, a) 0 ∅ []) (addcnt 65536 ademo_init' 1 2).

Definition ademo_acts : list action :=
  concat (replicate 250 [Exec 0; Exec 1; Exec 0; Drain 1; Exec 1; Drain 0]).

Definition ademo_start : tstate rtmcluster_recorder :=
  value (TState (TMem ∅ ∅ ∅) ∅)
    (tinit rtmcluster_recorder NOBJS (addcnt_mem 4096 ademo_init) (map_seqZ 0 (cl_threads ademo_client))).

Definition ademo_end : tstate rtmcluster_recorder :=
  value ademo_start (trun rtmcluster_recorder (calc_objid_addcnt 4096) ademo_acts ademo_start).

(** So what the replay prints is not what was recorded. *)
Lemma addcnt_replays_witness :
  replays rtmcluster_recorder (sorted_queue qe_gt) demo_path_addr ademo_client ademo_moved ademo_end (λ r,
    word (r_mem r) 65536 = wrap_u 32 (2 ^ 32 - 1 + (word (m_data (t_mem ademo_end)) 4096 - 5)) ∧
    print_g_obj 65536 (r_mem r) ≠ print_g_obj 4096 (m_data (t_mem ademo_end))).
Proof.
  eapply replays_impl; [|apply (addcnt_replays rtmcluster_recorder (sorted_queue qe_gt) demo_path_addr 4096 65536
           ademo_init ademo_init' 1 2 ademo_client ademo_moved ademo_acts ademo_end (λ _, demo_addr_aligned))].
  - cbn zeta. intros r (Hlow & _ & _ & Hne). split.
    + destruct (Hlow 0) as (i & d & _ & Hi & E & E'); [unfold NOBJS; lia|]. rewrite Hi in E, E' by lia.
      change (obj 65536 0 + 0) with 65536 in E'. change (obj 4096 0 + 0) with 4096 in E. rewrite E, E'.
      unfold ademo_init, ademo_init', wrap_u. rewrite !decide_True by lia. Z.div_mod_to_equations. lia.
    + intros E. specialize (Hne ltac:(lia) E 0 ltac:(unfold NOBJS; lia)). discriminate Hne.
  - lia.
  - unfold NITER. lia.
  - intros i. unfold ademo_init. case_decide; lia.
  - intros i. unfold ademo_init'. case_decide; lia.
  - apply value_ok. reflexivity.
  - apply value_ok. reflexivity.
  - exists ademo_start. split_and!.
    + apply value_ok. vm_compute. reflexivity.
    + apply value_ok. vm_compute. reflexivity.
    + apply (bool_decide_unpack _). vm_compute. exact I.
Defined.

(** Forty threads: the last eight run [access_thr_fn1] again. *)
Lemma addcnt_thread_functions_witness :
  ∃ C, addcnt 4096 ademo_init 3 40 = Ok C ∧ Z.of_nat (length (cl_threads C)) = 40 ∧
    (∀ q r, 0 ≤ q → 0 ≤ r < 8 → 8 * q + r < 40 →
      cl_threads C !! Z.to_nat (8 * q + r) = thr_fn 4096 3 !! Z.to_nat (q mod 4)) ∧
    (∀ i, 0 ≤ i < 40 → i < 8 → cl_threads C !! Z.to_nat i = Some (access_thr_fn1 4096 3)).
Proof. apply (addcnt_thread_functions 4096 ademo_init 3 40). lia. Defined.
