(* ===== verification/Infer.v ===== *)
(** * Infer: the tool [infer.c]

    It turns a thread's text log of reads into write-after-read constraints: for
    each line that names an earlier read, by a [last_read_memop] that is not -1, it
    says which version the line before it of the same object has.
    Files are text here, a finite map from names to strings. *)
From Stdlib Require Import Ascii.
From stdpp Require Import strings pretty.
From S2P Require Import Prelude Paths Text.

#[local] Open Scope string_scope.
#[local] Open Scope Z_scope.

(** ** The program *)

(** A line of the read log, in the order of [fscanf]'s arguments. *)
Record read_line := ReadLine {
  rl_objid : Z;
  rl_version : Z;
  rl_read_memop : Z;
  rl_last_read_memop : Z }.

Abbreviation text_files := (gmap string string).

(** [fscanf(rlog, "%d %d %d %d\n", ...)]: the line if all four numbers are there,
    and where the stream is left. *)
Definition scan_line (s : string) : option read_line * stream :=
  match scan_d s with
  | (None, f) => (None, f)
  | (Some objid, f) =>
  match scan_d (s_rest (skip_space (s_rest f))) with
  | (None, f) => (None, f)
  | (Some version, f) =>
  match scan_d (s_rest (skip_space (s_rest f))) with
  | (None, f) => (None, f)
  | (Some read_memop, f) =>
  match scan_d (s_rest (skip_space (s_rest f))) with
  | (None, f) => (None, f)
  | (Some last_read_memop, f) =>
      (Some (ReadLine objid version read_memop last_read_memop), skip_space (s_rest f))
  end end end end.

(** [fprintf(warlog, "%d %d %d %d\n", ...)]. *)
Definition print_line (a b c d : Z) : string :=
  pretty a +:+ " " +:+ pretty b +:+ " " +:+ pretty c +:+ " " +:+ pretty d +:+ LF.

(** The loop of [main]: [rlog] is what is left of the read log, and
    [last_read_version] the array [malloc] returned.  Its result is the state of
    the read log when [fscanf] fails, and the text written. *)
Fixpoint infer_loop (fuel : nat) (tid : Z) (rlog : string) (last_read_version : gmap Z Z)
    (warlog : string) : outcome (stream * string) :=
  match fuel with
  | O => Err OutOfFuel
  | S fuel =>
      match scan_line rlog with
      | (None, f) => Ok (f, warlog)
      | (Some l, f) =>
          if decide (rl_last_read_memop l = -1) then
            last ← arr_set last_read_version (rl_objid l) (rl_version l);
            infer_loop fuel tid (s_rest f) last warlog
          else
            v ← arr_get last_read_version (rl_objid l);
            let warlog := warlog +:+ print_line (rl_objid l) v (rl_last_read_memop l) tid in
            last ← arr_set last_read_version (rl_objid l) (rl_version l);
            infer_loop fuel tid (s_rest f) last warlog
      end
  end.

Definition warpath (tid : Z) : string := "war-" +:+ pretty tid.

(** [main], with [g_nobj] and what the allocated memory holds, [junk], given: the
    text on the standard output and the files.  The log is opened before the
    output file is emptied, and read after. *)
Definition infer (g_nobj junk : Z) (argv : list string) (fs : text_files)
    : outcome (string * text_files) :=
  match argv with
  | [_; arg1; logfile] =>
      let tid := atoi arg1 in
      match fs !! logfile with
      | None => Err ExitFailure
      | Some _ =>
          let fs := <[warpath tid := ""]> fs in
          let rlog := default "" (fs !! logfile) in
          '(f, warlog) ← infer_loop (S (String.length rlog)) tid rlog (arr_make g_nobj junk) "";
          Ok (if s_eof f then "" else "Error in log" +:+ LF, <[warpath tid := warlog]> fs)
      end
  | _ => Err ExitFailure
  end.

(** [g_nobj] as [main] finds it: nothing in [infer.c] sets the variable that
    [mem.c] defines. *)
Definition infer_main (junk : Z) (argv : list string) (fs : text_files) :
    outcome (string * text_files) :=
  infer 0 junk argv fs.

(** ** The specification *)

(** A read log is the text of its lines. *)
Definition read_log (lines : list read_line) : string :=
  text_of (λ l, print_line (rl_objid l) (rl_version l) (rl_read_memop l) (rl_last_read_memop l)) lines.

Definition read_line_ok (g_nobj : Z) (l : read_line) : Prop :=
  0 ≤ rl_objid l < g_nobj ∧ int_range (rl_objid l) ∧ int_range (rl_version l) ∧
  int_range (rl_read_memop l) ∧ int_range (rl_last_read_memop l).

(** The version the last of [lines] that is about object [o] saw. *)
Definition last_version (junk : Z) (o : Z) (lines : list read_line) : Z :=
  foldl (λ v l, if decide (rl_objid l = o) then rl_version l else v) junk lines.

(** The constraint line [l] gives rise to after [before]. *)
Definition war_of (junk tid : Z) (before : list read_line) (l : read_line) : string :=
  if decide (rl_last_read_memop l = -1) then ""
  else print_line (rl_objid l) (last_version junk (rl_objid l) before) (rl_last_read_memop l) tid.

Fixpoint wars (junk tid : Z) (before lines : list read_line) : string :=
  match lines with
  | [] => ""
  | l :: lines => war_of junk tid before l +:+ wars junk tid (before ++ [l]) lines
  end.

(** ** Lemmas *)

Lemma scan_d_next z s : int_range z → ends_number s →
  scan_d (s_rest (skip_space (" " +:+ pretty z +:+ s))) = (Some z, Stream s (bool_decide (s = ""))).
Proof.
  intros Hz Hs. change (" " +:+ pretty z +:+ s) with (String " " (pretty z +:+ s)). cbn [skip_space].
  change (isspace " ") with true. cbn iota. rewrite skip_no_space_rest by apply pretty_no_space.
  by apply scan_d_pretty.
Qed.

(** A printed line is scanned back, with the white space after it. *)
Lemma scan_print_line a b c d s : int_range a → int_range b → int_range c → int_range d →
  scan_line (print_line a b c d +:+ s) = (Some (ReadLine a b c d), skip_space s).
Proof.
  intros Ha Hb Hc Hd. unfold print_line. rewrite !string_app_assoc.
  unfold scan_line. rewrite scan_d_pretty by done. cbn [s_rest].
  rewrite scan_d_next by done. cbn [s_rest]. rewrite scan_d_next by done. cbn [s_rest].
  rewrite scan_d_next by done. done.
Qed.

(** A scanned line uses up a character. *)
Lemma scan_line_length s l f : scan_line s = (Some l, f) →
  (String.length (s_rest f) < String.length s)%nat.
Proof.
  assert (∀ s z g, scan_d (s_rest (skip_space s)) = (Some z, g) →
    (String.length (s_rest g) < String.length s)%nat) as Hnext.
  { intros s' z g H%scan_d_length. pose proof (skip_space_length s'). lia. }
  unfold scan_line. intros H.
  destruct (scan_d s) as [[z1|] f1] eqn:E1; [apply scan_d_length in E1|done].
  destruct (scan_d _) as [[z2|] f2] eqn:E2 in H; [apply Hnext in E2|done].
  destruct (scan_d _) as [[z3|] f3] eqn:E3 in H; [apply Hnext in E3|done].
  destruct (scan_d _) as [[z4|] f4] eqn:E4 in H; [apply Hnext in E4|done].
  injection H as _ <-. pose proof (skip_space_length (s_rest f4)). lia.
Qed.

Lemma last_version_snoc junk o before l :
  last_version junk o (before ++ [l])
  = if decide (rl_objid l = o) then rl_version l else last_version junk o before.
Proof. unfold last_version. by rewrite foldl_snoc. Qed.

Lemma read_log_no_space lines tail : no_space tail → no_space (read_log lines +:+ tail).
Proof.
  destruct lines as [|l lines]; [done|]. intros _. unfold read_log. rewrite text_of_cons.
  unfold print_line. rewrite !string_app_assoc. apply pretty_no_space.
Qed.

(** The loop on the lines of a log, and then on a [tail] that is not a line. *)
Lemma infer_loop_ok junk tid g_nobj before lines tail f last warlog fuel :
  (∀ o, last !! o = if decide (0 ≤ o < g_nobj) then Some (last_version junk o before) else None) →
  Forall (read_line_ok g_nobj) lines →
  no_space tail → scan_line tail = (None, f) → (length lines < fuel)%nat →
  infer_loop fuel tid (read_log lines +:+ tail) last warlog
  = Ok (f, warlog +:+ wars junk tid before lines).
Proof.
  intros Hlast Hl Ht Hf. revert before last warlog fuel Hlast.
  induction Hl as [|l lines (Hl & Ho & Hv & Hr & Hlr) Hls IH]; intros before last warlog [|fuel] Hlast Hfuel;
    cbn [length] in Hfuel; [lia| |lia|].
  { cbn [infer_loop]. change (read_log [] +:+ tail) with tail. rewrite Hf. cbn [wars].
    by rewrite string_app_nil. }
  pose proof (Hlast (rl_objid l)) as Hg. rewrite decide_True in Hg by done.
  assert (∀ o, <[rl_objid l := rl_version l]> last !! o =
    if decide (0 ≤ o < g_nobj) then Some (last_version junk o (before ++ [l])) else None) as Hlast'.
  { intros o. rewrite last_version_snoc. destruct (decide (rl_objid l = o)) as [<-|Hne].
    - by rewrite lookup_insert_eq, decide_True.
    - rewrite lookup_insert_ne by done. apply Hlast. }
  pose proof (λ warlog, IH (before ++ [l])%list _ warlog fuel Hlast') as IHl. clear IH.
  change (read_log (l :: lines)) with (print_line (rl_objid l) (rl_version l) (rl_read_memop l)
    (rl_last_read_memop l) +:+ read_log lines).
  rewrite string_app_assoc. cbn [infer_loop wars]. rewrite scan_print_line by done.
  rewrite skip_no_space_rest by (by apply read_log_no_space). cbn [rl_last_read_memop rl_objid rl_version].
  unfold war_of. case_decide.
  - rewrite (arr_set_lookup _ _ _ _ Hg). cbn [mbind outcome_bind]. by rewrite IHl by lia.
  - rewrite (arr_get_lookup _ _ _ Hg), (arr_set_lookup _ _ _ _ Hg). cbn [mbind outcome_bind].
    rewrite IHl by lia. by rewrite string_app_assoc.
Qed.

Lemma print_line_length a b c d : (1 ≤ String.length (print_line a b c d))%nat.
Proof. unfold print_line. rewrite !string_length_app. change (String.length LF) with 1%nat. lia. Qed.

Lemma read_log_length lines : (length lines ≤ String.length (read_log lines))%nat.
Proof.
  induction lines as [|l lines IH]; [done|]. unfold read_log in *. rewrite text_of_cons, string_length_app.
  pose proof (print_line_length (rl_objid l) (rl_version l) (rl_read_memop l) (rl_last_read_memop l)).
  cbn [length]. lia.
Qed.

(** The loop ends. *)
Lemma infer_loop_fuel fuel tid rlog last warlog : (String.length rlog < fuel)%nat →
  infer_loop fuel tid rlog last warlog ≠ Err OutOfFuel.
Proof.
  revert rlog last warlog. induction fuel as [|fuel IH]; intros rlog last warlog Hf; [lia|].
  cbn [infer_loop]. destruct (scan_line rlog) as [[l|] f] eqn:E; [|done].
  apply scan_line_length in E. unfold arr_get, arr_set.
  repeat (case_match; cbn [mbind outcome_bind]; try done; try (apply IH; lia)).
Qed.

(** ** Properties *)

(** C36: infer run on a log that begins with the lines [lines], with an array large
    enough for their objects, and goes on with a [tail] from which [fscanf] does not
    read four numbers, writes to [war-<tid>] one line for every line of [lines] whose
    [last_read_memop] is not -1, in their order: its object, the version of the last
    line before it of the same object, whatever that line's [last_read_memop] (or
    what the array's memory held, if there is no such line), its [last_read_memop]
    and the thread.  It prints an error exactly if that last [fscanf] stopped before
    the end of the file: not for an empty tail, and not for one that the end of the
    file cuts off, such as [1 4]. *)
Theorem infer_writes_wars g_nobj junk cmd tid logfile lines tail f fs :
  int_range tid → Forall (read_line_ok g_nobj) lines →
  no_space tail → scan_line tail = (None, f) →
  logfile ≠ warpath tid → fs !! logfile = Some (read_log lines +:+ tail) →
  infer g_nobj junk [cmd; pretty tid; logfile] fs
  = Ok (if s_eof f then "" else "Error in log" +:+ LF, <[warpath tid := wars junk tid [] lines]> fs).
Proof.
  intros Ht Hl Htail Hf Hne Hfile. unfold infer. rewrite Hfile, atoi_pretty by done.
  rewrite lookup_insert_ne, Hfile by done.
  change (default "" (Some ?s)) with s.
  rewrite (infer_loop_ok junk tid g_nobj [] lines tail f).
  - cbn [mbind outcome_bind]. by rewrite insert_insert_eq.
  - intros o. by rewrite lookup_arr_make.
  - done.
  - done.
  - done.
  - rewrite string_length_app. pose proof (read_log_length lines). lia.
Qed.

(** C37: as it stands, with nothing that sets [g_nobj], infer accesses memory
    outside its array at the first line of a log; it ends normally only on a file
    that does not start with a line, from which it writes nothing. *)
Theorem infer_main_out_of_bounds junk cmd arg1 logfile text fs :
  fs !! logfile = Some text → logfile ≠ warpath (atoi arg1) →
  infer_main junk [cmd; arg1; logfile] fs
  = match scan_line text with
    | (Some _, _) => Err BadAccess
    | (None, f) => Ok (if s_eof f then "" else "Error in log" +:+ LF, <[warpath (atoi arg1) := ""]> fs)
    end.
Proof.
  intros Hfile Hne. unfold infer_main, infer. rewrite Hfile, lookup_insert_ne, Hfile by done.
  change (default "" (Some text)) with text. cbn [infer_loop]. destruct (scan_line text) as [[l|] f].
  - assert (arr_make 0 junk !! rl_objid l = None) as Hn.
    { rewrite lookup_arr_make. case_decide; [lia|done]. }
    unfold arr_set, arr_get. case_decide; by rewrite Hn.
  - cbn [mbind outcome_bind]. by rewrite insert_insert_eq.
Qed.

(** C38: infer ends on every command line and every set of files. *)
Theorem infer_terminates g_nobj junk argv fs : infer g_nobj junk argv fs ≠ Err OutOfFuel.
Proof.
  unfold infer. repeat case_match; try done. intros Hi.
  destruct (infer_loop _ _ _ _ _) as [[f warlog]|e] eqn:E; [done|].
  injection Hi as ->. revert E. apply infer_loop_fuel. lia.
Qed.

(** ** A concrete log: two objects, and a line that was cut, or is no line. *)

Definition demo_lines : list read_line :=
  [ReadLine 0 2 0 (-1); ReadLine 1 0 1 (-1); ReadLine 0 6 4 0; ReadLine 0 8 7 5].

Definition demo_texts : text_files := {[ "rec" := read_log demo_lines +:+ "1 4" ]}.

Lemma infer_writes_wars_witness :
  infer 2 77 ["infer"; "3"; "rec"] demo_texts
  = Ok ("", <["war-3" := "0 2 0 3" +:+ LF +:+ "0 6 5 3" +:+ LF]> demo_texts) ∧
  infer 2 77 ["infer"; "3"; "rec"] {[ "rec" := read_log [ReadLine 1 4 2 0] +:+ "x" ]}
  = Ok ("Error in log" +:+ LF,
        <["war-3" := "1 77 0 3" +:+ LF]> {[ "rec" := read_log [ReadLine 1 4 2 0] +:+ "x" ]}).
Proof.
  assert (Forall (read_line_ok 2) demo_lines ∧ Forall (read_line_ok 2) [ReadLine 1 4 2 0]) as [H1 H2].
  { split; repeat (constructor; [unfold read_line_ok, int_range; cbn; lia|]); constructor. }
  split.
  - apply (infer_writes_wars 2 77 "infer" 3 "rec" demo_lines "1 4" (Stream "" true)); try done.
  - apply (infer_writes_wars 2 77 "infer" 3 "rec" [ReadLine 1 4 2 0] "x" (Stream "x" false)); try done.
Defined.

Lemma infer_main_out_of_bounds_witness :
  infer_main 77 ["infer"; "3"; "rec"] demo_texts = Err BadAccess.
Proof.
  apply (infer_main_out_of_bounds 77 "infer" "3" "rec" (read_log demo_lines +:+ "1 4") demo_texts).
  - vm_compute. reflexivity.
  - vm_compute. discriminate.
Defined.
