(* ===== verification/Relay.v ===== *)
(** * Relay: the benchmark [relay.c] on x86-TSO

    Each thread waits until the shared counter reaches its floor and then counts
    it up to its ceiling with plain loads and stores.  A store of [step++] goes to
    the thread's store buffer and reaches memory at any later time, so the next
    thread may see the counter late, but it never sees it before its floor is in
    memory: the hand-over keeps two threads from ever counting at the same time. *)
From S2P Require Import Prelude Sched.

(** ** The program *)

Definition FinishingLine : Z := 10000000.

(** Where a thread is in [ThreadBody]. *)
Inductive relay_pc :=
| RlSync        (* sync_thread: __sync_fetch_and_add(&flag, 1) *)
| RlBarrier     (* sync_thread: while (flag != NumProcs) *)
| RlFloor       (* while (step < floor[g_tid]) *)
| RlCeil        (* while (step < ceiling[g_tid]) *)
| RlLoad        (* step++, the load *)
| RlStore (x : Z) (* step++, the store *)
| RlDone.

#[global] Instance relay_pc_eq_dec : EqDecision relay_pc.
Proof. solve_decision. Defined.

(** A thread and its store buffer, oldest store first; every store is to [step]. *)
Record relay_thread := RelayThread {
  rl_pc : relay_pc;
  rl_buf : list Z }.

(** Memory and the threads. *)
Record relay_state := RelayState {
  rl_step : Z;
  rl_flag : Z;
  rl_thr : gmap Z relay_thread }.

(** An instruction of a thread, or its oldest buffered store reaching memory. *)
Inductive relay_act := RlExec (t : Z) | RlDrain (t : Z).

(** The counter as a thread with buffer [b] loads it. *)
Definition relay_view (step : Z) (b : list Z) : Z := default step (list.last b).

Section relay.
Context (NumProcs : Z).

Definition floor (i : Z) : Z := FinishingLine / NumProcs * i.
Definition ceiling (i : Z) : Z := FinishingLine / NumProcs * (i + 1).

(** The next instruction of a thread: what it adds to [flag], its stores to
    [step] and where it goes; [None] while it spins, waits for its buffer (the
    locked addition) or is done. *)
Definition relay_instr (t : Z) (s : relay_state) (th : relay_thread) : option (Z * list Z * relay_pc) :=
  let step := relay_view (rl_step s) (rl_buf th) in
  match rl_pc th with
  | RlSync => if decide (rl_buf th = []) then Some (1, [], RlBarrier) else None
  | RlBarrier => if decide (rl_flag s ≠ NumProcs) then None else Some (0, [], RlFloor)
  | RlFloor => if decide (step < floor t) then None else Some (0, [], RlCeil)
  | RlCeil => Some (0, [], if decide (step < ceiling t) then RlLoad else RlDone)
  | RlLoad => Some (0, [], RlStore step)
  | RlStore x => Some (0, [x + 1], RlCeil)
  | RlDone => None
  end.

Definition relay_step (a : relay_act) (s : relay_state) : outcome relay_state :=
  match a with
  | RlExec t =>
      match rl_thr s !! t with
      | None => Ok s
      | Some th =>
          match relay_instr t s th with
          | None => Ok s
          | Some (add, stores, pc) =>
              Ok (RelayState (rl_step s) (rl_flag s + add)
                    (<[t := RelayThread pc (rl_buf th ++ stores)]> (rl_thr s)))
          end
      end
  | RlDrain t =>
      match rl_thr s !! t with
      | Some (RelayThread pc (x :: b)) =>
          Ok (RelayState x (rl_flag s) (<[t := RelayThread pc b]> (rl_thr s)))
      | _ => Ok s
      end
  end.

(** [main], up to [pthread_create]. *)
Definition relay_init : outcome relay_state :=
  _ ← c_assert (0 < NumProcs ∧ NumProcs < 16);
  Ok (RelayState 0 0 (arr_make NumProcs (RelayThread RlSync []))).

(** Every thread has returned and its stores are in memory. *)
Definition relay_done (s : relay_state) : Prop :=
  ∀ t th, rl_thr s !! t = Some th → th = RelayThread RlDone [].

(** A thread that exists, and its buffer. *)
Definition relay_live_act (a : relay_act) : Prop :=
  match a with RlExec t | RlDrain t => 0 ≤ t < NumProcs end.

(** ** The invariant *)

(** The buffer counts on from memory; what holds of the counter in memory, and
    with the buffer, while thread [t] is at its instruction. *)
Definition relay_thr_inv (step : Z) (t : Z) (th : relay_thread) : Prop :=
  let len := Z.of_nat (length (rl_buf th)) in
  rl_buf th = seqZ (step + 1) len ∧
  match rl_pc th with
  | RlSync | RlBarrier | RlFloor => len = 0 ∧ step ≤ floor t
  | RlCeil => floor t ≤ step ∧ (len = 0 ∨ step + len ≤ ceiling t)
  | RlLoad => floor t ≤ step ∧ step + len < ceiling t
  | RlStore x => floor t ≤ step ∧ step + len < ceiling t ∧ x = step + len
  | RlDone => floor t ≤ step ∧ ceiling t ≤ step + len ∧ (len = 0 ∨ step + len ≤ ceiling t)
  end.

Definition past_sync (th : relay_thread) : nat := if decide (rl_pc th = RlSync) then 0 else 1.

Definition relay_rank (th : relay_thread) : nat :=
  match rl_pc th with
  | RlSync => 5 | RlBarrier => 4 | RlFloor => 3 | RlCeil => 2 | RlLoad => 1
  | RlStore _ => 0 | RlDone => 0
  end.

Definition buffered (th : relay_thread) : nat := length (rl_buf th).

(** What is left of the run: the increments to come, the stores under way and the
    instructions up to the next increment. *)
Definition relay_left (s : relay_state) : nat :=
  4 * Z.to_nat (floor NumProcs - rl_step s - Z.of_nat (over NumProcs buffered (rl_thr s))) +
  over NumProcs buffered (rl_thr s) + over NumProcs relay_rank (rl_thr s).

Record relay_inv (n : nat) (s : relay_state) : Prop := {
  rv_dom : ∀ t, is_Some (rl_thr s !! t) ↔ 0 ≤ t < NumProcs;
  rv_flag : rl_flag s = Z.of_nat (over NumProcs past_sync (rl_thr s));
  rv_step : 0 ≤ rl_step s;
  rv_total : rl_step s + Z.of_nat (over NumProcs buffered (rl_thr s)) ≤ floor NumProcs;
  rv_thr : ∀ t th, rl_thr s !! t = Some th → relay_thr_inv (rl_step s) t th;
  rv_left : n = relay_left s }.

(** ** Lemmas *)

Context (HN : 0 < NumProcs < 16).

Lemma per_pos : 0 < FinishingLine / NumProcs.
Proof. apply Z.div_str_pos. unfold FinishingLine. lia. Qed.

Lemma ceiling_le_floor i j : i < j → ceiling i ≤ floor j.
Proof. intros H. pose proof per_pos. unfold ceiling, floor. nia. Qed.

Lemma floor_lt_ceiling i : floor i < ceiling i.
Proof. pose proof per_pos. unfold ceiling, floor. nia. Qed.

(** The windows of the threads do not overlap. *)
Lemma window_unique step t u :
  floor t ≤ step < ceiling t → floor u ≤ step < ceiling u → t = u.
Proof.
  intros Ht Hu. destruct (Z.lt_trichotomy t u) as [Hlt|[?|Hlt]]; [|done|];
    pose proof (ceiling_le_floor _ _ Hlt); lia.
Qed.

(** A counter that goes on from memory is loaded as memory plus the buffer. *)
Lemma relay_view_len step t th : relay_thr_inv step t th →
  relay_view step (rl_buf th) = step + Z.of_nat (length (rl_buf th)).
Proof.
  intros [Hb _]. unfold relay_view. rewrite Hb at 1. destruct (length (rl_buf th)) as [|k].
  - cbn [Z.of_nat]. rewrite seqZ_nil by lia. cbn. lia.
  - rewrite seqZ_S, last_snoc. cbn. lia.
Qed.

(** A thread with a store under way is inside its window. *)
Lemma buffered_window step t th : relay_thr_inv step t th → rl_buf th ≠ [] →
  floor t ≤ step ∧ step + Z.of_nat (length (rl_buf th)) ≤ ceiling t ∧ (0 < length (rl_buf th))%nat.
Proof.
  intros [_ Hpc] Hne. destruct (rl_buf th) as [|x b]; [done|]. cbn [length] in *.
  destruct (rl_pc th); lia.
Qed.

(** The thread inside its window is the only one with stores under way. *)
Lemma window_alone n s t th u thu : relay_inv n s → rl_thr s !! t = Some th →
  floor t ≤ rl_step s < ceiling t → rl_thr s !! u = Some thu → u ≠ t → rl_buf thu = [].
Proof.
  intros Hs Ht Hw Hu Hne. destruct (decide (rl_buf thu = [])) as [|Hb]; [done|].
  destruct (buffered_window _ _ _ (rv_thr _ _ Hs _ _ Hu) Hb) as (? & ? & ?).
  destruct Hne. apply (window_unique (rl_step s)); [lia|done].
Qed.

Lemma window_total n s t th : relay_inv n s → rl_thr s !! t = Some th →
  floor t ≤ rl_step s < ceiling t → over NumProcs buffered (rl_thr s) = length (rl_buf th).
Proof.
  intros Hs Ht Hw. assert (0 ≤ t < NumProcs) as Htr by (apply (rv_dom _ _ Hs); eauto).
  pose proof (over_insert NumProcs buffered _ t th (RelayThread RlSync []) Htr Ht) as H.
  rewrite (over_const _ _ (<[t := _]> _) 0) in H; [unfold buffered in *; cbn in *; lia|lia|].
  intros u Hu. destruct (proj2 (rv_dom _ _ Hs u) Hu) as [thu Hthu].
  destruct (decide (u = t)) as [->|Hne]; [by rewrite lookup_insert_eq|].
  rewrite lookup_insert_ne, Hthu by done. cbn. unfold buffered.
  by rewrite (window_alone n s t th u thu).
Qed.

Lemma past_sync_insert s t th pc b : (0 ≤ t < NumProcs) → rl_thr s !! t = Some th → pc ≠ RlSync →
  Z.of_nat (over NumProcs past_sync (<[t := RelayThread pc b]> (rl_thr s))) =
    Z.of_nat (over NumProcs past_sync (rl_thr s)) + (1 - Z.of_nat (past_sync th)).
Proof.
  intros Htr Ht Hpc. pose proof (over_insert NumProcs past_sync _ t th (RelayThread pc b) Htr Ht) as H.
  unfold past_sync in *. cbn in H. rewrite (decide_False (P := pc = RlSync)) in H by done.
  case_decide; lia.
Qed.

Lemma relay_dom_insert n s t th' : relay_inv n s → is_Some (rl_thr s !! t) →
  ∀ u, is_Some (<[t := th']> (rl_thr s) !! u) ↔ 0 ≤ u < NumProcs.
Proof.
  intros Hs Ht u. rewrite lookup_insert_is_Some', (rv_dom _ _ Hs).
  split; [|tauto]. intros [<-|?]; [by apply (rv_dom _ _ Hs)|done].
Qed.

(** An instruction: memory keeps the counter, and the buffer may grow by one. *)
Lemma relay_goto n s t th pc stores : relay_inv n s → rl_thr s !! t = Some th →
  let th' := RelayThread pc (rl_buf th ++ stores) in
  relay_thr_inv (rl_step s) t th' → pc ≠ RlSync →
  (stores = [] ∧ (relay_rank th' < relay_rank th)%nat ∨
   length stores = 1%nat ∧ (relay_rank th' ≤ relay_rank th + 2)%nat ∧
     rl_step s + Z.of_nat (length (rl_buf th)) < ceiling t ∧ floor t ≤ rl_step s) →
  ∃ n', (n' < n)%nat ∧ relay_inv n' (RelayState (rl_step s)
    (rl_flag s + (1 - Z.of_nat (past_sync th))) (<[t := th']> (rl_thr s))).
Proof.
  intros Hs Ht th' Hpc Hps Hor. assert (0 ≤ t < NumProcs) as Htr by (apply (rv_dom _ _ Hs); eauto).
  pose proof (over_insert NumProcs relay_rank _ t th th' Htr Ht) as Hr.
  pose proof (over_insert NumProcs buffered _ t th th' Htr Ht) as Hb.
  assert (buffered th' = buffered th + length stores)%nat as Hb' by apply length_app.
  pose proof (rv_total _ _ Hs) as Htot. pose proof (ceiling_le_floor t NumProcs ltac:(lia)) as Hcf.
  assert (rl_step s + Z.of_nat (over NumProcs buffered (<[t := th']> (rl_thr s))) ≤ floor NumProcs) as Htot'.
  { destruct Hor as [[-> _]|(Hl & _ & Hw1 & Hw2)]; [cbn [length] in Hb'; lia|].
    pose proof (window_total n s t th Hs Ht ltac:(lia)) as Hw. fold (buffered th) in *. lia. }
  eexists. split; [|constructor; cbn; [..|reflexivity]].
  - rewrite (rv_left _ _ Hs). unfold relay_left. cbn [rl_step rl_thr].
    destruct Hor as [[-> ?]|(? & ? & _)]; cbn [length] in Hb'; lia.
  - by apply (relay_dom_insert n s); [|eauto].
  - rewrite (rv_flag _ _ Hs). symmetry. by apply past_sync_insert.
  - apply (rv_step _ _ Hs).
  - done.
  - intros u pu [[<- <-]|[_ Hu]]%lookup_insert_Some; [done|]. by apply (rv_thr _ _ Hs).
Qed.

(** What an instruction does with the thread's invariant. *)
Lemma relay_instr_inv n s t th add stores pc : relay_inv n s → rl_thr s !! t = Some th →
  relay_instr t s th = Some (add, stores, pc) →
  let th' := RelayThread pc (rl_buf th ++ stores) in
  add = 1 - Z.of_nat (past_sync th) ∧ pc ≠ RlSync ∧ relay_thr_inv (rl_step s) t th' ∧
  (stores = [] ∧ (relay_rank th' < relay_rank th)%nat ∨
   length stores = 1%nat ∧ (relay_rank th' ≤ relay_rank th + 2)%nat ∧
     rl_step s + Z.of_nat (length (rl_buf th)) < ceiling t ∧ floor t ≤ rl_step s).
Proof.
  intros Hs Ht Hi. pose proof (rv_thr _ _ Hs _ _ Ht) as Hti.
  pose proof (relay_view_len _ _ _ Hti) as Hv. pose proof (floor_lt_ceiling t) as Hfc. destruct Hti as [Hbuf Hpc].
  destruct th as [pc0 b]. cbn [rl_pc rl_buf] in *. unfold relay_instr in Hi. cbn [rl_pc rl_buf] in Hi.
  rewrite Hv in Hi. unfold past_sync, relay_thr_inv, relay_rank. cbn [rl_pc rl_buf].
  destruct pc0; repeat case_decide; simplify_eq; rewrite ?app_nil_r; cbn [rl_pc rl_buf];
    (split; [lia|]); (split; [done|]); try by (split; [split; [done|lia]|left; split; [done|lia]]).
  rewrite length_app. cbn [length]. split; [split; [|lia]|right; repeat split; lia].
  rewrite Nat2Z.inj_add, seqZ_app by lia. rewrite <- Hbuf.
  by replace (x + 1) with (rl_step s + 1 + Z.of_nat (length b)) by lia.
Qed.

(** The oldest store reaches memory: no other thread relies on the old value. *)
Lemma relay_drain n s t pc x b : relay_inv n s → rl_thr s !! t = Some (RelayThread pc (x :: b)) →
  ∃ n', (n' < n)%nat ∧ relay_inv n' (RelayState x (rl_flag s) (<[t := RelayThread pc b]> (rl_thr s))).
Proof.
  intros Hs Ht. assert (0 ≤ t < NumProcs) as Htr by (apply (rv_dom _ _ Hs); eauto).
  pose proof (rv_thr _ _ Hs _ _ Ht) as Hti.
  destruct (buffered_window _ _ _ Hti) as (Hw1 & Hw2 & _); [done|]. cbn [rl_buf length] in Hw2.
  destruct Hti as [Hbuf Hpc]. cbn [rl_buf rl_pc length] in *.
  rewrite Nat2Z.inj_succ, seqZ_cons in Hbuf by lia. injection Hbuf as -> Hbuf.
  rewrite Z.pred_succ in Hbuf.
  pose proof (over_insert NumProcs relay_rank _ t _ (RelayThread pc b) Htr Ht) as Hr.
  pose proof (over_insert NumProcs buffered _ t _ (RelayThread pc b) Htr Ht) as Hb.
  pose proof (over_insert NumProcs past_sync _ t _ (RelayThread pc b) Htr Ht) as Hp.
  change (relay_rank (RelayThread pc b)) with (relay_rank (RelayThread pc (rl_step s + 1 :: b))) in Hr.
  change (past_sync (RelayThread pc b)) with (past_sync (RelayThread pc (rl_step s + 1 :: b))) in Hp.
  change (buffered (RelayThread pc (rl_step s + 1 :: b))) with (S (buffered (RelayThread pc b))) in Hb.
  pose proof (rv_total _ _ Hs) as Htot.
  eexists. split; [|constructor; cbn; [..|reflexivity]].
  - rewrite (rv_left _ _ Hs). unfold relay_left. cbn [rl_step rl_thr].
    replace (floor NumProcs - (rl_step s + 1) - Z.of_nat (over NumProcs buffered (<[t := RelayThread pc b]> (rl_thr s))))
      with (floor NumProcs - rl_step s - Z.of_nat (over NumProcs buffered (rl_thr s))) by lia.
    lia.
  - by apply (relay_dom_insert n s); [|eauto].
  - rewrite (rv_flag _ _ Hs). lia.
  - pose proof (rv_step _ _ Hs). lia.
  - lia.
  - intros u thu [[<- <-]|[Hne Hu]]%lookup_insert_Some.
    { unfold relay_thr_inv. cbn [rl_buf rl_pc]. split; [by rewrite Hbuf at 1|]. destruct pc; lia. }
    pose proof (window_alone n s t _ u thu Hs Ht ltac:(lia) Hu ltac:(done)) as Hbu.
    pose proof (rv_thr _ _ Hs _ _ Hu) as [_ Hpu]. unfold relay_thr_inv. rewrite Hbu in *. cbn [length] in *.
    split; [done|]. pose proof (floor_lt_ceiling u).
    destruct (Z.lt_trichotomy u t) as [Hlt|[?|Hlt]]; [|done|];
      pose proof (ceiling_le_floor _ _ Hlt); destruct (rl_pc thu); lia.
Qed.

Lemma relay_inv_step n s a : relay_inv n s →
  ∃ s', relay_step a s = Ok s' ∧ (s' = s ∨ ∃ n', (n' < n)%nat ∧ relay_inv n' s').
Proof.
  intros Hs. unfold relay_step. destruct a as [t|t].
  - destruct (rl_thr s !! t) as [th|] eqn:Ht; [|eauto].
    destruct (relay_instr t s th) as [[[add stores] pc]|] eqn:Hi; [|eauto].
    destruct (relay_instr_inv n s t th add stores pc Hs Ht Hi) as (-> & Hns & Hti & Hor).
    eexists. split; [done|]. right. by apply (relay_goto n s t th pc stores).
  - destruct (rl_thr s !! t) as [[pc [|x b]]|] eqn:Ht; [eauto| |eauto].
    eexists. split; [done|]. right. by eapply relay_drain.
Qed.

(** Without threads before the barrier's count, the barrier is open. *)
Lemma barrier_open n s : relay_inv n s → map_Forall (λ _ th, rl_pc th ≠ RlSync) (rl_thr s) →
  rl_flag s = NumProcs.
Proof.
  intros Hs Hno. rewrite (rv_flag _ _ Hs), (over_const _ _ _ 1); [lia..|].
  intros t Ht. destruct (proj2 (rv_dom _ _ Hs t)) as [th Hth]; [lia|].
  rewrite Hth. cbn. unfold past_sync. case_decide as E; [|done]. by destruct (Hno t th).
Qed.

(** An instruction that is not [None] changes the state. *)
Lemma relay_exec_ne n s t th : relay_inv n s → rl_thr s !! t = Some th →
  relay_instr t s th ≠ None → relay_step (RlExec t) s ≠ Ok s.
Proof.
  intros Hs Ht Hi [= E]. unfold relay_step in E. rewrite Ht in E.
  destruct (relay_instr t s th) as [[[add stores] pc]|] eqn:Hin; [|done]. injection E as E.
  destruct (relay_instr_inv n s t th add stores pc Hs Ht Hin) as (_ & _ & _ & Hor).
  rewrite <- E in Ht. cbn in Ht. rewrite lookup_insert_eq in Ht. injection Ht as Ht.
  destruct Hor as [[-> Hr]|(Hl & _)].
  - rewrite Ht in Hr. lia.
  - apply (f_equal (length ∘ rl_buf)) in Ht. cbn in Ht. rewrite length_app in Ht. lia.
Qed.

(** A store under way can reach memory; otherwise the first thread that has not
    finished can move, unless one has not reached the barrier. *)
Lemma relay_progress n s : relay_inv n s →
  relay_done s ∨ ∃ a, relay_live_act a ∧ relay_step a s ≠ Ok s.
Proof.
  intros Hs. destruct (decide (map_Forall (λ _ th, rl_buf th = []) (rl_thr s))) as [Hem|Hem].
  2: { apply map_not_Forall in Hem as (t & [pc [|x b]] & Ht & Hb); [done| |apply _]. right. exists (RlDrain t).
       split; [apply (rv_dom _ _ Hs); eauto|]. unfold relay_step. rewrite Ht. intros [= E].
       apply (f_equal (λ s, rl_thr s !! t)) in E. cbn in E. rewrite lookup_insert_eq, Ht in E.
       injection E as E. by apply (f_equal length) in E; cbn in E; lia. }
  destruct (decide (map_Forall (λ _ th, rl_pc th ≠ RlSync) (rl_thr s))) as [Hno|Hsy].
  2: { apply map_not_Forall in Hsy as (t & th & Ht & Hpc); [|apply _]. right. exists (RlExec t).
       split; [apply (rv_dom _ _ Hs); eauto|]. apply (relay_exec_ne n s t th Hs Ht).
       apply dec_stable in Hpc. unfold relay_instr. rewrite Hpc, decide_True by by apply (Hem t th). done. }
  destruct (list_first_fail (λ t, rl_pc <$> rl_thr s !! t = Some RlDone) (seqZ 0 NumProcs))
    as [Hall|(i & t & Hi & Ht & Hb)].
  { left. intros t th Hth. assert (0 ≤ t < NumProcs) as Hr by (apply (rv_dom _ _ Hs); eauto).
    specialize (Hall t ltac:(apply elem_of_seqZ; lia)). rewrite Hth in Hall. injection Hall as Hpc.
    pose proof (Hem t th Hth) as Hbuf. cbn in Hbuf. destruct th; cbn in *. by subst. }
  apply lookup_seqZ in Hi as [-> Hi]. right. exists (RlExec (0 + Z.of_nat i)). split; [cbn; lia|].
  destruct (proj2 (rv_dom _ _ Hs (0 + Z.of_nat i))) as [th Hth]; [lia|].
  apply (relay_exec_ne n s _ th Hs Hth). rewrite Hth in Ht. cbn in Ht.
  pose proof (Hno _ _ Hth) as Hns. pose proof (Hem _ _ Hth) as Hbuf. cbn in Hns, Hbuf.
  unfold relay_instr. rewrite Hbuf. destruct (rl_pc th) eqn:Hpc; try done.
  - rewrite decide_False; [done|]. intros Hf. apply Hf. by apply (barrier_open n).
  - rewrite decide_False; [done|]. apply Z.nlt_ge. cbn. destruct i as [|i].
    + pose proof (rv_step _ _ Hs). unfold floor. lia.
    + assert (rl_pc <$> rl_thr s !! Z.of_nat i = Some RlDone) as Hd.
      { apply (Hb i); [lia|]. apply lookup_seqZ. lia. }
      destruct (rl_thr s !! Z.of_nat i) as [thi|] eqn:Hti; [|done]. injection Hd as Hd.
      destruct (rv_thr _ _ Hs _ _ Hti) as [_ Hc]. rewrite Hd, (Hem _ _ Hti) in Hc. cbn in Hc.
      unfold floor, ceiling in *. lia.
Qed.

#[export] Instance relay_live : live_machine relay_step relay_live_act relay_done relay_inv.
Proof.
  split; [intros n s t; apply relay_inv_step|apply relay_progress|].
  intros s [t|t] Hd; unfold relay_step; (destruct (rl_thr s !! t) as [th|] eqn:Ht; [|done]);
    by rewrite (Hd t th Ht).
Qed.

Lemma relay_init_inv s : relay_init = Ok s → ∃ n, relay_inv n s.
Proof.
  unfold relay_init. rewrite c_assert_true by lia. cbn. intros [= <-].
  assert (∀ t, arr_make NumProcs (RelayThread RlSync []) !! t =
    if decide (0 ≤ t < NumProcs) then Some (RelayThread RlSync []) else None) as Ha
    by apply lookup_arr_make.
  assert (∀ f : relay_thread → nat, f (RelayThread RlSync []) = 0%nat →
    over NumProcs f (arr_make NumProcs (RelayThread RlSync [])) = 0%nat) as H0.
  { intros f Hf. rewrite (over_const _ _ _ 0); [lia..|]. intros t Ht. rewrite Ha, decide_True by done. done. }
  pose proof per_pos. eexists. constructor; cbn; [..|reflexivity].
  - intros t. rewrite Ha. by case_decide.
  - by rewrite H0.
  - done.
  - rewrite H0 by done. unfold floor. lia.
  - intros t pc. rewrite Ha. case_decide; [|done]. intros [= <-]. unfold relay_thr_inv, floor. cbn.
    split; [done|nia].
Qed.

(** When every thread is done the counter in memory has reached the last ceiling. *)
Lemma relay_final n s : relay_inv n s → relay_done s → rl_step s = FinishingLine / NumProcs * NumProcs.
Proof.
  intros Hs Hd. destruct (proj2 (rv_dom _ _ Hs (NumProcs - 1))) as [th Hth]; [lia|].
  destruct (rv_thr _ _ Hs _ _ Hth) as [_ Hc]. rewrite (Hd _ _ Hth) in Hc. cbn in Hc.
  pose proof (rv_total _ _ Hs). unfold floor, ceiling in *. lia.
Qed.

(** A thread between the load and the store of [step++] is alone there, and what
    it loaded is what the counter will be when all stores so far are in memory. *)
Lemma relay_alone n s t1 t2 th1 th2 x1 x2 : relay_inv n s →
  rl_thr s !! t1 = Some th1 → rl_thr s !! t2 = Some th2 → rl_pc th1 = RlStore x1 → rl_pc th2 = RlStore x2 →
  t1 = t2 ∧ x1 = rl_step s + Z.of_nat (over NumProcs buffered (rl_thr s)).
Proof.
  intros Hs H1 H2 E1 E2. pose proof (rv_thr _ _ Hs _ _ H1) as [_ Hp1].
  pose proof (rv_thr _ _ Hs _ _ H2) as [_ Hp2]. rewrite E1 in Hp1. rewrite E2 in Hp2.
  split; [apply (window_unique (rl_step s)); lia|]. rewrite (window_total n s t1 th1 Hs H1); lia.
Qed.
End relay.

(** ** Properties *)

(** C31: on x86-TSO, however the threads and their store buffers are scheduled, no
    increment is lost: two threads are never between the load and the store of
    [step++] at once, and the value loaded there counts every store made so far,
    also the buffered ones; every fair schedule finishes within a bound, and when
    every thread is done the counter in memory is the last ceiling. *)
Theorem relay_counts NumProcs s0 :
  0 < NumProcs < 16 → relay_init NumProcs = Ok s0 →
  (∃ bound, ∀ rounds, Forall (fair (relay_live_act NumProcs)) rounds → (bound ≤ length rounds)%nat →
     ∃ s, run_sched (relay_step NumProcs) (concat rounds) s0 = Ok s ∧ relay_done s) ∧
  ∀ sched, ∃ s, run_sched (relay_step NumProcs) sched s0 = Ok s ∧
    (∀ t1 t2 th1 th2 x1 x2, rl_thr s !! t1 = Some th1 → rl_thr s !! t2 = Some th2 →
       rl_pc th1 = RlStore x1 → rl_pc th2 = RlStore x2 →
       t1 = t2 ∧ x1 = rl_step s + Z.of_nat (over NumProcs buffered (rl_thr s))) ∧
    (relay_done s → rl_step s = FinishingLine / NumProcs * NumProcs).
Proof.
  intros HN Hi. destruct (relay_init_inv NumProcs HN s0 Hi) as [n Hn]. split.
  - exists n. intros rounds Hf Hl.
    destruct (fair_rounds_finish _ (HM := relay_live NumProcs HN) rounds n s0 Hn Hf Hl) as (s & _ & ? & _ & ?).
    eauto.
  - intros sched. destruct (run_sched_ok _ (HM := relay_live NumProcs HN) sched n s0 Hn) as (s & n' & Hr & _ & Hs).
    exists s. split_and!; [done| |by apply (relay_final NumProcs HN n')].
    intros. by eapply (relay_alone NumProcs HN n').
Qed.

Definition relay_demo : relay_state := value (RelayState 0 0 ∅) (relay_init 3).

Lemma relay_counts_witness :
  relay_init 3 = Ok relay_demo ∧
  ∀ sched, ∃ s, run_sched (relay_step 3) sched relay_demo = Ok s ∧
    (∀ t1 t2 th1 th2 x1 x2, rl_thr s !! t1 = Some th1 → rl_thr s !! t2 = Some th2 →
       rl_pc th1 = RlStore x1 → rl_pc th2 = RlStore x2 →
       t1 = t2 ∧ x1 = rl_step s + Z.of_nat (over 3 buffered (rl_thr s))) ∧
    (relay_done s → rl_step s = FinishingLine / 3 * 3).
Proof. split; [reflexivity|]. apply (relay_counts 3 relay_demo); [lia|reflexivity]. Defined.
