(* ===== verification/SpinLock.v ===== *)
(** * SpinLock: the lock of [spinlock.h]

    A byte that is exchanged for [BUSY] to take the lock and cleared with a plain
    store to release it.  The store may wait in the store buffer of x86-TSO; the
    exchange empties the buffer of its thread first.  [SeqlockTso] has the lock's
    instructions inlined in the recorders; here it is on its own, with
    [spin_trylock] and [spin_lockable]. *)
From S2P Require Import Prelude.

(** ** The program *)

Definition BUSY : Z := 1.
Definition SPINLOCK_INITIALIZER : Z := 0.

(** [xchg_8]: what the byte was, and what it is. *)
Definition xchg_8 (lock x : Z) : Z * Z := (lock, wrap_u 8 x).

(** Where a thread is. *)
Inductive spin_pc :=
| SpIdle    (* outside *)
| SpXchg    (* spin_lock: if (!xchg_8(lock, BUSY)) return *)
| SpSpin    (* spin_lock: while ( *lock) cpu_relax() *)
| SpCrit.   (* holds the lock *)

#[global] Instance spin_pc_eq_dec : EqDecision spin_pc.
Proof. solve_decision. Defined.

(** A thread with its buffered stores to the lock, and what its last
    [spin_trylock] returned. *)
Record spin_thread := SpinThread {
  sp_pc : spin_pc;
  sp_buf : list Z;
  sp_try : Z }.

Record spin_state := SpinState {
  sp_lock : Z;
  sp_thr : gmap Z spin_thread }.

(** The value a load of [th] gives: its own latest store, or memory. *)
Definition spin_load (lock : Z) (th : spin_thread) : Z := default lock (list.last (sp_buf th)).

(** A call of [spin_lock], [spin_trylock] or [spin_unlock], the next instruction of
    a call, or the oldest buffered store reaching memory. *)
Inductive spin_act :=
| SpLock (t : Z) | SpTry (t : Z) | SpUnlock (t : Z) | SpStep (t : Z) | SpDrain (t : Z).

Definition spin_actor (a : spin_act) : Z :=
  match a with SpLock t | SpTry t | SpUnlock t | SpStep t | SpDrain t => t end.

(** The effect of an action on the byte and the thread; an exchange waits for the
    thread's buffer to drain. *)
Definition spin_exec (a : spin_act) (lock : Z) (th : spin_thread) : Z * spin_thread :=
  match a, sp_pc th with
  | SpLock _, SpIdle => (lock, SpinThread SpXchg (sp_buf th) (sp_try th))
  | SpTry _, SpIdle =>
      match sp_buf th with
      | [] =>
          let '(old, lock) := xchg_8 lock BUSY in
          (lock, SpinThread (if decide (old = 0) then SpCrit else SpIdle) [] old)
      | _ => (lock, th)
      end
  | SpUnlock _, SpCrit => (lock, SpinThread SpIdle (sp_buf th ++ [0]) (sp_try th))
  | SpStep _, SpXchg =>
      match sp_buf th with
      | [] =>
          let '(old, lock) := xchg_8 lock BUSY in
          (lock, SpinThread (if decide (old = 0) then SpCrit else SpSpin) [] (sp_try th))
      | _ => (lock, th)
      end
  | SpStep _, SpSpin =>
      (lock, if decide (spin_load lock th = 0) then SpinThread SpXchg (sp_buf th) (sp_try th) else th)
  | SpDrain _, pc =>
      match sp_buf th with
      | [] => (lock, th)
      | x :: b => (x, SpinThread pc b (sp_try th))
      end
  | _, _ => (lock, th)
  end.

Definition spin_step (a : spin_act) (s : spin_state) : spin_state :=
  match sp_thr s !! spin_actor a with
  | None => s
  | Some th =>
      let '(lock, th') := spin_exec a (sp_lock s) th in
      SpinState lock (<[spin_actor a := th']> (sp_thr s))
  end.

Definition spin_run (acts : list spin_act) (s : spin_state) : spin_state :=
  foldl (λ s a, spin_step a s) s acts.

Definition spin_init (nthr : Z) : spin_state :=
  SpinState SPINLOCK_INITIALIZER (arr_make nthr (SpinThread SpIdle [] 0)).

(** [spin_lockable], called by [th]. *)
Definition spin_lockable (lock : Z) (th : spin_thread) : bool :=
  bool_decide (spin_load lock th ≠ BUSY).

(** ** The invariant *)

(** The thread holds the lock, or has released it with a store still buffered. *)
Definition holds (th : spin_thread) : Prop := sp_pc th = SpCrit ∨ sp_buf th ≠ [].

Definition spin_shape (th : spin_thread) : Prop :=
  sp_buf th = [] ∨ sp_buf th = [0] ∧ (sp_pc th = SpIdle ∨ sp_pc th = SpXchg).

Record spin_inv (s : spin_state) : Prop := {
  si_shape : ∀ t th, sp_thr s !! t = Some th → spin_shape th;
  si_unique : ∀ t1 t2 th1 th2, sp_thr s !! t1 = Some th1 → sp_thr s !! t2 = Some th2 →
    holds th1 → holds th2 → t1 = t2;
  si_lock : sp_lock s = BUSY ∧ (∃ t th, sp_thr s !! t = Some th ∧ holds th) ∨
    sp_lock s = 0 ∧ (∀ t th, sp_thr s !! t = Some th → ¬ holds th) }.

(** ** Lemmas *)

(** What a step of a thread may do: keep the lock and its holding of it, take a
    free lock, find it taken, or give it up. *)
Inductive spin_effect (lock : Z) (th : spin_thread) : Z * spin_thread → Prop :=
| se_keep th' : (holds th' ↔ holds th) → spin_effect lock th (lock, th')
| se_take th' : lock = 0 → ¬ holds th → holds th' → spin_effect lock th (BUSY, th')
| se_drop th' : holds th → ¬ holds th' → spin_effect lock th (0, th').

Lemma spin_exec_effect a lock th : spin_shape th → (lock = 0 ∨ lock = BUSY) →
  spin_effect lock th (spin_exec a lock th) ∧ spin_shape (spin_exec a lock th).2.
Proof.
  intros Hsh Hl. destruct th as [pc b tr]. unfold spin_shape in *. cbn in Hsh.
  assert (∀ th, spin_effect lock th (lock, th)) as Hkeep by (intros; by apply se_keep).
  assert (∀ pc, pc = SpIdle ∨ pc = SpXchg → pc ≠ SpCrit) as Hnc by (by intros ? [-> | ->]).
  destruct a, pc; cbn; try by (split; [apply Hkeep|done]).
  - split; [apply se_keep; unfold holds; naive_solver|]. naive_solver.
  - destruct b as [|x b]; [|by split]. cbn. case_decide as E; cbn; (split; [|by left]).
    + change (wrap_u 8 BUSY) with BUSY. apply se_take; [done|unfold holds; naive_solver|by left].
    + destruct Hl as [?| ->]; [done|]. apply se_keep. done.
  - destruct Hsh as [->|[_ [|]]]; cbn in *; [|done..]. split; [|right; cbn; auto].
    apply se_keep. unfold holds. cbn. naive_solver.
  - destruct b as [|x b]; [|by split]. cbn. case_decide as E; cbn; (split; [|by left]).
    + change (wrap_u 8 BUSY) with BUSY. apply se_take; [done|unfold holds; naive_solver|by left].
    + destruct Hl as [?| ->]; [done|]. apply se_keep. unfold holds. cbn. naive_solver.
  - case_decide; [|by split]. destruct Hsh as [->|[_ [|]]]; cbn in *; [|done..].
    split; [apply se_keep; unfold holds; naive_solver|by left].
  - destruct Hsh as [->|[-> _]]; cbn; [by split; [|left]|].
    split; [|by left]. apply se_drop; unfold holds; cbn; naive_solver.
  - destruct Hsh as [->|[-> _]]; cbn; [by split; [|left]|].
    split; [|by left]. apply se_drop; unfold holds; cbn; naive_solver.
  - destruct Hsh as [->|[-> [|]]]; cbn in *; [by split; [|left]|done..].
  - destruct Hsh as [->|[-> [|]]]; cbn in *; [by split; [|left]|done..].
Qed.

Lemma spin_lock_cases s : spin_inv s → sp_lock s = 0 ∨ sp_lock s = BUSY.
Proof. intros []. naive_solver. Qed.

(** One thread's step keeps the invariant. *)
Lemma spin_inv_effect s t th r : spin_inv s → sp_thr s !! t = Some th →
  spin_effect (sp_lock s) th r → spin_shape r.2 → spin_inv (SpinState r.1 (<[t := r.2]> (sp_thr s))).
Proof.
  intros [Hsh Hun Hlk] Ht Heff Hsh'.
  assert (∀ u thu, <[t := r.2]> (sp_thr s) !! u = Some thu →
    u = t ∧ thu = r.2 ∨ u ≠ t ∧ sp_thr s !! u = Some thu) as Hcase.
  { intros u thu [[<- <-]|[Hne Hu]]%lookup_insert_Some; auto. }
  assert (∀ u thu, u ≠ t → sp_thr s !! u = Some thu → holds thu → ¬ holds r.2) as Hone.
  { intros u thu Hne Hu Hhu Hr. destruct Heff as [th' Hiff|th' H0 _ _|th' _ Hn]; cbn in Hr; [|..|done].
    - apply Hne, (Hun u t thu th); [done..|by apply Hiff].
    - destruct Hlk as [[Hb _]|[_ Hno]]; [by rewrite H0 in Hb|by apply (Hno u thu)]. }
  constructor; cbn.
  - intros u thu [[_ ->]|[_ Hu]]%Hcase; eauto.
  - intros u1 u2 th1 th2 [[-> ->]|[N1 H1]]%Hcase [[-> ->]|[N2 H2]]%Hcase HH1 HH2; [done|..|by eauto].
    + by destruct (Hone u2 th2).
    + by destruct (Hone u1 th1).
  - inversion Heff as [th' Hiff|th' H0 Hn Hh|th' Hh Hn]; subst; cbn in *.
    + destruct Hlk as [[? (u & thu & Hu & Hhu)]|[? Hno]]; [left|right]; (split; [done|]).
      * destruct (decide (u = t)) as [->|Hne].
        -- exists t, th'. rewrite lookup_insert_eq. rewrite Ht in Hu. injection Hu as <-. tauto.
        -- exists u, thu. by rewrite lookup_insert_ne by done.
      * intros u thu [[_ ->]|[_ Hu]]%Hcase; [rewrite Hiff|]; eauto.
    + left. split; [done|]. exists t, th'. by rewrite lookup_insert_eq.
    + right. split; [done|]. intros u thu [[_ ->]|[Hne Hu]]%Hcase; [done|].
      intros Hhu. by apply Hne, (Hun u t thu th).
Qed.

Lemma spin_inv_step a s : spin_inv s → spin_inv (spin_step a s).
Proof.
  intros Hs. unfold spin_step. destruct (sp_thr s !! spin_actor a) as [th|] eqn:Ht; [|done].
  destruct (spin_exec_effect a (sp_lock s) th) as [Heff Hsh];
    [by eapply si_shape|by apply spin_lock_cases|].
  pose proof (spin_inv_effect s _ th _ Hs Ht Heff Hsh) as H. by destruct (spin_exec a (sp_lock s) th).
Qed.

Lemma spin_inv_init nthr : spin_inv (spin_init nthr).
Proof.
  assert (∀ t th, sp_thr (spin_init nthr) !! t = Some th → th = SpinThread SpIdle [] 0) as Hi.
  { intros t th. cbn. rewrite lookup_arr_make. case_decide; [|done]. by intros [= <-]. }
  assert (¬ holds (SpinThread SpIdle [] 0)) as Hn by (unfold holds; cbn; naive_solver).
  constructor.
  - intros t th ->%Hi. by left.
  - intros t1 t2 th1 th2 ->%Hi _ ?. done.
  - right. split; [done|]. intros t th ->%Hi. done.
Qed.

Lemma spin_inv_run acts s : spin_inv s → spin_inv (spin_run acts s).
Proof.
  revert s. induction acts as [|a acts IH]; intros s Hs; [done|]. apply IH. by apply spin_inv_step.
Qed.

(** What an idle thread sees of the lock. *)
Lemma lockable_iff s t th : spin_inv s → sp_thr s !! t = Some th → sp_pc th ≠ SpCrit →
  spin_lockable (sp_lock s) th = true ↔
  ∀ u thu, u ≠ t → sp_thr s !! u = Some thu → ¬ holds thu.
Proof.
  intros [Hsh Hun Hlk] Ht Hpc. unfold spin_lockable, spin_load. rewrite bool_decide_eq_true.
  destruct (Hsh t th Ht) as [Hb|[Hb _]]; rewrite Hb; cbn [list.last default from_option].
  - assert (¬ holds th) as Hnt by (unfold holds; naive_solver).
    destruct Hlk as [[-> (u & thu & Hu & Hhu)]|[-> Hno]]; [|split; [eauto|done]].
    split; [done|]. intros Hall. destruct (decide (u = t)) as [->|Hne]; [|naive_solver].
    rewrite Ht in Hu. by injection Hu as <-.
  - split; [|done]. intros _ u thu Hne Hu Hhu. apply Hne, (Hun u t thu th); [done..|].
    right. by rewrite Hb.
Qed.

(** ** Properties *)

(** C35: whatever the threads do, and however long their stores stay buffered, at
    most one thread holds the lock; [spin_lockable] tells a thread outside exactly
    whether no other one holds it or has a release on its way; and an exchange, by
    [spin_lock] or [spin_trylock], succeeds exactly when no thread holds the lock,
    in which case [spin_trylock] returns 0. *)
Theorem spin_lock_exclusive nthr acts :
  let s := spin_run acts (spin_init nthr) in
  (∀ t1 t2 th1 th2, sp_thr s !! t1 = Some th1 → sp_thr s !! t2 = Some th2 →
     sp_pc th1 = SpCrit → sp_pc th2 = SpCrit → t1 = t2) ∧
  (∀ t th, sp_thr s !! t = Some th → sp_pc th ≠ SpCrit →
     (spin_lockable (sp_lock s) th = true ↔
      ∀ u thu, u ≠ t → sp_thr s !! u = Some thu → ¬ holds thu)) ∧
  (∀ t th, sp_thr s !! t = Some th → sp_pc th = SpXchg → sp_buf th = [] →
     (sp_pc <$> sp_thr (spin_step (SpStep t) s) !! t = Some SpCrit ↔
      ∀ u thu, sp_thr s !! u = Some thu → ¬ holds thu)) ∧
  (∀ t th, sp_thr s !! t = Some th → sp_pc th = SpIdle → sp_buf th = [] →
     ∃ th', sp_thr (spin_step (SpTry t) s) !! t = Some th' ∧
       (sp_try th' = 0 ↔ sp_pc th' = SpCrit) ∧
       (sp_pc th' = SpCrit ↔ ∀ u thu, sp_thr s !! u = Some thu → ¬ holds thu)).
Proof.
  intros s. assert (spin_inv s) as Hs by apply spin_inv_run, spin_inv_init.
  assert (sp_lock s = 0 ↔ ∀ u thu, sp_thr s !! u = Some thu → ¬ holds thu) as Hfree.
  { destruct (si_lock _ Hs) as [[-> (u & thu & ? & ?)]|[-> ?]]; naive_solver. }
  clearbody s. split_and!.
  - intros t1 t2 th1 th2 H1 H2 C1 C2. apply (si_unique _ Hs t1 t2 th1 th2); [done..|by left|by left].
  - intros t th. by apply lockable_iff.
  - intros t [pc b tr] Ht Hpc Hb. cbn in Hpc, Hb. subst. unfold spin_step. cbn. rewrite Ht. cbn.
    rewrite lookup_insert_eq. cbn. rewrite <- Hfree. case_decide; naive_solver.
  - intros t [pc b tr] Ht Hpc Hb. cbn in Hpc, Hb. subst. unfold spin_step. cbn. rewrite Ht. cbn.
    rewrite lookup_insert_eq. eexists. split; [done|]. cbn. rewrite <- Hfree. case_decide; naive_solver.
Qed.

(** Thread 0 takes the lock, thread 1 fails to; after the release has drained
    thread 1 takes it. *)
Example spin_demo :
  let s := spin_run [SpLock 0; SpStep 0; SpTry 1; SpUnlock 0; SpLock 1; SpStep 1; SpStep 1; SpDrain 0;
                     SpStep 1; SpStep 1] (spin_init 2) in
  (sp_pc <$> sp_thr s !! 0, sp_pc <$> sp_thr s !! 1, sp_try <$> sp_thr s !! 1)
    = (Some SpIdle, Some SpCrit, Some 1).
Proof. vm_compute. reflexivity. Qed.
