(* ===== verification/TicketLock.v ===== *)
(** * TicketLock: the ticket lock of [ticket-spinlock.h] on x86-TSO

    Two 16-bit counters in one word: [ticket], whose turn it is, and [users], the
    next ticket to give out.  Both wrap around; the lock works as long as fewer
    than 2^16 threads use it.  A release is a plain store, which may wait in the
    store buffer of its thread; the locked instructions that take a ticket or try
    the lock wait for an empty buffer.  The specification is a queue of threads,
    which a thread leaves when its release reaches memory. *)
From S2P Require Import Prelude.

(** ** The program *)

(** [union ticketlock]: the fields of its struct, and the word [u]. *)
Record ticketlock := TicketLock {
  ticket : Z;
  users : Z }.

Definition lock_u (l : ticketlock) : Z := Z.shiftl (users l) 16 + ticket l.

(** What the word [u] means as a struct. *)
Definition of_u (u : Z) : ticketlock := TicketLock (wrap_u 16 u) (wrap_u 16 (Z.shiftr u 16)).

(** [atomic_xadd(&t->s.users, 1)]. *)
Definition xadd_users (l : ticketlock) : Z * ticketlock :=
  (users l, TicketLock (ticket l) (wrap_u 16 (users l + 1))).

(** [cmpxchg(&t->u, cmp, cmpnew) == cmp]. *)
Definition cmpxchg (cmp cmpnew : Z) (l : ticketlock) : bool * ticketlock :=
  if decide (lock_u l = cmp) then (true, of_u cmpnew) else (false, l).

(** The end of [ticket_trylock], which has read [me]. *)
Definition try_cas (me : Z) (l : ticketlock) : bool * ticketlock :=
  let menew := wrap_u 16 (me + 1) in
  let cmp := wrap_u 32 (wrap_u 32 (Z.shiftl me 16) + me) in
  let cmpnew := wrap_u 32 (wrap_u 32 (Z.shiftl menew 16) + me) in
  cmpxchg cmp cmpnew l.

(** [u] is the copy of the struct. *)
Definition ticket_lockable (u : ticketlock) : bool := bool_decide (ticket u = users u).

(** Where a thread is. *)
Inductive lpc :=
| LIdle
| LSpin (me : Z)      (* ticket_lock: while (t->s.ticket != me) *)
| LTry (me : Z)       (* ticket_trylock: after reading users *)
| LCrit               (* holds the lock *)
| LUnlock (x : Z).    (* ticket_unlock: t->s.ticket++, between its load and its store *)

#[global] Instance lpc_eq_dec : EqDecision lpc.
Proof. solve_decision. Defined.

(** A thread with its buffered stores to [ticket], oldest first. *)
Record lthread := LThread {
  lt_pc : lpc;
  lt_buf : list Z }.

#[global] Instance lthread_eq_dec : EqDecision lthread.
Proof. solve_decision. Defined.

Record lstate := LState {
  l_lock : ticketlock;
  l_thr : gmap Z lthread }.

(** [t->s.ticket] as the thread loads it: its own latest store, or memory. *)
Definition load_ticket (l : ticketlock) (th : lthread) : Z := default (ticket l) (list.last (lt_buf th)).

(** The struct as the thread copies it. *)
Definition load_lock (l : ticketlock) (th : lthread) : ticketlock := TicketLock (load_ticket l th) (users l).

(** A call of [ticket_lock], [ticket_trylock] or [ticket_unlock], the next
    instruction of the call a thread is in, or its oldest buffered store reaching
    memory. *)
Inductive lact := ALock (t : Z) | ATry (t : Z) | AUnlock (t : Z) | AStep (t : Z) | ADrain (t : Z).

Definition lactor (a : lact) : Z := match a with ALock t | ATry t | AUnlock t | AStep t | ADrain t => t end.

(** The effect of an action on the word and the thread. *)
Definition lexec (a : lact) (l : ticketlock) (th : lthread) : ticketlock * lthread :=
  match a, lt_pc th with
  | ALock _, LIdle =>
      if decide (lt_buf th = []) then let '(me, l) := xadd_users l in (l, LThread (LSpin me) []) else (l, th)
  | ATry _, LIdle => (l, LThread (LTry (users l)) (lt_buf th))
  | AUnlock _, LCrit => (l, LThread (LUnlock (load_ticket l th)) (lt_buf th))
  | AStep _, LSpin me => (l, if decide (load_ticket l th = me) then LThread LCrit (lt_buf th) else th)
  | AStep _, LTry me =>
      if decide (lt_buf th = [])
      then let '(ok, l) := try_cas me l in (l, LThread (if ok then LCrit else LIdle) []) else (l, th)
  | AStep _, LUnlock x => (l, LThread LIdle (lt_buf th ++ [wrap_u 16 (x + 1)]))
  | ADrain _, pc =>
      match lt_buf th with [] => (l, th) | x :: b => (TicketLock x (users l), LThread pc b) end
  | _, _ => (l, th)
  end.

Definition set_thr (t : Z) (th : lthread) (l : ticketlock) (s : lstate) : lstate :=
  LState l (<[t := th]> (l_thr s)).

Definition lstep (a : lact) (s : lstate) : lstate :=
  match l_thr s !! lactor a with
  | None => s
  | Some th => let '(l, th') := lexec a (l_lock s) th in set_thr (lactor a) th' l s
  end.

Definition lrun (acts : list lact) (s : lstate) : lstate := foldl (λ s a, lstep a s) s acts.

(** [TICKET_SPINLOCK_INITIALIZER], with [nthr] threads. *)
Definition linit (nthr : Z) : lstate :=
  LState (TicketLock 0 0) (arr_make nthr (LThread LIdle [])).

(** Between taking the lock and releasing it. *)
Definition in_cs (pc : lpc) : bool := match pc with LCrit | LUnlock _ => true | _ => false end.

(** ** The queue *)

(** Outside the lock. *)
Definition outside (pc : lpc) : Prop := pc = LIdle ∨ ∃ me, pc = LTry me ∧ 0 ≤ me < 2 ^ 16.

(** Thread [i] of the queue holds ticket [T + i]; only the first one can be in its
    critical section, or have left it with its release still buffered. *)
Definition queued (T : Z) (i : nat) (th : lthread) : Prop :=
  th = LThread (LSpin (wrap_u 16 (T + Z.of_nat i))) [] ∨
  i = 0%nat ∧ (th = LThread LCrit [] ∨ th = LThread (LUnlock (wrap_u 16 T)) [] ∨
    outside (lt_pc th) ∧ lt_buf th = [wrap_u 16 (T + 1)]).

Record linv (nthr : Z) (T : Z) (q : list Z) (s : lstate) : Prop := {
  ln_ticket : ticket (l_lock s) = wrap_u 16 T;
  ln_users : users (l_lock s) = wrap_u 16 (T + Z.of_nat (length q));
  ln_nodup : NoDup q;
  ln_dom : ∀ t, is_Some (l_thr s !! t) ↔ 0 ≤ t < nthr;
  ln_queued : ∀ i t, q !! i = Some t → ∃ th, l_thr s !! t = Some th ∧ queued T i th;
  ln_idle : ∀ t th, l_thr s !! t = Some th → t ∉ q → outside (lt_pc th) ∧ lt_buf th = [] }.

(** How a step from [s] changes the queue: not, a thread joins at its end, or the
    release of its first thread reaches memory. *)
Inductive qstep (s : lstate) : list Z → list Z → Prop :=
| qs_stay q : qstep s q q
| qs_join q t : t ∉ q → qstep s q (q ++ [t])
| qs_leave t q th : l_thr s !! t = Some th → lt_buf th ≠ [] → qstep s (t :: q) q.

(** ** Lemmas *)

Lemma wrap_u_inj w a b : 0 ≤ w → wrap_u w a = wrap_u w b → - 2 ^ w < a - b < 2 ^ w → a = b.
Proof.
  intros Hw H Hab. unfold wrap_u in H. assert (0 < 2 ^ w) by (apply Z.pow_pos_nonneg; lia).
  assert ((a - b) mod 2 ^ w = 0) as Hm by (rewrite Zminus_mod, H, Z.sub_diag; apply Z.mod_0_l; lia).
  apply Z.mod_divide in Hm as [k Hk]; [|lia].
  assert (k = 0) as -> by (destruct (Z.lt_trichotomy k 0) as [?|[?|?]]; [nia|done|nia]). lia.
Qed.

Lemma wrap_u_succ w a : wrap_u w (wrap_u w a + 1) = wrap_u w (a + 1).
Proof. unfold wrap_u. apply Zplus_mod_idemp_l. Qed.

(** The word and the struct. *)
Lemma of_lock_u hi lo : 0 ≤ hi < 2 ^ 16 → 0 ≤ lo < 2 ^ 16 →
  of_u (Z.shiftl hi 16 + lo) = TicketLock lo hi.
Proof.
  intros Hh Hl. unfold of_u, wrap_u. rewrite Z.shiftl_mul_pow2, Z.shiftr_div_pow2 by lia. f_equal.
  - rewrite Z.add_comm, Z.mod_add by lia. by apply Z.mod_small.
  - rewrite Z.div_add_l, (Z.div_small lo), Z.add_0_r by lia. by apply Z.mod_small.
Qed.

Lemma lock_u_inj hi lo l : 0 ≤ hi < 2 ^ 16 → 0 ≤ lo < 2 ^ 16 →
  0 ≤ users l < 2 ^ 16 → 0 ≤ ticket l < 2 ^ 16 →
  lock_u l = Z.shiftl hi 16 + lo → users l = hi ∧ ticket l = lo.
Proof.
  intros Hh Hl Hu Ht H. apply (f_equal of_u) in H. unfold lock_u in H.
  rewrite !of_lock_u in H by done. by injection H.
Qed.

Lemma word_small hi lo : 0 ≤ hi < 2 ^ 16 → 0 ≤ lo < 2 ^ 16 →
  wrap_u 32 (wrap_u 32 (Z.shiftl hi 16) + lo) = Z.shiftl hi 16 + lo.
Proof.
  intros Hh Hl. unfold wrap_u. rewrite Zplus_mod_idemp_l. apply Z.mod_small.
  rewrite Z.shiftl_mul_pow2 by lia. lia.
Qed.

(** [ticket_trylock] takes the lock just when both counters are what it read. *)
Lemma try_cas_spec me l : 0 ≤ me < 2 ^ 16 →
  0 ≤ users l < 2 ^ 16 → 0 ≤ ticket l < 2 ^ 16 →
  try_cas me l = if decide (users l = me ∧ ticket l = me)
                 then (true, TicketLock me (wrap_u 16 (me + 1))) else (false, l).
Proof.
  intros Hm Hu Ht. assert (0 ≤ wrap_u 16 (me + 1) < 2 ^ 16) as Hn by (by apply wrap_u_range).
  unfold try_cas, cmpxchg. rewrite !word_small, of_lock_u by done.
  destruct (decide (lock_u l = _)) as [H|H].
  - apply lock_u_inj in H as [-> ->]; try done. by rewrite decide_True.
  - rewrite decide_False; [done|]. intros [E1 E2]. destruct H. unfold lock_u. by rewrite E1, E2.
Qed.

Section proof.
Context (nthr : Z) (Hnthr : 0 ≤ nthr < 2 ^ 16).
Local Abbreviation linv := (linv nthr).

Lemma queue_length T q s : linv T q s → Z.of_nat (length q) ≤ nthr.
Proof.
  intros Hs. assert (length q ≤ length (seqZ 0 nthr))%nat as H.
  { apply submseteq_length, NoDup_submseteq; [apply Hs|]. intros t [i Hi]%list_elem_of_lookup_1.
    destruct (ln_queued _ _ _ _ Hs i t Hi) as (pc & Hpc & _).
    apply elem_of_seqZ. pose proof (proj1 (ln_dom _ _ _ _ Hs t) ltac:(eauto)). lia. }
  rewrite length_seqZ in H. lia.
Qed.

(** Replacing the lock and one thread. *)
Lemma linv_set T q s T' q' t th0 th l : linv T q s → l_thr s !! t = Some th0 →
  ticket l = wrap_u 16 T' → users l = wrap_u 16 (T' + Z.of_nat (length q')) → NoDup q' →
  (∀ i t', q' !! i = Some t' → t' = t ∧ queued T' i th ∨
     t' ≠ t ∧ ∃ j, q !! j = Some t' ∧ ∀ p, queued T j p → queued T' i p) →
  (t ∉ q' → outside (lt_pc th) ∧ lt_buf th = []) →
  (∀ t', t' ≠ t → t' ∉ q' → t' ∉ q) → linv T' q' (set_thr t th l s).
Proof.
  intros [] Ht Htk Hus Hnd Hq Hpc Hout. constructor; cbn; try done.
  - intros t'. rewrite lookup_insert_is_Some', ln_dom0. split; [|tauto].
    intros [<-|?]; [|done]. apply ln_dom0. eauto.
  - intros i t' Hi. destruct (Hq i t' Hi) as [[-> ?]|(Hne & j & Hj & Hp)].
    + exists th. by rewrite lookup_insert_eq.
    + destruct (ln_queued0 j t' Hj) as (p & ? & ?). exists p.
      rewrite lookup_insert_ne by done. auto.
  - intros t' p [[<- <-]|[Hne Hp]]%lookup_insert_Some Hin; [auto|]. eapply ln_idle0; [done|]. by apply Hout.
Qed.

Lemma outside_not pc : outside pc → (∀ me, pc ≠ LSpin me) ∧ pc ≠ LCrit ∧ ∀ x, pc ≠ LUnlock x.
Proof. intros [->|(me & -> & _)]; done. Qed.

(** Threads with nothing to release, outside the lock, are not in the queue. *)
Lemma not_queued T q s t th : linv T q s → l_thr s !! t = Some th →
  lt_buf th = [] → (∀ me, lt_pc th ≠ LSpin me) → lt_pc th ≠ LCrit → (∀ x, lt_pc th ≠ LUnlock x) → t ∉ q.
Proof.
  intros Hs Ht Hb H1 H2 H3 [i Hi]%list_elem_of_lookup_1.
  destruct (ln_queued _ _ _ _ Hs i t Hi) as (p & Hp & Hq). rewrite Ht in Hp. injection Hp as <-.
  destruct Hq as [->|[_ [->|[->|[_ Hq]]]]]; cbn in *; [by eapply H1|done|by eapply H3|congruence].
Qed.

(** The others are. *)
Lemma is_queued T q s t th : linv T q s → l_thr s !! t = Some th →
  ¬ (outside (lt_pc th) ∧ lt_buf th = []) → ∃ i, q !! i = Some t ∧ queued T i th.
Proof.
  intros Hs Ht Hno. destruct (decide (t ∈ q)) as [[i Hi]%list_elem_of_lookup_1|Hn].
  - exists i. split; [done|]. destruct (ln_queued _ _ _ _ Hs i t Hi) as (p & Hp & Hq). congruence.
  - by destruct Hno; apply (ln_idle _ _ _ _ Hs t).
Qed.

Lemma keep_queue T (q : list Z) t i t' th : (t ∈ q → ∃ j, q !! j = Some t ∧ queued T j th) → NoDup q →
  q !! i = Some t' → t' = t ∧ queued T i th ∨
    t' ≠ t ∧ ∃ j, q !! j = Some t' ∧ ∀ p, queued T j p → queued T i p.
Proof.
  intros Hpc Hnd Hi. destruct (decide (t' = t)) as [->|Hne]; [left|right; eauto].
  split; [done|]. destruct Hpc as (j & Hj & ?); [by eapply list_elem_of_lookup_2|].
  by rewrite (NoDup_lookup _ _ _ _ Hnd Hi Hj).
Qed.

(** *** The steps *)

Section step.
Context (T : Z) (q : list Z) (s : lstate) (Hs : linv T q s) (t : Z).

(** What a step leads to. *)
Definition lstepped (s' : lstate) : Prop := ∃ T' q', qstep s q q' ∧ linv T' q' s'.

Lemma lstep_stay th : l_thr s !! t = Some th → lstepped (set_thr t th (l_lock s) s).
Proof.
  intros Ht. exists T, q. split; [constructor|]. unfold set_thr. rewrite insert_id by done. by destruct s.
Qed.

Lemma lock_range : 0 ≤ users (l_lock s) < 2 ^ 16 ∧ 0 ≤ ticket (l_lock s) < 2 ^ 16.
Proof.
  rewrite (ln_users _ _ _ _ Hs), (ln_ticket _ _ _ _ Hs). split; by apply wrap_u_range.
Qed.

(** A step that leaves lock and queue alone. *)
Lemma lstep_goto th0 th : l_thr s !! t = Some th0 →
  (t ∈ q → ∃ j, q !! j = Some t ∧ queued T j th) →
  (t ∉ q → outside (lt_pc th) ∧ lt_buf th = []) →
  lstepped (set_thr t th (l_lock s) s).
Proof.
  intros Ht Hin Hout. exists T, q. split; [constructor|].
  eapply linv_set; try done; try apply Hs. intros i t' Hi. eapply keep_queue; [done|apply Hs|done].
Qed.

(** Such a step of a thread in the queue. *)
Lemma lstep_inside th0 th i : l_thr s !! t = Some th0 → q !! i = Some t → queued T i th →
  lstepped (set_thr t th (l_lock s) s).
Proof.
  intros Ht Hi Hq. eapply lstep_goto; [done|by exists i|]. intros Hn. destruct Hn. by eapply list_elem_of_lookup_2.
Qed.

Lemma lstep_lock : l_thr s !! t = Some (LThread LIdle []) →
  lstepped (set_thr t (LThread (LSpin (users (l_lock s))) [])
    (TicketLock (ticket (l_lock s)) (wrap_u 16 (users (l_lock s) + 1))) s).
Proof.
  intros Ht. assert (t ∉ q) as Hn by (by eapply not_queued).
  exists T, (q ++ [t]). split; [by constructor|]. eapply linv_set; try done.
  - apply Hs.
  - cbn. rewrite (ln_users _ _ _ _ Hs), wrap_u_succ, length_app. f_equal. cbn. lia.
  - rewrite Permutation_app_comm. cbn. constructor; [done|]. apply Hs.
  - intros i t' [Hi|[-> ->]]%lookup_snoc_inv.
    + right. split; [|eauto]. intros ->. by apply Hn, (list_elem_of_lookup_2 _ i).
    + left. split; [done|]. left. by rewrite (ln_users _ _ _ _ Hs).
  - intros Hno. destruct Hno. set_solver.
  - intros t' _ Hno ?. destruct Hno. set_solver.
Qed.

Lemma lstep_spin me b : l_thr s !! t = Some (LThread (LSpin me) b) →
  load_ticket (l_lock s) (LThread (LSpin me) b) = me → lstepped (set_thr t (LThread LCrit b) (l_lock s) s).
Proof.
  intros Ht Hme.
  destruct (is_queued T q s t _ Hs Ht) as (i & Hi & Hq); [by intros [[?|(? & ? & _)] _]|].
  destruct Hq as [E|[_ [E|[E|[[E|(? & E & _)] _]]]]]; try done. injection E as -> ->. cbn in Hme.
  rewrite (ln_ticket _ _ _ _ Hs) in Hme. pose proof (queue_length T q s Hs). pose proof (lookup_lt_Some _ _ _ Hi).
  apply wrap_u_inj in Hme; [|lia..]. assert (i = 0%nat) as -> by lia.
  eapply lstep_inside; [done..|]. right. auto.
Qed.

Lemma lstep_trycas me : l_thr s !! t = Some (LThread (LTry me) []) →
  lstepped (set_thr t (LThread (if (try_cas me (l_lock s)).1 then LCrit else LIdle) [])
    (try_cas me (l_lock s)).2 s).
Proof.
  intros Ht. assert (t ∉ q) as Hn by (by eapply not_queued).
  assert (0 ≤ me < 2 ^ 16) as Hm.
  { destruct (ln_idle _ _ _ _ Hs t _ Ht Hn) as [[?|(me' & E & ?)] _]; [done|]. by injection E as ->. }
  destruct lock_range as [Hu Htk]. rewrite try_cas_spec by done.
  case_decide as Hcas; cbn [fst snd]; [|by eapply lstep_goto; [done..|split; [left|]]].
  destruct Hcas as [Eu Et]. rewrite (ln_ticket _ _ _ _ Hs) in Et.
  assert (q = []) as Eq.
  { apply nil_length_inv. rewrite (ln_users _ _ _ _ Hs), <- Et in Eu.
    pose proof (queue_length T q s Hs). apply wrap_u_inj in Eu; lia. }
  exists T, [t]. split; [rewrite Eq; apply (qs_join s [] t), not_elem_of_nil|]. eapply linv_set; try done.
  - cbn. by rewrite <- Et, wrap_u_succ.
  - apply NoDup_singleton.
  - intros i t' Hi. destruct i; [|done]. injection Hi as <-. left. split; [done|]. right. auto.
  - set_solver.
  - rewrite Eq. set_solver.
Qed.

(** A release reaches memory. *)
Lemma lstep_drain pc x b : l_thr s !! t = Some (LThread pc (x :: b)) →
  lstepped (set_thr t (LThread pc b) (TicketLock x (users (l_lock s))) s).
Proof.
  intros Ht. destruct (is_queued T q s t _ Hs Ht) as (i & Hi & Hq); [by intros [_ ?]|].
  destruct Hq as [?|[-> [?|[?|[Hout E]]]]]; try done. cbn in Hout, E. injection E as -> ->.
  assert (∃ q', q = t :: q') as [q' Eq].
  { destruct q as [|t0 q']; [done|]. cbn in Hi. injection Hi as ->. eauto. }
  pose proof (ln_nodup _ _ _ _ Hs) as Hnd. rewrite Eq in Hnd. apply list.NoDup_cons in Hnd as [Hn Hnd].
  exists (T + 1), q'. split; [rewrite Eq; by econstructor|]. eapply linv_set; try done.
  - cbn. rewrite (ln_users _ _ _ _ Hs), Eq. f_equal. cbn. lia.
  - intros j t' Hj. right. split; [intros ->; by apply Hn, (list_elem_of_lookup_2 _ j)|].
    exists (S j). split; [by rewrite Eq|]. intros p [->|[? _]]; [|done]. left. do 3 f_equal. lia.
  - rewrite Eq. set_solver.
Qed.

End step.

Lemma lstep_ok T q s a : linv T q s → lstepped q s (lstep a s).
Proof.
  intros Hs. unfold lstep. destruct (l_thr s !! lactor a) as [[pc b]|] eqn:Ht.
  2:{ exists T, q. split; [constructor|done]. }
  assert (lstepped q s (set_thr (lactor a) (LThread pc b) (l_lock s) s)) as Hstay by (by eapply lstep_stay).
  destruct a as [t|t|t|t|t]; cbn [lactor lexec lt_pc lt_buf] in *.
  - destruct pc; try done. case_decide as Hb; [subst b|done]. cbn. by apply (lstep_lock T).
  - destruct pc; try done. assert (outside (LTry (users (l_lock s)))) as Ho.
    { right. eexists. split; [done|]. apply (lock_range T q s Hs). }
    eapply (lstep_goto T q s Hs); [done|..]; cbn.
    + intros [i Hi]%list_elem_of_lookup_1. destruct (ln_queued _ _ _ _ Hs i t Hi) as (p & Hp & Hq).
      rewrite Ht in Hp. injection Hp as <-. exists i. split; [done|].
      destruct Hq as [?|[-> [?|[?|[_ Hb]]]]]; try done. right. auto.
    + intros Hn. split; [done|]. by apply (ln_idle _ _ _ _ Hs t _ Ht).
  - destruct pc; try done.
    destruct (is_queued T q s t _ Hs Ht) as (i & Hi & Hq); [by intros [[?|(? & ? & _)] _]|].
    destruct Hq as [?|[-> [E|[?|[[?|(? & ? & _)] _]]]]]; try done. injection E as ->.
    eapply lstep_inside; [done..|]. right. split; [done|]. right. left. cbn. by rewrite (ln_ticket _ _ _ _ Hs).
  - destruct pc; try done.
    + case_decide; [|done]. by eapply (lstep_spin T).
    + case_decide as Hb; [subst b|done]. pose proof (lstep_trycas T q s Hs t me Ht) as Hc.
      by destruct (try_cas me (l_lock s)).
    + destruct (is_queued T q s t _ Hs Ht) as (i & Hi & Hq); [by intros [[?|(? & ? & _)] _]|].
      destruct Hq as [?|[-> [?|[E|[[?|(? & ? & _)] _]]]]]; try done. injection E as -> ->.
      eapply lstep_inside; [done..|]. right. split; [done|]. right. right. split; [by left|].
      cbn. by rewrite wrap_u_succ.
  - destruct b as [|x b]; [done|]. by eapply (lstep_drain T).
Qed.

Lemma linit_inv : linv 0 [] (linit nthr).
Proof.
  constructor; cbn; try done.
  - constructor.
  - intros t. rewrite lookup_arr_make. by case_decide.
  - intros t th. rewrite lookup_arr_make. case_decide; [|done]. intros [= <-] _. split; [by left|done].
Qed.

Lemma lrun_ok acts : ∃ T q, linv T q (lrun acts (linit nthr)).
Proof.
  unfold lrun. induction acts as [|a acts IH] using rev_ind; [exists 0, []; apply linit_inv|].
  destruct IH as (T & q & Hs). rewrite foldl_snoc. destruct (lstep_ok T q _ a Hs) as (T' & q' & _ & ?). eauto.
Qed.

(** The thread in its critical section is the first one of the queue. *)
Lemma cs_first T q s t th : linv T q s → l_thr s !! t = Some th → in_cs (lt_pc th) = true →
  q !! 0%nat = Some t.
Proof.
  intros Hs Ht Hcs. destruct (is_queued T q s t th Hs Ht) as (i & Hi & [->|[-> _]]); try done.
  intros [[E|(me & E & _)] _]; by rewrite E in Hcs.
Qed.

(** A thread that waits in the queue has nothing buffered; it waits on or enters. *)
Lemma spin_empty T q s t th me : linv T q s → l_thr s !! t = Some th → lt_pc th = LSpin me → lt_buf th = [].
Proof.
  intros Hs Ht Hpc. destruct (is_queued T q s t th Hs Ht) as (i & _ & Hq).
  - intros [[E|(? & E & _)] _]; by rewrite E in Hpc.
  - destruct Hq as [->|[_ [->|[->|[[E|(? & E & _)] _]]]]]; try done; by rewrite E in Hpc.
Qed.

Lemma spin_on T q s a t th me : linv T q s → l_thr s !! t = Some th → lt_pc th = LSpin me →
  ∃ th', l_thr (lstep a s) !! t = Some th' ∧ (lt_pc th' = LSpin me ∨ in_cs (lt_pc th') = true).
Proof.
  intros Hs Ht Hpc. unfold lstep. destruct (l_thr s !! lactor a) as [tha|] eqn:Ha; [|eauto].
  destruct (lexec a (l_lock s) tha) as [l th'] eqn:He. cbn. destruct (decide (lactor a = t)) as [E|Hne].
  - rewrite E, lookup_insert_eq. exists th'. split; [done|]. rewrite E, Ht in Ha. injection Ha as <-.
    pose proof (spin_empty T q s t th me Hs Ht Hpc) as Hb. unfold lexec in He. rewrite Hpc, Hb in He.
    destruct a; try case_decide; injection He as <- <-; auto.
  - rewrite lookup_insert_ne by done. eauto.
Qed.

(** Thread [t1] is ahead of [t2] in the queue. *)
Definition ahead (q : list Z) (t1 t2 : Z) : Prop :=
  ∃ i, q !! i = Some t1 ∧ ∀ j, q !! j = Some t2 → (i < j)%nat.

(** It stays ahead as long as it waits. *)
Lemma ahead_step T q s a t1 t2 th me : linv T q s → ahead q t1 t2 →
  l_thr s !! t1 = Some th → lt_pc th = LSpin me →
  ∃ T' q', linv T' q' (lstep a s) ∧ ahead q' t1 t2.
Proof.
  intros Hs (i & Hi & Hlt) Hth Hpc. pose proof (spin_empty T q s t1 th me Hs Hth Hpc) as Hb.
  destruct (lstep_ok T q s a Hs) as (T' & q' & Hq & Hs').
  exists T', q'. split; [done|]. destruct Hq as [q|q t Hn|t q tht Hx Hne].
  - by exists i.
  - exists i. split; [by apply lookup_app_l_Some|]. intros j [Hj|[-> ->]]%lookup_snoc_inv; [auto|].
    by eapply lookup_lt_Some.
  - destruct i as [|i].
    + cbn in Hi. injection Hi as ->. rewrite Hth in Hx. by injection Hx as <-.
    + exists i. split; [done|]. intros j Hj. specialize (Hlt (S j) Hj). lia.
Qed.

Lemma ahead_run acts T q s t1 t2 th me : linv T q s → ahead q t1 t2 →
  l_thr s !! t1 = Some th → lt_pc th = LSpin me →
  (∃ acts' th', acts' `prefix_of` acts ∧ l_thr (lrun acts' s) !! t1 = Some th' ∧ in_cs (lt_pc th') = true) ∨
  ∃ T' q', linv T' q' (lrun acts s) ∧ ahead q' t1 t2.
Proof.
  revert T q s th. induction acts as [|a acts IH]; intros T q s th Hs Ha Hth Hpc; [right; by exists T, q|].
  destruct (ahead_step T q s a t1 t2 th me Hs Ha Hth Hpc) as (T1 & q1 & Hs1 & Ha1).
  destruct (spin_on T q s a t1 th me Hs Hth Hpc) as (th1 & Hth1 & [Hpc1|Hcs]).
  - destruct (IH T1 q1 _ th1 Hs1 Ha1 Hth1 Hpc1) as [(acts' & th' & Hpre & ?)|?]; [left|by right].
    exists (a :: acts'), th'. split; [by apply prefix_cons|done].
  - left. exists [a], th1. split; [apply prefix_cons, prefix_nil|done].
Qed.

(** What [ticket_lockable] finds, in terms of the queue. *)
Lemma lockable_queue T q s t th : linv T q s → l_thr s !! t = Some th →
  ticket_lockable (load_lock (l_lock s) th) = true ↔ ∀ u, u ∈ q → u = t ∧ lt_buf th ≠ [].
Proof.
  intros Hs Ht. unfold ticket_lockable, load_lock, load_ticket. cbn [ticket users].
  rewrite bool_decide_eq_true, (ln_ticket _ _ _ _ Hs), (ln_users _ _ _ _ Hs).
  pose proof (queue_length T q s Hs) as Hlen. destruct (lt_buf th) as [|x b] eqn:Hb; cbn.
  - split.
    + intros E u Hu. apply wrap_u_inj in E; [|lia..]. assert (q = []) as -> by (apply nil_length_inv; lia).
      by apply elem_of_nil in Hu.
    + intros Hall. destruct q as [|u q']; [cbn; by rewrite Z.add_0_r|]. by destruct (Hall u) as [_ ?]; [left|].
  - destruct (is_queued T q s t th Hs Ht) as (i & Hi & Hq); [rewrite Hb; by intros [_ ?]|].
    assert (i = 0%nat ∧ x :: b = [wrap_u 16 (T + 1)]) as [-> E].
    { destruct Hq as [->|[-> [->|[->|[_ Hq]]]]]; [done..|]. by rewrite <- Hb. }
    rewrite E. cbn. destruct q as [|u q']; [done|]. cbn in Hi. injection Hi as ->. split.
    + intros Ew u Hu. cbn [length] in *. apply wrap_u_inj in Ew; [|lia..].
      assert (q' = []) as -> by (apply nil_length_inv; lia). split; [|done]. by apply list_elem_of_singleton in Hu.
    + intros Hall. assert (q' = []) as ->; [|done]. destruct q' as [|u q']; [done|].
      destruct (Hall u) as [-> _]; [right; by left|]. pose proof (ln_nodup _ _ _ _ Hs) as Hnd.
      apply list.NoDup_cons in Hnd as [Hnd _]. destruct Hnd. by left.
Qed.
End proof.

(** *** The theorems *)

(** C28: at no moment, whatever calls the threads make, however long their
    releases are buffered and however often the counters have wrapped around, are
    two threads between taking the ticket lock and releasing it. *)
Theorem ticket_mutual_exclusion nthr acts t1 t2 th1 th2 :
  0 ≤ nthr < 2 ^ 16 →
  l_thr (lrun acts (linit nthr)) !! t1 = Some th1 → in_cs (lt_pc th1) = true →
  l_thr (lrun acts (linit nthr)) !! t2 = Some th2 → in_cs (lt_pc th2) = true → t1 = t2.
Proof.
  intros Hn H1 Hc1 H2 Hc2. destruct (lrun_ok nthr Hn acts) as (T & q & Hs).
  pose proof (cs_first _ _ _ _ _ _ Hs H1 Hc1). pose proof (cs_first _ _ _ _ _ _ Hs H2 Hc2). congruence.
Qed.

(** C29: the lock is fair: a thread that is outside the lock, its releases in
    memory, while another one already waits does not enter its critical section
    before that one has. *)
Theorem ticket_fifo nthr acts1 acts2 t1 t2 th1 th2 th2' me :
  0 ≤ nthr < 2 ^ 16 →
  l_thr (lrun acts1 (linit nthr)) !! t1 = Some th1 → lt_pc th1 = LSpin me →
  l_thr (lrun acts1 (linit nthr)) !! t2 = Some th2 → lt_pc th2 = LIdle → lt_buf th2 = [] →
  l_thr (lrun (acts1 ++ acts2) (linit nthr)) !! t2 = Some th2' → in_cs (lt_pc th2') = true →
  ∃ acts th1', acts `prefix_of` acts2 ∧
    l_thr (lrun (acts1 ++ acts) (linit nthr)) !! t1 = Some th1' ∧ in_cs (lt_pc th1') = true.
Proof.
  intros Hn H1 Hp1 H2 Hp2 Hb2 Hpc Hcs. destruct (lrun_ok nthr Hn acts1) as (T & q & Hs).
  destruct (is_queued _ _ _ _ _ _ Hs H1) as (i & Hi & _).
  { intros [[E|(? & E & _)] _]; by rewrite E in Hp1. }
  assert (t2 ∉ q) as Hno by (eapply not_queued; [done..| | |]; rewrite Hp2; done).
  assert (∀ acts, lrun (acts1 ++ acts) (linit nthr) = lrun acts (lrun acts1 (linit nthr))) as Happ
    by (intros; unfold lrun; by rewrite foldl_app).
  destruct (ahead_run nthr Hn acts2 T q _ t1 t2 th1 me Hs) as [(acts & th1' & Hpre & ?)|(T' & q' & Hs' & j & Hj & Hlt)].
  - exists i. split; [done|]. intros j Hj. destruct Hno. by eapply list_elem_of_lookup_2.
  - done.
  - done.
  - exists acts, th1'. by rewrite Happ.
  - rewrite Happ in Hpc. specialize (Hlt 0%nat (cs_first _ _ _ _ _ _ Hs' Hpc Hcs)). lia.
Qed.

(** C30: [ticket_lockable], called by a thread, says whether any thread holds the
    lock or waits for it, where a release of another thread counts once it has
    reached memory and one of its own at once. *)
Theorem ticket_lockable_iff nthr acts t th :
  0 ≤ nthr < 2 ^ 16 → l_thr (lrun acts (linit nthr)) !! t = Some th →
  ticket_lockable (load_lock (l_lock (lrun acts (linit nthr))) th) = true ↔
  ∀ u thu, l_thr (lrun acts (linit nthr)) !! u = Some thu →
    (lt_pc thu = LIdle ∨ ∃ me, lt_pc thu = LTry me) ∧ (u ≠ t → lt_buf thu = []).
Proof.
  intros Hn Ht. destruct (lrun_ok nthr Hn acts) as (T & q & Hs).
  rewrite (lockable_queue nthr Hn T q _ t th Hs Ht). split.
  - intros Hall u thu Hu. destruct (decide (u ∈ q)) as [[i Hi]%list_elem_of_lookup_1|Hno].
    + destruct (Hall u) as [-> Hb]; [by eapply list_elem_of_lookup_2|]. rewrite Ht in Hu. injection Hu as <-.
      split; [|done]. destruct (ln_queued _ _ _ _ Hs i t Hi) as (th' & Hth' & Hq). rewrite Ht in Hth'.
      injection Hth' as <-. destruct Hq as [->|[_ [->|[->|[[?|(? & ? & _)] _]]]]]; [done..|by left|by right; eauto].
    + destruct (ln_idle _ _ _ _ Hs u thu Hu Hno) as [[?|(? & ? & _)] ?]; (split; [|done]); [by left|right; eauto].
  - intros Hall u [i Hi]%list_elem_of_lookup_1. destruct (ln_queued _ _ _ _ Hs i u Hi) as (thu & Hu & Hq).
    destruct (Hall u thu Hu) as [Hpc Hb].
    destruct Hq as [->|[_ [->|[->|[_ Hbu]]]]]; cbn in Hpc; [by destruct Hpc as [?|[? ?]]..|].
    destruct (decide (u = t)) as [->|Hne]; [|specialize (Hb Hne); congruence].
    rewrite Ht in Hu. injection Hu as <-. split; [done|]. by rewrite Hbu.
Qed.

(** ** Concrete runs

    Thread 0 takes the lock, threads 1 and 2 queue up behind it. *)

Definition demo_queue : list lact := [ALock 0; AStep 0; ALock 1; ALock 2; AStep 2].
Definition demo_handover : list lact :=
  [AUnlock 0; AStep 0; AStep 1; ADrain 0; AStep 2; AStep 1; AUnlock 1; AStep 1; ADrain 1; AStep 2].

Lemma ticket_mutual_exclusion_witness :
  l_thr (lrun demo_queue (linit 3)) !! 0 = Some (LThread LCrit []) ∧
  ∀ t th, l_thr (lrun demo_queue (linit 3)) !! t = Some th → in_cs (lt_pc th) = true → t = 0.
Proof.
  assert (l_thr (lrun demo_queue (linit 3)) !! 0 = Some (LThread LCrit [])) as H0 by (vm_compute; reflexivity).
  split; [exact H0|]. intros t th Ht Hcs.
  exact (ticket_mutual_exclusion 3 demo_queue t 0 th (LThread LCrit []) ltac:(lia) Ht Hcs H0 eq_refl).
Defined.

Lemma ticket_fifo_witness :
  l_thr (lrun (take 4 demo_queue ++ demo_handover) (linit 3)) !! 2 = Some (LThread LCrit []) ∧
  ∃ acts th1', acts `prefix_of` (ALock 2 :: demo_handover) ∧
    l_thr (lrun (take 3 demo_queue ++ acts) (linit 3)) !! 1 = Some th1' ∧ in_cs (lt_pc th1') = true.
Proof.
  split; [vm_compute; reflexivity|].
  apply (ticket_fifo 3 (take 3 demo_queue) (ALock 2 :: demo_handover) 1 2 (LThread (LSpin 1) [])
    (LThread LIdle []) (LThread LCrit []) 1); [lia|vm_compute; reflexivity..].
Defined.

(** A release still buffered: free for thread 0, not for thread 1. *)
Definition demo_released : lstate := lrun (take 2 demo_queue ++ [AUnlock 0; AStep 0]) (linit 3).

Lemma ticket_lockable_iff_witness :
  ticket_lockable (load_lock (l_lock demo_released) (LThread LIdle [])) = false ∧
  ∀ u thu, l_thr demo_released !! u = Some thu →
    (lt_pc thu = LIdle ∨ ∃ me, lt_pc thu = LTry me) ∧ (u ≠ 0 → lt_buf thu = []).
Proof.
  split; [vm_compute; reflexivity|].
  apply (proj1 (ticket_lockable_iff 3 (take 2 demo_queue ++ [AUnlock 0; AStep 0]) 0 (LThread LIdle [1]) ltac:(lia)
    ltac:(vm_compute; reflexivity))).
  vm_compute. reflexivity.
Defined.
