(* ===== verification/Commit.v ===== *)
(** * Commit: recording the commit order of transactions

    [mem-record-rtmcommit.c]: every [RTM_BATCH_N] accesses of a thread form a basic
    block, which runs as one hardware transaction or, after an abort, under a
    global lock; the block's commit time is logged.  A transaction takes effect at
    its commit, where it has seen the lock free; the lock is what [TicketLock]
    models. *)
From stdpp Require Import functions.
From S2P Require Import Prelude Mem Batch.

(** ** Blocks *)

(** One access. *)
Definition access_step (mem : gmap Z Z) (p : prog) : outcome (gmap Z Z * prog) :=
  match p with
  | PRet _ => Err BadAccess
  | PRead addr k => val ← arr_get mem addr; Ok (mem, k val)
  | PWrite addr val p => mem ← arr_set mem addr val; Ok (mem, p)
  end.

(** At most [n] accesses. *)
Fixpoint exec_block (n : nat) (mem : gmap Z Z) (p : prog) : outcome (gmap Z Z * prog) :=
  match n, p with
  | O, _ | S _, PRet _ => Ok (mem, p)
  | S n, _ => '(mem, p) ← access_step mem p; exec_block n mem p
  end.

(** Exactly [k] accesses. *)
Fixpoint run_accs (k : nat) (mem : gmap Z Z) (p : prog) : outcome (gmap Z Z * prog) :=
  match k with
  | O => Ok (mem, p)
  | S k => '(mem, p) ← run_accs k mem p; access_step mem p
  end.

Definition BLOCK : nat := Z.to_nat RTM_BATCH_N.

(** The specification: whole blocks, one after another, by the threads of [C]. *)
Definition block_step (t : Z) (st : gmap Z Z * gmap Z prog) : outcome (gmap Z Z * gmap Z prog) :=
  p ← arr_get st.2 t;
  '(mem, p) ← exec_block BLOCK st.1 p;
  Ok (mem, <[t := p]> st.2).

Definition run_blocks (C : list Z) (st : gmap Z Z * gmap Z prog)
    : outcome (gmap Z Z * gmap Z prog) :=
  foldl (λ r t, st ← r; block_step t st) (Ok st) C.

(** Every block of [C] makes at least one access. *)
Definition blocks_real (C : list Z) (st : gmap Z Z * gmap Z prog) : Prop :=
  ∀ C1 t C2, C = C1 ++ t :: C2 → ∃ m ps p, run_blocks C1 st = Ok (m, ps) ∧
    ps !! t = Some p ∧ ¬ ∃ r, p = PRet r.

(** ** The recorder *)

(** A thread's variables; [ct_locked] while it is in a block it runs under the
    lock. *)
Record cthread := CThread {
  ct_prog : prog;
  g_sim_bbcnt : Z;
  ct_locked : bool;
  g_commit_log : list Z }.

Record cstate := CState {
  c_mem : gmap Z Z;
  g_time : Z;
  g_lock : bool;
  c_thr : gmap Z cthread }.

(** A block commits as a transaction, a thread falls back to the lock, or a thread
    that holds the lock makes its next access. *)
Inductive caction := CCommit (t : Z) | CLock (t : Z) | CStep (t : Z).

Definition at_block_start (th : cthread) : Prop :=
  ct_locked th = false ∧ g_sim_bbcnt th mod RTM_BATCH_N = 0 ∧ ¬ ∃ r, ct_prog th = PRet r.

#[global] Instance at_block_start_dec th : Decision (at_block_start th).
Proof. unfold at_block_start. apply _. Defined.

(** [addtime]. *)
Definition addtime (time : Z) : Z * Z := (time, wrap_u 64 (time + 1)).

(** The number of accesses of a block of [p]. *)
Fixpoint block_len (n : nat) (mem : gmap Z Z) (p : prog) : Z :=
  match n, p with
  | O, _ | S _, PRet _ => 0
  | S n, _ =>
      match access_step mem p with Ok (mem, p) => 1 + block_len n mem p | Err _ => 0 end
  end.

(** A transaction from [bb_start] to [bb_end]; with the lock taken it aborts and
    has no effect. *)
Definition commit_block (t : Z) (th : cthread) (s : cstate) : outcome cstate :=
  if g_lock s then Ok s
  else
    '(mem, p) ← exec_block BLOCK (c_mem s) (ct_prog th);
    let '(ts, time) := addtime (g_time s) in
    Ok (CState mem time (g_lock s)
          (<[t := CThread p (g_sim_bbcnt th + block_len BLOCK (c_mem s) (ct_prog th)) false
                    (g_commit_log th ++ [ts])]> (c_thr s))).

(** [bb_end] outside a transaction: the lock is released and the time logged. *)
Definition bb_end_locked (t : Z) (p : prog) (bbcnt : Z) (th : cthread) (mem : gmap Z Z)
    (s : cstate) : cstate :=
  let '(ts, time) := addtime (g_time s) in
  CState mem time false
    (<[t := CThread p bbcnt false (g_commit_log th ++ [ts])]> (c_thr s)).

(** The next access of a thread that holds the lock, or its [mem_finish_thr]. *)
Definition locked_step (t : Z) (th : cthread) (s : cstate) : outcome cstate :=
  match ct_prog th with
  | PRet _ =>
      if decide (g_sim_bbcnt th mod RTM_BATCH_N ≠ 0)
      then Ok (bb_end_locked t (ct_prog th) (g_sim_bbcnt th) th (c_mem s) s)
      else Ok s
  | p =>
      '(mem, p) ← access_step (c_mem s) p;
      if decide (g_sim_bbcnt th mod RTM_BATCH_N = RTM_BATCH_N - 1)
      then Ok (bb_end_locked t p (g_sim_bbcnt th + 1) th mem s)
      else Ok (CState mem (g_time s) (g_lock s)
                 (<[t := CThread p (g_sim_bbcnt th + 1) true (g_commit_log th)]> (c_thr s)))
  end.

Definition cstep (a : caction) (s : cstate) : outcome cstate :=
  match a with
  | CCommit t =>
      match c_thr s !! t with
      | Some th => if decide (at_block_start th) then commit_block t th s else Ok s
      | None => Ok s
      end
  | CLock t =>
      match c_thr s !! t with
      | Some th =>
          if decide (at_block_start th ∧ g_lock s = false) then
            Ok (CState (c_mem s) (g_time s) true
                  (<[t := CThread (ct_prog th) (g_sim_bbcnt th) true (g_commit_log th)]> (c_thr s)))
          else Ok s
      | None => Ok s
      end
  | CStep t =>
      match c_thr s !! t with
      | Some th => if ct_locked th then locked_step t th s else Ok s
      | None => Ok s
      end
  end.

Definition crun (acts : list caction) (s : cstate) : outcome cstate :=
  foldl (λ r a, s ← r; cstep a s) (Ok s) acts.

(** [mem_init] and [mem_init_thr]. *)
Definition cinit (mem0 : gmap Z Z) (progs : gmap Z prog) : cstate :=
  CState mem0 0 false ((λ p, CThread p 0 false []) <$> progs).

(** Every thread has returned and left its last block. *)
Definition c_finished (s : cstate) : Prop :=
  ∀ t th, c_thr s !! t = Some th → (∃ r, ct_prog th = PRet r) ∧ ct_locked th = false.

#[global] Instance c_finished_dec s : Decision (c_finished s).
Proof.
  refine (cast_if (decide (map_Forall
    (λ _ th, (∃ r, ct_prog th = PRet r) ∧ ct_locked th = false) (c_thr s)))); done.
Defined.

(** ** Lemmas: blocks *)

Lemma run_accs_cons k mem p :
  run_accs (S k) mem p = '(mem, p) ← access_step mem p; run_accs k mem p.
Proof.
  induction k as [|k IH].
  - cbn. destruct (access_step mem p) as [[]|]; done.
  - change (run_accs (S (S k)) mem p) with ('(mem, p) ← run_accs (S k) mem p; access_step mem p).
    rewrite IH. by destruct (access_step mem p) as [[]|].
Qed.

(** A block is complete after [n] accesses or when the program returns. *)
Lemma exec_block_accs n k mem p mem' p' :
  run_accs k mem p = Ok (mem', p') → (k ≤ n)%nat → (k = n ∨ ∃ r, p' = PRet r) →
  exec_block n mem p = Ok (mem', p').
Proof.
  revert k mem p. induction n as [|n IH]; intros k mem p Hrun Hk Hend.
  - destruct k; [|lia]. done.
  - destruct k as [|k].
    + cbn in Hrun. injection Hrun as -> ->. destruct Hend as [?|[r ->]]; done.
    + rewrite run_accs_cons in Hrun. destruct p as [r|a f|a v p]; [done|..];
        (cbn [exec_block]; destruct (access_step mem _) as [[m1 p1]|]; [|done]);
        cbn in *; apply (IH k); [done|lia|destruct Hend; [left; lia|by right]|
                                 done|lia|destruct Hend; [left; lia|by right]].
Qed.

Lemma block_len_end n mem p mem' p' :
  exec_block n mem p = Ok (mem', p') →
  block_len n mem p = Z.of_nat n ∨ ∃ r, p' = PRet r.
Proof.
  revert mem p. induction n as [|n IH]; intros mem p H; [by left|].
  destruct p as [r|a f|a v p]; [cbn in H; injection H as _ <-; right; by exists r|..];
    (cbn [exec_block block_len] in *; destruct (access_step mem _) as [[m1 p1]|]; [|done];
     cbn in H; destruct (IH _ _ H); [left; lia|by right]).
Qed.

(** Accesses that stay within the allocated memory do not fail. *)
Definition same_dom (m1 m2 : gmap Z Z) : Prop := ∀ a, is_Some (m1 !! a) ↔ is_Some (m2 !! a).

Lemma access_step_ok mem mem0 p : same_dom mem mem0 →
  prog_within (λ a, is_Some (mem0 !! a)) p → (¬ ∃ r, p = PRet r) →
  ∃ mem' p', access_step mem p = Ok (mem', p') ∧ same_dom mem' mem0 ∧
    prog_within (λ a, is_Some (mem0 !! a)) p'.
Proof.
  intros Hd Hw Hne. destruct p as [r|a k|a v p]; [by destruct Hne; exists r|..];
    cbn in Hw; destruct Hw as [Ha Hw]; apply Hd in Ha as [x Hx]; cbn.
  - rewrite (arr_get_lookup _ _ _ Hx). cbn. eauto.
  - rewrite (arr_set_lookup _ _ _ _ Hx). cbn. eexists _, _. split_and!; [done| |done].
    intros b. rewrite lookup_insert_is_Some', (Hd b). split; [|tauto].
    intros [<-|?]; [|done]. apply Hd. eauto.
Qed.

Lemma exec_block_ok n mem mem0 p : same_dom mem mem0 →
  prog_within (λ a, is_Some (mem0 !! a)) p →
  ∃ mem' p', exec_block n mem p = Ok (mem', p') ∧ same_dom mem' mem0 ∧
    prog_within (λ a, is_Some (mem0 !! a)) p'.
Proof.
  revert mem p. induction n as [|n IH]; intros mem p Hd Hw; [by exists mem, p|].
  destruct (decide (∃ r, p = PRet r)) as [[r ->]|Hne]; [by eexists mem, _|].
  destruct (access_step_ok mem mem0 p Hd Hw Hne) as (m1 & p1 & Hst & Hd1 & Hw1).
  destruct (IH m1 p1 Hd1 Hw1) as (m2 & p2 & Hex & ? & ?).
  exists m2, p2. split_and!; [|done..].
  destruct p; [by destruct Hne; eexists|..]; cbn [exec_block]; rewrite Hst; done.
Qed.

Lemma run_blocks_cons t C st : run_blocks (t :: C) st = st' ← block_step t st; run_blocks C st'.
Proof.
  unfold run_blocks. cbn. destruct (block_step t st); [done|]. cbn. induction C; cbn; auto.
Qed.

Lemma run_blocks_snoc C t st :
  run_blocks (C ++ [t]) st = st' ← run_blocks C st; block_step t st'.
Proof. unfold run_blocks. by rewrite foldl_snoc. Qed.

Lemma blocks_real_snoc C t st : blocks_real C st →
  (∃ m ps p, run_blocks C st = Ok (m, ps) ∧ ps !! t = Some p ∧ ¬ ∃ r, p = PRet r) →
  blocks_real (C ++ [t]) st.
Proof.
  intros HC Ht C1 t' C2 E. destruct C2 as [|x C2 _] using rev_ind.
  - apply app_inj_tail in E as [-> ->]. done.
  - rewrite app_comm_cons, app_assoc in E. apply app_inj_tail in E as [-> _]. by eapply HC.
Qed.

Lemma run_blocks_dom C m ps m' ps' : run_blocks C (m, ps) = Ok (m', ps') →
  ∀ t, is_Some (ps' !! t) ↔ is_Some (ps !! t).
Proof.
  revert m' ps'. induction C as [|t0 C IH] using rev_ind; intros m' ps' H t.
  { by injection H as _ ->. }
  rewrite run_blocks_snoc in H. destruct (run_blocks C (m, ps)) as [[m1 ps1]|] eqn:E; [|done].
  cbn in H. unfold block_step, arr_get in H. cbn in H.
  destruct (ps1 !! t0) as [p|] eqn:Ht; [|done]. cbn in H.
  destruct (exec_block BLOCK m1 p) as [[m2 p2]|]; [|done]. cbn in H. injection H as _ <-.
  rewrite lookup_insert_is_Some', <- (IH m1 ps1 eq_refl). split; [|tauto].
  intros [<-|?]; [eauto|done].
Qed.

(** The times at which the blocks of thread [t] committed. *)
Definition times (t : Z) (C : list Z) : list Z :=
  wrap_u 64 <$> filter (λ i, C !! Z.to_nat i = Some t) (seqZ 0 (Z.of_nat (length C))).

Lemma times_snoc t C t' :
  times t (C ++ [t']) =
  times t C ++ (if decide (t' = t) then [wrap_u 64 (Z.of_nat (length C))] else []).
Proof.
  unfold times. rewrite length_app, Nat2Z.inj_add. cbn [length].
  rewrite seqZ_snoc, list.filter_app, fmap_app by lia. f_equal.
  - f_equal. apply filter_ext_in. intros i Hi%elem_of_seqZ. by rewrite lookup_app_l by lia.
  - rewrite filter_cons, filter_nil. rewrite Z.add_0_l, Nat2Z.id, lookup_snoc_new.
    repeat case_decide; try done; congruence.
Qed.

(** ** Lemmas: how many blocks there are *)

Lemma access_left m p m' p' l : access_step m p = Ok (m', p') → at_most p (S l) → at_most p' l.
Proof. destruct p; cbn; intros H Hl; outcome_inv; done. Qed.

Lemma exec_block_left n m p m' p' l : exec_block n m p = Ok (m', p') → at_most p l → at_most p' l.
Proof.
  revert m p l. induction n as [|n IH]; intros m p l H Hl; [by cbn in H; simplify_eq|].
  destruct p as [r|addr f|addr val p]; [by cbn in H; simplify_eq|destruct l as [|l]; [done|]..];
    (apply bind_Ok in H as ([m1 p1] & Ha & H); eapply IH; [done|];
     apply (at_most_mono _ l); [lia|by eapply access_left]).
Qed.

Lemma block_left n m p m' p' l : exec_block (S n) m p = Ok (m', p') → (¬ ∃ r, p = PRet r) → at_most p l →
  ∃ l', (l' < l)%nat ∧ at_most p' l'.
Proof.
  intros H Hr Hl. destruct p as [r|addr f|addr val p]; [by destruct Hr; exists r|destruct l as [|l]; [done|]..];
    (apply bind_Ok in H as ([m1 p1] & Ha & H); exists l; split; [lia|];
     eapply exec_block_left; [done|by eapply access_left]).
Qed.

(** Every block takes at least one of the accesses that are left. *)
Lemma blocks_bound N (l : Z → nat) C m ps m' ps' :
  (∀ t p, ps !! t = Some p → 0 ≤ t < N ∧ at_most p (l t)) →
  run_blocks C (m, ps) = Ok (m', ps') → blocks_real C (m, ps) →
  (length C ≤ sum_list_with l (seqZ 0 N))%nat.
Proof.
  revert l m ps. induction C as [|t C IH]; intros l m ps Hl Hrun Hreal; [cbn; lia|].
  destruct (Hreal [] t C eq_refl) as (m0 & ps0 & p & [= <- <-] & Hp & Hne).
  destruct (Hl t p Hp) as [Ht Hlp]. rewrite run_blocks_cons in Hrun.
  apply bind_Ok in Hrun as ([m1 ps1] & Hst & Hrun). pose proof Hst as Hst'. unfold block_step in Hst'.
  cbn in Hst'. unfold arr_get in Hst'. rewrite Hp in Hst'. cbn in Hst'.
  apply bind_Ok in Hst' as ([m2 p2] & Hex & [= <- <-]).
  destruct (block_left _ _ _ _ _ (l t) Hex Hne Hlp) as (l' & Hlt & Hl').
  assert (length C ≤ sum_list_with (<[t := l']> l) (seqZ 0 N))%nat as HC.
  { eapply (IH _ m2 (<[t := p2]> ps)); [|done|].
    - intros u q [[<- <-]|[Hu Hq]]%lookup_insert_Some.
      + by rewrite fn_lookup_insert.
      + rewrite fn_lookup_insert_ne by done. by apply Hl.
    - intros C1 u C2 ->. destruct (Hreal (t :: C1) u C2 eq_refl) as (m3 & ps3 & q & Hr & ? & ?).
      rewrite run_blocks_cons, Hst in Hr. by exists m3, ps3, q. }
  pose proof (sum_list_with_update (<[t := l']> l) l (seqZ 0 N) t (NoDup_seqZ 0 N)) as Hs.
  rewrite fn_lookup_insert in Hs. cbn [length]. enough (sum_list_with (<[t := l']> l) (seqZ 0 N) + l t
    = sum_list_with l (seqZ 0 N) + l')%nat by lia.
  apply Hs; [apply elem_of_seqZ; lia|]. intros u _ Hu. by rewrite fn_lookup_insert_ne.
Qed.

(** ** Lemmas: the recorder *)

Section recorder.
Context (mem0 : gmap Z Z) (progs : gmap Z prog).
Local Abbreviation within := (prog_within (λ a, is_Some (mem0 !! a))).
Context (Hprogs : ∀ t p, progs !! t = Some p → within p).

(** The thread that holds the lock has made the first [k] accesses of a block. *)
Record in_block (m : gmap Z Z) (ps : gmap Z prog) (s : cstate) (t : Z) (th : cthread) : Prop := {
  ib_thr : c_thr s !! t = Some th;
  ib_locked : ct_locked th = true;
  ib_accs : ∃ k p, ps !! t = Some p ∧ run_accs k m p = Ok (c_mem s, ct_prog th) ∧
    (k < BLOCK)%nat ∧ g_sim_bbcnt th mod RTM_BATCH_N = Z.of_nat k ∧
    (k = 0%nat → ¬ ∃ r, p = PRet r) }.

(** [m] and [ps] are memory and programs after the blocks of [C]. *)
Record cinv (C : list Z) (m : gmap Z Z) (ps : gmap Z prog) (s : cstate) : Prop := {
  ci_run : run_blocks C (mem0, progs) = Ok (m, ps);
  ci_real : blocks_real C (mem0, progs);
  ci_dom : ∀ t, is_Some (c_thr s !! t) ↔ is_Some (ps !! t);
  ci_mem : same_dom m mem0 ∧ same_dom (c_mem s) mem0;
  ci_within : ∀ t th, c_thr s !! t = Some th → within (ct_prog th);
  ci_time : g_time s = wrap_u 64 (Z.of_nat (length C));
  ci_log : ∀ t th, c_thr s !! t = Some th → g_commit_log th = times t C;
  ci_idle : ∀ t th, c_thr s !! t = Some th → ct_locked th = false →
    ps !! t = Some (ct_prog th) ∧ (g_sim_bbcnt th mod RTM_BATCH_N = 0 ∨ ∃ r, ct_prog th = PRet r);
  ci_free : g_lock s = false → c_mem s = m ∧
    ∀ t th, c_thr s !! t = Some th → ct_locked th = false;
  ci_busy : g_lock s = true → ∃ t th, in_block m ps s t th ∧
    ∀ t' th', t' ≠ t → c_thr s !! t' = Some th' → ct_locked th' = false }.

Lemma cinit_inv : cinv [] mem0 progs (cinit mem0 progs).
Proof.
  assert (∀ t th, c_thr (cinit mem0 progs) !! t = Some th →
    ∃ p, progs !! t = Some p ∧ th = CThread p 0 false []) as Hthr.
  { intros t th. cbn. rewrite lookup_fmap. destruct (progs !! t) as [p|]; [|done].
    intros [= <-]. eauto. }
  constructor; try done.
  - intros C1 t C2 H. by destruct C1.
  - intros t. cbn. by rewrite lookup_fmap, fmap_is_Some.
  - intros t th (p & Hp & ->)%Hthr. by eapply Hprogs.
  - intros t th (p & _ & ->)%Hthr. done.
  - intros t th (p & Hp & ->)%Hthr _. split; [done|by left].
  - intros _. split; [done|]. by intros t th (p & _ & ->)%Hthr.
Qed.

(** A complete block of thread [t], which goes from [th] to [th']. *)
Lemma cinv_block C m ps s t th th' mem' :
  cinv C m ps s → c_thr s !! t = Some th → (∃ p, ps !! t = Some p ∧
    (¬ ∃ r, p = PRet r) ∧ exec_block BLOCK m p = Ok (mem', ct_prog th')) → same_dom mem' mem0 → within (ct_prog th') →
  (∀ t2 th2, t2 ≠ t → c_thr s !! t2 = Some th2 → ct_locked th2 = false) →
  ct_locked th' = false → g_commit_log th' = g_commit_log th ++ [g_time s] →
  (g_sim_bbcnt th' mod RTM_BATCH_N = 0 ∨ ∃ r, ct_prog th' = PRet r) →
  cinv (C ++ [t]) mem' (<[t := ct_prog th']> ps)
    (CState mem' (wrap_u 64 (g_time s + 1)) false (<[t := th']> (c_thr s))).
Proof.
  intros Hs Hth (p & Hp & Hnr & Hex) Hd Hw Hother Hl Hlog Hcnt.
  constructor; cbn [c_mem g_time g_lock c_thr]; try done.
  - rewrite run_blocks_snoc, (ci_run _ _ _ _ Hs). cbn. unfold block_step. cbn.
    rewrite (arr_get_lookup _ _ _ Hp). cbn. by rewrite Hex.
  - apply blocks_real_snoc; [apply (ci_real _ _ _ _ Hs)|].
    exists m, ps, p. split_and!; [apply (ci_run _ _ _ _ Hs)|done..].
  - intros t2. rewrite !lookup_insert_is_Some', (ci_dom _ _ _ _ Hs). done.
  - intros t2 th2 [[<- <-]|[Hne H2]]%lookup_insert_Some; [done|]. by eapply (ci_within _ _ _ _ Hs).
  - rewrite (ci_time _ _ _ _ Hs), length_app. unfold wrap_u. cbn.
    rewrite Zplus_mod_idemp_l. f_equal. lia.
  - intros t2 th2 [[<- <-]|[Hne H2]]%lookup_insert_Some; rewrite times_snoc.
    + rewrite decide_True by done. by rewrite Hlog, (ci_log _ _ _ _ Hs _ _ Hth), (ci_time _ _ _ _ Hs).
    + rewrite decide_False, app_nil_r by done. by apply (ci_log _ _ _ _ Hs).
  - intros t2 th2 [[<- <-]|[Hne H2]]%lookup_insert_Some Hl2; [by rewrite lookup_insert_eq|].
    rewrite lookup_insert_ne by done. by apply (ci_idle _ _ _ _ Hs).
  - intros _. split; [done|].
    intros t2 th2 [[<- <-]|[Hne H2]]%lookup_insert_Some; [done|]. by eapply Hother.
Qed.

Lemma commit_block_ok C m ps s t th :
  cinv C m ps s → c_thr s !! t = Some th → at_block_start th →
  ∃ s' C' m' ps', commit_block t th s = Ok s' ∧ cinv C' m' ps' s' ∧
    (length C' ≤ S (length C))%nat.
Proof.
  intros Hs Hth (Hl & Hcnt & Hne). unfold commit_block.
  destruct (g_lock s) eqn:Hlock; [exists s, C, m, ps; auto|].
  destruct (ci_free _ _ _ _ Hs Hlock) as [Hm Hothers].
  destruct (exec_block_ok BLOCK (c_mem s) mem0 (ct_prog th)) as (mem' & p' & Hex & Hd & Hw);
    [apply (ci_mem _ _ _ _ Hs)|by eapply (ci_within _ _ _ _ Hs)|].
  rewrite Hex. cbn.
  exists (CState mem' (wrap_u 64 (g_time s + 1)) false (<[t := CThread p'
    (g_sim_bbcnt th + block_len BLOCK (c_mem s) (ct_prog th)) false
    (g_commit_log th ++ [g_time s])]> (c_thr s))), (C ++ [t]), mem', (<[t := p']> ps).
  split_and!; [done| |rewrite length_app; cbn; lia].
  eapply (cinv_block C m ps s t th (CThread p' _ false _)); try done.
  - destruct (ci_idle _ _ _ _ Hs t th Hth Hl) as [Hp _]. exists (ct_prog th).
    split_and!; [done..|]. by rewrite <- Hm.
  - intros t2 th2 _. apply Hothers.
  - cbn [g_sim_bbcnt ct_prog]. destruct (block_len_end _ _ _ _ _ Hex) as [->|?]; [left|by right].
    change (Z.of_nat BLOCK) with RTM_BATCH_N. by rewrite Zplus_mod, Hcnt.
Qed.

Lemma lock_ok C m ps s t th :
  cinv C m ps s → c_thr s !! t = Some th → at_block_start th → g_lock s = false →
  cinv C m ps (CState (c_mem s) (g_time s) true
    (<[t := CThread (ct_prog th) (g_sim_bbcnt th) true (g_commit_log th)]> (c_thr s))).
Proof.
  intros Hs Hth (Hl & Hcnt & Hne) Hlock. destruct (ci_free _ _ _ _ Hs Hlock) as [Hm Hothers].
  destruct (ci_idle _ _ _ _ Hs t th Hth Hl) as [Hp _].
  constructor; cbn [c_mem g_time g_lock c_thr]; try done; try apply Hs.
  - intros t2. rewrite lookup_insert_is_Some', (ci_dom _ _ _ _ Hs). split; [|tauto].
    intros [<-|?]; [eauto|done].
  - intros t2 th2 [[<- <-]|[_ H2]]%lookup_insert_Some; [by eapply (ci_within _ _ _ _ Hs t th)|].
    by eapply (ci_within _ _ _ _ Hs).
  - intros t2 th2 [[<- <-]|[_ H2]]%lookup_insert_Some; [by apply (ci_log _ _ _ _ Hs t th)|].
    by apply (ci_log _ _ _ _ Hs).
  - intros t2 th2 [[<- <-]|[_ H2]]%lookup_insert_Some Hl2; [done|]. by apply (ci_idle _ _ _ _ Hs).
  - intros _. eexists t, _. split.
    + constructor; [cbn; apply lookup_insert_eq|done|]. exists 0%nat, (ct_prog th).
      cbn. rewrite Hm. split_and!; try done. unfold BLOCK, RTM_BATCH_N. lia.
    + intros t2 th2 Hne2 [[<- <-]|[_ H2]]%lookup_insert_Some; [done|]. by eapply Hothers.
Qed.

(** An access inside a block that does not end it. *)
Lemma locked_access C m ps s t th mem' p' k p :
  cinv C m ps s → c_thr s !! t = Some th → ct_locked th = true →
  (∀ t2 th2, t2 ≠ t → c_thr s !! t2 = Some th2 → ct_locked th2 = false) →
  ps !! t = Some p → run_accs (S k) m p = Ok (mem', p') → (S k < BLOCK)%nat →
  g_sim_bbcnt th mod RTM_BATCH_N = Z.of_nat k → g_lock s = true →
  same_dom mem' mem0 → within p' →
  cinv C m ps (CState mem' (g_time s) (g_lock s)
    (<[t := CThread p' (g_sim_bbcnt th + 1) true (g_commit_log th)]> (c_thr s))).
Proof.
  intros Hs Hth Hl Hother Hp Hrun Hk Hcnt Hlock Hd Hw.
  constructor; cbn [c_mem g_time g_lock c_thr]; try apply Hs.
  - intros t2. rewrite lookup_insert_is_Some', (ci_dom _ _ _ _ Hs). split; [|tauto].
    intros [<-|?]; [eauto|done].
  - split; [apply Hs|done].
  - intros t2 th2 [[<- <-]|[_ H2]]%lookup_insert_Some; [done|]. by eapply (ci_within _ _ _ _ Hs).
  - intros t2 th2 [[<- <-]|[_ H2]]%lookup_insert_Some; [by apply (ci_log _ _ _ _ Hs t th)|].
    by apply (ci_log _ _ _ _ Hs).
  - intros t2 th2 [[<- <-]|[_ H2]]%lookup_insert_Some Hl2; [done|]. by apply (ci_idle _ _ _ _ Hs).
  - congruence.
  - intros _. eexists t, _. split.
    + constructor; [cbn; apply lookup_insert_eq|done|]. exists (S k), p. cbn [c_mem ct_prog g_sim_bbcnt].
      split_and!; try done. unfold BLOCK, RTM_BATCH_N in *.
      rewrite <- Zplus_mod_idemp_l, Hcnt, Z.mod_small; lia.
    + intros t2 th2 Hne2 [[<- <-]|[_ H2]]%lookup_insert_Some; [done|]. by eapply Hother.
Qed.

(** The end of a block under the lock. *)
Lemma locked_end C m ps s t th th' mem' k p :
  cinv C m ps s → c_thr s !! t = Some th →
  (∀ t2 th2, t2 ≠ t → c_thr s !! t2 = Some th2 → ct_locked th2 = false) →
  ps !! t = Some p → run_accs k m p = Ok (mem', ct_prog th') → (k ≤ BLOCK)%nat →
  (k = 0%nat → ¬ ∃ r, p = PRet r) →
  (k = BLOCK ∧ g_sim_bbcnt th' mod RTM_BATCH_N = 0 ∨ ∃ r, ct_prog th' = PRet r) →
  same_dom mem' mem0 → within (ct_prog th') → ct_locked th' = false →
  g_commit_log th' = g_commit_log th ++ [g_time s] →
  ∃ s' C' m' ps', Ok (CState mem' (wrap_u 64 (g_time s + 1)) false (<[t := th']> (c_thr s))) = Ok s' ∧
    cinv C' m' ps' s' ∧ (length C' ≤ S (length C))%nat.
Proof.
  intros Hs Hth Hother Hp Hrun Hk Hk0 Hend Hd Hw Hl Hlog.
  eexists _, (C ++ [t]), mem', _. split; [done|]. split; [|rewrite length_app; cbn; lia].
  eapply (cinv_block C m ps s t th th'); try done; [|tauto].
  exists p. split_and!; [done| |eapply exec_block_accs; [done..|tauto]].
  destruct k; [auto|]. intros [r ->]. by rewrite run_accs_cons in Hrun.
Qed.

Lemma locked_step_access t th s : (¬ ∃ r, ct_prog th = PRet r) →
  locked_step t th s =
  '(mem, p) ← access_step (c_mem s) (ct_prog th);
  if decide (g_sim_bbcnt th mod RTM_BATCH_N = RTM_BATCH_N - 1)
  then Ok (bb_end_locked t p (g_sim_bbcnt th + 1) th mem s)
  else Ok (CState mem (g_time s) (g_lock s)
             (<[t := CThread p (g_sim_bbcnt th + 1) true (g_commit_log th)]> (c_thr s))).
Proof. intros Hne. unfold locked_step. destruct (ct_prog th); [by destruct Hne; eexists|done..]. Qed.

Lemma locked_step_ok C m ps s t th :
  cinv C m ps s → c_thr s !! t = Some th → ct_locked th = true →
  ∃ s' C' m' ps', locked_step t th s = Ok s' ∧ cinv C' m' ps' s' ∧ (length C' ≤ S (length C))%nat.
Proof.
  intros Hs Hth Hl. destruct (g_lock s) eqn:Hlock.
  2:{ destruct (ci_free _ _ _ _ Hs Hlock) as [_ H]. rewrite (H t th Hth) in Hl. done. }
  destruct (ci_busy _ _ _ _ Hs Hlock)
    as (t0 & th0 & [Hth0 _ (k & p & Hp & Hrun & Hk & Hcnt & Hk0)] & Hother).
  assert (t0 = t) as ->.
  { destruct (decide (t0 = t)) as [|Hne]; [done|]. rewrite (Hother t th) in Hl by done. done. }
  rewrite Hth in Hth0. injection Hth0 as <-.
  pose proof (ci_within _ _ _ _ Hs t th Hth) as Hw. pose proof (ci_mem _ _ _ _ Hs) as [_ Hd].
  destruct (decide (∃ r, ct_prog th = PRet r)) as [[r Hr]|Hne].
  - assert (k ≠ 0%nat) as Hk1.
    { intros ->. cbn in Hrun. injection Hrun as _ ->. apply Hk0; [done|]. by exists r. }
    unfold locked_step. rewrite Hr, decide_True, <- Hr by lia.
    eapply (locked_end C m ps s t th (CThread (ct_prog th) _ false _)); try done; [lia|].
    right. by exists r.
  - destruct (access_step_ok (c_mem s) mem0 (ct_prog th) Hd Hw Hne) as (m1 & p1 & Hst & Hd1 & Hw1).
    assert (run_accs (S k) m p = Ok (m1, p1)) as Hrun1 by (cbn; by rewrite Hrun).
    rewrite locked_step_access, Hst by done. cbn [mbind outcome_bind]. case_decide as Hlast.
    + eapply (locked_end C m ps s t th (CThread p1 _ false _)); try done. left.
      assert (S k = BLOCK) as Hb by (unfold BLOCK, RTM_BATCH_N in *; lia). split; [done|].
      cbn [g_sim_bbcnt]. by rewrite <- Zplus_mod_idemp_l, Hlast.
    + eexists _, C, m, ps. split; [done|]. split; [|lia].
      eapply locked_access; try done. unfold BLOCK, RTM_BATCH_N in *. lia.
Qed.

Lemma cstep_ok C m ps s a : cinv C m ps s →
  ∃ s' C' m' ps', cstep a s = Ok s' ∧ cinv C' m' ps' s' ∧ (length C' ≤ S (length C))%nat.
Proof.
  intros Hs. assert (∃ s' C' m' ps', Ok s = Ok s' ∧ cinv C' m' ps' s' ∧
    (length C' ≤ S (length C))%nat) as Hstay by (exists s, C, m, ps; auto).
  destruct a as [t|t|t]; cbn; (destruct (c_thr s !! t) as [th|] eqn:Hth; [|done]).
  - case_decide; [by eapply commit_block_ok|done].
  - case_decide as Hd; [|done]. destruct Hd. eexists _, C, m, ps. split; [done|].
    split; [by apply lock_ok|lia].
  - destruct (ct_locked th) eqn:Hl; [by eapply locked_step_ok|done].
Qed.

Lemma crun_ok acts : ∃ s C m ps, crun acts (cinit mem0 progs) = Ok s ∧ cinv C m ps s ∧
  (length C ≤ length acts)%nat.
Proof.
  unfold crun. induction acts as [|a acts IH] using rev_ind.
  { exists (cinit mem0 progs), [], mem0, progs. split_and!; [done|apply cinit_inv|done]. }
  destruct IH as (s & C & m & ps & Hrun & Hs & Hlen). rewrite foldl_snoc, Hrun. cbn.
  destruct (cstep_ok C m ps s a Hs) as (s' & C' & m' & ps' & Hst & Hs' & Hlen').
  exists s', C', m', ps'. split_and!; [done..|]. rewrite length_app. cbn. lia.
Qed.

(** What a finished recording leaves is what its blocks in commit order leave. *)
Lemma commit_finished C m ps s : cinv C m ps s → c_finished s →
  run_blocks C (mem0, progs) = Ok (c_mem s, ct_prog <$> c_thr s) ∧
  blocks_real C (mem0, progs) ∧
  ∀ t th, c_thr s !! t = Some th → g_commit_log th = times t C.
Proof.
  intros Hs Hf. split_and!; [|apply (ci_real _ _ _ _ Hs)|apply (ci_log _ _ _ _ Hs)]. rewrite (ci_run _ _ _ _ Hs).
  assert (g_lock s = false) as Hlock.
  { destruct (g_lock s) eqn:Hlock; [|done].
    destruct (ci_busy _ _ _ _ Hs Hlock) as (t & th & [Hth Hl _] & _).
    destruct (Hf t th Hth). congruence. }
  destruct (ci_free _ _ _ _ Hs Hlock) as [-> Hall]. do 2 f_equal. apply map_eq. intros t.
  rewrite lookup_fmap. destruct (c_thr s !! t) as [th|] eqn:Hth; cbn.
  - destruct (ci_idle _ _ _ _ Hs t th Hth (Hall t th Hth)) as [-> _]. done.
  - apply eq_None_not_Some. intros Hp. apply (ci_dom _ _ _ _ Hs) in Hp as [? ?]. congruence.
Qed.
End recorder.
