(* ===== verification/CommitTso.v ===== *)
(** * CommitTso: the commit-order recorder on x86-TSO

    [Commit] treats the accesses of a block under the lock, [bb_end] and the lock
    itself as single steps on memory.  Here they are instructions of a machine with
    store buffers: the fallback block runs under the ticket lock of
    [ticket-spinlock.h], its stores, the increment of [g_time] and the release of
    the lock wait in the thread's buffer, and [spin_lockable] reads the lock word
    that is in memory.  Every run of this machine is a run of [Commit]. *)
From S2P Require Import Prelude Mem Batch Sched TicketLock Commit.

(** ** The machine *)

(** What the threads share. *)
Record kmem := KMem {
  k_mem : gmap Z Z;
  k_time : Z;
  k_lock : ticketlock }.

(** A store: to the data, to [g_time], or to the field [ticket] of [g_lock]. *)
Inductive kstore :=
| KData (addr val : Z)
| KTime (x : Z)
| KTicket (x : Z).

Definition kput (st : kstore) (m : kmem) : kmem :=
  match st with
  | KData addr val => KMem (<[addr := val]> (k_mem m)) (k_time m) (k_lock m)
  | KTime x => KMem (k_mem m) x (k_lock m)
  | KTicket x => KMem (k_mem m) (k_time m) (TicketLock x (users (k_lock m)))
  end.

Definition kflush (b : list kstore) (m : kmem) : kmem := foldl (λ m st, kput st m) m b.

(** Where a thread is. *)
Inductive kpc :=
| KOut                      (* between two blocks *)
| KXadd                     (* the transaction has aborted: atomic_xadd of ticket_lock *)
| KSpin (me : Z)            (* ticket_lock: while (t->s.ticket != me) *)
| KIn                       (* in a block under the lock *)
| KEnd                      (* bb_end: gettime(), the load of g_time *)
| KTimeSt (ts : Z)          (* the store of g_time *)
| KUnlock (ts : Z)          (* ticket_unlock: the load of t->s.ticket *)
| KUnlockSt (ts x : Z)      (* the store of t->s.ticket *)
| KLogC (ts : Z).           (* log_commit(ts) *)

Record kthread := KThread {
  k_prog : prog;
  k_bbcnt : Z;
  k_log : list Z;
  k_pc : kpc }.

Record kstate := KState {
  k_m : kmem;
  k_buf : gmap Z (list kstore);
  k_thr : gmap Z kthread }.

(** A transaction that commits, or aborts at [spin_lockable]; one that aborts for
    another reason; the next instruction of a thread; its oldest buffered store
    reaching memory. *)
Inductive kact := KTx (t : Z) | KFall (t : Z) | KExec (t : Z) | KDrain (t : Z).

(** [bb_start] is next: a block begins. *)
Definition k_start (th : kthread) : Prop :=
  k_pc th = KOut ∧ k_bbcnt th mod RTM_BATCH_N = 0 ∧ ¬ ∃ r, k_prog th = PRet r.

#[global] Instance kpc_eq_dec : EqDecision kpc.
Proof. solve_decision. Defined.
#[global] Instance k_start_dec th : Decision (k_start th).
Proof. unfold k_start. apply _. Defined.

(** A transaction has aborted: [bb_start] goes on with [spin_lock]. *)
Definition tx_abort (t : Z) (th : kthread) (k : kstate) : kstate :=
  KState (k_m k) (k_buf k) (<[t := KThread (k_prog th) (k_bbcnt th) (k_log th) KXadd]> (k_thr k)).

(** A transaction from [_xbegin] to [_xend], and [log_commit]. *)
Definition tx_block (t : Z) (th : kthread) (k : kstate) : outcome kstate :=
  if ticket_lockable (k_lock (k_m k)) then
    '(mem, p) ← exec_block BLOCK (k_mem (k_m k)) (k_prog th);
    let '(ts, time) := addtime (k_time (k_m k)) in
    Ok (KState (KMem mem time (k_lock (k_m k))) (k_buf k)
          (<[t := KThread p (k_bbcnt th + block_len BLOCK (k_mem (k_m k)) (k_prog th))
                    (k_log th ++ [ts]) KOut]> (k_thr k)))
  else Ok (tx_abort t th k).

(** The fetch-and-add of [ticket_lock]. *)
Definition kxadd (t : Z) (th : kthread) (k : kstate) : kstate :=
  let '(me, l) := xadd_users (k_lock (k_m k)) in
  KState (KMem (k_mem (k_m k)) (k_time (k_m k)) l) (k_buf k)
    (<[t := KThread (k_prog th) (k_bbcnt th) (k_log th) (KSpin me)]> (k_thr k)).

(** The next instruction of a thread that sees memory as [v]: what it stores, and
    its variables.  The access and [g_sim_bbcnt++] are one step, the test for the
    end of the block is made before. *)
Definition kinstr (th : kthread) (v : kmem) : outcome (list kstore * kthread) :=
  let goto pc := KThread (k_prog th) (k_bbcnt th) (k_log th) pc in
  match k_pc th with
  | KOut | KXadd => Ok ([], th)
  | KSpin me => Ok ([], if decide (ticket (k_lock v) = me) then goto KIn else th)
  | KIn =>
      match k_prog th with
      | PRet _ => Ok ([], if decide (k_bbcnt th mod RTM_BATCH_N ≠ 0) then goto KEnd else th)
      | p =>
          '(_, p') ← access_step (k_mem v) p;
          Ok (match p with PWrite addr val _ => [KData addr val] | _ => [] end,
              KThread p' (k_bbcnt th + 1) (k_log th)
                (if decide (k_bbcnt th mod RTM_BATCH_N = RTM_BATCH_N - 1) then KEnd else KIn))
      end
  | KEnd => Ok ([], goto (KTimeSt (k_time v)))
  | KTimeSt ts => Ok ([KTime (wrap_u 64 (ts + 1))], goto (KUnlock ts))
  | KUnlock ts => Ok ([], goto (KUnlockSt ts (ticket (k_lock v))))
  | KUnlockSt ts x => Ok ([KTicket (wrap_u 16 (x + 1))], goto (KLogC ts))
  | KLogC ts => Ok ([], KThread (k_prog th) (k_bbcnt th) (k_log th ++ [ts]) KOut)
  end.

(** Transactions and the fetch-and-add wait for an empty buffer. *)
Definition kstep (a : kact) (k : kstate) : outcome kstate :=
  match a with
  | KTx t =>
      match k_thr k !! t, k_buf k !! t with
      | Some th, Some [] => if decide (k_start th) then tx_block t th k else Ok k
      | _, _ => Ok k
      end
  | KFall t =>
      match k_thr k !! t, k_buf k !! t with
      | Some th, Some [] =>
          Ok (if decide (k_start th) then tx_abort t th k else k)
      | _, _ => Ok k
      end
  | KExec t =>
      match k_thr k !! t, k_buf k !! t with
      | Some th, Some b =>
          if decide (k_pc th = KXadd) then Ok (if decide (b = []) then kxadd t th k else k) else
          '(sts, th') ← kinstr th (kflush b (k_m k));
          Ok (KState (k_m k) (<[t := b ++ sts]> (k_buf k)) (<[t := th']> (k_thr k)))
      | _, _ => Ok k
      end
  | KDrain t =>
      match k_buf k !! t with
      | Some (st :: b) => Ok (KState (kput st (k_m k)) (<[t := b]> (k_buf k)) (k_thr k))
      | _ => Ok k
      end
  end.

Definition krun (acts : list kact) (k : kstate) : outcome kstate := run_sched kstep acts k.

(** [mem_init] and [mem_init_thr]; [g_lock] and [g_time] are static and start as
    zero. *)
Definition kinit (mem0 : gmap Z Z) (progs : gmap Z prog) : kstate :=
  KState (KMem mem0 0 (TicketLock 0 0)) ((λ _, []) <$> progs) ((λ p, KThread p 0 [] KOut) <$> progs).

(** Every thread has returned from [mem_finish_thr], its stores have reached
    memory. *)
Definition k_finished (k : kstate) : Prop :=
  map_Forall (λ _ th, (∃ r, k_prog th = PRet r) ∧ k_pc th = KOut) (k_thr k) ∧
  map_Forall (λ _ b, b = []) (k_buf k).

#[global] Instance k_finished_dec k : Decision (k_finished k).
Proof. apply _. Defined.

(** ** Lemmas: stores *)

Lemma kflush_app b1 b2 m : kflush (b1 ++ b2) m = kflush b2 (kflush b1 m).
Proof. unfold kflush. by rewrite foldl_app. Qed.

Definition no_ticket (b : list kstore) : Prop := ∀ x, KTicket x ∉ b.

Lemma no_ticket_snoc b st : no_ticket b → (∀ x, st ≠ KTicket x) → no_ticket (b ++ [st]).
Proof. intros Hb Hst x. rewrite elem_of_app, list_elem_of_singleton. intros [?|?]; [by eapply Hb|congruence]. Qed.

Lemma kflush_lock b m : no_ticket b → k_lock (kflush b m) = k_lock m.
Proof.
  revert m. induction b as [|st b IH]; intros m Hb; [done|].
  change (kflush (st :: b) m) with (kflush b (kput st m)).
  rewrite IH by (intros x Hx; apply (Hb x); set_solver). destruct st; [done..|].
  destruct (Hb x). set_solver.
Qed.

(** The data and the time do not depend on the lock. *)
Lemma kflush_users b m l :
  k_mem (kflush b (KMem (k_mem m) (k_time m) l)) = k_mem (kflush b m) ∧
  k_time (kflush b (KMem (k_mem m) (k_time m) l)) = k_time (kflush b m).
Proof.
  revert m l. induction b as [|st b IH]; intros m l; [done|].
  change (kflush (st :: b) ?m) with (kflush b (kput st m)).
  destruct (IH (kput st m) (k_lock (kput st (KMem (k_mem m) (k_time m) l)))) as [<- <-].
  by destruct st.
Qed.

(** ** The machine and [Commit] *)

Definition in_block_pc (pc : kpc) : bool := match pc with KIn => true | _ => false end.

(** The time the thread has taken, or will take from [time], but not logged. *)
Definition unlogged (pc : kpc) (time : Z) : list Z :=
  match pc with
  | KEnd => [time]
  | KTimeSt ts | KUnlock ts | KUnlockSt ts _ | KLogC ts => [ts]
  | _ => []
  end.

(** The thread in [Commit]: its block ends with the last access. *)
Definition cabs (th : kthread) (time : Z) : cthread :=
  CThread (k_prog th) (k_bbcnt th) (in_block_pc (k_pc th)) (k_log th ++ unlogged (k_pc th) time).

Lemma cabs_time th x y : k_pc th ≠ KEnd → cabs th x = cabs th y.
Proof. intros H. unfold cabs. by destruct (k_pc th). Qed.

(** The thread at the head of the lock's queue, with ticket [T]: it waits for its
    turn, which has come, it is in its block, in [bb_end], or its release of the
    lock is on the way to memory. *)
Definition head_ok (T : Z) (th : kthread) (b : list kstore) (m : kmem) (s : cstate) : Prop :=
  let v := kflush b m in
  match k_pc th with
  | KSpin me => me = wrap_u 16 T ∧ b = [] ∧ k_time v = g_time s ∧ g_lock s = false
  | KIn => no_ticket b ∧ k_time v = g_time s ∧ g_lock s = true
  | KEnd => no_ticket b ∧ wrap_u 64 (k_time v + 1) = g_time s ∧ g_lock s = false
  | KTimeSt ts => no_ticket b ∧ wrap_u 64 (ts + 1) = g_time s ∧ g_lock s = false
  | KUnlock ts => no_ticket b ∧ k_time v = g_time s ∧ g_lock s = false
  | KUnlockSt ts x => x = wrap_u 16 T ∧ no_ticket b ∧ k_time v = g_time s ∧ g_lock s = false
  | KXadd => False
  | KLogC _ | KOut =>
      (∃ b', b = b' ++ [KTicket (wrap_u 16 (T + 1))] ∧ no_ticket b') ∧ k_time v = g_time s ∧
      g_lock s = false
  end.

(** A thread that is about to take the lock is at the start of a block. *)
Definition spin_ok (th : kthread) : Prop :=
  match k_pc th with
  | KXadd | KSpin _ => k_bbcnt th mod RTM_BATCH_N = 0 ∧ ¬ ∃ r, k_prog th = PRet r
  | _ => True
  end.

(** Where a thread without a ticket is. *)
Definition outside (pc : kpc) : bool := match pc with KOut | KXadd | KLogC _ => true | _ => false end.

(** [q] is the lock's queue. *)
Record krel (T : Z) (q : list Z) (k : kstate) (s : cstate) : Prop := {
  kr_ticket : ticket (k_lock (k_m k)) = wrap_u 16 T;
  kr_users : users (k_lock (k_m k)) = wrap_u 16 (T + Z.of_nat (length q));
  kr_nodup : NoDup q;
  kr_wait : ∀ i t, q !! S i = Some t →
    ∃ th, k_thr k !! t = Some th ∧ k_pc th = KSpin (wrap_u 16 (T + Z.of_nat (S i)));
  kr_spin : ∀ t th, k_thr k !! t = Some th → spin_ok th;
  kr_out : ∀ t th, k_thr k !! t = Some th → t ∉ q → outside (k_pc th) = true;
  kr_buf : ∀ t b, k_buf k !! t = Some b → b = [] ∨ head q = Some t;
  kr_dom : ∀ t, is_Some (k_buf k !! t) ↔ is_Some (k_thr k !! t);
  kr_cdom : ∀ t, is_Some (c_thr s !! t) ↔ is_Some (k_thr k !! t);
  kr_thr : ∀ t th b, k_thr k !! t = Some th → k_buf k !! t = Some b →
    c_thr s !! t = Some (cabs th (k_time (kflush b (k_m k))));
  kr_head : match q with
    | [] => k_mem (k_m k) = c_mem s ∧ k_time (k_m k) = g_time s ∧ g_lock s = false
    | o :: _ => ∃ th b, k_thr k !! o = Some th ∧ k_buf k !! o = Some b ∧
        k_mem (kflush b (k_m k)) = c_mem s ∧ head_ok T th b (k_m k) s
    end }.

Section refinement.
Context (mem0 : gmap Z Z) (progs : gmap Z prog).

(** Threads other than the head of the queue are not in [bb_end]. *)
Lemma not_end T q k s t th : krel T q k s → k_thr k !! t = Some th → head q ≠ Some t → k_pc th ≠ KEnd.
Proof.
  intros Hk Hth Hh. destruct (decide (t ∈ q)) as [[i Hi]%list_elem_of_lookup_1|Hn].
  - destruct i as [|i]; [by destruct q; destruct Hh|].
    destruct (kr_wait _ _ _ _ Hk i t Hi) as (th' & Hth' & Hpc). congruence.
  - pose proof (kr_out _ _ _ _ Hk t th Hth Hn) as Ho. intros E. by rewrite E in Ho.
Qed.

(** A step of the head of the queue. *)
Lemma krel_head T o q k s th' b' m' s' :
  krel T (o :: q) k s → is_Some (k_thr k !! o) → k_lock m' = k_lock (k_m k) →
  c_thr s' = <[o := cabs th' (k_time (kflush b' m'))]> (c_thr s) →
  k_mem (kflush b' m') = c_mem s' → head_ok T th' b' m' s' → spin_ok th' →
  krel T (o :: q) (KState m' (<[o := b']> (k_buf k)) (<[o := th']> (k_thr k))) s'.
Proof.
  intros Hk Ho Hl Hthr Hm Hh Hsp. pose proof (kr_nodup _ _ _ _ Hk) as Hnd.
  apply list.NoDup_cons in Hnd as [Hno _].
  constructor; cbn [k_m k_buf k_thr]; rewrite ?Hl; try apply Hk.
  - intros i t Hi. rewrite lookup_insert_ne; [by apply (kr_wait _ _ _ _ Hk)|].
    intros <-. by apply Hno, (list_elem_of_lookup_2 _ i).
  - intros t th [[<- <-]|[Hne Ht]]%lookup_insert_Some; [done|]. by apply (kr_spin _ _ _ _ Hk t).
  - intros t th [[<- <-]|[Hne Ht]]%lookup_insert_Some Hn; [by destruct Hn; left|].
    by apply (kr_out _ _ _ _ Hk t).
  - intros t b [[<- <-]|[Hne Ht]]%lookup_insert_Some; [by right|]. by apply (kr_buf _ _ _ _ Hk).
  - intros t. rewrite !lookup_insert_is_Some', (kr_dom _ _ _ _ Hk). done.
  - intros t. rewrite Hthr, !lookup_insert_is_Some', (kr_cdom _ _ _ _ Hk). done.
  - intros t th b [[<- <-]|[Hne Ht]]%lookup_insert_Some Hb.
    + rewrite lookup_insert_eq in Hb. injection Hb as <-. by rewrite Hthr, lookup_insert_eq.
    + rewrite lookup_insert_ne in Hb by done. rewrite Hthr, lookup_insert_ne by done.
      rewrite (kr_thr _ _ _ _ Hk t th b Ht Hb). f_equal. apply cabs_time.
      apply (not_end _ _ _ _ _ _ Hk Ht). cbn. congruence.
  - exists th', b'. rewrite !lookup_insert_eq. done.
Qed.

(** A step of the head that [Commit] does not see. *)
Lemma krel_silent T o q k s th b th' b' m' :
  krel T (o :: q) k s → k_thr k !! o = Some th → k_buf k !! o = Some b →
  k_lock m' = k_lock (k_m k) → k_mem (kflush b' m') = c_mem s →
  cabs th' (k_time (kflush b' m')) = cabs th (k_time (kflush b (k_m k))) →
  head_ok T th' b' m' s → spin_ok th' →
  krel T (o :: q) (KState m' (<[o := b']> (k_buf k)) (<[o := th']> (k_thr k))) s.
Proof.
  intros Hk Hth Hb Hl Hm Ha Hh Hsp. apply (krel_head T o q k s); try done.
  rewrite Ha, insert_id; [done|]. by apply (kr_thr _ _ _ _ Hk).
Qed.

(** ** Steps of the head of the queue *)

(** What a step of the machine is in [Commit]: at most one action. *)
Definition follows (k' : kstate) (s : cstate) : Prop :=
  ∃ acts s' T' q', crun acts s = Ok s' ∧ (length acts ≤ 1)%nat ∧ krel T' q' k' s' ∧
    Forall (λ t, is_Some (progs !! t)) q'.

Lemma follows_silent T q k' s : Forall (λ t, is_Some (progs !! t)) q → krel T q k' s → follows k' s.
Proof. intros Hq Hk. exists [], s, T, q. split_and!; [done|cbn; lia|done..]. Qed.

Lemma follows_one a T q k' s s' : cstep a s = Ok s' → Forall (λ t, is_Some (progs !! t)) q →
  krel T q k' s' → follows k' s.
Proof.
  intros Hs Hq Hk. exists [a], s', T, q. split_and!; [by unfold crun; cbn|done..].
Qed.

(** The access of a thread in its block is the one of [Commit]: the store of a
    write makes the difference. *)
Lemma access_store m p m' p' : access_step (k_mem m) p = Ok (m', p') →
  m' = k_mem (kflush (match p with PWrite addr val _ => [KData addr val] | _ => [] end) m) ∧
  k_time m = k_time (kflush (match p with PWrite addr val _ => [KData addr val] | _ => [] end) m).
Proof.
  intros H. unfold access_step in H. destruct p as [r|a f|a v p]; [done|..]; outcome_inv; done.
Qed.

Context (Hprogs : ∀ t p, progs !! t = Some p → prog_within (λ a, is_Some (mem0 !! a)) p).
Local Abbreviation threads := (Forall (λ t, is_Some (progs !! t))).

Section head.
Context (T o : Z) (q : list Z) (k : kstate) (s : cstate) (th : kthread) (b : list kstore).
Context (Hk : krel T (o :: q) k s) (Hq : threads (o :: q)).
Context (Hth : k_thr k !! o = Some th) (Hb : k_buf k !! o = Some b).
Context (Hmem : k_mem (kflush b (k_m k)) = c_mem s) (Hh : head_ok T th b (k_m k) s).

Definition exec_follows : Prop := ∃ k', kstep (KExec o) k = Ok k' ∧ follows k' s.

Lemma head_exec : kstep (KExec o) k =
  '(sts, th') ← kinstr th (kflush b (k_m k));
  Ok (KState (k_m k) (<[o := b ++ sts]> (k_buf k)) (<[o := th']> (k_thr k))).
Proof.
  unfold kstep. rewrite Hth, Hb, decide_False; [done|]. intros E. unfold head_ok in Hh. by rewrite E in Hh.
Qed.

(** An instruction that [Commit] does not see. *)
Lemma silent_step th' sts : kinstr th (kflush b (k_m k)) = Ok (sts, th') →
  k_mem (kflush (b ++ sts) (k_m k)) = k_mem (kflush b (k_m k)) →
  cabs th' (k_time (kflush (b ++ sts) (k_m k))) = cabs th (k_time (kflush b (k_m k))) →
  head_ok T th' (b ++ sts) (k_m k) s → spin_ok th' → exec_follows.
Proof.
  pose proof head_exec as Hexec. intros Hi Hm Ha Hh' Hsp. unfold exec_follows. rewrite Hexec, Hi. eexists. split; [done|].
  apply (follows_silent T (o :: q)); [done|]. eapply krel_silent; try done. by rewrite Hm.
Qed.

Lemma spin_step me : k_pc th = KSpin me → exec_follows.
Proof.
  pose proof head_exec as Hexec. intros Hpc. unfold head_ok in Hh. rewrite Hpc in Hh. destruct Hh as (-> & -> & Ht & Hl).
  unfold exec_follows. rewrite Hexec. unfold kinstr. rewrite Hpc. cbn [kflush foldl].
  rewrite decide_True by apply (kr_ticket _ _ _ _ Hk). cbn [mbind outcome_bind app].
  eexists. split; [done|]. pose proof (kr_thr _ _ _ _ Hk o th [] Hth Hb) as Hca.
  pose proof (kr_spin _ _ _ _ Hk o th Hth) as Hsp. unfold spin_ok in Hsp. rewrite Hpc in Hsp.
  eapply (follows_one (CLock o) T (o :: q)); [|done|].
  - cbn [cstep]. rewrite Hca, decide_True; [reflexivity|]. unfold at_block_start, cabs. cbn. by rewrite Hpc.
  - apply (krel_head T o q k s); try done.
    + unfold cabs. cbn. by rewrite Hpc.
    + split_and!; [|done..]. intros x. apply not_elem_of_nil.
Qed.

(** The abstract thread is in its block. *)
Lemma in_step_abs : k_pc th = KIn → c_thr s !! o = Some (CThread (k_prog th) (k_bbcnt th) true (k_log th)).
Proof.
  intros Hpc. rewrite (kr_thr _ _ _ _ Hk o th b Hth Hb). unfold cabs. rewrite Hpc. cbn.
  by rewrite app_nil_r.
Qed.

(** [mem_finish_thr] in a block that is not complete. *)
Lemma finish_step r : k_pc th = KIn → k_prog th = PRet r → exec_follows.
Proof.
  intros Hpc Hr. pose proof Hh as Hh1. unfold head_ok in Hh1. rewrite Hpc in Hh1. destruct Hh1 as (Hn & Ht & Hl).
  pose proof (in_step_abs Hpc) as Hca.
  destruct (decide (k_bbcnt th mod RTM_BATCH_N ≠ 0)) as [Hd|Hd].
  2: { apply (silent_step th []); rewrite ?app_nil_r; try done; unfold kinstr, head_ok, spin_ok;
         rewrite Hpc, ?Hr; [by rewrite decide_False|done..]. }
  unfold exec_follows. rewrite head_exec. unfold kinstr. rewrite Hpc, Hr, decide_True by done.
  cbn [mbind outcome_bind]. eexists. split; [done|]. rewrite app_nil_r.
  eapply (follows_one (CStep o) T (o :: q)); [|done|].
  - cbn [cstep]. rewrite Hca, Hr. cbn [ct_locked locked_step ct_prog g_sim_bbcnt].
    rewrite decide_True by done. reflexivity.
  - apply (krel_head T o q k s); try done; [eauto|..]; cbn.
    + unfold cabs. cbn. by rewrite Ht.
    + by rewrite Ht.
Qed.

(** An access of the block. *)
Lemma block_access : k_pc th = KIn → (¬ ∃ r, k_prog th = PRet r) →
  (∃ C m ps, cinv mem0 progs C m ps s) → exec_follows.
Proof.
  intros Hpc Hne (C & m & ps & HC). pose proof Hh as Hh1. unfold head_ok in Hh1. rewrite Hpc in Hh1. destruct Hh1 as (Hn & Ht & Hl).
  pose proof (in_step_abs Hpc) as Hca.
  destruct (access_step_ok (c_mem s) mem0 (k_prog th)) as (m1 & p1 & Hac & _);
    [apply HC|by apply (ci_within _ _ _ _ _ _ HC o _ Hca)|done|].
  assert (∃ sts, kinstr th (kflush b (k_m k)) = Ok (sts, KThread p1 (k_bbcnt th + 1) (k_log th)
      (if decide (k_bbcnt th mod RTM_BATCH_N = RTM_BATCH_N - 1) then KEnd else KIn)) ∧
    m1 = k_mem (kflush (b ++ sts) (k_m k)) ∧ g_time s = k_time (kflush (b ++ sts) (k_m k)) ∧
    no_ticket (b ++ sts)) as (sts & Hi & Hm1 & Ht1 & Hn1).
  { rewrite <- Hmem in Hac. destruct (access_store _ _ _ _ Hac) as [E1 E2].
    eexists. unfold kinstr. rewrite Hpc, kflush_app, <- Ht, <- E1, <- E2.
    destruct (k_prog th) as [r|a f|a v p]; [by destruct Hne; eexists|..]; rewrite Hac; cbn;
      (split_and!; [done..|]).
    - by rewrite app_nil_r.
    - by apply no_ticket_snoc. }
  unfold exec_follows. rewrite head_exec, Hi. cbn [mbind outcome_bind]. eexists. split; [done|].
  pose proof (λ C, locked_step_access o (CThread (k_prog th) (k_bbcnt th) true (k_log th)) s C) as Hls.
  cbn [ct_prog g_sim_bbcnt g_commit_log] in Hls. rewrite Hac in Hls. cbn [mbind outcome_bind] in Hls.
  specialize (Hls Hne).
  case_decide as Hlast; (eapply (follows_one (CStep o) T (o :: q));
    [cbn [cstep]; rewrite Hca; cbn [ct_locked]; exact Hls|done|]);
    (apply (krel_head T o q k s); try done; [eauto|..]; cbn; rewrite <- ?Ht1; try done).
  unfold cabs. cbn. by rewrite app_nil_r.
Qed.

(** [bb_end], from [gettime] to [log_commit]. *)
Lemma end_step : ¬ (∃ me, k_pc th = KSpin me) → k_pc th ≠ KIn → exec_follows.
Proof.
  intros Hns Hni. pose proof Hh as Hh1. unfold head_ok in Hh1. destruct (k_pc th) as [| |me| | |ts|ts|ts x|ts] eqn:Hpc.
  - apply (silent_step th []); rewrite ?app_nil_r; try done; unfold kinstr, head_ok, spin_ok; by rewrite Hpc.
  - done.
  - by destruct Hns; eexists.
  - done.
  - destruct Hh1 as (Hn & Ht & Hl). eapply silent_step; [unfold kinstr; by rewrite Hpc|..]; rewrite ?app_nil_r;
      try done; unfold cabs; cbn; by rewrite Hpc.
  - destruct Hh1 as (Hn & Ht & Hl). eapply silent_step; [unfold kinstr; by rewrite Hpc|..];
      rewrite ?kflush_app; try done; unfold cabs, head_ok; cbn; rewrite ?Hpc, ?kflush_app; [done|].
    split_and!; [by apply no_ticket_snoc|done..].
  - destruct Hh1 as (Hn & Ht & Hl). eapply silent_step; [unfold kinstr; by rewrite Hpc|..]; rewrite ?app_nil_r;
      try done; unfold cabs; cbn; [by rewrite Hpc|]. split_and!; try done.
    rewrite kflush_lock by done. apply Hk.
  - destruct Hh1 as (-> & Hn & Ht & Hl). eapply silent_step; [unfold kinstr; by rewrite Hpc|..];
      rewrite ?kflush_app; try done; unfold cabs, head_ok; cbn; rewrite ?Hpc, ?kflush_app; [done|].
    split_and!; [|done..]. exists b. split; [|done]. by rewrite wrap_u_succ.
  - eapply silent_step; [unfold kinstr; by rewrite Hpc|..]; rewrite ?app_nil_r; try done.
    unfold cabs; cbn. rewrite Hpc. cbn. by rewrite app_nil_r.
Qed.

Lemma head_step : (∃ C m ps, cinv mem0 progs C m ps s) → exec_follows.
Proof.
  intros HC. destruct (decide (k_pc th = KIn)) as [Hi|Hi].
  - destruct (k_prog th) as [r|a f|a v p] eqn:Hp; [by eapply finish_step|..];
      (apply block_access; [done|rewrite Hp; by intros [? ?]|done]).
  - destruct (k_pc th) as [| |me| | |ts|ts|ts x|ts] eqn:Hpc; [|by unfold head_ok in Hh; rewrite Hpc in Hh|by eapply spin_step|done|..];
      (apply end_step; rewrite Hpc; [by intros [? ?]|done]).
Qed.

(** A store of the head, other than the release of the lock, reaches memory. *)
Lemma head_drain st b' : b = st :: b' → (∀ x, st ≠ KTicket x) →
  krel T (o :: q) (KState (kput st (k_m k)) (<[o := b']> (k_buf k)) (k_thr k)) s.
Proof.
  intros -> Hst. rewrite <- (insert_id (k_thr k) o th) at 1 by done.
  eapply krel_silent; try done.
  - by destruct st; [..|destruct (Hst x)].
  - assert (no_ticket (st :: b') → no_ticket b') as Hn.
    { intros Hn x Hx. apply (Hn x). set_solver. }
    unfold head_ok in *. change (kflush b' (kput st (k_m k))) with (kflush (st :: b') (k_m k)).
    destruct (k_pc th); try naive_solver.
    + destruct Hh as ((b1 & E & Hn1) & Ht & Hl). split_and!; [|done..].
      destruct b1 as [|st1 b1]; [by injection E as ->; destruct (Hst (wrap_u 16 (T + 1)))|].
      injection E as -> ->. exists b1. split; [done|]. intros x Hx. apply (Hn1 x). set_solver.
    + destruct Hh as ((b1 & E & Hn1) & Ht & Hl). split_and!; [|done..].
      destruct b1 as [|st1 b1]; [by injection E as ->; destruct (Hst (wrap_u 16 (T + 1)))|].
      injection E as -> ->. exists b1. split; [done|]. intros x Hx. apply (Hn1 x). set_solver.
  - by apply (kr_spin _ _ _ _ Hk o).
Qed.

Lemma release_inv x b' : b = KTicket x :: b' →
  x = wrap_u 16 (T + 1) ∧ b' = [] ∧ outside (k_pc th) = true ∧
  k_time (k_m k) = g_time s ∧ k_mem (k_m k) = c_mem s ∧ g_lock s = false.
Proof.
  intros E. assert (∀ b1 y, b = b1 ++ [KTicket y] → no_ticket b1 → x = y ∧ b' = []) as Hone.
  { intros b1 y E1 Hn1. rewrite E in E1. destruct b1 as [|st b1]; [by injection E1 as -> ->|].
    injection E1 as <- _. by destruct (Hn1 x); left. }
  assert (¬ no_ticket b) as Hnt by (rewrite E; intros Hn; apply (Hn x); by left).
  unfold head_ok in Hh. rewrite E in Hmem. subst b.
  destruct (k_pc th) as [| |me| | |ts|ts|ts y|ts]; try naive_solver;
    (destruct Hh as ((b1 & E1 & Hn1) & Ht & Hl); destruct (Hone b1 _ E1 Hn1) as [-> ->]; naive_solver).
Qed.

(** The release of the lock reaches memory. *)
Lemma head_release x b' : b = KTicket x :: b' →
  krel (T + 1) q (KState (kput (KTicket x) (k_m k)) (<[o := b']> (k_buf k)) (k_thr k)) s.
Proof.
  intros (-> & -> & Hpc & Ht & Hm & Hl)%release_inv.
  assert (∀ t b, k_buf k !! t = Some b → t ≠ o → b = []) as Hbufs.
  { intros t bt Hbt Hne. destruct (kr_buf _ _ _ _ Hk t bt Hbt) as [?|E]; [done|]. cbn in E. congruence. }
  assert (∀ t tht, k_thr k !! t = Some tht → k_pc tht ≠ KEnd) as Hend.
  { intros t tht Htht. destruct (decide (t = o)) as [->|Hne].
    - rewrite Hth in Htht. injection Htht as <-. intros E. by rewrite E in Hpc.
    - apply (not_end _ _ _ _ _ _ Hk Htht). cbn. congruence. }
  pose proof (kr_nodup _ _ _ _ Hk) as Hnd. apply list.NoDup_cons in Hnd as [Hno Hnd].
  constructor; cbn [k_m k_buf k_thr kput k_lock ticket users]; try done; try apply Hk.
  - rewrite (kr_users _ _ _ _ Hk). f_equal. cbn [length]. lia.
  - intros i t Hi. destruct (kr_wait _ _ _ _ Hk (S i) t Hi) as (tht & ? & E). exists tht. split; [done|].
    rewrite E. do 2 f_equal. lia.
  - intros t tht Htht Hn. destruct (decide (t = o)) as [->|Hne]; [by rewrite Hth in Htht; injection Htht as <-|].
    apply (kr_out _ _ _ _ Hk t); [done|]. by rewrite not_elem_of_cons.
  - intros t bt [[<- <-]|[Hne Hbt]]%lookup_insert_Some; [by left|]. left. by apply (Hbufs t).
  - intros t. rewrite lookup_insert_is_Some', (kr_dom _ _ _ _ Hk). split; [|tauto].
    intros [<-|?]; [eauto|done].
  - intros t tht bt Htht Hbt.
    assert (∃ bt', k_buf k !! t = Some bt') as [bt' Hbt'] by (apply (kr_dom _ _ _ _ Hk); eauto).
    rewrite (kr_thr _ _ _ _ Hk t tht bt' Htht Hbt'). f_equal. apply cabs_time. by eapply Hend.
  - destruct q as [|o2 q2]; [done|].
    destruct (kr_wait _ _ _ _ Hk 0 o2 eq_refl) as (th2 & Hth2 & Hpc2).
    destruct (proj2 (kr_dom _ _ _ _ Hk o2)) as [b2 Hb2]; [eauto|].
    assert (o2 ≠ o) as Hne by (intros ->; by apply Hno; left).
    rewrite (Hbufs o2 b2 Hb2 Hne) in Hb2. exists th2, []. rewrite lookup_insert_ne by done.
    split_and!; [done..|]. unfold head_ok. rewrite Hpc2. split_and!; done.
Qed.
End head.

(** ** Steps of the other threads *)

Context (Hsize : Z.of_nat (size progs) < 2 ^ 16).

Lemma queue_short T q k s : krel T q k s → threads q → Z.of_nat (length q) < 2 ^ 16.
Proof.
  intros Hk Hq. enough (length q ≤ size progs)%nat by lia.
  rewrite <- (size_dom progs), <- (size_list_to_set (C := gset Z) q) by apply Hk.
  apply subseteq_size. intros t Ht%elem_of_list_to_set. apply elem_of_dom.
  by eapply list.Forall_forall in Hq.
Qed.

(** A thread moves without effect on memory, the lock or what [Commit] sees. *)
Lemma krel_move T q k s t th th' :
  krel T q k s → k_thr k !! t = Some th → t ∉ q → spin_ok th' →
  outside (k_pc th') = true → (∀ x, cabs th' x = cabs th x) →
  krel T q (KState (k_m k) (k_buf k) (<[t := th']> (k_thr k))) s.
Proof.
  intros Hk Hth Hn Hsp Hpc Ha. constructor; cbn [k_m k_buf k_thr]; try apply Hk.
  - intros i u Hi. rewrite lookup_insert_ne; [by apply (kr_wait _ _ _ _ Hk)|].
    intros <-. by apply Hn, (list_elem_of_lookup_2 _ (S i)).
  - intros u thu [[<- <-]|[Hne Hu]]%lookup_insert_Some; [done|]. by apply (kr_spin _ _ _ _ Hk u).
  - intros u thu [[<- <-]|[Hne Hu]]%lookup_insert_Some; [done|]. by apply (kr_out _ _ _ _ Hk u).
  - intros u. rewrite lookup_insert_is_Some', (kr_dom _ _ _ _ Hk). split; [tauto|].
    intros [<-|?]; [eauto|done].
  - intros u. rewrite lookup_insert_is_Some', (kr_cdom _ _ _ _ Hk). split; [tauto|].
    intros [<-|?]; [eauto|done].
  - intros u thu b [[<- <-]|[Hne Hu]]%lookup_insert_Some Hb.
    + rewrite Ha. by apply (kr_thr _ _ _ _ Hk).
    + by apply (kr_thr _ _ _ _ Hk).
  - pose proof (kr_head _ _ _ _ Hk) as Hh. destruct q as [|o q]; [done|].
    destruct Hh as (tho & b & ? & ? & ? & ?). exists tho, b. rewrite lookup_insert_ne; [done|].
    intros ->. by destruct Hn; left.
Qed.

(** A thread outside its blocks whose stores are done does not have a ticket. *)
Lemma out_not_queued T q k s t th : krel T q k s → k_thr k !! t = Some th → k_buf k !! t = Some [] →
  outside (k_pc th) = true → t ∉ q.
Proof.
  intros Hk Hth Hb Hpc [i Hi]%list_elem_of_lookup_1. destruct i as [|i].
  - destruct q as [|o q]; [done|]. injection Hi as ->.
    destruct (kr_head _ _ _ _ Hk) as (tho & bo & Hto & Hbo & _ & Hh). rewrite Hth in Hto.
    injection Hto as <-. rewrite Hb in Hbo. injection Hbo as <-. unfold head_ok in Hh.
    destruct (k_pc th); try done; destruct Hh as ((b' & E & _) & _); by destruct b'.
  - destruct (kr_wait _ _ _ _ Hk i t Hi) as (th' & Hth' & Hpc'). rewrite Hth in Hth'. injection Hth' as <-.
    by rewrite Hpc' in Hpc.
Qed.

(** The fetch-and-add of [ticket_lock]. *)
Lemma xadd_step T q k s t th : krel T q k s → threads q → is_Some (progs !! t) →
  k_thr k !! t = Some th → k_buf k !! t = Some [] → k_pc th = KXadd → t ∉ q →
  follows (kxadd t th k) s.
Proof.
  intros Hk Hq Hdom Hth Hb Hpc Hn. pose proof (kr_spin _ _ _ _ Hk t th Hth) as Hst. unfold spin_ok in Hst.
  rewrite Hpc in Hst. destruct Hst as [Hcnt Hne]. unfold kxadd, xadd_users.
  apply (follows_silent T (q ++ [t])).
  { apply Forall_app. split; [done|]. by repeat constructor. }
  assert (∀ u thu, <[t := KThread (k_prog th) (k_bbcnt th) (k_log th) (KSpin (users (k_lock (k_m k))))]>
    (k_thr k) !! u = Some thu → u ≠ t → k_thr k !! u = Some thu) as Hold.
  { intros u thu [[<- _]|[_ Hu]]%lookup_insert_Some Hu'; done. }
  constructor; cbn [k_m k_buf k_thr k_lock ticket users].
  - apply Hk.
  - rewrite (kr_users _ _ _ _ Hk), wrap_u_succ, length_app. f_equal. cbn. lia.
  - apply list.NoDup_app. split_and!; [apply Hk| |apply NoDup_singleton].
    intros u Hu ->%list_elem_of_singleton. done.
  - intros i u [Hi|[Hi Hu]]%lookup_snoc_inv.
    + rewrite lookup_insert_ne; [by apply (kr_wait _ _ _ _ Hk)|].
      intros <-. by apply Hn, (list_elem_of_lookup_2 _ (S i)).
    + subst u. eexists. rewrite lookup_insert_eq. split; [done|]. cbn.
      by rewrite (kr_users _ _ _ _ Hk), <- Hi.
  - intros u thu [[<- <-]|[Hne' Hu]]%lookup_insert_Some; [done|]. by apply (kr_spin _ _ _ _ Hk u).
  - intros u thu Hu Hnu. apply not_elem_of_app in Hnu as [Hnu Hut].
    apply (kr_out _ _ _ _ Hk u); [|done]. apply Hold; [done|]. set_solver.
  - intros u b Hu. destruct (kr_buf _ _ _ _ Hk u b Hu) as [?|Hh]; [by left|right]. by destruct q.
  - intros u. rewrite lookup_insert_is_Some', (kr_dom _ _ _ _ Hk). split; [tauto|].
    intros [<-|?]; [eauto|done].
  - intros u. rewrite lookup_insert_is_Some', (kr_cdom _ _ _ _ Hk). split; [tauto|].
    intros [<-|?]; [eauto|done].
  - intros u thu b Hu Hbu. destruct (kflush_users b (k_m k) (TicketLock (ticket (k_lock (k_m k)))
      (wrap_u 16 (users (k_lock (k_m k)) + 1)))) as [_ ->].
    apply lookup_insert_Some in Hu as [[<- <-]|[Hne' Hu]]; [|by apply (kr_thr _ _ _ _ Hk)].
    rewrite (kr_thr _ _ _ _ Hk t th b Hth Hbu). unfold cabs. cbn. by rewrite Hpc.
  - pose proof (kr_head _ _ _ _ Hk) as Hh. destruct q as [|o q]; cbn [app].
    + destruct Hh as (Hm & Ht & Hl). eexists _, []. rewrite lookup_insert_eq. split_and!; [done..|].
      unfold head_ok. cbn. rewrite (kr_users _ _ _ _ Hk). cbn. by rewrite Z.add_0_r.
    + destruct Hh as (tho & b & Hto & Hbo & Hmo & Ho). exists tho, b.
      rewrite lookup_insert_ne by (intros ->; by apply Hn; left).
      unfold head_ok in *. destruct (kflush_users b (k_m k) (TicketLock (ticket (k_lock (k_m k)))
        (wrap_u 16 (users (k_lock (k_m k)) + 1)))) as [-> ->]. done.
Qed.

(** The next instruction of a thread that is not the head of the queue. *)
Lemma other_exec T q k s t : krel T q k s → threads q → head q ≠ Some t →
  (∀ t, is_Some (k_thr k !! t) → is_Some (progs !! t)) →
  ∃ k', kstep (KExec t) k = Ok k' ∧ follows k' s.
Proof.
  intros Hk Hq Hne Hdom. unfold kstep.
  assert (follows k s) as Hstay by (by apply (follows_silent T q)).
  destruct (k_thr k !! t) as [th|] eqn:Hth; [|eauto]. destruct (k_buf k !! t) as [b|] eqn:Hb; [|eauto].
  assert (b = []) as -> by (by destruct (kr_buf _ _ _ _ Hk t b Hb)).
  assert (KState (k_m k) (<[t := []]> (k_buf k)) (<[t := th]> (k_thr k)) = k) as Hsame.
  { rewrite !insert_id by done. by destruct k. }
  change (kflush [] (k_m k)) with (k_m k).
  destruct (decide (t ∈ q)) as [[i Hi]%list_elem_of_lookup_1|Hn].
  - destruct i as [|i]; [by destruct q|].
    destruct (kr_wait _ _ _ _ Hk i t Hi) as (th' & Hth' & Hpc). rewrite Hth in Hth'. injection Hth' as <-.
    unfold kinstr. rewrite Hpc, decide_False by done. rewrite decide_False; [cbn; rewrite Hsame; eauto|].
    rewrite (kr_ticket _ _ _ _ Hk). intros E%wrap_u_inj; [lia..|].
    pose proof (queue_short _ _ _ _ Hk Hq). apply lookup_lt_Some in Hi. lia.
  - pose proof (kr_out _ _ _ _ Hk t th Hth Hn) as Ho.
    destruct (k_pc th) as [| | | | | | | |ts] eqn:Hpc; try done.
    { rewrite decide_False by done. unfold kinstr. rewrite Hpc. cbn. rewrite Hsame. eauto. }
    { rewrite !decide_True by done. eexists. split; [done|]. eapply xadd_step; eauto. }
    rewrite decide_False by done. unfold kinstr. rewrite Hpc. cbn. rewrite insert_id by done.
    eexists. split; [done|]. apply (follows_silent T q); [done|].
    apply (krel_move T q k s t th); try done.
    intros x. unfold cabs. rewrite Hpc. cbn. by rewrite app_nil_r.
Qed.

(** The lock can be taken when nobody has a ticket. *)
Lemma lockable_free T q k s : krel T q k s → threads q →
  ticket_lockable (k_lock (k_m k)) = true → q = [].
Proof.
  intros Hk Hq. unfold ticket_lockable. rewrite bool_decide_eq_true.
  rewrite (kr_ticket _ _ _ _ Hk), (kr_users _ _ _ _ Hk).
  pose proof (queue_short _ _ _ _ Hk Hq). intros E%wrap_u_inj; [|lia..]. destruct q; [done|cbn in *; lia].
Qed.

(** An abort. *)
Lemma abort_step T q k s t th : krel T q k s → threads q → k_thr k !! t = Some th →
  k_buf k !! t = Some [] → k_start th → follows (tx_abort t th k) s.
Proof.
  intros Hk Hq Hth Hb (Hpc & Hcnt & Hne). apply (follows_silent T q); [done|].
  apply (krel_move T q k s t th); try done.
  - eapply out_not_queued; [done..|]. by rewrite Hpc.
  - intros x. unfold cabs. by rewrite Hpc.
Qed.

Lemma fall_step T q k s t : krel T q k s → threads q → ∃ k', kstep (KFall t) k = Ok k' ∧ follows k' s.
Proof.
  intros Hk Hq. unfold kstep. assert (follows k s) as Hstay by (by apply (follows_silent T q)).
  destruct (k_thr k !! t) as [th|] eqn:Hth; [|eauto]. destruct (k_buf k !! t) as [[|]|] eqn:Hb; [|eauto..].
  eexists. split; [done|]. case_decide as Hst; [|done]. by eapply abort_step.
Qed.

(** A transaction. *)
Lemma tx_step T q k s t : krel T q k s → threads q → (∃ C m ps, cinv mem0 progs C m ps s) →
  ∃ k', kstep (KTx t) k = Ok k' ∧ follows k' s.
Proof.
  intros Hk Hq (C & m & ps & HC). unfold kstep.
  assert (follows k s) as Hstay by (by apply (follows_silent T q)).
  destruct (k_thr k !! t) as [th|] eqn:Hth; [|eauto]. destruct (k_buf k !! t) as [[|]|] eqn:Hb; [|eauto..].
  case_decide as Hst; [|eauto]. unfold tx_block.
  destruct (ticket_lockable (k_lock (k_m k))) eqn:Hl; [|eexists; split; [done|by eapply abort_step]].
  pose proof (lockable_free _ _ _ _ Hk Hq Hl) as ->. destruct (kr_head _ _ _ _ Hk) as (Hm & Ht & Hfree).
  pose proof (kr_thr _ _ _ _ Hk t th [] Hth Hb) as Hca. destruct Hst as (Hpc & Hcnt & Hne).
  assert (at_block_start (cabs th (k_time (k_m k)))) as Has.
  { unfold at_block_start, cabs. cbn. by rewrite Hpc. }
  assert (unlogged (k_pc th) (k_time (k_m k)) = []) as Hul by (by rewrite Hpc).
  destruct (exec_block_ok BLOCK (c_mem s) mem0 (k_prog th)) as (m1 & p1 & Hex & _);
    [apply HC|by apply (ci_within _ _ _ _ _ _ HC t _ Hca)|].
  rewrite Hm, Hex, Ht. cbn [mbind outcome_bind addtime]. eexists. split; [done|].
  eapply (follows_one (CCommit t) T []); [|done|].
  - cbn [cstep]. rewrite Hca. change (kflush [] (k_m k)) with (k_m k). rewrite decide_True by done.
    unfold commit_block. rewrite Hfree. cbn [ct_prog cabs]. rewrite Hex. reflexivity.
  - cbn [g_sim_bbcnt g_commit_log cabs]. rewrite Hul, app_nil_r.
    constructor; cbn [k_m k_buf k_thr k_lock k_mem k_time c_thr c_mem g_time]; try apply Hk; try done.
    + intros u thu [[<- <-]|[Hne' Hu]]%lookup_insert_Some; [done|]. by apply (kr_spin _ _ _ _ Hk u).
    + intros u thu [[<- <-]|[Hne' Hu]]%lookup_insert_Some; [done|]. by apply (kr_out _ _ _ _ Hk u).
    + intros u. rewrite lookup_insert_is_Some', (kr_dom _ _ _ _ Hk). split; [tauto|].
      intros [<-|?]; [eauto|done].
    + intros u. rewrite !lookup_insert_is_Some', (kr_cdom _ _ _ _ Hk). done.
    + intros u thu b [[<- <-]|[Hne' Hu]]%lookup_insert_Some Hbu.
      * rewrite lookup_insert_eq. unfold cabs. cbn. by rewrite app_nil_r.
      * rewrite lookup_insert_ne by done. rewrite (kr_thr _ _ _ _ Hk u thu b Hu Hbu). f_equal.
        apply cabs_time. by apply (not_end _ _ _ _ _ _ Hk Hu).
Qed.

(** A store reaches memory. *)
Lemma drain_follows T q k s t : krel T q k s → threads q →
  ∃ k', kstep (KDrain t) k = Ok k' ∧ follows k' s.
Proof.
  intros Hk Hq. unfold kstep.
  assert (follows k s) as Hstay by (by apply (follows_silent T q)).
  destruct (k_buf k !! t) as [[|st b]|] eqn:Hb; [eauto| |eauto]. eexists. split; [done|].
  destruct (kr_buf _ _ _ _ Hk t _ Hb) as [?|Hh]; [done|]. destruct q as [|o q]; [done|]. injection Hh as ->.
  destruct (kr_head _ _ _ _ Hk) as (th & bo & Hth & Hbo & Hmem & Hh). rewrite Hb in Hbo. injection Hbo as <-.
  assert ((∃ x, st = KTicket x) ∨ ∀ x, st ≠ KTicket x) as [[x ->]|Hst] by (destruct st; eauto; by right).
  - apply (follows_silent (T + 1) q); [by apply Forall_inv_tail in Hq|]. by eapply head_release.
  - apply (follows_silent T (t :: q)); [done|]. by eapply head_drain.
Qed.

Lemma kstep_ok T q k s a : krel T q k s → threads q →
  (∀ t, is_Some (k_thr k !! t) → is_Some (progs !! t)) → (∃ C m ps, cinv mem0 progs C m ps s) →
  ∃ k', kstep a k = Ok k' ∧ follows k' s.
Proof.
  intros Hk Hq Hdom HC. destruct a as [t|t|t|t].
  - by eapply tx_step.
  - by eapply fall_step.
  - destruct (decide (head q = Some t)) as [Hh|Hh]; [|by eapply other_exec].
    destruct q as [|o q]; [done|]. injection Hh as ->.
    destruct (kr_head _ _ _ _ Hk) as (th & b & Hth & Hb & Hmem & Hh). by eapply head_step.
  - by eapply drain_follows.
Qed.

Lemma kinit_rel : krel 0 [] (kinit mem0 progs) (cinit mem0 progs).
Proof.
  assert (∀ t th, k_thr (kinit mem0 progs) !! t = Some th → ∃ p, progs !! t = Some p ∧ th = KThread p 0 [] KOut)
    as Hthr.
  { intros t th. cbn. rewrite lookup_fmap. intros (p & ? & ->)%fmap_Some. eauto. }
  constructor; cbn [kinit k_m k_buf]; try done.
  - apply NoDup_nil_2.
  - intros t th (p & _ & ->)%Hthr. done.
  - intros t th (p & _ & ->)%Hthr. done.
  - intros t b. rewrite lookup_fmap. intros (p & _ & ->)%fmap_Some. by left.
  - intros t. cbn. by rewrite !lookup_fmap, !fmap_is_Some.
  - intros t. cbn. by rewrite !lookup_fmap, !fmap_is_Some.
  - intros t th b (p & Hp & ->)%Hthr _. cbn. by rewrite lookup_fmap, Hp.
Qed.

(** Every run of the machine is a run of [Commit], not longer. *)
Lemma krun_ok acts : ∃ k cacts s T q, krun acts (kinit mem0 progs) = Ok k ∧
  crun cacts (cinit mem0 progs) = Ok s ∧ (length cacts ≤ length acts)%nat ∧
  krel T q k s ∧ threads q.
Proof.
  induction acts as [|a acts IH] using rev_ind.
  { exists (kinit mem0 progs), [], (cinit mem0 progs), 0, []. split_and!; [done..|apply kinit_rel|done]. }
  destruct IH as (k & cacts & s & T & q & Hrun & Hc & Hlen & Hk & Hq).
  destruct (crun_ok mem0 progs Hprogs cacts) as (s0 & C & m & ps & Hc0 & HC & _).
  rewrite Hc in Hc0. injection Hc0 as <-.
  destruct (kstep_ok T q k s a Hk Hq) as (k' & Hst & (cs & s' & T' & q' & Hcs & Hl & Hk' & Hq')); [|eauto|].
  { intros t Ht%(kr_cdom _ _ _ _ Hk). apply (ci_dom _ _ _ _ _ _ HC) in Ht.
    by apply (run_blocks_dom C mem0 progs m ps (ci_run _ _ _ _ _ _ HC)). }
  exists k', (cacts ++ cs), s', T', q'. split_and!; [|..|done|done].
  - unfold krun in *. by rewrite run_sched_snoc, Hrun.
  - unfold crun in *. by rewrite foldl_app, Hc.
  - rewrite !length_app. cbn. lia.
Qed.

(** A finished run is a finished recording of [Commit], with the same memory,
    results and logs. *)
Lemma k_finished_abs T q k s : krel T q k s → k_finished k →
  c_finished s ∧ k_mem (k_m k) = c_mem s ∧
  c_thr s = (λ th, CThread (k_prog th) (k_bbcnt th) false (k_log th)) <$> k_thr k.
Proof.
  intros Hk [Hf Hb].
  assert (q = []) as ->.
  { destruct q as [|o q]; [done|].
    destruct (kr_head _ _ _ _ Hk) as (th & b & Hth & Hbo & _ & Hh). destruct (Hf o th Hth) as [_ Hpc].
    pose proof (Hb o b Hbo) as E. cbn in E. subst b. unfold head_ok in Hh. rewrite Hpc in Hh.
    destruct Hh as ((b' & E & _) & _). by destruct b'. }
  assert (c_thr s = (λ th, CThread (k_prog th) (k_bbcnt th) false (k_log th)) <$> k_thr k) as Hthr.
  { apply map_eq. intros t. rewrite lookup_fmap. destruct (k_thr k !! t) as [th|] eqn:Hth; cbn.
    - destruct (proj2 (kr_dom _ _ _ _ Hk t)) as [b Hbt]; [eauto|].
      rewrite (kr_thr _ _ _ _ Hk t th b Hth Hbt). destruct (Hf t th Hth) as [_ Hpc]. unfold cabs.
      rewrite Hpc. cbn. by rewrite app_nil_r.
    - apply eq_None_not_Some. rewrite (kr_cdom _ _ _ _ Hk), Hth. by intros [? ?]. }
  split_and!; [|apply (kr_head _ _ _ _ Hk)|done].
  intros t th. rewrite Hthr, lookup_fmap. intros (th' & Hth' & ->)%fmap_Some. cbn.
  by destruct (Hf t th' Hth').
Qed.
End refinement.
