(* ===== verification/CommitReplay.v ===== *)
(** * CommitReplay: merging the commit logs and replaying the commit order

    [merge-commit.cpp] and [mem-replay-rtmcommit.c]. *)
From S2P Require Import Prelude Mem Batch PQueue KWay Sched Commit.

(** ** [merge-commit.cpp] *)

(** [q_ent::operator>]. *)
Definition ts_gt (a b : que_ent Z) : bool := bool_decide (qe_wop b < qe_wop a).

Section merge.
Context (Q : prio_queue ts_gt).

(** The loop of [merge_commit]: the thread of the earliest commit is written, the
    next one of its log enqueued. *)
Fixpoint commit_loop (fuel : nat) (pq : pq_t Q) (log : list (list Z)) (out : list Z)
    : outcome (list Z) :=
  match pq_top pq with
  | None => Ok out
  | Some e =>
      match fuel with
      | O => Err OutOfFuel
      | S fuel =>
          '(pq, log) ← enqueue_next Q (pq_pop pq) log (qe_tid e);
          commit_loop fuel pq log (out ++ [wrap_s 8 (qe_tid e)])
      end
  end.

Definition merge_commit (nthr : Z) (files : list (option (list Z))) : outcome (list Z) :=
  _ ← c_assert (Z.of_nat (length files) = nthr);
  '(pq, log) ← init_queue Q (Z.of_nat (length files)) files;
  commit_loop (total_entries files) pq log [].

(** [main]: every log is opened first, and an empty file cannot be mapped. *)
Definition merge_commit_main (files : list (option (list Z))) : outcome (list Z) :=
  if decide (Some [] ∈ files) then Err ExitFailure
  else merge_commit (wrap_s 8 (Z.of_nat (length files))) files.
End merge.

(** ** [mem-replay-rtmcommit.c] *)

(** Where a thread is: in [mem_read] or [mem_write], or past [mem_finish_thr]. *)
Inductive xpc :=
| XWait     (* while (g_next_thr != g_tid) at the start of a block *)
| XAssert   (* assert(g_next_thr == g_tid) *)
| XAccess   (* the access *)
| XNext     (* read_next_thr() at the end of a block *)
| XCount    (* g_sim_bbcnt++ *)
| XEnd.     (* mem_finish_thr has returned *)

#[global] Instance xpc_eq_dec : EqDecision xpc.
Proof. solve_decision. Defined.

(** The thread's variables; [x_bbcnt] is [g_sim_bbcnt], an [int]. *)
Record xthread := XThread {
  x_prog : prog;
  x_bbcnt : Z;
  x_pc : xpc }.

Record xstate := XState {
  x_mem : gmap Z Z;
  g_next_thr : Z;
  x_commit_log : list Z;
  x_thr : gmap Z xthread }.

(** [read_next_thr]: at the end of the log the current thread stays. *)
Definition read_next_thr (s : xstate) : xstate :=
  match x_commit_log s with
  | [] => s
  | t :: l => XState (x_mem s) t l (x_thr s)
  end.

(** [mem_init]; a log that is missing counts as empty, an empty one cannot be
    mapped. *)
Definition xinit (commit : option (list Z)) (mem0 : gmap Z Z) (progs : gmap Z prog)
    : outcome xstate :=
  match commit with
  | Some [] => Err ExitFailure
  | _ => Ok (read_next_thr (XState mem0 0 (default [] commit)
                              ((λ p, XThread p 0 XWait) <$> progs)))
  end.

Definition set_xthr (t : Z) (th : xthread) (s : xstate) : xstate :=
  XState (x_mem s) (g_next_thr s) (x_commit_log s) (<[t := th]> (x_thr s)).

(** One step of thread [t]; a waiting thread stays where it is.  [%] is C's
    remainder, which is negative for a negative counter, and [g_sim_bbcnt++] wraps
    around where the [int] overflows. *)
Definition xstep (t : Z) (s : xstate) : outcome xstate :=
  match x_thr s !! t with
  | None => Ok s
  | Some th =>
      let goto pc := set_xthr t (XThread (x_prog th) (x_bbcnt th) pc) in
      match x_pc th with
      | XWait =>
          if decide (∃ r, x_prog th = PRet r) then
            Ok (goto XEnd (if decide (x_bbcnt th `rem` RTM_BATCH_N ≠ 0) then read_next_thr s else s))
          else if decide (x_bbcnt th `rem` RTM_BATCH_N = 0 ∧ g_next_thr s ≠ t) then Ok s
          else Ok (goto XAssert s)
      | XAssert => _ ← c_assert (g_next_thr s = t); Ok (goto XAccess s)
      | XAccess =>
          '(mem, p) ← access_step (x_mem s) (x_prog th);
          Ok (XState mem (g_next_thr s) (x_commit_log s)
                (<[t := XThread p (x_bbcnt th) XNext]> (x_thr s)))
      | XNext =>
          Ok (goto XCount (if decide (x_bbcnt th `rem` RTM_BATCH_N = RTM_BATCH_N - 1)
                           then read_next_thr s else s))
      | XCount => Ok (set_xthr t (XThread (x_prog th) (wrap_s 32 (x_bbcnt th + 1)) XWait) s)
      | XEnd => Ok s
      end
  end.

Definition xrun (sched : list Z) (s : xstate) : outcome xstate :=
  run_sched xstep sched s.

Definition x_finished (s : xstate) : Prop :=
  ∀ t th, x_thr s !! t = Some th → x_pc th = XEnd.

#[global] Instance x_finished_dec s : Decision (x_finished s).
Proof.
  refine (cast_if (decide (map_Forall (λ _ th, x_pc th = XEnd) (x_thr s)))); done.
Defined.

(** ** Lemmas: the merge *)

Lemma ts_gt_false a b : ts_gt a b = false ↔ qe_wop a ≤ qe_wop b.
Proof. unfold ts_gt. rewrite bool_decide_eq_false. lia. Qed.

#[global] Instance ts_gt_strict_weak : strict_weak ts_gt.
Proof.
  split.
  - intros a. apply ts_gt_false. lia.
  - intros a b. unfold ts_gt. rewrite bool_decide_eq_true, bool_decide_eq_false. lia.
  - intros a b c. rewrite !ts_gt_false. lia.
Qed.

Section merge_proof.
Context {Q : prio_queue ts_gt} {HQ : prio_queue_ok Q}.

(** The merged order is the entries by time. *)
Lemma commit_loop_ok T fuel P pq log out :
  queue_inv Z.le T P (λ _, True) pq log → StronglySorted (λ a b, qe_wop a ≤ qe_wop b) P →
  out = (λ q, wrap_s 8 (qe_tid q)) <$> P → (length T ≤ fuel + length P)%nat →
  ∃ P', commit_loop Q fuel pq log out = Ok ((λ q, wrap_s 8 (qe_tid q)) <$> P') ∧ P' ≡ₚ T ∧
    StronglySorted (λ a b, qe_wop a ≤ qe_wop b) P'.
Proof.
  revert P pq log out. induction fuel as [|fuel IH]; intros P pq log out Hq Hs -> Hf;
    cbn [commit_loop]; destruct (pq_top pq) as [e|] eqn:He.
  2,4: exists P; split_and!; [done| |done]; by eapply (empty_inv Z.le ts_gt_false).
  - destruct (pop_inv Z.le ts_gt_false _ _ _ _ _ _ Hq He) as (Hq' & _).
    pose proof (Permutation_length (qi_perm _ _ _ _ _ _ Hq')) as Hl.
    rewrite !length_app in Hl. cbn in Hl. lia.
  - destruct (pop_inv Z.le ts_gt_false _ _ _ _ _ _ Hq He) as (Hq' & HPe & Htid & Hnext).
    destruct (enqueue_inv Z.le ts_gt_false _ _ _ _ _ (Z.to_nat (qe_tid e)) Hq')
      as (pq' & log' & Hen & Hq'' & _).
    { lia. }
    { intros l p w Hl [Hp| ->%list_elem_of_singleton]%elem_of_app Hw; [|by eapply Hnext].
      transitivity (qe_wop e); [by apply HPe|by eapply Hnext]. }
    rewrite Z2Nat.id in Hen by lia. rewrite Hen. cbn [mbind outcome_bind].
    apply (IH (P ++ [e])).
    + eapply (queue_inv_impl Z.le); [|done]. intros j _ _.
      destruct (decide (j = Z.to_nat (qe_tid e))); [by right|left]. split; [done|lia].
    + by apply StronglySorted_snoc.
    + by rewrite fmap_app.
    + rewrite length_app. cbn. lia.
Qed.

(** *** The logs of a commit order *)

Section order.
Context (C : list Z) (nthr : nat).
Context (Htid : Forall (λ t, 0 ≤ t < Z.of_nat nthr) C).
Context (Hn : Z.of_nat nthr ≤ 127) (Hlen : Z.of_nat (length C) < 2 ^ 64).

Definition commit_files : list (option (list Z)) :=
  (λ t, Some (times t C)) <$> seqZ 0 (Z.of_nat nthr).

Lemma times_id t :
  times t C = filter (λ i, C !! Z.to_nat i = Some t) (seqZ 0 (Z.of_nat (length C))).
Proof.
  unfold times. rewrite <- (list_fmap_id (filter _ _)) at 2. apply list_fmap_ext.
  intros _ x Hx%list_elem_of_lookup_2. apply list_elem_of_filter in Hx as [_ Hx%elem_of_seqZ].
  unfold wrap_u. cbn. apply Z.mod_small. lia.
Qed.

Lemma times_sorted t : StronglySorted Z.le (times t C).
Proof.
  rewrite times_id. apply StronglySorted_filter.
  eapply StronglySorted_impl_in; [|apply StronglySorted_seqZ_lt]. cbn. lia.
Qed.

Lemma commit_files_entries q :
  q ∈ all_entries commit_files → C !! Z.to_nat (qe_wop q) = Some (qe_tid q).
Proof.
  unfold all_entries, commit_files. intros (i & l & Hl & Ht & Hw)%elem_of_remaining.
  rewrite <- list_fmap_compose in Hl. apply list_lookup_fmap_Some in Hl as (t & -> & Hi).
  apply lookup_seqZ in Hi as [-> _]. cbn in Hw. rewrite times_id in Hw.
  apply list_elem_of_filter in Hw as [-> _]. f_equal. lia.
Qed.

Lemma commit_files_times :
  qe_wop <$> all_entries commit_files ≡ₚ seqZ 0 (Z.of_nat (length C)).
Proof.
  unfold all_entries. rewrite remaining_wops. unfold commit_files. rewrite <- list_fmap_compose.
  pose (own i := default (-1) (C !! Z.to_nat i)).
  assert (∀ i, i ∈ seqZ 0 (Z.of_nat (length C)) → C !! Z.to_nat i = Some (own i) ∧ 0 ≤ own i < Z.of_nat nthr) as Hown.
  { intros i Hi%elem_of_seqZ. destruct (lookup_lt_is_Some_2 C (Z.to_nat i)) as [x Hx]; [lia|].
    unfold own. rewrite Hx. split; [done|]. by eapply (Forall_lookup_1 _ _ _ _ Htid). }
  transitivity (seqZ 0 (Z.of_nat nthr) ≫= λ t, filter (λ i, own i = t) (seqZ 0 (Z.of_nat (length C)))).
  - rewrite <- mjoin_fmap_bind. apply reflexive_eq. f_equal. apply list_fmap_ext.
    intros _ t _. cbn. rewrite times_id. apply filter_ext_in. intros i Hi.
    destruct (Hown i Hi) as [-> _]. split; congruence.
  - rewrite bind_filter_Permutation by apply NoDup_seqZ. apply reflexive_eq, filter_all.
    intros i [_ Hi]%Hown. apply elem_of_seqZ. lia.
Qed.

Lemma commit_order_of_entries P :
  P ≡ₚ all_entries commit_files → StronglySorted (λ a b, qe_wop a ≤ qe_wop b) P →
  (λ q, wrap_s 8 (qe_tid q)) <$> P = C.
Proof.
  intros HP Hs. assert (qe_wop <$> P = seqZ 0 (Z.of_nat (length C))) as Hw.
  { apply (StronglySorted_unique Z.le); [eapply StronglySorted_fmap; [|exact Hs]; done| |].
    - eapply StronglySorted_impl_in; [|apply StronglySorted_seqZ_lt]. cbn. lia.
    - by rewrite HP, commit_files_times. }
  apply list_eq. intros i. rewrite list_lookup_fmap. destruct (P !! i) as [q|] eqn:Hi; cbn.
  - assert ((qe_wop <$> P) !! i = Some (qe_wop q)) as Hiw by by rewrite list_lookup_fmap, Hi.
    rewrite Hw in Hiw. apply lookup_seqZ in Hiw as [Hiw Hlt].
    assert (q ∈ all_entries commit_files) as Hq%commit_files_entries.
    { rewrite <- HP. by eapply list_elem_of_lookup_2. }
    rewrite Hiw, Z.add_0_l, Nat2Z.id in Hq. rewrite Hq. f_equal.
    pose proof (Forall_lookup_1 _ _ _ _ Htid Hq) as Hr. cbn in Hr. apply wrap_s_id; cbn; lia.
  - symmetry. apply lookup_ge_None. apply lookup_ge_None in Hi.
    apply (f_equal length) in Hw. rewrite length_fmap, length_seqZ in Hw. lia.
Qed.

(** The merge tool recovers the commit order from its logs. *)
Lemma merge_commit_order : (∀ t, 0 ≤ t < Z.of_nat nthr → t ∈ C) →
  merge_commit_main Q commit_files = Ok C.
Proof.
  intros Hall. unfold merge_commit_main.
  assert (length commit_files = nthr) as Hl by (unfold commit_files; rewrite length_fmap, length_seqZ; lia).
  rewrite decide_False.
  2:{ unfold commit_files. intros (t & Ht & Hr%elem_of_seqZ)%list_elem_of_fmap.
      destruct (list_elem_of_lookup_1 _ _ (Hall t ltac:(lia))) as [i Hi].
      injection Ht as Ht. rewrite times_id in Ht.
      pose proof (lookup_lt_Some _ _ _ Hi).
      apply (not_elem_of_nil (Z.of_nat i)). rewrite Ht. apply list_elem_of_filter.
      rewrite Nat2Z.id. split; [done|]. apply elem_of_seqZ. lia. }
  unfold merge_commit. rewrite wrap_s_id by (cbn; lia). rewrite c_assert_true by done.
  cbn [mbind outcome_bind].
  destruct (init_queue_ok Z.le ts_gt_false commit_files) as (pq & log & Hin & Hq).
  { intros l. unfold commit_files. intros (t & [= ->] & _)%list_elem_of_fmap. apply times_sorted. }
  rewrite Hin. cbn [mbind outcome_bind].
  destruct (commit_loop_ok _ (total_entries commit_files) [] pq log [] Hq) as (P & -> & HP & Hs);
    [constructor|done|rewrite <- length_all_entries; cbn; lia|].
  f_equal. by apply commit_order_of_entries.
Qed.
End order.
End merge_proof.
