(* ===== verification/CommitReplayProof.v ===== *)
(** * CommitReplayProof: the commit-order replayer repeats the recorded blocks

    The invariant of [mem-replay-rtmcommit.c]: as many blocks as the commit log
    has given out are complete, the thread whose turn it is has made the first
    accesses of the next one, and every other thread is between two blocks. *)
From S2P Require Import Prelude Mem Batch PQueue KWay Sched Commit CommitReplay.

(** ** Lemmas: blocks *)

Lemma exec_block_split n k m p m' p' :
  run_accs k m p = Ok (m', p') → (k ≤ n)%nat → exec_block n m p = exec_block (n - k) m' p'.
Proof.
  revert n m p. induction k as [|k IH]; intros n m p Hrun Hk.
  { cbn in Hrun. injection Hrun as -> ->. by rewrite Nat.sub_0_r. }
  rewrite run_accs_cons in Hrun. destruct n as [|n]; [lia|].
  destruct p as [r|a f|a v p]; [done|..];
    (cbn [exec_block Nat.sub]; destruct (access_step m _) as [[m1 p1]|]; [|done]);
    cbn [mbind outcome_bind] in *; apply IH; done || lia.
Qed.

Lemma exec_block_next n m p m' p' : (¬ ∃ r, p = PRet r) →
  exec_block (S n) m p = Ok (m', p') → ∃ m1 p1, access_step m p = Ok (m1, p1).
Proof.
  intros Hne H. destruct p as [r|a f|a v p]; [by destruct Hne; exists r|..];
    cbn [exec_block] in H; destruct (access_step m _) as [[m1 p1]|]; eauto; done.
Qed.

Lemma run_blocks_app C1 C2 st :
  run_blocks (C1 ++ C2) st = st' ← run_blocks C1 st; run_blocks C2 st'.
Proof.
  induction C2 as [|t C2 IH] using rev_ind.
  { rewrite app_nil_r. by destruct (run_blocks C1 st). }
  rewrite app_assoc, run_blocks_snoc, IH. destruct (run_blocks C1 st) as [st'|]; [|done].
  cbn. by rewrite run_blocks_snoc.
Qed.

(** ** The invariant *)

Section replay.
Context (C : list Z) (mem0 memf : gmap Z Z) (progs psf : gmap Z prog).
Context (HC : run_blocks C (mem0, progs) = Ok (memf, psf)).
Context (Hreal : blocks_real C (mem0, progs)).
Context (Hret : ∀ t p, psf !! t = Some p → ∃ r, p = PRet r).
Context (Hfit : ∀ t p, progs !! t = Some p → ∃ b, at_most p b ∧ Z.of_nat b < 2 ^ 31).

(** [g_sim_bbcnt] counts the accesses the thread has made, and it will not
    overflow: one more is under way at [XNext] and [XCount]. *)
Definition counted (th : xthread) : Prop :=
  0 ≤ x_bbcnt th ∧ ∃ b, at_most (x_prog th) b ∧
    x_bbcnt th + Z.of_nat b + (if decide (x_pc th = XNext ∨ x_pc th = XCount) then 1 else 0) < 2 ^ 31.

(** Thread [th] has made [k] accesses of its block. *)
Definition at_access (k : nat) (th : xthread) : Prop :=
  let c := x_bbcnt th `rem` RTM_BATCH_N in
  counted th ∧
  match x_pc th with
  | XWait => c = Z.of_nat k
  | XAssert | XAccess => c = Z.of_nat k ∧ ¬ ∃ r, x_prog th = PRet r
  | XNext => c + 1 = Z.of_nat k
  | XCount => (c + 1) mod RTM_BATCH_N = Z.of_nat k
  | XEnd => False
  end.

(** A thread between two blocks. *)
Definition idle (th : xthread) : Prop :=
  x_pc th = XEnd ∧ (∃ r, x_prog th = PRet r) ∨
  (x_pc th = XWait ∨ x_pc th = XCount) ∧ at_access 0 th.

(** The thread whose turn it is. *)
Record active (m : gmap Z Z) (ps : gmap Z prog) (s : xstate) (t : Z) (k : nat) (th : xthread)
    : Prop := {
  ac_next : g_next_thr s = t;
  ac_thr : x_thr s !! t = Some th;
  ac_accs : ∃ p, ps !! t = Some p ∧ run_accs k m p = Ok (x_mem s, x_prog th);
  ac_at : at_access k th;
  ac_le : (k ≤ BLOCK)%nat }.

Definition xrank (th : xthread) : nat :=
  match x_pc th with
  | XNext => 4 | XCount => 3 | XWait => 2 | XAssert => 1 | XAccess => 0 | XEnd => 0
  end.

Definition ranks (thr : gmap Z xthread) : nat :=
  sum_list_with (λ t, from_option xrank 0%nat (thr !! t)) (elements (dom progs)).

(** An upper bound of the steps left, with [k] accesses made after [j] blocks. *)
Definition steps_left (j k : nat) (s : xstate) : nat :=
  5 * (BLOCK * (length C - j) - k) + ranks (x_thr s).

(** [j] blocks are complete, [k] accesses of the next one made. *)
Record xinv_at (j k : nat) (m : gmap Z Z) (ps : gmap Z prog) (s : xstate) : Prop := {
  xi_run : run_blocks (take j C) (mem0, progs) = Ok (m, ps);
  xi_log : x_commit_log s = drop (S j) C;
  xi_dom : ∀ t, is_Some (x_thr s !! t) ↔ is_Some (progs !! t);
  xi_idle : ∀ t th, x_thr s !! t = Some th → C !! j ≠ Some t →
    idle th ∧ ps !! t = Some (x_prog th);
  xi_active : match C !! j with
    | Some t => ∃ th, active m ps s t k th
    | None => x_mem s = m ∧ k = 0%nat
    end }.

Definition xinv (n : nat) (s : xstate) : Prop :=
  ∃ j k m ps, xinv_at j k m ps s ∧ n = steps_left j k s.

Lemma take_real j t : C !! j = Some t → ∃ m ps p, run_blocks (take j C) (mem0, progs) = Ok (m, ps) ∧
  ps !! t = Some p ∧ ¬ ∃ r, p = PRet r.
Proof. intros Hj. apply (Hreal _ _ (drop (S j) C)). by rewrite take_drop_middle. Qed.

Lemma turn_prog j t m ps : C !! j = Some t → run_blocks (take j C) (mem0, progs) = Ok (m, ps) →
  ∃ p, ps !! t = Some p ∧ ¬ ∃ r, p = PRet r.
Proof.
  intros Hj Hrun. destruct (take_real j t Hj) as (m1 & ps1 & p & Hrun1 & Hp & Hne).
  rewrite Hrun in Hrun1. injection Hrun1 as <- <-. eauto.
Qed.

(** The next block's thread becomes the active one. *)
Lemma next_block j m ps s :
  run_blocks (take j C) (mem0, progs) = Ok (m, ps) → x_commit_log s = drop j C → x_mem s = m →
  (∀ t, is_Some (x_thr s !! t) ↔ is_Some (progs !! t)) →
  (∀ t th, x_thr s !! t = Some th → idle th ∧ ps !! t = Some (x_prog th)) →
  xinv (steps_left j 0 s) (read_next_thr s).
Proof.
  intros Hrun Hlog Hm Hdom Hidle. exists j, 0%nat, m, ps.
  unfold read_next_thr. rewrite Hlog. destruct (C !! j) as [t|] eqn:Hj.
  - rewrite (drop_S _ _ _ Hj). split; [|done]. constructor; cbn; try done.
    { intros t' th Hth _. by apply Hidle. }
    rewrite Hj. destruct (turn_prog j t m ps Hj Hrun) as (p & Hp & Hne).
    destruct (proj2 (Hdom t)) as [th Hth]; [apply (run_blocks_dom _ _ _ _ _ Hrun); eauto|].
    destruct (Hidle t th Hth) as [Hi Hpth]. rewrite Hp in Hpth. injection Hpth as ->.
    exists th. constructor; cbn; [done|done| | |lia].
    + exists (x_prog th). by rewrite Hm.
    + destruct Hi as [[_ ?]|[_ ?]]; done.
  - assert (length C ≤ j)%nat by by apply lookup_ge_None.
    rewrite drop_ge by lia. split; [|done]. constructor; try done.
    + rewrite Hlog, !drop_ge by lia. done.
    + intros t' th Hth _. by apply Hidle.
    + by rewrite Hj.
Qed.

Lemma ranks_insert (thr : gmap Z xthread) t th th' :
  is_Some (progs !! t) → thr !! t = Some th →
  (ranks (<[t := th']> thr) + xrank th = ranks thr + xrank th')%nat.
Proof.
  intros Ht Hth. unfold ranks.
  pose proof (sum_list_with_update (λ u, from_option xrank 0%nat (<[t := th']> thr !! u))
    (λ u, from_option xrank 0%nat (thr !! u)) (elements (dom progs)) t) as H.
  cbn beta in H. rewrite lookup_insert_eq, Hth in H. cbn [from_option] in H.
  apply H; [apply NoDup_elements|by apply elem_of_elements, elem_of_dom|].
  intros u _ Hne. by rewrite lookup_insert_ne.
Qed.

(** ** The counter *)

(** As long as it does not overflow C's remainder is the modulus. *)
Lemma rem_succ c : 0 ≤ c → (c `rem` RTM_BATCH_N + 1) mod RTM_BATCH_N = (c + 1) `rem` RTM_BATCH_N.
Proof. intros Hc. rewrite !Z.rem_mod_nonneg by (done || lia). apply Zplus_mod_idemp_l. Qed.

Lemma counted_goto th pc : counted th → (pc = XNext ∨ pc = XCount → x_pc th = XNext) →
  counted (XThread (x_prog th) (x_bbcnt th) pc).
Proof.
  intros (H0 & b & Hb & Hlt) Hpc. split; [done|]. exists b. split; [done|]. cbn [x_pc x_bbcnt] in *.
  destruct (decide (pc = XNext ∨ pc = XCount)) as [Hd|Hd]; [rewrite decide_True in Hlt by auto; lia|].
  revert Hlt. case_decide; lia.
Qed.

Lemma counted_access th m m1 p1 : counted th → x_pc th = XAccess →
  access_step m (x_prog th) = Ok (m1, p1) → counted (XThread p1 (x_bbcnt th) XNext).
Proof.
  intros (H0 & b & Hb & Hlt) Hpc Hac. rewrite Hpc, decide_False in Hlt by naive_solver.
  destruct b as [|b]; [by destruct (x_prog th)|]. split; [done|]. exists b.
  split; [by eapply access_left|]. rewrite decide_True by (by left). cbn [x_bbcnt]. lia.
Qed.

Lemma counted_count th : counted th → x_pc th = XCount →
  wrap_s 32 (x_bbcnt th + 1) = x_bbcnt th + 1 ∧
  counted (XThread (x_prog th) (x_bbcnt th + 1) XWait).
Proof.
  intros (H0 & b & Hb & Hlt) Hpc. rewrite Hpc, decide_True in Hlt by (by right). split.
  - apply wrap_s_id; [done|]. change (2 ^ (32 - 1)) with (2 ^ 31). lia.
  - split; cbn [x_bbcnt]; [lia|]. exists b. split; [done|]. rewrite decide_False by naive_solver. lia.
Qed.

(** [g_sim_bbcnt++] moves on within the block, or to the start of the next one. *)
Lemma at_access_count k th : at_access k th → x_pc th = XCount →
  at_access k (XThread (x_prog th) (wrap_s 32 (x_bbcnt th + 1)) XWait).
Proof.
  intros [Hc Ha] Hpc. rewrite Hpc in Ha. destruct (counted_count th Hc Hpc) as [-> Hc'].
  split; [done|]. cbn [x_pc x_bbcnt]. rewrite <- Ha, rem_succ; [done|apply Hc].
Qed.

(** ** Steps *)

(** What a step that moves thread [t] achieves. *)
Definition moves (n : nat) (s : xstate) (t : Z) : Prop :=
  ∃ s', xstep t s = Ok s' ∧ x_thr s' !! t ≠ x_thr s !! t ∧ ∃ n', (n' < n)%nat ∧ xinv n' s'.

(** A thread moves on to [th'], which changes neither memory nor its program. *)
Lemma xgoto_ok j k m ps s t th th' :
  xinv_at j k m ps s → x_thr s !! t = Some th → xstep t s = Ok (set_xthr t th' s) →
  x_prog th' = x_prog th → (xrank th' < xrank th)%nat →
  (C !! j ≠ Some t → idle th') → (C !! j = Some t → at_access k th') →
  moves (steps_left j k s) s t.
Proof.
  intros [] Hth Hst Hp Hlt Hid Hac. exists (set_xthr t th' s). split; [done|].
  assert (is_Some (progs !! t)) as Ht by (apply xi_dom0; eauto). split.
  { cbn. rewrite lookup_insert_eq, Hth. intros [= ->]. lia. }
  exists (steps_left j k (set_xthr t th' s)). split.
  { unfold steps_left. pose proof (ranks_insert (x_thr s) t th th' Ht Hth). cbn [set_xthr x_thr]. lia. }
  exists j, k, m, ps. split; [|done]. constructor; cbn; try done.
  - intros t2. rewrite lookup_insert_is_Some', xi_dom0. split; [|tauto]. by intros [<-|?].
  - intros t2 th2 [[<- <-]|[Hne H2]]%lookup_insert_Some Hj; [|by apply xi_idle0].
    split; [auto|]. rewrite Hp. by apply xi_idle0.
  - destruct (C !! j) as [t2|] eqn:Hj; [|done]. destruct xi_active0 as (th2 & [Hn H2 Hr Ha Hle]).
    destruct (decide (t2 = t)) as [->|Hne].
    + exists th'. rewrite Hth in H2. injection H2 as <-. constructor; cbn; try done; [|rewrite Hp; done|auto].
      by rewrite lookup_insert_eq.
    + exists th2. constructor; cbn; try done. by rewrite lookup_insert_ne.
Qed.

(** The end of a block. *)
Lemma block_end_ok j k m ps s t th th' :
  xinv_at j k m ps s → C !! j = Some t → active m ps s t k th →
  xstep t s = Ok (read_next_thr (set_xthr t th' s)) →
  x_prog th' = x_prog th → (xrank th' < xrank th)%nat → idle th' →
  k = BLOCK ∨ (∃ r, x_prog th = PRet r) → moves (steps_left j k s) s t.
Proof.
  intros [] Hj [Hn Hth (p & Hp & Hr) Ha Hle] Hst Hp' Hlt Hid Hend.
  exists (read_next_thr (set_xthr t th' s)). split; [done|].
  assert (is_Some (progs !! t)) as Ht by (apply xi_dom0; eauto).
  assert (x_thr (read_next_thr (set_xthr t th' s)) = <[t := th']> (x_thr s)) as Ethr.
  { unfold read_next_thr. by destruct (x_commit_log (set_xthr t th' s)). }
  split.
  { rewrite Ethr, lookup_insert_eq, Hth. intros [= ->]. lia. }
  exists (steps_left (S j) 0 (set_xthr t th' s)). split.
  { unfold steps_left. pose proof (ranks_insert (x_thr s) t th th' Ht Hth).
    apply lookup_lt_Some in Hj. cbn [set_xthr x_thr].
    replace (length C - j)%nat with (S (length C - S j))%nat by lia. lia. }
  apply (next_block (S j) (x_mem s) (<[t := x_prog th]> ps)); try done.
  - rewrite (take_S_r _ _ _ Hj), run_blocks_snoc, xi_run0. cbn. unfold block_step. cbn.
    rewrite (arr_get_lookup _ _ _ Hp). cbn. by rewrite (exec_block_accs _ _ _ _ _ _ Hr Hle Hend).
  - intros t2. cbn. rewrite lookup_insert_is_Some', xi_dom0. split; [|tauto]. by intros [<-|?].
  - cbn. intros t2 th2 [[<- <-]|[Hne H2]]%lookup_insert_Some.
    + split; [done|]. by rewrite lookup_insert_eq, Hp'.
    + rewrite lookup_insert_ne by done. apply xi_idle0; [done|]. congruence.
Qed.

(** Every block of the recording succeeds, so its next access does. *)
Lemma access_succeeds j k m ps s t th :
  xinv_at j k m ps s → C !! j = Some t → active m ps s t k th → (k < BLOCK)%nat →
  (¬ ∃ r, x_prog th = PRet r) → ∃ m1 p1, access_step (x_mem s) (x_prog th) = Ok (m1, p1).
Proof.
  intros [] Hj [_ _ (p & Hp & Hr) _ _] Hk Hne.
  rewrite <- (take_drop_middle C j t Hj), run_blocks_app, xi_run0 in HC. cbn [mbind outcome_bind] in HC.
  change (t :: drop (S j) C) with ([t] ++ drop (S j) C) in HC. rewrite run_blocks_app in HC.
  cbn in HC. unfold block_step in HC. cbn in HC. rewrite (arr_get_lookup _ _ _ Hp) in HC. cbn in HC.
  destruct (exec_block BLOCK m p) as [[m2 p2]|] eqn:Hex; [|done].
  rewrite (exec_block_split _ _ _ _ _ _ Hr) in Hex by lia.
  replace (BLOCK - k)%nat with (S (BLOCK - S k)) in Hex by lia.
  by eapply exec_block_next.
Qed.

Lemma at_access_lt k th : at_access k th → x_pc th ≠ XNext → (k < BLOCK)%nat.
Proof.
  unfold at_access, BLOCK. intros [[H0 _] H] Hpc.
  pose proof (Z.rem_bound_pos (x_bbcnt th) RTM_BATCH_N H0 eq_refl) as Hr.
  pose proof (Z.mod_pos_bound (x_bbcnt th `rem` RTM_BATCH_N + 1) RTM_BATCH_N eq_refl) as Hm.
  apply Nat2Z.inj_lt. rewrite Z2Nat.id by done.
  destruct (x_pc th); try done; [|destruct H as [H _]..|]; rewrite <- H; tauto.
Qed.

(** An access. *)
Lemma access_ok j k m ps s t th :
  xinv_at j k m ps s → C !! j = Some t → active m ps s t k th → x_pc th = XAccess →
  moves (steps_left j k s) s t.
Proof.
  intros Hs Hj Hac Hpc. pose proof (ac_at _ _ _ _ _ _ Hac) as Ha.
  assert (k < BLOCK)%nat as Hk by (apply (at_access_lt k th Ha); by rewrite Hpc).
  unfold at_access in Ha. rewrite Hpc in Ha. destruct Ha as [Hct [Hc Hne]].
  destruct (access_succeeds j k m ps s t th Hs Hj Hac Hk Hne) as (m1 & p1 & Hst).
  destruct Hs as [Hrun Hlog Hdom Hidle _]. destruct Hac as [Hn Hth (p & Hp & Hr) _ _].
  assert (is_Some (progs !! t)) as Ht by (apply Hdom; eauto).
  pose (th' := XThread p1 (x_bbcnt th) XNext).
  exists (XState m1 (g_next_thr s) (x_commit_log s) (<[t := th']> (x_thr s))). split_and!.
  { unfold xstep. rewrite Hth, Hpc, Hst. done. }
  { cbn. rewrite lookup_insert_eq, Hth. intros E. injection E as E. by rewrite <- E in Hpc. }
  exists (steps_left j (S k) (XState m1 (g_next_thr s) (x_commit_log s) (<[t := th']> (x_thr s)))).
  split.
  { unfold steps_left. pose proof (ranks_insert (x_thr s) t th th' Ht Hth) as H.
    assert (xrank th = 0%nat) as E0 by (unfold xrank; by rewrite Hpc).
    assert (xrank th' = 4%nat) as E4 by done. apply lookup_lt_Some in Hj. cbn [x_thr]. nia. }
  exists j, (S k), m, ps. split; [|done]. constructor; cbn; try done.
  - intros t2. rewrite lookup_insert_is_Some', Hdom. split; [|tauto]. by intros [<-|?].
  - intros t2 th2 [[<- <-]|[Hne2 H2]]%lookup_insert_Some Hj2; [done|]. by apply Hidle.
  - rewrite Hj. exists th'. constructor; cbn [g_next_thr x_thr x_mem]; [done|by rewrite lookup_insert_eq| | |lia].
    + exists p. split; [done|]. cbn. by rewrite Hr.
    + split; [by eapply counted_access|]. cbn. lia.
Qed.

Lemma set_xthr_read t th s : set_xthr t th (read_next_thr s) = read_next_thr (set_xthr t th s).
Proof. unfold read_next_thr. cbn. by destruct (x_commit_log s). Qed.

(** Computes a step of a thread whose program counter is known from [Hpc], and
    compares ranks. *)
Local Ltac xstep_at Hth Hpc := unfold xstep; rewrite Hth, Hpc.
Local Ltac xrank_at Hpc := unfold xrank; rewrite Hpc; cbn; lia.

Lemma wait_moves j k m ps s t th :
  xinv_at j k m ps s → C !! j = Some t → active m ps s t k th → x_pc th = XWait →
  moves (steps_left j k s) s t.
Proof.
  intros Hs Hj Hac Hpc. pose proof Hac as [Hn Hth (p & Hp & Hr) Ha Hle].
  unfold at_access in Ha. rewrite Hpc in Ha. destruct Ha as [Hct Ha].
  destruct (decide (∃ r, x_prog th = PRet r)) as [Hd|Hd].
  - eapply (block_end_ok j k m ps s t th (XThread (x_prog th) (x_bbcnt th) XEnd)); try done.
    + xstep_at Hth Hpc. rewrite decide_True by done. rewrite decide_True; [by rewrite set_xthr_read|].
      destruct (turn_prog j t m ps Hj (xi_run _ _ _ _ _ Hs)) as (p' & Hp' & Hne).
      rewrite Ha. intros E. assert (k = 0%nat) as -> by lia. cbn in Hr.
      rewrite Hp in Hp'. injection Hp' as <-. injection Hr as _ ->. done.
    + xrank_at Hpc.
    + by left.
    + by right.
  - eapply (xgoto_ok j k m ps s t th (XThread (x_prog th) (x_bbcnt th) XAssert)); try done.
    + xstep_at Hth Hpc. rewrite decide_False by done. rewrite decide_False; [done|tauto].
    + xrank_at Hpc.
    + intros _. split; [apply counted_goto; naive_solver|done].
Qed.

Lemma next_moves j k m ps s t th :
  xinv_at j k m ps s → C !! j = Some t → active m ps s t k th → x_pc th = XNext →
  moves (steps_left j k s) s t.
Proof.
  intros Hs Hj Hac Hpc. pose proof Hac as [Hn Hth _ Ha _].
  unfold at_access in Ha. rewrite Hpc in Ha. destruct Ha as [Hct Ha].
  assert (counted (XThread (x_prog th) (x_bbcnt th) XCount)) as Hct' by (by apply counted_goto).
  assert (xstep t s = Ok (set_xthr t (XThread (x_prog th) (x_bbcnt th) XCount)
    (if decide (x_bbcnt th `rem` RTM_BATCH_N = RTM_BATCH_N - 1) then read_next_thr s else s))) as Hst
    by by xstep_at Hth Hpc.
  case_decide as Hc.
  - eapply (block_end_ok j k m ps s t th (XThread (x_prog th) (x_bbcnt th) XCount)); try done.
    + by rewrite Hst, set_xthr_read.
    + xrank_at Hpc.
    + right. split; [by right|]. split; [done|]. cbn [x_pc x_bbcnt]. by rewrite Hc.
    + left. rewrite Hc in Ha. unfold BLOCK, RTM_BATCH_N in *. lia.
  - eapply (xgoto_ok j k m ps s t th (XThread (x_prog th) (x_bbcnt th) XCount)); try done.
    + xrank_at Hpc.
    + intros _. split; [done|]. cbn [x_pc x_bbcnt]. rewrite Ha. apply Z.mod_small.
      pose proof (Z.rem_bound_pos (x_bbcnt th) RTM_BATCH_N (proj1 Hct) eq_refl). lia.
Qed.

(** [g_sim_bbcnt++], by any thread. *)
Lemma count_moves j k m ps s t th :
  xinv_at j k m ps s → x_thr s !! t = Some th → x_pc th = XCount →
  (C !! j = Some t → active m ps s t k th) → moves (steps_left j k s) s t.
Proof.
  intros Hs Hth Hpc Hac.
  eapply (xgoto_ok j k m ps s t th (XThread (x_prog th) (wrap_s 32 (x_bbcnt th + 1)) XWait)); try done.
  - by xstep_at Hth Hpc.
  - xrank_at Hpc.
  - intros Hj. right. split; [by left|]. apply at_access_count; [|done].
    destruct (xi_idle _ _ _ _ _ Hs t th Hth Hj) as [[[? _]|[_ ?]] _]; [congruence|done].
  - intros Hj. apply at_access_count; [|done]. apply (Hac Hj).
Qed.

Lemma active_moves j k m ps s t th :
  xinv_at j k m ps s → C !! j = Some t → active m ps s t k th → moves (steps_left j k s) s t.
Proof.
  intros Hs Hj Hac. pose proof Hac as [Hn Hth _ Ha _]. destruct (x_pc th) eqn:Hpc.
  - by eapply wait_moves.
  - eapply (xgoto_ok j k m ps s t th (XThread (x_prog th) (x_bbcnt th) XAccess)); try done.
    + xstep_at Hth Hpc. by rewrite c_assert_true.
    + xrank_at Hpc.
    + intros _. unfold at_access in *. rewrite Hpc in Ha. destruct Ha as [Hct Ha].
      split; [apply counted_goto; naive_solver|done].
  - by eapply access_ok.
  - by eapply next_moves.
  - by eapply count_moves.
  - unfold at_access in Ha. rewrite Hpc in Ha. by destruct Ha.
Qed.

(** When every block is complete every program has returned. *)
Lemma done_ret j k m ps s : xinv_at j k m ps s → C !! j = None → m = memf ∧ ps = psf.
Proof.
  intros Hs Hj%lookup_ge_None. pose proof (xi_run _ _ _ _ _ Hs) as Hrun.
  rewrite take_ge, HC in Hrun by lia. by injection Hrun as -> ->.
Qed.

(** A thread between two blocks moves on, waits for its turn or has ended. *)
Lemma idle_moves j k m ps s t th :
  xinv_at j k m ps s → C !! j ≠ Some t → x_thr s !! t = Some th →
  moves (steps_left j k s) s t ∨
  xstep t s = Ok s ∧ (x_pc th = XEnd ∨ is_Some (C !! j)).
Proof.
  intros Hs Hj Hth. destruct (xi_idle _ _ _ _ _ Hs t th Hth Hj) as [Hi Hp].
  destruct Hi as [[Hpc _]|[[Hpc|Hpc] Ha]].
  - right. split; [by xstep_at Hth Hpc|by left].
  - unfold at_access in Ha. rewrite Hpc in Ha. destruct Ha as [_ Ha].
    destruct (decide (∃ r, x_prog th = PRet r)) as [Hd|Hd].
    + left. eapply (xgoto_ok j k m ps s t th (XThread (x_prog th) (x_bbcnt th) XEnd)); try done.
      * xstep_at Hth Hpc. rewrite decide_True by done. rewrite decide_False; [done|]. rewrite Ha. tauto.
      * xrank_at Hpc.
      * by left.
    + right. destruct (C !! j) as [t'|] eqn:Hj'.
      * split; [|by right]. xstep_at Hth Hpc. rewrite decide_False by done.
        rewrite decide_True; [done|]. pose proof (xi_active _ _ _ _ _ Hs) as Hac. rewrite Hj' in Hac.
        destruct Hac as (th' & []). split; [done|congruence].
      * destruct (done_ret _ _ _ _ _ Hs Hj') as [_ ->]. destruct Hd. by eapply Hret.
  - left. by eapply count_moves.
Qed.

Lemma xinv_step n s t : xinv n s →
  ∃ s', xstep t s = Ok s' ∧ (s' = s ∨ ∃ n', (n' < n)%nat ∧ xinv n' s').
Proof.
  intros (j & k & m & ps & Hs & ->). destruct (x_thr s !! t) as [th|] eqn:Hth.
  2: { exists s. split; [|by left]. unfold xstep. by rewrite Hth. }
  assert (moves (steps_left j k s) s t ∨ xstep t s = Ok s) as [(s' & ? & _ & ?)|?]; [|eauto..].
  destruct (decide (C !! j = Some t)) as [Hj|Hj].
  - left. pose proof (xi_active _ _ _ _ _ Hs) as Hac. rewrite Hj in Hac.
    destruct Hac as (th' & Hac). by eapply active_moves.
  - destruct (idle_moves j k m ps s t th Hs Hj Hth) as [?|[? _]]; auto.
Qed.

Lemma xinv_progress n s : xinv n s →
  x_finished s ∨ ∃ t, is_Some (progs !! t) ∧ xstep t s ≠ Ok s.
Proof.
  intros (j & k & m & ps & Hs & ->).
  assert (∀ t, moves (steps_left j k s) s t → xstep t s ≠ Ok s) as Hmv.
  { intros t (s' & -> & Hd & _) [= ->]. done. }
  destruct (C !! j) as [t|] eqn:Hj.
  - right. exists t. pose proof (xi_active _ _ _ _ _ Hs) as Hac. rewrite Hj in Hac.
    destruct Hac as (th & Hac). split; [|by eapply Hmv, active_moves].
    apply (xi_dom _ _ _ _ _ Hs). eexists. apply Hac.
  - destruct (decide (map_Forall (λ _ th, x_pc th = XEnd) (x_thr s))) as [Hf|Hf]; [by left|right].
    apply map_not_Forall in Hf as (t & th & Hth & Hne); [|apply _].
    exists t. split; [apply (xi_dom _ _ _ _ _ Hs); eauto|].
    destruct (idle_moves j k m ps s t th Hs) as [?|[_ [?|[? ?]]]]; [congruence|done|auto|done|congruence].
Qed.

#[export] Instance commit_replay_live :
  live_machine xstep (λ t, is_Some (progs !! t)) x_finished xinv.
Proof.
  split; [intros n s t; apply xinv_step|apply xinv_progress|].
  intros s t Hf. unfold xstep. destruct (x_thr s !! t) as [th|] eqn:Hth; [|done].
  by rewrite (Hf t th Hth).
Qed.

Lemma xinit_inv s : xinit (Some C) mem0 progs = Ok s → ∃ n, xinv n s.
Proof.
  intros Hin. assert (s = read_next_thr (XState mem0 0 C ((λ p, XThread p 0 XWait) <$> progs))) as ->.
  { clear - Hin. unfold xinit in Hin. destruct C; [done|]. by injection Hin. }
  eexists.
  apply (next_block 0 mem0 progs); try done; cbn.
  - intros t. by rewrite lookup_fmap, fmap_is_Some.
  - intros t th. rewrite lookup_fmap. destruct (progs !! t) as [p|] eqn:Hp; [|done].
    intros [= <-]. split; [|done]. right. split; [by left|]. split; [|done]. split; [done|].
    destruct (Hfit t p) as (b & ? & ?); [done|]. exists b. split; [done|].
    rewrite decide_False by naive_solver. cbn [x_bbcnt]. lia.
Qed.

(** A finished replay leaves memory and programs as the blocks do. *)
Lemma xinv_finished n s : xinv n s → x_finished s →
  x_mem s = memf ∧ x_prog <$> x_thr s = psf.
Proof.
  intros (j & k & m & ps & Hs & ->) Hf. pose proof (xi_active _ _ _ _ _ Hs) as Hac.
  destruct (C !! j) as [t|] eqn:Hj.
  { destruct Hac as (th & [_ Hth _ Ha _]). unfold at_access in Ha. rewrite (Hf t th Hth) in Ha. by destruct Ha. }
  destruct Hac as [-> _]. destruct (done_ret _ _ _ _ _ Hs Hj) as [-> ->]. split; [done|].
  apply map_eq. intros t. rewrite lookup_fmap. destruct (x_thr s !! t) as [th|] eqn:Hth; cbn.
  - symmetry. apply (xi_idle _ _ _ _ _ Hs t th Hth). congruence.
  - symmetry. apply eq_None_not_Some. rewrite (run_blocks_dom _ _ _ _ _ HC), <- (xi_dom _ _ _ _ _ Hs), Hth.
    by intros [? ?].
Qed.
End replay.
