(* ===== verification/CommitCorrectness.v ===== *)
(** * CommitCorrectness: recording and replaying the commit order, end to end

    [mem-record-rtmcommit.c], [merge-commit.cpp] and [mem-replay-rtmcommit.c]
    together: every recording is a serial execution of whole blocks, the merge
    tool recovers their order, and every replay of it repeats the recording. *)
From S2P Require Import Prelude Mem Batch PQueue KWay Sched Commit CommitReplay CommitReplayProof.

(** The commit logs that [n] threads leave. *)
Definition commit_logs (n : nat) (s : cstate) : list (option (list Z)) :=
  (λ t, g_commit_log <$> c_thr s !! t) <$> seqZ 0 (Z.of_nat n).

(** ** Lemmas *)

Lemma run_blocks_other C m ps m' ps' t : run_blocks C (m, ps) = Ok (m', ps') → t ∉ C →
  ps' !! t = ps !! t.
Proof.
  revert m' ps'. induction C as [|t0 C IH] using rev_ind; intros m' ps' H Ht.
  { by injection H as _ ->. }
  rewrite run_blocks_snoc in H. destruct (run_blocks C (m, ps)) as [[m1 ps1]|] eqn:E; [|done].
  cbn in H. unfold block_step in H. cbn in H. apply not_elem_of_app in Ht as [Ht Hne%not_elem_of_cons].
  destruct (arr_get ps1 t0) as [p|]; [|done]. cbn in H.
  destruct (exec_block BLOCK m1 p) as [[m2 p2]|]; [|done]. cbn in H. injection H as _ <-.
  rewrite lookup_insert_ne by naive_solver. by apply (IH m1).
Qed.

Lemma times_notin t C : t ∉ C → times t C = [].
Proof.
  intros Ht. unfold times. destruct (filter _ _) as [|i l] eqn:E; [done|]. destruct Ht.
  assert (i ∈ i :: l) as Hi by set_solver. rewrite <- E in Hi.
  apply list_elem_of_filter in Hi as [Hi _]. by eapply list_elem_of_lookup_2.
Qed.

(** A block's thread is one of the program's. *)
Lemma blocks_real_thread C m0 ps0 t : blocks_real C (m0, ps0) → t ∈ C → is_Some (ps0 !! t).
Proof.
  intros Hreal Ht. apply list_elem_of_split in Ht as (C1 & C2 & E).
  destruct (Hreal C1 t C2 E) as (m & ps & p & Hrun & Hp & _).
  apply (run_blocks_dom _ _ _ _ _ Hrun t). eauto.
Qed.

(** A thread that returns at once makes no block. *)
Lemma blocks_real_ret C st t r : blocks_real C st → st.2 !! t = Some (PRet r) → t ∉ C.
Proof.
  intros Hreal Hp. induction C as [|t0 C IH] using rev_ind; [set_solver|].
  assert (blocks_real C st) as HC.
  { intros C1 t1 C2 ->. apply (Hreal C1 t1 (C2 ++ [t0])). by rewrite <- app_assoc. }
  specialize (IH HC). rewrite not_elem_of_app, not_elem_of_cons. split_and!; [done| |set_solver].
  intros ->. destruct (Hreal C t0 [] eq_refl) as (m & ps & p & Hrun & Hpt & Hne).
  destruct st as [m0 ps0]. cbn in Hp.
  rewrite (run_blocks_other _ _ _ _ _ _ Hrun IH), Hp in Hpt. injection Hpt as <-. eauto.
Qed.

(** ** The recording *)

Section commit.
Context (mem0 : gmap Z Z).

(** A finished recording of the threads [ps], each of which makes an access. *)
Record commit_recording (ps : list prog) (acts : list caction) (s : cstate) : Prop := {
  cr_some : ps ≠ [];
  cr_within : ∀ p, p ∈ ps → prog_within (λ a, is_Some (mem0 !! a)) p;
  cr_run : crun acts (cinit mem0 (map_seqZ 0 ps)) = Ok s;
  cr_finished : c_finished s;
  cr_access : ∀ p, p ∈ ps → ¬ ∃ r, p = PRet r;
  cr_thr : Z.of_nat (length ps) ≤ 127;
  cr_accs : accesses_fit ps }.

Lemma programs_within (ps : list prog) : (∀ p, p ∈ ps → prog_within (λ a, is_Some (mem0 !! a)) p) →
  ∀ t p, (map_seqZ 0 ps : gmap Z prog) !! t = Some p → prog_within (λ a, is_Some (mem0 !! a)) p.
Proof.
  intros Hw t p Hp. apply lookup_map_seqZ_Some in Hp as [_ Hp]. apply Hw. by eapply list_elem_of_lookup_2.
Qed.

Lemma thread_lookup (ps : list prog) t :
  is_Some ((map_seqZ 0 ps : gmap Z prog) !! t) ↔ 0 ≤ t < Z.of_nat (length ps).
Proof.
  rewrite lookup_map_seqZ. case_guard as H; cbn.
  - rewrite lookup_lt_is_Some. lia.
  - split; [by intros [? ?]|lia].
Qed.

(** What the merge tool and the replayer get from a recording. *)
Record commit_order (ps : list prog) (s : cstate) (C : list Z) : Prop := {
  co_run : run_blocks C (mem0, map_seqZ 0 ps) = Ok (c_mem s, ct_prog <$> c_thr s);
  co_real : blocks_real C (mem0, map_seqZ 0 ps);
  co_tids : Forall (λ t, 0 ≤ t < Z.of_nat (length ps)) C;
  co_all : ∀ t, 0 ≤ t < Z.of_nat (length ps) → t ∈ C;
  co_len : Z.of_nat (length C) < 2 ^ 64;
  co_logs : commit_logs (length ps) s = commit_files C (length ps);
  co_ret : ∀ t p, (ct_prog <$> c_thr s) !! t = Some p → ∃ r, p = PRet r }.

Lemma recording_order ps acts s : commit_recording ps acts s → ∃ C, commit_order ps s C.
Proof.
  intros []. destruct (crun_ok mem0 (map_seqZ 0 ps) (programs_within ps cr_within0) acts)
    as (s' & C & m & qs & Hrun & Hs & Hlen).
  rewrite cr_run0 in Hrun. injection Hrun as <-. exists C.
  destruct (commit_finished _ _ C m qs s Hs cr_finished0) as (HC & Hreal & Hlogs).
  assert (∀ t p, (ct_prog <$> c_thr s) !! t = Some p → ∃ r, p = PRet r) as Hret.
  { intros t p. rewrite lookup_fmap. intros Hp. apply fmap_Some in Hp as (th & Hth & ->).
    by apply (cr_finished0 t). }
  constructor; try done.
  - apply list.Forall_forall. intros t Ht. by apply thread_lookup, (blocks_real_thread _ _ _ _ Hreal).
  - intros t Ht. destruct (decide (t ∈ C)) as [|Hn]; [done|].
    apply thread_lookup in Ht as [p Hp]. pose proof (run_blocks_other _ _ _ _ _ _ HC Hn) as Hq.
    rewrite Hp in Hq. destruct (Hret t p Hq) as [r ->].
    apply lookup_map_seqZ_Some in Hp as [_ Hp]. destruct (cr_access0 (PRet r)); [|eauto].
    by eapply list_elem_of_lookup_2.
  - destruct cr_accs0 as (b & Hb & Hfit). rewrite list.Forall_forall in Hb.
    enough (length C ≤ length ps * b)%nat by lia.
    etrans; [eapply (blocks_bound (Z.of_nat (length ps)) (λ _, b)); [|exact HC|exact Hreal]|].
    + intros t p Hp. split; [apply thread_lookup; eauto|]. apply lookup_map_seqZ_Some in Hp as [_ Hp].
      apply Hb. by eapply list_elem_of_lookup_2.
    + rewrite <- (Nat2Z.id (length ps)) at 2. rewrite <- (length_seqZ 0).
      generalize (seqZ 0 (Z.of_nat (length ps))). intros L. induction L; cbn; lia.
  - unfold commit_logs, commit_files. apply list_fmap_ext. intros _ t Ht%list_elem_of_lookup_2.
    apply elem_of_seqZ in Ht. cbn. destruct (c_thr s !! t) as [th|] eqn:Hth; cbn; [by rewrite (Hlogs t th)|].
    assert (is_Some ((ct_prog <$> c_thr s) !! t)) as [? H].
    { rewrite (run_blocks_dom _ _ _ _ _ HC). apply thread_lookup. lia. }
    by rewrite lookup_fmap, Hth in H.
Qed.

Lemma order_merges (Q : prio_queue ts_gt) `{!prio_queue_ok Q} ps acts s C :
  commit_recording ps acts s → commit_order ps s C →
  merge_commit_main Q (commit_logs (length ps) s) = Ok C.
Proof. intros [] []. rewrite co_logs0. by apply merge_commit_order. Qed.

Lemma replay_start ps acts s C : ps ≠ [] →
  commit_recording ps acts s → commit_order ps s C → ∃ x0, xinit (Some C) mem0 (map_seqZ 0 ps) = Ok x0.
Proof.
  intros Hne HR HO. destruct ps as [|p ps]; [done|].
  assert (0 ∈ C) as H0 by (apply (co_all _ _ _ HO); cbn; lia).
  destruct C as [|t C]; [by apply not_elem_of_nil in H0|]. eexists. reflexivity.
Qed.

(** ** The theorems *)

(** C11: no recording fails, and a finished one is serializable: it is the execution of
    whole blocks, each with at least one access, in some order [C], and the log of
    every thread holds the times of its blocks in [C]. *)
Theorem commit_record_serializable (ps : list prog) (acts : list caction) :
  (∀ p, p ∈ ps → prog_within (λ a, is_Some (mem0 !! a)) p) →
  ∃ s, crun acts (cinit mem0 (map_seqZ 0 ps)) = Ok s ∧
    (c_finished s → ∃ C, run_blocks C (mem0, map_seqZ 0 ps) = Ok (c_mem s, ct_prog <$> c_thr s) ∧
      blocks_real C (mem0, map_seqZ 0 ps) ∧
      ∀ t th, c_thr s !! t = Some th → g_commit_log th = times t C).
Proof.
  intros Hw. destruct (crun_ok mem0 (map_seqZ 0 ps) (programs_within ps Hw) acts)
    as (s & C & m & qs & Hrun & Hs & _).
  exists s. split; [done|]. intros Hf. exists C. by apply (commit_finished _ _ C m qs s Hs).
Qed.

(** C19: a thread that makes no access commits nothing; its empty log cannot be
    mapped and the merge tool gives up. *)
Theorem commit_idle_thread_rejected (Q : prio_queue ts_gt) (ps : list prog) acts s t r :
  (∀ p, p ∈ ps → prog_within (λ a, is_Some (mem0 !! a)) p) →
  crun acts (cinit mem0 (map_seqZ 0 ps)) = Ok s → ps !! t = Some (PRet r) →
  merge_commit_main Q (commit_logs (length ps) s) = Err ExitFailure.
Proof.
  intros Hw Hrun Hp. destruct (crun_ok mem0 (map_seqZ 0 ps) (programs_within ps Hw) acts)
    as (s' & C & m & qs & Hrun' & Hs & _).
  rewrite Hrun in Hrun'. injection Hrun' as <-.
  assert ((map_seqZ 0 ps : gmap Z prog) !! Z.of_nat t = Some (PRet r)) as Ht.
  { apply lookup_map_seqZ_Some. split; [lia|]. by rewrite Z.sub_0_r, Nat2Z.id. }
  unfold merge_commit_main. rewrite decide_True; [done|]. apply list_elem_of_fmap.
  exists (Z.of_nat t). split.
  - destruct (proj2 (ci_dom _ _ _ _ _ _ Hs (Z.of_nat t))) as [th Hth].
    { apply (run_blocks_dom _ _ _ _ _ (ci_run _ _ _ _ _ _ Hs)). eauto. }
    rewrite Hth. cbn. rewrite (ci_log _ _ _ _ _ _ Hs _ _ Hth), times_notin; [done|].
    by eapply blocks_real_ret; [apply (ci_real _ _ _ _ _ _ Hs)|].
  - apply elem_of_seqZ. apply lookup_lt_Some in Hp. lia.
Qed.
End commit.

(** ** A concrete recording

    Two threads of ten accesses each: thread 0 commits its blocks as transactions,
    thread 1 falls back to the lock. *)

Fixpoint bump_prog (n : nat) (a b : Z) : prog :=
  match n with
  | O => PRet 0
  | S n => PRead a (λ v, PWrite b (v + 1) (bump_prog n b a))
  end.

Definition cdemo_threads : list prog := [bump_prog 5 0 1; bump_prog 5 1 0].
Definition cdemo_mem : gmap Z Z := {[0 := 3; 1 := 10]}.

Definition cdemo_acts : list caction :=
  [CCommit 0; CLock 1] ++ replicate 7 (CStep 1) ++ [CCommit 0; CLock 1] ++ replicate 4 (CStep 1).

Definition cdemo_end : cstate :=
  value (cinit ∅ ∅) (crun cdemo_acts (cinit cdemo_mem (map_seqZ 0 cdemo_threads))).

Lemma bump_within n a b : is_Some (cdemo_mem !! a) → is_Some (cdemo_mem !! b) →
  prog_within (λ x, is_Some (cdemo_mem !! x)) (bump_prog n a b).
Proof. revert a b. induction n as [|n IH]; intros a b Ha Hb; cbn; auto. Qed.

Lemma cdemo_within p : p ∈ cdemo_threads → prog_within (λ x, is_Some (cdemo_mem !! x)) p.
Proof.
  intros [->|[->|[]%not_elem_of_nil]%elem_of_cons]%elem_of_cons; apply bump_within; eexists; reflexivity.
Qed.

Lemma cdemo_fits : accesses_fit cdemo_threads.
Proof. exists 10%nat. split; [repeat constructor; cbn; auto|cbn; lia]. Qed.

Lemma commit_record_serializable_witness :
  ∃ s, crun cdemo_acts (cinit cdemo_mem (map_seqZ 0 cdemo_threads)) = Ok s ∧
    (c_finished s → ∃ C, run_blocks C (cdemo_mem, map_seqZ 0 cdemo_threads)
        = Ok (c_mem s, ct_prog <$> c_thr s) ∧
      blocks_real C (cdemo_mem, map_seqZ 0 cdemo_threads) ∧
      ∀ t th, c_thr s !! t = Some th → g_commit_log th = times t C).
Proof. exact (commit_record_serializable cdemo_mem cdemo_threads cdemo_acts cdemo_within). Defined.

Definition cdemo_idle : list prog := [bump_prog 1 0 1; PRet 4].
Definition cdemo_idle_end : cstate :=
  value (cinit ∅ ∅) (crun [CCommit 0] (cinit cdemo_mem (map_seqZ 0 cdemo_idle))).

Lemma commit_idle_thread_rejected_witness :
  commit_logs 2 cdemo_idle_end = [Some [0]; Some []] ∧
  merge_commit_main (sorted_queue ts_gt) (commit_logs 2 cdemo_idle_end) = Err ExitFailure.
Proof.
  split; [vm_compute; reflexivity|].
  apply (commit_idle_thread_rejected cdemo_mem (sorted_queue ts_gt) cdemo_idle [CCommit 0]
    cdemo_idle_end 1 4); [|vm_compute; reflexivity|reflexivity].
  intros p [->|[->|[]%not_elem_of_nil]%elem_of_cons]%elem_of_cons;
    [apply bump_within; eexists; reflexivity|exact I].
Defined.
