(* ===== verification/CommitReplayTso.v ===== *)
(** * CommitReplayTso: the commit-order replayer on x86-TSO

    [mem-replay-rtmcommit.c] has no locks and no fences: the data, the position in
    the commit log and [g_next_thr] are written with plain stores.  Here each
    thread has a store buffer: an instruction of [CommitReplay.xstep] reads through
    the thread's buffer, its stores go to the end of the buffer, and a buffered
    store reaches memory at any later time.  The stores of a block and of
    [read_next_thr] reach memory in their order, so the next thread sees its turn
    only after everything the block wrote; that is all the replayer needs. *)
From S2P Require Import Prelude Mem Batch PQueue KWay Sched Commit CommitReplay CommitReplayProof.
From S2P Require Import CommitCorrectness.

(** ** The machine *)

(** A store: to the data, to the position in [g_commit_log], or to [g_next_thr]. *)
Inductive xstore :=
| XData (addr val : Z)
| XLogPos (rest : list Z)
| XNextThr (t : Z).

Definition xput (st : xstore) (s : xstate) : xstate :=
  match st with
  | XData addr val => XState (<[addr := val]> (x_mem s)) (g_next_thr s) (x_commit_log s) (x_thr s)
  | XLogPos rest => XState (x_mem s) (g_next_thr s) rest (x_thr s)
  | XNextThr t => XState (x_mem s) t (x_commit_log s) (x_thr s)
  end.

(** Memory with the stores of [b] made, oldest first. *)
Definition xflush (b : list xstore) (s : xstate) : xstate := foldl (λ s st, xput st s) s b.

(** Memory with the threads' variables, and the buffers. *)
Record ystate := YState {
  y_s : xstate;
  y_buf : gmap Z (list xstore) }.

(** An instruction of a thread, or its oldest buffered store reaching memory. *)
Inductive yact := YExec (t : Z) | YDrain (t : Z).

(** The stores of [read_next_thr]: [read_log_entry] moves the position first. *)
Definition next_stores (s : xstate) : list xstore :=
  match x_commit_log s with
  | [] => []
  | t :: l => [XLogPos l; XNextThr t]
  end.

(** The stores of the step thread [th] is at, in a memory it sees as [v]. *)
Definition xstores (th : xthread) (v : xstate) : list xstore :=
  match x_pc th, x_prog th with
  | XAccess, PWrite addr val _ => [XData addr val]
  | XWait, PRet _ => if decide (x_bbcnt th `rem` RTM_BATCH_N ≠ 0) then next_stores v else []
  | XNext, _ => if decide (x_bbcnt th `rem` RTM_BATCH_N = RTM_BATCH_N - 1) then next_stores v else []
  | _, _ => []
  end.

Definition ystep (a : yact) (y : ystate) : outcome ystate :=
  match a with
  | YExec t =>
      match x_thr (y_s y) !! t, y_buf y !! t with
      | Some th, Some b =>
          let view := xflush b (y_s y) in
          v ← xstep t view;
          Ok (YState (XState (x_mem (y_s y)) (g_next_thr (y_s y)) (x_commit_log (y_s y)) (x_thr v))
                (<[t := b ++ xstores th view]> (y_buf y)))
      | _, _ => Ok y
      end
  | YDrain t =>
      match y_buf y !! t with
      | Some (st :: b) => Ok (YState (xput st (y_s y)) (<[t := b]> (y_buf y)))
      | _ => Ok y
      end
  end.

(** [mem_init] runs before the threads are created. *)
Definition ystart (s : xstate) : ystate := YState s ((λ _, []) <$> x_thr s).

(** Every thread has returned and its stores have reached memory. *)
Definition y_finished (y : ystate) : Prop :=
  x_finished (y_s y) ∧ map_Forall (λ _ b, b = []) (y_buf y).

#[global] Instance y_finished_dec y : Decision (y_finished y).
Proof. apply _. Defined.

Definition ylive (progs : gmap Z prog) (a : yact) : Prop :=
  match a with YExec t | YDrain t => is_Some (progs !! t) end.

(** ** Lemmas: stores *)

Lemma xflush_app b1 b2 s : xflush (b1 ++ b2) s = xflush b2 (xflush b1 s).
Proof. unfold xflush. by rewrite foldl_app. Qed.

Lemma xput_thr st s : x_thr (xput st s) = x_thr s.
Proof. by destruct st. Qed.

Lemma xflush_thr b s : x_thr (xflush b s) = x_thr s.
Proof.
  revert s. induction b as [|st b IH]; intros s; [done|].
  change (xflush (st :: b) s) with (xflush b (xput st s)). by rewrite IH, xput_thr.
Qed.

(** Memory with other threads. *)
Definition with_thr (thr : gmap Z xthread) (s : xstate) : xstate :=
  XState (x_mem s) (g_next_thr s) (x_commit_log s) thr.

Lemma xflush_with b thr s : xflush b (with_thr thr s) = with_thr thr (xflush b s).
Proof.
  revert s. induction b as [|st b IH]; intros s; [done|].
  change (xflush (st :: b) (with_thr thr s)) with (xflush b (xput st (with_thr thr s))).
  change (xflush (st :: b) s) with (xflush b (xput st s)). rewrite <- IH. by destruct st.
Qed.

Lemma read_next_stores s : read_next_thr s = xflush (next_stores s) s.
Proof. unfold read_next_thr, next_stores. by destruct (x_commit_log s). Qed.

Lemma next_thr_read s : x_thr (read_next_thr s) = x_thr s.
Proof. unfold read_next_thr. by destruct (x_commit_log s). Qed.

Lemma set_xthr_with t th s : set_xthr t th s = with_thr (<[t := th]> (x_thr s)) s.
Proof. done. Qed.

(** A step is its stores, and a change of the thread's variables. *)
Lemma xstep_stores t th s s' : x_thr s !! t = Some th → xstep t s = Ok s' →
  s' = s ∧ xstores th s = [] ∨
  ∃ th', s' = with_thr (<[t := th']> (x_thr s)) (xflush (xstores th s) s) ∧ x_pc th' ≠ x_pc th.
Proof.
  intros Hth. unfold xstep, xstores. rewrite Hth.
  assert (∀ pc s1, pc ≠ x_pc th → x_thr s1 = x_thr s → ∃ th',
    set_xthr t (XThread (x_prog th) (x_bbcnt th) pc) s1 = with_thr (<[t := th']> (x_thr s)) s1 ∧
    x_pc th' ≠ x_pc th) as Hgo.
  { intros pc s1 Hne E. eexists. rewrite set_xthr_with, E. by split. }
  destruct (x_pc th) eqn:Hpc.
  - destruct (x_prog th) as [r|a k|a v p] eqn:Hp.
    + rewrite decide_True by eauto. intros [= <-]. right.
      case_decide; [rewrite <- read_next_stores|]; by apply Hgo; [|rewrite ?next_thr_read].
    + rewrite decide_False by (by intros [? ?]). case_decide; intros [= <-]; [by left|right; by apply Hgo].
    + rewrite decide_False by (by intros [? ?]). case_decide; intros [= <-]; [by left|right; by apply Hgo].
  - intros H. apply bind_Ok in H as ([] & _ & [= <-]). right. by apply Hgo.
  - intros H. apply bind_Ok in H as ([m p] & Hac & [= <-]). right. unfold access_step in Hac.
    destruct (x_prog th) as [r|a k|a v q]; [done|..]; outcome_inv; (eexists; split; [reflexivity|done]).
  - intros [= <-]. right. case_decide; [rewrite <- read_next_stores|]; by apply Hgo; [|rewrite ?next_thr_read].
  - intros [= <-]. right. eexists. by rewrite set_xthr_with.
  - intros [= <-]. by left.
Qed.

Lemma next_stores_shape s : next_stores s = [] ∨ ∃ l t, next_stores s = [XLogPos l; XNextThr t].
Proof. unfold next_stores. destruct (x_commit_log s); eauto. Qed.

(** A step makes at most two stores, and its store to [g_next_thr] is the last. *)
Lemma xstores_shape th s : (length (xstores th s) ≤ 2)%nat ∧
  ∀ b1 v b2, xstores th s = b1 ++ XNextThr v :: b2 → b2 = [].
Proof.
  assert (∀ l, l = [] ∨ (∃ a v, l = [XData a v]) ∨ (∃ r t, l = [XLogPos r; XNextThr t]) →
    (length l ≤ 2)%nat ∧ ∀ b1 v b2, l = b1 ++ XNextThr v :: b2 → b2 = []) as Hl.
  { intros l [->|[(a & v & ->)|(r & t & ->)]]; (split; [cbn; lia|]); intros b1 w b2 E;
      destruct b1 as [|? [|? [|? b1]]]; simplify_eq/=; done. }
  apply Hl. unfold xstores. destruct (next_stores_shape s) as [E|(r & t & E)]; rewrite E;
    repeat case_match; eauto 10.
Qed.

(** ** The replay with delayed stores follows the one without *)

Section tso.
Context (C : list Z) (mem0 memf : gmap Z Z) (progs psf : gmap Z prog).
Context (HC : run_blocks C (mem0, progs) = Ok (memf, psf)).
Context (Hreal : blocks_real C (mem0, progs)).
Context (Hret : ∀ t p, psf !! t = Some p → ∃ r, p = PRet r).
Local Abbreviation xinv := (xinv C mem0 progs).

(** Only the thread whose turn it is stores anything; the others wait. *)
Lemma stores_active n s t th : xinv n s → x_thr s !! t = Some th → xstores th s ≠ [] →
  g_next_thr s = t ∧ ∀ u thu, u ≠ t → x_thr s !! u = Some thu → idle thu.
Proof.
  intros (j & k & m & ps & Hs & _) Hth Hne. destruct (decide (C !! j = Some t)) as [Hj|Hj].
  - pose proof (xi_active _ _ _ _ _ _ _ _ Hs) as Hac. rewrite Hj in Hac. destruct Hac as (th' & Hac).
    split; [apply Hac|]. intros u thu Hu Hthu. apply (xi_idle _ _ _ _ _ _ _ _ Hs u thu Hthu). congruence.
  - destruct Hne. destruct (xi_idle _ _ _ _ _ _ _ _ Hs t th Hth Hj) as [Hi _]. unfold xstores.
    destruct Hi as [[-> _]|[[Hpc|Hpc] Ha]]; [done| |by rewrite Hpc].
    unfold at_access in Ha. rewrite Hpc in *. destruct Ha as [_ Ha]. case_match; [|done..]. rewrite decide_False; [done|].
    rewrite Ha. tauto.
Qed.

(** A thread between two blocks that does not see its turn. *)
Lemma idle_step s t th : x_thr s !! t = Some th → idle th → g_next_thr s ≠ t →
  xstores th s = [] ∧
  (xstep t s = Ok s ∨
   ∃ th', idle th' ∧ ∀ s', x_thr s' !! t = Some th → xstep t s' = Ok (set_xthr t th' s') ∧ xstores th s' = []).
Proof.
  intros Hth Hi Hne. destruct Hi as [[Hpc _]|[[Hpc|Hpc] Ha]].
  - unfold xstores, xstep. rewrite Hth, Hpc. auto.
  - unfold at_access in Ha. rewrite Hpc in Ha. destruct Ha as [_ Ha].
    assert (∀ s', xstores th s' = []) as Hst.
    { intros s'. unfold xstores. rewrite Hpc. case_match; [|done..]. rewrite decide_False; [done|].
      rewrite Ha. tauto. }
    split; [done|]. destruct (decide (∃ r, x_prog th = PRet r)) as [Hr|Hr].
    + right. exists (XThread (x_prog th) (x_bbcnt th) XEnd). split; [by left|]. intros s' Hs'. split; [|done].
      unfold xstep. rewrite Hs', Hpc, decide_True by done. rewrite decide_False; [done|]. rewrite Ha. tauto.
    + left. unfold xstep. rewrite Hth, Hpc, decide_False by done. by rewrite decide_True.
  - assert (∀ s', xstores th s' = []) as Hst by (intros s'; unfold xstores; by rewrite Hpc).
    split; [done|]. right. exists (XThread (x_prog th) (wrap_s 32 (x_bbcnt th + 1)) XWait). split.
    + right. split; [by left|]. by apply at_access_count.
    + intros s' Hs'. split; [|done]. unfold xstep. by rewrite Hs', Hpc.
Qed.

(** [y] is [s] with the stores of [b], all by thread [o], still under way. *)
Record yrel (o : Z) (b : list xstore) (y : ystate) (s : xstate) : Prop := {
  yr_buf : ∀ t b', y_buf y !! t = Some b' → b' = if decide (t = o) then b else [];
  yr_dom : ∀ t, is_Some (y_buf y !! t) ↔ is_Some (x_thr s !! t);
  yr_flush : xflush b (y_s y) = s;
  yr_own : b ≠ [] → is_Some (y_buf y !! o) ∧ g_next_thr (y_s y) = o;
  yr_next : ∀ b1 v b2, b = b1 ++ XNextThr v :: b2 → v = o ∨ b2 = [];
  yr_idle : b ≠ [] → ∀ t th, t ≠ o → x_thr s !! t = Some th → idle th }.

Definition yinv (n : nat) (y : ystate) : Prop :=
  ∃ o b s n0, yrel o b y s ∧ xinv n0 s ∧ n = (3 * n0 + length b)%nat.

Lemma yrel_thr o b y s : yrel o b y s → x_thr (y_s y) = x_thr s.
Proof. intros Hy. rewrite <- (yr_flush _ _ _ _ Hy). by rewrite xflush_thr. Qed.

(** The thread that has stores under way, or any thread when none are, takes the
    step it takes in [s]. *)
Lemma own_step o b y s n t th :
  yrel o b y s → xinv n s → x_thr s !! t = Some th → t = o ∨ b = [] →
  ∃ y', ystep (YExec t) y = Ok y' ∧ (y' = y ∨ ∃ n', (n' < 3 * n + length b)%nat ∧ yinv n' y').
Proof.
  intros Hy Hs Hth Ht. pose proof (yrel_thr _ _ _ _ Hy) as Ethr.
  destruct (proj2 (yr_dom _ _ _ _ Hy t)) as [b' Hb]; [eauto|].
  assert (b' = b) as ->.
  { rewrite (yr_buf _ _ _ _ Hy t b' Hb). case_decide; [done|]. by destruct Ht. }
  destruct (xinv_step C mem0 memf progs psf HC Hreal Hret n s t Hs) as (s' & Hst & Hprog).
  unfold ystep. rewrite Ethr, Hth, Hb, (yr_flush _ _ _ _ Hy), Hst. cbn [mbind outcome_bind].
  eexists. split; [done|].
  destruct (xstep_stores t th s s' Hth Hst) as [[-> Hnil]|(th' & Hs' & Hpc)].
  { left. rewrite Hnil, app_nil_r, insert_id by done. rewrite <- Ethr. by destruct y as [[]]. }
  right. assert (x_thr s' = <[t := th']> (x_thr s)) as Ethr' by (by rewrite Hs').
  destruct Hprog as [->|(n0 & Hn0 & Hs0)].
  { exfalso. apply Hpc. apply (f_equal (lookup t)) in Ethr'. rewrite lookup_insert_eq, Hth in Ethr'. congruence. }
  destruct (xstores_shape th s) as [Hlen Hlast].
  exists (3 * n0 + length (b ++ xstores th s))%nat. split; [rewrite length_app; lia|].
  exists t, (b ++ xstores th s), s', n0. split; [|done].
  assert (xstores th s ≠ [] → g_next_thr s = t ∧ ∀ u thu, u ≠ t → x_thr s !! u = Some thu → idle thu) as Hact
    by (by apply (stores_active n)).
  constructor; cbn [y_buf y_s].
  - intros u b' [[<- <-]|[Hne Hu]]%lookup_insert_Some; [by rewrite decide_True|].
    rewrite decide_False by done. rewrite (yr_buf _ _ _ _ Hy u b' Hu). case_decide as Ho; [|done].
    destruct Ht as [->|?]; done.
  - intros u. rewrite Ethr'. rewrite !lookup_insert_is_Some', (yr_dom _ _ _ _ Hy). done.
  - change (XState _ _ _ _) with (with_thr (x_thr s') (y_s y)).
    rewrite xflush_with, xflush_app, (yr_flush _ _ _ _ Hy), Ethr'. by rewrite Hs'.
  - intros Hne. rewrite lookup_insert_eq. split; [eauto|]. cbn. destruct b as [|st b].
    + cbn in Hne. destruct (Hact Hne) as [<- _]. by rewrite <- (yr_flush _ _ _ _ Hy).
    + destruct Ht as [->|?]; [|done]. by apply (yr_own _ _ _ _ Hy).
  - intros b1 v b2 E. apply app_eq_app in E as (l & [[-> E]|[-> E]]).
    + destruct l as [|st l]; [right; by apply (Hlast [] v)|]. injection E as <- ->.
      destruct (yr_next _ _ _ _ Hy b1 v l eq_refl) as [->| ->].
      * left. destruct Ht as [->|E]; [done|]. by destruct b1.
      * destruct Ht as [->|E]; [|by destruct b1].
        destruct (decide (xstores th s = [])) as [->|Hne]; [by right|]. left.
        destruct (Hact Hne) as [<- _]. rewrite <- (yr_flush _ _ _ _ Hy), xflush_app. done.
    + right. by apply (Hlast l v).
  - intros Hne u thu Hu. rewrite Ethr', lookup_insert_ne by done. destruct b as [|st b].
    + cbn in Hne. by apply Hact.
    + destruct Ht as [->|?]; [|done]. by apply (yr_idle _ _ _ _ Hy).
Qed.

(** Another thread is between two blocks and does not see its turn yet. *)
Lemma other_step o b y s n t th :
  yrel o b y s → xinv n s → x_thr s !! t = Some th → t ≠ o → b ≠ [] →
  ∃ y', ystep (YExec t) y = Ok y' ∧ (y' = y ∨ ∃ n', (n' < 3 * n + length b)%nat ∧ yinv n' y').
Proof.
  intros Hy Hs Hth Hne Hb. pose proof (yrel_thr _ _ _ _ Hy) as Ethr.
  destruct (proj2 (yr_dom _ _ _ _ Hy t)) as [b' Hbt]; [eauto|].
  assert (b' = []) as ->.
  { rewrite (yr_buf _ _ _ _ Hy t b' Hbt). by rewrite decide_False. }
  destruct (yr_own _ _ _ _ Hy Hb) as [_ Hown].
  destruct (idle_step (y_s y) t th) as [Hst Hcase]; [by rewrite Ethr|by eapply yr_idle|congruence|].
  unfold ystep. rewrite Ethr, Hth, Hbt. change (xflush [] (y_s y)) with (y_s y). rewrite Hst.
  destruct Hcase as [->|(th' & Hid & Hall)]; cbn [mbind outcome_bind app].
  { eexists. split; [done|]. left. rewrite insert_id by done. by destruct y as [[]]. }
  destruct (Hall (y_s y)) as [-> _]; [by rewrite Ethr|]. cbn [mbind outcome_bind]. rewrite insert_id by done.
  eexists. split; [done|]. destruct (Hall s Hth) as [Hst' _].
  destruct (xinv_step C mem0 memf progs psf HC Hreal Hret n s t Hs) as (s' & Hs' & Hprog).
  rewrite Hst' in Hs'. injection Hs' as <-. destruct Hprog as [E|(n0 & Hn0 & Hs0)].
  { left. apply (f_equal x_thr) in E. cbn in E. cbn. rewrite Ethr, E, <- Ethr. by destruct y as [[]]. }
  right. exists (3 * n0 + length b)%nat. split; [lia|]. exists o, b, (set_xthr t th' s), n0. split; [|done].
  constructor; cbn [y_buf y_s].
  - apply Hy.
  - intros u. cbn. rewrite (yr_dom _ _ _ _ Hy), lookup_insert_is_Some'. split; [tauto|].
    intros [<-|?]; [eauto|done].
  - cbn. change (XState _ _ _ _) with (with_thr (<[t := th']> (x_thr (y_s y))) (y_s y)).
    by rewrite xflush_with, (yr_flush _ _ _ _ Hy), Ethr, set_xthr_with.
  - apply Hy.
  - apply Hy.
  - intros _ u thu Hu. cbn. intros [[<- <-]|[_ Hthu]]%lookup_insert_Some; [done|]. by eapply (yr_idle _ _ _ _ Hy).
Qed.

(** The oldest store reaches memory. *)
Lemma drain_step o st b y s n : yrel o (st :: b) y s → xinv n s →
  ∃ y', ystep (YDrain o) y = Ok y' ∧ y' ≠ y ∧ yinv (3 * n + length b) y'.
Proof.
  intros Hy Hs. destruct (yr_own _ _ _ _ Hy) as [[b' Hb] Hown]; [done|].
  pose proof (yr_buf _ _ _ _ Hy o b' Hb) as ->. rewrite decide_True in Hb by done.
  unfold ystep. rewrite Hb. eexists. split; [done|]. split.
  { intros E. apply (f_equal y_buf) in E. cbn in E. apply (f_equal (lookup o)) in E.
    rewrite lookup_insert_eq, Hb in E. injection E as E. by apply (f_equal length) in E; cbn in E; lia. }
  exists o, b, s, n. split; [|done]. constructor; cbn [y_buf y_s].
  - intros u b' [[<- <-]|[Hne Hu]]%lookup_insert_Some; [by rewrite decide_True|].
    rewrite (yr_buf _ _ _ _ Hy u b' Hu). by rewrite !decide_False.
  - intros u. rewrite lookup_insert_is_Some', (yr_dom _ _ _ _ Hy). split; [|tauto].
    intros [<-|?]; [|done]. apply (yr_dom _ _ _ _ Hy). eauto.
  - exact (yr_flush _ _ _ _ Hy).
  - intros Hne. rewrite lookup_insert_eq. split; [eauto|]. destruct st as [a v|l|t]; [done..|]. cbn.
    by destruct (yr_next _ _ _ _ Hy [] t b eq_refl).
  - intros b1 v b2 ->. by apply (yr_next _ _ _ _ Hy (st :: b1) v b2).
  - intros _. by apply (yr_idle _ _ _ _ Hy).
Qed.

Lemma yinv_step n y a : yinv n y →
  ∃ y', ystep a y = Ok y' ∧ (y' = y ∨ ∃ n', (n' < n)%nat ∧ yinv n' y').
Proof.
  intros (o & b & s & n0 & Hy & Hs & ->). pose proof (yrel_thr _ _ _ _ Hy) as Ethr. destruct a as [t|t].
  - destruct (x_thr s !! t) as [th|] eqn:Hth.
    2: { exists y. split; [|by left]. unfold ystep. by rewrite Ethr, Hth. }
    destruct (decide (t = o)) as [->|Hne]; [by eapply own_step; eauto|].
    destruct b as [|st b]; [by eapply own_step; eauto|by eapply other_step].
  - destruct (y_buf y !! t) as [[|st b']|] eqn:Hb;
      [exists y; split; [by unfold ystep; rewrite Hb|by left]| |exists y; split; [by unfold ystep; rewrite Hb|by left]].
    pose proof (yr_buf _ _ _ _ Hy t _ Hb) as E. case_decide as Ho; [|done]. subst t b.
    destruct (drain_step o st b' y s n0 Hy Hs) as (y' & ? & _ & ?). exists y'. split; [done|]. right.
    eexists. split; [|done]. cbn. lia.
Qed.

Lemma yinv_progress n y : yinv n y →
  y_finished y ∨ ∃ a, ylive progs a ∧ ystep a y ≠ Ok y.
Proof.
  intros (o & b & s & n0 & Hy & Hs & ->). pose proof (yrel_thr _ _ _ _ Hy) as Ethr.
  assert (∀ t, is_Some (x_thr s !! t) ↔ is_Some (progs !! t)) as Hdom.
  { destruct Hs as (j & k & m & ps & Hs & _). apply Hs. }
  destruct b as [|st b].
  - pose proof (yr_flush _ _ _ _ Hy) as E. cbn in E.
    destruct (xinv_progress C mem0 memf progs psf HC Hreal Hret n0 s Hs) as [Hf|(t & Ht & Hmv)].
    + left. split; [by rewrite E|]. intros t b Hb. rewrite (yr_buf _ _ _ _ Hy t b Hb). by case_decide.
    + right. exists (YExec t). split; [done|]. apply Hdom in Ht as [th Hth].
      destruct (proj2 (yr_dom _ _ _ _ Hy t)) as [b Hb]; [eauto|].
      assert (b = []) as -> by (rewrite (yr_buf _ _ _ _ Hy t b Hb); by case_decide).
      destruct (xinv_step C mem0 memf progs psf HC Hreal Hret n0 s t Hs) as (s' & Hst & _).
      unfold ystep. rewrite Ethr, Hth, Hb. change (xflush [] (y_s y)) with (y_s y). rewrite E, Hst.
      cbn [mbind outcome_bind]. intros [= Ey]. apply Hmv. rewrite Hst. f_equal.
      destruct (xstep_stores t th s s' Hth Hst) as [[? _]|(th' & Es & Hpc)]; [done|].
      apply (f_equal (x_thr ∘ y_s)) in Ey. cbn in Ey. rewrite Ethr, Es in Ey. cbn in Ey.
      apply (f_equal (lookup t)) in Ey. rewrite lookup_insert_eq, Hth in Ey. congruence.
  - right. exists (YDrain o). destruct (drain_step o st b y s n0 Hy Hs) as (y' & -> & Hne & _).
    split; [|congruence]. apply Hdom, (yr_dom _ _ _ _ Hy). by apply (yr_own _ _ _ _ Hy).
Qed.

#[export] Instance commit_replay_tso_live :
  live_machine ystep (ylive progs) y_finished yinv.
Proof.
  split; [intros n y a; apply yinv_step|apply yinv_progress|].
  intros y a [Hf Hall]. unfold ystep. destruct a as [t|t].
  - destruct (x_thr (y_s y) !! t) as [th|] eqn:Hth; [|done].
    destruct (y_buf y !! t) as [b|] eqn:Hb; [|done]. pose proof (Hall t b Hb) as E. cbn in E. subst b.
    change (xflush [] (y_s y)) with (y_s y). unfold xstep, xstores.
    rewrite Hth, (Hf t th Hth). cbn. rewrite insert_id by done. by destruct y as [[]].
  - destruct (y_buf y !! t) as [b|] eqn:Hb; [|done]. by rewrite (Hall t b Hb).
Qed.

Lemma ystart_inv n s : xinv n s → yinv (3 * n) (ystart s).
Proof.
  intros Hs. exists 0, [], s, n. split; [|split; [done|cbn; lia]].
  constructor; cbn [y_buf y_s ystart]; try done.
  - intros t b Hb. rewrite lookup_fmap in Hb. apply fmap_Some in Hb as (? & _ & ->). by case_decide.
  - intros t. by rewrite lookup_fmap, fmap_is_Some.
  - intros [|? b1] v b2 E; done.
Qed.

(** A finished replay leaves memory and programs as the blocks do. *)
Lemma yinv_finished n y : yinv n y → y_finished y →
  x_mem (y_s y) = memf ∧ x_prog <$> x_thr (y_s y) = psf.
Proof.
  intros (o & b & s & n0 & Hy & Hs & _) [Hf Hall].
  assert (b = []) as ->.
  { destruct b as [|st b]; [done|]. destruct (yr_own _ _ _ _ Hy) as [[b' Hb] _]; [done|].
    pose proof (yr_buf _ _ _ _ Hy o b' Hb) as E. rewrite decide_True in E by done.
    rewrite <- E. by apply (Hall o). }
  pose proof (yr_flush _ _ _ _ Hy) as E. cbn in E. rewrite E in *.
  by eapply (xinv_finished C).
Qed.
End tso.
