(* ===== verification/CommitFiles.v ===== *)
(** * CommitFiles: the commit order on files of bytes

    The commit logs are files of 8-byte times, one per thread; [merge-commit]
    writes the order as a file of one byte per block, which the replayer maps.
    The pipeline on these files starts the replay from the state the pipeline on
    lists of times and threads starts it from. *)
From Stdlib Require Import Ascii.
From stdpp Require Import strings pretty.
From S2P Require Import Prelude Mem MappedLog Paths PQueue KWay Sched Files Commit CommitReplay.
From S2P Require Import CommitReplayProof CommitCorrectness.

#[local] Open Scope string_scope.
#[local] Open Scope Z_scope.

(** ** The entries *)

(** A [uint64_t]. *)
Definition uint64_entry : log_entry Z := {|
  entry_size := 8;
  fields ts := [(0%nat, le_bytes 8 ts)];
  decode bs := le_value (take 8 bs);
  valid ts := 0 ≤ ts < 2 ^ 64 |}.

(** A [tid_t]. *)
Definition tid_entry : log_entry Z := {|
  entry_size := 1;
  fields t := [(0%nat, le_bytes 1 t)];
  decode bs := field_at 1 0 bs;
  valid t := int8 t |}.

(** ** The program *)

Section program.
Context (addr : string → nat → Z) (Q : prio_queue ts_gt).

(** The commit logs of threads [i], [i + 1], ...: [mem_init_thr], [log_commit] for
    every block and [mem_finish_thr]. *)
Fixpoint record_commits (i : Z) (logs : list (list Z)) (fs : file_system) : outcome file_system :=
  match logs with
  | [] => Ok fs
  | l :: logs =>
      fs ← write_file addr (H := uint64_entry) "commit" i l fs;
      record_commits (i + 1) logs fs
  end.

(** [merge-commit nthr]. *)
Definition merge_commit_file (nthr : Z) (fs : file_system) : outcome file_system :=
  files ← mapM (λ i, map_file addr "commit" i fs) (seqZ 0 nthr);
  C ← merge_commit Q (wrap_s 8 nthr) ((λ f, option_map (decode_file (H := uint64_entry)) f) <$> files);
  f ← write_log (H := tid_entry) (addr (LOGDIR +:+ "commit")) C;
  Ok (<[LOGDIR +:+ "commit" := f]> fs).

(** [mem_init] and every [mem_init_thr] of the replayer. *)
Definition xinit_file (mem0 : gmap Z Z) (ps : list prog) (fs : file_system) : outcome xstate :=
  f ← map_path addr (LOGDIR +:+ "commit") fs;
  xinit (option_map (decode_file (H := tid_entry)) f) mem0 (map_seqZ 0 ps).

(** Everything between the recording and the replay. *)
Definition prepare_commit (mem0 : gmap Z Z) (ps : list prog) (logs : list (list Z))
    (fs : file_system) : outcome xstate :=
  fs ← record_commits 0 logs (rm_logs fs);
  fs ← merge_commit_file (Z.of_nat (length ps)) fs;
  xinit_file mem0 ps fs.
End program.

(** ** Lemmas *)

Lemma uint64_entry_ok : log_entry_ok Z (H := uint64_entry).
Proof.
  split; [cbn; unfold PAGE_SIZE; lia|solve_fields|].
  intros ts Hts. cbn in Hts. change (le_value (le_bytes 8 ts) = ts). rewrite le_value_bytes.
  by apply Z.mod_small.
Qed.

Lemma tid_entry_ok : log_entry_ok Z (H := tid_entry).
Proof.
  split; [cbn; unfold PAGE_SIZE; lia|solve_fields|].
  intros t Ht. cbn in Ht. change (field_at 1 0 (le_bytes 1 t) = t).
  apply field_at_signed; [lia|done|reflexivity].
Qed.

Definition ts_bytes (l : list Z) : list Z := l ≫= encode (H := uint64_entry).

Section steps.
Context (addr : string → nat → Z) (Haddr : ∀ path i, addr path i mod PAGE_SIZE = 0).

Lemma record_commits_ok i logs fs : 0 ≤ i → i + Z.of_nat (length logs) ≤ 128 →
  ∃ fs', record_commits addr i logs fs = Ok fs' ∧
    (∀ j l, logs !! j = Some l → fs' !! log_name "commit" (i + Z.of_nat j) = Some (ts_bytes l)) ∧
    (∀ path, (∀ j, i ≤ j → path ≠ log_name "commit" j) → fs' !! path = fs !! path).
Proof.
  revert i fs. induction logs as [|l logs IH]; intros i fs Hi Hl; cbn [record_commits].
  { exists fs. split_and!; [done..|]. intros path _. done. }
  cbn [length] in Hl. rewrite (write_file_ok addr Haddr (H0 := uint64_entry_ok)) by path_side.
  cbn [mbind outcome_bind]. fold (ts_bytes l).
  destruct (IH (i + 1) (<[log_name "commit" i := ts_bytes l]> fs)) as (fs' & -> & Hin & Hout); [lia..|].
  exists fs'. split_and!; [done| |].
  - intros [|j] l' Hl'; cbn in Hl'.
    + injection Hl' as <-. rewrite Z.add_0_r, Hout, lookup_insert_eq; [done|].
      intros j Hj. apply log_name_ne; [lia..|right; lia].
    + replace (i + Z.of_nat (S j)) with (i + 1 + Z.of_nat j) by lia. by apply Hin.
  - intros path Hp. rewrite Hout by (intros j Hj; apply Hp; lia).
    by rewrite lookup_insert_ne by (apply not_eq_sym, Hp; lia).
Qed.

(** The files of the threads, mapped and read. *)
Lemma commits_mapped logs fs :
  Z.of_nat (length logs) ≤ 128 →
  (∀ j l, logs !! j = Some l → fs !! log_name "commit" (Z.of_nat j) = Some (ts_bytes l)) →
  [] ∉ logs → Forall (Forall (@valid Z uint64_entry)) logs →
  ∃ files, mapM (λ i, map_file addr "commit" i fs) (seqZ 0 (Z.of_nat (length logs))) = Ok files ∧
    (λ f, option_map (decode_file (H := uint64_entry)) f) <$> files = Some <$> logs.
Proof.
  intros Hn Hfs Hne Hv. exists ((λ l, Some (ts_bytes l)) <$> logs). split.
  - apply mapM_Ok, Forall2_same_length_lookup_2; [by rewrite length_fmap, length_seqZ, Nat2Z.id|].
    intros j i o [-> Hj]%lookup_seqZ (l & -> & Hl)%list_lookup_fmap_Some.
    rewrite map_file_path by path_side. apply map_path_some; [by apply Hfs|].
    apply (bytes_not_nil (H0 := uint64_entry_ok)). intros ->. by apply Hne, (list_elem_of_lookup_2 _ j).
  - rewrite <- list_fmap_compose. apply list_fmap_ext. intros j l Hl. cbn [option_map compose].
    f_equal. apply (decode_file_bytes (H0 := uint64_entry_ok)). by eapply Forall_lookup_1.
Qed.
End steps.

(** ** The logs of a recording *)

(** The commit logs of [n] threads. *)
Definition thread_times (n : nat) (s : cstate) : list (list Z) :=
  (λ t, from_option g_commit_log [] (c_thr s !! t)) <$> seqZ 0 (Z.of_nat n).

Section properties.
Context (mem0 : gmap Z Z) (addr : string → nat → Z) (Haddr : ∀ path i, addr path i mod PAGE_SIZE = 0).
Context (Q : prio_queue ts_gt) `{!prio_queue_ok Q}.

Lemma times_valid t C : Forall (valid (log_entry := uint64_entry)) (times t C).
Proof.
  apply list.Forall_forall. intros x (i & -> & _)%list_elem_of_fmap. by apply wrap_u_range.
Qed.

(** The logs of a recording, as the merge tool reads them. *)
Lemma thread_times_order ps acts s C : commit_recording mem0 ps acts s → commit_order mem0 ps s C →
  commit_logs (length ps) s = (Some <$> thread_times (length ps) s) ∧
  ([] ∉ thread_times (length ps) s) ∧
  Forall (Forall (valid (log_entry := uint64_entry))) (thread_times (length ps) s) ∧
  merge_commit Q (wrap_s 8 (Z.of_nat (length ps))) (Some <$> thread_times (length ps) s) = Ok C.
Proof.
  intros HR HO. pose proof (order_merges mem0 Q ps acts s C HR HO) as Hm.
  assert (thread_times (length ps) s = (λ t, times t C) <$> seqZ 0 (Z.of_nat (length ps))) as Htt.
  { pose proof (co_logs _ _ _ _ HO) as Hl. unfold commit_logs, commit_files in Hl.
    unfold thread_times. apply list_eq. intros j. apply (f_equal (lookup j)) in Hl.
    rewrite !list_lookup_fmap in *. destruct (seqZ _ _ !! j) as [t|]; [|done]. cbn in *.
    injection Hl as Hl. destruct (c_thr s !! t); cbn in *; congruence. }
  assert (commit_logs (length ps) s = Some <$> thread_times (length ps) s) as Hl.
  { rewrite (co_logs _ _ _ _ HO), Htt. unfold commit_files. by rewrite <- list_fmap_compose. }
  rewrite Hl in Hm. unfold merge_commit_main in Hm. case_decide as Hn; [done|].
  rewrite length_fmap in Hm. unfold thread_times in Hm at 1. rewrite length_fmap, length_seqZ, Nat2Z.id in Hm.
  split_and!; [done| | |done].
  - intros Hin. apply Hn, list_elem_of_fmap. eauto.
  - rewrite Htt. apply Forall_fmap, list.Forall_forall. intros t _. apply times_valid.
Qed.

(** The bytes the threads leave go through [merge-commit] and are what the
    replayer starts from. *)
Lemma prepare_commit_ok ps acts s C mem0' ps' x0 fs :
  commit_recording mem0 ps acts s → commit_order mem0 ps s C → length ps' = length ps →
  xinit (Some C) mem0' (map_seqZ 0 ps') = Ok x0 →
  prepare_commit addr Q mem0' ps' (thread_times (length ps) s) fs = Ok x0.
Proof using All.
  intros HR HO Hl' Hx0. unfold prepare_commit.
  destruct (thread_times_order ps acts s C HR HO) as (_ & Hne & Hv & Hm). destruct HR.
  assert (length (thread_times (length ps) s) = length ps) as Hlen.
  { unfold thread_times. by rewrite length_fmap, length_seqZ, Nat2Z.id. }
  destruct (record_commits_ok addr Haddr 0 (thread_times (length ps) s) (rm_logs fs))
    as (fs1 & -> & Hin & _); [lia..|].
  destruct (commits_mapped addr (thread_times (length ps) s) fs1) as (files & Hfiles & Hdec); [lia|done..|].
  rewrite Hlen in Hfiles. cbn [mbind outcome_bind]. unfold merge_commit_file. rewrite Hl', Hfiles.
  cbn [mbind outcome_bind]. rewrite Hdec, Hm. cbn [mbind outcome_bind].
  rewrite (write_log_ok (HA := tid_entry_ok)) by auto. cbn [mbind outcome_bind]. unfold xinit_file.
  assert (C ≠ []) as HC.
  { intros ->. destruct ps as [|p ps]; [done|]. apply (not_elem_of_nil 0), (co_all _ _ _ _ HO). cbn. lia. }
  rewrite (map_path_some addr _ _ (C ≫= encode (H := tid_entry)));
    [|apply lookup_insert_eq|by apply (bytes_not_nil (H0 := tid_entry_ok))].
  cbn [mbind outcome_bind option_map]. rewrite (decode_file_bytes (H0 := tid_entry_ok)); [done|].
  eapply Forall_impl; [|exact (co_tids _ _ _ _ HO)]. intros t Ht. cbn in *. unfold int8. lia.
Qed.
End properties.
