(* ===== verification/CommitTsoReplay.v ===== *)
(** * CommitTsoReplay: the commit-order scheme on x86-TSO and on files, end to end

    The recorder of [CommitTso] and the replayer of [CommitReplayTso], both with
    store buffers, and between them the files of [CommitFiles]; the program that is
    replayed has its memory at other addresses. *)
From stdpp Require Import strings.
From S2P Require Import Prelude Mem MappedLog Paths Batch History Reloc PQueue KWay Sched Files TicketLock.
From S2P Require Import Commit CommitTso.
From S2P Require Import CommitReplay CommitReplayProof CommitCorrectness CommitReplayTso CommitFiles.

(** ** Lemmas: blocks at other addresses *)

Section moved.
Context (f : Z → Z) (P : Z → Prop) (Hinj : ∀ a b, P a → P b → f a = f b → a = b).

Lemma access_step_moved m m' p p' m1 p1 : moved_mem f P m m' → moved f P p p' →
  access_step m p = Ok (m1, p1) →
  ∃ m1' p1', access_step m' p' = Ok (m1', p1') ∧ moved_mem f P m1 m1' ∧ moved f P p1 p1'.
Proof using Hinj.
  intros Hm Hp. destruct Hp as [r|a k k' Ha Hk|a v p p' Ha Hk]; [done|..]; cbn; unfold arr_get, arr_set;
    rewrite (Hm a Ha); (destruct (m !! a) as [x|]; [|done]); cbn; intros [= <- <-].
  - eauto.
  - eexists _, _. split_and!; [done| |done]. by apply moved_mem_insert.
Qed.

Lemma exec_block_moved n m m' p p' m1 p1 : moved_mem f P m m' → moved f P p p' →
  exec_block n m p = Ok (m1, p1) →
  ∃ m1' p1', exec_block n m' p' = Ok (m1', p1') ∧ moved_mem f P m1 m1' ∧ moved f P p1 p1'.
Proof using Hinj.
  revert m m' p p'. induction n as [|n IH]; intros m m' p p' Hm Hp Hex.
  { cbn in Hex. injection Hex as <- <-. by exists m', p'. }
  assert (∀ q q', exec_block (S n) m p = ('(m, p) ← access_step m q; exec_block n m p) → p = q →
    p' = q' → exec_block (S n) m' p' = ('(m, p) ← access_step m' q'; exec_block n m p) →
    ∃ m1' p1', exec_block (S n) m' p' = Ok (m1', p1') ∧ moved_mem f P m1 m1' ∧ moved f P p1 p1') as Hstep.
  { intros q q' E <- <- E'. rewrite Hex in E.
    destruct (access_step m p) as [[m2 p2]|] eqn:Hac; [|done]. cbn in E.
    destruct (access_step_moved m m' p p' m2 p2 Hm Hp Hac) as (m2' & p2' & Hac' & Hm2 & Hp2).
    rewrite E', Hac'. cbn. by apply (IH m2 m2' p2 p2'). }
  destruct Hp as [r|a k k' Ha Hk|a v p p' Ha Hk]; [|by eapply Hstep..].
  cbn in Hex. injection Hex as <- <-. eexists m', _. split_and!; [done..|constructor].
Qed.

Lemma run_blocks_moved C m m' ps ps' m1 ps1 : moved_mem f P m m' → moved_progs f P ps ps' →
  run_blocks C (m, ps) = Ok (m1, ps1) →
  ∃ m1' ps1', run_blocks C (m', ps') = Ok (m1', ps1') ∧ moved_mem f P m1 m1' ∧ moved_progs f P ps1 ps1'.
Proof using Hinj.
  intros Hm Hps. revert m1 ps1. induction C as [|t C IH] using rev_ind; intros m1 ps1 Hrun.
  { injection Hrun as <- <-. by exists m', ps'. }
  rewrite run_blocks_snoc in *. destruct (run_blocks C (m, ps)) as [[m2 ps2]|]; [|done].
  destruct (IH m2 ps2 eq_refl) as (m2' & ps2' & -> & Hm2 & Hps2). cbn in *. unfold block_step, arr_get in *.
  cbn in *. destruct (moved_progs_lookup _ _ _ _ t Hps2) as [(p & p' & E & -> & Hp)|[E _]];
    rewrite E in Hrun; [|done]. cbn in *.
  destruct (exec_block BLOCK m2 p) as [[m3 p3]|] eqn:Hex; [|done]. cbn in Hrun. injection Hrun as <- <-.
  destruct (exec_block_moved BLOCK m2 m2' p p' m3 p3 Hm2 Hp Hex) as (m3' & p3' & -> & ? & ?). cbn.
  eexists _, _. split_and!; [done..|]. by apply moved_progs_insert.
Qed.

Lemma blocks_real_moved C m m' ps ps' : moved_mem f P m m' → moved_progs f P ps ps' →
  blocks_real C (m, ps) → blocks_real C (m', ps').
Proof using Hinj.
  intros Hm Hps Hreal C1 t C2 E. destruct (Hreal C1 t C2 E) as (m1 & ps1 & p & Hrun & Hp & Hne).
  destruct (run_blocks_moved C1 m m' ps ps' m1 ps1 Hm Hps Hrun) as (m1' & ps1' & Hrun' & _ & Hps1).
  destruct (moved_progs_lookup _ _ _ _ t Hps1) as [(q & q' & Hq & Hq' & Hmv)|[E1 _]]; [|congruence].
  rewrite Hp in Hq. injection Hq as <-. exists m1', ps1', q'. split_and!; [done..|].
  intros Hr. apply Hne. pose proof (moved_ret' _ _ _ _ Hmv Hr) as E2. by rewrite E2 in Hr.
Qed.
End moved.

(** Between taking the lock and releasing it. *)
Definition k_critical (pc : kpc) : bool :=
  match pc with KIn | KEnd | KTimeSt _ | KUnlock _ | KUnlockSt _ _ => true | _ => false end.

(** The commit logs [n] threads leave. *)
Definition k_logs (n : nat) (k : kstate) : list (list Z) :=
  (λ t, from_option k_log [] (k_thr k !! t)) <$> seqZ 0 (Z.of_nat n).

Section properties.
Context (mem0 : gmap Z Z).

(** A finished run of the recorder for the threads [ps], each of which makes an
    access, and fewer than 2^31, so that neither [g_time] nor the replayer's [int]
    [g_sim_bbcnt] wraps around. *)
Record tso_commit_recording (ps : list prog) (acts : list kact) (k : kstate) : Prop := {
  tc_some : ps ≠ [];
  tc_within : ∀ p, p ∈ ps → prog_within (λ a, is_Some (mem0 !! a)) p;
  tc_run : krun acts (kinit mem0 (map_seqZ 0 ps)) = Ok k;
  tc_finished : k_finished k;
  tc_access : ∀ p, p ∈ ps → ¬ ∃ r, p = PRet r;
  tc_thr : Z.of_nat (length ps) ≤ 127;
  tc_count : counts_fit ps }.

Lemma threads_size (ps : list prog) : Z.of_nat (length ps) ≤ 127 →
  Z.of_nat (size (map_seqZ 0 ps : gmap Z prog)) < 2 ^ 16.
Proof.
  intros Hn. enough (size (map_seqZ 0 ps : gmap Z prog) ≤ length ps)%nat by lia.
  rewrite <- size_dom.
  replace (length ps) with (length (seqZ 0 (Z.of_nat (length ps)))) by (rewrite length_seqZ; lia).
  rewrite <- (size_list_to_set (C := gset Z) (seqZ 0 (Z.of_nat (length ps)))) by apply NoDup_seqZ.
  apply subseteq_size. intros t Ht%elem_of_dom%thread_lookup.
  apply elem_of_list_to_set, elem_of_seqZ. lia.
Qed.

(** It is a recording of [Commit]. *)
Lemma tso_commit_abs ps acts k : tso_commit_recording ps acts k →
  ∃ cacts s, commit_recording mem0 ps cacts s ∧ k_mem (k_m k) = c_mem s ∧
    ct_prog <$> c_thr s = k_prog <$> k_thr k ∧ thread_times (length ps) s = k_logs (length ps) k.
Proof.
  intros []. destruct (krun_ok mem0 (map_seqZ 0 ps) (programs_within mem0 ps tc_within0)
    (threads_size ps tc_thr0) acts) as (k' & cacts & s & T & q & Hrun & Hc & Hlen & Hk & _).
  rewrite tc_run0 in Hrun. injection Hrun as <-.
  destruct (k_finished_abs T q k s Hk tc_finished0) as (Hf & Hm & Hthr).
  exists cacts, s. split_and!; [by constructor; try done; apply counts_accesses_fit|done|..].
  - rewrite Hthr, <- map_fmap_compose. done.
  - unfold thread_times, k_logs. apply list_fmap_ext. intros _ t _. rewrite Hthr, lookup_fmap.
    by destruct (k_thr k !! t).
Qed.

Context (addr : string → nat → Z) (Haddr : ∀ path i, addr path i mod PAGE_SIZE = 0).
Context (Q : prio_queue ts_gt) `{!prio_queue_ok Q}.

(** What a finished run of the recorder and the tools give the replayer. *)
Lemma tso_commit_replays ps ps' f P mem0' acts k :
  tso_commit_recording ps acts k →
  (∀ a b, P a → P b → f a = f b → a = b) → moved_mem f P mem0 mem0' → Forall2 (moved f P) ps ps' →
  ∃ x0 bound, (∀ fs, prepare_commit addr Q mem0' ps' (k_logs (length ps) k) fs = Ok x0) ∧
    (∀ rounds, Forall (fair (ylive (map_seqZ 0 ps'))) rounds → (bound ≤ length rounds)%nat →
      ∃ y, run_sched ystep (concat rounds) (ystart x0) = Ok y ∧ y_finished y) ∧
    ∀ sched, ∃ y, run_sched ystep sched (ystart x0) = Ok y ∧
      (y_finished y → moved_mem f P (k_mem (k_m k)) (x_mem (y_s y)) ∧
        x_prog <$> x_thr (y_s y) = k_prog <$> k_thr k).
Proof using All.
  intros HK Hinj Hm0 Hps. destruct (tso_commit_abs ps acts k HK) as (cacts & s & HR & -> & <- & <-).
  destruct (recording_order mem0 ps cacts s HR) as (C & HO). pose proof (Forall2_length Hps) as Hlen.
  pose proof (moved_progs_seq _ _ _ _ Hps) as Hpm.
  destruct (run_blocks_moved f _ Hinj C _ _ _ _ _ _ Hm0 Hpm (co_run _ _ _ _ HO))
    as (mf & psf & Hrun & Hmf & Hpsf).
  pose proof (blocks_real_moved f _ Hinj C _ _ _ _ Hm0 Hpm (co_real _ _ _ _ HO)) as Hreal.
  assert (psf = ct_prog <$> c_thr s) as ->.
  { apply map_eq. intros t.
    destruct (moved_progs_lookup _ _ _ _ t Hpsf) as [(p & p' & E & -> & Hp)|[-> ->]]; [|done].
    rewrite E. f_equal. eapply moved_ret; [done|]. by apply (co_ret _ _ _ _ HO t). }
  destruct (replay_start mem0 ps cacts s C (cr_some _ _ _ _ HR) HR HO) as [x1 Hx1].
  assert (∃ x0, xinit (Some C) mem0' (map_seqZ 0 ps') = Ok x0) as [x0 Hx0].
  { clear - Hx1. unfold xinit in *. destruct C; [done|eauto]. }
  assert (∀ t p, (map_seqZ 0 ps' : gmap Z prog) !! t = Some p → ∃ b, at_most p b ∧ Z.of_nat b < 2 ^ 31) as Hfit.
  { intros t p' Hp'. destruct (tc_count _ _ _ HK) as (b & Hb & Hlt). exists b. split; [|done].
    destruct (moved_progs_lookup _ _ _ _ t Hpm) as [(p & q & Hp & Hq & Hmv)|[_ E]]; [|congruence].
    rewrite Hp' in Hq. injection Hq as <-. eapply moved_at_most; [done|].
    apply lookup_map_seqZ_Some in Hp as [_ Hp]. by apply (Forall_lookup_1 _ _ _ _ Hb Hp). }
  destruct (xinit_inv C mem0' _ Hreal Hfit _ Hx0) as [n Hn].
  pose proof (commit_replay_tso_live _ _ _ _ _ Hrun Hreal (co_ret _ _ _ _ HO)) as HM.
  pose proof (ystart_inv C mem0' (map_seqZ 0 ps') n x0 Hn) as Hy.
  exists x0, (3 * n)%nat. split_and!.
  - intros fs. by apply (prepare_commit_ok mem0 addr Haddr Q ps cacts s C).
  - intros rounds Hf Hl.
    destruct (fair_rounds_finish ystep (HM := HM) rounds _ _ Hy Hf Hl) as (y & _ & ? & _ & ?). eauto.
  - intros sched. destruct (run_sched_ok ystep (HM := HM) sched _ _ Hy) as (y & n' & Hr & _ & Hy').
    exists y. split; [done|]. intros Hd.
    destruct (yinv_finished C mem0' mf _ _ Hrun (co_ret _ _ _ _ HO) n' y Hy' Hd) as [-> ->]. done.
Qed.

(** C9: rtmcommit end to end on x86-TSO and on files.  Whatever the order in which
    the recorder's transactions commit or abort, its fallback blocks run under the
    ticket lock and stores reach memory, the bytes its threads leave go through
    [merge-commit] and start a replay by another executable of the same program;
    every fair run of the replay, with store buffers of its own, finishes within a
    bound (no thread makes 2^31 accesses, which its [int] block counter could not
    count), none fails, and one that has finished leaves memory and what every
    thread returned as the recording did.  [f] says where in the replay the
    addresses [P] of the recording are. *)
Theorem commit_tso_record_replay ps ps' f (P : Z → Prop) mem0' acts k fs :
  tso_commit_recording ps acts k →
  (∀ a b, P a → P b → f a = f b → a = b) → moved_mem f P mem0 mem0' → Forall2 (moved f P) ps ps' →
  ∃ x0 bound, prepare_commit addr Q mem0' ps' (k_logs (length ps) k) fs = Ok x0 ∧
    (∀ rounds, Forall (fair (ylive (map_seqZ 0 ps'))) rounds → (bound ≤ length rounds)%nat →
      ∃ y, run_sched ystep (concat rounds) (ystart x0) = Ok y ∧ y_finished y) ∧
    ∀ sched, ∃ y, run_sched ystep sched (ystart x0) = Ok y ∧
      (y_finished y → moved_mem f P (k_mem (k_m k)) (x_mem (y_s y)) ∧
        x_prog <$> x_thr (y_s y) = k_prog <$> k_thr k).
Proof using All.
  intros HK Hinj Hm0 Hps.
  destruct (tso_commit_replays ps ps' f P mem0' acts k HK Hinj Hm0 Hps) as (x0 & bound & Hp & ? & ?).
  by exists x0, bound.
Qed.

(** C13: the fallback lock works on x86-TSO, with stores delayed and tickets
    wrapping around: no run of the recorder fails, at no moment do two threads run
    a block under the lock, and whenever [spin_lockable] says that the lock is
    free, so that a transaction may commit, no thread has stores under way and
    memory is what whole blocks left. *)
Theorem commit_lock_exclusive (ps : list prog) (acts : list kact) :
  (∀ p, p ∈ ps → prog_within (λ a, is_Some (mem0 !! a)) p) → Z.of_nat (length ps) ≤ 127 →
  ∃ k, krun acts (kinit mem0 (map_seqZ 0 ps)) = Ok k ∧
    (∀ t1 t2 th1 th2, k_thr k !! t1 = Some th1 → k_thr k !! t2 = Some th2 →
      k_critical (k_pc th1) = true → k_critical (k_pc th2) = true →
      t1 = t2 ∧ ticket_lockable (k_lock (k_m k)) = false) ∧
    (ticket_lockable (k_lock (k_m k)) = true →
      map_Forall (λ _ b, b = []) (k_buf k) ∧
      ∃ C qs, run_blocks C (mem0, map_seqZ 0 ps) = Ok (k_mem (k_m k), qs)).
Proof.
  intros Hw Hn. pose proof (programs_within mem0 ps Hw) as Hp. pose proof (threads_size ps Hn) as Hsize.
  destruct (krun_ok mem0 (map_seqZ 0 ps) Hp Hsize acts) as (k & cacts & s & T & q & Hrun & Hc & _ & Hk & Hq).
  assert (∀ t th, k_thr k !! t = Some th → k_critical (k_pc th) = true → head q = Some t) as Hhead.
  { intros t th Hth Hcr. destruct (decide (t ∈ q)) as [[i Hi]%list_elem_of_lookup_1|Hnq].
    - destruct i as [|i]; [by destruct q|].
      destruct (kr_wait _ _ _ _ Hk i t Hi) as (th' & Hth' & Hpc). rewrite Hth in Hth'.
      injection Hth' as <-. by rewrite Hpc in Hcr.
    - pose proof (kr_out _ _ _ _ Hk t th Hth Hnq). by destruct (k_pc th). }
  exists k. split_and!; [done| |].
  - intros t1 t2 th1 th2 H1 H2 C1 C2. pose proof (Hhead t1 th1 H1 C1) as E1.
    pose proof (Hhead t2 th2 H2 C2) as E2. split; [congruence|].
    destruct (ticket_lockable (k_lock (k_m k))) eqn:Hl; [|done].
    by rewrite (lockable_free _ Hsize _ _ _ _ Hk Hq Hl) in E1.
  - intros Hl. pose proof (lockable_free _ Hsize _ _ _ _ Hk Hq Hl) as ->. split.
    { intros t b Hb. by destruct (kr_buf _ _ _ _ Hk t b Hb). }
    destruct (kr_head _ _ _ _ Hk) as (-> & _ & Hfree).
    destruct (crun_ok mem0 (map_seqZ 0 ps) Hp cacts) as (s0 & C & m & qs & Hc0 & HC & _).
    rewrite Hc in Hc0. injection Hc0 as <-. exists C, qs.
    destruct (ci_free _ _ _ _ _ _ HC Hfree) as [-> _]. apply HC.
Qed.
End properties.

(** ** A concrete recording

    Two threads of ten accesses each: thread 0 commits its first block as a
    transaction, finds at the end of the second one the lock taken by thread 1,
    whose stores lag behind, and runs that block under the lock, too. *)

Definition kdemo_acts : list kact :=
  [KTx 0; KFall 1] ++ replicate 9 (KExec 1) ++ [KTx 0; KDrain 1; KDrain 1; KExec 0] ++
  replicate 5 (KExec 1) ++ [KExec 0] ++ replicate 4 (KDrain 1) ++ replicate 10 (KExec 0) ++
  replicate 5 (KDrain 0) ++ [KFall 1] ++ replicate 12 (KExec 1) ++ replicate 5 (KDrain 1).

Definition kdemo_end : kstate :=
  value (kinit ∅ ∅) (krun kdemo_acts (kinit cdemo_mem (map_seqZ 0 cdemo_threads))).

Lemma kdemo_recording : tso_commit_recording cdemo_mem cdemo_threads kdemo_acts kdemo_end.
Proof.
  constructor.
  - done.
  - apply cdemo_within.
  - apply value_ok. vm_compute. reflexivity.
  - apply (bool_decide_unpack _). vm_compute. exact I.
  - intros p [->|[->|[]%not_elem_of_nil]%elem_of_cons]%elem_of_cons [r Hr]; discriminate Hr.
  - cbn. lia.
  - exists 10%nat. split; [repeat constructor; cbn; auto|cbn; lia].
Qed.

(** The replayed program has its memory 1000 bytes further. *)
Definition kdemo_move (a : Z) : Z := a + 1000.
Definition kdemo_mem : gmap Z Z := {[1000 := 3; 1001 := 10]}.
Definition kdemo_threads : list prog := [bump_prog 5 1000 1001; bump_prog 5 1001 1000].

Lemma bump_moved n a b : is_Some (cdemo_mem !! a) → is_Some (cdemo_mem !! b) →
  moved kdemo_move (λ x, is_Some (cdemo_mem !! x)) (bump_prog n a b) (bump_prog n (kdemo_move a) (kdemo_move b)).
Proof. revert a b. induction n as [|n IH]; intros a b Ha Hb; cbn; constructor; [done|]. intros v. constructor; auto. Qed.

Lemma commit_tso_record_replay_witness :
  k_logs 2 kdemo_end = [[0; 2]; [1; 3]] ∧
  ∃ x0 bound, prepare_commit (λ _, demo_addr) (sorted_queue ts_gt) kdemo_mem kdemo_threads
      [[0; 2]; [1; 3]] ∅ = Ok x0 ∧
    (∀ rounds, Forall (fair (ylive (map_seqZ 0 kdemo_threads))) rounds → (bound ≤ length rounds)%nat →
      ∃ y, run_sched ystep (concat rounds) (ystart x0) = Ok y ∧ y_finished y) ∧
    ∀ sched, ∃ y, run_sched ystep sched (ystart x0) = Ok y ∧
      (y_finished y → moved_mem kdemo_move (λ a, is_Some (cdemo_mem !! a)) (k_mem (k_m kdemo_end)) (x_mem (y_s y)) ∧
        x_prog <$> x_thr (y_s y) = k_prog <$> k_thr kdemo_end).
Proof.
  split; [vm_compute; reflexivity|].
  apply (commit_tso_record_replay cdemo_mem (λ _, demo_addr) (λ _, demo_addr_aligned)
    (sorted_queue ts_gt) cdemo_threads kdemo_threads kdemo_move
    (λ a, is_Some (cdemo_mem !! a)) kdemo_mem kdemo_acts kdemo_end ∅ kdemo_recording).
  - intros a b _ _. unfold kdemo_move. lia.
  - intros a [x Hx]. unfold cdemo_mem in Hx.
    apply lookup_insert_Some in Hx as [[<- _]|[_ [<- _]%lookup_singleton_Some]]; reflexivity.
  - constructor; [|constructor; [|constructor]]; apply bump_moved; eexists; reflexivity.
Defined.

Lemma commit_lock_exclusive_witness :
  ∃ k, krun kdemo_acts (kinit cdemo_mem (map_seqZ 0 cdemo_threads)) = Ok k ∧
    (∀ t1 t2 th1 th2, k_thr k !! t1 = Some th1 → k_thr k !! t2 = Some th2 →
      k_critical (k_pc th1) = true → k_critical (k_pc th2) = true →
      t1 = t2 ∧ ticket_lockable (k_lock (k_m k)) = false) ∧
    (ticket_lockable (k_lock (k_m k)) = true →
      map_Forall (λ _ b, b = []) (k_buf k) ∧
      ∃ C qs, run_blocks C (cdemo_mem, map_seqZ 0 cdemo_threads) = Ok (k_mem (k_m k), qs)).
Proof. apply (commit_lock_exclusive cdemo_mem cdemo_threads kdemo_acts cdemo_within). cbn. lia. Defined.
