(* ===== verification/CommitLive.v ===== *)
(** * CommitLive: recordings of the commit order finish

    A block that aborts takes a ticket and waits for its turn; nobody tries again,
    so what is left of the threads shrinks with every step.  Some thread can always
    go on: the head of the lock's queue or, when it is empty, a thread whose
    transaction then commits. *)
From stdpp Require Import functions.
From S2P Require Import Prelude Mem Batch Sched TicketLock Commit CommitTso CommitCorrectness CommitTsoReplay.

Section live.
Context (mem0 : gmap Z Z) (N : Z) (progs : gmap Z prog).
Context (Hprogs : ∀ t p, progs !! t = Some p → prog_within (λ a, is_Some (mem0 !! a)) p).
Context (Hsize : Z.of_nat (size progs) < 2 ^ 16).
Context (HN : ∀ t, is_Some (progs !! t) ↔ 0 ≤ t < N).

(** ** The measure *)

(** The instructions to the end of the block, with the stores they make, apart
    from those of its accesses. *)
Definition krank (th : kthread) : nat :=
  match k_pc th with
  | KOut => 3
  | KXadd => 2
  | KSpin _ => 1
  | KIn => if decide (k_bbcnt th mod RTM_BATCH_N = 0) then 0 else 11
  | KEnd => 10
  | KTimeSt _ => 9
  | KUnlock _ => 7
  | KUnlockSt _ _ => 6
  | KLogC _ => 4
  end.

(** A thread that has at most [l] accesses left, with its buffer. *)
Definition kthr_measure (l : nat) (th : kthread) (b : list kstore) : nat :=
  (13 * l + krank th + length b)%nat.

Definition kmeasure (l : Z → nat) (k : kstate) : nat :=
  sum_list_with (λ t, match k_thr k !! t, k_buf k !! t with
                      | Some th, Some b => kthr_measure (l t) th b
                      | _, _ => 0%nat
                      end) (seqZ 0 N).

Definition kbounded (l : Z → nat) (k : kstate) : Prop :=
  ∀ t th, k_thr k !! t = Some th → at_most (k_prog th) (l t).

(** Thread [t] has come nearer to its end, the others are where they were. *)
Definition kmoves (l : Z → nat) (t : Z) (k k' : kstate) : Prop :=
  ∃ th b th' b' l', k_thr k !! t = Some th ∧ k_buf k !! t = Some b ∧
    k_thr k' = <[t := th']> (k_thr k) ∧ k_buf k' = <[t := b']> (k_buf k) ∧
    at_most (k_prog th') l' ∧ (kthr_measure l' th' b' < kthr_measure (l t) th b)%nat.

Lemma kmoves_measure l t k k' : 0 ≤ t < N → kbounded l k → kmoves l t k k' →
  ∃ l', kbounded l' k' ∧ (kmeasure l' k' < kmeasure l k)%nat.
Proof.
  intros Ht Hb (th & b & th' & b' & l' & Hth & Hbt & Ek & Eb & Hl' & Hm). exists (<[t := l']> l). split.
  - intros u thu. rewrite Ek. intros [[<- <-]|[Hne Hu]]%lookup_insert_Some.
    + by rewrite fn_lookup_insert.
    + rewrite fn_lookup_insert_ne by done. by apply Hb.
  - unfold kmeasure. rewrite Ek, Eb.
    set (f := λ u, match k_thr k !! u, k_buf k !! u with
      | Some th, Some b => kthr_measure (l u) th b | _, _ => 0%nat end).
    set (g := λ u, match <[t := th']> (k_thr k) !! u, <[t := b']> (k_buf k) !! u with
      | Some th, Some b => kthr_measure ((<[t := l']> l) u) th b | _, _ => 0%nat end).
    pose proof (sum_list_with_update g f (seqZ 0 N) t (NoDup_seqZ 0 N)) as H.
    assert (g t = kthr_measure l' th' b') as Eg by (unfold g; by rewrite !lookup_insert_eq, fn_lookup_insert).
    assert (f t = kthr_measure (l t) th b) as Ef by (unfold f; by rewrite Hth, Hbt).
    rewrite Eg, Ef in H. enough (sum_list_with g (seqZ 0 N) + kthr_measure (l t) th b
      = sum_list_with f (seqZ 0 N) + kthr_measure l' th' b')%nat by lia.
    apply H; [apply elem_of_seqZ; lia|]. intros u _ Hne. unfold f, g.
    by rewrite !lookup_insert_ne, fn_lookup_insert_ne by done.
Qed.

(** ** Steps *)

(** An instruction other than an access. *)
Lemma kmoves_instr l t k th b th' sts : kbounded l k → k_thr k !! t = Some th → k_buf k !! t = Some b →
  k_prog th' = k_prog th → (length sts + krank th' < krank th)%nat →
  kmoves l t k (KState (k_m k) (<[t := b ++ sts]> (k_buf k)) (<[t := th']> (k_thr k))).
Proof.
  intros Hl Hth Hb Hp Hr. exists th, b, th', (b ++ sts), (l t).
  split_and!; try done; [rewrite Hp; by apply (Hl t th)|]. unfold kthr_measure. rewrite length_app. lia.
Qed.

Lemma kinstr_moves l t k th b sts th' v : kbounded l k → k_thr k !! t = Some th → k_buf k !! t = Some b →
  spin_ok th → kinstr th v = Ok (sts, th') →
  (sts = [] ∧ th' = th) ∨
  kmoves l t k (KState (k_m k) (<[t := b ++ sts]> (k_buf k)) (<[t := th']> (k_thr k))).
Proof.
  intros Hl Hth Hb Hsp H. unfold kinstr in H. unfold spin_ok in Hsp.
  destruct (k_pc th) as [| |me| | |ts|ts|ts x|ts] eqn:Hpc; try (by left; simplify_eq);
    try (injection H as <- <-; right; apply (kmoves_instr l t k th); try done; unfold krank; rewrite Hpc; cbn; lia).
  - injection H as <- <-. case_decide; [right|by left]. apply (kmoves_instr l t k th); try done.
    unfold krank. rewrite Hpc. cbn. rewrite decide_True by apply Hsp. lia.
  - destruct (decide (∃ r, k_prog th = PRet r)) as [[r Hr]|Hr].
    + rewrite Hr in H. injection H as <- <-. case_decide as Hd; [right|by left].
      apply (kmoves_instr l t k th); try done. unfold krank. rewrite Hpc. cbn. rewrite decide_False by done. lia.
    + right. assert (∃ m1 p1, access_step (k_mem v) (k_prog th) = Ok (m1, p1) ∧ k_prog th' = p1 ∧
        (length sts ≤ 1)%nat ∧ (krank th' ≤ 11)%nat) as (m1 & p1 & Ha & Hp1 & Hs & Hk).
      { destruct (k_prog th) as [r|addr f|addr val p] eqn:Hp; [by destruct Hr; exists r|..];
          (apply bind_Ok in H as ([m1 p1] & Ha & [= <- <-]); exists m1, p1; split_and!; [done..|cbn; lia|];
           unfold krank; cbn; repeat case_decide; lia). }
      pose proof (Hl t th Hth) as Hlt. destruct (l t) as [|n] eqn:Hn.
      { by destruct (k_prog th) as [r| |]; [destruct Hr; exists r|..]. }
      exists th, b, th', (b ++ sts), n. rewrite Hn, Hp1. split_and!; try done; [by eapply access_left|].
      unfold kthr_measure. rewrite length_app. lia.
Qed.

(** A state in which only the thread [t] is another one. *)
Lemma kstate_same_buf l t k th b th' m' l' : k_thr k !! t = Some th → k_buf k !! t = Some b →
  at_most (k_prog th') l' → (kthr_measure l' th' b < kthr_measure (l t) th b)%nat →
  kmoves l t k (KState m' (k_buf k) (<[t := th']> (k_thr k))).
Proof.
  intros Hth Hb Hl Hm. exists th, b, th', b, l'. split_and!; try done. cbn. by rewrite insert_id.
Qed.

Lemma kstep_moves l a k k' : kbounded l k → (∀ t th, k_thr k !! t = Some th → spin_ok th) →
  (∀ t, is_Some (k_buf k !! t) → is_Some (k_thr k !! t)) → kstep a k = Ok k' →
  k' = k ∨ ∃ t, is_Some (k_thr k !! t) ∧ kmoves l t k k'.
Proof.
  intros Hl Hsp Hdom H. unfold kstep in H.
  assert (∀ t th b, k_thr k !! t = Some th → k_buf k !! t = Some b → k_start th →
    kmoves l t k (tx_abort t th k)) as Habort.
  { intros t th b Hth Hb (Hpc & _). apply (kstate_same_buf l t k th b _ _ (l t)); try done; [by apply (Hl t th)|].
    unfold kthr_measure, krank. cbn. rewrite Hpc. lia. }
  destruct a as [t|t|t|t]; [..|destruct (k_buf k !! t) as [[|st b]|] eqn:Hb; [by left; simplify_eq| |by left; simplify_eq]].
  1-3: destruct (k_thr k !! t) as [th|] eqn:Hth; [|by left; simplify_eq].
  1-3: destruct (k_buf k !! t) as [b|] eqn:Hb; [|by left; simplify_eq].
  - destruct b; [|by left; simplify_eq]. case_decide as Hst; [|by left; simplify_eq]. right. exists t.
    split; [eauto|]. unfold tx_block in H. case_match; [|injection H as <-; by eapply Habort].
    apply bind_Ok in H as ([m1 p1] & Hex & [= <-]). destruct Hst as (Hpc & _ & Hr).
    destruct (block_left _ _ _ _ _ (l t) Hex Hr) as (l' & Hlt & Hl'); [by apply (Hl t th)|].
    apply (kstate_same_buf l t k th [] _ _ l'); try done. unfold kthr_measure, krank. cbn. rewrite Hpc. lia.
  - destruct b; [|by left; simplify_eq]. injection H as <-. case_decide as Hst; [|by left]. right. exists t.
    split; [eauto|]. by eapply Habort.
  - case_decide as Hpc.
    + injection H as <-. case_decide as Hbe; [|by left]. right. exists t. split; [eauto|]. subst b.
      apply (kstate_same_buf l t k th [] _ _ (l t)); try done; [by apply (Hl t th)|].
      unfold kthr_measure, krank. cbn. rewrite Hpc. lia.
    + apply bind_Ok in H as ([sts th'] & Hi & [= <-]).
      destruct (kinstr_moves l t k th b sts th' _ Hl Hth Hb (Hsp t th Hth) Hi) as [[-> ->]|Hm]; [left|right; eauto].
      rewrite app_nil_r, !insert_id by done. by destruct k.
  - injection H as <-. right. destruct (Hdom t) as [th Hth]; [eauto|]. exists t. split; [eauto|].
    exists th, (st :: b), th, b, (l t). cbn. rewrite insert_id by done. split_and!; try done; [by apply (Hl t th)|].
    unfold kthr_measure. cbn. lia.
Qed.

(** ** The machine is live *)

Definition klive (a : kact) : Prop :=
  match a with KTx t | KExec t | KDrain t => is_Some (progs !! t) | KFall _ => False end.

Definition klive_inv (n : nat) (k : kstate) : Prop :=
  ∃ cacts s T q l, crun cacts (cinit mem0 progs) = Ok s ∧ krel T q k s ∧
    Forall (λ t, is_Some (progs !! t)) q ∧ kbounded l k ∧ n = kmeasure l k.

Lemma klive_cinv cacts s : crun cacts (cinit mem0 progs) = Ok s → ∃ C m ps, cinv mem0 progs C m ps s.
Proof using Hprogs.
  intros H. destruct (crun_ok mem0 progs Hprogs cacts) as (s' & C & m & ps & Hs' & HC & _).
  rewrite H in Hs'. injection Hs' as <-. eauto.
Qed.

Lemma kthr_dom C m ps T q k s t : cinv mem0 progs C m ps s → krel T q k s → is_Some (k_thr k !! t) →
  is_Some (progs !! t).
Proof.
  intros HC Hk Ht%(kr_cdom _ _ _ _ Hk). apply (ci_dom _ _ _ _ _ _ HC) in Ht.
  by apply (run_blocks_dom C mem0 progs m ps (ci_run _ _ _ _ _ _ HC)).
Qed.

Lemma kstep_live n k a : klive_inv n k →
  ∃ k', kstep a k = Ok k' ∧ (k' = k ∨ ∃ n', (n' < n)%nat ∧ klive_inv n' k').
Proof using Hprogs Hsize HN.
  intros (cacts & s & T & q & l & Hc & Hk & Hq & Hl & ->).
  destruct (klive_cinv cacts s Hc) as (C & m & ps & HC).
  destruct (kstep_ok mem0 progs Hprogs Hsize T q k s a Hk Hq) as (k' & Hst & (cs & s' & T' & q' & Hcs & _ & Hk' & Hq'));
    [by intros t; eapply kthr_dom|eauto|].
  exists k'. split; [done|].
  destruct (kstep_moves l a k k' Hl (kr_spin _ _ _ _ Hk)) as [?|(t & Ht & Hm)]; try done; [|by left|right].
  { intros t. apply (kr_dom _ _ _ _ Hk). }
  destruct (kmoves_measure l t k k') as (l' & Hl' & Hlt); [by eapply HN, kthr_dom|done..|].
  eexists. split; [exact Hlt|]. exists (cacts ++ cs), s', T', q', l'. split_and!; try done.
  unfold crun in *. by rewrite foldl_app, Hc.
Qed.

(** A step that leaves the state as it is leaves the thread as it is. *)
Lemma kthr_stays (k : kstate) m b t th th' : KState m b (<[t := th']> (k_thr k)) = k → k_thr k !! t = Some th → th' = th.
Proof.
  intros H Hth. apply (f_equal k_thr) in H. cbn in H. apply (f_equal (.!! t)) in H.
  rewrite lookup_insert_eq, Hth in H. congruence.
Qed.

(** A block under the lock in which no access has been made yet has one to make. *)
Lemma block_not_empty C m ps T o q k s th b : cinv mem0 progs C m ps s → krel T (o :: q) k s →
  k_thr k !! o = Some th → k_buf k !! o = Some b → k_pc th = KIn →
  k_bbcnt th mod RTM_BATCH_N ≠ 0 ∨ ¬ ∃ r, k_prog th = PRet r.
Proof.
  intros HC Hk Hth Hb Hpc. pose proof (kr_thr _ _ _ _ Hk o th b Hth Hb) as Hca.
  destruct (g_lock s) eqn:Hg.
  2: { destruct (ci_free _ _ _ _ _ _ HC Hg) as [_ Hf]. specialize (Hf o _ Hca). cbn in Hf. by rewrite Hpc in Hf. }
  destruct (ci_busy _ _ _ _ _ _ HC Hg) as (t & th' & Hib & Hoth).
  assert (o = t) as <-.
  { destruct (decide (o = t)) as [|Hne]; [done|]. specialize (Hoth o _ Hne Hca). cbn in Hoth. by rewrite Hpc in Hoth. }
  destruct Hib as [Hit _ (j & p & Hp & Hrun & _ & Hj & Hj0)]. rewrite Hca in Hit. injection Hit as <-. cbn in *.
  destruct j as [|j]; [right|left; lia]. cbn in Hrun. injection Hrun as _ <-. by apply Hj0.
Qed.

Ltac other_pc H := injection H as _ H; apply (f_equal k_pc) in H; cbn in H; congruence.

(** The head of the queue, when its stores have reached memory, goes on. *)
Lemma head_goes_on cacts T o q k s : crun cacts (cinit mem0 progs) = Ok s → krel T (o :: q) k s →
  k_buf k !! o = Some [] → kstep (KExec o) k ≠ Ok k.
Proof using Hprogs.
  intros Hc Hk Hb H. destruct (klive_cinv cacts s Hc) as (C & m & ps & HC).
  destruct (kr_head _ _ _ _ Hk) as (th & b & Hth & Hb' & _ & Hh). rewrite Hb in Hb'. injection Hb' as <-.
  rewrite (head_exec T o k s th [] Hth Hb Hh) in H. apply bind_Ok in H as ([sts th'] & Hi & [= H]).
  pose proof (kthr_stays k _ _ o th th' H Hth) as ->. change (kflush [] (k_m k)) with (k_m k) in *.
  unfold kinstr in Hi. unfold head_ok in Hh. destruct (k_pc th) as [| |me| | |ts|ts|ts x|ts] eqn:Hpc; try done.
  - destruct Hh as ((b' & E & _) & _). by destruct b'.
  - destruct Hh as (-> & _). rewrite decide_True in Hi by apply (kr_ticket _ _ _ _ Hk). other_pc Hi.
  - destruct (decide (∃ r, k_prog th = PRet r)) as [[r Hr]|Hr].
    + rewrite Hr in Hi. case_decide as Hd; [other_pc Hi|].
      destruct (block_not_empty C m ps T o q k s th [] HC Hk Hth Hb Hpc) as [?|[]]; [done|by exists r].
    + destruct (k_prog th) as [r|addr f|addr val p] eqn:Hp; [by destruct Hr; exists r|..];
        (apply bind_Ok in Hi as ([m1 p1] & _ & [= _ Hi]); apply (f_equal k_bbcnt) in Hi; cbn in Hi; lia).
  - other_pc Hi.
  - other_pc Hi.
  - other_pc Hi.
  - other_pc Hi.
  - destruct Hh as ((b' & E & _) & _). by destruct b'.
Qed.

Lemma kdrain_changes k t b : k_buf k !! t = Some b → b ≠ [] → kstep (KDrain t) k ≠ Ok k.
Proof.
  intros Hb Hne H. cbn in H. rewrite Hb in H. destruct b as [|st b]; [done|]. injection H as H.
  apply (f_equal k_buf) in H. cbn in H. apply (f_equal (.!! t)) in H. rewrite lookup_insert_eq, Hb in H.
  injection H as H. apply (f_equal length) in H. cbn in H. lia.
Qed.

(** When nobody has a ticket, a thread that is not done goes on: the lock is free
    and its transaction commits. *)
Lemma free_goes_on cacts T k s t th : crun cacts (cinit mem0 progs) = Ok s → krel T [] k s →
  k_thr k !! t = Some th → k_buf k !! t = Some [] → ¬ ((∃ r, k_prog th = PRet r) ∧ k_pc th = KOut) →
  kstep (KTx t) k ≠ Ok k ∨ kstep (KExec t) k ≠ Ok k.
Proof using Hprogs.
  intros Hc Hk Hth Hb Hrun. destruct (klive_cinv cacts s Hc) as (C & m & ps & HC).
  pose proof (kr_out _ _ _ _ Hk t th Hth (not_elem_of_nil t)) as Ho.
  pose proof (kr_thr _ _ _ _ Hk t th [] Hth Hb) as Hca. change (kflush [] (k_m k)) with (k_m k) in Hca.
  destruct (k_pc th) as [| | | | | | | |ts] eqn:Hpc; try done.
  - left. intros H. cbn in H. rewrite Hth, Hb in H.
    assert (k_start th) as Hst.
    { split_and!; [done| |by intros Hr; apply Hrun].
      destruct (ci_idle _ _ _ _ _ _ HC t _ Hca) as [_ [Hm|Hr]]; [cbn; by rewrite Hpc|done|].
      by destruct Hrun. }
    rewrite decide_True in H by done. unfold tx_block in H.
    assert (ticket_lockable (k_lock (k_m k)) = true) as Hlk.
    { unfold ticket_lockable. rewrite bool_decide_eq_true, (kr_ticket _ _ _ _ Hk), (kr_users _ _ _ _ Hk).
      cbn. by rewrite Z.add_0_r. }
    rewrite Hlk in H. apply bind_Ok in H as ([m1 p1] & _ & [= H]).
    pose proof (kthr_stays k _ _ t th _ H Hth) as E. apply (f_equal (length ∘ k_log)) in E. cbn in E.
    rewrite length_app in E. cbn in E. lia.
  - right. intros H. cbn in H. rewrite Hth, Hb, !decide_True in H by done. injection H as H.
    unfold kxadd, xadd_users in H. pose proof (kthr_stays k _ _ t th _ H Hth) as E.
    apply (f_equal k_pc) in E. cbn in E. congruence.
  - right. intros H. cbn in H. rewrite Hth, Hb, decide_False in H by (by rewrite Hpc). unfold kinstr in H.
    rewrite Hpc in H. cbn in H. injection H as H. pose proof (kthr_stays k _ _ t th _ H Hth) as E.
    apply (f_equal k_pc) in E. cbn in E. congruence.
Qed.

Lemma klive_progress n k : klive_inv n k → k_finished k ∨ ∃ a, klive a ∧ kstep a k ≠ Ok k.
Proof using Hprogs.
  intros (cacts & s & T & q & l & Hc & Hk & Hq & Hl & ->).
  destruct (klive_cinv cacts s Hc) as (C & m & ps & HC).
  pose proof (kthr_dom C m ps T q k s) as Hdom.
  destruct (decide (map_Forall (λ _ b, b = []) (k_buf k))) as [Hempty|Hne].
  2: { apply map_not_Forall in Hne as (t & b & Hb & Hne); [|apply _]. right. exists (KDrain t).
       split; [|by eapply kdrain_changes]. apply Hdom; [done..|]. apply (kr_dom _ _ _ _ Hk). eauto. }
  destruct q as [|o q].
  2: { right. exists (KExec o). split; [by apply Forall_inv in Hq|].
       destruct (kr_head _ _ _ _ Hk) as (th & b & _ & Hb & _). pose proof (Hempty _ _ Hb) as E. cbn in E. subst b.
       by eapply head_goes_on. }
  destruct (decide (map_Forall (λ _ th, (∃ r, k_prog th = PRet r) ∧ k_pc th = KOut) (k_thr k))) as [?|Hrun].
  { by left. }
  right. apply map_not_Forall in Hrun as (t & th & Hth & Hrun); [|apply _].
  destruct (proj2 (kr_dom _ _ _ _ Hk t)) as [b Hb]; [eauto|]. pose proof (Hempty _ _ Hb) as E. cbn in E. subst b.
  destruct (free_goes_on cacts T k s t th Hc Hk Hth Hb Hrun); [exists (KTx t)|exists (KExec t)];
    (split; [apply Hdom; eauto|done]).
Qed.

Lemma finished_kstep k a : k_finished k → kstep a k = Ok k.
Proof.
  intros [Hf Hb]. assert (∀ t th, k_thr k !! t = Some th → ¬ k_start th) as Hns.
  { intros t th Hth (_ & _ & Hr). by destruct Hr, (Hf t th Hth) as [? _]. }
  destruct a as [t|t|t|t]; cbn [kstep];
    [..|destruct (k_buf k !! t) as [[|st b]|] eqn:Eb; [done|by apply (Hb t) in Eb|done]];
    (destruct (k_thr k !! t) as [th|] eqn:Hth; [|done]); (destruct (k_buf k !! t) as [b|] eqn:Eb; [|done]);
    pose proof (Hb t b Eb) as E; cbn in E; subst b.
  - rewrite decide_False by (by eapply Hns). done.
  - rewrite decide_False by (by eapply Hns). done.
  - destruct (Hf t th Hth) as [_ Hpc]. rewrite decide_False by (by rewrite Hpc). unfold kinstr. rewrite Hpc. cbn.
    rewrite !insert_id by done. by destruct k.
Qed.

#[global] Instance commit_record_live : live_machine kstep klive k_finished klive_inv.
Proof using Hprogs Hsize HN.
  constructor; [apply kstep_live|apply klive_progress|intros; by apply finished_kstep].
Qed.

Lemma klive_start b : (∀ t p, progs !! t = Some p → at_most p b) → ∃ n, klive_inv n (kinit mem0 progs).
Proof.
  intros Hb. exists (kmeasure (λ _, b) (kinit mem0 progs)), [], (cinit mem0 progs), 0, [], (λ _, b).
  split_and!; [done|apply kinit_rel|done| |done].
  intros t th. cbn. rewrite lookup_fmap. intros (p & Hp & ->)%fmap_Some. by eapply Hb.
Qed.
End live.

(** A schedule of rounds in each of which every thread tries a transaction, takes a
    step and has a store drained, with aborts and other steps anywhere. *)
Lemma commit_recording_live mem0 (ps : list prog) b :
  (∀ p, p ∈ ps → prog_within (λ a, is_Some (mem0 !! a)) p) → Forall (λ p, at_most p b) ps →
  Z.of_nat (length ps) ≤ 127 →
  ∃ bound, ∀ rounds, Forall (fair (klive (map_seqZ 0 ps))) rounds → (bound ≤ length rounds)%nat →
    ∃ k, krun (concat rounds) (kinit mem0 (map_seqZ 0 ps)) = Ok k ∧ k_finished k.
Proof.
  intros Hw Hb Hlen. rewrite list.Forall_forall in Hb. pose proof (programs_within mem0 ps Hw) as Hp.
  assert (∀ t, is_Some ((map_seqZ 0 ps : gmap Z prog) !! t) ↔ 0 ≤ t < Z.of_nat (length ps)) as HN.
  { intros t. rewrite lookup_map_seqZ_is_Some. lia. }
  destruct (klive_start mem0 (Z.of_nat (length ps)) (map_seqZ 0 ps) b) as (n & Hn).
  { intros t p [_ Hpt]%lookup_map_seqZ_Some. apply Hb. by eapply list_elem_of_lookup_2. }
  exists n. intros rounds Hf Hr.
  pose proof (commit_record_live mem0 (Z.of_nat (length ps)) (map_seqZ 0 ps) Hp (threads_size ps Hlen) HN) as HM.
  destruct (fair_rounds_finish _ (HM := HM) rounds n _ Hn Hf Hr) as (k & _ & Hrun & _ & Hfin). by exists k.
Qed.

(** C10: a recording of the commit order finishes.  Threads that make at most [b]
    accesses finish under every schedule that is fair to them and their store
    buffers: there is a number of rounds after which all have returned, whichever
    of their transactions abort.  The ticket lock lets nobody overtake, so no block
    waits for ever. *)
Theorem commit_recording_finishes mem0 (ps : list prog) b :
  (∀ p, p ∈ ps → prog_within (λ a, is_Some (mem0 !! a)) p) → Forall (λ p, at_most p b) ps →
  Z.of_nat (length ps) ≤ 127 →
  ∃ bound, ∀ rounds, Forall (fair (klive (map_seqZ 0 ps))) rounds → (bound ≤ length rounds)%nat →
    ∃ k, krun (concat rounds) (kinit mem0 (map_seqZ 0 ps)) = Ok k ∧ k_finished k.
Proof. apply commit_recording_live. Qed.

Lemma commit_recording_finishes_witness :
  ∃ bound, ∀ rounds, Forall (fair (klive (map_seqZ 0 cdemo_threads))) rounds → (bound ≤ length rounds)%nat →
    ∃ k, krun (concat rounds) (kinit cdemo_mem (map_seqZ 0 cdemo_threads)) = Ok k ∧ k_finished k.
Proof.
  apply (commit_recording_finishes cdemo_mem cdemo_threads 10 cdemo_within); [|cbn; lia].
  repeat constructor; cbn; auto.
Defined.
