(* ===== verification/CommitClients.v ===== *)
(** * CommitClients: clients recorded and replayed by commit order

    The contract of [CommitTsoReplay] for a client program, and [racey.c] built with
    [mem-record-rtmcommit.c] and [mem-replay-rtmcommit.c]. *)
From stdpp Require Import strings.
From S2P Require Import Prelude Mem MappedLog Text History SeqlockTsoProof Reloc PQueue KWay Sched.
From S2P Require Import TsoCorrectness Clients Racey.
From S2P Require Import Commit CommitTso CommitReplay CommitReplayTso CommitFiles CommitTsoReplay.

(** A finished recording of a client. *)
Definition client_commits (C : client) (acts : list kact) (k : kstate) : Prop :=
  krun acts (kinit (cl_mem C) (map_seqZ 0 (cl_threads C))) = Ok k ∧ k_finished k.

(** What the threads return. *)
Definition committed_results (n : nat) (k : kstate) : list Z :=
  (λ t, from_option (prog_result ∘ k_prog) 0 (k_thr k !! t)) <$> seqZ 0 (Z.of_nat n).

Definition ordered_results (n : nat) (x : xstate) : list Z :=
  (λ t, from_option (prog_result ∘ x_prog) 0 (x_thr x !! t)) <$> seqZ 0 (Z.of_nat n).

(** The commit logs of a recording of [C] that ended in [k] merge into an order
    that [C'] can replay, whatever files there were: no run of the replay fails,
    every fair one finishes within a bound, and one that has finished is [same] as
    the recording. *)
Definition commit_replays (Q : prio_queue ts_gt) (addr : string → nat → Z) (C C' : client) (k : kstate)
    (same : xstate → Prop) : Prop :=
  ∃ x0 bound, (∀ fs, prepare_commit addr Q (cl_mem C') (cl_threads C')
                       (k_logs (length (cl_threads C)) k) fs = Ok x0) ∧
    (∀ rounds, Forall (fair (ylive (map_seqZ 0 (cl_threads C')))) rounds → (bound ≤ length rounds)%nat →
       ∃ y, run_sched ystep (concat rounds) (ystart x0) = Ok y ∧ y_finished y) ∧
    ∀ sched, ∃ y, run_sched ystep sched (ystart x0) = Ok y ∧ (y_finished y → same (y_s y)).

Lemma commit_replays_impl Q addr C C' k (P P' : xstate → Prop) :
  (∀ x, P x → P' x) → commit_replays Q addr C C' k P → commit_replays Q addr C C' k P'.
Proof.
  intros HP (x0 & bound & ? & ? & Hall). exists x0, bound. split_and!; [done..|].
  intros sched. destruct (Hall sched) as (y & ? & ?). exists y. auto.
Qed.

Section client.
Context (Q : prio_queue ts_gt) `{!prio_queue_ok Q}.
Context (addr : string → nat → Z) (Haddr : ∀ path i, addr path i mod PAGE_SIZE = 0).

(** Recording and replaying a client every thread of which makes an access. *)
Lemma client_commit_replay C C' f n acts k :
  client_ok C (S n) → cl_threads C ≠ [] → moved_client f C C' → client_commits C acts k →
  commit_replays Q addr C C' k (λ x,
    moved_mem f (addr_ok (cl_objid C) (cl_nobj C) (cl_mem C)) (k_mem (k_m k)) (x_mem x) ∧
    ordered_results (length (cl_threads C)) x = committed_results (length (cl_threads C)) k).
Proof using All.
  intros [] Hne [_ Hrl Hth] (Hrun & Hf).
  assert (tso_commit_recording (cl_mem C) (cl_threads C) acts k) as HR.
  { rewrite list.Forall_forall in co_within, co_makes. constructor; [done| |done..| |lia|].
    - intros p Hp. eapply prog_within_impl; [|by apply co_within]. by intros a [? _].
    - intros p Hp [r ->]. by apply (co_makes _ Hp).
    - exists (S n). split; [|destruct (cl_threads C); [done|cbn [length] in *; nia]]. apply list.Forall_forall. intros p Hp. by apply makes_at_most, co_makes. }
  destruct (tso_commit_replays (cl_mem C) addr Haddr Q (cl_threads C) (cl_threads C') f
    (addr_ok (cl_objid C) (cl_nobj C) (cl_mem C)) (cl_mem C') acts k HR)
    as (x0 & bound & Hx0 & Hfair & Hall); [apply Hrl|exact (mv_mem _ _ _ _ _ _ Hrl)|done|].
  exists x0, bound. split_and!; [done..|]. intros sched.
  destruct (Hall sched) as (y & Hy & Hyf). exists y. split; [done|]. intros Hd.
  destruct (Hyf Hd) as [Hm Ht]. split; [done|]. unfold ordered_results, committed_results.
  apply list_fmap_ext. intros _ t _. apply (f_equal (lookup t)) in Ht. rewrite !lookup_fmap in Ht.
  destruct (x_thr (y_s y) !! t), (k_thr k !! t); cbn in *; congruence.
Qed.

(** racey, recorded and replayed. *)
Lemma racey_commits g_m g_m' max_loop NumProcs C C' acts k :
  (0 < max_loop ≤ Z.to_nat MAX_LOOP)%nat →
  racey g_m max_loop NumProcs = Ok C → racey g_m' max_loop NumProcs = Ok C' → client_commits C acts k →
  commit_replays Q addr C C' k (λ x,
    let n := Z.to_nat NumProcs in
    racey_output (ordered_results n x) = racey_output (committed_results n k)).
Proof using All.
  intros Hl HC HC' Hrec. pose proof (racey_client g_m max_loop NumProcs C HC ltac:(lia)) as Hok.
  pose proof (racey_moved g_m g_m' max_loop NumProcs C C' HC HC') as Hmv.
  apply bind_Ok in HC as ([] & Hn%c_assert_Ok & [= <-]).
  destruct (3 * max_loop)%nat as [|j] eqn:Ej; [lia|].
  eapply commit_replays_impl; [|eapply (client_commit_replay _ _ _ j); [done| |done..]].
  - cbn [cl_threads]. rewrite length_fmap, length_seqZ. by intros x [_ ->].
  - cbn [cl_threads]. rewrite seqZ_cons by lia. done.
Qed.
End client.

(** ** A concrete recording: three threads, five loops each; threads 1 and 2 take the lock. *)

Definition cracey_client : client := value (Client (λ a, a) 0 ∅ []) (racey 4096 5 3).
Definition cracey_moved : client := value (Client (λ a, a) 0 ∅ []) (racey 65536 5 3).

Definition cracey_acts : list kact :=
  [KTx 0; KFall 1; KExec 1; KTx 2; KExec 2] ++ replicate 13 (KExec 1) ++ replicate 7 (KDrain 1) ++
  replicate 13 (KExec 2) ++ replicate 7 (KDrain 2) ++
  [KTx 0; KTx 0; KTx 1; KTx 1; KTx 2; KTx 2].

Definition cracey_end : kstate :=
  value (kinit ∅ ∅) (krun cracey_acts (kinit (cl_mem cracey_client) (map_seqZ 0 (cl_threads cracey_client)))).

Example cracey_logs : k_logs 3 cracey_end = [[0; 3; 4]; [1; 5; 6]; [2; 7; 8]].
Proof. vm_compute. reflexivity. Qed.

Example cracey_replays :
  commit_replays (sorted_queue ts_gt) demo_path_addr cracey_client cracey_moved cracey_end (λ x,
    racey_output (ordered_results 3 x) = racey_output (committed_results 3 cracey_end)).
Proof.
  eapply (racey_commits (sorted_queue ts_gt) demo_path_addr (λ _, demo_addr_aligned) 4096 65536 5 3
    cracey_client cracey_moved cracey_acts).
  - unfold MAX_LOOP. lia.
  - apply value_ok. reflexivity.
  - apply value_ok. reflexivity.
  - split; [apply value_ok; vm_compute; reflexivity|].
    apply (bool_decide_unpack _). vm_compute. exact I.
Qed.
