(* ===== verification/TestScript.v ===== *)
(** * TestScript: the test of the repository, [test.sh]

    [test.sh <cmd> <impl> <nthr> [ntimes]] records a client, runs the tools on the
    logs, replays the client and compares what the two runs printed.  Here are the
    [main] functions of the clients and of the tools, with their arguments as
    strings, and the script that calls them.  Each run is given where its memory is
    and the schedule of its threads; one whose schedule is too short for the
    threads to finish is [OutOfFuel]. *)
From stdpp Require Import strings pretty.
From S2P Require Import Prelude Mem MappedLog Paths Text Record Batch History SeqlockTso SeqlockTsoProof Reloc.
From S2P Require Import Reorder PQueue KWay Merge Sched Replay ReplayProof Pipeline Files TsoCorrectness.
From S2P Require Import ReplayTso ReplayTsoProof Clients Racey Addcnt.
From S2P Require Import Commit CommitTso CommitReplay CommitReplayTso CommitFiles CommitTsoReplay CommitClients.
From S2P Require Import RecordLive CommitLive.

#[local] Open Scope string_scope.
#[local] Open Scope Z_scope.

(** ** The programs *)

(** The clients, and the recorders they are linked with. *)
Inductive cmd := addcnt_cmd | racey_cmd.
Inductive impl := seqlock | seqbatch | rtmseq | rtmcluster | rtmcommit.

(** The executables [Makefile] builds are named after them. *)
Definition cmd_of (s : string) : option cmd :=
  if decide (s = "addcnt") then Some addcnt_cmd else if decide (s = "racey") then Some racey_cmd else None.

Definition impl_of (s : string) : option impl :=
  if decide (s = "seqlock") then Some seqlock else if decide (s = "seqbatch") then Some seqbatch
  else if decide (s = "rtmseq") then Some rtmseq else if decide (s = "rtmcluster") then Some rtmcluster
  else if decide (s = "rtmcommit") then Some rtmcommit else None.

(** The recorder of the memory order scheme; [rtmcommit] is the other scheme. *)
Definition recorder_of (i : impl) : option recorder :=
  match i with
  | seqlock | rtmseq => Some seqlock_recorder
  | seqbatch => Some seqbatch_recorder
  | rtmcluster => Some rtmcluster_recorder
  | rtmcommit => None
  end.

(** Where the objects of a run are, and what uninitialized memory holds. *)
Record memory := Memory { ms_base : Z; ms_init : Z → Z }.

(** The run of a recording and of a replay: the steps of the threads, in rounds,
    for one and for the other scheme. *)
Record rec_run := RecRun { rr_mem : memory; rr_acts : list (list action); rr_kacts : list (list kact) }.
Record play_run := PlayRun { pr_mem : memory; pr_qacts : list (list qact); pr_yacts : list (list yact) }.

Section script.
Context (addr : string → nat → Z) (Q : prio_queue qe_gt) (Qt : prio_queue ts_gt).
(** What an uninitialized [int] of a tool holds. *)
Context (junk : Z).
(** [MAX_LOOP] of racey and [NITER] of addcnt, or less. *)
Context (max_loop niter : nat).

(** [main] of the clients up to the end of their threads. *)
Definition client_main (c : cmd) (m : memory) (argv : list string) : outcome client :=
  match argv with
  | [_; arg1] =>
      match c with
      | addcnt_cmd => addcnt (ms_base m) (ms_init m) niter (atoi arg1)
      | racey_cmd => racey (ms_base m) max_loop (atoi arg1)
      end
  | _ => Err ExitFailure
  end.

(** What they print. *)
Definition client_output (c : cmd) (m : memory) (results : list Z) (mem : gmap Z Z) : string :=
  match c with
  | addcnt_cmd => print_g_obj (ms_base m) mem
  | racey_cmd => racey_output results
  end.

(** A client linked with a recorder: what it prints, and the files. *)
Definition rec_main (c : cmd) (i : impl) (argv : list string) (r : rec_run) (fs : file_system)
    : outcome (string * file_system) :=
  C ← client_main c (rr_mem r) argv;
  let n := length (cl_threads C) in
  match recorder_of i with
  | Some R =>
      s ← tinit R (cl_nobj C) (cl_mem C) (map_seqZ 0 (cl_threads C));
      s ← trun R (cl_objid C) (concat (rr_acts r)) s;
      if decide (t_finished R s) then
        logs ← tso_logs R (cl_nobj C) (Z.of_nat n) s;
        fs ← record_files addr 0 logs fs;
        Ok (client_output c (rr_mem r) (recorded_results n s) (m_data (t_mem s)), fs)
      else Err OutOfFuel
  | None =>
      k ← krun (concat (rr_kacts r)) (kinit (cl_mem C) (map_seqZ 0 (cl_threads C)));
      if decide (k_finished k) then
        fs ← record_commits addr 0 (k_logs n k) fs;
        Ok (client_output c (rr_mem r) (committed_results n k) (k_mem (k_m k)), fs)
      else Err OutOfFuel
  end.

(** A client linked with a replayer. *)
Definition play_main (c : cmd) (i : impl) (argv : list string) (r : play_run) (fs : file_system)
    : outcome string :=
  C ← client_main c (pr_mem r) argv;
  let n := length (cl_threads C) in
  match i with
  | rtmcommit =>
      x ← xinit_file addr (cl_mem C) (cl_threads C) fs;
      y ← run_sched ystep (concat (pr_yacts r)) (ystart x);
      if decide (y_finished y)
      then Ok (client_output c (pr_mem r) (ordered_results n (y_s y)) (x_mem (y_s y)))
      else Err OutOfFuel
  | _ =>
      s ← replay_init_files addr (cl_nobj C) (cl_mem C) (cl_threads C) fs;
      q ← run_sched (qstep (cl_objid C)) (concat (pr_qacts r)) (qstart s);
      if decide (q_finished q)
      then Ok (client_output c (pr_mem r) (replayed_results n (q_s q)) (r_mem (q_s q)))
      else Err OutOfFuel
  end.

(** [main] of [reorder-memop], [merge-memop] and [merge-commit]; the thread number
    is passed on as an 8-bit [tid_t]. *)
Definition reorder_tool (argv : list string) (fs : file_system) : outcome file_system :=
  match argv with
  | [_; arg1; arg2] => reorder_file addr (istream_int 0 arg1) (wrap_s 8 (istream_int junk arg2)) fs
  | _ => Err ExitFailure
  end.

Definition merge_tool (argv : list string) (fs : file_system) : outcome file_system :=
  match argv with
  | [_; arg1; arg2] => merge_file addr Q (istream_int 0 arg1) (istream_int junk arg2) fs
  | _ => Err ExitFailure
  end.

Definition merge_commit_tool (argv : list string) (fs : file_system) : outcome file_system :=
  match argv with
  | [_; arg1] => merge_commit_file addr Qt (istream_int junk arg1) fs
  | _ => Err ExitFailure
  end.

(** ** The script *)

(** [process_memorder_log]: the status of the function is that of its last
    command. *)
Definition process_memorder (nobj : string) (nthr : Z) (fs : file_system) : outcome file_system :=
  let fs := foldl (λ fs i, value fs (reorder_tool ["./reorder-memop"; nobj; pretty i] fs)) fs
              (seqZ 0 nthr) in
  merge_tool ["./merge-memop"; nobj; pretty nthr] fs.

Definition process_log (i : impl) (nobj : string) (nthr : Z) (fs : file_system) : outcome file_system :=
  match i with
  | rtmcommit => merge_commit_tool ["./merge-commit"; pretty nthr] fs
  | _ => process_memorder nobj nthr fs
  end.

(** A command that fails, in whatever way, makes the script exit. *)
Definition or_exit {A} (r : outcome A) : outcome A :=
  match r with
  | Ok a => Ok a
  | Err OutOfFuel => Err OutOfFuel
  | Err _ => Err ExitFailure
  end.

(** One round of the loop, with [diff result-record result-play] at its end. *)
Definition test_round (c : cmd) (i : impl) (nobj : string) (nthr : Z) (rec : rec_run) (play : play_run)
    (fs : file_system) : outcome file_system :=
  '(result_record, fs) ← or_exit (rec_main c i ["./rec"; pretty nthr] rec (rm_logs fs));
  fs ← or_exit (process_log i nobj nthr fs);
  result_play ← or_exit (play_main c i ["./play"; pretty nthr] play fs);
  if decide (result_record = result_play) then Ok fs else Err ExitFailure.

(** The script; round [j] uses the runs [rec j] and [play j]. *)
Definition test_sh (cmd_arg impl_arg : string) (nthr : Z) (ntimes : option Z)
    (rec : Z → rec_run) (play : Z → play_run) (fs : file_system) : outcome file_system :=
  let nobj := if decide (cmd_arg = "addcnt") then "10" else if decide (cmd_arg = "racey") then "64" else "" in
  match cmd_of cmd_arg, impl_of impl_arg with
  | Some c, Some i =>
      foldl (λ r j, fs ← r; test_round c i nobj nthr (rec j) (play j) fs) (Ok fs)
        (seqZ 1 (default 10 ntimes))
  | _, _ => if decide (default 10 ntimes < 1) then Ok fs else Err ExitFailure
  end.

(** ** What a test needs *)

(** The numbers of threads the clients accept. *)
Definition nthr_ok (c : cmd) (nthr : Z) : Prop :=
  match c with addcnt_cmd => 0 < nthr ≤ 127 | racey_cmd => 0 < nthr < 16 end.

(** The schedule of a recording lets every thread finish. *)
Definition rec_finishes (c : cmd) (i : impl) (nthr : Z) (r : rec_run) : Prop :=
  ∃ C, client_main c (rr_mem r) ["./rec"; pretty nthr] = Ok C ∧
  match recorder_of i with
  | Some R => ∃ s, client_recording R C (concat (rr_acts r)) s
  | None => ∃ k, client_commits C (concat (rr_kacts r)) k
  end.

(** The schedule of a recording gives every thread and every store buffer a step,
    and a thread of the commit order scheme a transaction to try, in each of [bound]
    rounds. *)
Definition fair_rec (i : impl) (nthr : Z) (bound : nat) (r : rec_run) : Prop :=
  match i with
  | rtmcommit => (bound ≤ length (rr_kacts r))%nat ∧
      Forall (λ round, ∀ t, 0 ≤ t < nthr → KTx t ∈ round ∧ KExec t ∈ round ∧ KDrain t ∈ round) (rr_kacts r)
  | _ => (bound ≤ length (rr_acts r))%nat ∧
      Forall (λ round, ∀ t, 0 ≤ t < nthr → Exec t ∈ round ∧ Drain t ∈ round) (rr_acts r)
  end.

(** The schedule of a replay gives every thread and every store buffer a step in
    each of [bound] rounds. *)
Definition fair_play (i : impl) (nthr : Z) (bound : nat) (r : play_run) : Prop :=
  match i with
  | rtmcommit => (bound ≤ length (pr_yacts r))%nat ∧
      Forall (λ round, ∀ t, 0 ≤ t < nthr → YExec t ∈ round ∧ YDrain t ∈ round) (pr_yacts r)
  | _ => (bound ≤ length (pr_qacts r))%nat ∧
      Forall (λ round, ∀ t, 0 ≤ t < nthr → QExec t ∈ round ∧ QDrain t ∈ round) (pr_qacts r)
  end.

(** ** Lemmas *)

Definition nobj_of (c : cmd) : Z := match c with addcnt_cmd => NOBJS | racey_cmd => MAX_ELEM end.

Context (Hmax : (0 < max_loop ≤ Z.to_nat MAX_LOOP)%nat) (Hniter : (0 < niter ≤ Z.to_nat NITER)%nat).
Context (Haddr : ∀ path i, addr path i mod PAGE_SIZE = 0).
Context {HQ : prio_queue_ok Q} {HQt : prio_queue_ok Qt}.

Lemma nthr_range c nthr : nthr_ok c nthr → int_range nthr ∧ 0 < nthr ≤ 127.
Proof. unfold int_range. destruct c; cbn; lia. Qed.

(** The client the replay runs: the threads of the recording, elsewhere. *)
Lemma client_main_moved c nthr m m' x x' C : nthr_ok c nthr → c = racey_cmd →
  client_main c m [x; pretty nthr] = Ok C →
  ∃ C', client_main c m' [x'; pretty nthr] = Ok C' ∧ Z.of_nat (length (cl_threads C)) = nthr ∧
    Z.of_nat (length (cl_threads C')) = nthr ∧ cl_nobj C = nobj_of c ∧ cl_nobj C' = nobj_of c.
Proof.
  intros Hn Hi HC. destruct (nthr_range c nthr Hn) as [Hr ?]. unfold client_main in *.
  rewrite atoi_pretty in * by done. subst c. cbn [nthr_ok] in *.
  unfold racey in *. apply bind_Ok in HC as ([] & Ha & [= <-]). rewrite Ha. eexists. split; [done|].
  cbn [cl_threads cl_nobj]. rewrite !length_fmap, !length_seqZ. split_and!; [lia..|done|done].
Qed.

(** The tools parse the numbers the script gives them. *)
Lemma process_memorder_log_args nobj nthr fs : int_range nobj → 0 ≤ nthr ≤ 127 →
  process_memorder (pretty nobj) nthr fs = process_memorder_log addr Q nobj nthr fs.
Proof.
  intros Ho Hn. unfold process_memorder, process_memorder_log, merge_tool, reorder_files.
  rewrite !istream_int_pretty by (done || unfold int_range; lia). f_equal.
  assert (Forall (λ i, 0 ≤ i ≤ 127) (seqZ 0 nthr)) as HF.
  { apply list.Forall_forall. intros i Hi%elem_of_seqZ. lia. }
  revert fs. induction HF as [|i l Hi _ IH]; intros fs; [done|]. cbn [foldl].
  unfold reorder_tool at 2. rewrite !istream_int_pretty by (done || unfold int_range; lia).
  rewrite wrap_s_id by lia. apply IH.
Qed.

(** A play that is fair to [nthr] threads is fair to the client's. *)
Lemma fair_qlive nthr (ps : list prog) rounds : Z.of_nat (length ps) = nthr →
  Forall (λ round, ∀ t, 0 ≤ t < nthr → QExec t ∈ round ∧ QDrain t ∈ round) rounds →
  Forall (fair (qlive (map_seqZ 0 ps))) rounds.
Proof.
  intros Hn. apply Forall_impl. intros round Hr [t|t] Ht%lookup_map_seqZ_is_Some; apply Hr; lia.
Qed.

Lemma fair_ylive nthr (ps : list prog) rounds : Z.of_nat (length ps) = nthr →
  Forall (λ round, ∀ t, 0 ≤ t < nthr → YExec t ∈ round ∧ YDrain t ∈ round) rounds →
  Forall (fair (ylive (map_seqZ 0 ps))) rounds.
Proof.
  intros Hn. apply Forall_impl. intros round Hr [t|t] Ht%lookup_map_seqZ_is_Some; apply Hr; lia.
Qed.

(** What the replay of a client prints is what the recording printed. *)
Lemma client_replay_output c nthr m m' C C' x x' R {HR : recorder_ok R} acts s :
  nthr_ok c nthr → c = racey_cmd →
  client_main c m [x; pretty nthr] = Ok C → client_main c m' [x'; pretty nthr] = Ok C' →
  client_recording R C acts s →
  replays R Q addr C C' s (λ r,
    client_output c m' (replayed_results (Z.to_nat nthr) r) (r_mem r)
    = client_output c m (recorded_results (Z.to_nat nthr) s) (m_data (t_mem s))).
Proof using Hmax Hniter Haddr HQ.
  intros Hn Hi HC HC' Hrec. destruct (nthr_range c nthr Hn) as [Hr Hn']. unfold client_main in *.
  rewrite atoi_pretty in HC by done. rewrite atoi_pretty in HC' by done. subst c. cbn [client_output] in *.
  pose proof (racey_client _ _ _ _ HC ltac:(lia)) as Hok. pose proof (racey_moved _ _ _ _ _ _ HC HC') as Hmv.
  apply bind_Ok in HC as ([] & _ & [= <-]). eapply replays_impl; [|by eapply client_replay].
  cbn [cl_threads]. rewrite length_fmap, length_seqZ. by intros r [_ ->].
Qed.

Lemma client_commit_output c nthr m m' C C' x x' acts k : nthr_ok c nthr → c = racey_cmd →
  client_main c m [x; pretty nthr] = Ok C → client_main c m' [x'; pretty nthr] = Ok C' →
  client_commits C acts k →
  commit_replays Qt addr C C' k (λ r,
    client_output c m' (ordered_results (Z.to_nat nthr) r) (x_mem r)
    = client_output c m (committed_results (Z.to_nat nthr) k) (k_mem (k_m k))).
Proof using Hmax Hniter Haddr HQt.
  intros Hn Hi HC HC' Hrec. destruct (nthr_range c nthr Hn) as [Hr Hn']. unfold client_main in *.
  rewrite atoi_pretty in HC by done. rewrite atoi_pretty in HC' by done. subst c. cbn [client_output] in *.
  by eapply racey_commits.
Qed.

(** A round of the script with a recorder of the memory order scheme. *)
Lemma memorder_round c i nthr R {HR : recorder_ok R} rec m' : recorder_of i = Some R → i ≠ rtmcommit →
  nthr_ok c nthr → c = racey_cmd → rec_finishes c i nthr rec →
  ∃ bound, ∀ play fs, pr_mem play = m' → fair_play i nthr bound play →
    ∃ fs', test_round c i (pretty (nobj_of c)) nthr rec play fs = Ok fs'.
Proof using Hmax Hniter Haddr HQ.
  intros HRi Hi Hn Hinit (C & HC & Hfin). rewrite HRi in Hfin. destruct Hfin as (s & Hrec).
  destruct (client_main_moved c nthr (rr_mem rec) m' "./rec" "./play" C Hn Hinit HC)
    as (C' & HC' & Hlen & Hlen' & Hno & Hno').
  destruct (client_replay_output c nthr _ m' C C' _ _ R (concat (rr_acts rec)) s Hn Hinit HC HC' Hrec)
    as (logs & r0 & bound & Hl & Hp & Hfair & Hall).
  exists bound. intros play fs Hpm Hplay.
  assert (Forall (λ round, ∀ t, 0 ≤ t < nthr → QExec t ∈ round ∧ QDrain t ∈ round) (pr_qacts play) ∧
    (bound ≤ length (pr_qacts play))%nat) as [Hpf Hpb] by (destruct i; try done; by destruct Hplay).
  specialize (Hp fs). unfold prepare_files in Hp. apply bind_Ok in Hp as (fs1 & Hf1 & Hp).
  apply bind_Ok in Hp as (fs2 & Hf2 & Hp). rewrite Hno', Hlen' in Hf2.
  destruct (Hfair (pr_qacts play)) as (q & Hq & Hqf); [by eapply fair_qlive|done|].
  destruct (Hall (concat (pr_qacts play))) as (q' & Hq' & Hsame). rewrite Hq in Hq'. injection Hq' as <-.
  specialize (Hsame Hqf). destruct Hrec as (c0 & Hc0 & Hrun & Hf).
  destruct (nthr_range c nthr Hn) as [Hr Hn'].
  assert (length (cl_threads C) = Z.to_nat nthr) as El by lia.
  assert (length (cl_threads C') = Z.to_nat nthr) as El' by lia.
  assert (process_log i (pretty (nobj_of c)) nthr fs1 = Ok fs2) as Hpl.
  { unfold process_log. rewrite <- Hf2. destruct i; try done;
      (apply process_memorder_log_args; [destruct c; done|lia]). }
  assert (play_main c i ["./play"; pretty nthr] play fs2
    = Ok (client_output c (rr_mem rec) (recorded_results (Z.to_nat nthr) s) (m_data (t_mem s)))) as Hpm2.
  { unfold play_main. rewrite Hpm, HC'. cbn [mbind outcome_bind].
    destruct i; try done; rewrite Hp; cbn [mbind outcome_bind]; rewrite Hq; cbn [mbind outcome_bind];
      rewrite decide_True by done; rewrite El', Hsame; done. }
  exists fs2. unfold test_round, rec_main. rewrite HC. cbn [mbind outcome_bind]. rewrite HRi, Hc0.
  cbn [mbind outcome_bind]. rewrite Hrun. cbn [mbind outcome_bind]. rewrite decide_True by done.
  rewrite Hl. cbn [mbind outcome_bind]. rewrite Hf1. cbn [mbind outcome_bind or_exit].
  rewrite Hpl. cbn [mbind outcome_bind or_exit]. rewrite Hpm2. cbn [mbind outcome_bind or_exit].
  by rewrite El, decide_True.
Qed.

(** A round of the script with the commit order scheme. *)
Lemma commit_round c nthr rec m' :
  nthr_ok c nthr → c = racey_cmd → rec_finishes c rtmcommit nthr rec →
  ∃ bound, ∀ play fs, pr_mem play = m' → fair_play rtmcommit nthr bound play →
    ∃ fs', test_round c rtmcommit (pretty (nobj_of c)) nthr rec play fs = Ok fs'.
Proof using Hmax Hniter Haddr HQt.
  intros Hn Hinit (C & HC & k & Hrec).
  destruct (client_main_moved c nthr (rr_mem rec) m' "./rec" "./play" C Hn Hinit HC)
    as (C' & HC' & Hlen & Hlen' & _ & _).
  destruct (client_commit_output c nthr _ m' C C' _ _ (concat (rr_kacts rec)) k Hn Hinit HC HC' Hrec)
    as (x0 & bound & Hp & Hfair & Hall).
  exists bound. intros play fs Hpm [Hpb Hpf].
  specialize (Hp fs). unfold prepare_commit in Hp. apply bind_Ok in Hp as (fs1 & Hf1 & Hp).
  apply bind_Ok in Hp as (fs2 & Hf2 & Hp). rewrite Hlen' in Hf2.
  destruct (Hfair (pr_yacts play)) as (y & Hy & Hyf); [by eapply fair_ylive|done|].
  destruct (Hall (concat (pr_yacts play))) as (y' & Hy' & Hsame). rewrite Hy in Hy'. injection Hy' as <-.
  specialize (Hsame Hyf). destruct Hrec as (Hrun & Hf). destruct (nthr_range c nthr Hn) as [Hr Hn'].
  assert (length (cl_threads C) = Z.to_nat nthr) as El by lia.
  assert (length (cl_threads C') = Z.to_nat nthr) as El' by lia.
  exists fs2. unfold test_round, rec_main. rewrite HC. cbn [mbind outcome_bind recorder_of]. rewrite Hrun.
  cbn [mbind outcome_bind]. rewrite decide_True by done. rewrite Hf1. cbn [mbind outcome_bind or_exit].
  unfold process_log, merge_commit_tool. rewrite istream_int_pretty, Hf2 by done.
  cbn [mbind outcome_bind or_exit]. unfold play_main. rewrite Hpm, HC'. cbn [mbind outcome_bind].
  rewrite Hp. cbn [mbind outcome_bind]. rewrite Hy. cbn [mbind outcome_bind].
  rewrite decide_True by done. cbn [mbind outcome_bind or_exit].
  by rewrite El, El', Hsame, decide_True.
Qed.

Lemma round_passes c i nthr rec m' :
  nthr_ok c nthr → c = racey_cmd → rec_finishes c i nthr rec →
  ∃ bound, ∀ play fs, pr_mem play = m' → fair_play i nthr bound play →
    ∃ fs', test_round c i (pretty (nobj_of c)) nthr rec play fs = Ok fs'.
Proof using Hmax Hniter Haddr HQ HQt.
  destruct i.
  - by apply (memorder_round c seqlock nthr seqlock_recorder).
  - by apply (memorder_round c seqbatch nthr seqbatch_recorder).
  - by apply (memorder_round c rtmseq nthr seqlock_recorder).
  - by apply (memorder_round c rtmcluster nthr rtmcluster_recorder).
  - apply commit_round.
Qed.

(** A fair recording finishes. *)
Lemma client_main_ok c nthr m x : nthr_ok c nthr → ∃ C n, client_main c m [x; pretty nthr] = Ok C ∧
  client_ok C n ∧ Z.of_nat (length (cl_threads C)) = nthr.
Proof using Hmax Hniter.
  intros Hn. destruct (nthr_range c nthr Hn) as [Hr ?]. unfold client_main. rewrite atoi_pretty by done.
  destruct c; cbn in Hn.
  - destruct (mapM_exists (thr_body (ms_base m) niter) (λ _ _, True) (seqZ 0 nthr)) as (ths & Hths & HF).
    { intros i Hi%elem_of_seqZ. destruct (thr_body_ok (ms_base m) niter i) as (p & ? & _); [lia|]. eauto. }
    assert (∃ C, addcnt (ms_base m) (ms_init m) niter nthr = Ok C ∧ cl_threads C = ths) as (C & HC & Hc).
    { unfold addcnt. rewrite Hths. eexists. split; [done|done]. }
    exists C, (20 * niter)%nat. split_and!; [done| |].
    + by eapply addcnt_client; [done|lia..].
    + apply Forall2_length in HF. rewrite length_seqZ in HF. rewrite Hc. lia.
  - assert (∃ C, racey (ms_base m) max_loop nthr = Ok C ∧ Z.of_nat (length (cl_threads C)) = nthr) as (C & HC & Hc).
    { unfold racey. rewrite c_assert_true by lia. eexists. split; [done|]. cbn.
      rewrite length_fmap, length_seqZ. lia. }
    exists C. eexists. split_and!; [done| |done]. by eapply racey_client; [done|lia].
Qed.

Lemma memorder_finishes c i nthr R {HR : recorder_ok R} m : recorder_of i = Some R → nthr_ok c nthr →
  ∃ bound, ∀ r, rr_mem r = m → fair_rec i nthr bound r → rec_finishes c i nthr r.
Proof using Hmax Hniter.
  intros HRi Hn. destruct (client_main_ok c nthr m "./rec" Hn) as (C & n & HC & [] & Hlen).
  destruct (recording_live R (cl_objid C) (cl_nobj C) (cl_mem C) (cl_threads C) n) as (c0 & bound & Hc0 & Hb);
    [done|by eapply Forall_impl; [intros p; apply makes_at_most|]|].
  exists bound. intros r Hm Hf. exists C. rewrite Hm, HRi. split; [done|].
  assert ((bound ≤ length (rr_acts r))%nat ∧ Forall (fair (tlive (map_seqZ 0 (cl_threads C)))) (rr_acts r)) as [Hl Hfair].
  { destruct i; try done; destruct Hf as [Hl Hf]; (split; [done|]); (eapply Forall_impl; [|exact Hf]);
      intros round Hr [t|t|t k] Ht; try done; apply lookup_map_seqZ_is_Some in Ht; apply Hr; lia. }
  destruct (Hb (rr_acts r) Hfair Hl) as (s & Hrun & Hfin). exists s, c0. done.
Qed.

Lemma commit_finishes c nthr m : nthr_ok c nthr →
  ∃ bound, ∀ r, rr_mem r = m → fair_rec rtmcommit nthr bound r → rec_finishes c rtmcommit nthr r.
Proof using Hmax Hniter.
  intros Hn. destruct (client_main_ok c nthr m "./rec" Hn) as (C & n & HC & [] & Hlen).
  destruct (commit_recording_live (cl_mem C) (cl_threads C) n) as (bound & Hb).
  { intros p Hp. rewrite list.Forall_forall in co_within. eapply prog_within_impl; [|by apply co_within].
    by intros a [? _]. }
  { by eapply Forall_impl; [intros p; apply makes_at_most|]. }
  { lia. }
  exists bound. intros r Hm [Hl Hf]. exists C. rewrite Hm. split; [done|].
  destruct (Hb (rr_kacts r)) as (k & Hrun & Hfin); [|done|by exists k].
  eapply Forall_impl; [|exact Hf]. intros round Hr [t|t|t|t] Ht; try done;
    apply lookup_map_seqZ_is_Some in Ht; apply Hr; lia.
Qed.

Lemma fair_finishes c i nthr m : nthr_ok c nthr →
  ∃ bound, ∀ r, rr_mem r = m → fair_rec i nthr bound r → rec_finishes c i nthr r.
Proof using Hmax Hniter.
  destruct i.
  - by apply (memorder_finishes c seqlock nthr seqlock_recorder).
  - by apply (memorder_finishes c seqbatch nthr seqbatch_recorder).
  - by apply (memorder_finishes c rtmseq nthr seqlock_recorder).
  - by apply (memorder_finishes c rtmcluster nthr rtmcluster_recorder).
  - apply commit_finishes.
Qed.

Lemma fair_rec_le i nthr n n' r : (n' ≤ n)%nat → fair_rec i nthr n r → fair_rec i nthr n' r.
Proof. intros Hn. destruct i; intros [? ?]; (split; [lia|done]). Qed.

(** One bound for all recordings of a test. *)
Lemma recordings_finish c i nthr (mem : Z → memory) (js : list Z) : nthr_ok c nthr →
  ∃ bound, ∀ rec, (∀ j, j ∈ js → rr_mem (rec j) = mem j ∧ fair_rec i nthr bound (rec j)) →
    ∀ j, j ∈ js → rec_finishes c i nthr (rec j).
Proof using Hmax Hniter.
  intros Hn. induction js as [|j js (b1 & IH)]; [exists 0%nat; intros rec _ j Hj; by apply not_elem_of_nil in Hj|].
  destruct (fair_finishes c i nthr (mem j) Hn) as (b2 & Hj). exists (Nat.max b1 b2).
  intros rec Hrec j' [->|Hj']%elem_of_cons.
  - destruct (Hrec j) as [Hm Hf]; [by left|]. apply Hj; [done|]. eapply fair_rec_le; [|done]. lia.
  - apply (IH rec); [|done]. intros u Hu. destruct (Hrec u) as [Hm Hf]; [by right|]. split; [done|].
    eapply fair_rec_le; [|done]. lia.
Qed.

Lemma fair_play_le i nthr n n' r : (n' ≤ n)%nat → fair_play i nthr n r → fair_play i nthr n' r.
Proof. intros Hn. destruct i; intros [? ?]; (split; [lia|done]). Qed.

(** All rounds of a test, with one bound for their replays. *)
Lemma rounds_pass c i nthr (rec : Z → rec_run) (mem' : Z → memory) js :
  nthr_ok c nthr → c = racey_cmd → (∀ j, j ∈ js → rec_finishes c i nthr (rec j)) →
  ∃ bound, ∀ play, (∀ j, j ∈ js → pr_mem (play j) = mem' j ∧ fair_play i nthr bound (play j)) →
    ∀ fs, ∃ fs', foldl (λ r j, fs ← r; test_round c i (pretty (nobj_of c)) nthr (rec j) (play j) fs) (Ok fs) js
      = Ok fs'.
Proof using Hmax Hniter Haddr HQ HQt.
  intros Hn Hinit. induction js as [|j js IH] using rev_ind; intros Hjs.
  { exists 0%nat. intros play _ fs. by exists fs. }
  destruct IH as (b1 & IH); [intros j' ?; apply Hjs; set_solver|].
  pose proof (Hjs j ltac:(set_solver)) as Hfin.
  destruct (round_passes c i nthr (rec j) (mem' j) Hn Hinit Hfin) as (b2 & Hj).
  exists (Nat.max b1 b2). intros play Hplay fs. rewrite foldl_snoc.
  destruct (IH play) with (fs := fs) as (fs1 & ->).
  { intros j' Hj'. destruct (Hplay j' ltac:(set_solver)) as [? Hf]. split; [done|].
    eapply fair_play_le; [|done]. lia. }
  destruct (Hplay j ltac:(set_solver)) as [Hpm Hf]. cbn [mbind outcome_bind].
  apply Hj; [done|]. eapply fair_play_le; [|done]. lia.
Qed.
End script.

(** ** Properties *)

(** C2: the test of the repository passes for racey.  For each of the five
    recorders, any number of threads racey accepts and any number of rounds: if the
    schedules of the recordings are fair and long enough, and so are those of the
    replays, then in every round the recording finishes, the tools accept what they
    are given, the replayer, another executable with its memory elsewhere, prints
    what the recorder printed, and [test.sh racey] succeeds, whatever files it
    finds.  How long is enough for the replays depends on the recordings.  (addcnt
    prints memory it never initialized, so that its test need not pass: see
    [Addcnt].) *)
Theorem test_script_passes addr (Q : prio_queue qe_gt) `{!prio_queue_ok Q} (Qt : prio_queue ts_gt)
    `{!prio_queue_ok Qt} junk max_loop niter impl_arg i nthr ntimes (mem mem' : Z → memory) :
  (∀ path i, addr path i mod PAGE_SIZE = 0) →
  (0 < max_loop ≤ Z.to_nat MAX_LOOP)%nat → (0 < niter ≤ Z.to_nat NITER)%nat →
  impl_of impl_arg = Some i → 0 < nthr < 16 →
  ∃ rec_bound, ∀ rec, (∀ j, 1 ≤ j ≤ default 10 ntimes →
      rr_mem (rec j) = mem j ∧ fair_rec i nthr rec_bound (rec j)) →
  ∃ play_bound, ∀ play, (∀ j, 1 ≤ j ≤ default 10 ntimes →
      pr_mem (play j) = mem' j ∧ fair_play i nthr play_bound (play j)) →
    ∀ fs, ∃ fs', test_sh addr Q Qt junk max_loop niter "racey" impl_arg nthr ntimes rec play fs = Ok fs'.
Proof.
  intros Haddr Hl Hi Him Hn.
  assert (∀ j, j ∈ seqZ 1 (default 10 ntimes) → 1 ≤ j ≤ default 10 ntimes) as Hj.
  { intros j Hj%elem_of_seqZ. lia. }
  destruct (recordings_finish max_loop niter Hl Hi racey_cmd i nthr mem (seqZ 1 (default 10 ntimes)) Hn) as (rb & Hr).
  exists rb. intros rec Hrec.
  destruct (rounds_pass addr Q Qt junk max_loop niter Hl Hi Haddr racey_cmd i nthr rec mem'
    (seqZ 1 (default 10 ntimes)) Hn eq_refl) as (bound & Hb).
  { intros j Hin. by apply Hr; [auto|]. }
  exists bound. intros play Hplay fs. destruct (Hb play) with (fs := fs) as (fs' & Hfs); [auto|]. exists fs'.
  unfold test_sh. rewrite Him. exact Hfs.
Qed.

(** ** A concrete test

    [test.sh racey seqlock 2 2]: each recording is the one of [Racey], and the
    replays have the array elsewhere, at another address in each round. *)

Definition tdemo_rec (j : Z) : rec_run := RecRun (Memory 4096 (λ _, 0)) [rdemo_acts] [].
Definition tdemo_mem (j : Z) : memory := Memory (65536 * j) (λ _, 0).

(** Each thread takes five instructions before one of its stores drains. *)
Definition tdemo_play (j : Z) : play_run :=
  PlayRun (tdemo_mem j)
    (replicate 400 (replicate 5 (QExec 0) ++ [QDrain 0] ++ replicate 5 (QExec 1) ++ [QDrain 1])%list) [].

Example tdemo_passes :
  is_ok (test_sh demo_path_addr (sorted_queue qe_gt) (sorted_queue ts_gt) 0 4 1 "racey" "seqlock" 2
           (Some 2) tdemo_rec tdemo_play ∅) = true.
Proof. vm_compute. reflexivity. Qed.

(** The recorder with transactions on blocks, and the two runs with the array at
    other addresses. *)
Lemma test_script_passes_witness :
  ∃ rec_bound, ∀ rec, (∀ j, 1 ≤ j ≤ 2 →
      rr_mem (rec j) = Memory 4096 (λ _, 0) ∧ fair_rec rtmcommit 2 rec_bound (rec j)) →
  ∃ play_bound, ∀ play, (∀ j, 1 ≤ j ≤ 2 →
      pr_mem (play j) = tdemo_mem j ∧ fair_play rtmcommit 2 play_bound (play j)) →
    ∀ fs, ∃ fs', test_sh demo_path_addr (sorted_queue qe_gt) (sorted_queue ts_gt) 0 4 1 "racey" "rtmcommit" 2
      (Some 2) rec play fs = Ok fs'.
Proof.
  apply (test_script_passes demo_path_addr (sorted_queue qe_gt) (sorted_queue ts_gt) 0 4 1 "rtmcommit"
           rtmcommit 2 (Some 2) (λ _, Memory 4096 (λ _, 0)) tdemo_mem (λ _, demo_addr_aligned)).
  - unfold MAX_LOOP. lia.
  - unfold NITER. lia.
  - reflexivity.
  - lia.
Defined.

(** Two runs of addcnt that find different words in their memory: the test fails. *)
Definition tdemo_addcnt (r : bool) : memory := Memory (if r then 4096 else 65536) (λ _, if r then 0 else 7).

Definition tdemo_addcnt_play : play_run :=
  PlayRun (tdemo_addcnt false)
    (replicate 400 (replicate 5 (QExec 0) ++ [QDrain 0] ++ replicate 5 (QExec 1) ++ [QDrain 1])%list) [].

Example tdemo_addcnt_fails :
  test_sh demo_path_addr (sorted_queue qe_gt) (sorted_queue ts_gt) 0 4 1 "addcnt" "seqlock" 2
    (Some 1) (λ _, RecRun (tdemo_addcnt true) [ademo_acts] []) (λ _, tdemo_addcnt_play) ∅ = Err ExitFailure ∧
  is_ok (test_sh demo_path_addr (sorted_queue qe_gt) (sorted_queue ts_gt) 0 4 1 "addcnt" "seqlock" 2
    (Some 1) (λ _, RecRun (tdemo_addcnt false) [ademo_acts] []) (λ _, tdemo_addcnt_play) ∅) = true.
Proof. split; vm_compute; reflexivity. Qed.
