(* ===== verification/Tls.v ===== *)
(** * Tls: the emulation of thread-local variables, [tls.h] and [tls.c]

    A variable is an array with an element per thread; a thread finds its element
    with its id, which it keeps as its value of a [pthread] key.  No code of the
    repository sets that value: what [pthread_getspecific(tid_key)] returns in each
    thread is a parameter, [getspecific].  The theorem says which threads have a
    variable at all, and when it is as good as one of their own. *)
From S2P Require Import Prelude Mem.

(** ** The program *)

(** Whether the key [tid_key] is made; a variable, [NULL] until it is allocated. *)
Record tls_state := TlsState {
  tid_key : bool;
  var_tls : option (gmap Z Z) }.

(** Before [main]: [DEFINE_TLS_GLOBAL]. *)
Definition tls_zero : tls_state := TlsState false None.

(** [init] of [tls.c]; [created] is whether [pthread_key_create] returned zero. *)
Definition tls_init (created : bool) (s : tls_state) : outcome tls_state :=
  if created then Ok (TlsState true (var_tls s)) else Err ExitFailure.

(** [ALLOC_TLS_GLOBAL(nthr, var)]. *)
Definition alloc_tls (avail : bool) (nthr : Z) (s : tls_state) : outcome tls_state :=
  a ← calloc_check avail nthr 0;
  Ok (TlsState (tid_key s) (Some a)).

Section tls.
Context (getspecific : Z → Z).

(** [TLS_tid] in thread [thr]: the value of the key, as a [tid_t]. *)
Definition tls_tid (thr : Z) (s : tls_state) : outcome Z :=
  if tid_key s then Ok (wrap_s 8 (getspecific thr)) else Err BadAccess.

(** [TLS(var)], read and written. *)
Definition tls_get (thr : Z) (s : tls_state) : outcome Z :=
  tid ← tls_tid thr s;
  match var_tls s with Some a => arr_get a tid | None => Err BadAccess end.

Definition tls_put (thr val : Z) (s : tls_state) : outcome tls_state :=
  tid ← tls_tid thr s;
  match var_tls s with
  | Some a => a ← arr_set a tid val; Ok (TlsState (tid_key s) (Some a))
  | None => Err BadAccess
  end.
End tls.

(** Accesses of the threads in the order they happen, with what the reads give. *)
Inductive tls_op := TlsRead (thr : Z) | TlsWrite (thr val : Z).

Fixpoint tls_run (getspecific : Z → Z) (ops : list tls_op) (s : tls_state) : outcome (list Z * tls_state) :=
  match ops with
  | [] => Ok ([], s)
  | TlsRead thr :: ops =>
      x ← tls_get getspecific thr s; '(xs, s) ← tls_run getspecific ops s; Ok (x :: xs, s)
  | TlsWrite thr val :: ops => s ← tls_put getspecific thr val s; tls_run getspecific ops s
  end.

(** ** The specification *)

(** A variable for each thread of the same id [key], which is zero at first; with
    the thread itself as [key] it is a variable of each thread's own. *)
Fixpoint private_run (key : Z → Z) (ops : list tls_op) (own : gmap Z Z) : list Z :=
  match ops with
  | [] => []
  | TlsRead thr :: ops => default 0 (own !! key thr) :: private_run key ops own
  | TlsWrite thr val :: ops => private_run key ops (<[key thr := val]> own)
  end.

Definition tls_op_thr (op : tls_op) : Z := match op with TlsRead thr | TlsWrite thr _ => thr end.

(** ** Lemmas *)

(** Where the program starts: the key is made and every element is zero. *)
Lemma tls_start_ok nthr :
  tls_init true tls_zero ≫= alloc_tls true nthr = Ok (TlsState true (Some (arr_make nthr 0))).
Proof. done. Qed.

Section proof.
Context (getspecific : Z → Z) (nthr : Z).
Local Abbreviation id8 := (λ thr, wrap_s 8 (getspecific thr)).

(** The elements are the variables of the ids. *)
Definition tls_holds (own : gmap Z Z) (s : tls_state) : Prop :=
  ∃ a, s = TlsState true (Some a) ∧ (∀ i, is_Some (a !! i) ↔ 0 ≤ i < nthr) ∧
    ∀ i, 0 ≤ i < nthr → a !! i = Some (default 0 (own !! i)).

Lemma tls_holds_start : tls_holds ∅ (TlsState true (Some (arr_make nthr 0))).
Proof.
  exists (arr_make nthr 0). split_and!; [done|..]; intros i; rewrite lookup_arr_make.
  - by case_decide.
  - intros Hi. by rewrite decide_True, lookup_empty.
Qed.

Lemma tls_run_ids ops own s : tls_holds own s → Forall (λ op, 0 ≤ id8 (tls_op_thr op) < nthr) ops →
  ∃ s', tls_run getspecific ops s = Ok (private_run id8 ops own, s').
Proof.
  intros Hs Hops. revert own s Hs. induction Hops as [|op ops Hop Hops IH]; intros own s Hs; [by exists s|].
  destruct op as [t|t val]; cbn in Hop |- *.
  - destruct (IH own s Hs) as [s' IH']. exists s'. destruct Hs as (a & -> & _ & Ha). unfold tls_get, tls_tid. cbn.
    rewrite (arr_get_lookup _ _ _ (Ha _ Hop)). cbn. by rewrite IH'.
  - destruct Hs as (a & -> & Hd & Ha). unfold tls_put, tls_tid. cbn.
    rewrite (arr_set_lookup _ _ _ _ (Ha _ Hop)). cbn. apply IH. eexists. split_and!; [done|..]; intros i.
    + rewrite lookup_insert_is_Some', Hd. split; [|tauto]. by intros [<-|?].
    + intros Hi. destruct (decide (wrap_s 8 (getspecific t) = i)) as [<-|Hne].
      * by rewrite !lookup_insert_eq.
      * rewrite !lookup_insert_ne by done. by apply Ha.
Qed.
End proof.

(** Threads of different ids have variables of their own. *)
Lemma private_run_inj key ops (own own' : gmap Z Z) :
  (∀ op op', op ∈ ops → op' ∈ ops → key (tls_op_thr op) = key (tls_op_thr op') → tls_op_thr op = tls_op_thr op') →
  (∀ op, op ∈ ops → own !! key (tls_op_thr op) = own' !! tls_op_thr op) →
  private_run key ops own = private_run (λ thr, thr) ops own'.
Proof.
  revert own own'. induction ops as [|op ops IH]; intros own own' Hinj Hown; [done|].
  destruct op as [t|t val]; cbn.
  - pose proof (Hown (TlsRead t) ltac:(set_solver)) as Ht. cbn in Ht. rewrite Ht. f_equal.
    apply IH; intros; [apply Hinj|apply Hown]; set_solver.
  - apply IH; [intros; apply Hinj; set_solver|]. intros op Hop.
    destruct (decide (tls_op_thr op = t)) as [->|Hne]; [by rewrite !lookup_insert_eq|].
    rewrite !lookup_insert_ne; [apply Hown; set_solver|done|].
    intros E. apply Hne. symmetry. apply (Hinj (TlsWrite t val)); [set_solver..|done].
Qed.

(** An id that [tid_t] cannot hold, and is less than 256, is negative in it. *)
Lemma wrap_s_8_high z : 128 ≤ z < 256 → wrap_s 8 z = z - 256.
Proof.
  intros Hz. unfold wrap_s. change (2 ^ (8 - 1)) with 128. change (2 ^ 8) with 256.
  replace (z + 128) with (z - 128 + 1 * 256) by lia. rewrite Z.mod_add, Z.mod_small by lia. lia.
Qed.

(** ** Properties *)

(** C26: what a variable of [tls.h] is.  In a program that has made the key and
    allocated the variable for [nthr] threads, whatever values the threads have of
    the key: a thread can access the variable exactly if its value, cut to the 8 bits
    of [tid_t], is an index of the array; accesses of such threads, in any order, are
    those of one variable per 8-bit id; and if no two of the threads have the same
    8-bit id each read gives what a variable of the thread's own would hold.  The
    cut matters: threads with the values 0 to [nthr] - 1 are private for [nthr] up
    to 128; a value from 128 to 255 makes an access outside the array, and values
    that differ by 256 share a variable. *)
Theorem tls_private (getspecific : Z → Z) nthr ops :
  let id8 thr := wrap_s 8 (getspecific thr) in
  ∃ s, tls_init true tls_zero ≫= alloc_tls true nthr = Ok s ∧
    (∀ thr, is_ok (tls_get getspecific thr s) = true ↔ 0 ≤ id8 thr < nthr) ∧
    (Forall (λ op, 0 ≤ id8 (tls_op_thr op) < nthr) ops →
     (∃ s', tls_run getspecific ops s = Ok (private_run id8 ops ∅, s')) ∧
     ((∀ op op', op ∈ ops → op' ∈ ops → id8 (tls_op_thr op) = id8 (tls_op_thr op') →
        tls_op_thr op = tls_op_thr op') →
      ∃ s', tls_run getspecific ops s = Ok (private_run (λ thr, thr) ops ∅, s'))) ∧
    ((∀ op, op ∈ ops → getspecific (tls_op_thr op) = tls_op_thr op ∧ 0 ≤ tls_op_thr op < nthr) → nthr ≤ 128 →
      ∃ s', tls_run getspecific ops s = Ok (private_run (λ thr, thr) ops ∅, s')) ∧
    (∀ thr, 128 ≤ getspecific thr < 256 → tls_get getspecific thr s = Err BadAccess) ∧
    (∀ thr thr' s', getspecific thr' = getspecific thr + 256 →
      tls_get getspecific thr' s' = tls_get getspecific thr s').
Proof.
  intros id8. eexists. split; [apply tls_start_ok|].
  pose proof (tls_run_ids getspecific nthr ops ∅ _ (tls_holds_start nthr)) as Hrun.
  assert (∀ thr, is_ok (tls_get getspecific thr (TlsState true (Some (arr_make nthr 0)))) = true
    ↔ 0 ≤ id8 thr < nthr) as Hok.
  { intros thr. unfold tls_get, tls_tid, arr_get. cbn -[wrap_s]. rewrite lookup_arr_make. by case_decide. }
  split_and!; [done|..].
  - intros Hops. destruct (Hrun Hops) as [s' Hs']. split; [eauto|]. intros Hinj. exists s'.
    rewrite Hs'. do 2 f_equal. by apply private_run_inj.
  - intros Hids Hn. assert (∀ op, op ∈ ops → id8 (tls_op_thr op) = tls_op_thr op) as Hid.
    { intros op Hop. destruct (Hids op Hop) as [E ?]. unfold id8. rewrite E. apply wrap_s_id; lia. }
    destruct Hrun as [s' Hs'].
    { apply list.Forall_forall. intros op Hop. fold (id8 (tls_op_thr op)). rewrite (Hid op Hop).
      by apply Hids. }
    exists s'. rewrite Hs'. do 2 f_equal. apply private_run_inj; [|done].
    intros op op' Hop Hop'. fold (id8 (tls_op_thr op)) (id8 (tls_op_thr op')). by rewrite !Hid.
  - intros thr Ht. unfold tls_get, tls_tid, arr_get. cbn -[wrap_s].
    rewrite wrap_s_8_high, lookup_arr_make, decide_False by lia. done.
  - intros thr thr' s' E. unfold tls_get, tls_tid. rewrite E.
    replace (wrap_s 8 (getspecific thr + 256)) with (wrap_s 8 (getspecific thr)); [done|].
    unfold wrap_s. change (2 ^ 8) with 256. f_equal.
    replace (getspecific thr + 256 + 2 ^ (8 - 1)) with (getspecific thr + 2 ^ (8 - 1) + 1 * 256) by lia.
    by rewrite Z.mod_add.
Qed.

(** Three threads; and 300 threads, of which number 256 overwrites what number 0
    wrote. *)
Definition demo_tls_ops : list tls_op := [TlsWrite 0 5; TlsWrite 1 6; TlsRead 0; TlsRead 2; TlsRead 1].

Example demo_tls_run :
  (s ← tls_init true tls_zero ≫= alloc_tls true 3; fst <$> tls_run (λ t, t) demo_tls_ops s) = Ok [5; 0; 6] ∧
  (s ← tls_init true tls_zero ≫= alloc_tls true 300;
   fst <$> tls_run (λ t, t) [TlsWrite 0 5; TlsWrite 256 6; TlsRead 0] s) = Ok [6].
Proof. split; vm_compute; reflexivity. Qed.

Lemma tls_private_witness :
  (∃ s s', tls_init true tls_zero ≫= alloc_tls true 3 = Ok s ∧
     tls_run (λ t, t) demo_tls_ops s = Ok ([5; 0; 6], s')) ∧
  ∃ s, tls_init true tls_zero ≫= alloc_tls true 300 = Ok s ∧
    tls_get (λ t, t) 129 s = Err BadAccess ∧ tls_get (λ t, t) 256 s = tls_get (λ t, t) 0 s.
Proof.
  split.
  - destruct (tls_private (λ t, t) 3 demo_tls_ops) as (s & Hs & _ & _ & Hr & _). exists s.
    destruct Hr as [s' Hs']; [|lia|exists s'; split; [exact Hs|exact Hs']].
    intros op Hop. split; [reflexivity|]. unfold demo_tls_ops in Hop.
    repeat (apply elem_of_cons in Hop as [->|Hop]; [cbn; lia|]). by apply not_elem_of_nil in Hop.
  - destruct (tls_private (λ t, t) 300 []) as (s & Hs & _ & _ & _ & Hb & Ha). exists s.
    split; [exact Hs|]. split; [apply Hb; lia|apply Ha; reflexivity].
Defined.
