(* ===== verification/Tsx.v ===== *)
(** * Tsx: assertions inside transactions, [tsx/cpuid.h], [tsx/assert.h] and
    [tsx/tsx-assert.c]

    Output inside a hardware transaction aborts it, and an assertion's message is
    lost with everything else the transaction did.  [tsx_assert_fail] commits the
    transactions it is in first.  The processor is what [cpuid] reports and, for one
    thread, the transactions that are open with the stores they hold back. *)
From stdpp Require Import strings pretty.
From S2P Require Import Prelude Text.

#[local] Open Scope string_scope.
#[local] Open Scope Z_scope.

(** ** The processor *)

(** [m_nest] transactions are open; [m_view] is memory as the thread sees it,
    [m_mem] what the others see and what an abort goes back to. *)
Record machine := Machine {
  m_mem : gmap Z Z;
  m_view : gmap Z Z;
  m_nest : nat;
  m_stderr : list string }.

(** [_xtest] is an invalid instruction on a processor without RTM and HLE. *)
Definition xtest (rtm : bool) (m : machine) : outcome bool :=
  if rtm then Ok (bool_decide (m_nest m ≠ 0%nat)) else Err BadAccess.

(** The end of the outermost transaction makes its stores visible; [_xend] outside
    a transaction is a fault. *)
Definition xend (m : machine) : outcome machine :=
  match m_nest m with
  | O => Err BadAccess
  | S O => Ok (Machine (m_view m) (m_view m) 0 (m_stderr m))
  | S n => Ok (Machine (m_mem m) (m_view m) n (m_stderr m))
  end.

(** What becomes of a thread that does output or ends the process. *)
Inductive ending :=
| Died (m : machine)      (* the process has been aborted *)
| RolledBack (m : machine).  (* the transaction has, and its fallback path runs *)

(** A system call: inside a transaction it aborts it. *)
Definition syscall (f : machine → ending) (m : machine) : ending :=
  if decide (m_nest m = 0%nat) then f m
  else RolledBack (Machine (m_mem m) (m_mem m) 0 (m_stderr m)).

(** [fprintf(stderr, ...)] and [abort()]. *)
Definition print_and_abort (message : string) : machine → ending :=
  syscall (λ m, syscall Died (Machine (m_mem m) (m_view m) (m_nest m) (m_stderr m ++ [message]))).

(** ** The code *)

Definition CPUID_RTM : Z := Z.shiftl 1 11.
Definition CPUID_HLE : Z := Z.shiftl 1 4.

(** The second of the four registers. *)
Definition ebx (r : Z * Z * Z * Z) : Z := let '(_, b, _, _) := r in b.

Section cpuid.
(** [__get_cpuid_max] and [__cpuid_count] of the compiler's [cpuid.h]. *)
Context (get_cpuid_max : Z → Z) (cpuid_count : Z → Z → Z * Z * Z * Z).

Definition cpu_has (bit : Z) : bool :=
  if decide (7 ≤ get_cpuid_max 0) then
    let '(a, b, c, d) := cpuid_count 7 0 in
    bool_decide (Z.land b bit ≠ 0)
  else false.

Definition cpu_has_rtm : bool := cpu_has CPUID_RTM.
Definition cpu_has_hle : bool := cpu_has CPUID_HLE.

(** [while (_xtest()) _xend();] *)
Fixpoint end_all (fuel : nat) (m : machine) : outcome machine :=
  match fuel with
  | O => Err OutOfFuel
  | S fuel =>
      t ← xtest cpu_has_rtm m;
      if t : bool then m ← xend m; end_all fuel m else Ok m
  end.

Definition assert_message (file : string) (line : Z) (expr : string) : string :=
  "Assertation failure: " +:+ file +:+ ":" +:+ pretty line +:+ ": " +:+ expr +:+ LF.

(** [has_rtm] is set by the constructor [init]. *)
Definition tsx_assert_fail (has_rtm : bool) (file : string) (line : Z) (expr : string) (m : machine)
    : outcome ending :=
  m ← (if has_rtm then end_all (S (m_nest m)) m else Ok m);
  Ok (print_and_abort (assert_message file line expr) m).

Definition init : bool := cpu_has_rtm.

(** [tsx_assert(x)]: [inl] when the program goes on. *)
Definition tsx_assert (x : bool) (file : string) (line : Z) (expr : string) (m : machine)
    : outcome (machine + ending) :=
  if x then Ok (inl m) else inr <$> tsx_assert_fail init file line expr m.

(** An ordinary [assert(x)] prints at once. *)
Definition plain_assert (x : bool) (message : string) (m : machine) : machine + ending :=
  if x then inl m else inr (print_and_abort message m).

(** ** Properties *)

(** The flag [cpuid] reports is one bit of one register. *)
Lemma cpu_has_bit n : 7 ≤ get_cpuid_max 0 → 0 ≤ n →
  cpu_has (Z.shiftl 1 n) = Z.testbit (ebx (cpuid_count 7 0)) n.
Proof.
  intros Hm Hn. unfold cpu_has, ebx. rewrite decide_True, Z.shiftl_1_l by done.
  destruct (cpuid_count 7 0) as [[[a b] c] d].
  assert (Z.land b (2 ^ n) = if Z.testbit b n then 2 ^ n else 0) as ->.
  { apply Z.bits_inj'. intros i Hi. rewrite Z.land_spec, Z.pow2_bits_eqb by done.
    destruct (Z.eqb_spec n i) as [->|Hne].
    - destruct (Z.testbit b i); cbn; [by rewrite Z.pow2_bits_true|by rewrite Z.bits_0].
    - rewrite andb_false_r. destruct (Z.testbit b n); [|by rewrite Z.bits_0].
      by rewrite Z.pow2_bits_false. }
  destruct (Z.testbit b n); [|done]. apply bool_decide_eq_true. pose proof (Z.pow_pos_nonneg 2 n). lia.
Qed.

Lemma end_all_ok fuel m : cpu_has_rtm = true → (m_nest m < fuel)%nat →
  (m_nest m = 0%nat → m_view m = m_mem m) →
  end_all fuel m = Ok (Machine (m_view m) (m_view m) 0 (m_stderr m)).
Proof.
  intros Hr. revert m. induction fuel as [|fuel IH]; intros [mem view nest out] Hlt Hv; [cbn in Hlt; lia|].
  cbn in *. rewrite Hr. cbn. destruct nest as [|[|n]]; cbn.
  - by rewrite Hv.
  - rewrite IH; cbn; [done|lia|done].
  - rewrite IH; cbn; [done|lia|done].
Qed.
End cpuid.

(** C39: an assertion that fails is reported, wherever it fails.  On a processor
    that reports RTM, in any number of nested transactions, and on one that does
    not, outside of any: [tsx_assert] ends the process with its message written and with what the
    thread stored visible, and its loop over [_xend] terminates without a fault.
    An ordinary assertion in a transaction only aborts the transaction: its message
    and the stores are gone. *)
Theorem tsx_assert_reports get_cpuid_max cpuid_count file line expr (m : machine) :
  (m_nest m = 0%nat → m_view m = m_mem m) →
  (m_nest m ≠ 0%nat → 7 ≤ get_cpuid_max 0 ∧ Z.testbit (ebx (cpuid_count 7 0)) 11 = true) →
  tsx_assert get_cpuid_max cpuid_count false file line expr m
    = Ok (inr (Died (Machine (m_view m) (m_view m) 0 (m_stderr m ++ [assert_message file line expr])))) ∧
  (m_nest m ≠ 0%nat → ∀ message,
    plain_assert false message m = inr (RolledBack (Machine (m_mem m) (m_mem m) 0 (m_stderr m)))).
Proof.
  intros Hv Hr. split.
  - unfold tsx_assert, tsx_assert_fail, init. destruct (cpu_has_rtm _ _) eqn:Hc.
    + rewrite (end_all_ok _ _ (S (m_nest m)) m Hc) by (done || lia). done.
    + destruct (decide (m_nest m = 0%nat)) as [E|E]; [|].
      2: { destruct (Hr E) as [Hm Hb]. unfold cpu_has_rtm, CPUID_RTM in Hc. by rewrite cpu_has_bit, Hb in Hc. }
      destruct m as [mem view nest out]. cbn in *. rewrite E. cbn. by rewrite Hv.
  - intros Hn message. unfold plain_assert, print_and_abort, syscall. by rewrite decide_False.
Qed.

(** A processor with RTM and without HLE; two transactions are open. *)
Definition demo_cpuid_count (leaf sub : Z) : Z * Z * Z * Z := (0, 2 ^ 11 + 1, 0, 0).

Lemma tsx_assert_reports_witness :
  cpu_has_rtm (λ _, 13) demo_cpuid_count = true ∧ cpu_has_hle (λ _, 13) demo_cpuid_count = false ∧
  tsx_assert (λ _, 13) demo_cpuid_count false "racey.c" 7 "x" (Machine ∅ {[ 1 := 5 ]} 2 [])
    = Ok (inr (Died (Machine {[ 1 := 5 ]} {[ 1 := 5 ]} 0 [assert_message "racey.c" 7 "x"]))).
Proof.
  split; [reflexivity|]. split; [reflexivity|].
  destruct (tsx_assert_reports (λ _, 13) demo_cpuid_count "racey.c" 7 "x" (Machine ∅ {[ 1 := 5 ]} 2 [])) as [H _].
  - intros H. discriminate H.
  - intros _. split; [lia|reflexivity].
  - exact H.
Defined.
