(* ===== verification/MmapTest.v ===== *)
(** * MmapTest: the test program [replay-log/mmap-test.c]

    It overwrites a file with ones, through a mapping or with [write]; the logs of
    the recorders are written through mappings.  A file is its bytes, and the
    program opens it at its beginning. *)
From stdpp Require Import strings pretty.
From S2P Require Import Prelude Paths Text.

#[local] Open Scope string_scope.
#[local] Open Scope Z_scope.

(** ** System calls *)

(** [write] at the beginning of a file transfers at most this many bytes. *)
Definition MAX_RW_COUNT : Z := 0x7ffff000.

Definition sys_write (buf file : list Z) : Z * list Z :=
  let n := Z.to_nat (Z.min (Z.of_nat (length buf)) MAX_RW_COUNT) in
  (Z.of_nat n, (take n buf ++ drop n file)%list).

(** [memset(buf, 1, size)]. *)
Definition memset1 (size : Z) : list Z := replicate (Z.to_nat size) 1.

(** ** The program *)

(** What the two functions return, and the file they leave; [size] bytes of it are
    mapped, and a mapping of no bytes fails. *)
Definition mapped_write (file : list Z) (size : Z) : Z * list Z :=
  if decide (size = 0) then (1, file)
  else (0, (memset1 size ++ drop (Z.to_nat size) file)%list).

(** [allocated] says whether [malloc] found the memory, which nothing tests. *)
Definition direct_write (allocated : bool) (file : list Z) (size : Z) : outcome (Z * list Z) :=
  if decide (allocated = false ∧ size ≠ 0) then Err BadAccess
  else
    let '(n, file) := sys_write (memset1 size) file in
    Ok (if decide (n ≠ size) then (1, file) else (0, file)).

(** The status, the output and the files. *)
Definition main (allocated : bool) (fs : file_system) : outcome (Z * string * file_system) :=
  match fs !! "./file" with
  | None => Ok (1, "", fs)
  | Some file =>
      let size := Z.of_nat (length file) in
      let out := "size " +:+ pretty size +:+ LF in
      '(r, file) ← direct_write allocated file size;
      Ok (r, out, <["./file" := file]> fs)
  end.

(** ** Lemmas *)

Lemma length_memset1 size : 0 ≤ size → Z.of_nat (length (memset1 size)) = size.
Proof. intros H. unfold memset1. rewrite length_replicate. lia. Qed.

Lemma direct_write_small file size : 0 ≤ size ≤ MAX_RW_COUNT →
  direct_write true file size = Ok (0, (memset1 size ++ drop (Z.to_nat size) file)%list).
Proof.
  intros H. unfold direct_write, sys_write. rewrite decide_False by (by intros [? _]).
  rewrite length_memset1, Z.min_l by lia. rewrite decide_False by (rewrite Z2Nat.id; [tauto|lia]).
  do 3 f_equal. apply take_ge. unfold memset1. by rewrite length_replicate.
Qed.

Lemma direct_write_large file size : size = Z.of_nat (length file) → MAX_RW_COUNT < size →
  ∃ file', direct_write true file size = Ok (1, file') ∧ length file' = length file.
Proof.
  intros Hs H. unfold direct_write, sys_write, MAX_RW_COUNT in *. rewrite decide_False by (by intros [? _]).
  rewrite length_memset1, Z.min_r by lia. rewrite decide_True by (rewrite Z2Nat.id; lia). eexists. split; [done|].
  unfold memset1. rewrite length_app, length_take, length_drop, length_replicate. lia.
Qed.

(** ** Properties *)

(** C40: the two ways to write agree exactly on files of at least one byte and of
    no more bytes than one call of [write] transfers.  Below and above the results
    differ: a mapping of no bytes fails, and a call that transfers only a part is
    taken for a failure.  What [mapped_write] leaves is as many ones as the file
    had bytes, and the program, which uses [direct_write], keeps the size it prints
    and succeeds unless the file is too large. *)
Theorem mmap_writes_agree (file : list Z) (fs : file_system) :
  let size := Z.of_nat (length file) in
  (direct_write true file size = Ok (mapped_write file size) ↔ 0 < size ≤ MAX_RW_COUNT) ∧
  (mapped_write file size).2 = replicate (length file) 1 ∧
  ∃ file', length file' = length file ∧ main true (<["./file" := file]> fs)
    = Ok (if decide (size ≤ MAX_RW_COUNT) then 0 else 1, "size " +:+ pretty size +:+ LF, <["./file" := file']> fs).
Proof.
  intros size. unfold size. split_and!; [split|..].
  - intros H. destruct (decide (Z.of_nat (length file) ≤ MAX_RW_COUNT)) as [Hle|Hgt].
    + rewrite direct_write_small in H by lia. unfold mapped_write in H. case_decide; [|lia].
      injection H as H. lia.
    + destruct (direct_write_large file (Z.of_nat (length file))) as (file' & E & _); [done|lia|].
      rewrite E in H. unfold mapped_write, MAX_RW_COUNT in *. rewrite decide_False in H by lia. done.
  - intros H. rewrite direct_write_small by lia. unfold mapped_write. by rewrite decide_False by lia.
  - unfold mapped_write. case_decide as Hd.
    + destruct file; [done|]. cbn in Hd. lia.
    + cbn. rewrite drop_ge by lia. unfold memset1. by rewrite app_nil_r, Nat2Z.id.
  - unfold main. rewrite lookup_insert_eq. case_decide as Hle.
    + rewrite direct_write_small by lia. eexists. split; [|cbn [mbind outcome_bind]; by rewrite insert_insert_eq].
      unfold memset1. rewrite length_app, length_replicate, length_drop. lia.
    + destruct (direct_write_large file (Z.of_nat (length file))) as (file' & -> & Hl); [done|lia|].
      exists file'. split; [done|]. cbn [mbind outcome_bind]. by rewrite insert_insert_eq.
Qed.

Example mmap_test_run :
  main true {[ "./file" := [7; 8; 9] ]} = Ok (0, "size 3" +:+ LF, {[ "./file" := [1; 1; 1] ]}).
Proof. reflexivity. Qed.
